(* ===== verification/_CoqProject ===== *)
-Q . S2P
Prelude.v
Checksum.v
Coding.v
WalRecord.v
WalReplay.v
Memtable.v
Btree.v
Bloom.v
Disk.v
SsTable.v
Manifest.v
Compaction.v
Scores.v
Wal.v
WalAlone.v
Decimal.v
Naming.v
Engine.v
Layers.v
Store.v
Shape.v
EngineSpec.v
Runs.v
Settling.v
Callers.v
Sharing.v
Crashes.v
Triples.v
Layout.v
Tells.v
Listings.v
Reopen.v
Recovery.v
Opened.v
Logging.v
Making.v
Survive.v
Commits.v
Merging.v
Lives.v
Outages.v
Stale.v
Resp.v
Commands.v
Server.v
Sessions.v
Clients.v
Options.v
Skiplist.v
SkipSpec.v
SkipSystem.v
SkipTable.v
Program.v
Exhausted.v
