(* ===== verification/Prelude.v ===== *)
(** * lsm-kv-rs: a verification development

    [lsm-kv-rs] is a key-value store built as a log-structured merge tree (crate
    [lsmkv], under [crates/lsmkv/src/]) with a server in front of it that speaks the
    Redis protocol (crate [lsmkv-server]). A write goes to a write-ahead log and then
    into an in-memory table; a full table is frozen and flushed to a sorted file at
    level 0; a compaction merges files into the level below; a manifest, replaced
    atomically, names the files that make up the store. A read consults the newest
    layer first.

    ** The parts

    - [Prelude]: bytes, machine integers as [Z] with their bounds and wrap-arounds
      written out, the byte-string order ([Vec<u8>]'s [Ord]), [Error] and [result]
      ([error.rs]), and the state-and-error monad [stm]: a computation takes a
      state and returns a result and the state it left, also when it fails.
    - [Checksum] ([checksum.rs]), [Coding] ([coding.rs]): CRC-32 by slices of eight,
      the length-prefixed fields and the little-endian integers of every format.
    - [WalRecord] ([wal/record.rs]), [WalReplay] ([wal/reader.rs]): the framed log
      record, and the iterator that reads a log until its first damaged record.
    - [Wal], [WalAlone] ([wal.rs]): the log. The code between two lock operations is
      one function ([append_locked], [sync_enter], [write_section], [flush_log],
      [sync_leave]); [thread_step] puts them in the order [append] and
      [sync_through] do; [wal_step] interleaves any number of callers.
      [wal_append] and [wal_sync] run one caller to its end, which is what the
      engine calls.
    - [Memtable] ([memtable.rs], [lookup.rs]): the trait as a type class, and the
      class of laws every implementation discharges. [Btree] ([memtable/btree.rs])
      is an instance of both.
    - [Bloom] ([bloom.rs]) and [SsTable] ([sstable.rs]): the filter, the writer of a
      sorted file, its reader and its scan. An open table is its index, its filter and
      the bytes of its file, which nothing changes; each read of them is a call that may
      fail ([read_exact_at]). The counter of the blocks a table's lookups read is kept by
      the engine, per file number ([en_block_reads]).
    - [Disk]: the directory the store keeps its files in, with failing calls and
      crashes. [Manifest] ([manifest.rs]): the snapshot, its bytes, its replacement.
    - [Compaction] ([compaction.rs]): the planner and the merge. [Scores]: what the
      planner's doubles amount to in whole numbers.
    - [Naming] and [Engine] ([engine.rs]): file names, listings, and the store
      itself: open, get, set, delete, sync, rotate, flush, commit, compact, the
      background thread's turns. Every method is a function on the engine's state
      and the directory, in the source's order, failing where the source fails and
      leaving what had been changed by then.
    - [Layers], [Store], [Shape], [EngineSpec]: the proof that the engine keeps what
      it is told: a read is the newest of a list of layers ([Layers]); binary search
      finds the file that covers a key ([Store]); publishing a flush or a compaction
      keeps what the layers say ([Shape]); every operation keeps the invariant
      whatever fails on the way ([EngineSpec]).
    - [Runs]: the abstract specification, a finite map, and the refinement.
      [Settling]: that [compact_all] ends, by a weight its rounds take from.
    - [Callers], [Sharing] ([engine.rs]): the same methods cut where they take or
      release a lock, a stage of a thread at a time ([stage_step]); a run of the stages
      alone is the method of [Engine] ([write_alone], [flush_alone],
      [compact_alone]). [store_step] interleaves any number of calls with the
      background thread, each stage waiting for the locks it takes ([admitted]);
      [store_inv] is what holds of the engine and of every thread in between.
    - Crashes of the whole store. [Crashes]: what can be read from a log cut anywhere,
      and which crashes are considered. [Triples]: a program logic for operations that
      can stop at any call. [Layout]: what the directory holds, file by file, and what
      each call does to it. [Tells]: what a set of levels and logs says of the map.
      [Listings], [Reopen]: the listing of a directory and its tables read back.
      [Recovery], [Opened]: a directory a crash left ([keeps]) can be opened, by an
      opening that may itself be cut off, and gives an engine whose memory is what the
      directory says. [Opened.standing] is that relation at any moment of a running
      store, with calls under way: its [Ledger] lists the logs, the tables no level
      has yet and the records memory has not; [Opened.holds] is the relation between
      calls. [Logging], [Survive]: the steps of a write, a sync and a rotation keep it,
      and cut off anywhere leave a directory that keeps the store. [Making],
      [Commits], [Merging]: so do those of a flush and a compaction. [Lives]: whole
      calls, one after another, in any history of openings, calls and crashes.
      [Outages]: the interleaved callers of [Sharing] in such histories.
    - [Stale]: failures the store does not recover from, run on the engine's definitions.
    - [Skiplist] ([memtable/skiplist.rs]): the arena, and [insert] and [get] cut at
      every access to a shared atomic ([thread_step], one access of one caller).
      [SkipSpec] is the invariant of the arena and of every caller in the middle of
      an operation; [SkipSystem] interleaves any number of callers; [SkipTable] runs
      one at a time and discharges the memtable laws, so that every theorem about
      the engine holds of it over either table. [Exhausted]: what recovery does to a
      table that cannot grow.
    - [Decimal]: the standard library's decimal numbers, written and parsed.
      [Resp] ([resp.rs]): requests and replies as bytes. [Commands] ([command.rs]):
      each command run on an engine. [Server] ([server.rs]): the batches taken off a
      connection's input and the loop that serves it. [Sessions]: the
      commands of all connections, one after another, and the background thread's
      turns over the lives of the server. [Clients]: the connections at once, a command
      being the calls it makes ([work_of], which alone is [execute]) and the calls
      those of [Outages]. [Options], [Program] ([main.rs]): the command line, the accept loop
      and the process.

    ** What is proved

    The store refines a finite map over any run of calls and background turns with
    any pattern of failing system calls, a read that cannot be made answering the
    error ([Runs]), and over any number of lives, each ended by one of the crashes
    described below: what was acknowledged is there when the directory is opened again,
    which succeeds, and nothing else is ([Lives]); callers who share a store, with the
    background thread at work, see a map whose order respects time, and the levels keep
    their shape ([Sharing]); so they do over any number of those crashes ([Outages]);
    acknowledged records survive a crash under any interleaving of callers, and under
    every policy [sync] covers what was appended before it ([Wal]); replacing the manifest is atomic
    under crashes ([Manifest]); formats read back as they were written, and damage to
    them is noticed ([WalRecord], [WalReplay], [SsTable], [Manifest]); the merge keeps
    exactly the newest versions and the planner leaves no overlap ([Compaction]); the
    planner picks a level when one is past its limit and only then, whatever its
    doubles round ([Scores]), and compacting ends with none past it ([Settling]); a
    filter has no false negative and is probed within its bounds ([Bloom]); memory
    equals what recovery rebuilds ([Btree]);
    the two tables answer alike as long as the skip list has room ([SkipTable]);
    the optimised checksum is the reference one and detects bursts ([Checksum]);
    the skip list is linearizable under any interleaving of its callers, none of whom
    waits for another or panics while the arena has nodes ([SkipSystem], [SkipTable]);
    a connection's replies are those a finite map gives to the requests in its bytes,
    however they were cut up on the way ([Server]), and what it replied holds over any
    number of crashes ([Sessions]), also when the commands of many connections
    interleave ([Clients]); requests and options are read as
    they were meant ([Resp], [Options]).

    Some theorems are about behaviour the code does not mean to have: an append that
    races a failing write is acknowledged and lost ([Wal.racing_append_lost]); a log
    whose removal failed brings an old value back, and strands whoever waits for the
    flush, and a crash in the middle of the first flush leaves a directory that cannot
    be opened, and [sync] can answer [Ok] over a record recovered but never flushed, or one in a
    log that a rotation is still closing ([Stale]); a new log's directory entry is never flushed
    ([Wal.new_log_can_vanish]); with a budget of zero there is always a compaction to
    plan ([Settling.zero_budget_never_settles]), and a fan-out of 1 lets a file sink
    without end ([Settling.flat_fanout_sinks]); the name of an unknown command can
    carry a second reply ([Commands.unknown_command_splits_reply]); logs that hold more
    records than the skip list has nodes make [open] panic
    ([Exhausted.full_logs_panic_open]).

    ** Conventions, bounds and fuel

    An integer of the source is a [Z]. Additions the source could overflow are
    reduced modulo their width ([wrap64]) or bounded by a hypothesis that says so;
    lengths are bounded by the formats' [u32] fields. A loop that is not structural
    runs on fuel, and the theorems say the fuel is enough: a replay uses one unit per
    byte of its file and a record takes at least eight ([WalReplay.replay_all] always
    returns); a merge uses one unit per entry of its inputs ([merge_keeps_newest]);
    one caller of the log ends within [THREAD_FUEL] sections
    ([WalAlone.append_ends]); [compact_once] never runs out
    ([EngineSpec.compact_once_inv]). [compact_all] loops as long as a compaction is
    planned and is given its number of rounds; with a fan-out of at least 2, [54] for
    every entry and one more are enough ([Settling.compact_all_settles]). A caller of the skip list left alone
    ends within [alone_fuel] accesses, besides the swaps that fail for no reason
    ([SkipTable.left_alone_finishes]).

    A panic that a hypothesis does not rule out is a value: the skip list's operations
    answer [None] when they panic, and the operation of the engine above them ends with
    [Err Panic] ([expect]), which no code of the source handles or makes.

    ** Assumptions about the system

    [Disk] states them: a [sync_all] that returned has put the file's contents on
    the device, and what is appended later does not take them away; a rename is
    atomic; after a crash the directory is as it was at some moment no earlier than
    its last flush. A call that fails leaves an unchanged directory, or a part of
    what it was writing. Opening, looking up, scanning and merging tables make a call
    for each read of the source, and any of them may fail; a log and a manifest are read
    whole by one call each.

    [Lives] and [Outages] are about less than every crash of [Disk], since the code does
    not survive them all (the findings above are why). Their crashes are [Crashes.ordered_crash]: a
    log flushed at least once keeps its name, and a file cut short is a prefix of what
    was written. A crash in the middle of the first flush, which leaves tables and no
    manifest, is left out ([Recovery.complete]). Each life ends with the machine, at
    or after its first failing call that is not a read: a store that goes on after
    another error, or a process killed with the machine left running, is not covered by
    them. The policy is
    [Always] or [Group], under which a write that returns has been flushed; under
    [Interval] it need not have been. While opening, a call does not report a file
    that is there as missing. File numbers, sequence numbers and lengths stay within
    their widths ([Runs.in_limits], [Opened.open_in_limits],
    [Lives.files_in_limits], [Sharing.step_in_limits], [Outages.lengths_ok]).

    ** Not modelled

    In [Sharing], an append to the log and a [sync] are one step each (their own
    callers interleave in [Wal]), and so is what a thread does between two lock
    operations, on files no other thread touches; a write reads the table's size in
    the step that inserts. Waiting on the condition variable is a step that changes
    nothing, so who is woken when is not modelled, nor is the delay between two
    attempts after a failure. The
    theorems of [Sharing] and [Outages] are about safety: that a waiting caller is
    served is not claimed, and a failed removal can keep one waiting ([Stale]). Panics on
    poisoned locks are not modelled: an insert that panics holds the engine's locks for
    reading, which poisons none. [Debug] implementations, the tests, benches and examples
    carry no behaviour of the store. The accesses of the
    skip list are sequentially consistent: the memory orderings the source asks of
    each are not modelled. Of the server, the sockets and the asynchronous runtime are
    outside; in [Clients] the numbers of an [INFO] are those of one moment, and a reply
    is given when its command ends, not with its batch; the tables behind
    [str::to_uppercase] are a parameter ([Resp.Unicode]). A run of the engine over the
    skip list assumes it has room for each write ([Runs.in_limits]). *)

From Stdlib Require Export ZArith Lia Strings.Byte Orders OrdersTac Sorting.Sorted.
From stdpp Require Export base list numbers gmap strings.

#[export] Set Default Goal Selector "!".
#[global] Open Scope Z_scope.

(** ** Bytes and machine integers *)

(** A Rust [u8] and a byte slice. Every other integer type of the source is a
    [Z]; the places where the source wraps write the reduction out. *)
Abbreviation byte := Byte.byte.
Abbreviation bytes := (list Byte.byte).

Definition b2z (b : byte) : Z := Z.of_N (Byte.to_N b).

Definition z2b (z : Z) : byte :=
  match Byte.of_N (Z.to_N (z mod 256)) with
  | Some b => b
  | None => Byte.x00
  end.

Definition u32_max : Z := 4294967295.
Definition u64_max : Z := 18446744073709551615.
Definition u32_ok (z : Z) : Prop := 0 <= z <= u32_max.
Definition u64_ok (z : Z) : Prop := 0 <= z <= u64_max.

(** [wrapping_add] and friends, and the plain operators of a release build. *)
Definition wrap32 (z : Z) : Z := z mod 2 ^ 32.
Definition wrap64 (z : Z) : Z := z mod 2 ^ 64.

(** The length of a slice as a [usize]. *)
Definition zlen {A} (l : list A) : Z := Z.of_nat (length l).

(** [&bytes[from..to]], for bounds the source has already established. *)
Definition slice {A} (l : list A) (from to : Z) : list A :=
  take (Z.to_nat (to - from)) (drop (Z.to_nat from) l).

(** [buf[at..at + src.len()].copy_from_slice(src)]. *)
Definition splice {A} (l : list A) (at_ : Z) (src : list A) : list A :=
  take (Z.to_nat at_) l ++ src ++ drop (Z.to_nat at_ + length src) l.

(** [to_le_bytes] at a width of [n] bytes, and [from_le_bytes]. *)
Fixpoint to_le (n : nat) (z : Z) : bytes :=
  match n with
  | O => []
  | S n => z2b z :: to_le n (z / 256)
  end.

Fixpoint from_le (bs : bytes) : Z :=
  match bs with
  | [] => 0
  | b :: bs => b2z b + 256 * from_le bs
  end.

(** A byte-string literal, [b"..."] in the source. *)
Definition bstr (s : string) : bytes := String.list_byte_of_string s.

#[export] Instance byte_eq_dec : EqDecision byte := Byte.byte_eq_dec.

#[export] Program Instance byte_countable : Countable byte :=
  inj_countable Byte.to_N Byte.of_N _.
Next Obligation. intros b. apply Byte.of_to_N. Qed.

(** ** The lexicographic order of [&[u8]] *)

Fixpoint bytes_cmp (a b : bytes) : comparison :=
  match a, b with
  | [], [] => Eq
  | [], _ :: _ => Lt
  | _ :: _, [] => Gt
  | x :: a, y :: b =>
      match b2z x ?= b2z y with
      | Eq => bytes_cmp a b
      | c => c
      end
  end.

Definition key_lt (a b : bytes) : Prop := bytes_cmp a b = Lt.
Definition key_le (a b : bytes) : Prop := bytes_cmp a b <> Gt.
Definition key_ltb (a b : bytes) : bool :=
  match bytes_cmp a b with Lt => true | _ => false end.
Definition key_leb (a b : bytes) : bool :=
  match bytes_cmp a b with Gt => false | _ => true end.
Definition key_eqb (a b : bytes) : bool :=
  match bytes_cmp a b with Eq => true | _ => false end.

Declare Scope key_scope.
Delimit Scope key_scope with key.
Infix "<" := key_lt : key_scope.
Infix "<=" := key_le : key_scope.
Infix "<?" := key_ltb : key_scope.
Infix "<=?" := key_leb : key_scope.
Infix "=?" := key_eqb : key_scope.

(** ** Errors, results and the monads the operations run in *)

(** [error.rs], [Error]. An operating system error is its kind and its
    message, which is all the source ever looks at. [Panic] is no variant of the
    source's: it marks a call that panicked and never returned, and nothing the
    model takes from the source makes one but [expect]. *)
Inductive ErrorKind := NotFound | UnexpectedEof | OtherKind.

Record io_error := IoError { io_kind : ErrorKind; io_message : string }.

Inductive Error :=
  | Io (path : string) (source : io_error)
  | Corrupt (path : string) (detail : string)
  | TooLarge (len : Z)
  | Panic.

Inductive result (A : Type) :=
  | Ok (a : A)
  | Err (e : Error).
Arguments Ok {A} a.
Arguments Err {A} e.

#[export] Instance result_ret : MRet result := @Ok.
#[export] Instance result_bind : MBind result := fun A B f m =>
  match m with Ok a => f a | Err e => Err e end.

(** [Option::ok_or_else]. *)
Definition ok_or {A} (o : option A) (e : Error) : result A :=
  match o with Some a => Ok a | None => Err e end.

(** An operation on a mutable [S] that can fail part way: what it had already
    changed stays changed. *)
Definition stm (S A : Type) : Type := S -> result A * S.

#[export] Instance stm_ret {S} : MRet (stm S) := fun A a s => (Ok a, s).
#[export] Instance stm_bind {S} : MBind (stm S) := fun A B f m s =>
  match m s with
  | (Ok a, s') => f a s'
  | (Err e, s') => (Err e, s')
  end.

Definition modify {S} (f : S -> S) : stm S unit := fun s => (Ok tt, f s).
Definition gets {S A} (f : S -> A) : stm S A := fun s => (Ok (f s), s).
Definition lift {S A} (r : result A) : stm S A := fun s => (r, s).

(** What a call that may panic answered; [None] is a panic, which unwinds through
    all that is above it. *)
Definition expect {S A} (o : option A) : stm S A := lift (ok_or o Panic).

Lemma stm_ret_bind {S A B} (a : A) (f : A -> stm S B) : (x ← mret a; f x) = f a.
Proof. done. Qed.

Lemma expect_bind {S A B} (a : A) (f : A -> stm S B) : (x ← expect (Some a); f x) = f a.
Proof. done. Qed.

(** ** Lemmas on bytes *)

Lemma b2z_range b : 0 <= b2z b < 256.
Proof. unfold b2z. pose proof (Byte.to_N_bounded b). lia. Qed.

Lemma z2b_b2z b : z2b (b2z b) = b.
Proof.
  unfold z2b. rewrite Z.mod_small by apply b2z_range.
  unfold b2z. by rewrite N2Z.id, Byte.of_to_N.
Qed.

Lemma b2z_z2b z : b2z (z2b z) = z mod 256.
Proof.
  unfold z2b, b2z. pose proof (Z.mod_pos_bound z 256 ltac:(lia)) as H.
  destruct (Byte.of_N (Z.to_N (z mod 256))) as [b|] eqn:E.
  - apply Byte.to_of_N in E. rewrite E. lia.
  - apply Byte.of_N_None_iff in E. lia.
Qed.

Lemma b2z_inj a b : b2z a = b2z b -> a = b.
Proof. intros H. by rewrite <- (z2b_b2z a), <- (z2b_b2z b), H. Qed.

Lemma b2z_z2b_small z : 0 <= z < 256 -> b2z (z2b z) = z.
Proof. intros. rewrite b2z_z2b. by apply Z.mod_small. Qed.

(** ** Lemmas on little-endian integers *)

Lemma length_to_le n z : length (to_le n z) = n.
Proof. revert z; induction n; intros; simpl; auto. Qed.

Lemma from_le_to_le n z : from_le (to_le n z) = z mod 2 ^ (8 * Z.of_nat n).
Proof.
  revert z; induction n as [|n IH]; intros z; cbn [to_le from_le].
  - by rewrite Z.mod_1_r.
  - rewrite IH, b2z_z2b.
    replace (8 * Z.of_nat (S n)) with (8 + 8 * Z.of_nat n) by lia.
    rewrite Z.pow_add_r by lia. change (2 ^ 8) with 256.
    rewrite Z.rem_mul_r by lia. lia.
Qed.

Lemma from_le_bound bs : 0 <= from_le bs < 2 ^ (8 * zlen bs).
Proof.
  unfold zlen. induction bs as [|b bs IH]; cbn [from_le length].
  - simpl. lia.
  - pose proof (b2z_range b).
    replace (8 * Z.of_nat (S (length bs))) with (8 + 8 * Z.of_nat (length bs)) by lia.
    rewrite Z.pow_add_r by lia. change (2 ^ 8) with 256. lia.
Qed.

Lemma to_le_from_le bs n : n = length bs -> to_le n (from_le bs) = bs.
Proof.
  intros ->. induction bs as [|b bs IH]; cbn [from_le length to_le]; [done|].
  pose proof (b2z_range b). f_equal.
  - rewrite <- (z2b_b2z b) at 2. unfold z2b.
    replace ((b2z b + 256 * from_le bs) mod 256) with (b2z b mod 256); [done|].
    rewrite Z.mul_comm, Z.mod_add by lia. done.
  - rewrite Z.mul_comm, Z.div_add, Z.div_small by lia. done.
Qed.

Lemma from_le_inj a b : length a = length b -> from_le a = from_le b -> a = b.
Proof.
  intros Hl H. rewrite <- (to_le_from_le a _ eq_refl), H, Hl.
  by apply to_le_from_le.
Qed.

Lemma from_le_to_le_4 z : u32_ok z -> from_le (to_le 4 z) = z.
Proof.
  unfold u32_ok, u32_max. intros. rewrite from_le_to_le. apply Z.mod_small.
  change (2 ^ (8 * Z.of_nat 4)) with 4294967296. lia.
Qed.

Lemma from_le_to_le_8 z : u64_ok z -> from_le (to_le 8 z) = z.
Proof.
  unfold u64_ok, u64_max. intros. rewrite from_le_to_le. apply Z.mod_small.
  change (2 ^ (8 * Z.of_nat 8)) with 18446744073709551616. lia.
Qed.

Lemma from_le_u32 bs : length bs = 4%nat -> u32_ok (from_le bs).
Proof.
  intros H. pose proof (from_le_bound bs) as B. unfold zlen in B. rewrite H in B.
  unfold u32_ok, u32_max. change (2 ^ (8 * Z.of_nat 4)) with 4294967296 in B. lia.
Qed.

Lemma from_le_u64 bs : length bs = 8%nat -> u64_ok (from_le bs).
Proof.
  intros H. pose proof (from_le_bound bs) as B. unfold zlen in B. rewrite H in B.
  unfold u64_ok, u64_max. change (2 ^ (8 * Z.of_nat 8)) with 18446744073709551616 in B. lia.
Qed.

(** ** The key order is a total order *)

Lemma bytes_cmp_refl a : bytes_cmp a a = Eq.
Proof. induction a as [|x a IH]; simpl; [done|]. by rewrite Z.compare_refl. Qed.

Lemma bytes_cmp_eq a b : bytes_cmp a b = Eq <-> a = b.
Proof.
  split; [|intros ->; apply bytes_cmp_refl].
  revert b; induction a as [|x a IH]; intros [|y b]; simpl; try done.
  destruct (b2z x ?= b2z y) eqn:E; try done.
  apply Z.compare_eq, b2z_inj in E. intros H%IH. congruence.
Qed.

Lemma bytes_cmp_antisym a b : bytes_cmp b a = CompOpp (bytes_cmp a b).
Proof.
  revert b; induction a as [|x a IH]; intros [|y b]; simpl; try done.
  rewrite (Z.compare_antisym (b2z x) (b2z y)).
  destruct (b2z x ?= b2z y); simpl; auto.
Qed.

Lemma bytes_cmp_trans a b c : key_lt a b -> key_lt b c -> key_lt a c.
Proof.
  unfold key_lt. revert b c; induction a as [|x a IH]; intros [|y b] [|z c]; simpl; try done.
  destruct (Z.compare_spec (b2z x) (b2z y)); try done; intros Hab;
  destruct (Z.compare_spec (b2z y) (b2z z)); try done; intros Hbc;
  destruct (Z.compare_spec (b2z x) (b2z z)); try lia; eauto.
Qed.

#[export] Instance key_lt_strorder : StrictOrder key_lt.
Proof.
  split.
  - intros a H. unfold key_lt in H. by rewrite bytes_cmp_refl in H.
  - intros a b c. apply bytes_cmp_trans.
Qed.

Lemma key_lt_irrefl a : ~ key_lt a a.
Proof. apply (irreflexivity key_lt). Qed.

(** The standard library's [order] tactic, at this order. *)
Module KeyOrder.
Definition t := bytes.
Definition eq := @Logic.eq bytes.
Definition lt := key_lt.
Definition le := key_le.
Definition eq_equiv : Equivalence eq := eq_equivalence.
Definition lt_strorder : StrictOrder lt := key_lt_strorder.
Lemma lt_compat : Proper (eq ==> eq ==> iff) lt.
Proof. intros ?? -> ?? ->. done. Qed.
Lemma le_lteq : forall x y, le x y <-> lt x y \/ eq x y.
Proof.
  intros x y. unfold le, lt, eq, key_le, key_lt.
  rewrite <- bytes_cmp_eq. destruct (bytes_cmp x y); intuition congruence.
Qed.
Lemma lt_total : forall x y, lt x y \/ eq x y \/ lt y x.
Proof.
  intros x y. unfold lt, eq, key_lt. rewrite (bytes_cmp_antisym x y).
  rewrite <- bytes_cmp_eq. destruct (bytes_cmp x y); simpl; auto.
Qed.
End KeyOrder.
Module KeyOrderTac := !MakeOrderTac KeyOrder KeyOrder.

Ltac key_order :=
  change key_lt with KeyOrder.lt in *; change key_le with KeyOrder.le in *;
  change (@Logic.eq bytes) with KeyOrder.eq in *; KeyOrderTac.order.

Lemma bytes_cmp_spec a b : CompareSpec (a = b) (key_lt a b) (key_lt b a) (bytes_cmp a b).
Proof.
  destruct (bytes_cmp a b) eqn:E; constructor.
  - by apply bytes_cmp_eq.
  - done.
  - unfold key_lt. by rewrite bytes_cmp_antisym, E.
Qed.

Lemma key_ltb_spec a b : reflect (key_lt a b) (key_ltb a b).
Proof. unfold key_ltb, key_lt. destruct (bytes_cmp a b); constructor; congruence. Qed.

Lemma key_leb_spec a b : reflect (key_le a b) (key_leb a b).
Proof. unfold key_leb, key_le. destruct (bytes_cmp a b); constructor; congruence. Qed.

Lemma key_eqb_spec a b : reflect (a = b) (key_eqb a b).
Proof.
  unfold key_eqb. destruct (bytes_cmp a b) eqn:E; constructor.
  - by apply bytes_cmp_eq.
  - intros ->. by rewrite bytes_cmp_refl in E.
  - intros ->. by rewrite bytes_cmp_refl in E.
Qed.

Lemma key_not_le a b : ~ key_le a b <-> key_lt b a.
Proof. unfold key_le, key_lt. rewrite (bytes_cmp_antisym a b). destruct (bytes_cmp a b); simpl; intuition congruence. Qed.

Lemma key_not_lt a b : ~ key_lt a b <-> key_le b a.
Proof. unfold key_le, key_lt. rewrite (bytes_cmp_antisym a b). destruct (bytes_cmp a b); simpl; intuition congruence. Qed.

(** Case analysis on every key comparison the goal branches on. *)
Ltac key_cases :=
  repeat match goal with
  | |- context [key_ltb ?a ?b] => destruct (key_ltb_spec a b)
  | |- context [key_leb ?a ?b] => destruct (key_leb_spec a b)
  | |- context [key_eqb ?a ?b] => destruct (key_eqb_spec a b)
  | |- context [match bytes_cmp ?a ?b with _ => _ end] => destruct (bytes_cmp_spec a b)
  end; subst.

(** ** Lists *)

Lemma zlen_nonneg {A} (l : list A) : 0 <= zlen l.
Proof. unfold zlen. lia. Qed.

Lemma zlen_nil {A} : zlen (@nil A) = 0.
Proof. done. Qed.

Lemma zlen_cons {A} (x : A) l : zlen (x :: l) = 1 + zlen l.
Proof. unfold zlen. simpl. lia. Qed.

Lemma zlen_app {A} (l k : list A) : zlen (l ++ k) = zlen l + zlen k.
Proof. unfold zlen. rewrite length_app. lia. Qed.

Lemma zlen_to_le n z : zlen (to_le n z) = Z.of_nat n.
Proof. unfold zlen. by rewrite length_to_le. Qed.

Lemma zlen_nil_inv {A} (l : list A) : zlen l = 0 -> l = [].
Proof. unfold zlen. destruct l; simpl; [done|lia]. Qed.

Lemma slice_app_l {A} (l k : list A) n : n = zlen l -> slice (l ++ k) 0 n = l.
Proof.
  intros ->. unfold slice, zlen. rewrite drop_0, Z.sub_0_r, Nat2Z.id.
  apply take_app_length.
Qed.

Lemma slice_mid {A} (l m k : list A) i j :
  i = zlen l -> j = zlen l + zlen m -> slice (l ++ m ++ k) i j = m.
Proof.
  intros -> ->. unfold slice, zlen.
  replace (Z.to_nat (Z.of_nat (length l) + Z.of_nat (length m) - Z.of_nat (length l)))
    with (length m) by lia.
  rewrite Nat2Z.id, drop_app_length. apply take_app_length.
Qed.

Lemma splice_mid {A} (l m k src : list A) i :
  i = zlen l -> length m = length src -> splice (l ++ m ++ k) i src = l ++ src ++ k.
Proof.
  intros -> H. unfold splice, zlen. rewrite Nat2Z.id, take_app_length.
  rewrite <- H, <- length_app. do 2 f_equal. by rewrite app_assoc, drop_app_length.
Qed.

(** A window of a list that lies inside its middle part. *)
Lemma window_inside {A} (pre x post B R T : list A) :
  pre ++ x ++ post = B ++ R ++ T -> zlen B <= zlen pre -> zlen pre + zlen x <= zlen B + zlen R ->
  exists m1 m2, pre = B ++ m1 /\ R = m1 ++ x ++ m2 /\ post = m2 ++ T.
Proof.
  unfold zlen. intros H H1 H2.
  assert (exists m1, pre = B ++ m1 /\ R ++ T = m1 ++ x ++ post) as (m1 & -> & E).
  { apply app_eq_inv in H as [(m1 & -> & H)|(m1 & -> & H)]; [by eauto|].
    rewrite length_app in H1. assert (m1 = []) as -> by (apply nil_length_inv; lia).
    exists []. by rewrite !app_nil_r. }
  rewrite length_app in H2. rewrite app_assoc in E.
  apply app_eq_inv in E as [(m2 & -> & E)|(m2 & E & ->)].
  - exists m1, m2. by rewrite <- app_assoc.
  - apply (f_equal length) in E as E'. rewrite !length_app in E'.
    assert (m2 = []) as -> by (apply nil_length_inv; lia). rewrite app_nil_r in E. subst R.
    exists m1, []. by rewrite !app_nil_r.
Qed.

(** ** Wrapping *)

Lemma wrap64_small z : u64_ok z -> wrap64 z = z.
Proof. intros [H1 H2]. unfold wrap64, u64_max in *. apply Z.mod_small. lia. Qed.

Lemma wrap64_add_l a b : wrap64 (wrap64 a + b) = wrap64 (a + b).
Proof. unfold wrap64. by rewrite Zplus_mod_idemp_l. Qed.

Lemma wrap64_range z : u64_ok (wrap64 z).
Proof. unfold u64_ok, u64_max, wrap64. pose proof (Z.mod_pos_bound z (2 ^ 64)). lia. Qed.

(** ** Results *)

Lemma result_bind_Ok {A B} (m : result A) (f : A -> result B) b :
  (x ← m; f x) = Ok b <-> exists a, m = Ok a /\ f a = Ok b.
Proof.
  destruct m as [a|e]; simpl; split; intros H; [eauto| |done|]; destruct H as (?&?&?); congruence.
Qed.

Lemma ok_or_Ok {A} (o : option A) e a : ok_or o e = Ok a <-> o = Some a.
Proof. destruct o; simpl; split; congruence. Qed.

Lemma option_bind_Some {A B} (m : option A) (f : A -> option B) b :
  (x ← m; f x) = Some b <-> exists a, m = Some a /\ f a = Some b.
Proof.
  destruct m as [a|]; simpl; split; intros H; [eauto| |done|]; destruct H as (?&?&?); congruence.
Qed.

(** Peels a successful chain of binds, in [result] and in [option]. *)
Ltac inv_bind :=
  repeat match goal with
  | H : mbind _ _ = Ok _ |- _ => apply result_bind_Ok in H as (?&?&?)
  | H : mbind _ _ = Some _ |- _ => apply option_bind_Some in H as (?&?&?)
  | H : ok_or _ _ = Ok _ |- _ => apply ok_or_Ok in H
  | H : Ok _ = Ok _ |- _ => injection H as H
  | H : Some _ = Some _ |- _ => injection H as H
  | H : Err _ = Ok _ |- _ => discriminate H
  | H : None = Some _ |- _ => discriminate H
  end; subst.

(** One element of a list replaced: the rest of what the elements have between them
    stays. *)
Lemma concat_insert {A B} (f : A -> list B) (xs : list A) i x y : xs !! i = Some x -> exists rest,
  concat (f <$> xs) ≡ₚ f x ++ rest /\ concat (f <$> <[i := y]> xs) ≡ₚ f y ++ rest.
Proof.
  intros Hi. pose proof (lookup_lt_Some _ _ _ Hi). exists (concat (f <$> take i xs ++ drop (S i) xs)). split.
  - assert (xs = take i xs ++ x :: drop (S i) xs) as E by (symmetry; by apply take_drop_middle).
    rewrite E at 1. rewrite !fmap_app, fmap_cons, !concat_app. cbn. by rewrite Permutation_app_swap_app.
  - rewrite insert_take_drop by done. rewrite !fmap_app, fmap_cons, !concat_app. cbn. by rewrite Permutation_app_swap_app.
Qed.

(** [bind] of two steps: the first step's outcome decides. *)
Lemma stm_bind_assoc {S A B C} (m : stm S A) (f : A -> stm S B) (g : B -> stm S C) s :
  (a ← m; b ← f a; g b) s = (b ← (a ← m; f a); g b) s.
Proof. unfold mbind, stm_bind. by destruct (m s) as [[a|e] s']. Qed.

Lemma stm_bind_cases {S A B} (m : stm S A) (f : A -> stm S B) s r s' :
  (x ← m; f x) s = (r, s') ->
  (exists a s1, m s = (Ok a, s1) /\ f a s1 = (r, s')) \/ (exists e, m s = (Err e, s') /\ r = Err e).
Proof.
  unfold mbind, stm_bind. destruct (m s) as [[a|e] s1]; [by eauto|]. intros [= <- <-]. eauto.
Qed.

(** Runs the binds of a stateful operation at an explicit state. *)
Ltac run_stm :=
  unfold mbind, stm_bind, mret, stm_ret, lift, modify, gets in *; cbn beta iota in *.

Create HintDb lsm.
Create Rewrite HintDb lsm.
#[export] Hint Rewrite @zlen_nil @zlen_cons @zlen_app zlen_to_le @length_app length_to_le
  @length_nil @length_cons : lsm.
#[export] Hint Resolve b2z_range zlen_nonneg from_le_u32 from_le_u64 : lsm.
