(* ===== verification/Checksum.v ===== *)
(** * CRC-32 ([checksum.rs])

    The eight tables, the slice-by-eight [update] with its byte-at-a-time tail,
    [crc32] and [crc32_parts]. The theorems: the sliced loop computes the same
    checksum as the byte-at-a-time loop the source replaced and keeps as a test,
    checksums compose over concatenation, results stay within [u32], and a
    corruption confined to four consecutive bytes always changes the checksum. *)

From S2P Require Import Prelude.

Definition POLYNOMIAL : Z := 0xEDB88320.
Definition INIT : Z := 0xFFFFFFFF.

(** One turn of the inner [while bit < 8] loop of [build_tables]. *)
Definition crc_bit (crc : Z) : Z :=
  if Z.land crc 1 =? 1
  then Z.lxor (Z.shiftr crc 1) POLYNOMIAL
  else Z.shiftr crc 1.

(** [tables[0][byte]]. *)
Definition table_entry (byte : Z) : Z := Nat.iter 8 crc_bit byte.

(** [tables[table][byte]] from the table before it and table 0. *)
Definition carry_entry (first prev : list Z) (byte : Z) : Z :=
  let carried := nth (Z.to_nat byte) prev 0 in
  Z.lxor (Z.shiftr carried 8) (nth (Z.to_nat (Z.land carried 0xFF)) first 0).

Fixpoint build_later (n : nat) (first prev : list Z) : list (list Z) :=
  match n with
  | O => []
  | S n =>
      let next := map (carry_entry first prev) (seqZ 0 256) in
      next :: build_later n first next
  end.

Definition build_tables : list (list Z) :=
  let first := map table_entry (seqZ 0 256) in
  first :: build_later 7 first first.

(** The compile-time constant: the tables, evaluated once. *)
Definition TABLES : list (list Z) := Eval vm_compute in build_tables.

(** [TABLES[k][index]]. *)
Definition table (k : nat) (index : Z) : Z := nth (Z.to_nat index) (nth k TABLES []) 0.

(** The second loop of [update], over what the stride left. *)
Definition update_byte (crc : Z) (b : byte) : Z :=
  Z.lxor (Z.shiftr crc 8) (table 0 (Z.land (Z.lxor crc (b2z b)) 0xFF)).

(** One turn of the first loop of [update]. *)
Definition update_stride (crc : Z) (b0 b1 b2 b3 b4 b5 b6 b7 : byte) : Z :=
  let head :=
    Z.lxor (Z.lxor (Z.lxor (Z.lxor crc (b2z b0))
      (Z.shiftl (b2z b1) 8)) (Z.shiftl (b2z b2) 16)) (Z.shiftl (b2z b3) 24) in
  let tail :=
    Z.lor (Z.lor (Z.lor (b2z b4)
      (Z.shiftl (b2z b5) 8)) (Z.shiftl (b2z b6) 16)) (Z.shiftl (b2z b7) 24) in
  Z.lxor (Z.lxor (Z.lxor (Z.lxor (Z.lxor (Z.lxor (Z.lxor
    (table 7 (Z.land head 0xFF))
    (table 6 (Z.land (Z.shiftr head 8) 0xFF)))
    (table 5 (Z.land (Z.shiftr head 16) 0xFF)))
    (table 4 (Z.land (Z.shiftr head 24) 0xFF)))
    (table 3 (Z.land tail 0xFF)))
    (table 2 (Z.land (Z.shiftr tail 8) 0xFF)))
    (table 1 (Z.land (Z.shiftr tail 16) 0xFF)))
    (table 0 (Z.land (Z.shiftr tail 24) 0xFF)).

Fixpoint update (crc : Z) (bs : bytes) {struct bs} : Z :=
  match bs with
  | b0 :: b1 :: b2 :: b3 :: b4 :: b5 :: b6 :: b7 :: rest =>
      update (update_stride crc b0 b1 b2 b3 b4 b5 b6 b7) rest
  | tail => fold_left update_byte tail crc
  end.

(** [!crc] on a [u32]. *)
Definition not32 (crc : Z) : Z := Z.lxor crc 0xFFFFFFFF.

Definition crc32 (bs : bytes) : Z := not32 (update INIT bs).

Definition crc32_parts (first second : bytes) : Z := not32 (update (update INIT first) second).

(** The reference the source keeps as a test: one byte at a time. *)
Definition crc32_bytewise (bs : bytes) : Z := not32 (fold_left update_byte bs INIT).

(** ** The shift register behind the tables *)

(** Eight turns of the register, which is what consuming one byte costs. *)
Definition shift8 (x : Z) : Z := Nat.iter 8 crc_bit x.

Lemma crc_bit_alt x :
  crc_bit x = Z.lxor (Z.shiftr x 1) (if Z.testbit x 0 then POLYNOMIAL else 0).
Proof.
  unfold crc_bit. change 1 with (Z.ones 1) at 1. rewrite Z.land_ones by lia.
  change (2 ^ 1) with 2. rewrite Zmod_odd, <- Z.bit0_odd.
  destruct (Z.testbit x 0); simpl; [done|]. by rewrite Z.lxor_0_r.
Qed.

Lemma crc_bit_lxor x y : crc_bit (Z.lxor x y) = Z.lxor (crc_bit x) (crc_bit y).
Proof.
  rewrite !crc_bit_alt, Z.lxor_spec, Z.shiftr_lxor.
  apply Z.bits_inj'. intros n Hn. rewrite !Z.lxor_spec.
  destruct (Z.testbit x 0), (Z.testbit y 0); simpl;
    rewrite ?Z.bits_0; destruct (Z.testbit POLYNOMIAL n), (Z.testbit (Z.shiftr x 1) n),
    (Z.testbit (Z.shiftr y 1) n); done.
Qed.

Lemma crc_bit_shiftl x : crc_bit (Z.shiftl x 1) = x.
Proof.
  rewrite crc_bit_alt, Z.shiftl_spec_low by lia.
  rewrite Z.shiftr_shiftl_l by lia. by rewrite Z.lxor_0_r, Z.shiftl_0_r.
Qed.

Lemma shift8_lxor x y : shift8 (Z.lxor x y) = Z.lxor (shift8 x) (shift8 y).
Proof. unfold shift8. simpl. by rewrite !crc_bit_lxor. Qed.

Lemma shift8_shiftl x : shift8 (Z.shiftl x 8) = x.
Proof.
  replace (Z.shiftl x 8) with (Nat.iter 8 (fun y => Z.shiftl y 1) x).
  - unfold shift8. simpl. by rewrite !crc_bit_shiftl.
  - simpl. by rewrite !Z.shiftl_shiftl by lia.
Qed.

Lemma split_low_byte x : x = Z.lxor (Z.shiftl (Z.shiftr x 8) 8) (Z.land x 255).
Proof.
  apply Z.bits_inj'. intros n Hn.
  rewrite Z.lxor_spec, Z.land_spec. change 255 with (Z.ones 8).
  destruct (Z.lt_ge_cases n 8).
  - rewrite Z.shiftl_spec_low, Z.ones_spec_low by lia. by rewrite andb_true_r, xorb_false_l.
  - rewrite Z.shiftl_spec, Z.shiftr_spec, Z.ones_spec_high by lia.
    rewrite andb_false_r, xorb_false_r. f_equal. lia.
Qed.

Lemma shift8_split x : shift8 x = Z.lxor (Z.shiftr x 8) (shift8 (Z.land x 255)).
Proof. rewrite (split_low_byte x) at 1. by rewrite shift8_lxor, shift8_shiftl. Qed.

Lemma land_255_range x : 0 <= Z.land x 255 < 256.
Proof. change 255 with (Z.ones 8). rewrite Z.land_ones by lia. apply Z.mod_pos_bound. lia. Qed.

(** Every table entry is its byte pushed that many positions through the
    register; checked entry by entry. *)
Lemma tables_checked :
  forallb (fun k => forallb (fun i => table k i =? Nat.iter (S k) shift8 i) (seqZ 0 256)) (seq 0 8)
  = true.
Proof. vm_compute. reflexivity. Qed.

Lemma table_spec k i : (k < 8)%nat -> 0 <= i < 256 -> table k i = Nat.iter (S k) shift8 i.
Proof.
  intros Hk Hi. pose proof tables_checked as H. rewrite forallb_forall in H.
  specialize (H k). rewrite forallb_forall in H.
  apply Z.eqb_eq, H; [apply in_seq; lia|]. apply list_elem_of_In, elem_of_seqZ. lia.
Qed.

Lemma update_byte_spec crc b : update_byte crc b = shift8 (Z.lxor crc (b2z b)).
Proof.
  unfold update_byte. rewrite shift8_split.
  change 0xFF with 255. rewrite table_spec by (auto using land_255_range; lia).
  f_equal. rewrite Z.shiftr_lxor.
  rewrite (Z.shiftr_eq_0 (b2z b) 8), Z.lxor_0_r; [done|..].
  all: pose proof (b2z_range b); try lia.
  destruct (Z.eq_dec (b2z b) 0) as [->|]; [simpl; lia|].
  apply Z.log2_lt_pow2; simpl; lia.
Qed.

(** ** Closed form of the byte-at-a-time loop *)

Lemma iter_shift8_lxor n x y :
  Nat.iter n shift8 (Z.lxor x y) = Z.lxor (Nat.iter n shift8 x) (Nat.iter n shift8 y).
Proof. induction n as [|n IH]; simpl; [done|]. by rewrite IH, shift8_lxor. Qed.

Lemma iter_shift8_S n x : Nat.iter (S n) shift8 x = Nat.iter n shift8 (shift8 x).
Proof. induction n as [|n IH]; simpl in *; [done|]. by rewrite <- IH. Qed.

Lemma iter_shift8_shiftl n x : Nat.iter (S n) shift8 (Z.shiftl x 8) = Nat.iter n shift8 x.
Proof. by rewrite iter_shift8_S, shift8_shiftl. Qed.

Lemma iter_shift8_split n x :
  Nat.iter (S n) shift8 x =
  Z.lxor (Nat.iter n shift8 (Z.shiftr x 8)) (Nat.iter (S n) shift8 (Z.land x 255)).
Proof. by rewrite !iter_shift8_S, <- iter_shift8_lxor, <- shift8_split. Qed.

Lemma low_byte_lxor b x : 0 <= b < 256 -> b + 256 * x = Z.lxor b (Z.shiftl x 8).
Proof.
  intros Hb. rewrite <- Z.add_nocarry_lxor.
  - rewrite Z.shiftl_mul_pow2 by lia. change (2 ^ 8) with 256. lia.
  - apply Z.bits_inj'. intros n Hn. rewrite Z.land_spec, Z.bits_0.
    destruct (Z.lt_ge_cases n 8).
    + by rewrite Z.shiftl_spec_low, andb_false_r by lia.
    + rewrite <- (Z.mod_small b (2 ^ 8)) by done. by rewrite Z.mod_pow2_bits_high by lia.
Qed.

(** Feeding [bs] to the register is xoring all of it in and shifting it out. *)
Lemma fold_update_byte bs crc :
  fold_left update_byte bs crc = Nat.iter (length bs) shift8 (Z.lxor crc (from_le bs)).
Proof.
  revert crc; induction bs as [|b bs IH]; intros crc; cbn [fold_left length from_le].
  - by rewrite Z.lxor_0_r.
  - rewrite IH, update_byte_spec, iter_shift8_S. f_equal.
    rewrite low_byte_lxor by apply b2z_range.
    by rewrite <- Z.lxor_assoc, (shift8_lxor (Z.lxor _ _)), shift8_shiftl.
Qed.

(** ** The stride *)

Lemma iter_shift8_0 n : Nat.iter n shift8 0 = 0.
Proof. induction n as [|n IH]; simpl; [done|]. by rewrite IH. Qed.

(** Four lookups, one per byte, push a word through the register. *)
Lemma four_lookups k x :
  (k <= 4)%nat -> 0 <= x < 2 ^ 32 ->
  Nat.iter (4 + k) shift8 x =
  Z.lxor (Z.lxor (Z.lxor
    (table (3 + k) (Z.land x 255))
    (table (2 + k) (Z.land (Z.shiftr x 8) 255)))
    (table (1 + k) (Z.land (Z.shiftr x 16) 255)))
    (table k (Z.land (Z.shiftr x 24) 255)).
Proof.
  intros Hk Hx. rewrite !table_spec by (auto using land_255_range; lia).
  cbn [plus]. rewrite (iter_shift8_split _ x), (iter_shift8_split _ (Z.shiftr x 8)).
  rewrite Z.shiftr_shiftr, (iter_shift8_split _ (Z.shiftr x (8 + 8))) by lia.
  rewrite Z.shiftr_shiftr, (iter_shift8_split _ (Z.shiftr x (8 + 8 + 8))) by lia.
  rewrite Z.shiftr_shiftr by lia.
  assert (Z.shiftr x (8 + 8 + 8 + 8) = 0) as ->.
  { rewrite Z.shiftr_div_pow2 by lia. by apply Z.div_small. }
  rewrite iter_shift8_0, Z.lxor_0_l.
  change (8 + 8) with 16. change (16 + 8) with 24.
  apply Z.bits_inj'. intros n _. rewrite !Z.lxor_spec.
  repeat match goal with |- context [Z.testbit ?t n] =>
    let b := fresh in set (b := Z.testbit t n); clearbody b; destruct b end; done.
Qed.

Lemma from_le_4 b0 b1 b2 b3 :
  from_le [b0; b1; b2; b3] =
  Z.lxor (Z.lxor (Z.lxor (b2z b0) (Z.shiftl (b2z b1) 8))
    (Z.shiftl (b2z b2) 16)) (Z.shiftl (b2z b3) 24).
Proof.
  cbn [from_le]. rewrite Z.mul_0_r, Z.add_0_r.
  rewrite !low_byte_lxor by apply b2z_range.
  by rewrite !Z.shiftl_lxor, !Z.shiftl_shiftl, <- !Z.lxor_assoc by lia.
Qed.

Lemma lor_shiftl a b n : 0 <= n -> 0 <= a < 2 ^ n -> Z.lor a (Z.shiftl b n) = Z.lxor a (Z.shiftl b n).
Proof.
  intros Hn Ha. apply Z.bits_inj'. intros i Hi. rewrite Z.lor_spec, Z.lxor_spec.
  destruct (Z.lt_ge_cases i n).
  - rewrite Z.shiftl_spec_low by lia. by destruct (Z.testbit a i).
  - rewrite <- (Z.mod_small a (2 ^ n)) by done. rewrite Z.mod_pow2_bits_high by lia.
    by destruct (Z.testbit _ _).
Qed.

Lemma lxor_range a b n : 0 <= n -> 0 <= a < 2 ^ n -> 0 <= b < 2 ^ n -> 0 <= Z.lxor a b < 2 ^ n.
Proof.
  intros Hn Ha Hb. rewrite <- (Z.mod_small a (2 ^ n)), <- (Z.mod_small b (2 ^ n)) by done.
  rewrite <- !Z.land_ones by done.
  replace (Z.lxor _ _) with (Z.land (Z.lxor a b) (Z.ones n)).
  - rewrite Z.land_ones by done. apply Z.mod_pos_bound. lia.
  - apply Z.bits_inj'. intros i _. rewrite !Z.lxor_spec, !Z.land_spec, Z.lxor_spec.
    by destruct (Z.testbit a i), (Z.testbit b i), (Z.testbit (Z.ones n) i).
Qed.

Lemma shiftl_byte_range b k : 0 <= k -> 0 <= Z.shiftl (b2z b) k < 2 ^ (8 + k).
Proof.
  intros. rewrite Z.shiftl_mul_pow2, Z.pow_add_r by lia. pose proof (b2z_range b).
  change (2 ^ 8) with 256. nia.
Qed.

Lemma from_le_4_lor b0 b1 b2 b3 :
  from_le [b0; b1; b2; b3] =
  Z.lor (Z.lor (Z.lor (b2z b0) (Z.shiftl (b2z b1) 8))
    (Z.shiftl (b2z b2) 16)) (Z.shiftl (b2z b3) 24).
Proof.
  pose proof (shiftl_byte_range b1 8 ltac:(lia)).
  pose proof (shiftl_byte_range b2 16 ltac:(lia)).
  pose proof (b2z_range b0). simpl Z.pow in *.
  rewrite from_le_4, (lor_shiftl (b2z b0)) by (simpl Z.pow; lia).
  assert (0 <= Z.lxor (b2z b0) (Z.shiftl (b2z b1) 8) < 2 ^ 16)
    by (apply lxor_range; simpl Z.pow; lia).
  rewrite (lor_shiftl _ (b2z b2)) by lia.
  rewrite lor_shiftl; [done|lia|].
  apply lxor_range; simpl Z.pow in *; lia.
Qed.

Lemma update_stride_spec crc b0 b1 b2 b3 b4 b5 b6 b7 :
  0 <= crc < 2 ^ 32 ->
  update_stride crc b0 b1 b2 b3 b4 b5 b6 b7 =
  fold_left update_byte [b0; b1; b2; b3; b4; b5; b6; b7] crc.
Proof.
  intros Hcrc. unfold update_stride.
  change [b0; b1; b2; b3; b4; b5; b6; b7] with ([b0; b1; b2; b3] ++ [b4; b5; b6; b7]).
  rewrite fold_left_app, !fold_update_byte.
  cbn [length]. rewrite <- from_le_4_lor, !Z.lxor_assoc, <- (Z.lxor_assoc (b2z b0)).
  rewrite <- (Z.lxor_assoc (Z.lxor _ _)), <- from_le_4.
  assert (0 <= Z.lxor crc (from_le [b0; b1; b2; b3]) < 2 ^ 32) as Hh.
  { apply lxor_range; [lia|done|]. apply (from_le_bound [b0; b1; b2; b3]). }
  rewrite iter_shift8_lxor, <- Nat.iter_add.
  rewrite (four_lookups 4 _ ltac:(lia) Hh).
  pose proof (four_lookups 0 (from_le [b4; b5; b6; b7]) ltac:(lia)
    (from_le_bound [b4; b5; b6; b7])) as Ht.
  cbn [plus] in *. rewrite Ht. change 0xFF with 255. by rewrite !Z.lxor_assoc.
Qed.

(** ** The register stays within [u32] *)

Lemma crc_bit_range x : 0 <= x < 2 ^ 32 -> 0 <= crc_bit x < 2 ^ 32.
Proof.
  intros Hx. rewrite crc_bit_alt. apply lxor_range; [lia|..].
  - rewrite Z.shiftr_div_pow2 by lia. change (2 ^ 1) with 2.
    split; [apply Z.div_pos; lia|]. apply Z.div_lt_upper_bound; lia.
  - destruct (Z.testbit x 0); unfold POLYNOMIAL; lia.
Qed.

Lemma shift8_range x : 0 <= x < 2 ^ 32 -> 0 <= shift8 x < 2 ^ 32.
Proof. intros. unfold shift8. simpl. by repeat apply crc_bit_range. Qed.

Lemma update_byte_range crc b : 0 <= crc < 2 ^ 32 -> 0 <= update_byte crc b < 2 ^ 32.
Proof.
  intros. rewrite update_byte_spec. apply shift8_range, lxor_range; [lia|done|].
  pose proof (b2z_range b). lia.
Qed.

Lemma fold_update_range bs crc :
  0 <= crc < 2 ^ 32 -> 0 <= fold_left update_byte bs crc < 2 ^ 32.
Proof.
  revert crc; induction bs as [|b bs IH]; intros crc H; simpl; auto using update_byte_range.
Qed.

(** The first loop of [update] is the second loop, eight bytes at a time. *)
Lemma update_fold bs crc :
  0 <= crc < 2 ^ 32 -> update crc bs = fold_left update_byte bs crc.
Proof.
  revert bs crc. fix IH 1.
  intros [|b0 [|b1 [|b2 [|b3 [|b4 [|b5 [|b6 [|b7 rest]]]]]]]] crc H; try reflexivity.
  cbn [update]. rewrite update_stride_spec by done. rewrite IH by (by apply fold_update_range).
  symmetry. apply (fold_left_app update_byte [b0; b1; b2; b3; b4; b5; b6; b7] rest crc).
Qed.

Lemma INIT_range : 0 <= INIT < 2 ^ 32.
Proof. unfold INIT. lia. Qed.

Lemma update_range bs crc : 0 <= crc < 2 ^ 32 -> 0 <= update crc bs < 2 ^ 32.
Proof. intros. rewrite update_fold by done. by apply fold_update_range. Qed.

Lemma crc32_range bs : u32_ok (crc32 bs).
Proof.
  assert (0 <= crc32 bs < 2 ^ 32); [|unfold u32_ok, u32_max; lia].
  apply lxor_range; [lia|by apply update_range|lia].
Qed.

(** The checksum of a record read back as a header and a payload is the checksum
    of the record. *)
Lemma crc32_parts_app first second : crc32_parts first second = crc32 (first ++ second).
Proof.
  unfold crc32_parts, crc32. f_equal.
  rewrite !update_fold by auto using INIT_range, update_range.
  by rewrite fold_left_app.
Qed.

(** ** Injectivity of the register, and burst detection *)

Lemma crc_bit_zero x : 0 <= x < 2 ^ 32 -> crc_bit x = 0 -> x = 0.
Proof.
  rewrite crc_bit_alt. intros Hx Hz. apply Z.lxor_eq in Hz.
  rewrite Z.shiftr_div_pow2, Z.bit0_odd in Hz by lia. change (2 ^ 1) with 2 in Hz.
  destruct (Z.odd x) eqn:Ho.
  - unfold POLYNOMIAL in Hz. change (2 ^ 32) with 4294967296 in Hx. 
    assert (x / 2 < 2147483648) by (apply Z.div_lt_upper_bound; lia). lia.
  - rewrite <- Z.negb_even, negb_false_iff, Z.even_spec in Ho. destruct Ho as [y ->].
    rewrite Z.mul_comm, Z.div_mul in Hz by lia. lia.
Qed.

Lemma iter_shift8_zero n x : 0 <= x < 2 ^ 32 -> Nat.iter n shift8 x = 0 -> x = 0.
Proof.
  revert x; induction n as [|n IH]; intros x Hx; [done|].
  rewrite iter_shift8_S. intros H%IH; [|by apply shift8_range].
  unfold shift8 in H. simpl in H.
  repeat (apply crc_bit_zero in H; [|by repeat apply crc_bit_range]). done.
Qed.

Lemma iter_shift8_inj n x y :
  0 <= x < 2 ^ 32 -> 0 <= y < 2 ^ 32 -> Nat.iter n shift8 x = Nat.iter n shift8 y -> x = y.
Proof.
  intros Hx Hy H. apply Z.lxor_eq, (iter_shift8_zero n); [by apply lxor_range|].
  rewrite iter_shift8_lxor, H. apply Z.lxor_nilpotent.
Qed.

Lemma lxor_cancel_l c x y : Z.lxor c x = Z.lxor c y -> x = y.
Proof.
  intros H. apply (f_equal (Z.lxor c)) in H.
  by rewrite <- !Z.lxor_assoc, Z.lxor_nilpotent, !Z.lxor_0_l in H.
Qed.

Lemma fold_update_inj bs c d :
  0 <= c < 2 ^ 32 -> 0 <= d < 2 ^ 32 ->
  fold_left update_byte bs c = fold_left update_byte bs d -> c = d.
Proof.
  revert c d; induction bs as [|b bs IH]; intros c d Hc Hd; simpl; [done|].
  intros H%IH; auto using update_byte_range. rewrite !update_byte_spec in H.
  apply (iter_shift8_inj 1) in H.
  - rewrite !(Z.lxor_comm _ (b2z b)) in H. by apply lxor_cancel_l in H.
  - apply lxor_range; [lia|done|]. pose proof (b2z_range b). lia.
  - apply lxor_range; [lia|done|]. pose proof (b2z_range b). lia.
Qed.

Lemma from_le_short bs : (length bs <= 4)%nat -> 0 <= from_le bs < 2 ^ 32.
Proof.
  intros H. pose proof (from_le_bound bs) as B. split; [lia|].
  eapply Z.lt_le_trans; [apply B|]. apply Z.pow_le_mono_r; unfold zlen; lia.
Qed.

Lemma crc32_burst pre m1 m2 post :
  length m1 = length m2 -> (length m1 <= 4)%nat ->
  crc32 (pre ++ m1 ++ post) = crc32 (pre ++ m2 ++ post) -> m1 = m2.
Proof.
  intros Hl Hs H. unfold crc32, not32 in H.
  rewrite !(Z.lxor_comm _ 0xFFFFFFFF) in H. apply lxor_cancel_l in H.
  rewrite !update_fold, !fold_left_app in H by apply INIT_range.
  pose proof (fold_update_range pre INIT INIT_range) as Hp.
  apply fold_update_inj in H; [|by apply fold_update_range..].
  rewrite !fold_update_byte, <- Hl in H.
  pose proof (from_le_short m1 Hs). pose proof (from_le_short m2 ltac:(lia)).
  rewrite fold_update_byte in Hp. apply iter_shift8_inj in H; [|by apply lxor_range..].
  by apply lxor_cancel_l, from_le_inj in H.
Qed.

#[export] Hint Resolve crc32_range : lsm.

(** ** Claims *)

(** C32: slice-by-eight computes, for every input, the checksum of the
    byte-at-a-time implementation it replaced, so files written by either read
    back under the other. *)
Theorem crc32_matches_bytewise (bs : bytes) : crc32 bs = crc32_bytewise bs.
Proof. unfold crc32, crc32_bytewise. by rewrite update_fold by apply INIT_range. Qed.

(** C33: a corruption confined to four consecutive bytes (any burst of up to 32
    bits) always changes the checksum, wherever it falls in the input. *)
Theorem crc32_detects_burst (pre m1 m2 post : bytes)
  (Hlen : length m1 = length m2) (Hshort : (length m1 <= 4)%nat) (Hdiff : m1 <> m2) :
  crc32 (pre ++ m1 ++ post) <> crc32 (pre ++ m2 ++ post).
Proof. intros H. by apply Hdiff, (crc32_burst pre m1 m2 post). Qed.

(** The published check value, with one bit of its fourth byte flipped. *)
Lemma crc32_detects_burst_witness :
  crc32 (bstr "123" ++ bstr "4" ++ bstr "56789") <> crc32 (bstr "123" ++ bstr "5" ++ bstr "56789").
Proof. apply (crc32_detects_burst (bstr "123") (bstr "4") (bstr "5") (bstr "56789"));
  [reflexivity | simpl; lia | discriminate]. Defined.

Example crc32_check_value : crc32 (bstr "123456789") = 0xCBF43926 /\ crc32 [] = 0.
Proof. split; vm_compute; reflexivity. Qed.
