(* ===== verification/Coding.v ===== *)
(** * Framing primitives ([coding.rs])

    Length-prefixed byte strings and little-endian integers, written to the end
    of a buffer and taken off the front of a cursor. A cursor function returns
    what it took with the rest of the cursor; [None] is a truncated input. *)

From S2P Require Import Prelude.

#[global] Opaque to_le from_le.

(** A slice longer than [u32::MAX] does not fit the formats' length fields. *)
Definition length_of (bs : bytes) : result Z :=
  if zlen bs <=? u32_max then Ok (zlen bs) else Err (TooLarge (zlen bs)).

(** [buf.extend_from_slice(bs)]. *)
Definition extend (bs : bytes) : stm bytes unit := modify (fun buf => buf ++ bs).

Definition push_field (field : bytes) : stm bytes unit :=
  len ← lift (length_of field);
  _ ← extend (to_le 4 len);
  extend field.

(** [take]: [split_at_checked], then the cursor moves to the rest. *)
Definition take_bytes (cursor : bytes) (len : Z) : option (bytes * bytes) :=
  if len <=? zlen cursor
  then Some (take (Z.to_nat len) cursor, drop (Z.to_nat len) cursor)
  else None.

Definition take_u8 (cursor : bytes) : option (Z * bytes) :=
  '(head, rest) ← take_bytes cursor 1;
  match head with b :: _ => Some (b2z b, rest) | [] => None end.

Definition take_u32 (cursor : bytes) : option (Z * bytes) :=
  '(head, rest) ← take_bytes cursor 4; Some (from_le head, rest).

Definition take_u64 (cursor : bytes) : option (Z * bytes) :=
  '(head, rest) ← take_bytes cursor 8; Some (from_le head, rest).

(** [usize::try_from] of a [u32] cannot fail where a [usize] has 64 bits. *)
Definition take_field (cursor : bytes) : option (bytes * bytes) :=
  '(len, cursor) ← take_u32 cursor; take_bytes cursor len.

Definition u32_at (bs : bytes) (offset : Z) : Z := from_le (slice bs offset (offset + 4)).
Definition u64_at (bs : bytes) (offset : Z) : Z := from_le (slice bs offset (offset + 8)).

(** What [push_field] appends. *)
Definition field (bs : bytes) : bytes := to_le 4 (zlen bs) ++ bs.

(** ** Writing *)

Lemma length_of_Ok bs n : length_of bs = Ok n <-> n = zlen bs /\ zlen bs <= u32_max.
Proof.
  unfold length_of. destruct (Z.leb_spec (zlen bs) u32_max); split.
  - intros [= <-]. done.
  - intros [-> _]. done.
  - done.
  - lia.
Qed.

Lemma length_of_small bs : zlen bs <= u32_max -> length_of bs = Ok (zlen bs).
Proof. intros. by apply length_of_Ok. Qed.

(** A push that fails leaves the buffer alone; one that succeeds appends the
    field. *)
Lemma push_field_eq bs buf :
  push_field bs buf =
  if zlen bs <=? u32_max then (Ok tt, buf ++ field bs) else (Err (TooLarge (zlen bs)), buf).
Proof.
  unfold push_field, extend, length_of, field. run_stm.
  destruct (zlen bs <=? u32_max); [|done]. by rewrite app_assoc.
Qed.

(** ** Reading back *)

Lemma take_bytes_app a rest n : n = zlen a -> take_bytes (a ++ rest) n = Some (a, rest).
Proof.
  intros ->. unfold take_bytes. rewrite zlen_app. pose proof (zlen_nonneg rest).
  destruct (Z.leb_spec (zlen a) (zlen a + zlen rest)); [|lia].
  unfold zlen. by rewrite Nat2Z.id, take_app_length, drop_app_length.
Qed.

Lemma take_bytes_Some cursor n head rest :
  take_bytes cursor n = Some (head, rest) -> 0 <= n -> cursor = head ++ rest /\ zlen head = n.
Proof.
  unfold take_bytes. destruct (Z.leb_spec n (zlen cursor)); [|done].
  intros [= <- <-] Hn. split; [by rewrite take_drop|].
  unfold zlen in *. rewrite length_take. lia.
Qed.

Lemma take_bytes_None cursor n : zlen cursor < n -> take_bytes cursor n = None.
Proof. intros. unfold take_bytes. by destruct (Z.leb_spec n (zlen cursor)); [lia|]. Qed.

Lemma take_u8_app b rest : take_u8 (b :: rest) = Some (b2z b, rest).
Proof. unfold take_u8. change (b :: rest) with ([b] ++ rest). by rewrite take_bytes_app. Qed.

Lemma take_u32_app z rest : u32_ok z -> take_u32 (to_le 4 z ++ rest) = Some (z, rest).
Proof.
  intros. unfold take_u32. rewrite take_bytes_app by by rewrite zlen_to_le.
  simpl. by rewrite from_le_to_le_4.
Qed.

Lemma take_u64_app z rest : u64_ok z -> take_u64 (to_le 8 z ++ rest) = Some (z, rest).
Proof.
  intros. unfold take_u64. rewrite take_bytes_app by by rewrite zlen_to_le.
  simpl. by rewrite from_le_to_le_8.
Qed.

Lemma take_field_app bs rest :
  zlen bs <= u32_max -> take_field (field bs ++ rest) = Some (bs, rest).
Proof.
  intros. unfold take_field, field. rewrite <- app_assoc, take_u32_app.
  - simpl. by apply take_bytes_app.
  - split; [apply zlen_nonneg|done].
Qed.

Lemma u32_at_app pre z post offset :
  u32_ok z -> offset = zlen pre -> u32_at (pre ++ to_le 4 z ++ post) offset = z.
Proof.
  intros Hz ->. unfold u32_at. rewrite slice_mid by (rewrite ?zlen_to_le; lia).
  by apply from_le_to_le_4.
Qed.

Lemma u64_at_app pre z post offset :
  u64_ok z -> offset = zlen pre -> u64_at (pre ++ to_le 8 z ++ post) offset = z.
Proof.
  intros Hz ->. unfold u64_at. rewrite slice_mid by (rewrite ?zlen_to_le; lia).
  by apply from_le_to_le_8.
Qed.

Lemma zlen_field bs : zlen (field bs) = 4 + zlen bs.
Proof. unfold field. by rewrite zlen_app, zlen_to_le. Qed.

(** ** What a successful read says about the cursor *)

Lemma take_u8_Some cursor z rest :
  take_u8 cursor = Some (z, rest) -> exists b, cursor = b :: rest /\ z = b2z b.
Proof.
  unfold take_u8. intros H. inv_bind. destruct x as [head r].
  apply take_bytes_Some in H as [-> Hl]; [|lia].
  destruct head as [|b [|? ?]]; rewrite ?zlen_cons in Hl; [done| |].
  - injection H0 as <- <-. eauto.
  - pose proof (zlen_nonneg l). lia.
Qed.

Lemma take_u64_Some cursor z rest :
  take_u64 cursor = Some (z, rest) -> cursor = to_le 8 z ++ rest /\ u64_ok z.
Proof.
  unfold take_u64. intros H. inv_bind. destruct x as [head r].
  apply take_bytes_Some in H as [-> Hl]; [|lia]. injection H0 as <- <-.
  assert (length head = 8%nat) by (unfold zlen in Hl; lia).
  rewrite to_le_from_le by done. auto with lsm.
Qed.

Lemma take_u32_Some cursor z rest :
  take_u32 cursor = Some (z, rest) -> cursor = to_le 4 z ++ rest /\ u32_ok z.
Proof.
  unfold take_u32. intros H. inv_bind. destruct x as [head r].
  apply take_bytes_Some in H as [-> Hl]; [|lia]. injection H0 as <- <-.
  assert (length head = 4%nat) by (unfold zlen in Hl; lia).
  rewrite to_le_from_le by done. auto with lsm.
Qed.

Lemma take_field_Some cursor bs rest :
  take_field cursor = Some (bs, rest) -> cursor = field bs ++ rest /\ zlen bs <= u32_max.
Proof.
  unfold take_field. intros H. inv_bind. destruct x as [n r]. simpl in *.
  apply take_u32_Some in H as [-> [Hn Hm]].
  apply take_bytes_Some in H0 as [-> <-]; [|done].
  unfold field. by rewrite <- app_assoc.
Qed.

#[export] Hint Rewrite zlen_field : lsm.
