(* ===== verification/WalRecord.v ===== *)
(** * One log record ([wal/record.rs])

    [encode] appends a checksummed frame to a buffer the writers share, and
    undoes a failed attempt; [decode] reads the payload of a frame whose checksum
    already matched. *)

From S2P Require Import Prelude Checksum Coding.

Definition HEADER_LEN : Z := 8.
Definition KIND_SET : Z := 0.
Definition KIND_DELETE : Z := 1.

(** [Record]: one mutation, as stored in the log. *)
Inductive LogRecord :=
  | RSet (seq : Z) (key value : bytes)
  | RDelete (seq : Z) (key : bytes).

Definition record_seq (r : LogRecord) : Z :=
  match r with RSet seq _ _ | RDelete seq _ => seq end.

Definition record_key (r : LogRecord) : bytes :=
  match r with RSet _ key _ | RDelete _ key => key end.

(** What the record binds its key to; [None] is a tombstone. *)
Definition record_value (r : LogRecord) : option bytes :=
  match r with RSet _ _ value => Some value | RDelete _ _ => None end.

(** The end of [encode_at]: the length, then the checksum, written over the
    placeholder header. *)
Definition fill_in (start : Z) : stm bytes unit :=
  written ← gets (drop (Z.to_nat (start + HEADER_LEN)));
  payload_len ← lift (length_of written);
  _ ← modify (fun buf => splice buf (start + 4) (to_le 4 payload_len));
  crc ← gets (fun buf => crc32 (drop (Z.to_nat (start + 4)) buf));
  modify (fun buf => splice buf start (to_le 4 crc)).

Definition encode_at (start seq : Z) (key : bytes) (value : option bytes) : stm bytes unit :=
  key_len ← lift (length_of key);
  _ ← extend (replicate (Z.to_nat HEADER_LEN) Byte.x00);
  _ ← extend (to_le 8 seq);
  _ ← match value with
      | Some value =>
          value_len ← lift (length_of value);
          _ ← extend [z2b KIND_SET];
          _ ← extend (to_le 4 key_len);
          _ ← extend key;
          _ ← extend (to_le 4 value_len);
          extend value
      | None =>
          _ ← extend [z2b KIND_DELETE];
          _ ← extend (to_le 4 key_len);
          extend key
      end;
  fill_in start.

Definition encode (seq : Z) (key : bytes) (value : option bytes) : stm bytes unit := fun buf =>
  let start := zlen buf in
  match encode_at start seq key value buf with
  | (Ok _, buf) => (Ok tt, buf)
  | (Err e, buf) => (Err e, take (Z.to_nat start) buf)
  end.

Definition decode (payload : bytes) : option LogRecord :=
  '(seq, cursor) ← take_u64 payload;
  '(kind, cursor) ← take_u8 cursor;
  '(key, cursor) ← take_field cursor;
  if kind =? KIND_SET then
    '(value, cursor) ← take_field cursor;
    match cursor with [] => Some (RSet seq key value) | _ => None end
  else if kind =? KIND_DELETE then
    match cursor with [] => Some (RDelete seq key) | _ => None end
  else None.

(** ** The layout, as the module's comment gives it *)

Definition make_record (seq : Z) (key : bytes) (value : option bytes) : LogRecord :=
  match value with Some value => RSet seq key value | None => RDelete seq key end.

Definition payload (r : LogRecord) : bytes :=
  match r with
  | RSet seq key value => to_le 8 seq ++ [z2b KIND_SET] ++ field key ++ field value
  | RDelete seq key => to_le 8 seq ++ [z2b KIND_DELETE] ++ field key
  end.

(** [crc | len | payload], the checksum covering the length as well. *)
Definition frame (p : bytes) : bytes :=
  to_le 4 (crc32 (to_le 4 (zlen p) ++ p)) ++ to_le 4 (zlen p) ++ p.

(** A record the format can describe. *)
Definition record_fits (r : LogRecord) : Prop :=
  zlen (record_key r) <= u32_max /\
  (match record_value r with Some v => zlen v <= u32_max | None => True end) /\
  zlen (payload r) <= u32_max.

#[export] Instance record_fits_dec r : Decision (record_fits r).
Proof.
  unfold record_fits. destruct (record_value r); apply _.
Defined.

Definition record_ok (r : LogRecord) : Prop := u64_ok (record_seq r) /\ record_fits r.

#[export] Instance record_ok_dec r : Decision (record_ok r).
Proof. unfold record_ok, u64_ok. apply _. Defined.

(** ** Encoding *)

Lemma zlen_frame p : zlen (frame p) = HEADER_LEN + zlen p.
Proof. unfold frame, HEADER_LEN. rewrite !zlen_app, !zlen_to_le. lia. Qed.

Lemma fill_header buf h1 h2 p :
  length h1 = 4%nat -> length h2 = 4%nat ->
  let len := zlen p in
  let buf1 := splice (buf ++ (h1 ++ h2) ++ p) (zlen buf + 4) (to_le 4 len) in
  splice buf1 (zlen buf) (to_le 4 (crc32 (drop (Z.to_nat (zlen buf + 4)) buf1))) = buf ++ frame p.
Proof.
  intros H1 H2 len buf1.
  assert (buf1 = buf ++ h1 ++ to_le 4 len ++ p) as ->.
  { unfold buf1. rewrite <- app_assoc, app_assoc, (splice_mid (buf ++ h1) h2 p).
    - by rewrite <- app_assoc.
    - rewrite zlen_app. unfold zlen. lia.
    - by rewrite length_to_le. }
  replace (drop (Z.to_nat (zlen buf + 4)) (buf ++ h1 ++ to_le 4 len ++ p)) with (to_le 4 len ++ p).
  - rewrite splice_mid; [done|done|]. by rewrite length_to_le.
  - replace (Z.to_nat (zlen buf + 4)) with (length (buf ++ h1))
      by (rewrite length_app; unfold zlen; lia).
    by rewrite app_assoc, drop_app_length.
Qed.

Lemma drop_header (buf h p : bytes) :
  length h = 8%nat -> drop (Z.to_nat (zlen buf + HEADER_LEN)) (buf ++ h ++ p) = p.
Proof.
  intros. unfold HEADER_LEN. replace (Z.to_nat (zlen buf + 8)) with (length (buf ++ h))
    by (rewrite length_app; unfold zlen; lia).
  by rewrite app_assoc, drop_app_length.
Qed.

Lemma fill_in_eq buf h p :
  h = replicate 8 Byte.x00 ->
  fill_in (zlen buf) (buf ++ h ++ p) =
  if zlen p <=? u32_max then (Ok tt, buf ++ frame p) else (Err (TooLarge (zlen p)), buf ++ h ++ p).
Proof.
  intros ->. unfold fill_in. run_stm. rewrite drop_header by done. unfold length_of.
  destruct (zlen p <=? u32_max); [|done].
  change (replicate 8 Byte.x00) with (replicate 4 Byte.x00 ++ replicate 4 Byte.x00).
  by rewrite fill_header.
Qed.

(** On every branch: a record that fits is appended as one frame; anything else
    leaves the buffer exactly as it was and reports the length that did not
    fit. *)
Lemma encode_eq seq key value buf :
  encode seq key value buf =
  let r := make_record seq key value in
  if decide (record_fits r) then (Ok tt, buf ++ frame (payload r))
  else (Err (TooLarge
    (if zlen key <=? u32_max then
       match value with
       | Some v => if zlen v <=? u32_max then zlen (payload r) else zlen v
       | None => zlen (payload r)
       end
     else zlen key)), buf).
Proof.
  assert (forall l : bytes, take (Z.to_nat (zlen buf)) (buf ++ l) = buf) as Htake.
  { intros l. unfold zlen. by rewrite Nat2Z.id, take_app_length. }
  assert (take (Z.to_nat (zlen buf)) buf = buf) as Htake0.
  { unfold zlen. by rewrite Nat2Z.id, firstn_all. }
  unfold encode, encode_at, extend, record_fits. run_stm. unfold length_of at 1.
  destruct (Z.leb_spec (zlen key) u32_max) as [Hk|Hk].
  2: { rewrite decide_False by (destruct value; simpl; lia). by rewrite Htake0. }
  destruct value as [v|]; simpl make_record; cbn [record_key record_value].
  - unfold length_of. destruct (Z.leb_spec (zlen v) u32_max) as [Hv|Hv].
    2: { rewrite decide_False by lia. by rewrite <- !app_assoc, Htake. }
    rewrite <- !app_assoc, fill_in_eq by done.
    change (to_le 8 seq ++ _) with (payload (RSet seq key v)).
    destruct (Z.leb_spec (zlen (payload (RSet seq key v))) u32_max).
    + by rewrite decide_True by auto.
    + rewrite decide_False by lia. by rewrite Htake.
  - rewrite <- !app_assoc, fill_in_eq by done.
    change (to_le 8 seq ++ _) with (payload (RDelete seq key)).
    destruct (Z.leb_spec (zlen (payload (RDelete seq key))) u32_max).
    + by rewrite decide_True by auto.
    + rewrite decide_False by lia. by rewrite Htake.
Qed.

(** ** Decoding *)

Lemma decode_payload r : record_ok r -> decode (payload r) = Some r.
Proof.
  intros (Hs & Hk & Hv & _). unfold decode.
  destruct r as [seq key value|seq key]; cbn [record_seq record_key record_value] in *; simpl payload.
  - rewrite take_u64_app by done. cbn -[take_u8 take_field].
    rewrite take_u8_app. cbn -[take_field]. rewrite take_field_app by done. cbn -[take_field].
    rewrite <- (app_nil_r (field value)), take_field_app by done. done.
  - rewrite take_u64_app by done. cbn -[take_u8 take_field].
    rewrite take_u8_app. cbn -[take_field].
    rewrite <- (app_nil_r (field key)), take_field_app by done. done.
Qed.

(** Nothing but the encoding of a record decodes to it: trailing bytes, a
    truncated field and an unknown kind are all refused. *)
Lemma decode_Some p r :
  decode p = Some r -> p = payload r /\ (zlen p <= u32_max -> record_ok r).
Proof.
  unfold decode. intros H.
  apply option_bind_Some in H as ([seq c1] & H1 & H).
  apply option_bind_Some in H as ([kind c2] & H2 & H).
  apply option_bind_Some in H as ([key c3] & H3 & H).
  apply take_u64_Some in H1 as [-> Hseq]. apply take_u8_Some in H2 as (b & -> & ->).
  apply take_field_Some in H3 as [-> Hkey].
  destruct (Z.eqb_spec (b2z b) KIND_SET) as [E|_].
  - apply option_bind_Some in H as ([value c4] & H4 & H).
    apply take_field_Some in H4 as [-> ?]. destruct c4; [|done].
    injection H as <-. rewrite <- (z2b_b2z b), E, app_nil_r.
    unfold record_ok, record_fits; simpl; auto.
  - destruct (Z.eqb_spec (b2z b) KIND_DELETE) as [E|_]; [|done].
    destruct c3; [|done]. injection H as <-. rewrite <- (z2b_b2z b), E, app_nil_r.
    unfold record_ok, record_fits; simpl; auto.
Qed.

(** ** Claims *)

(** C28: whatever [encode] appends for a mutation, [decode] reads back as that
    mutation, and the frame's header carries the payload's length and a checksum
    over both. *)
Theorem record_roundtrip (seq : Z) (key : bytes) (value : option bytes) (buf buf' : bytes)
  (Hseq : u64_ok seq) (Henc : encode seq key value buf = (Ok tt, buf')) :
  exists p, buf' = buf ++ frame p
    /\ decode p = Some (make_record seq key value)
    /\ u32_at (frame p) 4 = zlen p
    /\ u32_at (frame p) 0 = crc32_parts (to_le 4 (zlen p)) p.
Proof.
  rewrite encode_eq in Henc. cbv zeta in Henc.
  destruct (decide _) as [Hf|]; [|done]. injection Henc as <-.
  exists (payload (make_record seq key value)). split; [done|]. split.
  - apply decode_payload. split; [by destruct value|done].
  - unfold frame. split.
    + rewrite u32_at_app; [done|split; [apply zlen_nonneg|apply Hf]|by rewrite zlen_to_le].
    + rewrite crc32_parts_app. apply (u32_at_app [] _ _ 0); [apply crc32_range|done].
Qed.

Lemma record_roundtrip_witness :
  exists buf', encode 7 (bstr "user:1") (Some (bstr "nicolas")) (bstr "earlier") = (Ok tt, buf') /\
  exists p, buf' = bstr "earlier" ++ frame p
    /\ decode p = Some (RSet 7 (bstr "user:1") (bstr "nicolas"))
    /\ u32_at (frame p) 4 = zlen p
    /\ u32_at (frame p) 0 = crc32_parts (to_le 4 (zlen p)) p.
Proof.
  eexists. split; [vm_compute; reflexivity|].
  eapply (record_roundtrip 7 (bstr "user:1") (Some (bstr "nicolas")) (bstr "earlier"));
    [unfold u64_ok, u64_max; lia | vm_compute; reflexivity].
Defined.

(** C29: an append is all or nothing. A record that fits the format is appended
    as one frame; one that does not fails with the offending length and leaves
    the shared buffer untouched, whatever had already been written into it. *)
Theorem encode_all_or_nothing (seq : Z) (key : bytes) (value : option bytes) (buf : bytes) :
  let r := make_record seq key value in
  match encode seq key value buf with
  | (Ok _, buf') => record_fits r /\ buf' = buf ++ frame (payload r)
  | (Err e, buf') => ~ record_fits r /\ buf' = buf /\ exists len, e = TooLarge len /\ len > u32_max
  end.
Proof.
  intros r. rewrite encode_eq. cbv zeta. fold r.
  destruct (decide _) as [Hf|Hf]; [done|].
  split; [done|]. split; [done|]. eexists; split; [done|].
  destruct (Z.leb_spec (zlen key) u32_max); [|lia].
  destruct value as [v|]; [destruct (Z.leb_spec (zlen v) u32_max); [|lia]|].
  all: apply Z.lt_gt, Z.nle_gt; intros ?; apply Hf; unfold record_fits; simpl; auto.
Qed.
