(* ===== verification/WalReplay.v ===== *)
(** * Sequential replay of a log file ([wal/reader.rs])

    [Replay] walks the file record by record and stops at the first one that is
    not complete and intact. A file is what the operating system hands back when
    it is opened: its contents, nothing, or an error. Reading past what the file
    holds is [UnexpectedEof], as [read_exact] reports it. *)

From S2P Require Import Prelude Checksum Coding WalRecord.

(** [const]s of [wal.rs] the reader shares. *)
Definition MAGIC : bytes := bstr "LSMKVWAL".
Definition FORMAT_VERSION : Z := 2.
Definition FILE_HEADER_LEN : Z := 12.

(** The outcome of [File::open]. *)
Inductive opened :=
  | Content (data : bytes)
  | Absent
  | Unreadable (e : io_error).

Record Replay := mkReplay {
  rp_path : string;
  rp_reader : option bytes;   (** the bytes of the file not yet read *)
  rp_file_len : Z;
  rp_pos : Z;
  rp_torn_at : option Z;
}.

Definition replay_empty (path : string) (torn_at : option Z) : Replay :=
  mkReplay path None 0 0 torn_at.

(** [Read::read_exact]: [n] bytes off the reader, or the error it reports. *)
Definition read_exact (path : string) (reader : bytes) (n : Z) : result (bytes * bytes) :=
  ok_or (take_bytes reader n) (Io path (IoError UnexpectedEof "failed to fill whole buffer")).

(** [format!("format version {version}, expected {FORMAT_VERSION}")]. *)
Definition version_message (version : Z) : string :=
  ("format version " +:+ pretty.pretty version +:+ ", expected 2")%string.

Definition replay_open (path : string) (file : opened) : result Replay :=
  match file with
  | Absent => Ok (replay_empty path None)
  | Unreadable err => Err (Io path err)
  | Content data =>
      let file_len := zlen data in
      if file_len =? 0 then Ok (replay_empty path None)
      else if file_len <? FILE_HEADER_LEN then Ok (replay_empty path (Some 0))
      else
        '(header, reader) ← read_exact path data FILE_HEADER_LEN;
        if key_eqb (slice header 0 (zlen MAGIC)) MAGIC then
          let version := u32_at header (zlen MAGIC) in
          if version =? FORMAT_VERSION then
            Ok (mkReplay path (Some reader) file_len FILE_HEADER_LEN None)
          else Err (Corrupt path (version_message version))
        else Err (Corrupt path "not a log file")
  end.

Definition valid_len (self : Replay) : Z := rp_pos self.
Definition torn_at (self : Replay) : option Z := rp_torn_at self.

(** Marks the tail as incomplete and ends iteration. *)
Definition tear (self : Replay) : result (option LogRecord) * Replay :=
  (Ok None, mkReplay (rp_path self) (rp_reader self) (rp_file_len self) (rp_pos self)
              (Some (rp_pos self))).

Definition set_reader (self : Replay) (reader : option bytes) : Replay :=
  mkReplay (rp_path self) reader (rp_file_len self) (rp_pos self) (rp_torn_at self).

Definition set_pos (self : Replay) (pos : Z) : Replay :=
  mkReplay (rp_path self) (rp_reader self) (rp_file_len self) pos (rp_torn_at self).

(** [read_record], called with the reader [next] has checked is there. *)
Definition read_record (self : Replay) (reader : bytes) : result (option LogRecord) * Replay :=
  let remaining := rp_file_len self - rp_pos self in
  if remaining =? 0 then (Ok None, self)
  else if remaining <? HEADER_LEN then tear self
  else
    match read_exact (rp_path self) reader HEADER_LEN with
    | Err e => (Err e, self)
    | Ok (header, reader) =>
        let self := set_reader self (Some reader) in
        let crc := u32_at header 0 in
        let len := u32_at header 4 in
        if remaining - HEADER_LEN <? len then tear self
        else
          match read_exact (rp_path self) reader len with
          | Err e => (Err e, self)
          | Ok (payload, reader) =>
              let self := set_reader self (Some reader) in
              if negb (crc32_parts (slice header 4 8) payload =? crc) then tear self
              else
                match decode payload with
                | None => tear self
                | Some record =>
                    (Ok (Some record), set_pos self (rp_pos self + (HEADER_LEN + len)))
                end
          end
    end.

(** [Iterator::next]. *)
Definition replay_next (self : Replay) : option (result LogRecord) * Replay :=
  match rp_reader self with
  | None => (None, self)
  | Some reader =>
      match read_record self reader with
      | (Ok (Some record), self) => (Some (Ok record), self)
      | (Ok None, self) => (None, set_reader self None)
      | (Err err, self) => (Some (Err err), set_reader self None)
      end
  end.

(** [for record in &mut replay { records.push(record?) }], the loop every caller
    runs. [None] means the fuel ran out, which [drain_total] rules out. *)
Fixpoint drain (fuel : nat) (self : Replay) : option (result (list LogRecord) * Replay) :=
  match fuel with
  | O => None
  | S fuel =>
      match replay_next self with
      | (None, self) => Some (Ok [], self)
      | (Some (Err e), self) => Some (Err e, self)
      | (Some (Ok record), self) =>
          match drain fuel self with
          | Some (Ok records, self) => Some (Ok (record :: records), self)
          | other => other
          end
      end
  end.

(** Fuel for [drain]: a record takes at least its header, so a file of [n] bytes
    holds fewer than [n] of them. *)
Definition drain_fuel (self : Replay) : nat :=
  match rp_reader self with Some reader => S (length reader) | None => 1 end.

Definition replay_all (self : Replay) : option (result (list LogRecord) * Replay) :=
  drain (drain_fuel self) self.

(** ** The contents a log is meant to have *)

Definition file_header : bytes := MAGIC ++ to_le 4 FORMAT_VERSION.

Definition frames (records : list LogRecord) : bytes :=
  concat (map (fun r => frame (payload r)) records).

Definition log_file (records : list LogRecord) : bytes := file_header ++ frames records.

(** A replay that has read a file up to [pos], with [rest] left. *)
Definition replaying (path : string) (pos : Z) (rest : bytes) : Replay :=
  mkReplay path (Some rest) (pos + zlen rest) pos None.

(** A replay that has ended at [pos], on a torn record or not. *)
Definition ended (path : string) (file_len pos : Z) (torn : bool) : Replay :=
  mkReplay path None file_len pos (if torn then Some pos else None).

(** The record a byte string starts with, if it starts with an intact one, and
    what follows it. *)
Definition first_record (bs : bytes) : option (LogRecord * bytes) :=
  '(header, rest) ← take_bytes bs HEADER_LEN;
  '(p, rest) ← take_bytes rest (u32_at header 4);
  if crc32_parts (slice header 4 8) p =? u32_at header 0 then
    r ← decode p; Some (r, rest)
  else None.

#[local] Opaque crc32 crc32_parts slice.

(** ** One record *)

Lemma frame_header p rest :
  exists header, frame p ++ rest = header ++ p ++ rest /\ zlen header = HEADER_LEN /\
    u32_at header 0 = crc32 (to_le 4 (zlen p) ++ p) /\
    slice header 4 8 = to_le 4 (zlen p) /\
    (zlen p <= u32_max -> u32_at header 4 = zlen p).
Proof.
  exists (to_le 4 (crc32 (to_le 4 (zlen p) ++ p)) ++ to_le 4 (zlen p)).
  unfold frame, HEADER_LEN. rewrite <- !app_assoc. split; [done|].
  split; [by rewrite zlen_app, !zlen_to_le|]. split; [|split].
  - apply (u32_at_app [] _ _ 0); [apply crc32_range|done].
  - rewrite <- (app_nil_r (to_le 4 (zlen p))). by apply slice_mid; rewrite ?zlen_app, !zlen_to_le.
  - intros. rewrite <- (app_nil_r (to_le 4 (zlen p))) at 2.
    apply u32_at_app; [split; [apply zlen_nonneg|done]|by rewrite zlen_to_le].
Qed.

Lemma first_record_frame r rest :
  record_ok r -> first_record (frame (payload r) ++ rest) = Some (r, rest).
Proof.
  intros Hr. destruct (frame_header (payload r) rest) as (h & -> & Hh & Hcrc & Hs & Hlen).
  unfold first_record. rewrite take_bytes_app by done. simpl.
  rewrite take_bytes_app by (apply Hlen, Hr). simpl.
  rewrite Hs, crc32_parts_app, Hcrc, Z.eqb_refl. simpl. by rewrite decode_payload.
Qed.

Lemma first_record_Some bs r rest :
  first_record bs = Some (r, rest) -> bs = frame (payload r) ++ rest /\ record_ok r.
Proof.
  unfold first_record. intros H.
  apply option_bind_Some in H as ([header rest1] & H1 & H).
  apply option_bind_Some in H as ([p rest2] & H2 & H).
  destruct (Z.eqb_spec (crc32_parts (slice header 4 8) p) (u32_at header 0)) as [Hc|]; [|done].
  apply option_bind_Some in H as (r' & Hd & [= <- <-]).
  apply take_bytes_Some in H1 as [-> Hh]; [|unfold HEADER_LEN; lia].
  assert (exists a b, header = a ++ b /\ length a = 4%nat /\ length b = 4%nat) as (a & b & -> & Ha & Hb).
  { exists (take 4 header), (drop 4 header). unfold zlen, HEADER_LEN in Hh.
    rewrite take_drop, length_take, length_drop. split; [done|lia]. }
  assert (slice (a ++ b) 4 8 = b) as Hsb.
  { rewrite <- (app_nil_r (a ++ b)), <- app_assoc. apply slice_mid; unfold zlen; lia. }
  assert (u32_at (a ++ b) 4 = from_le b) as Hub.
  { unfold u32_at. change (4 + 4) with 8. by rewrite Hsb. }
  assert (u32_at (a ++ b) 0 = from_le a) as Hua.
  { unfold u32_at. f_equal. apply slice_app_l. unfold zlen. lia. }
  rewrite Hub in H2. pose proof (from_le_u32 b Hb) as [Hlo Hhi].
  apply take_bytes_Some in H2 as [-> Hp]; [|done].
  apply decode_Some in Hd as [-> Hok]. split; [|apply Hok; lia].
  unfold frame. rewrite Hsb, Hua, crc32_parts_app in Hc.
  rewrite Hp, to_le_from_le, Hc, to_le_from_le by done. by rewrite <- !app_assoc.
Qed.

Lemma frame_inj p q rest1 rest2 :
  zlen p <= u32_max -> zlen q <= u32_max ->
  frame p ++ rest1 = frame q ++ rest2 -> p = q /\ rest1 = rest2.
Proof.
  intros Hp Hq H.
  destruct (frame_header p rest1) as (h1 & E1 & Hh1 & _ & _ & L1).
  destruct (frame_header q rest2) as (h2 & E2 & Hh2 & _ & _ & L2).
  rewrite E1, E2 in H. apply app_inj_1 in H as [<- H]; [|unfold zlen in *; lia].
  apply app_inj_1 in H as [<- <-]; [done|].
  specialize (L1 Hp). specialize (L2 Hq). unfold zlen in *. lia.
Qed.

(** A record cut short is never mistaken for a record. *)
Lemma first_record_cut r t u :
  record_ok r -> frame (payload r) = t ++ u -> u <> [] -> first_record t = None.
Proof.
  intros Hr Heq Hu. destruct (first_record t) as [[r' rest]|] eqn:E; [|done].
  apply first_record_Some in E as [-> Hr']. rewrite <- app_assoc in Heq.
  rewrite <- (app_nil_r (frame (payload r))) in Heq.
  apply frame_inj in Heq as [_ Heq]; [|apply Hr|apply Hr'].
  destruct rest; [|done]. simpl in Heq. congruence.
Qed.

#[local] Opaque u32_at.

(** [next] on a replay with bytes left returns the record they start with, or
    ends on a torn tail; it never fails. *)
Lemma replay_next_spec path pos bs :
  bs <> [] ->
  replay_next (replaying path pos bs) =
  match first_record bs with
  | Some (r, rest) => (Some (Ok r), replaying path (pos + zlen (frame (payload r))) rest)
  | None => (None, ended path (pos + zlen bs) pos true)
  end.
Proof.
  intros Hbs. unfold replay_next, replaying. cbn [rp_reader]. unfold read_record.
  cbn [rp_file_len rp_pos rp_path]. rewrite Z.add_simpl_l.
  destruct (Z.eqb_spec (zlen bs) 0) as [E|_]; [by apply zlen_nil_inv in E|].
  destruct (first_record bs) as [[r rest]|] eqn:E.
  - apply first_record_Some in E as [-> Hr].
    destruct (frame_header (payload r) rest) as (h & Eh & Hh & Hcrc & Hs & Hlen).
    specialize (Hlen ltac:(apply Hr)). rewrite zlen_frame, Eh, !zlen_app, Hh.
    pose proof (zlen_nonneg (payload r)). pose proof (zlen_nonneg rest).
    destruct (Z.ltb_spec (HEADER_LEN + (zlen (payload r) + zlen rest)) HEADER_LEN); [lia|].
    unfold read_exact. rewrite take_bytes_app by done. simpl.
    rewrite Hlen, Hcrc, Hs.
    destruct (Z.ltb_spec (HEADER_LEN + (zlen (payload r) + zlen rest) - HEADER_LEN)
      (zlen (payload r))); [lia|].
    rewrite take_bytes_app by done. simpl. rewrite crc32_parts_app, Z.eqb_refl. simpl.
    rewrite decode_payload by done. unfold set_pos, set_reader. simpl.
    f_equal. f_equal; lia.
  - destruct (Z.ltb_spec (zlen bs) HEADER_LEN) as [|Hl]; [done|].
    unfold first_record in E. unfold read_exact.
    destruct (take_bytes bs HEADER_LEN) as [[header rest]|] eqn:Et; cbn -[u32_at slice crc32_parts] in *.
    2: { unfold take_bytes in Et. by destruct (Z.leb_spec HEADER_LEN (zlen bs)); [|lia]. }
    apply take_bytes_Some in Et as [-> Hh]; [|unfold HEADER_LEN; lia].
    rewrite zlen_app, Hh, Z.add_simpl_l.
    destruct (Z.ltb_spec (zlen rest) (u32_at header 4)); [done|].
    destruct (take_bytes rest (u32_at header 4)) as [[p rest']|] eqn:Et; cbn -[u32_at slice crc32_parts] in *.
    2: { unfold take_bytes in Et. by destruct (Z.leb_spec (u32_at header 4) (zlen rest)); [|lia]. }
    destruct (crc32_parts (slice header 4 8) p =? u32_at header 0); simpl in *; [|done].
    by destruct (decode p).
Qed.

Lemma replay_next_end path pos :
  replay_next (replaying path pos []) = (None, ended path pos pos false).
Proof.
  unfold replay_next, replaying, read_record. cbn [rp_reader rp_file_len rp_pos].
  rewrite zlen_nil, Z.add_0_r, Z.sub_diag. done.
Qed.

(** ** A whole file *)

Lemma frames_cons r rs : frames (r :: rs) = frame (payload r) ++ frames rs.
Proof. done. Qed.

Lemma frames_app rs1 rs2 : frames (rs1 ++ rs2) = frames rs1 ++ frames rs2.
Proof. unfold frames. by rewrite map_app, concat_app. Qed.

Lemma zlen_frame_pos p : 0 < zlen (frame p).
Proof. rewrite zlen_frame. pose proof (zlen_nonneg p). unfold HEADER_LEN. lia. Qed.

(** The replay of any bytes at all: it terminates, and returns the longest run of
    intact records they start with. *)
Lemma drain_spec path : forall fuel pos rest,
  (length rest < fuel)%nat ->
  exists recs tail, rest = frames recs ++ tail /\ Forall record_ok recs /\ first_record tail = None /\
    drain fuel (replaying path pos rest) =
    Some (Ok recs, ended path (pos + zlen rest) (pos + zlen (frames recs)) (bool_decide (tail <> []))).
Proof.
  induction fuel as [|fuel IH]; intros pos rest Hfuel; [lia|]. cbn [drain].
  destruct (decide (rest = [])) as [->|Hne].
  { exists [], []. rewrite replay_next_end. unfold frames; simpl.
    by rewrite zlen_nil, Z.add_0_r. }
  rewrite replay_next_spec by done.
  destruct (first_record rest) as [[r rest']|] eqn:E.
  - apply first_record_Some in E as [-> Hr].
    destruct (IH (pos + zlen (frame (payload r))) rest') as (recs & tail & -> & Hok & Ht & Hd).
    { rewrite length_app in Hfuel. pose proof (zlen_frame_pos (payload r)). unfold zlen in *. lia. }
    exists (r :: recs), tail. rewrite frames_cons, <- app_assoc. split; [done|].
    split; [by constructor|]. split; [done|]. rewrite Hd. rewrite !zlen_app.
    do 3 f_equal; lia.
  - exists [], rest. rewrite bool_decide_true by done. unfold frames; simpl.
    rewrite zlen_nil, Z.add_0_r. done.
Qed.

Lemma frames_tail_unique rs1 : forall rs2 t1 t2,
  Forall record_ok rs1 -> Forall record_ok rs2 ->
  first_record t1 = None -> first_record t2 = None ->
  frames rs1 ++ t1 = frames rs2 ++ t2 -> rs1 = rs2 /\ t1 = t2.
Proof.
  induction rs1 as [|r rs1 IH]; intros [|r2 rs2] t1 t2 H1 H2 N1 N2 Heq.
  - done.
  - simpl in Heq. rewrite Heq, frames_cons, <- app_assoc in N1.
    inversion H2; subst. by rewrite first_record_frame in N1.
  - simpl in Heq. rewrite <- Heq, frames_cons, <- app_assoc in N2.
    inversion H1; subst. by rewrite first_record_frame in N2.
  - rewrite !frames_cons, <- !app_assoc in Heq. inversion H1; subst. inversion H2; subst.
    pose proof (first_record_frame r (frames rs1 ++ t1) ltac:(done)) as E1.
    rewrite Heq, first_record_frame in E1 by done. injection E1 as <- E1.
    apply app_inv_head in Heq. destruct (IH rs2 t1 t2) as [-> ->]; auto.
Qed.

Lemma zlen_file_header : zlen file_header = FILE_HEADER_LEN.
Proof. done. Qed.

Lemma replay_open_content path rest :
  replay_open path (Content (file_header ++ rest)) = Ok (replaying path FILE_HEADER_LEN rest).
Proof.
  unfold replay_open. rewrite zlen_app, zlen_file_header. pose proof (zlen_nonneg rest).
  destruct (Z.eqb_spec (FILE_HEADER_LEN + zlen rest) 0); [unfold FILE_HEADER_LEN in *; lia|].
  destruct (Z.ltb_spec (FILE_HEADER_LEN + zlen rest) FILE_HEADER_LEN); [lia|].
  unfold read_exact. by rewrite take_bytes_app by done.
Qed.

(** What replaying a file whose header is intact comes to. *)
Lemma replay_records path recs tail :
  Forall record_ok recs -> first_record tail = None ->
  let rp := replaying path FILE_HEADER_LEN (frames recs ++ tail) in
  replay_open path (Content (log_file recs ++ tail)) = Ok rp /\
  replay_all rp =
    Some (Ok recs, ended path (zlen (log_file recs ++ tail)) (zlen (log_file recs))
                     (bool_decide (tail <> []))).
Proof.
  intros Hok Ht rp. unfold log_file. rewrite <- app_assoc, replay_open_content. split; [done|].
  destruct (drain_spec path (drain_fuel rp) FILE_HEADER_LEN (frames recs ++ tail))
    as (recs' & tail' & Heq & Hok' & Ht' & Hd); [cbn; lia|].
  apply frames_tail_unique in Heq as [<- <-]; [|done..].
  unfold replay_all. etransitivity; [exact Hd|]. by rewrite !zlen_app, zlen_file_header, Z.add_assoc.
Qed.

(** Whatever follows intact records, a replay returns them first. *)
Lemma frames_prefix recs : forall recs' junk t,
  Forall record_ok recs -> Forall record_ok recs' -> first_record t = None ->
  frames recs ++ junk = frames recs' ++ t -> exists more, recs' = recs ++ more.
Proof.
  induction recs as [|r recs IH]; intros [|r' recs'] junk t H1 H2 Ht E; try (by eexists).
  - simpl in E. rewrite <- E, frames_cons, <- app_assoc in Ht. inversion H1; subst.
    by rewrite first_record_frame in Ht.
  - rewrite !frames_cons, <- !app_assoc in E. inversion H1; subst. inversion H2; subst.
    pose proof (first_record_frame r (frames recs ++ junk) ltac:(done)) as E1.
    rewrite E, first_record_frame in E1 by done. injection E1 as <- E1.
    apply app_inv_head in E. destruct (IH recs' junk t) as [more ->]; auto. by exists more.
Qed.

Lemma replay_prefix path recs junk :
  Forall record_ok recs ->
  exists more rp rp', replay_open path (Content (log_file recs ++ junk)) = Ok rp /\
    replay_all rp = Some (Ok (recs ++ more), rp').
Proof.
  intros Hok. unfold log_file. rewrite <- app_assoc, replay_open_content.
  destruct (drain_spec path (drain_fuel (replaying path FILE_HEADER_LEN (frames recs ++ junk)))
    FILE_HEADER_LEN (frames recs ++ junk)) as (recs' & tail' & Heq & Hok' & Ht' & Hd); [cbn; lia|].
  destruct (frames_prefix recs recs' junk tail') as [more ->]; [done..|].
  eexists more, _, _. split; [done|]. exact Hd.
Qed.

(** Cutting a run of frames anywhere leaves the frames before the cut and a tail
    that does not read as a record. *)
Lemma take_frames recs : forall n,
  Forall record_ok recs ->
  exists m t, take n (frames recs) = frames (take m recs) ++ t /\ first_record t = None /\
    (m <= length recs)%nat /\
    (forall k, (k <= length recs)%nat -> (length (frames (take k recs)) <= n)%nat -> (k <= m)%nat).
Proof.
  induction recs as [|r recs IH]; intros n Hok.
  - exists 0%nat, []. split; [by destruct n|]. repeat split; simpl; lia.
  - inversion Hok as [|?? Hr Hrs]; subst. rewrite frames_cons.
    destruct (decide (length (frame (payload r)) <= n)%nat) as [Hle|Hlt].
    + destruct (IH (n - length (frame (payload r)))%nat Hrs) as (m & t & Htake & Ht & Hm & Hmax).
      exists (S m), t. cbn [take]. rewrite frames_cons, take_app_ge, Htake, app_assoc by done.
      repeat split; [done|simpl; lia|]. intros [|k] Hk Hlen; [lia|].
      cbn [take] in Hlen. rewrite frames_cons, length_app in Hlen.
      apply le_n_S, Hmax; simpl in Hk; lia.
    + exists 0%nat, (take n (frame (payload r))). cbn [take].
      rewrite take_app_le by lia. repeat split; [|lia|].
      * apply (first_record_cut r _ (drop n (frame (payload r)))); [done|by rewrite take_drop|].
        intros E. apply (f_equal length) in E. rewrite length_drop in E. simpl in E. lia.
      * intros [|k] _ Hlen; [lia|]. cbn [take] in Hlen.
        rewrite frames_cons, length_app in Hlen. lia.
Qed.

(** ** Claims *)

(** C15: a crash that cuts a log anywhere is recovered exactly. Replaying the
    first [n] bytes of a log of [recs] returns the records wholly inside them, in
    order and no others, reports as valid length the end of the last of them
    (zero when not even the header is whole), and reports a torn tail exactly
    when bytes are left over. *)
Theorem replay_of_crashed_log (path : string) (recs : list LogRecord) (n : nat)
  (Hok : Forall record_ok recs) :
  let data := take n (log_file recs) in
  exists m rp rp',
    replay_open path (Content data) = Ok rp /\
    replay_all rp = Some (Ok (take m recs), rp') /\
    valid_len rp' = (if zlen data <? FILE_HEADER_LEN then 0 else zlen (log_file (take m recs))) /\
    (torn_at rp' = None <-> valid_len rp' = zlen data) /\
    (forall k, (k <= length recs)%nat -> zlen (log_file (take k recs)) <= zlen data -> (k <= m)%nat).
Proof.
  intros data. assert (zlen data = Z.of_nat (Nat.min n (length (log_file recs)))) as Hd.
  { unfold data, zlen. by rewrite length_take. }
  assert (length (log_file recs) = (12 + length (frames recs))%nat) as Hlog.
  { unfold log_file. by rewrite length_app. }
  destruct (Z.ltb_spec (zlen data) FILE_HEADER_LEN) as [Hshort|Hlong].
  - unfold FILE_HEADER_LEN in Hshort.
    assert (forall k, (k <= length recs)%nat -> zlen (log_file (take k recs)) <= zlen data -> (k <= 0)%nat) as Hk.
    { intros k _. unfold log_file. rewrite zlen_app, zlen_file_header. unfold FILE_HEADER_LEN.
      pose proof (zlen_nonneg (frames (take k recs))). lia. }
    unfold replay_open. destruct (Z.eqb_spec (zlen data) 0) as [E|E].
    + exists 0%nat. eexists _, _. rewrite take_0. split; [done|]. split; [done|].
      split; [done|]. split; [|done]. by rewrite E.
    + destruct (Z.ltb_spec (zlen data) FILE_HEADER_LEN); [|unfold FILE_HEADER_LEN in *; lia].
      exists 0%nat. eexists _, _. rewrite take_0. split; [done|]. split; [done|].
      split; [done|]. split; [|done]. split; [done|intros H0; by destruct E].
  - assert (12 <= n)%nat as Hn by (unfold FILE_HEADER_LEN in Hlong; lia).
    destruct (take_frames recs (n - 12) Hok) as (m & t & Htake & Ht & Hm & Hmax).
    assert (data = log_file (take m recs) ++ t) as Hdata.
    { unfold data, log_file. rewrite take_app_ge by (change (length file_header) with 12%nat; lia).
      change (length file_header) with 12%nat. by rewrite Htake, app_assoc. }
    destruct (replay_records path (take m recs) t) as [Ho Hr]; [by apply Forall_take|done|].
    rewrite <- Hdata in Ho, Hr. exists m. eexists _, _. split; [done|]. split; [exact Hr|].
    split; [done|]. split.
    + unfold torn_at, ended, valid_len. cbn [rp_torn_at rp_pos]. rewrite Hdata, zlen_app.
      destruct t as [|b t]; cbn [bool_decide].
      * rewrite zlen_nil. split; [lia|done].
      * rewrite zlen_cons. pose proof (zlen_nonneg t). split; [done|lia].
    + intros k Hk Hlen. apply Hmax; [done|].
      unfold log_file in Hlen. rewrite zlen_app, zlen_file_header in Hlen.
      unfold zlen, FILE_HEADER_LEN in Hlen. unfold zlen in Hd. lia.
Qed.

(** A small log: a key set, deleted, and another one set. *)
Definition demo_log : list LogRecord :=
  [RSet 1 (bstr "a") (bstr "one"); RDelete 2 (bstr "a"); RSet 3 (bstr "b") (bstr "two")].

Lemma demo_log_ok : Forall record_ok demo_log.
Proof. apply (bool_decide_unpack _). vm_compute. exact I. Qed.

(** The cut falls inside the third record, so two survive. *)
Lemma replay_of_crashed_log_witness :
  let data := take 80 (log_file demo_log) in
  exists m rp rp',
    replay_open "000001.wal" (Content data) = Ok rp /\
    replay_all rp = Some (Ok (take m demo_log), rp') /\
    valid_len rp' = (if zlen data <? FILE_HEADER_LEN then 0 else zlen (log_file (take m demo_log))) /\
    (torn_at rp' = None <-> valid_len rp' = zlen data) /\
    (forall k, (k <= length demo_log)%nat -> zlen (log_file (take k demo_log)) <= zlen data -> (k <= m)%nat).
Proof. apply (replay_of_crashed_log "000001.wal" demo_log 80). apply demo_log_ok. Defined.

(** What a device that damaged four bytes of a record's payload hands back. *)
Definition damaged (p pre m post : bytes) : bytes :=
  to_le 4 (crc32 (to_le 4 (zlen p) ++ p)) ++ to_le 4 (zlen p) ++ pre ++ m ++ post.

Lemma first_record_damaged p pre m1 m2 post rest :
  p = pre ++ m1 ++ post -> zlen p <= u32_max ->
  length m1 = length m2 -> (length m1 <= 4)%nat -> m1 <> m2 ->
  first_record (damaged p pre m2 post ++ rest) = None.
Proof.
  intros Hp Hmax Hlen Hshort Hne.
  destruct (frame_header p []) as (h & Eh & Hh & Hcrc & Hs & Hl). specialize (Hl Hmax).
  assert (damaged p pre m2 post ++ rest = h ++ (pre ++ m2 ++ post) ++ rest) as ->.
  { rewrite !app_nil_r in Eh. unfold frame in Eh. rewrite app_assoc in Eh.
    apply app_inj_2 in Eh as [<- _]; [|done]. unfold damaged. by rewrite <- !app_assoc. }
  unfold first_record. rewrite take_bytes_app by done. simpl.
  rewrite take_bytes_app.
  2: { rewrite Hl, Hp, !zlen_app. unfold zlen. lia. }
  simpl. rewrite Hs, crc32_parts_app, Hcrc.
  destruct (Z.eqb_spec (crc32 (to_le 4 (zlen p) ++ pre ++ m2 ++ post))
    (crc32 (to_le 4 (zlen p) ++ p))) as [E|]; [|done].
  exfalso. apply Hne. symmetry. rewrite Hp in E at 3.
  rewrite !(app_assoc _ pre) in E. apply (crc32_burst (to_le 4 (zlen p) ++ pre) m2 m1 post); [|lia|done].
  done.
Qed.

(** C31: damage to at most four consecutive bytes of a record's payload is caught:
    replay returns exactly the records before it and reports the tear there,
    whatever follows. *)
Theorem replay_stops_at_damage (path : string) (before : list LogRecord) (r : LogRecord)
  (pre m1 m2 post after : bytes)
  (Hok : Forall record_ok before) (Hr : record_ok r)
  (Hp : payload r = pre ++ m1 ++ post)
  (Hlen : length m1 = length m2) (Hshort : (length m1 <= 4)%nat) (Hne : m1 <> m2) :
  exists rp rp',
    replay_open path (Content (log_file before ++ damaged (payload r) pre m2 post ++ after)) = Ok rp /\
    replay_all rp = Some (Ok before, rp') /\
    torn_at rp' = Some (zlen (log_file before)).
Proof.
  destruct (replay_records path before (damaged (payload r) pre m2 post ++ after)) as [Ho Hd].
  - done.
  - by apply (first_record_damaged _ pre m1 m2); [|apply Hr|..].
  - eexists _, _. split; [exact Ho|]. split; [exact Hd|].
    unfold torn_at, ended. cbn [rp_torn_at]. rewrite bool_decide_true; [done|].
    unfold damaged. intros E. apply (f_equal length) in E.
    rewrite !length_app, length_to_le in E. simpl in E. lia.
Qed.

Lemma replay_stops_at_damage_witness :
  exists rp rp',
    replay_open "000001.wal"
      (Content (log_file demo_log ++
        damaged (payload (RDelete 4 (bstr "k"))) (to_le 8 4) [Byte.x02] (field (bstr "k")) ++ [])) = Ok rp /\
    replay_all rp = Some (Ok demo_log, rp') /\
    torn_at rp' = Some (zlen (log_file demo_log)).
Proof.
  apply (replay_stops_at_damage "000001.wal" demo_log (RDelete 4 (bstr "k"))
    (to_le 8 4) [Byte.x01] [Byte.x02] (field (bstr "k")) []).
  - apply demo_log_ok.
  - apply (bool_decide_unpack _). vm_compute. exact I.
  - reflexivity.
  - reflexivity.
  - simpl. lia.
  - discriminate.
Defined.
