(* ===== verification/Memtable.v ===== *)
(** * The in-memory table: its interface and its contract

    [memtable.rs]'s trait as a class of operations, [lookup.rs]'s three-way
    answer, and, as a second class, what every implementation owes the engine:
    a table represents a finite map from keys to the newest mutation of each, and
    the operations act on that map. The engine's theorems are proved against the
    second class; [Btree] and [SkipTable] discharge it. *)

From S2P Require Import Prelude.

(** [lookup.rs]. *)
Inductive Lookup :=
  | Found (value : bytes)
  | Deleted
  | Missing.

#[export] Instance lookup_eq_dec : EqDecision Lookup.
Proof. solve_decision. Defined.

(** One entry as every level of the store holds it: the sequence number of the
    mutation, and its value or [None] for a tombstone. *)
Abbreviation version := (Z * option bytes)%type.

(** The entries of a table or of a file, with their keys. *)
Abbreviation entry := (bytes * version)%type.

Definition answer_of (o : option version) : Lookup :=
  match o with
  | Some (_, Some value) => Found value
  | Some (_, None) => Deleted
  | None => Missing
  end.

(** [enum Kind]: which implementation [build] returns. *)
Inductive Kind := KBTree | KSkiplist.

#[export] Instance kind_eq_dec : EqDecision Kind.
Proof. solve_decision. Defined.

(** [trait Memtable]. [insert] reports whether the mutation was the newest one
    for its key; [for_each] calls a visitor that may fail on every entry. An
    implementation may panic: [insert], [get] and [len] answer [None] then, and
    [for_each] fails with [Panic]. *)
Class Memtable (T : Type) := {
  mt_build : Z -> T;
  mt_insert : T -> bytes -> Z -> option bytes -> option bool * T;
  mt_get : T -> bytes -> option Lookup;
  mt_len : T -> option Z;
  mt_is_empty : T -> bool;
  mt_for_each : forall {S : Type}, T -> (bytes -> Z -> option bytes -> stm S unit) -> stm S unit;
  mt_approx_bytes : T -> Z;
}.

(** [for ... { visit(key, seq, value)?; }], over entries in the order given. *)
Fixpoint visit_all {S} (visit : bytes -> Z -> option bytes -> stm S unit) (es : list entry) : stm S unit :=
  match es with
  | [] => mret tt
  | (key, (seq, value)) :: es => _ ← visit key seq value; visit_all visit es
  end.

(** ** The contract *)

(** Whether [seq] is the newest mutation of [key] that [m] would know of. *)
Definition spec_newest (m : gmap bytes version) (key : bytes) (seq : Z) : bool :=
  match m !! key with
  | Some (seq', _) => seq' <? seq
  | None => true
  end.

(** The higher sequence number wins, whatever the arrival order. *)
Definition spec_insert (m : gmap bytes version) (key : bytes) (seq : Z) (value : option bytes)
  : gmap bytes version :=
  if spec_newest m key seq then <[key := (seq, value)]> m else m.

Definition entry_lt (a b : entry) : Prop := key_lt (fst a) (fst b).

(** Strictly increasing keys: what a table hands out and a file holds. *)
Definition entries_sorted (es : list entry) : Prop := StronglySorted entry_lt es.

(** The entries of a map, listed in key order. *)
Definition lists (es : list entry) (m : gmap bytes version) : Prop :=
  entries_sorted es /\ forall k v, (k, v) ∈ es <-> m !! k = Some v.

(** What the source relies on: a mutation's number has not been used for its key
    before, or is older than what the table holds. *)
Definition fresh_for (m : gmap bytes version) (key : bytes) (seq : Z) : Prop :=
  forall v, m !! key <> Some (seq, v).

Class MemtableLaws (T : Type) `{!Memtable T} := {
  (** [represents t m]: the table's structure is sound and it holds [m]. *)
  represents : T -> gmap bytes version -> Prop;
  (** Room for a mutation with a given number; [True] for a table that grows. *)
  has_room : T -> Z -> Prop;
  law_build : forall budget, represents (mt_build budget) ∅;
  law_insert : forall t m key seq value,
    represents t m -> has_room t seq -> fresh_for m key seq ->
    fst (mt_insert t key seq value) = Some (spec_newest m key seq) /\
    represents (snd (mt_insert t key seq value)) (spec_insert m key seq value);
  law_get : forall t m key, represents t m -> mt_get t key = Some (answer_of (m !! key));
  law_is_empty : forall t m, represents t m -> mt_is_empty t = bool_decide (m = ∅);
  law_len : forall t m, represents t m -> mt_len t = Some (Z.of_nat (size m));
  law_for_each : forall t m, represents t m ->
    exists es, lists es m /\ forall S visit (s : S), mt_for_each t visit s = visit_all visit es s;
}.

(** ** Sorted entry lists *)

Definition find_entry (es : list entry) (key : bytes) : option version :=
  snd <$> find (fun e => key_eqb (fst e) key) es.

Lemma entries_sorted_NoDup es : entries_sorted es -> NoDup es.*1.
Proof.
  induction 1 as [|[k v] es Hs IH Hlt]; cbn; [constructor|]. constructor; [|done].
  intros ([k' v'] & Heq & Hin)%list_elem_of_fmap. simpl in Heq. subst k'.
  rewrite Forall_forall in Hlt. specialize (Hlt (k, v') Hin). unfold entry_lt in Hlt. simpl in Hlt.
  by apply key_lt_irrefl in Hlt.
Qed.

Lemma find_entry_cons k v es key :
  find_entry ((k, v) :: es) key = if key_eqb k key then Some v else find_entry es key.
Proof. unfold find_entry. simpl. by destruct (key_eqb k key). Qed.

Lemma find_entry_Some_in es key v : find_entry es key = Some v -> (key, v) ∈ es.
Proof.
  induction es as [|[k w] es IH]; [done|]. rewrite find_entry_cons.
  destruct (key_eqb_spec k key) as [->|].
  - intros [= ->]. left.
  - intros H. right. by apply IH.
Qed.

Lemma find_entry_sorted es key v :
  entries_sorted es -> (key, v) ∈ es <-> find_entry es key = Some v.
Proof.
  intros Hs. split; [|apply find_entry_Some_in].
  induction Hs as [|[k w] es Hs IH Hlt]; [by intros ?%elem_of_nil|].
  rewrite find_entry_cons. intros [[= -> ->]|Hin]%elem_of_cons.
  - by destruct (key_eqb_spec k k).
  - destruct (key_eqb_spec k key) as [->|]; [|auto].
    rewrite Forall_forall in Hlt. specialize (Hlt _ Hin). unfold entry_lt in Hlt. simpl in Hlt.
    by apply key_lt_irrefl in Hlt.
Qed.

Lemma find_entry_None es key : find_entry es key = None <-> key ∉ es.*1.
Proof.
  induction es as [|[k w] es IH]; [split; [intros _ ?%elem_of_nil|]; done|].
  rewrite find_entry_cons. cbn. rewrite not_elem_of_cons. destruct (key_eqb_spec k key) as [->|].
  - split; [done|]. intros []. done.
  - rewrite IH. split; [|by intros []]. split; [congruence|done].
Qed.

Lemma lists_find es m key : lists es m -> find_entry es key = m !! key.
Proof.
  intros [Hs Hin]. destruct (m !! key) as [v|] eqn:E.
  - apply find_entry_sorted; [done|]. by apply Hin.
  - apply find_entry_None. intros ([k v] & -> & H)%list_elem_of_fmap.
    apply Hin in H. simpl in *. congruence.
Qed.

(** Two sorted lists of the same map are the same list. *)
Lemma entries_sorted_ext es1 : forall es2,
  entries_sorted es1 -> entries_sorted es2 ->
  (forall k v, (k, v) ∈ es1 <-> (k, v) ∈ es2) -> es1 = es2.
Proof.
  induction es1 as [|[k1 v1] es1 IH]; intros [|[k2 v2] es2] H1 H2 Hin.
  - done.
  - exfalso. eapply (not_elem_of_nil (k2, v2)), Hin. left.
  - exfalso. eapply (not_elem_of_nil (k1, v1)), Hin. left.
  - apply StronglySorted_inv in H1 as [H1 F1]. apply StronglySorted_inv in H2 as [H2 F2].
    rewrite Forall_forall in F1, F2. unfold entry_lt in F1, F2.
    assert ((k1, v1) = (k2, v2)) as [= -> ->].
    { pose proof (proj1 (Hin k1 v1) ltac:(left)) as E1. apply elem_of_cons in E1 as [E|E1]; [done|].
      pose proof (proj2 (Hin k2 v2) ltac:(left)) as E2. apply elem_of_cons in E2 as [E|E2]; [done|].
      specialize (F2 _ E1). specialize (F1 _ E2). simpl in *. key_order. }
    f_equal. apply IH; [done..|]. intros k v. specialize (Hin k v).
    rewrite !elem_of_cons in Hin. split; intros H.
    + destruct (proj1 Hin ltac:(by right)) as [[= -> ->]|]; [|done].
      specialize (F1 _ H). simpl in F1. by apply key_lt_irrefl in F1.
    + destruct (proj2 Hin ltac:(by right)) as [[= -> ->]|]; [|done].
      specialize (F2 _ H). simpl in F2. by apply key_lt_irrefl in F2.
Qed.

Lemma lists_unique es1 es2 m : lists es1 m -> lists es2 m -> es1 = es2.
Proof.
  intros [H1 E1] [H2 E2]. apply entries_sorted_ext; [done..|].
  intros k v. by rewrite E1, E2.
Qed.

Lemma lists_to_map es m : lists es m -> m = list_to_map es.
Proof.
  intros [Hs Hin]. apply map_eq. intros k. apply option_eq. intros v.
  rewrite <- Hin. apply elem_of_list_to_map. by apply entries_sorted_NoDup.
Qed.

Lemma lists_size es m : lists es m -> size m = length es.
Proof.
  intros H. rewrite (lists_to_map _ _ H).
  apply map_size_list_to_map, entries_sorted_NoDup, H.
Qed.

Lemma lists_nil_iff es m : lists es m -> es = [] <-> m = ∅.
Proof.
  intros H. pose proof (lists_size es m H) as Hsz. split.
  - intros ->. by apply map_size_empty_inv.
  - intros ->. rewrite map_size_empty in Hsz. by apply nil_length_inv.
Qed.

(** ** Arrival order does not matter *)

Definition spec_apply (m : gmap bytes version) (muts : list entry) : gmap bytes version :=
  fold_left (fun m '(key, (seq, value)) => spec_insert m key seq value) muts m.

(** The mutation a list leaves for a key: the one with the highest number. *)
Definition newest_in (muts : list entry) (key : bytes) (v : version) : Prop :=
  (key, v) ∈ muts /\ forall w, (key, w) ∈ muts -> fst w <= fst v.

Definition numbering (muts : list entry) : list (bytes * Z) :=
  (fun e => (fst e, fst (snd e))) <$> muts.

Lemma spec_insert_lookup m key seq value k :
  spec_insert m key seq value !! k =
  if decide (k = key) then
    if spec_newest m key seq then Some (seq, value) else m !! k
  else m !! k.
Proof.
  unfold spec_insert. destruct (spec_newest m key seq).
  - rewrite lookup_insert. destruct (decide (key = k)), (decide (k = key)); congruence.
  - by destruct (decide (k = key)).
Qed.

Lemma spec_insert_comm m k1 s1 v1 k2 s2 v2 :
  (k1, s1) <> (k2, s2) ->
  spec_insert (spec_insert m k1 s1 v1) k2 s2 v2 = spec_insert (spec_insert m k2 s2 v2) k1 s1 v1.
Proof.
  intros Hne. apply map_eq. intros k. unfold spec_insert.
  destruct (decide (k1 = k2)) as [->|Hk].
  - assert (s1 <> s2) by congruence. unfold spec_newest.
    destruct (m !! k2) as [[s v]|] eqn:E.
    + destruct (Z.ltb_spec s s1), (Z.ltb_spec s s2); rewrite ?lookup_insert_eq, ?E;
        repeat match goal with |- context [?a <? ?b] => destruct (Z.ltb_spec a b) end;
        rewrite ?insert_insert_eq; done || lia.
    + rewrite !lookup_insert_eq. destruct (Z.ltb_spec s1 s2), (Z.ltb_spec s2 s1);
        rewrite ?insert_insert_eq; done || lia.
  - unfold spec_newest.
    pose proof (lookup_insert_ne m k1 k2 (s1, v1) Hk) as E1.
    pose proof (lookup_insert_ne m k2 k1 (s2, v2) (not_eq_sym Hk)) as E2.
    destruct (m !! k1) as [[t1 ?]|] eqn:F1, (m !! k2) as [[t2 ?]|] eqn:F2;
      repeat match goal with |- context [?a <? ?b] => destruct (Z.ltb_spec a b) end;
      rewrite ?E1, ?E2, ?F1, ?F2;
      repeat match goal with |- context [?a <? ?b] => destruct (Z.ltb_spec a b) end;
      try lia; try done; by rewrite insert_insert_ne.
Qed.

Lemma spec_apply_perm muts muts' m :
  Permutation muts muts' -> NoDup (numbering muts) -> spec_apply m muts = spec_apply m muts'.
Proof.
  intros Hp. revert m. induction Hp as [|[k [s v]] l l' Hp IH|[k1 [s1 v1]] [k2 [s2 v2]] l|l l' l'' H1 IH1 H2 IH2];
    intros m Hnd; cbn.
  - done.
  - apply IH. by apply NoDup_cons in Hnd as [_ ?].
  - f_equal. apply spec_insert_comm. cbn in Hnd. apply NoDup_cons in Hnd as [Hn _].
    rewrite not_elem_of_cons in Hn. by destruct Hn.
  - rewrite IH1, IH2; [done| |done]. unfold numbering. by rewrite <- H1.
Qed.

Lemma spec_apply_lookup muts : forall m key v,
  spec_apply m muts !! key = Some v ->
  m !! key = Some v \/ (key, v) ∈ muts.
Proof.
  induction muts as [|[k [s w]] muts IH]; intros m key v H; cbn in H; [auto|].
  apply IH in H as [H|H]; [|right; by right].
  rewrite spec_insert_lookup in H. destruct (decide (key = k)) as [->|]; [|auto].
  destruct (spec_newest m k s); [|auto]. injection H as <-. right. left.
Qed.

Lemma spec_apply_ge muts : forall m key v,
  m !! key = Some v \/ (key, v) ∈ muts ->
  exists w, spec_apply m muts !! key = Some w /\ fst v <= fst w.
Proof.
  induction muts as [|[k [s x]] muts IH]; intros m key v H; cbn.
  - destruct H as [H|H%elem_of_nil]; [|done]. eauto with lia.
  - destruct H as [H|[[= -> ->]|H]%elem_of_cons].
    + destruct (decide (key = k)) as [->|Hne].
      * destruct (spec_newest m k s) eqn:En.
        -- destruct (IH (spec_insert m k s x) k (s, x)) as (w & Hw & Hle).
           { left. rewrite spec_insert_lookup, En. by rewrite decide_True. }
           unfold spec_newest in En. rewrite H in En. destruct v as [sv vv].
           apply Z.ltb_lt in En. exists w. simpl in *. split; [done|lia].
        -- apply IH. left. rewrite spec_insert_lookup, En, decide_True by done. done.
      * apply IH. left. by rewrite spec_insert_lookup, decide_False.
    + destruct (spec_newest m k s) eqn:En.
      * apply IH. left. rewrite spec_insert_lookup, En. by rewrite decide_True.
      * unfold spec_newest in En. destruct (m !! k) as [[s' v']|] eqn:Em; [|done].
        apply Z.ltb_ge in En.
        destruct (IH (spec_insert m k s x) k (s', v')) as (w & Hw & Hle).
        { left. rewrite spec_insert_lookup, decide_True by done. unfold spec_newest.
          rewrite Em. by destruct (Z.ltb_spec s' s); [lia|]. }
        exists w. simpl in *. split; [done|lia].
    + apply IH. by right.
Qed.

(** A table fed any mutations answers with the newest one of each key. *)
Lemma spec_apply_newest muts key v :
  NoDup (numbering muts) -> spec_apply ∅ muts !! key = Some v <-> newest_in muts key v.
Proof.
  intros Hnd. unfold newest_in. split.
  - intros H. destruct (spec_apply_lookup muts ∅ key v H) as [E|Hin]; [done|].
    split; [done|]. intros w Hw.
    destruct (spec_apply_ge muts ∅ key w (or_intror Hw)) as (x & Hx & Hle). congruence.
  - intros [Hin Hmax].
    destruct (spec_apply_ge muts ∅ key v (or_intror Hin)) as (w & Hw & Hle).
    destruct (spec_apply_lookup muts ∅ key w Hw) as [E|Hwin]; [done|].
    specialize (Hmax w Hwin). rewrite Hw. f_equal.
    destruct v as [s v], w as [s' w]. simpl in *. assert (s' = s) as -> by lia. f_equal.
    apply list_elem_of_lookup in Hin as [i Hi]. apply list_elem_of_lookup in Hwin as [j Hj].
    assert (i = j) as <-; [|congruence]. eapply (NoDup_lookup (numbering muts)); [done|..];
      unfold numbering; rewrite list_lookup_fmap.
    + by rewrite Hi.
    + by rewrite Hj.
Qed.

(** Inserting one mutation leaves the numbers of the others new. *)
Lemma fresh_after m k s v muts :
  NoDup (numbering ((k, (s, v)) :: muts)) -> (forall k' s' v', (k', (s', v')) ∈ (k, (s, v)) :: muts -> fresh_for m k' s') ->
  forall k' s' v', (k', (s', v')) ∈ muts -> fresh_for (spec_insert m k s v) k' s'.
Proof.
  intros [Hni _]%NoDup_cons Hf k' s' v' Hin w. rewrite spec_insert_lookup.
  destruct (decide (k' = k)) as [->|]; [|eapply Hf; by right]. destruct (spec_newest m k s); [|eapply Hf; by right].
  intros [= -> ->]. apply Hni, list_elem_of_fmap. by exists (k, (s', v')).
Qed.

Section Feeding.
Context {T : Type} `{MemtableLaws T}.

(** Inserting mutations one after the other, as the writers and recovery do. *)
Definition mt_apply (t : T) (muts : list entry) : T :=
  fold_left (fun t '(key, (seq, value)) => snd (mt_insert t key seq value)) muts t.

(** Every insertion on the way finds room. *)
Fixpoint roomy (t : T) (muts : list entry) : Prop :=
  match muts with
  | [] => True
  | (key, (seq, value)) :: muts => has_room t seq /\ roomy (snd (mt_insert t key seq value)) muts
  end.

Lemma mt_apply_represents muts : forall t m,
  represents t m -> roomy t muts ->
  NoDup (numbering muts) -> (forall k s v, (k, (s, v)) ∈ muts -> fresh_for m k s) ->
  represents (mt_apply t muts) (spec_apply m muts).
Proof.
  induction muts as [|[k [s v]] muts IH]; intros t m Hr Hroom Hnd Hfresh; cbn in *; [done|].
  destruct Hroom as [Hroom Hrest]. pose proof Hnd as [_ Hnd']%NoDup_cons.
  assert (fresh_for m k s) as Hf by (eapply Hfresh; left).
  destruct (law_insert t m k s v Hr Hroom Hf) as [_ Hr'].
  apply IH; [done..|]. by eapply fresh_after.
Qed.
End Feeding.
