(* ===== verification/Btree.v ===== *)
(** * The [BTreeMap] table ([memtable/btree.rs])

    A [BTreeMap<Vec<u8>, Entry>] is the list of its entries in key order: it is
    looked up by key, updated in place, and iterated in that order. The [RwLock]
    around it makes every method one step. *)

From S2P Require Import Prelude Memtable.

(** [BTreeMap::insert]: a new key goes to its place in the order. *)
Fixpoint btree_put (es : list entry) (key : bytes) (v : version) : list entry :=
  match es with
  | [] => [(key, v)]
  | (k, w) :: es' =>
      match bytes_cmp key k with
      | Lt => (key, v) :: es
      | Eq => (key, v) :: es'
      | Gt => (k, w) :: btree_put es' key v
      end
  end.

(** [Inner]. *)
Record BTreeMemtable := mkBtree {
  bt_entries : list entry;
  bt_bytes : Z;
}.

Definition bt_new : BTreeMemtable := mkBtree [] 0.

(** [Entry::value_len], and [value.as_ref().map_or(0, Vec::len)]. *)
Definition value_len (value : option bytes) : Z :=
  match value with Some v => zlen v | None => 0 end.

Definition bt_insert (self : BTreeMemtable) (key : bytes) (seq : Z) (value : option bytes)
  : bool * BTreeMemtable :=
  match find_entry (bt_entries self) key with
  | Some (entry_seq, entry_value) =>
      if seq <=? entry_seq then (false, self)
      else
        (true, mkBtree (btree_put (bt_entries self) key (seq, value))
                 (bt_bytes self - value_len entry_value + value_len value))
  | None =>
      (true, mkBtree (btree_put (bt_entries self) key (seq, value))
               (bt_bytes self + (zlen key + value_len value)))
  end.

Definition bt_get (self : BTreeMemtable) (key : bytes) : Lookup :=
  match find_entry (bt_entries self) key with
  | Some (_, Some value) => Found value
  | Some (_, None) => Deleted
  | None => Missing
  end.

Definition bt_len (self : BTreeMemtable) : Z := zlen (bt_entries self).

Definition bt_is_empty (self : BTreeMemtable) : bool := bt_len self =? 0.

Definition bt_for_each {S} (self : BTreeMemtable)
  (visit : bytes -> Z -> option bytes -> stm S unit) : stm S unit :=
  visit_all visit (bt_entries self).

Definition bt_approx_bytes (self : BTreeMemtable) : Z := bt_bytes self.

#[export] Instance btree_memtable : Memtable BTreeMemtable := {
  mt_build _ := bt_new;
  mt_insert self key seq value := let r := bt_insert self key seq value in (Some (fst r), snd r);
  mt_get self key := Some (bt_get self key);
  mt_len self := Some (bt_len self);
  mt_is_empty := bt_is_empty;
  mt_for_each := @bt_for_each;
  mt_approx_bytes := bt_approx_bytes;
}.

(** ** The accounting *)

Definition entry_bytes (e : entry) : Z := zlen (fst e) + value_len (snd (snd e)).

Definition total_bytes (es : list entry) : Z := foldr (fun e n => entry_bytes e + n) 0 es.

(** The structure's invariant: keys strictly increase, and [bytes] is what the
    entries take. *)
Definition bt_wf (self : BTreeMemtable) : Prop :=
  entries_sorted (bt_entries self) /\ bt_bytes self = total_bytes (bt_entries self).

(** ** Lemmas *)

Lemma elem_of_btree_put es key v k w :
  entries_sorted es ->
  (k, w) ∈ btree_put es key v <-> (k = key /\ w = v) \/ (k <> key /\ (k, w) ∈ es).
Proof.
  induction 1 as [|[k0 w0] es Hs IH Hlt]; cbn [btree_put].
  - rewrite list_elem_of_singleton. split; [intros [= -> ->]; auto|].
    intros [[-> ->]|[_ H%elem_of_nil]]; done.
  - rewrite Forall_forall in Hlt. unfold entry_lt in Hlt.
    destruct (bytes_cmp_spec key k0) as [->|Hlt0|Hgt0].
    + rewrite !elem_of_cons. split.
      * intros [[= -> ->]|Hin]; [auto|]. right. split; [|auto]. intros ->.
        specialize (Hlt _ Hin). simpl in Hlt. by apply key_lt_irrefl in Hlt.
      * intros [[-> ->]|[Hne [[= -> ->]|Hin]]]; auto. done.
    + rewrite !elem_of_cons. split.
      * intros [[= -> ->]|[[= -> ->]|Hin]]; [auto|..]; right; (split; [|auto]).
        -- intros ->. by apply key_lt_irrefl in Hlt0.
        -- intros ->. specialize (Hlt _ Hin). simpl in Hlt. key_order.
      * intros [[-> ->]|[_ [[= -> ->]|Hin]]]; auto.
    + rewrite !elem_of_cons, IH. split.
      * intros [[= -> ->]|[[-> ->]|[Hne Hin]]]; auto. right. split; [|auto].
        intros ->. by apply key_lt_irrefl in Hgt0.
      * intros [[-> ->]|[Hne [[= -> ->]|Hin]]]; auto.
Qed.

Lemma btree_put_sorted es key v : entries_sorted es -> entries_sorted (btree_put es key v).
Proof.
  induction 1 as [|[k0 w0] es Hs IH Hlt]; cbn [btree_put]; [repeat constructor|].
  pose proof Hlt as Hlt'. rewrite Forall_forall in Hlt'. unfold entry_lt in Hlt'.
  destruct (bytes_cmp_spec key k0) as [->|H|H].
  - by constructor.
  - constructor; [by constructor|]. constructor; [done|]. apply Forall_forall.
    intros [k w] Hin. specialize (Hlt' _ Hin). unfold entry_lt. simpl in *. key_order.
  - constructor; [done|]. apply Forall_forall. intros [k w] Hin.
    apply elem_of_btree_put in Hin as [[-> ->]|[_ Hin]]; [done|by apply Hlt'|done].
Qed.

Lemma total_bytes_put es key v :
  entries_sorted es ->
  total_bytes (btree_put es key v) =
  match find_entry es key with
  | Some (_, old) => total_bytes es - value_len old + value_len (snd v)
  | None => total_bytes es + (zlen key + value_len (snd v))
  end.
Proof.
  induction 1 as [|[k0 [s0 w0]] es Hs IH Hlt]; cbn [btree_put].
  - unfold total_bytes, entry_bytes. simpl. lia.
  - rewrite find_entry_cons. unfold total_bytes, entry_bytes in *.
    destruct (bytes_cmp_spec key k0) as [->|H|H].
    + destruct (key_eqb_spec k0 k0); [|done]. simpl. lia.
    + destruct (key_eqb_spec k0 key) as [->|]; [by apply key_lt_irrefl in H|].
      assert (find_entry es key = None) as ->; [|simpl; lia].
      apply find_entry_None. intros ([k w] & -> & Hin)%list_elem_of_fmap.
      rewrite Forall_forall in Hlt. specialize (Hlt _ Hin). unfold entry_lt in Hlt. simpl in *. key_order.
    + destruct (key_eqb_spec k0 key) as [->|]; [by apply key_lt_irrefl in H|].
      simpl. rewrite IH. destruct (find_entry es key) as [[? ?]|]; lia.
Qed.

Lemma entry_bytes_nonneg e : 0 <= entry_bytes e.
Proof.
  unfold entry_bytes. pose proof (zlen_nonneg (fst e)).
  destruct (snd (snd e)) as [v|]; simpl; [pose proof (zlen_nonneg v)|]; lia.
Qed.

Lemma total_bytes_nonneg es : 0 <= total_bytes es.
Proof.
  induction es as [|e es IH]; unfold total_bytes in *; simpl; [lia|].
  pose proof (entry_bytes_nonneg e). lia.
Qed.

Lemma total_bytes_in e es : e ∈ es -> entry_bytes e <= total_bytes es.
Proof.
  induction 1 as [e es|e e' es Hin IH]; unfold total_bytes in *; simpl.
  - pose proof (total_bytes_nonneg es) as H. unfold total_bytes in H. lia.
  - pose proof (entry_bytes_nonneg e'). lia.
Qed.

Lemma lists_put es m key v : lists es m -> lists (btree_put es key v) (<[key := v]> m).
Proof.
  intros [Hs Hin]. split; [by apply btree_put_sorted|]. intros k w.
  rewrite elem_of_btree_put, lookup_insert_Some, Hin by done. intuition congruence.
Qed.

Lemma bt_insert_wf self key seq value :
  bt_wf self -> bt_wf (snd (bt_insert self key seq value)).
Proof.
  intros [Hs Hb]. unfold bt_insert.
  pose proof (total_bytes_put (bt_entries self) key (seq, value) Hs) as Ht.
  destruct (find_entry _ key) as [[s old]|].
  - destruct (seq <=? s); [done|]. split; simpl; [by apply btree_put_sorted|].
    simpl in Ht. lia.
  - split; simpl; [by apply btree_put_sorted|]. simpl in Ht. lia.
Qed.

#[export] Program Instance btree_laws : MemtableLaws BTreeMemtable := {
  represents t m := bt_wf t /\ lists (bt_entries t) m;
  has_room _ _ := True;
}.
Next Obligation.
  intros budget. cbn. split; [split; [constructor|done]|]. split; [constructor|].
  intros k v. rewrite lookup_empty. split; [intros ?%elem_of_nil|]; done.
Qed.
Next Obligation.
  intros t m key seq value [Hwf Hl] _ _. simpl. split; [|split; [by apply bt_insert_wf|]].
  all: unfold bt_insert, spec_insert, spec_newest; rewrite (lists_find _ _ key Hl).
  - destruct (m !! key) as [[s old]|]; [|done].
    destruct (Z.leb_spec seq s), (Z.ltb_spec s seq); done || lia.
  - destruct (m !! key) as [[s old]|]; [|by apply lists_put].
    destruct (Z.leb_spec seq s), (Z.ltb_spec s seq); try lia; [done|by apply lists_put].
Qed.
Next Obligation. intros t m key [_ Hl]. simpl. unfold bt_get. by rewrite (lists_find _ _ key Hl). Qed.
Next Obligation.
  intros t m [_ Hl]. simpl. unfold bt_is_empty, bt_len. pose proof (lists_nil_iff _ _ Hl) as Hn.
  destruct (Z.eqb_spec (zlen (bt_entries t)) 0) as [E|E].
  - apply zlen_nil_inv, Hn in E. by rewrite bool_decide_true.
  - rewrite bool_decide_false; [done|]. intros Hm. apply Hn in Hm. by rewrite Hm in E.
Qed.
Next Obligation. intros t m [_ Hl]. simpl. unfold bt_len, zlen. by rewrite (lists_size _ _ Hl). Qed.
Next Obligation. intros t m [_ Hl]. eauto. Qed.

Lemma bt_apply_represents muts :
  NoDup (numbering muts) -> represents (mt_apply bt_new muts) (spec_apply ∅ muts).
Proof.
  intros Hnd. apply mt_apply_represents; [exact (law_build (T := BTreeMemtable) 0)| |done|done].
  generalize bt_new. induction muts as [|[k [s v]] muts IH]; intros t; cbn; [done|].
  split; [done|]. apply IH. by apply NoDup_cons in Hnd as [_ ?].
Qed.

(** ** Claims *)

(** C22: writers reach the table in any order. Whatever the order in which the
    mutations of the log arrive, the table they leave is the same, entry for
    entry, so memory equals what recovery rebuilds; each key holds the mutation
    with the highest sequence number. *)
Theorem btree_order_independent (muts muts' : list entry)
  (Hperm : Permutation muts muts') (Hnd : NoDup (numbering muts)) :
  bt_entries (mt_apply bt_new muts) = bt_entries (mt_apply bt_new muts') /\
  forall key v, (key, v) ∈ bt_entries (mt_apply bt_new muts) <-> newest_in muts key v.
Proof.
  destruct (bt_apply_represents muts Hnd) as [_ Hl].
  assert (NoDup (numbering muts')) as Hnd' by (unfold numbering; by rewrite <- Hperm).
  destruct (bt_apply_represents muts' Hnd') as [_ Hl'].
  split.
  - rewrite <- (spec_apply_perm muts muts') in Hl' by done. by apply (lists_unique _ _ (spec_apply ∅ muts)).
  - intros key v. destruct Hl as [_ Hin]. by rewrite Hin, spec_apply_newest.
Qed.

Definition demo_muts : list entry :=
  [(bstr "k", (1, Some (bstr "old"))); (bstr "k", (2, Some (bstr "new"))); (bstr "a", (3, None))].

Lemma btree_order_independent_witness :
  bt_entries (mt_apply bt_new demo_muts) = bt_entries (mt_apply bt_new (rev demo_muts)) /\
  forall key v, (key, v) ∈ bt_entries (mt_apply bt_new demo_muts) <-> newest_in demo_muts key v.
Proof.
  apply (btree_order_independent demo_muts (rev demo_muts)).
  - apply Permutation_rev.
  - apply (bool_decide_unpack _). vm_compute. exact I.
Defined.

(** The size the flush threshold is compared against is exactly the key and
    value bytes the table holds, after any sequence of inserts; keys stay
    strictly increasing, and the subtraction in [insert] cannot underflow. *)
Theorem btree_accounting (muts : list entry) :
  let t := mt_apply bt_new muts in
  bt_approx_bytes t = total_bytes (bt_entries t) /\ entries_sorted (bt_entries t) /\
  (forall key seq old, find_entry (bt_entries t) key = Some (seq, old) -> value_len old <= bt_bytes t).
Proof.
  cbv zeta. assert (bt_wf (mt_apply bt_new muts)) as [Hs Hb].
  { assert (bt_wf bt_new) as H by (split; [constructor|done]). revert H. generalize bt_new.
    induction muts as [|[k [s v]] muts IH]; intros t Ht; cbn; [done|]. by apply IH, bt_insert_wf. }
  split; [done|]. split; [done|]. intros key seq old Hf. rewrite Hb.
  apply find_entry_Some_in, total_bytes_in in Hf. unfold entry_bytes in Hf. simpl in Hf.
  pose proof (zlen_nonneg key). lia.
Qed.
