(* ===== verification/Bloom.v ===== *)
(** * The Bloom filter ([bloom.rs])

    The bit array with the probe count in its last byte, the double-hashed probe
    sequence in [u32] arithmetic, and the key hash. The theorem the read path
    rests on: a filter never misses a key it was built over. *)

From S2P Require Import Prelude Coding.

Definition BITS_PER_KEY : Z := 10.
Definition MIN_BITS : Z := 64.

(** [struct Bloom]: the bit array, then the probe count. *)
Record Bloom := mkBloom { bl_data : bytes }.

Definition optimal_probes (bits_per_key : Z) : Z :=
  let probes := wrap64 (wrap64 (bits_per_key * 69315) + 50000) / 100000 in
  Z.min (Z.max probes 1) 30.

(** [split]: the two halves the probe sequence walks with. *)
Definition split_hash (key_hash : Z) : Z * Z :=
  let bs := to_le 8 key_hash in
  let first := from_le (take 4 bs) in
  let second := from_le (drop 4 bs) in
  (first, Z.lor second 1).

Definition bit_len (nbytes : Z) : Z :=
  let bits := Z.min (nbytes * 8) u64_max in
  if bits <=? u32_max then bits else u32_max.

(** [data[bit / 8]]. *)
Definition byte_of_bit (data : bytes) (bit : Z) : Z :=
  b2z (nth (Z.to_nat (bit / 8)) data Byte.x00).

(** [data[bit / 8] |= 1 << (bit % 8)]. *)
Definition set_bit (data : bytes) (bit : Z) : bytes :=
  <[Z.to_nat (bit / 8) := z2b (Z.lor (byte_of_bit data bit) (Z.shiftl 1 (bit mod 8)))]> data.

(** [for _ in 0..probes] of [build]. *)
Fixpoint set_probes (probes : nat) (blen position step : Z) (data : bytes) : bytes :=
  match probes with
  | O => data
  | S probes =>
      let bit := position mod blen in
      set_probes probes blen (wrap32 (position + step)) step (set_bit data bit)
  end.

Definition add_hash (probes : Z) (blen : Z) (data : bytes) (key_hash : Z) : bytes :=
  let '(position, step) := split_hash key_hash in
  set_probes (Z.to_nat probes) blen position step data.

(** [n.div_ceil(8)]. *)
Definition div_ceil8 (n : Z) : Z := (n + 7) / 8.

Definition bloom_build (hashes : list Z) (bits_per_key : Z) : Bloom :=
  let probes := optimal_probes bits_per_key in
  let nbytes := div_ceil8 (Z.max (wrap64 (zlen hashes * bits_per_key)) MIN_BITS) in
  let data := replicate (Z.to_nat (nbytes + 1)) Byte.x00 in
  let data := fold_left (add_hash probes (bit_len nbytes)) hashes data in
  mkBloom (<[Z.to_nat nbytes := z2b probes]> data).

Definition bloom_decode (bs : bytes) : option Bloom :=
  match last bs with
  | None => None
  | Some probes =>
      if (zlen bs <? 2) || (b2z probes =? 0) then None else Some (mkBloom bs)
  end.

Definition bloom_probes (self : Bloom) : Z :=
  b2z (nth (Z.to_nat (zlen (bl_data self) - 1)) (bl_data self) Byte.x00).

Definition bloom_bits (self : Bloom) : Z := (zlen (bl_data self) - 1) * 8.

Definition as_bytes (self : Bloom) : bytes := bl_data self.

(** [for _ in 0..self.probes()] of [may_contain_hash]. *)
Fixpoint test_probes (probes : nat) (blen position step : Z) (data : bytes) : bool :=
  match probes with
  | O => true
  | S probes =>
      let bit := position mod blen in
      if Z.land (byte_of_bit data bit) (Z.shiftl 1 (bit mod 8)) =? 0 then false
      else test_probes probes blen (wrap32 (position + step)) step data
  end.

Definition may_contain_hash (self : Bloom) (key_hash : Z) : bool :=
  let blen := bit_len (zlen (bl_data self) - 1) in
  let '(position, step) := split_hash key_hash in
  test_probes (Z.to_nat (bloom_probes self)) blen position step (bl_data self).

(** [hash]: FNV-1a over the bytes, then the splitmix64 mixer. *)
Definition fnv_step (state : Z) (b : byte) : Z := wrap64 (Z.lxor state (b2z b) * 0x100000001b3).

Definition bloom_hash (key : bytes) : Z :=
  let state := fold_left fnv_step key 0xcbf29ce484222325 in
  let state := Z.lxor state (Z.shiftr state 30) in
  let state := wrap64 (state * 0xbf58476d1ce4e5b9) in
  let state := Z.lxor state (Z.shiftr state 27) in
  let state := wrap64 (state * 0x94d049bb133111eb) in
  Z.lxor state (Z.shiftr state 31).

Definition may_contain (self : Bloom) (key : bytes) : bool := may_contain_hash self (bloom_hash key).

(** ** Bits *)

(** Whether the probe of [may_contain_hash] finds [bit] set. *)
Definition bit_set (data : bytes) (bit : Z) : Prop :=
  Z.land (byte_of_bit data bit) (Z.shiftl 1 (bit mod 8)) <> 0.

Lemma land_pow2_testbit x i : 0 <= i -> Z.land x (Z.shiftl 1 i) <> 0 <-> Z.testbit x i = true.
Proof.
  intros Hi. rewrite Z.shiftl_1_l.
  assert (Z.land x (2 ^ i) = if Z.testbit x i then 2 ^ i else 0) as ->.
  { apply Z.bits_inj'. intros j Hj. rewrite Z.land_spec.
    destruct (Z.eq_dec i j) as [<-|Hne].
    - rewrite Z.pow2_bits_true, andb_true_r by done.
      destruct (Z.testbit x i); [by rewrite Z.pow2_bits_true|by rewrite Z.bits_0].
    - rewrite Z.pow2_bits_false, andb_false_r by done.
      destruct (Z.testbit x i); [by rewrite Z.pow2_bits_false|by rewrite Z.bits_0]. }
  destruct (Z.testbit x i); [|split; done]. pose proof (Z.pow_pos_nonneg 2 i). split; [done|lia].
Qed.

Lemma bit_set_testbit data bit :
  bit_set data bit <-> Z.testbit (byte_of_bit data bit) (bit mod 8) = true.
Proof. unfold bit_set. apply land_pow2_testbit. apply Z.mod_pos_bound. lia. Qed.

Lemma length_set_bit data bit : length (set_bit data bit) = length data.
Proof. unfold set_bit. apply length_insert. Qed.

Lemma byte_of_bit_insert data i b bit :
  (i < length data)%nat -> i = Z.to_nat (bit / 8) -> byte_of_bit (<[i := b]> data) bit = b2z b.
Proof.
  intros Hi ->. unfold byte_of_bit. f_equal. apply nth_lookup_Some. by apply list_lookup_insert_eq.
Qed.

Lemma byte_of_bit_insert_ne data i b bit :
  i <> Z.to_nat (bit / 8) -> byte_of_bit (<[i := b]> data) bit = byte_of_bit data bit.
Proof.
  intros Hi. unfold byte_of_bit. f_equal. rewrite !nth_lookup. by rewrite list_lookup_insert_ne.
Qed.

Lemma lor_byte_range x i : 0 <= x < 256 -> 0 <= i < 8 -> 0 <= Z.lor x (Z.shiftl 1 i) < 256.
Proof.
  intros Hx Hi.
  assert (0 <= Z.shiftl 1 i < 256).
  { rewrite Z.shiftl_1_l. split; [apply Z.pow_nonneg; lia|].
    change 256 with (2 ^ 8). apply Z.pow_lt_mono_r; lia. }
  split; [apply Z.lor_nonneg; lia|].
  destruct (Z.eq_dec (Z.lor x (Z.shiftl 1 i)) 0) as [->|Hnz]; [lia|].
  apply Z.log2_lt_pow2 with (b := 8); [pose proof (Z.lor_nonneg x (Z.shiftl 1 i)); lia|].
  rewrite Z.log2_lor by lia.
  apply Z.max_lub_lt.
  - destruct (Z.eq_dec x 0) as [->|]; [simpl; lia|]. apply Z.log2_lt_pow2; simpl; lia.
  - apply Z.log2_lt_pow2; [|simpl; lia]. rewrite Z.shiftl_1_l. apply Z.pow_pos_nonneg; lia.
Qed.

(** Setting a bit sets it, and clears none. *)
Lemma bit_set_set_bit data bit bit' :
  0 <= bit -> 0 <= bit' -> (Z.to_nat (bit / 8) < length data)%nat ->
  bit_set (set_bit data bit) bit' <-> bit' = bit \/ bit_set data bit'.
Proof.
  intros Hb Hb' Hlen. rewrite !bit_set_testbit. unfold set_bit.
  pose proof (Z.mod_pos_bound bit 8 ltac:(lia)). pose proof (Z.mod_pos_bound bit' 8 ltac:(lia)).
  assert (0 <= byte_of_bit data bit < 256) as Hr by (unfold byte_of_bit; apply b2z_range).
  destruct (Z.eq_dec (bit / 8) (bit' / 8)) as [Hq|Hq].
  - rewrite byte_of_bit_insert by (rewrite ?Hq in *; done || lia).
    rewrite b2z_z2b_small by (apply lor_byte_range; lia).
    rewrite Z.lor_spec, orb_true_iff, <- (land_pow2_testbit (Z.shiftl 1 (bit mod 8))) by lia.
    assert (byte_of_bit data bit = byte_of_bit data bit') as -> by (unfold byte_of_bit; by rewrite Hq).
    rewrite land_pow2_testbit, Z.shiftl_1_l by lia.
    pose proof (Z.div_mod bit 8 ltac:(lia)). pose proof (Z.div_mod bit' 8 ltac:(lia)).
    destruct (Z.eq_dec (bit mod 8) (bit' mod 8)) as [Hm|Hm].
    + rewrite Hm, Z.pow2_bits_true by lia. split; [intros _; left; lia|auto].
    + rewrite Z.pow2_bits_false by lia. split; [intros [?|]; [auto|done]|].
      intros [->|]; [done|auto].
  - rewrite byte_of_bit_insert_ne.
    + split; [auto|]. intros [->|]; done.
    + assert (0 <= bit / 8) by (apply Z.div_pos; lia). assert (0 <= bit' / 8) by (apply Z.div_pos; lia). lia.
Qed.

Lemma bit_len_range nbytes : 0 < nbytes -> 0 < bit_len nbytes <= nbytes * 8.
Proof. intros. unfold bit_len, u32_max, u64_max. destruct (Z.leb_spec (Z.min (nbytes * 8) 18446744073709551615) 4294967295); lia. Qed.

(** ** The probe sequence *)

(** The bits a hash probes, in order. *)
Fixpoint probe_bits (probes : nat) (blen position step : Z) : list Z :=
  match probes with
  | O => []
  | S probes => position mod blen :: probe_bits probes blen (wrap32 (position + step)) step
  end.

Definition hash_bits (probes : nat) (blen : Z) (key_hash : Z) : list Z :=
  let '(position, step) := split_hash key_hash in probe_bits probes blen position step.

Lemma probe_bits_range n blen position step bit :
  0 < blen -> bit ∈ probe_bits n blen position step -> 0 <= bit < blen.
Proof.
  intros Hb. revert position; induction n as [|n IH]; intros position; cbn.
  - by intros ?%elem_of_nil.
  - intros [->|H]%elem_of_cons; [apply Z.mod_pos_bound; lia|eauto].
Qed.

Lemma bit_index_lt blen len bit :
  0 <= bit < blen -> blen <= len * 8 -> (Z.to_nat (bit / 8) < Z.to_nat len)%nat.
Proof. intros. apply Z2Nat.inj_lt; [apply Z.div_pos; lia|lia|]. apply Z.div_lt_upper_bound; lia. Qed.

Lemma set_probes_spec n blen step : forall position data,
  0 < blen -> blen <= zlen data * 8 ->
  length (set_probes n blen position step data) = length data /\
  forall bit, 0 <= bit ->
    bit_set (set_probes n blen position step data) bit <->
    bit ∈ probe_bits n blen position step \/ bit_set data bit.
Proof.
  induction n as [|n IH]; intros position data Hb Hl; cbn [set_probes probe_bits].
  - split; [done|]. intros bit _. split; [auto|]. intros [?%elem_of_nil|]; done.
  - set (b := position mod blen). assert (0 <= b < blen) by (apply Z.mod_pos_bound; lia).
    destruct (IH (wrap32 (position + step)) (set_bit data b)) as [IHl IHb]; [done| |].
    { unfold zlen. by rewrite length_set_bit. }
    split; [by rewrite IHl, length_set_bit|]. intros bit Hbit.
    rewrite IHb, bit_set_set_bit, elem_of_cons by (done || lia ||
      (pose proof (bit_index_lt blen (zlen data) b ltac:(lia) Hl); unfold zlen in *; lia)).
    tauto.
Qed.

Lemma test_probes_spec n blen step data : forall position,
  test_probes n blen position step data = true <->
  forall bit, bit ∈ probe_bits n blen position step -> bit_set data bit.
Proof.
  induction n as [|n IH]; intros position; cbn.
  - split; [|done]. by intros _ bit ?%elem_of_nil.
  - destruct (Z.eqb_spec (Z.land (byte_of_bit data (position mod blen))
      (Z.shiftl 1 ((position mod blen) mod 8))) 0) as [E|E].
    + split; [done|]. intros H. exfalso. apply (H (position mod blen)); [left|done].
    + rewrite IH. setoid_rewrite elem_of_cons. split; [|auto].
      intros H bit [->|Hin]; [done|auto].
Qed.

Lemma add_hashes_spec probes blen hashes : forall data,
  0 < blen -> blen <= zlen data * 8 ->
  let data' := fold_left (add_hash probes blen) hashes data in
  length data' = length data /\
  forall bit, 0 <= bit ->
    bit_set data' bit <->
    (exists h, h ∈ hashes /\ bit ∈ hash_bits (Z.to_nat probes) blen h) \/ bit_set data bit.
Proof.
  induction hashes as [|h hashes IH]; intros data Hb Hl; cbn [fold_left]; cbv zeta.
  - split; [done|]. intros bit _. split; [auto|]. intros [(h & ?%elem_of_nil & _)|]; done.
  - assert (length (add_hash probes blen data h) = length data /\ forall bit, 0 <= bit ->
      bit_set (add_hash probes blen data h) bit <->
      bit ∈ hash_bits (Z.to_nat probes) blen h \/ bit_set data bit) as [Hlen Hbits].
    { unfold add_hash, hash_bits. destruct (split_hash h) as [position step]. by apply set_probes_spec. }
    destruct (IH (add_hash probes blen data h) Hb) as [IHl IHb].
    { unfold zlen in *. by rewrite Hlen. }
    split; [by rewrite IHl|]. intros bit Hbit. rewrite IHb, Hbits by done.
    setoid_rewrite elem_of_cons. split.
    + intros [(h' & Hin & Hb')|[Hb'|Hb']]; eauto.
    + intros [(h' & [->|Hin] & Hb')|Hb']; eauto.
Qed.

(** ** A filter that was built *)

Lemma div_ceil8_ge n : MIN_BITS <= n -> 8 <= div_ceil8 n.
Proof. unfold MIN_BITS, div_ceil8. intros. apply Z.div_le_lower_bound; lia. Qed.

Lemma optimal_probes_range b : 1 <= optimal_probes b <= 30.
Proof. unfold optimal_probes. lia. Qed.

Lemma replicate_bits n bit : ~ bit_set (replicate n Byte.x00) bit.
Proof.
  unfold bit_set, byte_of_bit. intros H. apply H.
  rewrite nth_lookup. destruct (replicate n Byte.x00 !! Z.to_nat (bit / 8)) as [b|] eqn:E.
  - apply lookup_replicate in E as [-> _]. done.
  - done.
Qed.

(** The bit array of a built filter: exactly the probed bits are set. *)
Lemma bloom_build_spec hashes bits_per_key :
  exists nbytes, 8 <= nbytes /\
    zlen (bl_data (bloom_build hashes bits_per_key)) = nbytes + 1 /\
    bloom_probes (bloom_build hashes bits_per_key) = optimal_probes bits_per_key /\
    forall bit, 0 <= bit < nbytes * 8 ->
      bit_set (bl_data (bloom_build hashes bits_per_key)) bit <->
      exists h, h ∈ hashes /\ bit ∈ hash_bits (Z.to_nat (optimal_probes bits_per_key)) (bit_len nbytes) h.
Proof.
  set (nbytes := div_ceil8 (Z.max (wrap64 (zlen hashes * bits_per_key)) MIN_BITS)).
  assert (8 <= nbytes) as Hn by (apply div_ceil8_ge; lia).
  pose proof (optimal_probes_range bits_per_key) as Hp.
  exists nbytes. split; [done|]. unfold bloom_build. fold nbytes.
  set (zeros := replicate (Z.to_nat (nbytes + 1)) Byte.x00).
  assert (zlen zeros = nbytes + 1) as Hz by (unfold zeros, zlen; rewrite length_replicate; lia).
  pose proof (bit_len_range nbytes ltac:(lia)) as Hbl.
  destruct (add_hashes_spec (optimal_probes bits_per_key) (bit_len nbytes) hashes zeros)
    as [Hlen Hbits]; [lia..|].
  set (data := fold_left _ hashes zeros) in *. cbn [bl_data].
  assert (zlen (<[Z.to_nat nbytes := z2b (optimal_probes bits_per_key)]> data) = nbytes + 1) as Hlen'.
  { unfold zlen in *. by rewrite length_insert, Hlen. }
  split; [done|]. split.
  - unfold bloom_probes. cbn [bl_data]. rewrite Hlen'. replace (nbytes + 1 - 1) with nbytes by lia.
    erewrite nth_lookup_Some; [|apply list_lookup_insert_eq; unfold zlen in *; lia].
    apply b2z_z2b_small. lia.
  - intros bit Hbit. unfold bit_set. rewrite byte_of_bit_insert_ne.
    + fold (bit_set data bit). rewrite Hbits by lia.
      split; [intros [|Hb]; [done|by apply replicate_bits in Hb]|auto].
    + pose proof (bit_index_lt (nbytes * 8) nbytes bit Hbit ltac:(lia)). lia.
Qed.

Lemma bloom_build_length hashes bits_per_key :
  zlen (bl_data (bloom_build hashes bits_per_key)) =
  div_ceil8 (Z.max (wrap64 (zlen hashes * bits_per_key)) MIN_BITS) + 1.
Proof.
  set (nbytes := div_ceil8 (Z.max (wrap64 (zlen hashes * bits_per_key)) MIN_BITS)).
  assert (8 <= nbytes) as Hn by (apply div_ceil8_ge; lia).
  unfold bloom_build. fold nbytes. cbn [bl_data].
  set (zeros := replicate (Z.to_nat (nbytes + 1)) Byte.x00).
  assert (zlen zeros = nbytes + 1) as Hz by (unfold zeros, zlen; rewrite length_replicate; lia).
  pose proof (bit_len_range nbytes ltac:(lia)) as Hbl. pose proof (optimal_probes_range bits_per_key) as Hp.
  destruct (add_hashes_spec (optimal_probes bits_per_key) (bit_len nbytes) hashes zeros)
    as [Hlen _]; [lia..|]. unfold zlen in *. by rewrite length_insert, Hlen.
Qed.

Lemma may_contain_hash_build hashes bits_per_key h :
  h ∈ hashes -> may_contain_hash (bloom_build hashes bits_per_key) h = true.
Proof.
  intros Hin. destruct (bloom_build_spec hashes bits_per_key) as (nbytes & Hn & Hlen & Hp & Hbits).
  unfold may_contain_hash. rewrite Hlen, Hp. replace (nbytes + 1 - 1) with nbytes by lia.
  destruct (split_hash h) as [position step] eqn:Es. apply test_probes_spec.
  intros bit Hbit. pose proof (bit_len_range nbytes ltac:(lia)).
  apply probe_bits_range in Hbit as Hr; [|lia]. apply Hbits; [lia|].
  exists h. split; [done|]. unfold hash_bits. by rewrite Es.
Qed.

Lemma bloom_decode_build hashes bits_per_key :
  let f := bloom_build hashes bits_per_key in bloom_decode (as_bytes f) = Some f.
Proof.
  intros f. destruct (bloom_build_spec hashes bits_per_key) as (nbytes & Hn & Hlen & Hp & _).
  fold f in Hlen, Hp. clearbody f. unfold bloom_decode, as_bytes.
  pose proof (optimal_probes_range bits_per_key) as Hr. rewrite <- Hp in Hr.
  rewrite last_lookup. unfold bloom_probes in Hr. unfold zlen in *.
  replace (Z.to_nat (Z.of_nat (length (bl_data f)) - 1)) with (Nat.pred (length (bl_data f))) in Hr by lia.
  destruct (bl_data f !! Nat.pred (length (bl_data f))) as [b|] eqn:E.
  - erewrite nth_lookup_Some in Hr by done.
    destruct (Z.ltb_spec (Z.of_nat (length (bl_data f))) 2); [lia|].
    destruct (Z.eqb_spec (b2z b) 0); [lia|]. simpl. by destruct f.
  - apply lookup_ge_None in E. lia.
Qed.

(** ** Claims *)

(** C27: a filter never misses a key it holds: every key whose hash the filter was
    built over is reported as possibly present, before and after the filter's
    round trip through its stored bytes. *)
Theorem bloom_no_false_negative (keys : list bytes) (bits_per_key : Z) (key : bytes)
  (Hin : key ∈ keys) :
  let f := bloom_build (bloom_hash <$> keys) bits_per_key in
  may_contain f key = true /\
  exists f', bloom_decode (as_bytes f) = Some f' /\ may_contain f' key = true.
Proof.
  cbv zeta. assert (may_contain (bloom_build (bloom_hash <$> keys) bits_per_key) key = true) as H.
  { apply may_contain_hash_build. by apply list_elem_of_fmap_2. }
  split; [done|]. eexists. split; [apply bloom_decode_build|done].
Qed.

Lemma bloom_no_false_negative_witness :
  let f := bloom_build (bloom_hash <$> [bstr "key:1"; bstr "key:2"]) BITS_PER_KEY in
  may_contain f (bstr "key:2") = true /\
  exists f', bloom_decode (as_bytes f) = Some f' /\ may_contain f' (bstr "key:2") = true.
Proof.
  apply (bloom_no_false_negative [bstr "key:1"; bstr "key:2"] BITS_PER_KEY (bstr "key:2")).
  apply (bool_decide_unpack _). vm_compute. exact I.
Defined.

(** Any bytes the decoder accepts can be probed safely: every bit a lookup
    tests lies inside the bit array, whatever the key hash, so no index panics. *)
Theorem bloom_probes_in_bounds (bs : bytes) (f : Bloom) (key_hash bit : Z)
  (Hdec : bloom_decode bs = Some f)
  (Hbit : bit ∈ hash_bits (Z.to_nat (bloom_probes f)) (bit_len (zlen (bl_data f) - 1)) key_hash) :
  0 <= bit < bloom_bits f /\ (Z.to_nat (bit / 8) < length (bl_data f) - 1)%nat.
Proof.
  unfold bloom_decode in Hdec. destruct (last bs); [|done].
  destruct (Z.ltb_spec (zlen bs) 2); [done|]. simpl in Hdec.
  destruct (b2z b =? 0); [done|]. injection Hdec as <-. cbn [bl_data] in *.
  pose proof (bit_len_range (zlen bs - 1) ltac:(lia)) as Hbl.
  unfold hash_bits in Hbit. destruct (split_hash key_hash).
  apply probe_bits_range in Hbit; [|lia]. unfold bloom_bits. cbn [bl_data]. split; [lia|].
  pose proof (bit_index_lt (bit_len (zlen bs - 1)) (zlen bs - 1) bit Hbit ltac:(lia)).
  unfold zlen in *. lia.
Qed.

Lemma bloom_probes_in_bounds_witness :
  0 <= (fst (split_hash 77)) mod 8 < bloom_bits (mkBloom [Byte.xff; Byte.x03]) /\
  (Z.to_nat (((fst (split_hash 77)) mod 8) / 8) < length (bl_data (mkBloom [Byte.xff; Byte.x03])) - 1)%nat.
Proof.
  apply (bloom_probes_in_bounds [Byte.xff; Byte.x03] (mkBloom [Byte.xff; Byte.x03]) 77).
  - reflexivity.
  - apply (bool_decide_unpack _). vm_compute. exact I.
Defined.

Example bloom_probe_counts :
  map optimal_probes [4; 8; 10; 12; 16] = [3; 6; 7; 8; 11] /\
  may_contain (bloom_build [] BITS_PER_KEY) (bstr "anything") = false /\
  may_contain (bloom_build [bloom_hash (bstr "only")] BITS_PER_KEY) (bstr "other") = false.
Proof. repeat split; vm_compute; reflexivity. Qed.
