(* ===== verification/Disk.v ===== *)
(** * The data directory, its failures and its crashes

    The calls the store makes on its one directory: create, write, [sync_all],
    rename, remove, read, and the directory's own [sync_all]. Every call can fail:
    a world carries a list of outcomes, one per call, so a theorem about all worlds
    covers every pattern of failures; a machine that goes down is a world whose
    remaining calls all fail, followed by [crash].

    The assumptions about the device are the ones the source states: a file's
    contents survive a crash once its [sync_all] has returned, and what has been
    appended since does not take them away; a rename is atomic; and a directory
    comes back from a crash as it stood at some moment no earlier than its last
    [sync_all]. *)

From S2P Require Import Prelude.

Record Disk := mkDisk {
  names : gmap string nat;            (* the directory: file name to inode *)
  past : list (gmap string nat);      (* the directory since its last sync, oldest first *)
  data : gmap nat bytes;              (* what each inode holds *)
  clean : gset nat;                   (* inodes whose contents are on the device *)
  floor : gmap nat nat;               (* how many leading bytes of an inode are on the device *)
  fresh_inode : nat;
}.

(** The outcome of one call: success, or an error, with how much of a write had
    gone through before it. *)
Abbreviation outcome := (option (io_error * nat)).

Record World := mkWorld { disk : Disk; outcomes : list outcome }.

Create Rewrite HintDb clean.
Create HintDb reads.

(** ** The calls *)

Definition set_disk (w : World) (d : Disk) : World := mkWorld d (outcomes w).

(** One call: the world's next outcome decides whether [run] happens. A failed
    call leaves the disk as [fail] says. *)
Definition call {A} (path : string) (run : Disk -> result A * Disk) (fail : nat -> Disk -> Disk)
  : stm World A := fun w =>
  match outcomes w with
  | Some (e, n) :: rest => (Err (Io path e), mkWorld (fail n (disk w)) rest)
  | None :: rest => let '(r, d) := run (disk w) in (r, mkWorld d rest)
  | [] => let '(r, d) := run (disk w) in (r, mkWorld d [])
  end.

Definition no_effect (n : nat) (d : Disk) : Disk := d.

(** A changed directory, remembering how it stood. *)
Definition set_names (d : Disk) (m : gmap string nat) : Disk :=
  mkDisk m (past d ++ [names d]) (data d) (clean d) (floor d) (fresh_inode d).

(** New bytes for an inode, of which [n] are known to be on the device. *)
Definition set_data (d : Disk) (i : nat) (bs : bytes) (n : nat) : Disk :=
  mkDisk (names d) (past d) (<[i := bs]> (data d)) (clean d ∖ {[i]}) (<[i := n]> (floor d)) (fresh_inode d).

Definition contents (d : Disk) (i : nat) : bytes := default [] (data d !! i).
Definition floor_of (d : Disk) (i : nat) : nat := default O (floor d !! i).

(** Bytes added at the end, and bytes cut off it. *)
Definition append_data (d : Disk) (i : nat) (bs : bytes) : Disk :=
  set_data d i (contents d i ++ bs) (floor_of d i).
Definition cut_data (d : Disk) (i : nat) (n : nat) : Disk :=
  set_data d i (take n (contents d i)) (floor_of d i `min` n).

Definition not_found (path : string) : Error := Io path (IoError NotFound "entity not found").

(** [File::create]: a new empty file, or the old one cut to nothing. *)
Definition create_run (name : string) (d : Disk) : result nat * Disk :=
  match names d !! name with
  | Some i => (Ok i, cut_data d i 0)
  | None =>
      let i := fresh_inode d in
      let d := set_names d (<[name := i]> (names d)) in
      (Ok i, mkDisk (names d) (past d) (<[i := []]> (data d)) (clean d ∖ {[i]}) (<[i := O]> (floor d)) (S i))
  end.

Definition disk_create (path name : string) : stm World nat := call path (create_run name) no_effect.

(** [OpenOptions::new().create(true).append(true).open]: the file as it is, or a
    new empty one. *)
Definition open_append_run (name : string) (d : Disk) : result nat * Disk :=
  match names d !! name with
  | Some i => (Ok i, d)
  | None => create_run name d
  end.

Definition disk_open_append (path name : string) : stm World nat := call path (open_append_run name) no_effect.

(** [write_all] on an open file. *)
Definition disk_write (path : string) (i : nat) (bs : bytes) : stm World unit :=
  call path (fun d => (Ok tt, append_data d i bs)) (fun n d => append_data d i (take n bs)).

(** [File::set_len], to a length the file has. *)
Definition disk_set_len (path : string) (i : nat) (len : Z) : stm World unit :=
  call path (fun d => (Ok tt, cut_data d i (Z.to_nat len))) no_effect.

(** [File::sync_all] and [sync_data]. *)
Definition sync_run (i : nat) (d : Disk) : result unit * Disk :=
  (Ok tt, mkDisk (names d) (past d) (data d) ({[i]} ∪ clean d) (<[i := length (contents d i)]> (floor d)) (fresh_inode d)).

Definition disk_sync (path : string) (i : nat) : stm World unit := call path (sync_run i) no_effect.

Definition rename_run (path from to : string) (d : Disk) : result unit * Disk :=
  match names d !! from with
  | Some i => (Ok tt, set_names d (<[to := i]> (delete from (names d))))
  | None => (Err (not_found path), d)
  end.

Definition disk_rename (path from to : string) : stm World unit := call path (rename_run path from to) no_effect.

Definition remove_run (path name : string) (d : Disk) : result unit * Disk :=
  match names d !! name with
  | Some i => (Ok tt, set_names d (delete name (names d)))
  | None => (Err (not_found path), d)
  end.

Definition disk_remove (path name : string) : stm World unit := call path (remove_run path name) no_effect.

(** Opening the directory, and its [sync_all]. *)
Definition disk_open_dir (path : string) : stm World unit := call path (fun d => (Ok tt, d)) no_effect.

Definition disk_sync_dir (path : string) : stm World unit :=
  call path (fun d => (Ok tt, mkDisk (names d) [] (data d) (clean d) (floor d) (fresh_inode d))) no_effect.

Definition read_run (path name : string) (d : Disk) : result bytes * Disk :=
  match names d !! name with
  | Some i => (Ok (contents d i), d)
  | None => (Err (not_found path), d)
  end.

(** [fs::read], or opening a file and reading it. *)
Definition disk_read (path name : string) : stm World bytes := call path (read_run path name) no_effect.

(** [fs::read_dir]: the names, in no order the code relies on. *)
Definition disk_list (path : string) : stm World (list string) :=
  call path (fun d => (Ok (map_to_list (names d)).*1, d)) no_effect.

(** ** Crashes *)

(** The directories a crash can leave. *)
Definition candidates (d : Disk) : list (gmap string nat) := past d ++ [names d].

(** A crash keeps one of the candidate directories, the contents of the inodes
    that were clean, and of every other inode the leading bytes that were on the
    device; the rest of the bytes are whatever they happen to be. *)
Record crash (d d' : Disk) : Prop := {
  cr_names : names d' ∈ candidates d;
  cr_past : past d' = [];
  cr_clean : forall i, i ∈ clean d -> data d' !! i = data d !! i;
  cr_floor : forall i, take (floor_of d i) (contents d' i) = take (floor_of d i) (contents d i);
  cr_data : forall i, is_Some (data d !! i) -> is_Some (data d' !! i);
  cr_fresh : fresh_inode d' = fresh_inode d;
  cr_durable : clean d' = dom (data d');
}.

(** Nothing is bound to an inode that has not been handed out, and no two names
    share one. *)
Record disk_ok (d : Disk) : Prop := {
  dok_fresh : forall m n i, m ∈ candidates d -> m !! n = Some i -> (i < fresh_inode d)%nat /\ is_Some (data d !! i);
  dok_inj : forall m n n' i, m ∈ candidates d -> m !! n = Some i -> m !! n' = Some i -> n = n';
}.

Definition no_failures (w : World) : Prop := Forall (eq None) (outcomes w).

(** A world with nothing in it where no call fails: enough to read an open file in. *)
Definition calm_world : World := mkWorld (mkDisk ∅ [] ∅ ∅ ∅ 0) [].

Lemma calm_world_calm : no_failures calm_world.
Proof. constructor. Qed.

Lemma candidates_names d : names d ∈ candidates d.
Proof. unfold candidates. apply elem_of_app. right. left. Qed.

Lemma candidates_set_names d m x :
  x ∈ candidates (set_names d m) <-> x ∈ candidates d \/ x = m.
Proof.
  unfold candidates, set_names. cbn [past names].
  rewrite !elem_of_app, !list_elem_of_singleton. tauto.
Qed.

Lemma contents_set_data d i bs n j : contents (set_data d i bs n) j = if decide (i = j) then bs else contents d j.
Proof.
  unfold contents, set_data. cbn [data]. destruct (decide (i = j)) as [->|].
  - by rewrite lookup_insert_eq.
  - by rewrite lookup_insert_ne.
Qed.

(** A call that fails has only the effect [fail] gives it; one that succeeds has
    that of [run]. *)
Lemma call_cases {A} path (run : Disk -> result A * Disk) fail w r w' :
  call path run fail w = (r, w') ->
  (r = fst (run (disk w)) /\ disk w' = snd (run (disk w))) \/
  (exists e n, r = Err (Io path e) /\ disk w' = fail n (disk w)).
Proof.
  unfold call. destruct (outcomes w) as [|[[e n]|] rest].
  - destruct (run (disk w)) as [r' d'] eqn:E. intros [= -> <-]. by left.
  - intros [= <- <-]. right. by exists e, n.
  - destruct (run (disk w)) as [r' d'] eqn:E. intros [= -> <-]. by left.
Qed.

(** Without failures every call runs. *)
Lemma call_no_failures {A} path (run : Disk -> result A * Disk) fail w :
  no_failures w ->
  exists w', call path run fail w = (fst (run (disk w)), w') /\ disk w' = snd (run (disk w)) /\ no_failures w'.
Proof.
  intros Hn. unfold call. destruct (run (disk w)) as [r d] eqn:E.
  inversion Hn as [Ho|o rest <- Hr Ho].
  - exists (mkWorld d []). split_and!; [done..|constructor].
  - exists (mkWorld d rest). by split_and!.
Qed.

(** ** Reading *)

(** [read_through w w' None]: from [w] to [w'] calls were made that leave the disk
    as it is; [read_through w w' (Some err)]: one of them failed with [err]. *)
Definition read_through (w w' : World) (failure : option Error) : Prop :=
  disk w' = disk w /\ exists os, outcomes w = os ++ outcomes w' /\
  match failure with
  | None => True
  | Some err => exists path e n, err = Io path e /\ Some (e, n) ∈ os
  end.

(** [m] only reads, and what it comes to is [r], unless one of its calls fails. *)
Definition reads_as {A} (m : stm World A) (r : result A) : Prop :=
  forall w, (fst (m w) = r /\ read_through w (snd (m w)) None) \/
    exists err, fst (m w) = Err err /\ read_through w (snd (m w)) (Some err).

(** What a read that failed answers: an error of the system's. *)
Definition io_failed {A} (r : result A) : Prop := exists path e, r = Err (Io path e).

Lemma read_through_failed {A} w w' err : read_through w w' (Some err) -> io_failed (@Err A err).
Proof. intros [_ (os & _ & path & e & n & -> & _)]. by exists path, e. Qed.

Lemma read_through_refl w : read_through w w None.
Proof. split; [done|]. by exists []. Qed.

Lemma read_through_trans w1 w2 w3 o : read_through w1 w2 None -> read_through w2 w3 o -> read_through w1 w3 o.
Proof.
  intros [D1 (os1 & E1 & _)] [D2 (os2 & E2 & Ho)]. split; [congruence|]. exists (os1 ++ os2).
  split; [by rewrite E1, E2, app_assoc|]. destruct o as [err|]; [|done]. destruct Ho as (path & e & n & -> & Hin).
  exists path, e, n. split; [done|]. apply elem_of_app. by right.
Qed.

Lemma read_through_then w1 w2 w3 o : read_through w1 w2 o -> read_through w2 w3 None -> read_through w1 w3 o.
Proof.
  intros [D1 (os1 & E1 & Ho)] [D2 (os2 & E2 & _)]. split; [congruence|]. exists (os1 ++ os2).
  split; [by rewrite E1, E2, app_assoc|]. destruct o as [err|]; [|done]. destruct Ho as (path & e & n & -> & Hin).
  exists path, e, n. split; [done|]. apply elem_of_app. by left.
Qed.

Lemma read_through_forget w w' o : read_through w w' o -> read_through w w' None.
Proof. intros [D (os & E & _)]. split; [done|]. by exists os. Qed.

Lemma read_through_disk w w' o : read_through w w' o -> disk w' = disk w.
Proof. by intros [D _]. Qed.

Lemma read_through_may (may : outcome -> Prop) w w' o :
  read_through w w' o -> Forall may (outcomes w) ->
  Forall may (outcomes w') /\ forall err, o = Some err -> exists path e n, err = Io path e /\ may (Some (e, n)).
Proof.
  intros [_ (os & E & Ho)]. rewrite E, Forall_app. intros [H1 H2]. split; [done|]. intros err ->.
  destruct Ho as (path & e & n & -> & Hin). rewrite Forall_forall in H1. exists path, e, n. auto.
Qed.

(** Where no call fails no read does. *)
Lemma read_through_calm w w' o : read_through w w' o -> no_failures w -> no_failures w' /\ o = None.
Proof.
  intros H Hn. destruct (read_through_may _ _ _ _ H Hn) as [Hn' Ho]. split; [done|].
  destruct o as [err|]; [|done]. by destruct (Ho err eq_refl) as (? & ? & ? & _ & ?).
Qed.

Lemma reads_ret {A} (a : A) : reads_as (mret a) (Ok a).
Proof. intros w. left. split; [done|apply read_through_refl]. Qed.

Lemma reads_lift {A} (r : result A) : reads_as (lift r) r.
Proof. intros w. left. split; [done|apply read_through_refl]. Qed.

Lemma reads_bind {A B} (m : stm World A) (f : A -> stm World B) (r : result A) (g : A -> result B) :
  reads_as m r -> (forall a, r = Ok a -> reads_as (f a) (g a)) -> reads_as (a ← m; f a) (a ← r; g a).
Proof.
  intros Hm Hf w. unfold mbind, stm_bind, result_bind. specialize (Hm w). destruct (m w) as [r1 w1]. cbn [fst snd] in Hm.
  destruct Hm as [[-> H1]|(err & -> & H1)]; [|right; by exists err].
  destruct r as [a|err]; [|by left]. destruct (Hf a eq_refl w1) as [[E H2]|(err & E & H2)].
  - left. split; [done|]. by eapply read_through_trans.
  - right. exists err. split; [done|]. by eapply read_through_trans.
Qed.

Lemma reads_then {A B} (m : stm World A) (f : A -> stm World B) a (r : result B) :
  reads_as m (Ok a) -> reads_as (f a) r -> reads_as (a ← m; f a) r.
Proof. intros Hm Hf. change r with (a' ← Ok a; (fun _ => r) a'). apply reads_bind; [done|]. by intros ? [= <-]. Qed.

Lemma reads_call {A} path (r : result A) : reads_as (call path (fun d => (r, d)) no_effect) r.
Proof.
  intros w. unfold call, no_effect. destruct (outcomes w) as [|[[e n]|] os] eqn:E; cbn [fst snd].
  - left. split; [done|]. split; [done|]. exists []. by rewrite E.
  - right. exists (Io path e). split; [done|]. split; [done|]. exists [Some (e, n)]. rewrite E. split; [done|].
    exists path, e, n. split; [done|left].
  - left. split; [done|]. split; [done|]. exists [None]. by rewrite E.
Qed.

(** With no call failing, what it comes to. *)
Lemma reads_calm {A} (m : stm World A) r w : reads_as m r -> no_failures w ->
  exists w', m w = (r, w') /\ disk w' = disk w /\ no_failures w'.
Proof.
  intros Hm Hn. specialize (Hm w). destruct (m w) as [r' w']. cbn [fst snd] in Hm. exists w'.
  destruct Hm as [[-> H]|(err & _ & H)]; destruct (read_through_calm _ _ _ H Hn) as [Hn' Ho]; [|done].
  split_and!; [done|by eapply read_through_disk|done].
Qed.

Lemma reads_ok {A} (m : stm World A) r w a w' : reads_as m r -> m w = (Ok a, w') -> r = Ok a /\ read_through w w' None.
Proof. intros Hm E. specialize (Hm w). rewrite E in Hm. cbn in Hm. by destruct Hm as [[<- ?]|(? & ? & _)]. Qed.

Lemma reads_disk {A} (m : stm World A) r w r' w' : reads_as m r -> m w = (r', w') -> disk w' = disk w.
Proof. intros Hm E. specialize (Hm w). rewrite E in Hm. destruct Hm as [[_ H]|(? & _ & H)]; by eapply read_through_disk. Qed.

#[export] Hint Resolve reads_ret reads_lift reads_call read_through_refl : reads.

(** ** The calls keep the disk sound *)

Lemma disk_ok_names d m :
  disk_ok d ->
  (forall n i, m !! n = Some i -> (i < fresh_inode d)%nat /\ is_Some (data d !! i)) ->
  (forall n n' i, m !! n = Some i -> m !! n' = Some i -> n = n') ->
  disk_ok (set_names d m).
Proof.
  intros [Hf Hi] Hm Hj. split.
  - intros m' n i [Hin| ->]%candidates_set_names; [by apply Hf|by apply Hm].
  - intros m' n n' i [Hin| ->]%candidates_set_names; [by apply Hi|by apply Hj].
Qed.

Lemma disk_ok_data d i bs n : disk_ok d -> disk_ok (set_data d i bs n).
Proof.
  intros [Hf Hi]. split; [|exact Hi]. intros m k j Hm Hj. destruct (Hf m k j Hm Hj) as [? Hs].
  split; [done|]. cbn. destruct (decide (i = j)) as [->|]; [by rewrite lookup_insert_eq|by rewrite lookup_insert_ne].
Qed.

Lemma disk_ok_create name d : disk_ok d -> disk_ok (snd (create_run name d)).
Proof.
  intros Hok. unfold create_run. destruct (names d !! name) as [i|] eqn:E; [by apply disk_ok_data|].
  cbn [snd set_names names past data clean]. destruct Hok as [Hf Hi]. split.
  - intros m n i Hm Hn. change (m ∈ candidates (set_names d (<[name:=fresh_inode d]> (names d)))) in Hm.
    cbn [fresh_inode data]. apply candidates_set_names in Hm as [Hm| ->].
    + destruct (Hf _ _ _ Hm Hn). split; [lia|]. by rewrite lookup_insert_ne by lia.
    + apply lookup_insert_Some in Hn as [[_ <-]|[_ Hn]].
      * split; [lia|]. by rewrite lookup_insert_eq.
      * destruct (Hf _ _ _ (candidates_names d) Hn). split; [lia|]. by rewrite lookup_insert_ne by lia.
  - intros m n n' i Hm Hn Hn'. change (m ∈ candidates (set_names d (<[name:=fresh_inode d]> (names d)))) in Hm.
    apply candidates_set_names in Hm as [Hm| ->]; [by eapply Hi|].
    assert (forall n i, names d !! n = Some i -> i <> fresh_inode d) as Hlt.
    { intros ? ? H%Hf; [lia|apply candidates_names]. }
    apply lookup_insert_Some in Hn as [[<- <-]|[? Hn]], Hn' as [[<- E']|[? Hn']]; try done.
    + by apply Hlt in Hn'.
    + subst. by apply Hlt in Hn.
    + eapply Hi; [apply candidates_names|done..].
Qed.

Lemma disk_ok_rename path from to d : disk_ok d -> disk_ok (snd (rename_run path from to d)).
Proof.
  intros Hok. unfold rename_run. destruct (names d !! from) as [i|] eqn:E; [|done]. cbn [snd].
  pose proof (candidates_names d) as Hc. pose proof (dok_fresh d Hok) as Hf. pose proof (dok_inj d Hok) as Hi.
  apply disk_ok_names; [done| |].
  - intros n j [[_ <-]|[_ [_ H]%lookup_delete_Some]]%lookup_insert_Some; by eapply Hf.
  - intros n n' j H1 H2.
    apply lookup_insert_Some in H1 as [[<- <-]|[? H1]], H2 as [[<- E']|[? H2]]; try done.
    + apply lookup_delete_Some in H2 as [? H2]. by destruct (Hi _ _ _ _ Hc E H2).
    + apply lookup_delete_Some in H1 as [? H1]. subst. by destruct (Hi _ _ _ _ Hc E H1).
    + apply lookup_delete_Some in H1 as [? H1], H2 as [? H2]. by eapply Hi.
Qed.

Lemma disk_ok_remove path name d : disk_ok d -> disk_ok (snd (remove_run path name d)).
Proof.
  intros Hok. unfold remove_run. destruct (names d !! name) as [i|] eqn:E; [|done]. cbn [snd].
  pose proof (candidates_names d) as Hc. apply disk_ok_names; [done| |].
  - intros n j [_ H]%lookup_delete_Some. by eapply (dok_fresh d Hok).
  - intros n n' j [_ H]%lookup_delete_Some [_ H']%lookup_delete_Some. by eapply (dok_inj d Hok).
Qed.

Lemma disk_ok_clean d c fl p :
  disk_ok d -> (forall m, m ∈ p -> m ∈ candidates d) -> disk_ok (mkDisk (names d) p (data d) c fl (fresh_inode d)).
Proof.
  intros [Hf Hi] Hp. assert (forall m, m ∈ p ++ [names d] -> m ∈ candidates d) as Hin.
  { intros m [Hm|Hm%list_elem_of_singleton]%elem_of_app; [by apply Hp|]. subst. apply candidates_names. }
  split; intros m; intros; [eapply Hf|eapply Hi]; eauto.
Qed.

Lemma disk_ok_crash d d' : disk_ok d -> crash d d' -> disk_ok d'.
Proof.
  intros [Hf Hi] [Hn Hp _ _ Hd Hfr _]. split; intros m n; unfold candidates; rewrite Hp; cbn;
    intros * ->%list_elem_of_singleton; intros.
  - destruct (Hf (names d') n i) as [? ?]; [done..|]. rewrite Hfr. auto.
  - by eapply Hi.
Qed.

(** ** A world where nothing fails *)

Lemma call_clean {A} path (run : Disk -> result A * Disk) fail d :
  call path run fail (mkWorld d []) = (fst (run d), mkWorld (snd (run d)) []).
Proof. unfold call. cbn. by destruct (run d). Qed.

Definition synced (d : Disk) (i : nat) : Disk := snd (sync_run i d).

Lemma disk_sync_clean path i d : disk_sync path i (mkWorld d []) = (Ok tt, mkWorld (synced d i) []).
Proof. done. Qed.

Lemma disk_write_clean path i bs d : disk_write path i bs (mkWorld d []) = (Ok tt, mkWorld (append_data d i bs) []).
Proof. done. Qed.

Lemma disk_set_len_clean path i len d :
  disk_set_len path i len (mkWorld d []) = (Ok tt, mkWorld (cut_data d i (Z.to_nat len)) []).
Proof. done. Qed.

Lemma disk_open_append_clean path name d :
  disk_open_append path name (mkWorld d []) =
  (fst (open_append_run name d), mkWorld (snd (open_append_run name d)) []).
Proof. apply call_clean. Qed.

#[export] Hint Rewrite disk_sync_clean disk_write_clean disk_set_len_clean disk_open_append_clean : clean.

Lemma names_synced d i : names (synced d i) = names d.
Proof. done. Qed.

Lemma names_set_data d i bs n : names (set_data d i bs n) = names d.
Proof. done. Qed.

Lemma contents_synced d i j : contents (synced d i) j = contents d j.
Proof. done. Qed.

Lemma contents_append d i bs : contents (append_data d i bs) i = contents d i ++ bs.
Proof. unfold append_data. by rewrite contents_set_data, decide_True. Qed.

Lemma contents_cut d i n : contents (cut_data d i n) i = take n (contents d i).
Proof. unfold cut_data. by rewrite contents_set_data, decide_True. Qed.

Lemma floor_synced d i : floor_of (synced d i) i = length (contents d i).
Proof. unfold floor_of, synced, sync_run. cbn. by rewrite lookup_insert_eq. Qed.
