(* ===== verification/SsTable.v ===== *)
(** * Immutable sorted files ([sstable.rs])

    The writer that cuts sorted entries into checksummed blocks and closes the
    file with a filter, an index and a footer; the reader that opens such a file,
    looks a key up in one block, and scans all of it. An open file is its bytes and
    the calls that read them: each call may fail, with an error of the system's own;
    every other error is one the code detects in the bytes. What a read comes to
    when no call fails ([region], [sst_opened], [sst_lookup]) is a function of the
    bytes alone, and [reads_as] ties the operations to it. *)

From S2P Require Import Prelude Checksum Coding WalRecord Memtable Bloom Disk.

Definition BLOCK_SIZE : Z := 4096.
Definition SST_MAGIC : bytes := bstr "LSMKVSST".
Definition SST_VERSION : Z := 2.
Definition FOOTER_LEN : Z := 48.
Definition FOOTER_CHECKED : Z := 32.
Definition CRC_LEN : Z := 4.

(** One block, as the index describes it. *)
Record BlockRef := mkBlockRef {
  br_first_key : bytes;
  br_offset : Z;
  br_len : Z;
}.

(** ** Writing *)

(** [Writer]; [w_file] is what has been handed to the file so far. *)
Record Writer := mkWriter {
  w_path : string;
  w_file : bytes;
  w_block : bytes;
  w_blocks : list BlockRef;
  w_hashes : list Z;
  w_first_key : bytes;
  w_min_key : bytes;
  w_max_key : bytes;
  w_offset : Z;
  w_entries : Z;
}.

Definition writer_create (path : string) : Writer :=
  mkWriter path [] [] [] [] [] [] [] 0 0.

(** Runs a buffer operation on [self.block]. *)
Definition on_block {A} (m : stm bytes A) : stm Writer A := fun w =>
  let '(r, block) := m (w_block w) in
  (r, mkWriter (w_path w) (w_file w) block (w_blocks w) (w_hashes w) (w_first_key w)
        (w_min_key w) (w_max_key w) (w_offset w) (w_entries w)).

(** [Writer::write]. *)
Definition writer_write (bs : bytes) : stm Writer unit := fun w =>
  (Ok tt, mkWriter (w_path w) (w_file w ++ bs) (w_block w) (w_blocks w) (w_hashes w) (w_first_key w)
            (w_min_key w) (w_max_key w) (wrap64 (w_offset w + zlen bs)) (w_entries w)).

(** [self.blocks.push(BlockRef { .. })], taking [first_key] with it. *)
Definition push_block_ref (offset len : Z) : stm Writer unit := fun w =>
  (Ok tt, mkWriter (w_path w) (w_file w) (w_block w)
            (w_blocks w ++ [mkBlockRef (w_first_key w) offset len]) (w_hashes w) []
            (w_min_key w) (w_max_key w) (w_offset w) (w_entries w)).

Definition close_block : stm Writer unit := fun w =>
  match w_block w with
  | [] => (Ok tt, w)
  | _ =>
      (crc ← gets (fun w => crc32 (w_block w));
       _ ← on_block (extend (to_le 4 crc));
       block ← gets w_block;
       len ← lift (length_of block);
       offset ← gets w_offset;
       _ ← writer_write block;
       _ ← on_block (modify (fun _ => []));
       push_block_ref offset len) w
  end.

(** The bookkeeping at the top of [add]: keys, hash and count. *)
Definition note_entry (key : bytes) : stm Writer unit := fun w =>
  (Ok tt, mkWriter (w_path w) (w_file w) (w_block w) (w_blocks w)
            (w_hashes w ++ [bloom_hash key])
            (match w_block w with [] => key | _ => w_first_key w end)
            (if w_entries w =? 0 then w_min_key w ++ key else w_min_key w)
            key (w_offset w) (wrap64 (w_entries w + 1))).

Definition writer_add (key : bytes) (seq : Z) (value : option bytes) : stm Writer unit :=
  _ ← note_entry key;
  _ ← on_block (extend (to_le 8 seq));
  _ ← match value with
      | Some value =>
          _ ← on_block (extend [z2b KIND_SET]);
          _ ← on_block (push_field key);
          on_block (push_field value)
      | None =>
          _ ← on_block (extend [z2b KIND_DELETE]);
          on_block (push_field key)
      end;
  len ← gets (fun w => zlen (w_block w));
  if BLOCK_SIZE <=? len then close_block else mret tt.

(** The loop of [finish] over the blocks, into the index buffer. *)
Fixpoint push_index_entries (blocks : list BlockRef) : stm bytes unit :=
  match blocks with
  | [] => mret tt
  | block :: blocks =>
      _ ← push_field (br_first_key block);
      _ ← extend (to_le 8 (br_offset block));
      _ ← extend (to_le 4 (br_len block));
      push_index_entries blocks
  end.

(** The index: key range, one entry per block, checksum. *)
Definition build_index (min_key max_key : bytes) (blocks : list BlockRef) : stm bytes unit :=
  _ ← push_field min_key;
  _ ← push_field max_key;
  _ ← push_index_entries blocks;
  crc ← gets crc32;
  extend (to_le 4 crc).

Definition build_footer (index_offset index_len filter_offset filter_len entries : Z) : bytes :=
  let footer := to_le 8 index_offset ++ to_le 4 index_len ++ to_le 8 filter_offset
    ++ to_le 4 filter_len ++ to_le 8 entries in
  let footer := footer ++ to_le 4 (crc32 footer) in
  footer ++ to_le 4 SST_VERSION ++ SST_MAGIC.

(** [finish]: what is left of the block, then filter, index and footer. The
    file's contents are [w_file] of the state it ends in. *)
Definition writer_finish : stm Writer unit :=
  _ ← close_block;
  hashes ← gets w_hashes;
  let filter := bloom_build hashes BITS_PER_KEY in
  filter_offset ← gets w_offset;
  let filter_block := as_bytes filter ++ to_le 4 (crc32 (as_bytes filter)) in
  filter_len ← lift (length_of filter_block);
  _ ← writer_write filter_block;
  index_offset ← gets w_offset;
  min_key ← gets w_min_key;
  max_key ← gets w_max_key;
  blocks ← gets w_blocks;
  let '(built, index) := build_index min_key max_key blocks [] in
  _ ← lift built;
  index_len ← lift (length_of index);
  _ ← writer_write index;
  entries ← gets w_entries;
  writer_write (build_footer index_offset index_len filter_offset filter_len entries).

Definition bytes_written (w : Writer) : Z := w_offset w.

(** A file written in one pass, as [Shared::flush] does. *)
Definition write_table (path : string) (es : list entry) : result unit * Writer :=
  (_ ← visit_all writer_add es; writer_finish) (writer_create path).

(** ** Reading *)

(** An open file. Its counter of block reads is an [AtomicU64] that lookups bump
    through a shared reference; it is kept outside, by whoever holds the table. *)
Record SsTable := mkSsTable {
  st_path : string;
  st_file : bytes;
  st_blocks : list BlockRef;
  st_filter : Bloom;
  st_min_key : bytes;
  st_max_key : bytes;
  st_entries : Z;
  st_bytes : Z;
}.

(** The bytes [FileExt::read_exact_at] finds in a file. *)
Definition bytes_at (path : string) (file : bytes) (offset len : Z) : result bytes :=
  if offset + len <=? zlen file then Ok (slice file offset (offset + len))
  else Err (Io path (IoError UnexpectedEof "failed to fill whole buffer")).

(** [FileExt::read_exact_at], one call. *)
Definition read_exact_at (path : string) (file : bytes) (offset len : Z) : stm World bytes :=
  call path (fun d => (bytes_at path file offset len, d)) no_effect.

(** The second half of [read_checked]: the checksum that closes the bytes. *)
Definition verified (path : string) (len : Z) (bs : bytes) : result bytes :=
  let split := len - CRC_LEN in
  if crc32 (slice bs 0 split) =? u32_at bs split then Ok (slice bs 0 split)
  else Err (Corrupt path "checksum mismatch").

Definition read_checked (path : string) (file : bytes) (offset len : Z) : stm World bytes :=
  if len <? CRC_LEN then lift (Err (Corrupt path "block shorter than its checksum"))
  else
    bs ← read_exact_at path file offset len;
    lift (verified path len bs).

(** What [read_checked] comes to when its call does not fail. *)
Definition region (path : string) (file : bytes) (offset len : Z) : result bytes :=
  if len <? CRC_LEN then Err (Corrupt path "block shorter than its checksum")
  else bs ← bytes_at path file offset len; verified path len bs.

(** The loop of [parse_index]; an entry takes at least sixteen bytes. *)
Fixpoint parse_index_entries (fuel : nat) (cursor : bytes) : option (list BlockRef) :=
  match cursor with
  | [] => Some []
  | _ =>
      match fuel with
      | O => None
      | S fuel =>
          '(first_key, cursor) ← take_field cursor;
          '(offset, cursor) ← take_u64 cursor;
          '(len, cursor) ← take_u32 cursor;
          blocks ← parse_index_entries fuel cursor;
          Some (mkBlockRef first_key offset len :: blocks)
      end
  end.

Definition parse_index (cursor : bytes) : option (bytes * bytes * list BlockRef) :=
  '(min_key, cursor) ← take_field cursor;
  '(max_key, cursor) ← take_field cursor;
  blocks ← parse_index_entries (length cursor) cursor;
  Some (min_key, max_key, blocks).

Definition sst_version_message (version : Z) : string :=
  ("format version " +:+ pretty.pretty version +:+ ", expected 2")%string.

(** What [SsTable::open] reads off the footer: where the index and the filter are,
    and how many entries there are. *)
Definition parse_footer (path : string) (file_len : Z) (footer : bytes) : result (Z * Z * Z * Z * Z) :=
  if negb (key_eqb (slice footer (FOOTER_LEN - zlen SST_MAGIC) FOOTER_LEN) SST_MAGIC) then
    Err (Corrupt path "not a sorted table")
  else
  let version := u32_at footer (FOOTER_LEN - zlen SST_MAGIC - 4) in
  if negb (version =? SST_VERSION) then Err (Corrupt path (sst_version_message version))
  else if negb (crc32 (slice footer 0 FOOTER_CHECKED) =? u32_at footer FOOTER_CHECKED) then
    Err (Corrupt path "footer checksum mismatch")
  else
  let index_offset := u64_at footer 0 in
  let index_len := u32_at footer 8 in
  let filter_offset := u64_at footer 12 in
  let filter_len := u32_at footer 20 in
  let entries := u64_at footer 24 in
  let trailer := file_len - FOOTER_LEN in
  if (trailer <? wrap64 (index_offset + index_len)) || (trailer <? wrap64 (filter_offset + filter_len))
  then Err (Corrupt path "footer points past the file")
  else Ok (index_offset, index_len, filter_offset, filter_len, entries).

Definition index_of (path : string) (index : bytes) : result (bytes * bytes * list BlockRef) :=
  ok_or (parse_index index) (Corrupt path "index is not readable").

Definition filter_in (path : string) (filter : bytes) : result Bloom :=
  ok_or (bloom_decode filter) (Corrupt path "filter is not readable").

(** [SsTable::open], the file being open already: its length, its footer, its index
    and its filter. *)
Definition sst_open (path : string) (file : bytes) : stm World SsTable :=
  file_len ← call path (fun d => (Ok (zlen file), d)) no_effect;
  if file_len <? FOOTER_LEN then lift (Err (Corrupt path "shorter than a footer"))
  else
    footer ← read_exact_at path file (file_len - FOOTER_LEN) FOOTER_LEN;
    '(index_offset, index_len, filter_offset, filter_len, entries) ← lift (parse_footer path file_len footer);
    index ← read_checked path file index_offset index_len;
    '(min_key, max_key, blocks) ← lift (index_of path index);
    filter ← read_checked path file filter_offset filter_len;
    filter ← lift (filter_in path filter);
    mret (mkSsTable path file blocks filter min_key max_key entries file_len).

(** What [sst_open] comes to when none of its calls fails. *)
Definition sst_opened (path : string) (file : bytes) : result SsTable :=
  if zlen file <? FOOTER_LEN then Err (Corrupt path "shorter than a footer")
  else
    footer ← bytes_at path file (zlen file - FOOTER_LEN) FOOTER_LEN;
    '(index_offset, index_len, filter_offset, filter_len, entries) ← parse_footer path (zlen file) footer;
    index ← region path file index_offset index_len;
    '(min_key, max_key, blocks) ← index_of path index;
    filter ← region path file filter_offset filter_len;
    filter ← filter_in path filter;
    Ok (mkSsTable path file blocks filter min_key max_key entries (zlen file)).

(** [take_record]: one record off the front of a block. *)
Definition take_record (cursor : bytes) : option (entry * bytes) :=
  '(seq, cursor) ← take_u64 cursor;
  '(kind, cursor) ← take_u8 cursor;
  '(key, cursor) ← take_field cursor;
  if kind =? KIND_SET then
    '(value, cursor) ← take_field cursor; Some ((key, (seq, Some value)), cursor)
  else if kind =? KIND_DELETE then Some ((key, (seq, None)), cursor)
  else None.

(** [scan_block]; a record takes at least thirteen bytes, so the length of the
    block is fuel enough. *)
Fixpoint scan_block_loop (fuel : nat) (cursor key : bytes) : option Lookup :=
  match cursor with
  | [] => Some Missing
  | _ =>
      match fuel with
      | O => None
      | S fuel =>
          '((rkey, (_, value)), cursor) ← take_record cursor;
          match bytes_cmp rkey key with
          | Lt => scan_block_loop fuel cursor key
          | Eq => Some (match value with Some v => Found v | None => Deleted end)
          | Gt => Some Missing
          end
      end
  end.

Definition scan_block (block key : bytes) : option Lookup := scan_block_loop (length block) block key.

(** [partition_point]: how many leading blocks satisfy the predicate, which is
    what the binary search finds on blocks it partitions. *)
Fixpoint partition_point {A} (pred : A -> bool) (l : list A) : nat :=
  match l with
  | [] => O
  | x :: l => if pred x then S (partition_point pred l) else O
  end.

(** The one block of [SsTable::get] that can hold a key, if the range and the filter
    let it through: the last whose first key is not past it. *)
Definition block_for (self : SsTable) (key : bytes) : option BlockRef :=
  if key_ltb key (st_min_key self) || key_ltb (st_max_key self) key then None
  else if negb (may_contain (st_filter self) key) then None
  else
    let candidate := partition_point (fun block => key_leb (br_first_key block) key) (st_blocks self) in
    if (0 <? candidate)%nat then st_blocks self !! (candidate - 1)%nat else None.

Definition lookup_in (path : string) (block key : bytes) : result Lookup :=
  ok_or (scan_block block key) (Corrupt path "block is not readable").

(** [SsTable::get], with the counter [block_reads] that it bumps before it reads. *)
Definition sst_get (self : SsTable) (key : bytes) : stm (Z * World) Lookup := fun '(block_reads, w) =>
  match block_for self key with
  | None => (Ok Missing, (block_reads, w))
  | Some block =>
      let block_reads := wrap64 (block_reads + 1) in
      let '(r, w) := (bs ← read_checked (st_path self) (st_file self) (br_offset block) (br_len block);
                      lift (lookup_in (st_path self) bs key)) w in
      (r, (block_reads, w))
  end.

(** What a lookup comes to when its read does not fail. *)
Definition sst_lookup (self : SsTable) (key : bytes) : result Lookup :=
  match block_for self key with
  | None => Ok Missing
  | Some block =>
      bs ← region (st_path self) (st_file self) (br_offset block) (br_len block);
      lookup_in (st_path self) bs key
  end.

(** A lookup, the counter set aside. *)
Definition sst_get_at (self : SsTable) (key : bytes) (block_reads : Z) : stm World Lookup := fun w =>
  let '(r, (_, w)) := sst_get self key (block_reads, w) in (r, w).

(** [Scan]: every entry of a file, one block at a time. *)
Record Scan := mkScan {
  sc_table : SsTable;
  sc_next_block : nat;
  sc_buffer : bytes;
  sc_offset : Z;
  sc_failed : bool;
}.

Definition sst_scan (self : SsTable) : Scan := mkScan self 0 [] 0 false.

(** The loop of [Scan::next]. Every turn that does not return moves to the next
    block, so one turn more than there are blocks left is fuel enough. *)
Fixpoint scan_loop (fuel : nat) (self : Scan) (w : World) : option (result entry) * (Scan * World) :=
  let '(mkScan table next_block buffer offset failed) := self in
  match fuel with
  | O => (None, (self, w))
  | S fuel =>
      if offset <? zlen buffer then
        match take_record (slice buffer offset (zlen buffer)) with
        | None =>
            (Some (Err (Corrupt (st_path table) "block is not readable")),
             (mkScan table next_block buffer offset true, w))
        | Some (record, cursor) =>
            (Some (Ok record), (mkScan table next_block buffer (zlen buffer - zlen cursor) failed, w))
        end
      else
        match st_blocks table !! next_block with
        | None => (None, (self, w))
        | Some block =>
            match read_checked (st_path table) (st_file table) (br_offset block) (br_len block) w with
            | (Ok bs, w) => scan_loop fuel (mkScan table (S next_block) bs 0 failed) w
            | (Err err, w) => (Some (Err err), (mkScan table (S next_block) buffer offset true, w))
            end
        end
  end.

Definition scan_next (self : Scan) (w : World) : option (result entry) * (Scan * World) :=
  if sc_failed self then (None, (self, w))
  else scan_loop (S (length (st_blocks (sc_table self)) - sc_next_block self)) self w.

(** Draining a scan into a list, as a [for] loop with [?] does; [None] when the fuel
    runs out. *)
Fixpoint scan_collect (fuel : nat) (self : Scan) : stm World (option (list entry)) := fun w =>
  match fuel with
  | O => (Ok None, w)
  | S fuel =>
      match scan_next self w with
      | (None, (_, w)) => (Ok (Some []), w)
      | (Some (Err e), (_, w)) => (Err e, w)
      | (Some (Ok e), (self, w)) => (es ← scan_collect fuel self; mret (cons e <$> es)) w
      end
  end.

(** ** What a file holds *)

(** One record as it sits in a block, and the records of a block. *)
Definition record_bytes (e : entry) : bytes :=
  let '(key, (seq, value)) := e in
  to_le 8 seq ++
  match value with
  | Some v => [z2b KIND_SET] ++ field key ++ field v
  | None => [z2b KIND_DELETE] ++ field key
  end.

Definition records (es : list entry) : bytes := concat (record_bytes <$> es).

(** A checked region: its contents and their checksum. *)
Definition checked (body : bytes) : bytes := body ++ to_le 4 (crc32 body).

Definition first_key (es : list entry) : bytes :=
  match es with (key, _) :: _ => key | [] => [] end.

Definition last_key (es : list entry) : bytes := default [] (fst <$> last es).

Definition blocks_bytes (groups : list (list entry)) : bytes := concat ((checked ∘ records) <$> groups).

(** The index entries of blocks laid out from [offset] on. *)
Fixpoint layout (offset : Z) (groups : list (list entry)) : list BlockRef :=
  match groups with
  | [] => []
  | g :: groups =>
      mkBlockRef (first_key g) (wrap64 offset) (zlen (checked (records g)))
      :: layout (offset + zlen (checked (records g))) groups
  end.

Definition index_entry_bytes (b : BlockRef) : bytes :=
  field (br_first_key b) ++ to_le 8 (br_offset b) ++ to_le 4 (br_len b).

Definition index_bytes (groups : list (list entry)) : bytes :=
  field (first_key (concat groups)) ++ field (last_key (concat groups))
  ++ concat (index_entry_bytes <$> layout 0 groups).

Definition filter_of (es : list entry) : Bloom := bloom_build (bloom_hash <$> es.*1) BITS_PER_KEY.

(** The whole file. *)
Definition table_bytes (groups : list (list entry)) : bytes :=
  let data := blocks_bytes groups in
  let filter := checked (as_bytes (filter_of (concat groups))) in
  let index := checked (index_bytes groups) in
  data ++ filter ++ index ++
  build_footer (wrap64 (zlen data + zlen filter)) (zlen index) (wrap64 (zlen data)) (zlen filter)
    (wrap64 (zlen (concat groups))).

(** What fits the length fields, and numbers that fit theirs. *)
Definition entry_fits (e : entry) : Prop :=
  zlen (fst e) <= u32_max /\ zlen (default [] (snd (snd e))) <= u32_max.

Definition seqs_ok (es : list entry) : Prop := Forall (fun e => u64_ok (fst (snd e))) es.

(** ** The writer *)

Lemma records_app a b : records (a ++ b) = records a ++ records b.
Proof. unfold records. by rewrite fmap_app, concat_app. Qed.

Lemma records_cons e es : records (e :: es) = record_bytes e ++ records es.
Proof. done. Qed.

Lemma records_one e : records [e] = record_bytes e.
Proof. unfold records. cbn. by rewrite app_nil_r. Qed.

Lemma record_bytes_length e : 13 <= zlen (record_bytes e).
Proof.
  destruct e as [key [seq [value|]]]; unfold record_bytes; autorewrite with lsm;
    pose proof (zlen_nonneg key); try pose proof (zlen_nonneg value); lia.
Qed.

Lemma records_length es : 13 * zlen es <= zlen (records es).
Proof.
  induction es as [|e es IH]; [done|]. rewrite records_cons. autorewrite with lsm.
  pose proof (record_bytes_length e). lia.
Qed.

Lemma records_nil_iff es : records es = [] <-> es = [].
Proof.
  split; [|by intros ->]. intros H. pose proof (records_length es) as L. rewrite H in L.
  apply zlen_nil_inv. pose proof (zlen_nonneg es). rewrite zlen_nil in L. lia.
Qed.

Lemma zlen_checked body : zlen (checked body) = zlen body + 4.
Proof. unfold checked. by autorewrite with lsm. Qed.

Lemma first_key_app a b : a <> [] -> first_key (a ++ b) = first_key a.
Proof. by destruct a. Qed.

Lemma last_key_snoc es e : last_key (es ++ [e]) = fst e.
Proof. unfold last_key. by rewrite last_snoc. Qed.

Lemma blocks_bytes_snoc groups g :
  blocks_bytes (groups ++ [g]) = blocks_bytes groups ++ checked (records g).
Proof. unfold blocks_bytes. rewrite fmap_app, concat_app. cbn. by rewrite app_nil_r. Qed.

Lemma blocks_bytes_app a b : blocks_bytes (a ++ b) = blocks_bytes a ++ blocks_bytes b.
Proof. unfold blocks_bytes. by rewrite fmap_app, concat_app. Qed.

Lemma blocks_bytes_cons g b : blocks_bytes (g :: b) = checked (records g) ++ blocks_bytes b.
Proof. done. Qed.

Lemma layout_app a : forall offset b,
  layout offset (a ++ b) = layout offset a ++ layout (offset + zlen (blocks_bytes a)) b.
Proof.
  induction a as [|g a IH]; intros offset b; cbn [layout app].
  - change (zlen (blocks_bytes [])) with 0. by rewrite Z.add_0_r.
  - rewrite blocks_bytes_cons, zlen_app, Z.add_assoc, IH. done.
Qed.

Ltac writer_cbn :=
  cbn [snd w_path w_file w_block w_blocks w_hashes w_first_key w_min_key w_max_key w_offset w_entries].
Ltac writer_cbn_in H :=
  cbn [snd w_path w_file w_block w_blocks w_hashes w_first_key w_min_key w_max_key w_offset w_entries] in H.

(** The state of a writer that has closed [groups] and holds [cur] in its block. *)
Record writer_inv (w : Writer) (groups : list (list entry)) (cur : list entry) : Prop := {
  wi_file : w_file w = blocks_bytes groups;
  wi_block : w_block w = records cur;
  wi_blocks : w_blocks w = layout 0 groups;
  wi_hashes : w_hashes w = bloom_hash <$> (concat groups ++ cur).*1;
  wi_first : cur <> [] -> w_first_key w = first_key cur;
  wi_min : zlen (concat groups ++ cur) <= u64_max -> w_min_key w = first_key (concat groups ++ cur);
  wi_max : w_max_key w = last_key (concat groups ++ cur);
  wi_offset : w_offset w = wrap64 (zlen (blocks_bytes groups));
  wi_entries : w_entries w = wrap64 (zlen (concat groups ++ cur));
  wi_fits : Forall entry_fits (concat groups ++ cur);
  wi_lens : Forall (fun g => g <> [] /\ zlen (checked (records g)) <= u32_max) groups;
}.

Lemma writer_inv_create path : writer_inv (writer_create path) [] [].
Proof. split; done. Qed.

Lemma close_block_inv w w' groups cur :
  writer_inv w groups cur -> close_block w = (Ok tt, w') ->
  writer_inv w' (groups ++ match cur with [] => [] | _ => [cur] end) [].
Proof.
  intros [Hf Hb Hbs Hh Hfk Hmin Hmax Ho He Hfit Hl] Hc. unfold close_block in Hc. rewrite Hb in Hc.
  destruct (records cur) eqn:Er.
  { apply records_nil_iff in Er as ->. injection Hc as <-. rewrite app_nil_r. by split. }
  assert (cur <> []) as Hne by (intros ->; done). rewrite <- Er in *. clear Er b l.
  destruct cur as [|e cur]; [done|]. set (all := e :: cur) in *.
  unfold on_block, writer_write, push_block_ref, extend in Hc. run_stm.
  writer_cbn_in Hc.
  rewrite Hb in Hc. change (records all ++ to_le 4 (crc32 (records all))) with (checked (records all)) in Hc.
  destruct (length_of (checked (records all))) as [n|] eqn:El; [|done].
  apply length_of_Ok in El as [-> Hlen].
  injection Hc as <-. assert (concat (groups ++ [all]) ++ [] = concat groups ++ all) as Hcat.
  { by rewrite concat_app, app_nil_r; cbn; rewrite app_nil_r. }
  split; writer_cbn;
    rewrite ?Hcat; try done.
  - by rewrite Hf, blocks_bytes_snoc.
  - rewrite Hbs, layout_app, Hfk by done. cbn [layout]. by rewrite Ho, Z.add_0_l.
  - rewrite Ho, wrap64_add_l, blocks_bytes_snoc, zlen_app. done.
  - apply Forall_app. split; [done|]. by constructor.
Qed.

(** What [add] does before it decides whether to close the block. *)
Lemma writer_add_eq key seq value w :
  zlen key <= u32_max -> zlen (default [] value) <= u32_max ->
  writer_add key seq value w =
  let w1 := snd (note_entry key w) in
  let block := w_block w ++ record_bytes (key, (seq, value)) in
  (if BLOCK_SIZE <=? zlen block then close_block else mret tt)
    (mkWriter (w_path w1) (w_file w1) block (w_blocks w1) (w_hashes w1) (w_first_key w1)
       (w_min_key w1) (w_max_key w1) (w_offset w1) (w_entries w1)).
Proof.
  intros Hk Hv. apply Z.leb_le in Hk, Hv.
  unfold writer_add, note_entry, on_block, extend. run_stm.
  destruct value as [v|]; cbn in Hv; cbn [w_block]; rewrite ?push_field_eq, ?Hk; cbn beta iota;
    writer_cbn;
    rewrite ?push_field_eq, ?Hv; cbn beta iota zeta;
    writer_cbn;
    unfold record_bytes; rewrite <- !app_assoc; by case_match.
Qed.

Lemma writer_add_fits key seq value w w' :
  writer_add key seq value w = (Ok tt, w') -> entry_fits (key, (seq, value)).
Proof.
  unfold writer_add, note_entry, on_block, extend, entry_fits. run_stm. intros H. cbn.
  destruct value as [v|]; cbn [w_block] in H; rewrite ?push_field_eq in H;
    destruct (Z.leb_spec (zlen key) u32_max); cbn beta iota in H; try done.
  writer_cbn_in H.
  rewrite push_field_eq in H. by destruct (Z.leb_spec (zlen v) u32_max).
Qed.

Lemma writer_add_inv w w' groups cur key seq value :
  writer_inv w groups cur -> writer_add key seq value w = (Ok tt, w') ->
  exists groups' cur', writer_inv w' groups' cur' /\
    concat groups' ++ cur' = (concat groups ++ cur) ++ [(key, (seq, value))].
Proof.
  intros [Hf Hb Hbs Hh Hfk Hmin Hmax Ho He Hfit Hl] Ha. pose proof (writer_add_fits _ _ _ _ _ Ha) as [Hk Hv].
  rewrite writer_add_eq in Ha by done. cbn zeta in Ha.
  match type of Ha with ?f ?s = _ => set (w1 := s) in Ha end.
  set (e := (key, (seq, value))) in *.
  assert (writer_inv w1 groups (cur ++ [e])) as Hinv.
  { split; subst w1; unfold note_entry; cbn [snd];
      writer_cbn;
      rewrite ?app_assoc; try done.
    - by rewrite Hb, records_app, records_one.
    - by rewrite Hh, !fmap_app.
    - intros _. rewrite Hb. destruct cur as [|e' cur]; [done|]. rewrite first_key_app by done.
      rewrite <- Hfk by done. rewrite records_cons. pose proof (record_bytes_length e') as L.
      by destruct (record_bytes e'); [rewrite zlen_nil in L; lia|].
    - rewrite zlen_app, zlen_cons, zlen_nil. intros Hlen. rewrite He.
      rewrite Hmin by lia. rewrite wrap64_small by (split; [apply zlen_nonneg|lia]).
      destruct (concat groups ++ cur) as [|a l]; [done|]. rewrite first_key_app by done.
      by destruct (Z.eqb_spec (zlen (a :: l)) 0) as [E%zlen_nil_inv|].
    - by rewrite last_key_snoc.
    - rewrite He, wrap64_add_l, (zlen_app _ [e]). done.
    - apply Forall_app. split; [done|]. by repeat constructor. }
  clearbody w1. destruct (BLOCK_SIZE <=? zlen (w_block w ++ record_bytes e)).
  - exists (groups ++ [cur ++ [e]]), []. split.
    + apply (close_block_inv _ _ _ _ Hinv) in Ha. by destruct cur.
    + by rewrite concat_app, app_nil_r; cbn; rewrite app_nil_r, app_assoc.
  - injection Ha as <-. exists groups, (cur ++ [e]). by rewrite app_assoc.
Qed.

Lemma writer_adds_inv es : forall w w' groups cur,
  writer_inv w groups cur -> visit_all writer_add es w = (Ok tt, w') ->
  exists groups' cur', writer_inv w' groups' cur' /\ concat groups' ++ cur' = (concat groups ++ cur) ++ es.
Proof.
  induction es as [|[key [seq value]] es IH]; intros w w' groups cur Hinv H; cbn in H.
  - injection H as <-. exists groups, cur. by rewrite app_nil_r.
  - run_stm. destruct (writer_add key seq value w) as [[[]|] w1] eqn:E; [|done].
    destruct (writer_add_inv _ _ _ _ _ _ _ Hinv E) as (g1 & c1 & Hinv1 & Hcat1).
    destruct (IH _ _ _ _ Hinv1 H) as (g2 & c2 & Hinv2 & Hcat2).
    exists g2, c2. split; [done|]. by rewrite Hcat2, Hcat1, <- app_assoc.
Qed.

Lemma push_index_entries_eq blocks : forall buf,
  Forall (fun b => zlen (br_first_key b) <= u32_max) blocks ->
  push_index_entries blocks buf = (Ok tt, buf ++ concat (index_entry_bytes <$> blocks)).
Proof.
  induction blocks as [|b blocks IH]; intros buf HF; cbn.
  - by rewrite app_nil_r.
  - inversion_clear HF as [|? ? Hb HF']. apply Z.leb_le in Hb. run_stm. rewrite push_field_eq, Hb.
    unfold extend. run_stm. rewrite IH by done.
    unfold index_entry_bytes at 2. by rewrite <- !app_assoc.
Qed.

Lemma layout_first_keys groups : forall offset,
  br_first_key <$> layout offset groups = first_key <$> groups.
Proof. induction groups as [|g groups IH]; intros; cbn; [done|]. by rewrite IH. Qed.

Lemma first_key_fits es : Forall entry_fits es -> zlen (first_key es) <= u32_max.
Proof. intros H. destruct es as [|[k v] es]; [done|]. inversion_clear H as [|? ? [Hk _] _]. done. Qed.

Lemma last_key_fits es : Forall entry_fits es -> zlen (last_key es) <= u32_max.
Proof.
  intros H. unfold last_key. destruct (last es) as [e|] eqn:E; [|done].
  apply last_Some_elem_of in E. rewrite Forall_forall in H. by apply H in E as [? _].
Qed.

Lemma layout_keys_fit groups offset :
  Forall entry_fits (concat groups) ->
  Forall (fun b => zlen (br_first_key b) <= u32_max) (layout offset groups).
Proof.
  intros H. pose proof (Forall_fmap br_first_key (fun k => zlen k <= u32_max) (layout offset groups)) as E.
  apply E. rewrite layout_first_keys, Forall_fmap. rewrite Forall_concat in H.
  eapply Forall_impl; [exact H|]. intros g Hg. by apply first_key_fits.
Qed.

Lemma build_index_eq groups :
  Forall entry_fits (concat groups) ->
  build_index (first_key (concat groups)) (last_key (concat groups)) (layout 0 groups) []
  = (Ok tt, checked (index_bytes groups)).
Proof.
  intros H. unfold build_index. run_stm.
  rewrite !push_field_eq, (proj2 (Z.leb_le _ _) (first_key_fits _ H)). cbn beta iota.
  rewrite push_field_eq, (proj2 (Z.leb_le _ _) (last_key_fits _ H)). cbn beta iota.
  rewrite push_index_entries_eq by by apply layout_keys_fit.
  unfold extend, modify, checked, index_bytes. cbn [app]. by rewrite <- !app_assoc.
Qed.

Lemma close_block_nil w : w_block w = [] -> close_block w = (Ok tt, w).
Proof. intros H. unfold close_block. by rewrite H. Qed.

Lemma writer_finish_close w w' :
  close_block w = (Ok tt, w') -> w_block w' = [] -> writer_finish w = writer_finish w'.
Proof. intros H1 H2. unfold writer_finish. run_stm. by rewrite H1, (close_block_nil w' H2). Qed.

(** [finish] from a state that has closed every block: it can only fail because
    the filter or the index outgrows its length field. *)
Lemma writer_finish_eq w groups :
  writer_inv w groups [] -> zlen (concat groups) <= u64_max ->
  let filter := checked (as_bytes (filter_of (concat groups))) in
  let index := checked (index_bytes groups) in
  match writer_finish w with
  | (Ok tt, w') => zlen filter <= u32_max /\ zlen index <= u32_max /\ w_file w' = table_bytes groups
  | (Err e, _) => ~ (zlen filter <= u32_max /\ zlen index <= u32_max)
  end.
Proof.
  intros [Hf Hb Hbs Hh Hfk Hmin Hmax Ho He Hfit Hl] Hn filter index.
  rewrite app_nil_r in *. specialize (Hmin Hn).
  unfold writer_finish. run_stm. rewrite (close_block_nil w Hb). cbn beta iota.
  rewrite Hh. fold (filter_of (concat groups)). fold (checked (as_bytes (filter_of (concat groups)))).
  fold filter. unfold length_of at 1. destruct (Z.leb_spec (zlen filter) u32_max) as [Hfl|]; [|lia].
  cbn beta iota zeta; unfold writer_write;
    writer_cbn.
  rewrite Hmin, Hmax, Hbs, build_index_eq by done. fold index.
  unfold length_of. destruct (Z.leb_spec (zlen index) u32_max) as [Hil|]; [|lia].
  split; [done|]. split; [done|]. unfold table_bytes. fold filter index.
  writer_cbn. rewrite Hf, Ho, He, wrap64_add_l, <- !app_assoc. done.
Qed.

Lemma writer_finish_extends w w' :
  w_block w = [] -> writer_finish w = (Ok tt, w') -> exists tail, w_file w' = w_file w ++ tail.
Proof.
  intros Hb H. unfold writer_finish in H. run_stm. rewrite (close_block_nil w Hb) in H. cbn beta iota zeta in H.
  destruct (length_of _) in H; [|done]. cbn beta iota in H. unfold writer_write in H. writer_cbn_in H.
  destruct (build_index _ _ _ _) as [[[]|] index] in H; [|done]. cbn beta iota in H.
  destruct (length_of _) in H; [|done]. cbn beta iota in H. injection H as <-. writer_cbn.
  rewrite <- !app_assoc. eauto.
Qed.

(** What holds of the groups of a file that was written. *)
Record groups_ok (groups : list (list entry)) : Prop := {
  go_fits : Forall entry_fits (concat groups);
  go_lens : Forall (fun g => g <> [] /\ zlen (checked (records g)) <= u32_max) groups;
  go_filter : zlen (checked (as_bytes (filter_of (concat groups)))) <= u32_max;
  go_index : zlen (checked (index_bytes groups)) <= u32_max;
}.

Lemma blocks_bytes_length groups : zlen (concat groups) <= zlen (blocks_bytes groups).
Proof.
  induction groups as [|g groups IH]; [done|]. rewrite blocks_bytes_cons. cbn [concat].
  rewrite !zlen_app, zlen_checked. pose proof (records_length g). pose proof (zlen_nonneg g). lia.
Qed.

(** Every file [add] and [finish] produce has the same shape. *)
Lemma writer_shape w w1 w' groups cur es :
  writer_inv w groups cur ->
  visit_all writer_add es w = (Ok tt, w1) -> writer_finish w1 = (Ok tt, w') ->
  zlen (w_file w') <= u64_max ->
  exists groups', concat groups' = (concat groups ++ cur) ++ es /\ groups_ok groups' /\ w_file w' = table_bytes groups'.
Proof.
  intros Hinv Hadd Hfin Hlen.
  destruct (writer_adds_inv _ _ _ _ _ Hinv Hadd) as (g1 & c1 & Hinv1 & Hcat).
  destruct (close_block w1) as [[[]|] w2] eqn:Hc.
  2:{ unfold writer_finish in Hfin. run_stm. by rewrite Hc in Hfin. }
  pose proof (close_block_inv _ _ _ _ Hinv1 Hc) as Hinv2.
  set (groups' := g1 ++ match c1 with [] => [] | _ => [c1] end) in *.
  assert (concat groups' = concat g1 ++ c1) as Hcat'.
  { subst groups'. rewrite concat_app. destruct c1; cbn; [done|]. by rewrite app_nil_r. }
  pose proof (wi_block _ _ _ Hinv2) as Hb.
  rewrite (writer_finish_close _ _ Hc Hb) in Hfin.
  destruct (writer_finish_extends _ _ Hb Hfin) as [tail Htail].
  assert (zlen (concat groups') <= u64_max) as Hn.
  { rewrite Htail, (wi_file _ _ _ Hinv2), zlen_app in Hlen.
    pose proof (blocks_bytes_length groups'). pose proof (zlen_nonneg tail). lia. }
  pose proof (writer_finish_eq _ _ Hinv2 Hn) as Heq. rewrite Hfin in Heq. cbn zeta in Heq.
  destruct Heq as (Hfl & Hil & Hfile). exists groups'. split; [congruence|]. split; [|done].
  pose proof (wi_fits _ _ _ Hinv2) as Hfit. rewrite app_nil_r in Hfit.
  split; try done. exact (wi_lens _ _ _ Hinv2).
Qed.

Lemma write_table_shape path es w :
  write_table path es = (Ok tt, w) -> zlen (w_file w) <= u64_max ->
  exists groups, concat groups = es /\ groups_ok groups /\ w_file w = table_bytes groups.
Proof.
  unfold write_table. run_stm. intros H Hlen.
  destruct (visit_all writer_add es (writer_create path)) as [[[]|] w1] eqn:E; [|done].
  exact (writer_shape _ _ _ _ _ _ (writer_inv_create path) E H Hlen).
Qed.

(** ** Opening *)

Lemma slice_app_r {A} (l k : list A) i j :
  i = zlen l -> j = zlen l + zlen k -> slice (l ++ k) i j = k.
Proof.
  intros Hi Hj. rewrite <- (app_nil_r k) at 1. by apply slice_mid.
Qed.

Lemma bytes_at_mid path pre body post offset len :
  offset = zlen pre -> len = zlen body ->
  bytes_at path (pre ++ body ++ post) offset len = Ok body.
Proof.
  intros -> ->. unfold bytes_at. rewrite !zlen_app. pose proof (zlen_nonneg post).
  destruct (Z.leb_spec (zlen pre + zlen body) (zlen pre + (zlen body + zlen post))); [|lia].
  by rewrite slice_mid.
Qed.

Lemma region_mid path pre body post offset len :
  offset = zlen pre -> len = zlen (checked body) ->
  region path (pre ++ checked body ++ post) offset len = Ok body.
Proof.
  intros Ho Hl. unfold region. rewrite Hl, zlen_checked. pose proof (zlen_nonneg body).
  unfold CRC_LEN. destruct (Z.ltb_spec (zlen body + 4) 4); [lia|].
  rewrite bytes_at_mid by (rewrite ?zlen_checked; lia). cbn. unfold verified, CRC_LEN.
  replace (zlen body + 4 - 4) with (zlen body) by lia. unfold checked.
  rewrite slice_app_l by done. rewrite <- (app_nil_r (to_le 4 _)).
  rewrite u32_at_app by auto using crc32_range. by rewrite Z.eqb_refl.
Qed.

Lemma parse_index_entries_layout blocks : forall fuel,
  (length (concat (index_entry_bytes <$> blocks)) <= fuel)%nat ->
  Forall (fun b => zlen (br_first_key b) <= u32_max /\ u64_ok (br_offset b) /\ u32_ok (br_len b)) blocks ->
  parse_index_entries fuel (concat (index_entry_bytes <$> blocks)) = Some blocks.
Proof.
  induction blocks as [|[k o l] blocks IH]; intros fuel Hfuel HF; [by destruct fuel|].
  inversion_clear HF as [|? ? (Hk & Ho & Hl) HF']. cbn in Hk, Ho, Hl. cbn [fmap list_fmap concat] in *.
  assert (16 <= length (index_entry_bytes (mkBlockRef k o l)))%nat as Hlen.
  { unfold index_entry_bytes, field. cbn. autorewrite with lsm. lia. }
  rewrite length_app in Hfuel. destruct fuel as [|fuel]; [lia|].
  cbn [parse_index_entries]. destruct (index_entry_bytes (mkBlockRef k o l) ++ _) eqn:E.
  { apply (f_equal length) in E. rewrite length_app in E. cbn in E. lia. }
  rewrite <- E. unfold index_entry_bytes at 1. cbn [br_first_key br_offset br_len].
  rewrite <- !app_assoc, take_field_app by done. cbn. rewrite take_u64_app by done. cbn.
  rewrite take_u32_app by done. cbn. rewrite IH by (done || lia). done.
Qed.

Lemma layout_ranges groups : forall offset,
  Forall entry_fits (concat groups) ->
  Forall (fun g => g <> [] /\ zlen (checked (records g)) <= u32_max) groups ->
  Forall (fun b => zlen (br_first_key b) <= u32_max /\ u64_ok (br_offset b) /\ u32_ok (br_len b))
    (layout offset groups).
Proof.
  induction groups as [|g groups IH]; intros offset Hf Hl; cbn [layout]; [constructor|].
  cbn [concat] in Hf. apply Forall_app in Hf as [Hfg Hf]. inversion_clear Hl as [|? ? [_ Hg] Hl'].
  constructor; [|by apply IH]. cbn. repeat split.
  - by apply first_key_fits.
  - apply wrap64_range.
  - apply wrap64_range.
  - apply zlen_nonneg.
  - done.
Qed.

Lemma parse_index_bytes groups :
  groups_ok groups ->
  parse_index (index_bytes groups) =
  Some (first_key (concat groups), last_key (concat groups), layout 0 groups).
Proof.
  intros [Hf Hl _ _]. unfold parse_index, index_bytes.
  rewrite take_field_app by by apply first_key_fits. cbn.
  rewrite take_field_app by by apply last_key_fits. cbn.
  rewrite parse_index_entries_layout; [done..|]. by apply layout_ranges.
Qed.

(** The five fields and the checksum the reader takes from a footer. *)
Lemma footer_fields io il fo fl n :
  u64_ok io -> u32_ok il -> u64_ok fo -> u32_ok fl -> u64_ok n ->
  let f := build_footer io il fo fl n in
  zlen f = FOOTER_LEN /\ slice f (FOOTER_LEN - zlen SST_MAGIC) FOOTER_LEN = SST_MAGIC /\
  u32_at f (FOOTER_LEN - zlen SST_MAGIC - 4) = SST_VERSION /\
  crc32 (slice f 0 FOOTER_CHECKED) = u32_at f FOOTER_CHECKED /\
  u64_at f 0 = io /\ u32_at f 8 = il /\ u64_at f 12 = fo /\ u32_at f 20 = fl /\ u64_at f 24 = n.
Proof.
  intros Hio Hil Hfo Hfl Hn. unfold build_footer. cbn zeta.
  set (body := to_le 8 io ++ to_le 4 il ++ to_le 8 fo ++ to_le 4 fl ++ to_le 8 n).
  assert (zlen body = 32) as Hb by (subst body; by autorewrite with lsm).
  assert (zlen SST_MAGIC = 8) as Hm by done. unfold FOOTER_LEN, FOOTER_CHECKED, SST_VERSION.
  rewrite Hm. split_and!.
  - clearbody body. autorewrite with lsm. lia.
  - clearbody body. rewrite <- (app_nil_r SST_MAGIC) at 1. rewrite !(app_assoc _ (to_le 4 2)).
    apply slice_mid; autorewrite with lsm; lia.
  - clearbody body. apply u32_at_app; [done|]. autorewrite with lsm. lia.
  - clearbody body. rewrite <- !app_assoc, slice_app_l by done. symmetry. by apply u32_at_app; [apply crc32_range|].
  - subst body. rewrite <- !app_assoc. by apply (u64_at_app []).
  - subst body. rewrite <- !app_assoc. apply u32_at_app; [done|]. by autorewrite with lsm.
  - subst body. rewrite <- !app_assoc, (app_assoc (to_le 8 io)).
    apply u64_at_app; [done|]. by autorewrite with lsm.
  - subst body. rewrite <- !app_assoc, 2!(app_assoc _ _ (to_le 4 fl ++ _)), (app_assoc (to_le 8 io)).
    apply u32_at_app; [done|]. by autorewrite with lsm.
  - subst body. rewrite <- !app_assoc, 3!(app_assoc _ _ (to_le 8 n ++ _)).
    apply u64_at_app; [done|]. by autorewrite with lsm.
Qed.

(** The table a written file opens as. *)
Definition opened_table (path : string) (groups : list (list entry)) : SsTable :=
  mkSsTable path (table_bytes groups) (layout 0 groups) (filter_of (concat groups))
    (first_key (concat groups)) (last_key (concat groups)) (zlen (concat groups))
    (zlen (table_bytes groups)).

(** The same file with its offsets written without the wrap. *)
Lemma table_bytes_eq groups :
  zlen (table_bytes groups) <= u64_max ->
  let data := blocks_bytes groups in
  let filter := checked (as_bytes (filter_of (concat groups))) in
  let index := checked (index_bytes groups) in
  u64_ok (zlen data + zlen filter) /\ u64_ok (zlen data) /\ u64_ok (zlen (concat groups)) /\
  zlen data + zlen filter + zlen index <= u64_max /\
  table_bytes groups = data ++ filter ++ index ++
    build_footer (zlen data + zlen filter) (zlen index) (zlen data) (zlen filter) (zlen (concat groups)).
Proof.
  intros Hlen data filter index. unfold table_bytes in *. cbn zeta in *. fold data filter index in Hlen |- *.
  pose proof (blocks_bytes_length groups) as Hn. fold data in Hn. rewrite !zlen_app in Hlen.
  pose proof (zlen_nonneg data). pose proof (zlen_nonneg filter). pose proof (zlen_nonneg index).
  pose proof (zlen_nonneg (concat groups)).
  match type of Hlen with context [zlen (build_footer ?a ?b ?c ?d ?e)] =>
    pose proof (zlen_nonneg (build_footer a b c d e)) end.
  assert (u64_ok (zlen data + zlen filter)) by (split; lia).
  assert (u64_ok (zlen data)) by (split; lia).
  assert (u64_ok (zlen (concat groups))) by (split; lia).
  split_and!; try done; [lia|]. by rewrite !wrap64_small.
Qed.

Lemma sst_opened_table path groups :
  groups_ok groups -> zlen (table_bytes groups) <= u64_max ->
  sst_opened path (table_bytes groups) = Ok (opened_table path groups).
Proof.
  intros Hok Hlen. pose proof (parse_index_bytes groups Hok) as Hparse.
  destruct Hok as [Hf Hl Hfl Hil]. unfold opened_table.
  destruct (table_bytes_eq groups Hlen) as (B1 & B2 & B3 & B4 & ->).
  revert Hparse Hfl Hil B1 B2 B3 B4. generalize (blocks_bytes groups) as data.
  set (fbody := as_bytes (filter_of (concat groups))). set (ibody := index_bytes groups). intros data Hparse.
  intros Hfl Hil B1 B2 B3 B4.
  pose proof (zlen_nonneg data). pose proof (zlen_nonneg (checked fbody)). pose proof (zlen_nonneg (checked ibody)).
  destruct (footer_fields (zlen data + zlen (checked fbody)) (zlen (checked ibody)) (zlen data)
    (zlen (checked fbody)) (zlen (concat groups))) as (F0 & F1 & F2 & F3 & F4 & F5 & F6 & F7 & F8);
    try done; try (split; lia).
  revert F0 F1 F2 F3 F4 F5 F6 F7 F8. generalize (build_footer (zlen data + zlen (checked fbody))
    (zlen (checked ibody)) (zlen data) (zlen (checked fbody)) (zlen (concat groups))) as footer.
  intros footer F0 F1 F2 F3 F4 F5 F6 F7 F8.
  unfold sst_opened.
  set (file := data ++ checked fbody ++ checked ibody ++ footer).
  assert (zlen file = zlen data + zlen (checked fbody) + zlen (checked ibody) + FOOTER_LEN) as Hfile.
  { subst file. rewrite !zlen_app. lia. }
  assert (bytes_at path file (zlen file - FOOTER_LEN) FOOTER_LEN = Ok footer) as ->.
  { rewrite Hfile. replace file with ((data ++ checked fbody ++ checked ibody) ++ footer ++ []).
    - apply bytes_at_mid; rewrite ?zlen_app; lia.
    - subst file. by rewrite app_nil_r, <- !app_assoc. }
  assert (region path file (zlen data + zlen (checked fbody)) (zlen (checked ibody)) = Ok ibody) as Ri.
  { subst file. rewrite app_assoc. apply region_mid; [by rewrite zlen_app|done]. }
  assert (region path file (zlen data) (zlen (checked fbody)) = Ok fbody) as Rf.
  { subst file. by apply region_mid. }
  assert (FOOTER_LEN = 48) as HF by done. destruct (Z.ltb_spec (zlen file) FOOTER_LEN); [lia|].
  cbn [mbind result_bind]. unfold parse_footer. rewrite F1, F2, F3, F4, F5, F6, F7, F8.
  rewrite (proj2 (Z.eqb_eq _ _) eq_refl), Z.eqb_refl. cbn [negb].
  rewrite !wrap64_small by (split; lia).
  destruct (Z.ltb_spec (zlen file - FOOTER_LEN) (zlen data + zlen (checked fbody) + zlen (checked ibody))); [lia|].
  destruct (Z.ltb_spec (zlen file - FOOTER_LEN) (zlen data + zlen (checked fbody))); [lia|].
  change (key_eqb SST_MAGIC SST_MAGIC) with true. cbn [orb negb mbind result_bind]. rewrite Ri. cbn [mbind result_bind]. unfold index_of. rewrite Hparse. cbn [mbind result_bind ok_or].
  rewrite Rf. cbn [mbind result_bind]. unfold filter_in. subst fbody.
  unfold filter_of at 1. rewrite bloom_decode_build. done.
Qed.

(** ** Records and lookups *)

Lemma take_record_app e rest :
  entry_fits e -> u64_ok (fst (snd e)) -> take_record (record_bytes e ++ rest) = Some (e, rest).
Proof.
  destruct e as [key [seq value]]. intros [Hk Hv] Hs. cbn in Hk, Hv, Hs.
  unfold take_record, record_bytes. rewrite <- app_assoc, take_u64_app by done. cbn [mbind option_bind].
  destruct value as [v|]; cbn [app]; rewrite take_u8_app; cbn [mbind option_bind].
  - rewrite <- app_assoc, take_field_app by done. cbn [mbind option_bind].
    rewrite b2z_z2b_small by done. cbn. by rewrite take_field_app.
  - rewrite take_field_app by done. cbn [mbind option_bind]. by rewrite b2z_z2b_small.
Qed.

Lemma records_not_nil e es : exists b rest, records (e :: es) = b :: rest.
Proof.
  destruct (records (e :: es)) as [|b rest] eqn:E; [|eauto]. by apply records_nil_iff in E.
Qed.

Lemma entries_sorted_app a b :
  entries_sorted (a ++ b) <->
  entries_sorted a /\ entries_sorted b /\ (forall e f, e ∈ a -> f ∈ b -> entry_lt e f).
Proof.
  unfold entries_sorted. induction a as [|x a IH]; cbn [app].
  - split; [|by intros (_ & ? & _)]. intros H. split; [constructor|]. split; [done|].
    intros ? ? []%elem_of_nil.
  - split.
    + intros [H F]%StronglySorted_inv. apply Forall_app in F as [F1 F2].
      apply IH in H as (Ha & Hb & Hab). split; [by constructor|]. split; [done|].
      intros e f [->|He]%elem_of_cons Hf; [|by apply Hab]. rewrite Forall_forall in F2. by apply F2.
    + intros ([Ha F]%StronglySorted_inv & Hb & Hab). constructor.
      * apply IH. split_and!; [done..|]. intros e f He Hf. apply Hab; [by right|done].
      * apply Forall_app. split; [done|]. apply Forall_forall. intros f Hf. apply Hab; [left|done].
Qed.

Lemma find_entry_above es key :
  (forall e, e ∈ es -> key_lt key (fst e)) -> find_entry es key = None.
Proof.
  intros H. apply find_entry_None. intros (e & -> & He)%list_elem_of_fmap.
  apply H in He. by apply key_lt_irrefl in He.
Qed.

Lemma find_entry_below es key :
  (forall e, e ∈ es -> key_lt (fst e) key) -> find_entry es key = None.
Proof.
  intros H. apply find_entry_None. intros (e & -> & He)%list_elem_of_fmap.
  apply H in He. by apply key_lt_irrefl in He.
Qed.

Lemma find_entry_app a b key :
  find_entry (a ++ b) key = match find_entry a key with Some v => Some v | None => find_entry b key end.
Proof.
  induction a as [|[k v] a IH]; [done|]. cbn [app]. rewrite !find_entry_cons.
  by destruct (key_eqb k key).
Qed.

(** [scan_block] on a block of sorted records finds what is there. *)
Lemma scan_block_loop_spec es key : forall fuel,
  (length (records es) <= fuel)%nat -> entries_sorted es -> Forall entry_fits es -> seqs_ok es ->
  scan_block_loop fuel (records es) key = Some (answer_of (find_entry es key)).
Proof.
  induction es as [|e es IH]; intros fuel Hfuel Hs Hf Hq.
  { by destruct fuel. }
  destruct (records_not_nil e es) as (b & rest & E).
  destruct fuel as [|fuel]; [rewrite E in Hfuel; cbn in Hfuel; lia|].
  cbn [scan_block_loop]. rewrite E, <- E, records_cons.
  inversion_clear Hf as [|? ? Hfe Hf']. inversion_clear Hq as [|? ? Hqe Hq'].
  apply StronglySorted_inv in Hs as [Hs Hlt].
  rewrite take_record_app by done. destruct e as [k [s v]]. cbn [mbind option_bind].
  rewrite find_entry_cons. rewrite records_cons, length_app in Hfuel.
  pose proof (record_bytes_length (k, (s, v))) as L. unfold zlen in L.
  destruct (bytes_cmp_spec k key) as [->|Hk|Hk].
  - destruct (key_eqb_spec key key); [|done]. by destruct v.
  - destruct (key_eqb_spec k key) as [->|]; [by apply key_lt_irrefl in Hk|]. apply IH; [lia|done..].
  - destruct (key_eqb_spec k key) as [->|]; [by apply key_lt_irrefl in Hk|].
    rewrite find_entry_above; [done|]. intros e He. rewrite Forall_forall in Hlt.
    specialize (Hlt e He). unfold entry_lt in Hlt. cbn in Hlt. key_order.
Qed.

Lemma partition_point_split {A} (pred : A -> bool) l :
  exists a b, l = a ++ b /\ length a = partition_point pred l /\ (forall x, x ∈ a -> pred x = true) /\
    (forall x, head b = Some x -> pred x = false).
Proof.
  induction l as [|x l IH]; cbn.
  - exists [], []. split_and!; try done. intros ? []%elem_of_nil.
  - destruct (pred x) eqn:E.
    + destruct IH as (a & b & -> & Hl & Ha & Hb). exists (x :: a), b. split_and!; cbn; try done; [lia|].
      intros y [->|]%elem_of_cons; auto.
    + exists [], (x :: l). split_and!; cbn; try done; [intros ? []%elem_of_nil|]. by intros ? [= <-].
Qed.

Lemma partition_point_fmap {A B} (f : A -> B) (pred : B -> bool) l :
  partition_point pred (f <$> l) = partition_point (fun x => pred (f x)) l.
Proof. induction l as [|x l IH]; cbn; [done|]. by rewrite IH. Qed.

Lemma first_key_le es e : entries_sorted es -> e ∈ es -> key_le (first_key es) (fst e).
Proof.
  intros Hs He. destruct es as [|[k v] es]; [by apply elem_of_nil in He|]. cbn.
  apply StronglySorted_inv in Hs as [_ F]. apply elem_of_cons in He as [->|He]; cbn; [key_order|].
  rewrite Forall_forall in F. specialize (F e He). unfold entry_lt in F. cbn in F. key_order.
Qed.

Lemma last_key_ge es e : entries_sorted es -> e ∈ es -> key_le (fst e) (last_key es).
Proof.
  intros Hs He. destruct es as [|e' es' _] using rev_ind; [by apply elem_of_nil in He|].
  rewrite last_key_snoc. apply entries_sorted_app in Hs as (_ & _ & H).
  apply elem_of_app in He as [He|He]; [|apply list_elem_of_singleton in He as ->; key_order].
  specialize (H e e' He ltac:(left)). unfold entry_lt in H. key_order.
Qed.

(** The one block that can hold a key does hold it. *)
Lemma find_entry_groups a g b key :
  entries_sorted (concat (a ++ g :: b)) -> g <> [] -> Forall (fun g => g <> []) b ->
  key_le (first_key g) key ->
  (forall h, head b = Some h -> key_lt key (first_key h)) ->
  find_entry (concat (a ++ g :: b)) key = find_entry g key.
Proof.
  intros Hs Hg Hb Hle Hgt. rewrite concat_app in *. cbn [concat] in *. rewrite !find_entry_app.
  apply entries_sorted_app in Hs as (Ha & Hs & Hag). apply entries_sorted_app in Hs as (Hsg & Hsb & Hgb).
  rewrite (find_entry_below (concat a)).
  - destruct (find_entry g key) eqn:E; [done|]. apply find_entry_above. intros e He.
    destruct b as [|h b]; [by apply elem_of_nil in He|]. specialize (Hgt h eq_refl).
    inversion_clear Hb as [|? ? Hh _]. pose proof (first_key_le _ e Hsb He) as Hk. cbn [concat] in Hk.
    rewrite first_key_app in Hk by done. key_order.
  - intros e He. destruct g as [|[k v] g]; [done|].
    assert (entry_lt e (k, v)) as Hlt by (apply Hag; [done|left]). unfold entry_lt in Hlt. cbn in *. key_order.
Qed.

Lemma layout_lookup a g b :
  layout 0 (a ++ g :: b) !! length a =
  Some (mkBlockRef (first_key g) (wrap64 (zlen (blocks_bytes a))) (zlen (checked (records g)))).
Proof.
  rewrite layout_app, lookup_app_r.
  - replace (length a - length (layout 0 a))%nat with O; [done|].
    rewrite <- (length_fmap br_first_key), layout_first_keys, length_fmap. lia.
  - rewrite <- (length_fmap br_first_key), layout_first_keys, length_fmap. lia.
Qed.

(** A block of a written file reads back as its records. *)
Lemma read_block path a g b :
  zlen (table_bytes (a ++ g :: b)) <= u64_max ->
  region path (table_bytes (a ++ g :: b)) (wrap64 (zlen (blocks_bytes a)))
    (zlen (checked (records g))) = Ok (records g).
Proof.
  intros Hlen. destruct (table_bytes_eq _ Hlen) as (_ & B2 & _ & _ & ->).
  rewrite blocks_bytes_app, blocks_bytes_cons in B2 |- *. rewrite <- !app_assoc.
  apply region_mid; [|done]. apply wrap64_small. rewrite !zlen_app in B2.
  pose proof (zlen_nonneg (blocks_bytes a)). pose proof (zlen_nonneg (checked (records g))).
  pose proof (zlen_nonneg (blocks_bytes b)). destruct B2. split; lia.
Qed.

Lemma filter_of_contains es key v : (key, v) ∈ es -> may_contain (filter_of es) key = true.
Proof.
  intros H. apply may_contain_hash_build, list_elem_of_fmap_2.
  apply list_elem_of_fmap. by exists (key, v).
Qed.

(** [sst_holds t es]: the table is open on a file written from exactly [es]. *)
Definition sst_holds (t : SsTable) (es : list entry) : Prop :=
  exists groups, concat groups = es /\ groups_ok groups /\ zlen (table_bytes groups) <= u64_max /\
    entries_sorted es /\ seqs_ok es /\ t = opened_table (st_path t) groups.

Lemma sst_holds_sorted t es : sst_holds t es -> entries_sorted es.
Proof. by intros (?&?&?&?&?&?). Qed.

Lemma sst_holds_range t es : sst_holds t es -> st_min_key t = first_key es /\ st_max_key t = last_key es.
Proof. intros (groups & <- & _ & _ & _ & _ & ->). done. Qed.

Lemma sst_get_block t groups key :
  groups_ok groups -> zlen (table_bytes groups) <= u64_max ->
  entries_sorted (concat groups) -> seqs_ok (concat groups) -> t = opened_table (st_path t) groups ->
  let candidate := partition_point (fun block => key_leb (br_first_key block) key) (st_blocks t) in
  match (if (0 <? candidate)%nat then st_blocks t !! (candidate - 1)%nat else None) with
  | None => find_entry (concat groups) key = None
  | Some block =>
      exists g, region (st_path t) (st_file t) (br_offset block) (br_len block) = Ok (records g) /\
        scan_block (records g) key = Some (answer_of (find_entry (concat groups) key))
  end.
Proof.
  intros [Hf Hl _ _] Hlen Hs Hq ->.
  cbn [opened_table st_path st_file st_blocks]. generalize (st_path t). clear t. intros path.
  assert (partition_point (fun block => key_leb (br_first_key block) key) (layout 0 groups) =
    partition_point (fun g => key_leb (first_key g) key) groups) as ->.
  { rewrite <- (partition_point_fmap br_first_key (fun k => key_leb k key)), layout_first_keys.
    apply partition_point_fmap. }
  cbn zeta. assert (Forall (fun g => g <> []) groups) as Hne by (eapply Forall_impl; [exact Hl|]; by intros ? [? _]).
  destruct (partition_point_split (fun g => key_leb (first_key g) key) groups) as (a & b & -> & <- & Ha & Hb).
  assert (forall h, head b = Some h -> key_lt key (first_key h)) as Hb'.
  { intros h Hh. specialize (Hb h Hh). cbv beta in Hb.
    destruct (key_leb_spec (first_key h) key); [done|]. by apply key_not_le. }
  apply Forall_app in Hne as [Hna Hnb].
  destruct a as [|g a _] using rev_ind.
  - cbn in *. apply find_entry_above. intros e He.
    destruct b as [|h b]; [by apply elem_of_nil in He|]. specialize (Hb' h eq_refl).
    inversion_clear Hnb as [|? ? Hh _]. pose proof (first_key_le _ e Hs He) as Hk. cbn [concat] in Hk.
    rewrite first_key_app in Hk by done. key_order.
  - rewrite length_app, Nat.add_1_r. cbn [length]. replace (0 <? S (length a))%nat with true by done.
    replace (S (length a) - 1)%nat with (length a) by lia. rewrite <- app_assoc in *. cbn [app] in *.
    rewrite layout_lookup. cbn [br_offset br_len]. exists g. split; [by apply read_block|].
    apply Forall_app in Hna as [_ Hg]. inversion_clear Hg as [|? ? Hg' _].
    specialize (Ha g ltac:(apply elem_of_app; right; left)). cbv beta in Ha.
    destruct (key_leb_spec (first_key g) key) as [Hgk|]; [|done].
    rewrite find_entry_groups by done.
    rewrite concat_app in Hf, Hs, Hq. cbn [concat] in Hf, Hs, Hq.
    apply scan_block_loop_spec; [done|..].
    + apply entries_sorted_app in Hs as (_ & Hs & _). by apply entries_sorted_app in Hs as (Hs & _ & _).
    + apply Forall_app in Hf as [_ Hf]. by apply Forall_app in Hf as [Hf _].
    + apply Forall_app in Hq as [_ Hq]. by apply Forall_app in Hq as [Hq _].
Qed.

(** A lookup answers from the entries. *)
Lemma sst_lookup_holds t es key :
  sst_holds t es -> sst_lookup t key = Ok (answer_of (find_entry es key)).
Proof.
  intros (groups & <- & Hok & Hlen & Hs & Hq & Ht).
  pose proof (sst_get_block t groups key Hok Hlen Hs Hq Ht) as Hget. cbn zeta in Hget.
  assert (st_min_key t = first_key (concat groups)) as Hmin by by rewrite Ht.
  assert (st_max_key t = last_key (concat groups)) as Hmax by by rewrite Ht.
  assert (st_filter t = filter_of (concat groups)) as Hfil by by rewrite Ht.
  unfold sst_lookup, block_for, lookup_in. rewrite Hmin, Hmax, Hfil. cbn zeta.
  destruct (find_entry (concat groups) key) as [v|] eqn:E.
  - pose proof (find_entry_Some_in _ _ _ E) as Hin.
    pose proof (first_key_le _ _ Hs Hin) as Hlo. pose proof (last_key_ge _ _ Hs Hin) as Hhi. cbn in Hlo, Hhi.
    destruct (key_ltb_spec key (first_key (concat groups))); [by apply key_not_lt in Hlo|].
    destruct (key_ltb_spec (last_key (concat groups)) key); [by apply key_not_lt in Hhi|].
    rewrite (filter_of_contains _ _ _ Hin). cbn [orb negb].
    destruct (if (0 <? _)%nat then _ else None) as [block|]; [|done].
    destruct Hget as (g & Hr & Hsc). rewrite Hr. cbn [mbind result_bind]. by rewrite Hsc.
  - destruct (key_ltb _ _ || key_ltb _ _); [done|]. destruct (negb _); [done|].
    destruct (if (0 <? _)%nat then _ else None) as [block|]; [|done].
    destruct Hget as (g & Hr & Hsc). rewrite Hr. cbn [mbind result_bind]. by rewrite Hsc.
Qed.

(** ** The calls of a read *)

Lemma read_checked_reads path file offset len : reads_as (read_checked path file offset len) (region path file offset len).
Proof.
  unfold read_checked, region. destruct (len <? CRC_LEN); [auto with reads|].
  apply reads_bind; [apply reads_call|auto with reads].
Qed.
#[export] Hint Resolve read_checked_reads : reads.

Lemma sst_open_reads path file : reads_as (sst_open path file) (sst_opened path file).
Proof.
  unfold sst_open, sst_opened. eapply reads_then; [apply reads_call|].
  destruct (zlen file <? FOOTER_LEN); [auto with reads|].
  apply reads_bind; [apply reads_call|]. intros footer _. apply reads_bind; [auto with reads|]. intros [[[[io il] fo] fl] n] _.
  apply reads_bind; [auto with reads|]. intros index _. apply reads_bind; [auto with reads|]. intros [[mn mx] blocks] _.
  apply reads_bind; [auto with reads|]. intros filter _. apply reads_bind; auto with reads.
Qed.

(** A lookup reads at most one block, and counts it, whether or not the read fails. *)
Lemma sst_get_reads t key n w : exists w',
  snd (sst_get t key (n, w)) = (match block_for t key with Some _ => wrap64 (n + 1) | None => n end, w') /\
  ((fst (sst_get t key (n, w)) = sst_lookup t key /\ read_through w w' None) \/
   exists err, fst (sst_get t key (n, w)) = Err err /\ read_through w w' (Some err)).
Proof.
  unfold sst_get, sst_lookup. destruct (block_for t key) as [block|].
  2:{ exists w. split; [done|]. left. auto with reads. }
  assert (reads_as (bs ← read_checked (st_path t) (st_file t) (br_offset block) (br_len block); lift (lookup_in (st_path t) bs key))
    (bs ← region (st_path t) (st_file t) (br_offset block) (br_len block); lookup_in (st_path t) bs key)) as H.
  { apply reads_bind; auto with reads. }
  specialize (H w). destruct ((bs ← read_checked _ _ _ _; _) w) as [r w']. by exists w'.
Qed.

Lemma sst_get_at_reads t key n : reads_as (sst_get_at t key n) (sst_lookup t key).
Proof.
  intros w. unfold sst_get_at. destruct (sst_get_reads t key n w) as (w' & E & H).
  destruct (sst_get t key (n, w)) as [r [n' w1]]. cbn [fst snd] in *. by injection E as _ ->.
Qed.

(** ** Scans *)

(** Where a scan stands: [before] has been handed out of the block in its buffer,
    [cur] is what is left of it, and the blocks of [b] are still to be read. *)
Definition scan_at (groups : list (list entry)) (sc : Scan) (rest : list entry) : Prop :=
  exists a b before cur,
    groups = a ++ b /\ rest = cur ++ concat b /\ (exists path, sc_table sc = opened_table path groups) /\
    sc_next_block sc = length a /\ sc_buffer sc = records before ++ records cur /\
    sc_offset sc = zlen (records before) /\ sc_failed sc = false /\
    Forall entry_fits cur /\ seqs_ok cur.

Lemma scan_loop_in_block fuel table next before e cur failed w :
  entry_fits e -> u64_ok (fst (snd e)) ->
  scan_loop (S fuel) (mkScan table next (records before ++ records (e :: cur)) (zlen (records before)) failed) w =
  (Some (Ok e), (mkScan table next (records (before ++ [e]) ++ records cur) (zlen (records (before ++ [e]))) failed, w)).
Proof.
  intros Hf Hq. cbn [scan_loop]. rewrite records_app, records_one, records_cons, <- app_assoc.
  pose proof (record_bytes_length e). pose proof (zlen_nonneg (records cur)).
  destruct (Z.ltb_spec (zlen (records before)) (zlen (records before ++ record_bytes e ++ records cur)));
    [|rewrite !zlen_app in *; lia].
  rewrite slice_app_r by (rewrite ?zlen_app; done). rewrite take_record_app by done.
  do 4 f_equal. rewrite !zlen_app. lia.
Qed.

(** A scan hands out the next entry, or the error of a call that failed, and then
    nothing any more. *)
Lemma scan_next_spec groups sc rest w :
  groups_ok groups -> seqs_ok (concat groups) -> zlen (table_bytes groups) <= u64_max ->
  scan_at groups sc rest ->
  let '(item, (sc', w')) := scan_next sc w in
  match rest with
  | [] => item = None /\ sc' = sc /\ w' = w
  | e :: rest' =>
      (item = Some (Ok e) /\ scan_at groups sc' rest' /\ read_through w w' None) \/
      (exists err, item = Some (Err err) /\ sc_failed sc' = true /\ read_through w w' (Some err))
  end.
Proof.
  intros [Hf Hl _ _] Hq Hlen (a & b & before & cur & Hg & -> & (path & Ht) & Hn & Hb & Ho & Hfail & Hcf & Hcq).
  destruct sc as [table next buffer offset failed]. cbn in *. subst.
  unfold scan_next. cbn [sc_failed sc_table sc_next_block].
  cbn [opened_table st_blocks].
  assert (length (layout 0 (a ++ b)) = length (a ++ b)) as ->.
  { rewrite <- (length_fmap br_first_key), layout_first_keys. by rewrite length_fmap. }
  destruct cur as [|e cur].
  - destruct b as [|g b]; cbn [app concat].
    + rewrite app_nil_r. replace (length a - length a)%nat with O by lia. cbn [scan_loop].
      rewrite app_nil_r, Z.ltb_irrefl. cbn [opened_table st_blocks].
      rewrite lookup_ge_None_2; [done|].
      rewrite <- (length_fmap br_first_key), layout_first_keys, length_fmap. lia.
    + rewrite length_app. replace (length a + length (g :: b) - length a)%nat with (S (length b)) by (cbn; lia).
      rewrite concat_app in Hf, Hq. cbn [concat] in Hf, Hq.
      apply Forall_app in Hf as [_ [Hfg _]%Forall_app]. apply Forall_app in Hq as [_ [Hqg _]%Forall_app].
      apply Forall_app in Hl as [_ [[Hne _] _]%Forall_cons]. destruct g as [|e g]; [done|].
      inversion_clear Hfg as [|? ? Hfe Hfg']. inversion_clear Hqg as [|? ? Hqe Hqg'].
      cbn [app]. remember (S (length b)) as fuel eqn:Efuel. cbn [scan_loop].
      rewrite app_nil_r, Z.ltb_irrefl. cbn [opened_table st_blocks st_path st_file].
      rewrite layout_lookup. cbn [br_offset br_len].
      pose proof (read_checked_reads path (table_bytes (a ++ (e :: g) :: b)) (wrap64 (zlen (blocks_bytes a)))
        (zlen (checked (records (e :: g)))) w) as Hr. rewrite read_block in Hr by done.
      destruct (read_checked _ _ _ _ w) as [r w1]. cbn [fst snd] in Hr. destruct Hr as [[-> Hr]|(err & -> & Hr)]; [|right; by exists err].
      subst fuel. change (records (e :: g)) with (records [] ++ records (e :: g)).
      change 0 with (zlen (records [])) at 1. rewrite scan_loop_in_block by done. left. split; [done|]. split; [|done].
      exists (a ++ [e :: g]), b, ([] ++ [e]), g. cbn [snd sc_table sc_next_block sc_buffer sc_offset sc_failed].
      split_and!; try done; [by rewrite <- app_assoc|by eauto|]. rewrite length_app. cbn. lia.
  - cbn [app]. inversion_clear Hcf as [|? ? Hfe Hcf']. inversion_clear Hcq as [|? ? Hqe Hcq'].
    rewrite scan_loop_in_block by done. left. split; [done|]. split; [|apply read_through_refl].
    exists a, b, (before ++ [e]), cur. cbn [snd sc_table sc_next_block sc_buffer sc_offset sc_failed].
    split_and!; try done. by eauto.
Qed.

Lemma scan_collect_at groups sc rest : forall fuel,
  groups_ok groups -> seqs_ok (concat groups) -> zlen (table_bytes groups) <= u64_max ->
  scan_at groups sc rest -> (length rest < fuel)%nat ->
  reads_as (scan_collect fuel sc) (Ok (Some rest)).
Proof.
  revert sc. induction rest as [|e rest IH]; intros sc fuel Hok Hq Hlen Hat Hfuel w;
    (destruct fuel as [|fuel]; [cbn in Hfuel; lia|]); cbn [scan_collect];
    pose proof (scan_next_spec _ _ _ w Hok Hq Hlen Hat) as H; destruct (scan_next sc w) as [r [sc' w']].
  - destruct H as (-> & _ & ->). left. auto with reads.
  - destruct H as [(-> & Hat' & Hr)|(err & -> & _ & Hr)]; [|right; by exists err].
    assert (reads_as (es ← scan_collect fuel sc'; mret (cons e <$> es)) (Ok (Some (e :: rest)))) as H.
    { eapply reads_then; [apply IH; try done; cbn in Hfuel; lia|apply reads_ret]. }
    destruct (H w') as [[E H2]|(err & E & H2)]; [left|right; exists err]; (split; [exact E|]); by eapply read_through_trans.
Qed.

Lemma sst_scan_holds t es fuel :
  sst_holds t es -> (length es < fuel)%nat -> reads_as (scan_collect fuel (sst_scan t)) (Ok (Some es)).
Proof.
  intros (groups & <- & Hok & Hlen & Hs & Hq & Ht) Hfuel.
  apply (scan_collect_at groups); try done.
  exists [], groups, [], []. cbn. split_and!; try done; [by eauto|constructor..].
Qed.

(** ** When writing succeeds *)

(** Half a gigabyte of records: what every length field holds with room to spare. *)
Definition TABLE_LIMIT : Z := 2 ^ 29.

Lemma record_bytes_key e : 13 + zlen (fst e) + zlen (default [] (snd (snd e))) <= zlen (record_bytes e).
Proof. destruct e as [key [seq [value|]]]; unfold record_bytes; cbn; autorewrite with lsm; lia. Qed.

Lemma close_block_succeeds w :
  zlen (w_block w) <= TABLE_LIMIT -> exists w', close_block w = (Ok tt, w').
Proof.
  intros Hlen. unfold close_block. destruct (w_block w) eqn:E; [by eauto|]. rewrite <- E in *.
  unfold on_block, writer_write, push_block_ref, extend. run_stm. writer_cbn.
  rewrite length_of_small; [by eauto|]. rewrite zlen_app, zlen_to_le. unfold TABLE_LIMIT, u32_max in *. lia.
Qed.

Lemma writer_add_succeeds w groups cur e :
  writer_inv w groups cur -> zlen (records cur) + zlen (record_bytes e) <= TABLE_LIMIT ->
  exists w', writer_add (fst e) (fst (snd e)) (snd (snd e)) w = (Ok tt, w').
Proof.
  destruct e as [key [seq value]]. intros Hinv Hlen. cbn [fst snd].
  pose proof (record_bytes_key (key, (seq, value))) as Hk. cbn [fst snd] in Hk.
  pose proof (zlen_nonneg (records cur)). pose proof (zlen_nonneg key). pose proof (zlen_nonneg (default [] value)).
  rewrite writer_add_eq by (unfold TABLE_LIMIT, u32_max in *; lia). cbn zeta.
  destruct (BLOCK_SIZE <=? _); [|by eexists]. apply close_block_succeeds. writer_cbn.
  by rewrite (wi_block _ _ _ Hinv), zlen_app.
Qed.

Lemma writer_adds_succeed es : forall w groups cur,
  writer_inv w groups cur -> zlen (records (concat groups ++ cur)) + zlen (records es) <= TABLE_LIMIT ->
  exists w', visit_all writer_add es w = (Ok tt, w').
Proof.
  induction es as [|[key [seq value]] es IH]; intros w groups cur Hinv Hlen; cbn [visit_all]; [by eexists|].
  rewrite records_cons, zlen_app in Hlen. rewrite records_app, zlen_app in Hlen.
  pose proof (zlen_nonneg (records (concat groups))). pose proof (zlen_nonneg (records es)).
  destruct (writer_add_succeeds w groups cur (key, (seq, value)) Hinv) as [w' Hadd]; [lia|]. cbn [fst snd] in Hadd.
  run_stm. rewrite Hadd. destruct (writer_add_inv _ _ _ _ _ _ _ Hinv Hadd) as (g' & c' & Hinv' & Hcat).
  apply (IH _ g' c' Hinv'). rewrite Hcat, !records_app, records_one, !zlen_app. lia.
Qed.

Lemma first_key_length es : zlen (first_key es) <= zlen (records es).
Proof.
  destruct es as [|[k v] es]; [done|]. rewrite records_cons, zlen_app. cbn [first_key].
  pose proof (record_bytes_key (k, v)) as H. pose proof (zlen_nonneg (records es)).
  pose proof (zlen_nonneg (default [] (snd (snd (k, v))))). cbn [fst] in H. lia.
Qed.

Lemma last_key_length es : zlen (last_key es) <= zlen (records es).
Proof.
  destruct es as [|e es _] using rev_ind; [done|]. rewrite last_key_snoc, records_app, records_one, zlen_app.
  pose proof (record_bytes_key e). pose proof (zlen_nonneg (records es)).
  pose proof (zlen_nonneg (default [] (snd (snd e)))). lia.
Qed.

Lemma index_entries_length groups : forall offset,
  Forall (fun g => g <> []) groups ->
  zlen (concat (index_entry_bytes <$> layout offset groups)) <= 2 * zlen (records (concat groups)).
Proof.
  induction groups as [|g groups IH]; intros offset HF; [done|].
  inversion_clear HF as [|? ? Hg HF']. cbn [layout fmap list_fmap concat].
  rewrite records_app, !zlen_app.
  specialize (IH (offset + zlen (checked (records g))) HF').
  unfold index_entry_bytes at 1. cbn [br_first_key br_offset br_len]. autorewrite with lsm.
  destruct g as [|[k v] g]; [done|]. cbn [first_key]. rewrite records_cons, zlen_app.
  pose proof (record_bytes_key (k, v)) as H. pose proof (zlen_nonneg (records g)). pose proof (zlen_nonneg k).
  pose proof (zlen_nonneg (default [] (snd (snd (k, v))))). cbn [fst] in H.
  rewrite records_cons in IH. lia.
Qed.

Lemma filter_of_length es : zlen es <= TABLE_LIMIT -> zlen (as_bytes (filter_of es)) <= 2 * zlen es + 16.
Proof.
  intros Hlen. unfold filter_of. pose proof (bloom_build_length (bloom_hash <$> es.*1) BITS_PER_KEY) as H.
  assert (zlen (bloom_hash <$> es.*1) = zlen es) as E by (unfold zlen; by rewrite !length_fmap).
  rewrite E in H. unfold as_bytes. rewrite H. pose proof (zlen_nonneg es).
  unfold BITS_PER_KEY, TABLE_LIMIT in *. rewrite wrap64_small by (unfold u64_ok, u64_max; lia).
  unfold div_ceil8, MIN_BITS. pose proof (Z.div_mod (Z.max (zlen es * 10) 64 + 7) 8).
  pose proof (Z.mod_pos_bound (Z.max (zlen es * 10) 64 + 7) 8). lia.
Qed.

Lemma blocks_bytes_bound groups :
  Forall (fun g => g <> []) groups -> zlen (blocks_bytes groups) <= 2 * zlen (records (concat groups)).
Proof.
  induction 1 as [|g groups Hg _ IH]; [done|]. rewrite blocks_bytes_cons. cbn [concat].
  rewrite records_app, !zlen_app, zlen_checked. destruct g as [|e g]; [done|]. rewrite records_cons, zlen_app.
  pose proof (record_bytes_length e). pose proof (zlen_nonneg (records g)). lia.
Qed.

Lemma write_table_total path es :
  zlen (records es) <= TABLE_LIMIT ->
  exists w, write_table path es = (Ok tt, w) /\ zlen (w_file w) <= u64_max.
Proof.
  intros Hlen. destruct (writer_adds_succeed es (writer_create path) [] []) as [w1 Hadd]; [done..|].
  destruct (writer_adds_inv _ _ _ _ _ (writer_inv_create path) Hadd) as (g & c & Hinv & Hcat). cbn in Hcat.
  rewrite <- Hcat in Hlen. pose proof Hlen as Hlen'. rewrite records_app, zlen_app in Hlen'.
  pose proof (zlen_nonneg (records (concat g))).
  destruct (close_block_succeeds w1) as [w2 Hc]; [rewrite (wi_block _ _ _ Hinv); lia|].
  pose proof (close_block_inv _ _ _ _ Hinv Hc) as Hinv2.
  set (groups := g ++ match c with [] => [] | _ => [c] end) in *.
  assert (concat groups = es) as Hcat'.
  { subst groups. rewrite concat_app. destruct c; cbn; rewrite ?app_nil_r in *; done. }
  assert (write_table path es = writer_finish w2) as ->.
  { unfold write_table. run_stm. rewrite Hadd. apply writer_finish_close; [done|]. apply (wi_block _ _ _ Hinv2). }
  rewrite Hcat in Hlen. pose proof (records_length es) as Hrec. pose proof (zlen_nonneg es).
  assert (Forall (fun g => g <> []) groups) as Hne.
  { eapply Forall_impl; [exact (wi_lens _ _ _ Hinv2)|]. by intros ? [? _]. }
  pose proof (index_entries_length groups 0 Hne) as Hi. rewrite Hcat' in Hi.
  pose proof (filter_of_length es ltac:(lia)) as Hfl.
  assert (zlen (index_bytes groups) <= 8 + 4 * zlen (records es)) as Hil.
  { unfold index_bytes. rewrite Hcat', !zlen_app, !zlen_field.
    pose proof (first_key_length es). pose proof (last_key_length es). lia. }
  unfold TABLE_LIMIT in Hlen. pose proof (writer_finish_eq w2 groups Hinv2) as Heq. cbn zeta in Heq.
  rewrite Hcat', !zlen_checked in Heq. specialize (Heq ltac:(unfold u64_max; lia)). destruct (writer_finish w2) as [[[]|] w3].
  - exists w3. destruct Heq as (_ & _ & ->). split; [done|]. unfold table_bytes. rewrite !zlen_app, !zlen_checked, Hcat'.
    pose proof (blocks_bytes_bound groups Hne) as Hb. rewrite Hcat' in Hb.
    assert (forall a b c d e, zlen (build_footer a b c d e) = 48) as -> by
      (intros; unfold build_footer; by autorewrite with lsm). unfold u64_max. lia.
  - destruct Heq. unfold u32_max. lia.
Qed.

(** ** Damage *)

Lemma slice_disjoint {A} (pre x x' post : list A) i j :
  length x = length x' -> 0 <= i -> j <= zlen pre \/ zlen pre + zlen x <= i ->
  slice (pre ++ x' ++ post) i j = slice (pre ++ x ++ post) i j.
Proof.
  intros Hl Hi Hd. unfold slice, zlen in *. destruct (decide (j <= i)).
  { replace (Z.to_nat (j - i)) with O by lia. by rewrite !take_0. }
  destruct Hd.
  - rewrite !drop_app_le, !take_app_le by (rewrite ?length_drop; lia). done.
  - rewrite !(drop_app_ge pre), !drop_app_ge by lia. by rewrite Hl.
Qed.

Lemma region_disjoint path pre x x' post offset len :
  length x = length x' -> 0 <= offset -> offset + len <= zlen pre \/ zlen pre + zlen x <= offset ->
  region path (pre ++ x' ++ post) offset len = region path (pre ++ x ++ post) offset len.
Proof.
  intros Hl Ho Hd. unfold region, bytes_at.
  rewrite (slice_disjoint pre x x' post) by done. rewrite !zlen_app.
  replace (zlen x') with (zlen x); [done|]. unfold zlen. by rewrite Hl.
Qed.

(** Damage of at most four bytes inside a checked body is noticed. *)
Lemma region_burst path pre m1 x x' m2 post offset len :
  length x = length x' -> (length x <= 4)%nat -> x <> x' ->
  offset = zlen pre -> len = zlen (checked (m1 ++ x ++ m2)) ->
  region path (pre ++ (m1 ++ x' ++ m2 ++ to_le 4 (crc32 (m1 ++ x ++ m2))) ++ post) offset len =
  Err (Corrupt path "checksum mismatch").
Proof.
  intros Hl Hs Hne Ho Hlen. unfold region. rewrite zlen_checked in Hlen.
  assert (zlen x' = zlen x) as Hzx by (unfold zlen; by rewrite Hl).
  pose proof (zlen_nonneg (m1 ++ x ++ m2)) as Hp. unfold CRC_LEN.
  destruct (Z.ltb_spec len 4); [lia|].
  rewrite bytes_at_mid; [|done|autorewrite with lsm; rewrite !zlen_app in Hlen; lia].
  cbn [mbind result_bind]. unfold verified, CRC_LEN.
  replace (m1 ++ x' ++ m2 ++ to_le 4 (crc32 (m1 ++ x ++ m2)))
    with ((m1 ++ x' ++ m2) ++ to_le 4 (crc32 (m1 ++ x ++ m2)) ++ []) by by rewrite app_nil_r, <- !app_assoc.
  assert (len - 4 = zlen (m1 ++ x' ++ m2)) as E by (rewrite !zlen_app in *; lia).
  rewrite slice_app_l, u32_at_app by auto using crc32_range.
  destruct (Z.eqb_spec (crc32 (m1 ++ x' ++ m2)) (crc32 (m1 ++ x ++ m2))) as [Eq|]; [|done].
  exfalso. apply Hne. symmetry. by apply (crc32_burst m1 x' x m2); [lia|lia|].
Qed.

Lemma layout_elem groups b :
  b ∈ layout 0 groups -> exists a g c, groups = a ++ g :: c /\
    b = mkBlockRef (first_key g) (wrap64 (zlen (blocks_bytes a))) (zlen (checked (records g))).
Proof.
  intros [i Hi]%list_elem_of_lookup. assert (exists g, groups !! i = Some g) as [g Hg].
  { apply lookup_lt_is_Some. apply lookup_lt_Some in Hi.
    rewrite <- (length_fmap br_first_key), layout_first_keys, length_fmap in Hi. done. }
  apply list_elem_of_split_length in Hg as (a & c & -> & ->). rewrite layout_lookup in Hi.
  injection Hi as <-. eauto.
Qed.

(** Two blocks of one file are the same block or do not overlap. *)
Lemma blocks_disjoint a g c a' g' c' :
  a ++ g :: c = a' ++ g' :: c' ->
  (a = a' /\ g = g') \/
  zlen (blocks_bytes a) + zlen (checked (records g)) <= zlen (blocks_bytes a') \/
  zlen (blocks_bytes a') + zlen (checked (records g')) <= zlen (blocks_bytes a).
Proof.
  intros H. destruct (Nat.lt_trichotomy (length a) (length a')) as [L|[L|L]].
  - right. left. apply (f_equal (take (length a'))) in H.
    rewrite take_app_length, take_app_ge in H by lia. rewrite <- H, blocks_bytes_app, zlen_app.
    destruct (length a' - length a)%nat eqn:E; [lia|]. cbn [take]. rewrite blocks_bytes_cons, zlen_app.
    match goal with |- _ <= _ + (_ + zlen ?y) => pose proof (zlen_nonneg y) end. lia.
  - apply app_inj_1 in H as [-> [= -> _]]; [|done]. by left.
  - right. right. apply (f_equal (take (length a))) in H. symmetry in H.
    rewrite take_app_length, take_app_ge in H by lia. rewrite <- H, blocks_bytes_app, zlen_app.
    destruct (length a - length a')%nat eqn:E; [lia|]. cbn [take]. rewrite blocks_bytes_cons, zlen_app.
    match goal with |- _ <= _ + (_ + zlen ?y) => pose proof (zlen_nonneg y) end. lia.
Qed.

(** A table whose file has been damaged behind its back. *)
Definition with_file (t : SsTable) (file : bytes) : SsTable :=
  mkSsTable (st_path t) file (st_blocks t) (st_filter t) (st_min_key t)
    (st_max_key t) (st_entries t) (st_bytes t).

Lemma damaged_read t es b c pre x x' post :
  sst_holds t es -> b ∈ st_blocks t -> c ∈ st_blocks t -> st_file t = pre ++ x ++ post ->
  length x = length x' -> (length x <= 4)%nat -> x <> x' ->
  br_offset b <= zlen pre -> zlen pre + zlen x <= br_offset b + br_len b - CRC_LEN ->
  let r := region (st_path t) (pre ++ x' ++ post) (br_offset c) (br_len c) in
  r = region (st_path t) (st_file t) (br_offset c) (br_len c) \/
  r = Err (Corrupt (st_path t) "checksum mismatch").
Proof.
  intros (groups & _ & _ & Hlen & _ & _ & ->) Hb Hc Hfile Hl Hs Hne Hlo Hhi.
  cbn [opened_table st_path st_file st_blocks] in *. generalize (st_path t). clear t. intros path.
  apply layout_elem in Hb as (a & g & ta & -> & ->). apply layout_elem in Hc as (a' & g' & ta' & Eg & ->).
  cbn [br_offset br_len] in *. destruct (table_bytes_eq _ Hlen) as (_ & [_ B2] & _ & _ & Ht).
  assert (u64_ok (zlen (blocks_bytes a))) as Wa.
  { rewrite blocks_bytes_app, zlen_app in B2. pose proof (zlen_nonneg (blocks_bytes (g :: ta))).
    split; [apply zlen_nonneg|lia]. }
  assert (u64_ok (zlen (blocks_bytes a'))) as Wa'.
  { rewrite Eg, blocks_bytes_app, zlen_app in B2. pose proof (zlen_nonneg (blocks_bytes (g' :: ta'))).
    split; [apply zlen_nonneg|lia]. }
  rewrite !wrap64_small in * by done. unfold CRC_LEN in Hhi.
  destruct (blocks_disjoint _ _ _ _ _ _ Eg) as [[<- <-]|Hd].
  - right. rewrite Hfile in Ht. rewrite blocks_bytes_app, blocks_bytes_cons, <- !app_assoc in Ht.
    unfold checked at 1 in Ht. rewrite <- !app_assoc in Ht. rewrite zlen_checked in Hhi.
    apply window_inside in Ht as (m1 & m2 & -> & Hr & ->); [|lia..]. rewrite Hr.
    rewrite <- (app_assoc (blocks_bytes a)). rewrite 3!(app_assoc _ _ (blocks_bytes ta ++ _)).
    apply region_burst; done.
  - left. rewrite Hfile. apply region_disjoint; [done|apply Wa'|]. rewrite zlen_checked in Hhi, Hd. lia.
Qed.

(** ** What the engine relies on *)

Lemma write_table_holds path es w :
  write_table path es = (Ok tt, w) -> zlen (w_file w) <= u64_max -> entries_sorted es -> seqs_ok es ->
  exists t, sst_opened path (w_file w) = Ok t /\ sst_holds t es /\ st_path t = path.
Proof.
  intros Hw Hlen Hs Hq. destruct (write_table_shape _ _ _ Hw Hlen) as (groups & <- & Hok & Hfile).
  rewrite Hfile in *. exists (opened_table path groups). split; [by apply sst_opened_table|].
  split; [|done]. exists groups. by split_and!.
Qed.

(** C13: A file written from sorted entries reads back as those entries. When
    [Writer::add] and [Writer::finish] succeed and the file's length fits a
    [u64], [SsTable::open] accepts the file; every lookup, of a key that is there
    or not, answers exactly what the entries say (value, tombstone or missing)
    through range check, filter, index and block, counting the block it reads; and
    a scan hands out the entries themselves, in order, across all blocks. Each of
    the three may instead end with the error of one of its own calls that failed,
    and with no other error; where no call fails it does not. None touches the
    disk. *)
Theorem table_reads_back (path : string) (es : list entry) (w : Writer)
  (Hwrite : write_table path es = (Ok tt, w)) (Hlen : zlen (w_file w) <= u64_max)
  (Hsorted : entries_sorted es) (Hseqs : seqs_ok es) :
  exists t, reads_as (sst_open path (w_file w)) (Ok t) /\
    (forall key n, reads_as (sst_get_at t key n) (Ok (answer_of (find_entry es key)))) /\
    (forall key n world, exists world', snd (sst_get t key (n, world)) =
       (match block_for t key with Some _ => wrap64 (n + 1) | None => n end, world')) /\
    (forall fuel, (length es < fuel)%nat -> reads_as (scan_collect fuel (sst_scan t)) (Ok (Some es))) /\
    st_min_key t = first_key es /\ st_max_key t = last_key es.
Proof.
  destruct (write_table_holds _ _ _ Hwrite Hlen Hsorted Hseqs) as (t & Ht & Hh & _).
  exists t. split_and!; [rewrite <- Ht; apply sst_open_reads| |..].
  - intros key n. rewrite <- (sst_lookup_holds t es key Hh). apply sst_get_at_reads.
  - intros key n w0. destruct (sst_get_reads t key n w0) as (w' & E & _). by exists w'.
  - intros fuel. by apply sst_scan_holds.
  - by apply sst_holds_range in Hh as [? _].
  - by apply sst_holds_range in Hh as [_ ?].
Qed.

Definition demo_entries : list entry :=
  [(bstr "apple", (3, Some (bstr "red"))); (bstr "banana", (5, None)); (bstr "cherry", (4, Some []))].

Lemma demo_entries_sorted : entries_sorted demo_entries.
Proof. repeat constructor. Qed.

Lemma demo_entries_seqs : seqs_ok demo_entries.
Proof. repeat constructor; cbn; unfold u64_max; lia. Qed.

Lemma table_reads_back_witness :
  exists w t, write_table "t.sst" demo_entries = (Ok tt, w) /\ reads_as (sst_open "t.sst" (w_file w)) (Ok t) /\
    reads_as (sst_get_at t (bstr "apple") 0) (Ok (Found (bstr "red"))).
Proof.
  destruct (write_table "t.sst" demo_entries) as [r w] eqn:E.
  assert (r = Ok tt) as -> by (apply (f_equal fst) in E; vm_compute in E; done).
  destruct (table_reads_back "t.sst" demo_entries w E) as (t & Ht & Hget & _).
  - apply (f_equal snd) in E. cbn [snd] in E. rewrite <- E. vm_compute. discriminate.
  - apply demo_entries_sorted.
  - apply demo_entries_seqs.
  - exists w, t. split; [done|]. split; [done|]. exact (Hget (bstr "apple") 0).
Defined.

(** Writing does not fail for its size: entries whose records take up to
    half a gigabyte, in any number of blocks, always produce a file, with every
    block, the filter and the index within their four-byte length fields. *)
Theorem write_table_succeeds (path : string) (es : list entry)
  (Hsize : zlen (records es) <= TABLE_LIMIT) :
  exists w, write_table path es = (Ok tt, w) /\ zlen (w_file w) <= u64_max.
Proof. by apply write_table_total. Qed.

Lemma write_table_succeeds_witness :
  exists w, write_table "t.sst" demo_entries = (Ok tt, w) /\ zlen (w_file w) <= u64_max.
Proof. apply (write_table_succeeds "t.sst" demo_entries). vm_compute. discriminate. Defined.

(** C30: A damaged block never answers a lookup wrongly. Change any run of at
    most four bytes inside the records of one block of an open file: every lookup
    then either still gives the answer of the entries written, or reports a
    checksum mismatch, unless the call that reads the block fails with an error of
    its own. *)
Theorem damaged_block_never_lies (t : SsTable) (es : list entry) (b : BlockRef)
  (pre x x' post key : bytes) (n : Z) (w : World)
  (Hholds : sst_holds t es) (Hblock : b ∈ st_blocks t) (Hfile : st_file t = pre ++ x ++ post)
  (Hlen : length x = length x') (Hshort : (length x <= 4)%nat) (Hdiff : x <> x')
  (Hlo : br_offset b <= zlen pre) (Hhi : zlen pre + zlen x <= br_offset b + br_len b - CRC_LEN) :
  let '(r, w') := sst_get_at (with_file t (pre ++ x' ++ post)) key n w in
  (r = Ok (answer_of (find_entry es key)) /\ read_through w w' None) \/
  (r = Err (Corrupt (st_path t) "checksum mismatch") /\ read_through w w' None) \/
  (exists err, r = Err err /\ read_through w w' (Some err)).
Proof.
  pose proof (sst_get_at_reads (with_file t (pre ++ x' ++ post)) key n w) as H.
  destruct (sst_get_at _ key n w) as [r w']. cbn [fst snd] in H. destruct H as [[-> H]|H]; [|by right; right].
  pose proof (sst_lookup_holds t es key Hholds) as <-. unfold sst_lookup.
  change (block_for (with_file t (pre ++ x' ++ post)) key) with (block_for t key). cbn [with_file st_path st_file].
  destruct (block_for t key) as [c|] eqn:Ec; [|by left].
  assert (c ∈ st_blocks t) as Hc.
  { unfold block_for in Ec. destruct (key_ltb _ _ || key_ltb _ _); [done|]. destruct (negb _); [done|]. cbn zeta in Ec.
    destruct (0 <? _)%nat; [|done]. by apply list_elem_of_lookup_2 in Ec. }
  destruct (damaged_read t es b c pre x x' post) as [E|E]; try done; rewrite E; [by left|by right; left].
Qed.

Definition demo_table : SsTable :=
  match sst_opened "t.sst" (w_file (snd (write_table "t.sst" demo_entries))) with
  | Ok t => t
  | Err _ => mkSsTable EmptyString [] [] (mkBloom []) [] [] 0 0
  end.

Lemma demo_table_holds : sst_holds demo_table demo_entries.
Proof.
  destruct (write_table "t.sst" demo_entries) as [r w] eqn:E.
  assert (r = Ok tt) as -> by (apply (f_equal fst) in E; vm_compute in E; done).
  destruct (write_table_holds "t.sst" demo_entries w E) as (t & Ht & Hh & _).
  - apply (f_equal snd) in E. cbn [snd] in E. rewrite <- E. vm_compute. discriminate.
  - apply demo_entries_sorted.
  - apply demo_entries_seqs.
  - unfold demo_table. rewrite E. cbn [snd]. by rewrite Ht.
Qed.

(** Byte 23 is inside the first record: its value [red] becomes [rad]. *)
Lemma damaged_block_never_lies_witness :
  let w := calm_world in
  let '(r, w') := sst_get_at (with_file demo_table (take 23 (st_file demo_table) ++ [z2b 97] ++ drop 24 (st_file demo_table))) (bstr "apple") 0 w in
  (r = Ok (Found (bstr "red")) /\ read_through w w' None) \/
  (r = Err (Corrupt (st_path demo_table) "checksum mismatch") /\ read_through w w' None) \/
  (exists err, r = Err err /\ read_through w w' (Some err)).
Proof.
  apply (damaged_block_never_lies demo_table demo_entries (mkBlockRef (bstr "apple") 0 71)
    (take 23 (st_file demo_table)) (take 1 (drop 23 (st_file demo_table))) [z2b 97] (drop 24 (st_file demo_table))).
  - apply demo_table_holds.
  - vm_compute. left.
  - vm_compute. reflexivity.
  - vm_compute. reflexivity.
  - vm_compute. lia.
  - vm_compute. discriminate.
  - vm_compute. discriminate.
  - vm_compute. discriminate.
Defined.
