(* ===== verification/Manifest.v ===== *)
(** * What the store holds ([manifest.rs])

    The snapshot of the file set, its encoding, and the write-sync-rename-sync
    sequence that replaces it: the commit point of every flush and compaction. *)

From S2P Require Import Prelude Checksum Coding Disk.

Definition MANIFEST_MAGIC : bytes := bstr "LSMKVMAN".
Definition MANIFEST_VERSION : Z := 1.
Definition FILE_NAME : string := "MANIFEST".
Definition TEMP_NAME : string := "MANIFEST.tmp".

Record FileMeta := mkFileMeta {
  fm_number : Z;
  fm_level : Z;
  fm_min_key : bytes;
  fm_max_key : bytes;
  fm_bytes : Z;
  fm_entries : Z;
}.

#[export] Instance file_meta_eq_dec : EqDecision FileMeta.
Proof. solve_decision. Defined.

Definition overlaps (self : FileMeta) (min max : bytes) : bool :=
  key_leb (fm_min_key self) max && key_leb min (fm_max_key self).

Definition covers (self : FileMeta) (key : bytes) : bool :=
  key_leb (fm_min_key self) key && key_leb key (fm_max_key self).

Record Snapshot := mkSnapshot {
  sn_files : list FileMeta;
  sn_last_seq : Z;
  sn_next_number : Z;
}.

#[export] Instance snapshot_eq_dec : EqDecision Snapshot.
Proof. solve_decision. Defined.

(** [Snapshot::default]. *)
Definition snapshot_default : Snapshot := mkSnapshot [] 0 0.

Definition at_level (self : Snapshot) (level : Z) : list FileMeta :=
  filter (fun file => fm_level file = level) (sn_files self).

Definition deepest_level (self : Snapshot) : Z :=
  fold_right Z.max 0 (fm_level <$> sn_files self).

Definition bytes_at_level (self : Snapshot) (level : Z) : Z :=
  fold_left (fun acc file => wrap64 (acc + fm_bytes file)) (at_level self level) 0.

(** The body of the loop of [encode]. *)
Definition encode_file (file : FileMeta) : stm bytes unit :=
  level ← lift (if fm_level file <=? u32_max then Ok (fm_level file) else Err (TooLarge (fm_level file)));
  _ ← extend (to_le 8 (fm_number file));
  _ ← extend (to_le 4 level);
  _ ← extend (to_le 8 (fm_bytes file));
  _ ← extend (to_le 8 (fm_entries file));
  _ ← push_field (fm_min_key file);
  push_field (fm_max_key file).

Fixpoint encode_files (files : list FileMeta) : stm bytes unit :=
  match files with
  | [] => mret tt
  | file :: files => _ ← encode_file file; encode_files files
  end.

Definition encode_snapshot (self : Snapshot) : result bytes :=
  let '(r, buf) :=
    (_ ← extend MANIFEST_MAGIC;
     _ ← extend (to_le 4 MANIFEST_VERSION);
     _ ← extend (to_le 8 (sn_last_seq self));
     _ ← extend (to_le 8 (sn_next_number self));
     count ← lift (if zlen (sn_files self) <=? u32_max then Ok (zlen (sn_files self))
                   else Err (TooLarge (zlen (sn_files self))));
     _ ← extend (to_le 4 count);
     _ ← encode_files (sn_files self);
     checksum ← gets crc32;
     extend (to_le 4 checksum)) [] in
  _ ← r; Ok buf.

Definition decode_file (cursor : bytes) : option (FileMeta * bytes) :=
  '(number, cursor) ← take_u64 cursor;
  '(level, cursor) ← take_u32 cursor;
  '(nbytes, cursor) ← take_u64 cursor;
  '(entries, cursor) ← take_u64 cursor;
  '(min_key, cursor) ← take_field cursor;
  '(max_key, cursor) ← take_field cursor;
  Some (mkFileMeta number level min_key max_key nbytes entries, cursor).

(** [for _ in 0..count]. *)
Fixpoint decode_files (count : nat) (cursor : bytes) : option (list FileMeta * bytes) :=
  match count with
  | O => Some ([], cursor)
  | S count =>
      '(file, cursor) ← decode_file cursor;
      '(files, cursor) ← decode_files count cursor;
      Some (file :: files, cursor)
  end.

Definition decode_snapshot (bs : bytes) : option Snapshot :=
  if zlen bs <? 4 then None
  else
  let split := zlen bs - 4 in
  let body := slice bs 0 split in
  let checksum := slice bs split (zlen bs) in
  if negb (crc32 body =? from_le checksum) then None
  else
  '(magic, cursor) ← take_bytes body (zlen MANIFEST_MAGIC);
  if negb (key_eqb magic MANIFEST_MAGIC) then None
  else
  '(version, cursor) ← take_u32 cursor;
  if negb (version =? MANIFEST_VERSION) then None
  else
  '(last_seq, cursor) ← take_u64 cursor;
  '(next_number, cursor) ← take_u64 cursor;
  '(count, cursor) ← take_u32 cursor;
  '(files, cursor) ← decode_files (Z.to_nat count) cursor;
  match cursor with
  | [] => Some (mkSnapshot files last_seq next_number)
  | _ => None
  end.

(** ** The manifest of one directory *)

Record Manifest := mkManifest { man_dir : string; man_path : string; man_temp : string }.

(** [dir.join(name)]. *)
Definition join (dir name : string) : string := (dir +:+ "/" +:+ name)%string.

Definition manifest_new (dir : string) : Manifest :=
  mkManifest dir (join dir FILE_NAME) (join dir TEMP_NAME).

Definition manifest_load (self : Manifest) : stm World (option Snapshot) := fun w =>
  match disk_read (man_path self) FILE_NAME w with
  | (Ok bs, w) =>
      (snapshot ← ok_or (decode_snapshot bs) (Corrupt (man_path self) "not a readable manifest");
       Ok (Some snapshot), w)
  | (Err (Io _ (IoError NotFound _)), w) => (Ok None, w)
  | (Err e, w) => (Err e, w)
  end.

Definition manifest_store (self : Manifest) (snapshot : Snapshot) : stm World unit :=
  bs ← lift (encode_snapshot snapshot);
  file ← disk_create (man_temp self) TEMP_NAME;
  _ ← disk_write (man_temp self) file bs;
  _ ← disk_sync (man_temp self) file;
  _ ← disk_rename (man_path self) TEMP_NAME FILE_NAME;
  _ ← disk_open_dir (man_dir self);
  disk_sync_dir (man_dir self).

(** ** What fits the format *)

Definition file_ok (file : FileMeta) : Prop :=
  u64_ok (fm_number file) /\ u32_ok (fm_level file) /\ u64_ok (fm_bytes file) /\ u64_ok (fm_entries file) /\
  zlen (fm_min_key file) <= u32_max /\ zlen (fm_max_key file) <= u32_max.

(** The integers are in range of their types; what the encoder checks itself,
    lengths and levels, is not asked for. *)
Definition snapshot_typed (self : Snapshot) : Prop :=
  u64_ok (sn_last_seq self) /\ u64_ok (sn_next_number self) /\
  Forall (fun f => u64_ok (fm_number f) /\ 0 <= fm_level f /\ u64_ok (fm_bytes f) /\ u64_ok (fm_entries f)) (sn_files self).

Definition file_bytes (file : FileMeta) : bytes :=
  to_le 8 (fm_number file) ++ to_le 4 (fm_level file) ++ to_le 8 (fm_bytes file) ++ to_le 8 (fm_entries file)
  ++ field (fm_min_key file) ++ field (fm_max_key file).

Definition snapshot_body (self : Snapshot) : bytes :=
  MANIFEST_MAGIC ++ to_le 4 MANIFEST_VERSION ++ to_le 8 (sn_last_seq self) ++ to_le 8 (sn_next_number self)
  ++ to_le 4 (zlen (sn_files self)) ++ concat (file_bytes <$> sn_files self).

(** ** Round trip *)

Lemma encode_file_Ok file buf buf' :
  encode_file file buf = (Ok tt, buf') ->
  buf' = buf ++ file_bytes file /\ fm_level file <= u32_max /\
  zlen (fm_min_key file) <= u32_max /\ zlen (fm_max_key file) <= u32_max.
Proof.
  unfold encode_file, extend. run_stm. destruct (Z.leb_spec (fm_level file) u32_max); [|done].
  rewrite push_field_eq. destruct (Z.leb_spec (zlen (fm_min_key file)) u32_max); [|done].
  cbn beta iota. rewrite push_field_eq. destruct (Z.leb_spec (zlen (fm_max_key file)) u32_max); [|done].
  intros [= <-]. split; [|done]. unfold file_bytes. by rewrite <- !app_assoc.
Qed.

Lemma encode_files_Ok files : forall buf buf',
  encode_files files buf = (Ok tt, buf') ->
  buf' = buf ++ concat (file_bytes <$> files) /\
  Forall (fun f => fm_level f <= u32_max /\ zlen (fm_min_key f) <= u32_max /\ zlen (fm_max_key f) <= u32_max) files.
Proof.
  induction files as [|file files IH]; intros buf buf' H; cbn in H.
  - injection H as <-. by rewrite app_nil_r.
  - run_stm. destruct (encode_file file buf) as [[[]|] buf1] eqn:E; [|done].
    apply encode_file_Ok in E as [-> Hf]. apply IH in H as [-> HF].
    split; [|by constructor]. cbn. by rewrite <- app_assoc.
Qed.

Lemma encode_snapshot_Ok self bs :
  encode_snapshot self = Ok bs ->
  bs = snapshot_body self ++ to_le 4 (crc32 (snapshot_body self)) /\ zlen (sn_files self) <= u32_max /\
  Forall (fun f => fm_level f <= u32_max /\ zlen (fm_min_key f) <= u32_max /\ zlen (fm_max_key f) <= u32_max) (sn_files self).
Proof.
  unfold encode_snapshot, extend. run_stm. cbn [app].
  destruct (Z.leb_spec (zlen (sn_files self)) u32_max); [|done]. cbn beta iota.
  match goal with |- context [encode_files ?fs ?b] => destruct (encode_files fs b) as [[[]|] buf] eqn:E end;
    [|done].
  apply encode_files_Ok in E as [-> HF]. cbn. intros [= <-]. split; [|done].
  unfold snapshot_body. by rewrite <- !app_assoc.
Qed.

Lemma decode_file_app file rest : file_ok file -> decode_file (file_bytes file ++ rest) = Some (file, rest).
Proof.
  intros (H1 & H2 & H3 & H4 & H5 & H6). unfold decode_file, file_bytes. rewrite <- !app_assoc.
  rewrite take_u64_app by done. cbn [mbind option_bind]. rewrite take_u32_app by done. cbn [mbind option_bind].
  rewrite take_u64_app by done. cbn [mbind option_bind]. rewrite take_u64_app by done. cbn [mbind option_bind].
  rewrite take_field_app by done. cbn [mbind option_bind]. rewrite take_field_app by done. by destruct file.
Qed.

Lemma decode_files_app files rest :
  Forall file_ok files -> decode_files (length files) (concat (file_bytes <$> files) ++ rest) = Some (files, rest).
Proof.
  induction 1 as [|file files Hf _ IH]; [done|]. cbn [length decode_files fmap list_fmap concat].
  rewrite <- app_assoc, decode_file_app by done. cbn [mbind option_bind]. by rewrite IH.
Qed.

Lemma decode_encode self bs :
  encode_snapshot self = Ok bs -> snapshot_typed self -> decode_snapshot bs = Some self.
Proof.
  intros (-> & Hn & HF)%encode_snapshot_Ok (Hs & Hx & HT).
  assert (Forall file_ok (sn_files self)) as Hok.
  { rewrite Forall_forall in *. intros f Hin. destruct (HF f Hin) as (?&?&?), (HT f Hin) as (?&?&?&?).
    unfold file_ok, u32_ok. by split_and!. }
  unfold decode_snapshot. set (body := snapshot_body self). rewrite zlen_app, zlen_to_le.
  pose proof (zlen_nonneg body). destruct (Z.ltb_spec (zlen body + Z.of_nat 4) 4); [lia|].
  replace (zlen body + Z.of_nat 4 - 4) with (zlen body) by lia. rewrite slice_app_l by done.
  rewrite <- (app_nil_r (to_le 4 _)). rewrite slice_mid by (rewrite ?zlen_to_le; lia).
  rewrite from_le_to_le_4 by apply crc32_range. rewrite Z.eqb_refl. cbn [negb].
  subst body. unfold snapshot_body. rewrite take_bytes_app by done. cbn [mbind option_bind].
  change (key_eqb MANIFEST_MAGIC MANIFEST_MAGIC) with true. cbn [negb].
  rewrite take_u32_app by done. cbn [mbind option_bind]. rewrite Z.eqb_refl. cbn [negb].
  rewrite take_u64_app by done. cbn [mbind option_bind]. rewrite take_u64_app by done. cbn [mbind option_bind].
  rewrite take_u32_app by (split; [apply zlen_nonneg|done]). cbn [mbind option_bind].
  rewrite <- (app_nil_r (concat _)). unfold zlen. rewrite Nat2Z.id, decode_files_app by done. by destruct self.
Qed.

(** ** Replacing the manifest is atomic *)

(** What a directory's manifest says, once its bytes are on the device. *)
Definition manifest_in (d : Disk) (m : gmap string nat) (s : option Snapshot) : Prop :=
  match s with
  | None => m !! FILE_NAME = None
  | Some s => exists i, m !! FILE_NAME = Some i /\ i ∈ clean d /\ decode_snapshot (contents d i) = Some s
  end.

(** Whatever directory a crash leaves, its manifest is one of [P], and no write to
    the temporary file can reach it. *)
Record manifest_safe (d : Disk) (P : option Snapshot -> Prop) : Prop := {
  ms_ok : disk_ok d;
  ms_in : forall m, m ∈ candidates d -> exists s, P s /\ manifest_in d m s;
  ms_sep : forall m i, m ∈ candidates d -> m !! FILE_NAME = Some i -> names d !! TEMP_NAME <> Some i;
}.

Lemma manifest_safe_mono d (P Q : option Snapshot -> Prop) :
  (forall s, P s -> Q s) -> manifest_safe d P -> manifest_safe d Q.
Proof. intros H [Ho Hi Hs]. split; [done| |done]. intros m Hm. destruct (Hi m Hm) as (s & ? & ?). eauto. Qed.

(** Any change to the temporary file's bytes. *)
Lemma manifest_safe_data d P i bs n :
  manifest_safe d P -> names d !! TEMP_NAME = Some i -> manifest_safe (set_data d i bs n) P.
Proof.
  intros [Ho Hi Hs] Ht. split; [by apply disk_ok_data| |done].
  intros m Hm. destruct (Hi m Hm) as (s & HP & Hin). exists s. split; [done|].
  destruct s as [s|]; [|done]. destruct Hin as (j & Hj & Hc & Hd). exists j.
  assert (i <> j) by (intros ->; by apply (Hs m j Hm)). split; [done|].
  rewrite contents_set_data, decide_False by done. cbn. set_solver.
Qed.

Lemma manifest_safe_create d P :
  manifest_safe d P ->
  let '(r, d') := create_run TEMP_NAME d in
  exists i, r = Ok i /\ manifest_safe d' P /\ names d' !! TEMP_NAME = Some i /\ contents d' i = [].
Proof.
  intros Hsafe. destruct (create_run TEMP_NAME d) as [r d'] eqn:E.
  pose proof (disk_ok_create TEMP_NAME d (ms_ok _ _ Hsafe)) as Hok. rewrite E in Hok. cbn [snd] in Hok.
  unfold create_run in E. destruct (names d !! TEMP_NAME) as [i|] eqn:Et; injection E as <- <-.
  - exists i. split_and!; [done|by apply manifest_safe_data|done|].
    by unfold cut_data; rewrite contents_set_data, decide_True.
  - exists (fresh_inode d). cbn [names set_names past data clean] in *.
    rewrite lookup_insert_eq. split; [done|]. split; [|by unfold contents; cbn; rewrite lookup_insert_eq].
    destruct Hsafe as [Hd Hi Hs]. split; [done| |].
    + intros m Hm. change (m ∈ candidates (set_names d (<[TEMP_NAME:=fresh_inode d]> (names d)))) in Hm.
      assert (exists m0, m0 ∈ candidates d /\ m !! FILE_NAME = m0 !! FILE_NAME) as (m0 & Hm0 & Heq).
      { apply candidates_set_names in Hm as [Hm| ->]; [by eauto|]. exists (names d).
        split; [apply candidates_names|]. by rewrite lookup_insert_ne. }
      destruct (Hi m0 Hm0) as (s & HP & Hin). exists s. split; [done|].
      destruct s as [s|]; cbn in *; [|congruence]. destruct Hin as (j & Hj & Hc & Hdec).
      destruct (dok_fresh d Hd _ _ _ Hm0 Hj) as [Hlt _]. exists j. rewrite Heq. split; [done|].
      unfold contents. cbn. rewrite lookup_insert_ne by lia. split; [|done].
      assert (j <> fresh_inode d) by lia. set_solver.
    + intros m i Hm Hf. change (m ∈ candidates (set_names d (<[TEMP_NAME:=fresh_inode d]> (names d)))) in Hm.
      assert (i < fresh_inode d)%nat.
      { apply candidates_set_names in Hm as [Hm| ->]; [by eapply (dok_fresh d Hd)|].
        rewrite lookup_insert_ne in Hf by done. eapply (dok_fresh d Hd); [apply candidates_names|done]. }
      cbn [names]. rewrite lookup_insert_eq. intros [= E]. lia.
Qed.

Lemma manifest_safe_sync d P i :
  manifest_safe d P -> manifest_safe (snd (sync_run i d)) P.
Proof.
  intros [Ho Hi Hs]. split; [|..|done].
  - apply disk_ok_clean; [done|]. intros m Hm. unfold candidates. apply elem_of_app. by left.
  - intros m Hm. destruct (Hi m Hm) as (s & HP & Hin). exists s. split; [done|].
    destruct s as [s|]; [|done]. destruct Hin as (j & Hj & Hc & Hdec). exists j. split; [done|]. split; [cbn; by apply elem_of_union_r|done].
Qed.

(** The rename publishes the complete new manifest and nothing else. *)
Lemma manifest_safe_rename path d P i s :
  manifest_safe d P -> names d !! TEMP_NAME = Some i -> i ∈ clean d -> decode_snapshot (contents d i) = Some s ->
  let d' := snd (rename_run path TEMP_NAME FILE_NAME d) in
  fst (rename_run path TEMP_NAME FILE_NAME d) = Ok tt /\
  manifest_safe d' (fun s' => P s' \/ s' = Some s) /\ manifest_in d' (names d') (Some s).
Proof.
  intros Hsafe Ht Hc Hdec. pose proof (disk_ok_rename path TEMP_NAME FILE_NAME d (ms_ok _ _ Hsafe)) as Hok.
  unfold rename_run in *. rewrite Ht in *. cbn [snd fst set_names names] in *.
  assert (manifest_in (set_names d (<[FILE_NAME:=i]> (delete TEMP_NAME (names d))))
            (<[FILE_NAME:=i]> (delete TEMP_NAME (names d))) (Some s)) as Hin.
  { exists i. rewrite lookup_insert_eq. done. }
  split_and!; [done| |done]. destruct Hsafe as [Ho Hi Hs]. split; [done| |].
  - intros m [Hm| ->]%candidates_set_names; [|by eauto].
    destruct (Hi m Hm) as (s' & HP & Hin'). exists s'. auto.
  - intros m j Hm Hj. cbn [set_names names]. rewrite lookup_insert_ne, lookup_delete_eq by done. done.
Qed.

Lemma manifest_safe_sync_dir d P s :
  manifest_safe d P -> manifest_in d (names d) (Some s) ->
  manifest_safe (mkDisk (names d) [] (data d) (clean d) (floor d) (fresh_inode d)) (eq (Some s)).
Proof.
  intros [Ho Hi Hs] Hin. split.
  - apply disk_ok_clean; [done|]. by intros m ?%elem_of_nil.
  - intros m ->%list_elem_of_singleton. by eauto.
  - intros m i ->%list_elem_of_singleton Hf. apply (Hs (names d)); [apply candidates_names|done].
Qed.

(** The second half of [store]: publishing a complete temporary file. *)
Lemma manifest_publish_safe self new w r w' i (old : option Snapshot -> Prop) :
  manifest_safe (disk w) old -> names (disk w) !! TEMP_NAME = Some i -> i ∈ clean (disk w) ->
  decode_snapshot (contents (disk w) i) = Some new ->
  (_ ← disk_rename (man_path self) TEMP_NAME FILE_NAME;
   _ ← disk_open_dir (man_dir self);
   disk_sync_dir (man_dir self)) w = (r, w') ->
  manifest_safe (disk w') (fun s => old s \/ s = Some new) /\
  (r = Ok tt -> manifest_safe (disk w') (eq (Some new))).
Proof.
  intros Hs3 Hn3 Hcl3 Hc3 H.
  assert (forall d, manifest_safe d old -> manifest_safe d (fun s => old s \/ s = Some new)) as Hmono.
  { intros d. apply manifest_safe_mono. auto. }
  destruct (manifest_safe_rename (man_path self) _ _ _ _ Hs3 Hn3 Hcl3 Hc3) as (Hok & Hs4 & Hin4).
  apply stm_bind_cases in H as [([] & w4 & Hw & H)|(e & Hw & ->)]; apply call_cases in Hw as [[Hr Hd]|(? & ? & Hr & Hd)];
    try done.
  2:{ by rewrite Hok in Hr. }
  2:{ unfold no_effect in Hd. rewrite Hd. split; [by apply Hmono|done]. }
  rewrite <- Hd in Hs4, Hin4. clear Hd Hr Hok.
  apply stm_bind_cases in H as [([] & w5 & Hw & H)|(e & Hw & ->)]; apply call_cases in Hw as [[Hr Hd]|(? & ? & Hr & Hd)];
    cbn [fst snd] in *; unfold no_effect in Hd; try done; rewrite <- Hd in *; clear Hd; [|by split].
  apply call_cases in H as [[Hr' Hd']|(? & ? & Hr' & Hd')]; cbn [fst snd] in *; unfold no_effect in Hd'; rewrite Hd'.
  - split; [|intros _; by eapply manifest_safe_sync_dir].
    eapply manifest_safe_mono; [|by eapply manifest_safe_sync_dir]. intros s <-. by right.
  - split; [done|]. by rewrite Hr'.
Qed.

Lemma manifest_store_safe self new w r w' (old : option Snapshot -> Prop) :
  snapshot_typed new -> manifest_safe (disk w) old ->
  manifest_store self new w = (r, w') ->
  manifest_safe (disk w') (fun s => old s \/ s = Some new) /\
  (r = Ok tt -> manifest_safe (disk w') (eq (Some new))).
Proof.
  intros Ht Hsafe H.
  assert (forall d, manifest_safe d old -> manifest_safe d (fun s => old s \/ s = Some new)) as Hmono.
  { intros d. apply manifest_safe_mono. auto. }
  unfold manifest_store in H.
  apply stm_bind_cases in H as [(bs & w0 & He & H)|(e & [= _ <-] & ->)]; [|split; [by auto|done]].
  unfold lift in He. injection He as He <-. pose proof (decode_encode _ _ He Ht) as Hdec.
  apply stm_bind_cases in H as [(i & w1 & Hc & H)|(e & Hc & ->)]; apply call_cases in Hc as [[Hr Hd]|(? & ? & Hr & Hd)];
    pose proof (manifest_safe_create _ _ Hsafe) as Hcr; destruct (create_run TEMP_NAME (disk w)) as [r1 d1];
    destruct Hcr as (i' & -> & Hs1 & Hn1 & Hc1); cbn [fst snd] in *; try done.
  2:{ rewrite Hd. split; [by apply Hmono|done]. }
  injection Hr as ->. rewrite <- Hd in *. clear d1 Hd.
  apply stm_bind_cases in H as [([] & w2 & Hw & H)|(e & Hw & ->)]; apply call_cases in Hw as [[Hr Hd]|(? & ? & Hr & Hd)];
    cbn [fst snd] in *; try done.
  2:{ rewrite Hd. split; [|done]. apply Hmono. by apply manifest_safe_data. }
  assert (manifest_safe (disk w2) old) as Hs2 by (rewrite Hd; by apply manifest_safe_data).
  assert (names (disk w2) !! TEMP_NAME = Some i') as Hn2 by by rewrite Hd.
  assert (contents (disk w2) i' = bs) as Hc2 by (rewrite Hd; unfold append_data; rewrite contents_set_data, decide_True, Hc1; done).
  clear Hd Hr.
  apply stm_bind_cases in H as [([] & w3 & Hw & H)|(e & Hw & ->)]; apply call_cases in Hw as [[Hr Hd]|(? & ? & Hr & Hd)];
    cbn [fst snd] in *; try done.
  2:{ unfold no_effect in Hd. rewrite Hd. split; [by apply Hmono|done]. }
  assert (manifest_safe (disk w3) old) as Hs3 by (rewrite Hd; by apply manifest_safe_sync).
  assert (names (disk w3) !! TEMP_NAME = Some i') as Hn3 by by rewrite Hd.
  assert (decode_snapshot (contents (disk w3) i') = Some new) as Hc3 by (rewrite Hd; unfold contents in *; cbn; by rewrite Hc2).
  assert (i' ∈ clean (disk w3)) as Hcl3 by (rewrite Hd; cbn; set_solver). clear Hd Hr.
  by eapply manifest_publish_safe.
Qed.

Lemma manifest_load_live self d P :
  manifest_safe d P -> exists s, P s /\ fst (manifest_load self (mkWorld d [])) = Ok s.
Proof.
  intros [_ Hi _]. destruct (Hi _ (candidates_names d)) as (s & HP & Hin). exists s. split; [done|].
  unfold manifest_load, disk_read, call. cbn [outcomes disk]. unfold read_run. destruct s as [s|]; cbn in Hin.
  - destruct Hin as (i & -> & _ & Hdec). cbn. by rewrite Hdec.
  - by rewrite Hin.
Qed.

Lemma manifest_safe_crash d d' P : manifest_safe d P -> crash d d' -> manifest_safe d' P.
Proof.
  intros [Ho Hi Hs] Hcr. pose proof (disk_ok_crash _ _ Ho Hcr) as Ho'.
  destruct Hcr as [Hn Hp Hcl _ Hd Hfr Hc].
  assert (forall m, m ∈ candidates d' -> m = names d') as Hone.
  { intros m. unfold candidates. rewrite Hp. by intros ?%list_elem_of_singleton. }
  split; [done| |].
  - intros m ->%Hone. destruct (Hi _ Hn) as (s & HP & Hin). exists s. split; [done|].
    destruct s as [s|]; [|done]. destruct Hin as (i & Hi' & Hic & Hdec). exists i. split; [done|].
    unfold contents in *. rewrite (Hcl i Hic). split; [|done]. rewrite Hc. apply elem_of_dom.
    rewrite (Hcl i Hic). by destruct (dok_fresh d Ho _ _ _ Hn Hi').
  - intros m i ->%Hone Hf Ht. by pose proof (dok_inj d Ho _ _ _ _ Hn Hf Ht).
Qed.

(** C18: A manifest reads back as it was stored: when [encode] accepts a snapshot
    whose integers have their types' ranges, [decode] of its bytes is that
    snapshot, files, order, keys and numbering included. *)
Theorem manifest_roundtrip (self : Snapshot) (bs : bytes)
  (Henc : encode_snapshot self = Ok bs) (Htyped : snapshot_typed self) :
  decode_snapshot bs = Some self.
Proof. by apply decode_encode. Qed.

Definition demo_snapshot : Snapshot :=
  mkSnapshot [mkFileMeta 7 0 (bstr "a") (bstr "m") 900 12; mkFileMeta 3 1 (bstr "b") (bstr "zz") 4096 80] 92 8.

Lemma demo_snapshot_typed : snapshot_typed demo_snapshot.
Proof. split_and!; cbn; unfold u64_max; try lia; repeat constructor; cbn; unfold u64_max; lia. Qed.

Lemma manifest_roundtrip_witness :
  exists bs, encode_snapshot demo_snapshot = Ok bs /\ decode_snapshot bs = Some demo_snapshot.
Proof.
  destruct (encode_snapshot demo_snapshot) as [bs|e] eqn:E; [|exfalso; vm_compute in E; discriminate].
  exists bs. split; [done|]. apply (manifest_roundtrip demo_snapshot bs E). apply demo_snapshot_typed.
Defined.

(** C14: Replacing the manifest is atomic and durable. Start from a directory
    whose manifest, after any crash, is [old] (or absent). Run [store] with any
    pattern of failing calls, then crash at that point: the manifest that [load]
    finds afterwards is the old one or the complete new one, never a mixture or an
    unreadable file; and once [store] has returned [Ok] it is the new one. *)
Theorem manifest_store_atomic (self : Manifest) (new : Snapshot) (old : option Snapshot)
  (w w' : World) (r : result unit) (d' : Disk)
  (Htyped : snapshot_typed new) (Hold : manifest_safe (disk w) (eq old))
  (Hrun : manifest_store self new w = (r, w')) (Hcrash : crash (disk w') d') :
  exists s, fst (manifest_load self (mkWorld d' [])) = Ok s /\ (s = old \/ s = Some new) /\
    (r = Ok tt -> s = Some new).
Proof.
  destruct (manifest_store_safe _ _ _ _ _ _ Htyped Hold Hrun) as [H1 H2]. destruct r as [[]|e].
  - destruct (manifest_load_live self d' _ (manifest_safe_crash _ _ _ (H2 eq_refl) Hcrash)) as (s & <- & Hl).
    exists (Some new). split_and!; [done|by right|done].
  - destruct (manifest_load_live self d' _ (manifest_safe_crash _ _ _ H1 Hcrash)) as (s & Hs & Hl).
    exists s. split_and!; [done|by destruct Hs; auto|done].
Qed.

(** An empty directory, and a write that fails after three bytes. *)
Definition empty_disk : Disk := mkDisk ∅ [] ∅ ∅ ∅ 0.

Lemma empty_disk_safe : manifest_safe empty_disk (eq None).
Proof.
  assert (forall m, m ∈ candidates empty_disk -> m = ∅) as Hc by (intros m ->%list_elem_of_singleton; done).
  split; [split|..]; intros m *; intros ->%Hc; try done. by exists None.
Qed.

Lemma manifest_store_atomic_witness :
  let w := mkWorld empty_disk [None; Some (IoError OtherKind "no space left on device", 3%nat)] in
  let '(r, w') := manifest_store (manifest_new "db") demo_snapshot w in
  let d := disk w' in let d' := mkDisk (names d) [] (data d) (dom (data d)) (floor d) (fresh_inode d) in
  exists s, fst (manifest_load (manifest_new "db") (mkWorld d' [])) = Ok s /\ (s = None \/ s = Some demo_snapshot).
Proof.
  cbv zeta. destruct (manifest_store _ _ _) as [r w'] eqn:E.
  destruct (manifest_store_atomic (manifest_new "db") demo_snapshot None
    (mkWorld empty_disk [None; Some (IoError OtherKind "no space left on device", 3%nat)]) w' r
    (mkDisk (names (disk w')) [] (data (disk w')) (dom (data (disk w'))) (floor (disk w')) (fresh_inode (disk w')))) as (s & Hs & Ho & _).
  - apply demo_snapshot_typed.
  - apply empty_disk_safe.
  - exact E.
  - split; [exact (candidates_names (disk w'))|done..].
  - exists s. done.
Defined.

(** Damage to a manifest is noticed: change any run of at most four
    consecutive bytes ahead of its checksum and it does not decode. *)
Theorem manifest_detects_damage (self : Snapshot) (pre x x' post : bytes)
  (Henc : encode_snapshot self = Ok (pre ++ x ++ post)) (Hlen : length x = length x')
  (Hshort : (length x <= 4)%nat) (Hdiff : x <> x') (Hbody : 4 <= zlen post) :
  decode_snapshot (pre ++ x' ++ post) = None.
Proof.
  apply encode_snapshot_Ok in Henc as (E & _). pose proof (zlen_nonneg pre) as Hp. pose proof (zlen_nonneg x) as Hx.
  assert (zlen x' = zlen x) as Hzx by (unfold zlen; by rewrite Hlen).
  apply (f_equal zlen) in E as El. rewrite !zlen_app, zlen_to_le in El.
  rewrite <- (app_nil_l (snapshot_body self ++ _)) in E.
  apply window_inside in E as (m1 & m2 & -> & Hb & ->); [|rewrite zlen_nil; lia..]. cbn [app].
  unfold decode_snapshot. rewrite Hb. replace (m1 ++ x' ++ m2 ++ to_le 4 (crc32 (m1 ++ x ++ m2)))
    with ((m1 ++ x' ++ m2) ++ to_le 4 (crc32 (m1 ++ x ++ m2)) ++ []) by by rewrite app_nil_r, <- !app_assoc.
  rewrite zlen_app, (zlen_app (to_le 4 _)), zlen_to_le, zlen_nil.
  destruct (Z.ltb_spec (zlen (m1 ++ x' ++ m2) + (Z.of_nat 4 + 0)) 4); [done|].
  rewrite slice_app_l, slice_mid by (rewrite ?zlen_to_le; lia). rewrite from_le_to_le_4 by apply crc32_range.
  destruct (Z.eqb_spec (crc32 (m1 ++ x' ++ m2)) (crc32 (m1 ++ x ++ m2))) as [Eq|]; [|done].
  exfalso. apply Hdiff. symmetry. by apply (crc32_burst m1 x' x m2); [lia|lia|].
Qed.

Lemma manifest_detects_damage_witness :
  exists bs, encode_snapshot demo_snapshot = Ok bs /\
    decode_snapshot (take 12 bs ++ [z2b 93] ++ drop 13 bs) = None.
Proof.
  destruct (encode_snapshot demo_snapshot) as [bs|e] eqn:E; [|exfalso; vm_compute in E; discriminate].
  exists bs. split; [done|].
  assert (bs = take 12 bs ++ take 1 (drop 12 bs) ++ drop 13 bs /\ take 1 (drop 12 bs) = [z2b 92] /\ 4 <= zlen (drop 13 bs))
    as (Hs & Hx & Hp).
  { vm_compute in E. injection E as <-. split; [reflexivity|]. split; [reflexivity|]. vm_compute. discriminate. }
  apply (manifest_detects_damage demo_snapshot (take 12 bs) (take 1 (drop 12 bs)) [z2b 93] (drop 13 bs)).
  - rewrite <- Hs. exact E.
  - rewrite Hx. reflexivity.
  - rewrite Hx. cbn. lia.
  - rewrite Hx. vm_compute. discriminate.
  - exact Hp.
Defined.
