(* ===== verification/Compaction.v ===== *)
(** * Picking what to compact, and merging it ([compaction.rs])

    The planner scores levels with [f64] ratios, modelled by the standard
    library's specification of binary64 arithmetic. The merge pulls from sorted
    sources through a heap of their next entries; the heap is a list popped at its
    greatest element under [Head]'s order, which is what [BinaryHeap] promises. *)

From Stdlib Require Import SpecFloat.
From S2P Require Import Prelude Memtable Disk SsTable Manifest.

(** ** Planning *)

Record Plan := mkPlan { pl_level : Z; pl_inputs : list FileMeta }.

Definition output_level (self : Plan) : Z := pl_level self + 1.
Definition input_numbers (self : Plan) : list Z := fm_number <$> pl_inputs self.

Definition saturating_mul (a b : Z) : Z := Z.min u64_max (a * b).
Definition saturating_pow (a e : Z) : Z := Z.min u64_max (a ^ e).

(** [budget]; the subtraction is in [u32], and levels start at 1 here. *)
Definition budget (level level_bytes fanout : Z) : Z :=
  saturating_mul level_bytes (saturating_pow fanout (wrap32 (Z.min level u32_max - 1))).

(** [value as f64]: rounding to nearest, ties to even. *)
Definition as_f64 (value : Z) : spec_float := binary_normalize 53 1024 value 0 false.

Definition ratio (value limit : Z) : spec_float :=
  if limit =? 0 then S754_infinity false else SFdiv 53 1024 (as_f64 value) (as_f64 limit).

(** [range_of]: the least and the greatest key, [[]] when there is none. *)
Definition key_min (a b : bytes) : bytes := if key_leb a b then a else b.
Definition key_max (a b : bytes) : bytes := if key_leb a b then b else a.

Definition reduce {A} (f : A -> A -> A) (l : list A) : option A :=
  match l with [] => None | x :: l => Some (fold_left f l x) end.

Definition range_of (files : list FileMeta) : bytes * bytes :=
  (default [] (reduce key_min (fm_min_key <$> files)), default [] (reduce key_max (fm_max_key <$> files))).

(** [min_by_key(|file| file.number)]: the first of the lowest numbered. *)
Definition lower_number (a b : FileMeta) : FileMeta := if fm_number b <? fm_number a then b else a.

Definition inputs_for (snapshot : Snapshot) (level : Z) : list FileMeta :=
  let inputs :=
    if level =? 0 then at_level snapshot 0
    else option_list (reduce lower_number (at_level snapshot level)) in
  let '(min, max) := range_of inputs in
  let overlapping := filter (fun file => overlaps file min max = true) (at_level snapshot (level + 1)) in
  inputs ++ overlapping.

(** One turn of the loop over the deeper levels. *)
Definition score_level (snapshot : Snapshot) (level_bytes fanout : Z)
  (acc : option Z * spec_float) (level : Z) : option Z * spec_float :=
  let '(chosen, best) := acc in
  let nbytes := bytes_at_level snapshot level in
  let limit := budget level level_bytes fanout in
  let score := ratio nbytes limit in
  if SFltb best score then (Some level, score) else acc.

(** [plan]: the level furthest past its limit. *)
Definition plan (snapshot : Snapshot) (l0_trigger level_bytes fanout : Z) : option Plan :=
  let l0_files := zlen (at_level snapshot 0) in
  let start :=
    if (l0_trigger <=? l0_files) && (0 <? l0_trigger)
    then (Some 0, ratio l0_files l0_trigger) else (None, as_f64 1) in
  let '(chosen, _) :=
    fold_left (score_level snapshot level_bytes fanout)
      (seqZ 1 (deepest_level snapshot)) start in
  (fun level => mkPlan level (inputs_for snapshot level)) <$> chosen.

Definition tombstone_needed (snapshot : Snapshot) (out_level : Z) (key : bytes) : bool :=
  existsb (fun file => (out_level <? fm_level file) && covers file key) (sn_files snapshot).

(** ** Merging *)

(** What a merge needs of its sources: [Iterator<Item = Result<Entry>>], whose
    [next] may call the system. *)
Class Source (S : Type) := src_next : S -> World -> option (result entry) * (S * World).

#[export] Instance scan_source : Source Scan := scan_next.

(** What a source promises: it hands out the entries it yields in order, unless a
    call it makes fails; then it hands out that error, and nothing after it. *)
Class SourceLaws (S : Type) `{!Source S} := {
  yields : S -> list entry -> Prop;
  yields_next : forall s es w, yields s es ->
    let '(item, (s', w')) := src_next s w in
    (item = Ok <$> head es /\ yields s' (tail es) /\ read_through w w' None) \/
    (exists err, item = Some (Err err) /\ yields s' [] /\ read_through w w' (Some err));
}.

Record Head := mkHead { hd_entry : entry; hd_source : nat }.

(** [Ord for Head]: the smallest key is the greatest head, then the highest
    sequence number, then the lowest source. *)
Definition head_cmp (self other : Head) : comparison :=
  match bytes_cmp (fst (hd_entry other)) (fst (hd_entry self)) with
  | Eq =>
      match fst (snd (hd_entry self)) ?= fst (snd (hd_entry other)) with
      | Eq => (hd_source other ?= hd_source self)%nat
      | c => c
      end
  | c => c
  end.

(** [BinaryHeap::pop]: the greatest element, and the others. *)
Fixpoint heap_pop (heap : list Head) : option (Head * list Head) :=
  match heap with
  | [] => None
  | x :: heap =>
      match heap_pop heap with
      | None => Some (x, [])
      | Some (y, rest) =>
          match head_cmp x y with
          | Lt => Some (y, x :: rest)
          | _ => Some (x, y :: rest)
          end
      end
  end.

Section Merging.
Context {S : Type} `{!Source S}.

Record Merge := mkMerge {
  mg_sources : list S;
  mg_heap : list Head;
  mg_failure : option Error;
}.

(** [pull]: one entry from a source into the heap; the first error is kept. *)
Definition pull (source : nat) (self : Merge) (w : World) : Merge * World :=
  match mg_sources self !! source with
  | None => (self, w)
  | Some s =>
      let '(item, (s, w)) := src_next s w in
      let sources := <[source := s]> (mg_sources self) in
      (match item with
       | Some (Ok e) => mkMerge sources (mkHead e source :: mg_heap self) (mg_failure self)
       | Some (Err err) =>
           mkMerge sources (mg_heap self)
             (match mg_failure self with Some f => Some f | None => Some err end)
       | None => mkMerge sources (mg_heap self) (mg_failure self)
       end, w)
  end.

Definition merge_new (sources : list S) (w : World) : Merge * World :=
  fold_left (fun '(m, w) source => pull source m w) (seq 0 (length sources)) (mkMerge sources [] None, w).

(** [while self.heap.peek().is_some_and(|next| next.entry.key == key)]. *)
Fixpoint drop_stale (fuel : nat) (key : bytes) (self : Merge) (w : World) : option (Merge * World) :=
  match heap_pop (mg_heap self) with
  | Some (stale, rest) =>
      if key_eqb (fst (hd_entry stale)) key then
        match fuel with
        | O => None
        | Datatypes.S fuel =>
            let '(self, w) := pull (hd_source stale) (mkMerge (mg_sources self) rest (mg_failure self)) w in
            drop_stale fuel key self w
        end
      else Some (self, w)
  | None => Some (self, w)
  end.

(** [Merge::next]; [None] only when the fuel of its loop runs out. *)
Definition merge_next (fuel : nat) (self : Merge) (w : World) : option (option (result entry) * (Merge * World)) :=
  match mg_failure self with
  | Some err => Some (Some (Err err), (mkMerge (mg_sources self) [] None, w))
  | None =>
      match heap_pop (mg_heap self) with
      | None => Some (None, (self, w))
      | Some (head, rest) =>
          let '(self, w) := pull (hd_source head) (mkMerge (mg_sources self) rest None) w in
          s ← drop_stale fuel (fst (hd_entry head)) self w;
          Some (Some (Ok (hd_entry head)), s)
      end
  end.

(** [for entry in merge { let entry = entry?; .. }], into a list. *)
Fixpoint merge_collect (fuel : nat) (self : Merge) : stm World (option (list entry)) := fun w =>
  match fuel with
  | O => (Ok None, w)
  | Datatypes.S fuel' =>
      match merge_next fuel self w with
      | None => (Ok None, w)
      | Some (None, (_, w)) => (Ok (Some []), w)
      | Some (Some (Err e), (_, w)) => (Err e, w)
      | Some (Some (Ok e), (self, w)) => (es ← merge_collect fuel' self; mret (cons e <$> es)) w
      end
  end.
End Merging.
Arguments Merge : clear implicits.

(** ** The heap *)

Lemma heap_pop_None h : heap_pop h = None <-> h = [].
Proof.
  destruct h as [|x h]; cbn; [done|]. split; [|done].
  destruct (heap_pop h) as [[y rest]|]; [|done]. by destruct (head_cmp x y).
Qed.

(** [head_cmp] says which of two heads goes first. *)
Lemma head_cmp_spec a b :
  match head_cmp a b with
  | Lt => key_lt (fst (hd_entry b)) (fst (hd_entry a)) \/
          fst (hd_entry a) = fst (hd_entry b) /\ fst (snd (hd_entry a)) <= fst (snd (hd_entry b))
  | _ => key_lt (fst (hd_entry a)) (fst (hd_entry b)) \/
         fst (hd_entry a) = fst (hd_entry b) /\ fst (snd (hd_entry b)) <= fst (snd (hd_entry a))
  end.
Proof.
  unfold head_cmp. destruct (bytes_cmp_spec (fst (hd_entry b)) (fst (hd_entry a))) as [E|E|E]; auto.
  destruct (Z.compare_spec (fst (snd (hd_entry a))) (fst (snd (hd_entry b)))); try (right; split; [congruence|lia]).
  destruct (_ ?= _)%nat; right; split; (congruence || lia).
Qed.

(** [goes_first x y]: a smaller key, or the same key and no older. *)
Definition goes_first (x y : Head) : Prop :=
  key_lt (fst (hd_entry x)) (fst (hd_entry y)) \/
  fst (hd_entry x) = fst (hd_entry y) /\ fst (snd (hd_entry y)) <= fst (snd (hd_entry x)).

#[export] Instance goes_first_trans : Transitive goes_first.
Proof.
  intros x y z [H1|[H1 L1]] [H2|[H2 L2]]; unfold goes_first.
  - left. by etrans.
  - left. congruence.
  - left. congruence.
  - right. split; [congruence|lia].
Qed.

Lemma heap_pop_spec h : forall x rest,
  heap_pop h = Some (x, rest) -> Permutation h (x :: rest) /\ forall y, y ∈ rest -> goes_first x y.
Proof.
  induction h as [|a h IH]; intros x rest H; cbn in H; [done|].
  destruct (heap_pop h) as [[y r]|] eqn:E.
  - destruct (IH y r eq_refl) as [Hp Hf]. pose proof (head_cmp_spec a y) as Hc.
    destruct (head_cmp a y); injection H as <- <-.
    + split; [by rewrite Hp|]. intros z [->|Hz]%elem_of_cons; [done|]. etrans; [exact Hc|auto].
    + split; [rewrite Hp; constructor|]. intros z [->|Hz]%elem_of_cons; [|auto].
      destruct Hc as [Hc|[Hc ?]]; [by left|right]. done.
    + split; [by rewrite Hp|]. intros z [->|Hz]%elem_of_cons; [done|]. etrans; [exact Hc|auto].
  - injection H as <- <-. apply heap_pop_None in E as ->. split; [done|]. by intros y ?%elem_of_nil.
Qed.

(** ** What the heap holds: the first entry of every source that has one *)

Definition head_at (n : nat) (l : list entry) : list Head :=
  match l with [] => [] | e :: _ => [mkHead e n] end.

Fixpoint heads_of (n : nat) (V : list (list entry)) : list Head :=
  match V with
  | [] => []
  | l :: V => head_at n l ++ heads_of (S n) V
  end.

Lemma heads_of_insert V : forall n i l,
  V !! i = Some l ->
  exists R, Permutation (heads_of n V) (head_at (n + i) l ++ R) /\
    forall l', Permutation (heads_of n (<[i := l']> V)) (head_at (n + i) l' ++ R).
Proof.
  induction V as [|k V IH]; intros n [|i] l H; cbn in H; try done.
  - injection H as ->. exists (heads_of (S n) V). rewrite Nat.add_0_r. done.
  - destruct (IH (S n) i l H) as (R & HR & HR'). exists (head_at n k ++ R). cbn.
    replace (n + S i)%nat with (S n + i)%nat by lia. split.
    + rewrite HR, !app_assoc. by rewrite (Permutation_app_comm (head_at n k)).
    + intros l'. rewrite HR', !app_assoc. by rewrite (Permutation_app_comm (head_at n k)).
Qed.

Lemma elem_of_heads V : forall n x,
  x ∈ heads_of n V <-> exists i l, V !! i = Some (hd_entry x :: l) /\ hd_source x = (n + i)%nat.
Proof.
  induction V as [|k V IH]; intros n x; cbn.
  - split; [by intros ?%elem_of_nil|]. by intros (?&?&?&?).
  - rewrite elem_of_app, IH. split.
    + intros [H|(i & l & H & E)].
      * destruct k as [|e k]; [by apply elem_of_nil in H|]. apply list_elem_of_singleton in H as ->.
        exists 0%nat, k. cbn. split; [done|lia].
      * exists (S i), l. split; [done|lia].
    + intros ([|i] & l & H & E); cbn in H.
      * left. injection H as ->. cbn. apply list_elem_of_singleton. destruct x. cbn in *. f_equal. lia.
      * right. exists i, l. split; [done|lia].
Qed.

Lemma heads_of_nil V n : heads_of n V = [] <-> concat V = [].
Proof.
  revert n; induction V as [|k V IH]; intros n; cbn; [done|]. destruct k; cbn; [apply IH|done].
Qed.

(** A scan of a table that holds [es] is a source, as is one that has failed. *)
Definition scan_yields (sc : Scan) (rest : list entry) : Prop :=
  (sc_failed sc = true /\ rest = []) \/
  exists groups, groups_ok groups /\ seqs_ok (concat groups) /\ zlen (table_bytes groups) <= u64_max /\
    scan_at groups sc rest.

#[export] Program Instance scan_laws : SourceLaws Scan := {| yields := scan_yields |}.
Next Obligation.
  intros sc es w Hy. change (src_next sc w) with (scan_next sc w). destruct Hy as [[Hf ->]|(groups & Hok & Hq & Hl & Hat)].
  - unfold scan_next. rewrite Hf. left. split_and!; [done|by left|apply read_through_refl].
  - pose proof (scan_next_spec _ _ _ w Hok Hq Hl Hat) as H. destruct (scan_next sc w) as [item [sc' w']].
    destruct es as [|e es]; [destruct H as (-> & -> & ->)|destruct H as [(-> & Hat' & Hr)|(err & -> & Hf & Hr)]].
    + left. split_and!; [done|right; by exists groups|apply read_through_refl].
    + left. split_and!; [done|right; by exists groups|done].
    + right. exists err. split_and!; [done|by left|done].
Qed.

Lemma sst_scan_yields t es : sst_holds t es -> yields (sst_scan t) es.
Proof.
  intros (groups & <- & Hok & Hlen & Hs & Hq & Ht). right. exists groups. split_and!; [done..|].
  exists [], groups, [], []. cbn. split_and!; try done; [by eauto|constructor..].
Qed.

(** What is left of a source once its entry for [key] is out of the way. *)
Definition drop_key (key : bytes) (l : list entry) : list entry :=
  match l with
  | e :: l' => if key_eqb (fst e) key then l' else l
  | [] => []
  end.

Lemma concat_insert_tail V : forall i (e : entry) l,
  V !! i = Some (e :: l) -> Permutation (concat V) (e :: concat (<[i := l]> V)).
Proof.
  induction V as [|k V IH]; intros [|i] e l E; cbn in *; try done.
  - by injection E as ->.
  - rewrite (IH i e l E). by rewrite Permutation_middle.
Qed.

Lemma sorted_tail e l : entries_sorted (e :: l) -> entries_sorted l /\ forall f, f ∈ l -> key_lt (fst e) (fst f).
Proof. intros [Hs HF]%StronglySorted_inv. split; [done|]. by apply Forall_forall. Qed.

Lemma drop_key_above key l : (forall e, e ∈ l -> key_lt key (fst e)) -> drop_key key l = l.
Proof.
  intros Hk. destruct l as [|e l]; [done|]. cbn. destruct (key_eqb_spec (fst e) key) as [<-|]; [|done].
  specialize (Hk e ltac:(left)). by apply key_lt_irrefl in Hk.
Qed.

Lemma drop_key_elem key l e :
  entries_sorted l -> (forall e, e ∈ l -> key_le key (fst e)) ->
  e ∈ drop_key key l <-> e ∈ l /\ fst e <> key.
Proof.
  intros Hs Hk. destruct l as [|x l]; cbn; [split; [by intros ?%elem_of_nil|by intros [?%elem_of_nil _]]|].
  apply sorted_tail in Hs as [_ Hlt]. specialize (Hk x ltac:(left)).
  destruct (key_eqb_spec (fst x) key) as [<-|Hne].
  - rewrite elem_of_cons. split.
    + intros He. split; [by right|]. intros E. specialize (Hlt e He). rewrite E in Hlt. by apply key_lt_irrefl in Hlt.
    + intros [[->|He] Hn]; [done|done].
  - split; [|by intros [? _]]. intros He. split; [done|].
    apply elem_of_cons in He as [->|He]; [done|]. specialize (Hlt e He). intros E. subst key.
    key_order.
Qed.

Section MergeProofs.
Context {S : Type} `{SourceLaws S}.
Implicit Types (m : Merge S) (V : list (list entry)).

(** The state of a merge that still has to hand out the entries of [V]; a source
    that has failed has none left. *)
Record merge_inv m V : Prop := {
  mi_len : length (mg_sources m) = length V;
  mi_heap : Permutation (mg_heap m) (heads_of 0 V);
  mi_src : forall i s l, mg_sources m !! i = Some s -> V !! i = Some l -> yields s (tail l);
}.

(** What a step of a merge does to its failure: it keeps the one it has, or has
    none, or notes that of a call that failed. *)
Definition noted m m' w w' : Prop :=
  match mg_failure m with
  | Some err => mg_failure m' = Some err /\ read_through w w' None
  | None => read_through w w' (mg_failure m')
  end.

Lemma noted_refl m m' w : mg_failure m' = mg_failure m -> noted m m' w w.
Proof. unfold noted. intros ->. destruct (mg_failure m); [split; [done|]|]; apply read_through_refl. Qed.

Lemma noted_trans m1 m2 m3 w1 w2 w3 : noted m1 m2 w1 w2 -> noted m2 m3 w2 w3 -> noted m1 m3 w1 w3.
Proof.
  unfold noted. destruct (mg_failure m1) as [err|].
  - intros [-> H1] [-> H2]. split; [done|]. by eapply read_through_trans.
  - destruct (mg_failure m2) as [err|].
    + intros H1 [-> H2]. by eapply read_through_then.
    + intros H1 H2. by eapply read_through_trans.
Qed.

Lemma noted_none m m' w w' : noted m m' w w' -> mg_failure m' = None -> mg_failure m = None /\ read_through w w' None.
Proof. unfold noted. destruct (mg_failure m); [intros [-> _]; done|]. intros Hr E. by rewrite E in Hr. Qed.

Lemma noted_some m m' w w' : noted m m' w w' -> is_Some (mg_failure m) -> is_Some (mg_failure m').
Proof. unfold noted. destruct (mg_failure m); [|by intros _ [? ?]]. intros [-> _]. by eexists. Qed.

Lemma pull_yields m i s l w :
  mg_sources m !! i = Some s -> yields s l ->
  let '(m', w') := pull i m w in
  exists s' l', noted m m' w w' /\ mg_sources m' = <[i := s']> (mg_sources m) /\
    mg_heap m' = head_at i l' ++ mg_heap m /\ yields s' (tail l') /\ (l' = l \/ l' = [] /\ is_Some (mg_failure m')).
Proof.
  intros Hs Hy. unfold pull, noted. rewrite Hs. pose proof (yields_next s l w Hy) as Hnx. destruct (src_next s w) as [item [s' w']].
  exists s'. destruct Hnx as [(-> & Hy' & Hr)|(err & -> & Hy' & Hr)].
  - exists l. destruct l as [|e l]; cbn in *; destruct (mg_failure m); split_and!; auto.
  - exists []. cbn. destruct (mg_failure m); split_and!; try done; try (by right; eauto). by eapply read_through_forget.
Qed.

Lemma heads_of_app V W : forall n, heads_of n (V ++ W) = heads_of n V ++ heads_of (n + length V) W.
Proof.
  induction V as [|l V IH]; intros n; cbn; [by rewrite Nat.add_0_r|].
  rewrite IH, app_assoc. do 2 f_equal. lia.
Qed.

Lemma concat_insert_nil V : forall i, (length (concat (<[i := []]> V)) <= length (concat V))%nat.
Proof.
  induction V as [|k V IH]; intros [|i]; cbn; rewrite ?length_app; [done..| |]; [lia|apply Nat.add_le_mono_l, IH].
Qed.

Lemma merge_new_inv (sources : list S) V w :
  Forall2 yields sources V ->
  let '(m, w') := merge_new sources w in
  exists V', merge_inv m V' /\ read_through w w' (mg_failure m) /\ (mg_failure m = None -> V' = V).
Proof.
  intros HF. pose proof (Forall2_length _ _ _ HF) as Hlen. set (m0 := mkMerge sources [] None).
  assert (forall n, (n <= length sources)%nat ->
    let '(m, w') := fold_left (fun '(m, w) source => pull source m w) (seq 0 n) (m0, w) in
    noted m0 m w w' /\ exists V', (mg_failure m = None -> V' = V) /\ length V' = length V /\ length (mg_sources m) = length V /\
      Permutation (mg_heap m) (heads_of 0 (take n V')) /\
      forall i s l, mg_sources m !! i = Some s -> V' !! i = Some l ->
        yields s (if (i <? n)%nat then tail l else l)) as Hind.
  { induction n as [|n IH]; intros Hn.
    - cbn [seq fold_left]. split; [exact (noted_refl m0 m0 w eq_refl)|]. exists V. split_and!; [done..|]. intros i s l Hs Hl. by eapply (Forall2_lookup_lr _ _ _ _ _ _ HF).
    - rewrite seq_S, fold_left_app. cbn [fold_left Nat.add]. specialize (IH ltac:(lia)).
      destruct (fold_left _ (seq 0 n) _) as [m w1]. destruct IH as (Hnt & V' & Hv & Hl' & Hl & Hh & Hs).
      destruct (lookup_lt_is_Some_2 (mg_sources m) n ltac:(lia)) as [s Es].
      destruct (lookup_lt_is_Some_2 V' n ltac:(lia)) as [l El].
      pose proof (Hs n s l Es El) as Hy. rewrite Nat.ltb_irrefl in Hy.
      pose proof (pull_yields m n s l w1 Es Hy) as Hp. destruct (pull n m w1) as [m' w2].
      destruct Hp as (s' & l' & Hnt' & Hsrc & Hheap & Hy' & Hll). split; [by eapply noted_trans|].
      exists (<[n := l']> V'). split_and!.
      + intros Hf. destruct (noted_none _ _ _ _ Hnt' Hf) as [Hf' _]. destruct Hll as [->|[_ [? ?]]]; [|congruence].
        rewrite list_insert_id by done. by apply Hv.
      + by rewrite length_insert.
      + by rewrite Hsrc, length_insert.
      + rewrite (take_S_r _ _ l') by (by rewrite list_lookup_insert_eq by lia). rewrite take_insert_ge by lia.
        rewrite heads_of_app, length_take, Nat.min_l by lia. cbn.
        by rewrite app_nil_r, Hheap, Hh, (Permutation_app_comm (head_at n l')).
      + rewrite Hsrc. intros i s1 l1 Hs1 Hl1. apply list_lookup_insert_Some in Hs1 as [(-> & -> & _)|[Hne Hs1]].
        * rewrite list_lookup_insert_eq in Hl1 by lia. injection Hl1 as <-.
          replace (i <? Datatypes.S i)%nat with true by (symmetry; apply Nat.ltb_lt; lia). done.
        * rewrite list_lookup_insert_ne in Hl1 by done. specialize (Hs i s1 l1 Hs1 Hl1).
          destruct (Nat.ltb_spec i n), (Nat.ltb_spec i (Datatypes.S n)); try done; lia. }
  specialize (Hind (length sources) ltac:(lia)). unfold merge_new. fold m0. destruct (fold_left _ _ _) as [m w'].
  destruct Hind as (Hnt & V' & Hv & Hl' & Hl & Hh & Hs). exists V'. split; [split|].
  - lia.
  - by rewrite Hh, take_ge by lia.
  - intros i s l Es El. specialize (Hs i s l Es El). apply lookup_lt_Some in El.
    destruct (Nat.ltb_spec i (length sources)); [done|lia].
  - split; [exact Hnt|done].
Qed.

(** Popping a head and refilling from its source drops that entry, and if the source
    fails whatever else it had. *)
Lemma merge_advance m V x rest w :
  merge_inv m V -> heap_pop (mg_heap m) = Some (x, rest) ->
  exists l, V !! hd_source x = Some (hd_entry x :: l) /\
    (let '(m', w') := pull (hd_source x) (mkMerge (mg_sources m) rest (mg_failure m)) w in
     noted m m' w w' /\ exists l', merge_inv m' (<[hd_source x := l']> V) /\ (l' = l \/ l' = [] /\ is_Some (mg_failure m'))) /\
    (forall i e l, V !! i = Some (e :: l) -> goes_first x (mkHead e i) \/ x = mkHead e i).
Proof.
  intros [Hl Hh Hs] Hpop. destruct (heap_pop_spec _ _ _ Hpop) as [Hp Hfirst].
  rewrite Hh in Hp.
  assert (x ∈ heads_of 0 V) as Hx by (rewrite Hp; left).
  apply elem_of_heads in Hx as (i & l & HV & Ei). cbn in Ei. rewrite Ei in *. exists l. split; [done|].
  apply lookup_lt_Some in HV as Hi. destruct (lookup_lt_is_Some_2 (mg_sources m) i ltac:(lia)) as [s Es].
  pose proof (Hs i s _ Es HV) as Hy. cbn [tail] in Hy.
  destruct (heads_of_insert V 0 i _ HV) as (R & HR & HR'). cbn in HR, HR'.
  assert (Permutation rest R) as Hrest.
  { rewrite HR in Hp. assert (mkHead (hd_entry x) i = x) as E by (destruct x; cbn in *; by rewrite Ei).
    rewrite E in Hp. by apply Permutation_cons_inv in Hp. }
  split.
  - pose proof (pull_yields (mkMerge (mg_sources m) rest (mg_failure m)) i s l w Es Hy) as Hpl. destruct (pull _ _ w) as [m' w'].
    destruct Hpl as (s' & l' & Hnt & Hsrc & Hheap & Hy' & Hll). cbn [mg_sources mg_heap] in *. split; [exact Hnt|]. exists l'. split; [split|done].
    + by rewrite Hsrc, !length_insert.
    + by rewrite Hheap, HR', Hrest.
    + intros j s1 l1 Hs1 Hl1. rewrite Hsrc in Hs1. apply list_lookup_insert_Some in Hs1 as [(-> & -> & _)|[Hne Hs1]].
      * rewrite list_lookup_insert_eq in Hl1 by done. congruence.
      * rewrite list_lookup_insert_ne in Hl1 by done. by apply (Hs j).
  - intros j e k Hj. assert (mkHead e j ∈ heads_of 0 V) as Hin by (apply elem_of_heads; by exists j, k).
    rewrite Hp in Hin. apply elem_of_cons in Hin as [->|Hin]; [by right|]. left. by apply Hfirst.
Qed.

Lemma drop_key_fmap_id key V :
  (forall i e l, V !! i = Some (e :: l) -> fst e <> key) -> drop_key key <$> V = V.
Proof.
  intros Hne. apply list_eq. intros i. rewrite list_lookup_fmap. destruct (V !! i) as [[|e l]|] eqn:E; [done| |done].
  cbn. destruct (key_eqb_spec (fst e) key) as [Ek|]; [|done]. by destruct (Hne i e l E).
Qed.

Lemma elem_of_concat_lookup V i e l : V !! i = Some (e :: l) -> e ∈ concat V.
Proof. intros E. rewrite (concat_insert_tail _ _ _ _ E). left. Qed.

(** Once the next entry of every source is past [key], the loop is over. *)
Lemma drop_stale_done fuel key m V w :
  merge_inv m V -> (forall i e l, V !! i = Some (e :: l) -> fst e <> key) ->
  drop_stale fuel key m w = Some (m, w) /\ merge_inv m (drop_key key <$> V).
Proof.
  intros Hinv Hne. rewrite (drop_key_fmap_id _ _ Hne). split; [|done].
  destruct (heap_pop (mg_heap m)) as [[x rest]|] eqn:Hpop.
  - destruct (merge_advance _ _ _ _ w Hinv Hpop) as (l & HV & _). apply Hne in HV.
    destruct fuel; cbn [drop_stale]; rewrite Hpop; by destruct (key_eqb_spec (fst (hd_entry x)) key).
  - destruct fuel; cbn [drop_stale]; by rewrite Hpop.
Qed.

Lemma merge_inv_empty m V : merge_inv m V -> heap_pop (mg_heap m) = None -> concat V = [].
Proof.
  intros Hinv Hpop%heap_pop_None. pose proof (mi_heap _ _ Hinv) as Hh. rewrite Hpop in Hh.
  apply Permutation_nil_l in Hh. symmetry in Hh. by apply heads_of_nil in Hh.
Qed.

Lemma advanced_length V i e l l' : V !! i = Some (e :: l) -> l' = l \/ l' = [] ->
  (length (concat (<[i := l']> V)) < length (concat V))%nat.
Proof.
  intros HV Hl. rewrite (concat_insert_tail _ _ _ _ HV). cbn [length]. destruct Hl as [->| ->]; [lia|].
  pose proof (concat_insert_nil (<[i := l]> V) i) as Hle. rewrite list_insert_insert_eq in Hle. lia.
Qed.

(** The loop ends, whatever fails. *)
Lemma drop_stale_ends key : forall fuel m V w,
  merge_inv m V -> (length (concat V) <= fuel)%nat ->
  exists m' w', drop_stale fuel key m w = Some (m', w') /\ noted m m' w w'.
Proof.
  induction fuel as [|fuel IH]; intros m V w Hinv Hfuel; cbn [drop_stale];
    (destruct (heap_pop (mg_heap m)) as [[x rest]|] eqn:Hpop; [|exists m, w; split; [done|by apply noted_refl]]);
    (destruct (key_eqb (fst (hd_entry x)) key); [|exists m, w; split; [done|by apply noted_refl]]);
    destruct (merge_advance _ _ _ _ w Hinv Hpop) as (l & HV & Hadv & _).
  - apply elem_of_concat_lookup in HV. destruct (concat V); [by apply elem_of_nil in HV|cbn in Hfuel; lia].
  - destruct (pull _ _ w) as [m1 w1]. destruct Hadv as (Hnt & l' & Hinv' & Hll).
    destruct (IH m1 _ w1 Hinv') as (m' & w' & E & Hnt').
    + assert (l' = l \/ l' = []) as Hl by tauto. pose proof (advanced_length _ _ _ _ _ HV Hl). lia.
    + exists m', w'. split; [done|]. by eapply noted_trans.
Qed.

Lemma drop_stale_spec key : forall fuel m V w,
  merge_inv m V -> Forall entries_sorted V -> (forall e, e ∈ concat V -> key_le key (fst e)) ->
  (length (concat V) <= fuel)%nat ->
  exists m' w', drop_stale fuel key m w = Some (m', w') /\ noted m m' w w' /\
    (mg_failure m' = None -> merge_inv m' (drop_key key <$> V)).
Proof.
  induction fuel as [|fuel IH]; intros m V w Hinv Hsort Hge Hfuel.
  { exists m, w. destruct (drop_stale_done 0 key m V w Hinv) as [-> ?]; [|by split_and!; [|apply noted_refl|]].
    intros i e l E%elem_of_concat_lookup. destruct (concat V); cbn in Hfuel; [by apply elem_of_nil in E|lia]. }
  destruct (heap_pop (mg_heap m)) as [[x rest]|] eqn:Hpop.
  2:{ exists m, w. destruct (drop_stale_done (Datatypes.S fuel) key m V w Hinv) as [-> ?]; [|by split_and!; [|apply noted_refl|]].
      intros i e l E%elem_of_concat_lookup. rewrite (merge_inv_empty _ _ Hinv Hpop) in E. by apply elem_of_nil in E. }
  destruct (merge_advance _ _ _ _ w Hinv Hpop) as (l & HV & Hadv & Hfirst).
  destruct (key_eqb_spec (fst (hd_entry x)) key) as [Ek|Hne].
  - cbn [drop_stale]. rewrite Hpop. destruct (key_eqb_spec (fst (hd_entry x)) key) as [_|]; [|done].
    pose proof (concat_insert_tail _ _ _ _ HV) as Hp.
    assert (entries_sorted (hd_entry x :: l)) as Hsx by (by eapply Forall_lookup_1 in Hsort).
    apply sorted_tail in Hsx as [Hsl Hlt]. destruct (pull _ _ w) as [m1 w1]. destruct Hadv as (Hnt & l' & Hinv' & Hll).
    assert (l' = l \/ l' = []) as Hl by tauto. pose proof (advanced_length _ _ _ _ _ HV Hl) as Hlen.
    destruct Hll as [->|[-> Hfailed]].
    + destruct (IH _ _ w1 Hinv') as (m' & w' & Hm' & Hnt' & Hinv'').
      * by apply Forall_insert.
      * intros e He. apply Hge. rewrite Hp. by right.
      * lia.
      * exists m', w'. split; [done|]. split; [by eapply noted_trans|].
        replace (drop_key key <$> V) with (drop_key key <$> <[hd_source x := l]> V); [done|].
        rewrite list_fmap_insert. rewrite list_insert_id; [done|].
        rewrite list_lookup_fmap, HV. cbn. destruct (key_eqb_spec (fst (hd_entry x)) key); [|done].
        f_equal. symmetry. apply drop_key_above. rewrite <- Ek. exact Hlt.
    + destruct (drop_stale_ends key fuel m1 _ w1 Hinv') as (m' & w' & E & Hnt'); [lia|]. exists m', w'. split; [done|].
      split; [by eapply noted_trans|]. intros Hf. destruct (noted_some _ _ _ _ Hnt' Hfailed). congruence.
  - exists m, w. destruct (drop_stale_done (Datatypes.S fuel) key m V w Hinv) as [-> ?]; [|by split_and!; [|apply noted_refl|]].
    intros i e k E Ee.
    assert (key_lt key (fst (hd_entry x))) as Hlt.
    { pose proof (Hge _ (elem_of_concat_lookup _ _ _ _ HV)). key_order. }
    destruct (Hfirst i e k E) as [[Hf|[Hf _]]|Hf]; cbn in Hf; [key_order|key_order|]. subst x. cbn in *. done.
Qed.

(** ** One step of the merge, and all of them *)

(** [next] hands out the newest entry of the smallest key, and leaves exactly the
    entries of the other keys, unless a source fails while it moves on. *)
Lemma merge_next_spec fuel m V w :
  merge_inv m V -> mg_failure m = None -> Forall entries_sorted V -> (length (concat V) <= fuel)%nat ->
  match concat V with
  | [] => merge_next fuel m w = Some (None, (m, w))
  | _ => exists e m' w', merge_next fuel m w = Some (Some (Ok e), (m', w')) /\ read_through w w' (mg_failure m') /\
      (mg_failure m' = None -> merge_inv m' (drop_key (fst e) <$> V)) /\ e ∈ concat V /\
      (forall f, f ∈ concat V -> key_le (fst e) (fst f)) /\
      (forall f, f ∈ concat V -> fst f = fst e -> fst (snd f) <= fst (snd e))
  end.
Proof.
  intros Hinv Hnf Hsort Hfuel. unfold merge_next. rewrite Hnf.
  destruct (heap_pop (mg_heap m)) as [[x rest]|] eqn:Hpop; [|by rewrite (merge_inv_empty _ _ Hinv Hpop)].
  destruct (merge_advance _ _ _ _ w Hinv Hpop) as (l & HV & Hadv & Hfirst).
  pose proof (concat_insert_tail _ _ _ _ HV) as Hp. pose proof (elem_of_concat_lookup _ _ _ _ HV) as Hx.
  assert (forall f, f ∈ concat V -> key_lt (fst (hd_entry x)) (fst f) \/
    fst f = fst (hd_entry x) /\ fst (snd f) <= fst (snd (hd_entry x))) as Hmin.
  { intros f (k & Hk & Hf)%list_elem_of_In%in_concat. apply list_elem_of_In in Hk, Hf.
    apply list_elem_of_lookup in Hk as [i Hi]. destruct k as [|e k]; [by apply elem_of_nil in Hf|].
    assert (entries_sorted (e :: k)) as [_ Hlt]%sorted_tail by (by eapply Forall_lookup_1 in Hsort).
    assert (key_lt (fst (hd_entry x)) (fst e) \/ fst e = fst (hd_entry x) /\ fst (snd e) <= fst (snd (hd_entry x))) as He.
    { destruct (Hfirst i e k Hi) as [[Ho|[Ho ?]]|Ho]; cbn in *; [by left|by right|subst x; by right]. }
    apply elem_of_cons in Hf as [->|Hf]; [done|]. left. specialize (Hlt f Hf).
    destruct He as [He|[He _]]; [by etrans|by rewrite <- He]. }
  destruct (concat V) as [|a b] eqn:EV; [by apply elem_of_nil in Hx|]. rewrite <- EV in *.
  assert (entries_sorted (hd_entry x :: l)) as [Hsl Hltl]%sorted_tail by (by eapply Forall_lookup_1 in Hsort).
  rewrite Hnf in Hadv. destruct (pull _ _ w) as [m1 w1]. destruct Hadv as (Hnt & l' & Hinv' & Hll).
  assert (l' = l \/ l' = []) as Hl by tauto. pose proof (advanced_length _ _ _ _ _ HV Hl) as Hlen.
  assert (exists m' w', drop_stale fuel (fst (hd_entry x)) m1 w1 = Some (m', w') /\ noted m1 m' w1 w' /\
    (mg_failure m' = None -> merge_inv m' (drop_key (fst (hd_entry x)) <$> V))) as (m' & w' & Hm' & Hnt' & Hinv'').
  { destruct Hll as [->|[-> Hfailed]].
    - destruct (drop_stale_spec (fst (hd_entry x)) fuel _ _ w1 Hinv') as (m' & w' & Hm' & Hnt' & Hinv'').
      + by apply Forall_insert.
      + intros e He. destruct (Hmin e) as [Hlt|[-> _]]; [rewrite Hp; by right|key_order|key_order].
      + lia.
      + exists m', w'. split_and!; [done..|].
        replace (drop_key (fst (hd_entry x)) <$> V) with (drop_key (fst (hd_entry x)) <$> <[hd_source x := l]> V); [done|].
        rewrite list_fmap_insert. apply list_insert_id. rewrite list_lookup_fmap, HV. cbn.
        destruct (key_eqb_spec (fst (hd_entry x)) (fst (hd_entry x))); [|done].
        f_equal. symmetry. by apply drop_key_above.
    - destruct (drop_stale_ends (fst (hd_entry x)) fuel _ _ w1 Hinv') as (m' & w' & E & Hnt'); [lia|].
      exists m', w'. split_and!; [done..|]. intros Hf. destruct (noted_some _ _ _ _ Hnt' Hfailed). congruence. }
  exists (hd_entry x), m', w'. rewrite Hm'. cbn [mbind option_bind]. split_and!; [done| |done|done| |].
  - pose proof (noted_trans _ _ _ _ _ _ Hnt Hnt') as Hall. unfold noted in Hall. by rewrite Hnf in Hall.
  - intros f Hf. destruct (Hmin f Hf) as [Hlt|[-> _]]; key_order.
  - intros f Hf Ef. destruct (Hmin f Hf) as [Hlt|[_ ?]]; [|done]. rewrite Ef in Hlt. by apply key_lt_irrefl in Hlt.
Qed.

Lemma drop_key_sorted key l : entries_sorted l -> entries_sorted (drop_key key l).
Proof.
  intros Hs. destruct l as [|e l]; cbn; [done|]. destruct (key_eqb _ _); [|done]. by apply sorted_tail in Hs as [? _].
Qed.

Lemma elem_of_drop_keys key V e :
  Forall entries_sorted V -> (forall e, e ∈ concat V -> key_le key (fst e)) ->
  e ∈ concat (drop_key key <$> V) <-> e ∈ concat V /\ fst e <> key.
Proof.
  intros HF Hge. induction HF as [|l V Hl _ IH]; cbn.
  - split; [by intros ?%elem_of_nil|by intros [?%elem_of_nil _]].
  - cbn in Hge. rewrite !elem_of_app, drop_key_elem, IH; [tauto|..]; [|done|];
      intros f Hf; apply Hge; apply elem_of_app; auto.
Qed.

Lemma drop_keys_length key V e :
  Forall entries_sorted V -> e ∈ concat V -> fst e = key ->
  (forall e, e ∈ concat V -> key_le key (fst e)) ->
  (length (concat (drop_key key <$> V)) < length (concat V))%nat.
Proof.
  intros HF He Ek Hge.
  assert (forall W, length (concat (drop_key key <$> W)) <= length (concat W))%nat as Hle.
  { induction W as [|l W IH]; cbn; [done|]. rewrite !length_app.
    assert (length (drop_key key l) <= length l)%nat by (destruct l; cbn; [done|]; destruct (key_eqb _ _); cbn; lia). lia. }
  induction HF as [|l V Hl _ IH]; cbn in *; [by apply elem_of_nil in He|]. rewrite !length_app.
  apply elem_of_app in He as [He|He].
  - specialize (Hle V). destruct l as [|x l]; [by apply elem_of_nil in He|]. cbn.
    destruct (key_eqb_spec (fst x) key) as [_|Hne]; cbn; [lia|]. exfalso.
    apply elem_of_cons in He as [->|He]; [done|]. apply sorted_tail in Hl as [_ Hlt]. specialize (Hlt e He).
    specialize (Hge x ltac:(left)). key_order.
  - assert (length (drop_key key l) <= length l)%nat by (destruct l; cbn; [done|]; destruct (key_eqb _ _); cbn; lia).
    specialize (IH He). assert (length (concat (drop_key key <$> V)) < length (concat V))%nat; [|lia].
    apply IH. intros f Hf. apply Hge, elem_of_app. by right.
Qed.

(** What a merge may hand out of [V]: the newest entry of the smallest key, again and
    again, to the end or to where it stops. *)
Inductive hands_out : list (list entry) -> list entry -> bool -> Prop :=
  | hands_end V : concat V = [] -> hands_out V [] true
  | hands_stop V : hands_out V [] false
  | hands_next V e es b : e ∈ concat V ->
      (forall f, f ∈ concat V -> key_le (fst e) (fst f)) ->
      (forall f, f ∈ concat V -> fst f = fst e -> fst (snd f) <= fst (snd e)) ->
      hands_out (drop_key (fst e) <$> V) es b -> hands_out V (e :: es) b.

(** That is sorted, and holds the newest version of every key: of every key any
    source has, if it goes on to the end. *)
Lemma hands_out_spec V es b : hands_out V es b -> Forall entries_sorted V ->
  entries_sorted es /\ (forall e, e ∈ es -> newest_in (concat V) (fst e) (snd e)) /\
  (b = true -> forall f, f ∈ concat V -> fst f ∈ es.*1).
Proof.
  induction 1 as [V E|V|V e es b He Hge Hseq _ IH]; intros Hsort.
  - split_and!; [constructor|by intros ? ?%elem_of_nil|]. intros _ f. rewrite E. by intros ?%elem_of_nil.
  - split_and!; [constructor|by intros ? ?%elem_of_nil|done].
  - assert (Forall entries_sorted (drop_key (fst e) <$> V)) as Hsort'.
    { apply Forall_fmap. eapply Forall_impl; [exact Hsort|]. intros l. apply drop_key_sorted. }
    destruct (IH Hsort') as (Hs & Hnew & Hall). split_and!.
    + constructor; [done|]. apply Forall_forall. intros f Hf. destruct (Hnew f Hf) as [Hin _].
      apply elem_of_drop_keys in Hin as [Hin Hne]; [|done..]. cbn in Hne. specialize (Hge _ Hin). cbn in Hge.
      unfold entry_lt. key_order.
    + intros f [->|Hf]%elem_of_cons.
      * split; [by destruct e|]. intros w Hw. by apply (Hseq (fst e, w)).
      * destruct (Hnew f Hf) as [Hin Hmax]. apply elem_of_drop_keys in Hin as [Hin Hne]; [|done..].
        split; [done|]. intros w Hw. apply Hmax. by apply elem_of_drop_keys.
    + intros -> f Hf. cbn. rewrite elem_of_cons. destruct (decide (fst f = fst e)) as [|Hne]; [by left|right].
      apply Hall; [done|]. by apply elem_of_drop_keys.
Qed.

(** One turn of a loop over a merge: the end, an entry and what is left, or an entry
    and after it the error of a call that failed. *)
Lemma merge_turn fuel m V w :
  merge_inv m V -> mg_failure m = None -> Forall entries_sorted V -> (length (concat V) <= fuel)%nat ->
  (merge_next fuel m w = Some (None, (m, w)) /\ concat V = []) \/
  exists e m' w', merge_next fuel m w = Some (Some (Ok e), (m', w')) /\ read_through w w' (mg_failure m') /\
    (forall es b, hands_out (drop_key (fst e) <$> V) es b -> hands_out V (e :: es) b) /\ (0 < length (concat V))%nat /\
    match mg_failure m' with
    | None => merge_inv m' (drop_key (fst e) <$> V) /\ Forall entries_sorted (drop_key (fst e) <$> V) /\
        (length (concat (drop_key (fst e) <$> V)) < length (concat V))%nat
    | Some err => forall fuel' w1, exists m1, merge_next fuel' m' w1 = Some (Some (Err err), (m1, w1))
    end.
Proof.
  intros Hinv Hnf Hsort Hfuel. pose proof (merge_next_spec fuel m V w Hinv Hnf Hsort Hfuel) as Hnext.
  destruct (concat V) as [|a b] eqn:EV; [by left|right]. rewrite <- EV in *. clear a b EV.
  destruct Hnext as (e & m' & w' & E & Hr & Hinv' & He & Hge & Hseq). exists e, m', w'. split_and!; [done|done| | |].
  - intros es b. by apply hands_next.
  - destruct (concat V); [by apply elem_of_nil in He|cbn; lia].
  - destruct (mg_failure m') as [err|] eqn:Ef; [intros fuel' w1; unfold merge_next; rewrite Ef; by eexists|].
    split_and!; [by apply Hinv'| |by eapply drop_keys_length].
    apply Forall_fmap. eapply Forall_impl; [exact Hsort|]. intros l. apply drop_key_sorted.
Qed.

(** A merge of sorted sources ends. *)
Lemma merge_collect_spec : forall fuel m V w,
  merge_inv m V -> mg_failure m = None -> Forall entries_sorted V -> (length (concat V) < fuel)%nat ->
  let '(r, w') := merge_collect fuel m w in
  (exists es, r = Ok (Some es) /\ hands_out V es true /\ read_through w w' None) \/
  (exists err, r = Err err /\ read_through w w' (Some err)).
Proof.
  induction fuel as [|fuel IH]; intros m V w Hinv Hnf Hsort Hfuel; [lia|]. cbn [merge_collect].
  destruct (merge_turn (Datatypes.S fuel) m V w Hinv Hnf Hsort ltac:(lia)) as [[-> E]|(e & m' & w1 & -> & Hr & Hout & Hpos & Hm)].
  { cbv beta iota. left. exists []. split_and!; [done|by constructor|apply read_through_refl]. }
  unfold mbind, stm_bind. destruct (mg_failure m') as [err|] eqn:Ef.
  - destruct fuel as [|fuel]; [lia|]. cbn [merge_collect].
    destruct (Hm (Datatypes.S fuel) w1) as [m1 ->]. cbv beta iota. right. by exists err.
  - destruct Hm as (Hinv' & Hsort' & Hlen). specialize (IH m' _ w1 Hinv' Ef Hsort' ltac:(lia)).
    destruct (merge_collect fuel m' w1) as [r w2]. destruct IH as [(es & -> & Ho & Hr2)|(err & -> & Hr2)].
    + left. exists (e :: es). split_and!; [done|by apply Hout|by eapply read_through_trans].
    + right. exists err. split; [done|]. by eapply read_through_trans.
Qed.
End MergeProofs.

(** ** What a plan consumes *)

Lemma key_min_spec a b : key_le (key_min a b) a /\ key_le (key_min a b) b /\ (key_min a b = a \/ key_min a b = b).
Proof. unfold key_min. destruct (key_leb_spec a b) as [|H]; [|apply key_not_le in H]; split_and!; auto; key_order. Qed.

Lemma key_max_spec a b : key_le a (key_max a b) /\ key_le b (key_max a b) /\ (key_max a b = a \/ key_max a b = b).
Proof. unfold key_max. destruct (key_leb_spec a b) as [|H]; [|apply key_not_le in H]; split_and!; auto; key_order. Qed.

Lemma key_le_trans a b c : key_le a b -> key_le b c -> key_le a c.
Proof. intros. key_order. Qed.

Lemma fold_key_min l : forall x, let r := fold_left key_min l x in
  key_le r x /\ (forall y, y ∈ l -> key_le r y) /\ (r = x \/ r ∈ l).
Proof.
  induction l as [|a l IH]; intros x; cbn.
  - split_and!; [key_order|by intros ? ?%elem_of_nil|by left].
  - destruct (IH (key_min x a)) as (H1 & H2 & H3). destruct (key_min_spec x a) as (M1 & M2 & M3). split_and!.
    + by eapply key_le_trans.
    + intros y [->|Hy]%elem_of_cons; [by eapply key_le_trans|auto].
    + rewrite elem_of_cons. destruct H3 as [->|]; [|by auto]. destruct M3; auto.
Qed.

Lemma fold_key_max l : forall x, let r := fold_left key_max l x in
  key_le x r /\ (forall y, y ∈ l -> key_le y r) /\ (r = x \/ r ∈ l).
Proof.
  induction l as [|a l IH]; intros x; cbn.
  - split_and!; [key_order|by intros ? ?%elem_of_nil|by left].
  - destruct (IH (key_max x a)) as (H1 & H2 & H3). destruct (key_max_spec x a) as (M1 & M2 & M3). split_and!.
    + by eapply key_le_trans.
    + intros y [->|Hy]%elem_of_cons; [by eapply key_le_trans|auto].
    + rewrite elem_of_cons. destruct H3 as [->|]; [|by auto]. destruct M3; auto.
Qed.

(** [range_of] is the hull of the files' ranges. *)
Lemma range_of_spec files : files <> [] ->
  let '(min, max) := range_of files in
  (forall f, f ∈ files -> key_le min (fm_min_key f) /\ key_le (fm_max_key f) max) /\
  (exists f, f ∈ files /\ fm_min_key f = min) /\ (exists f, f ∈ files /\ fm_max_key f = max).
Proof.
  intros Hne. destruct files as [|x files]; [done|]. unfold range_of. cbn.
  destruct (fold_key_min (fm_min_key <$> files) (fm_min_key x)) as (A1 & A2 & A3).
  destruct (fold_key_max (fm_max_key <$> files) (fm_max_key x)) as (B1 & B2 & B3). split_and!.
  - intros f [->|Hf]%elem_of_cons; [done|]. split; [apply A2|apply B2]; by apply list_elem_of_fmap_2.
  - destruct A3 as [->|(f & -> & Hf)%list_elem_of_fmap]; [exists x; split; [left|done]|exists f; split; [by right|done]].
  - destruct B3 as [->|(f & -> & Hf)%list_elem_of_fmap]; [exists x; split; [left|done]|exists f; split; [by right|done]].
Qed.

Lemma reduce_lower_number files f :
  reduce lower_number files = Some f -> f ∈ files /\ forall g, g ∈ files -> fm_number f <= fm_number g.
Proof.
  destruct files as [|x files]; cbn; [done|]. intros [= <-].
  assert (forall l x, let r := fold_left lower_number l x in
    (r = x \/ r ∈ l) /\ fm_number r <= fm_number x /\ forall g, g ∈ l -> fm_number r <= fm_number g) as Hind.
  { induction l as [|a l IH]; intros y; cbn; [split_and!; [by left|lia|by intros ? ?%elem_of_nil]|].
    destruct (IH (lower_number y a)) as (H1 & H2 & H3). rewrite elem_of_cons.
    unfold lower_number in *. destruct (Z.ltb_spec (fm_number a) (fm_number y)); split_and!; try lia;
      try (destruct H1 as [->|]; by auto); intros g [->|Hg]%elem_of_cons; auto; lia. }
  destruct (Hind files x) as ([->|Hin] & H2 & H3).
  - split; [left|]. intros g [->|Hg]%elem_of_cons; [lia|auto].
  - split; [by right|]. intros g [->|Hg]%elem_of_cons; [lia|auto].
Qed.

(** The files of the level being drained. *)
Definition drained (snapshot : Snapshot) (level : Z) : list FileMeta :=
  if level =? 0 then at_level snapshot 0 else option_list (reduce lower_number (at_level snapshot level)).

Lemma drained_at_level snapshot level f : f ∈ drained snapshot level -> f ∈ at_level snapshot level.
Proof.
  unfold drained. destruct (Z.eqb_spec level 0) as [->|]; [done|].
  destruct (reduce _ _) as [g|] eqn:E; cbn; [|by intros ?%elem_of_nil].
  intros ->%list_elem_of_singleton. by apply reduce_lower_number in E as [? _].
Qed.

Lemma inputs_for_spec snapshot level f :
  f ∈ inputs_for snapshot level <->
  f ∈ drained snapshot level \/
  f ∈ at_level snapshot (level + 1) /\
    overlaps f (fst (range_of (drained snapshot level))) (snd (range_of (drained snapshot level))) = true.
Proof.
  unfold inputs_for. fold (drained snapshot level). destruct (range_of (drained snapshot level)) as [min max].
  rewrite elem_of_app, list_elem_of_filter. cbn [fst snd]. tauto.
Qed.

Lemma overlaps_spec f min max :
  overlaps f min max = true <-> key_le (fm_min_key f) max /\ key_le min (fm_max_key f).
Proof.
  unfold overlaps. rewrite andb_true_iff.
  destruct (key_leb_spec (fm_min_key f) max), (key_leb_spec min (fm_max_key f)); intuition done.
Qed.

(** Files of one level whose key ranges are apart. *)
Definition files_disjoint (files : list FileMeta) : Prop :=
  forall f g, f ∈ files -> g ∈ files -> f <> g ->
    key_lt (fm_max_key f) (fm_min_key g) \/ key_lt (fm_max_key g) (fm_min_key f).

Definition ranges_ok (files : list FileMeta) : Prop :=
  forall f, f ∈ files -> key_le (fm_min_key f) (fm_max_key f).

Lemma range_of_drained snapshot level :
  ranges_ok (sn_files snapshot) ->
  let '(min, max) := range_of (drained snapshot level) in
  (forall g, g ∈ drained snapshot level -> key_le min (fm_min_key g) /\ key_le (fm_max_key g) max) /\ key_le min max.
Proof.
  intros Hr. destruct (decide (drained snapshot level = [])) as [E|Hne].
  - rewrite E. cbn. split; [by intros ? ?%elem_of_nil|done].
  - pose proof (range_of_spec _ Hne) as Hs. destruct (range_of (drained snapshot level)) as [min max].
    destruct Hs as (Hb & (b1 & Hb1 & Eb1) & _). split; [done|].
    assert (b1 ∈ sn_files snapshot) as Hg by by apply drained_at_level, list_elem_of_filter in Hb1 as [_ ?].
    specialize (Hr b1 Hg). destruct (Hb b1 Hb1). key_order.
Qed.

(** What a compaction leaves at its output level is clear of everything it
    consumes, gaps between the inputs included. *)
Lemma left_behind_clear snapshot level f :
  ranges_ok (sn_files snapshot) -> files_disjoint (at_level snapshot (level + 1)) ->
  f ∈ at_level snapshot (level + 1) -> f ∉ inputs_for snapshot level ->
  key_lt (fm_max_key f) (fst (range_of (inputs_for snapshot level))) \/
  key_lt (snd (range_of (inputs_for snapshot level))) (fm_min_key f).
Proof.
  intros Hr Hdis Hf Hnot.
  assert (forall g, g ∈ at_level snapshot (level + 1) -> key_le (fm_min_key g) (fm_max_key g)) as Hrl.
  { intros g [_ Hg]%list_elem_of_filter. by apply Hr. }
  pose proof (range_of_drained snapshot level Hr) as Hbase.
  pose proof (fun g => inputs_for_spec snapshot level g) as Hin.
  destruct (range_of (drained snapshot level)) as [min max] eqn:Ed. cbn [fst snd] in *.
  destruct Hbase as [Hb Hmm].
  assert (key_lt (fm_max_key f) min \/ key_lt max (fm_min_key f)) as Hclear.
  { destruct (key_leb_spec min (fm_max_key f)) as [H1|H1%key_not_le]; [|by left].
    destruct (key_leb_spec (fm_min_key f) max) as [H2|H2%key_not_le]; [|by right].
    exfalso. apply Hnot, Hin. right. split; [done|]. by apply overlaps_spec. }
  assert (forall g, g ∈ inputs_for snapshot level ->
    (key_lt (fm_max_key f) min -> key_lt (fm_max_key f) (fm_min_key g)) /\
    (key_lt max (fm_min_key f) -> key_lt (fm_max_key g) (fm_min_key f))) as Hapart.
  { intros g Hg. pose proof (proj1 (Hin g) Hg) as [Hg'|[Hg' Hov]].
    - destruct (Hb g Hg'). split; intros; key_order.
    - apply overlaps_spec in Hov as [Ho1 Ho2]. pose proof (Hrl f Hf). pose proof (Hrl g Hg').
      assert (f <> g) as Hfg by (intros ->; done). destruct (Hdis f g Hf Hg' Hfg); split; intros; key_order. }
  destruct (decide (inputs_for snapshot level = [])) as [E|Hne].
  - assert (drained snapshot level = []) as Ed'.
    { unfold inputs_for in E. fold (drained snapshot level) in E. rewrite Ed in E. by apply app_nil in E as [? _]. }
    rewrite Ed' in Ed. rewrite E, Ed. done.
  - pose proof (range_of_spec _ Hne) as Hall. destruct (range_of (inputs_for snapshot level)) as [imin imax].
    destruct Hall as (_ & (a1 & Ha1 & Ea1) & (a2 & Ha2 & Ea2)). cbn [fst snd]. destruct Hclear as [H|H].
    + left. destruct (Hapart a1 Ha1) as [H1 _]. specialize (H1 H). key_order.
    + right. destruct (Hapart a2 Ha2) as [_ H2]. specialize (H2 H). key_order.
Qed.

(** ** When a plan is made *)

(** Once a level is chosen, one stays chosen. *)
Lemma score_levels_some snapshot level_bytes fanout levels : forall c b,
  is_Some (fst (fold_left (score_level snapshot level_bytes fanout) levels (Some c, b))).
Proof. induction levels as [|x l IH]; intros c b; cbn; [done|]. destruct (SFltb _ _); apply IH. Qed.

Lemma score_levels_none snapshot level_bytes fanout levels best :
  fst (fold_left (score_level snapshot level_bytes fanout) levels (None, best)) = None ->
  forall level, level ∈ levels ->
    SFltb best (ratio (bytes_at_level snapshot level) (budget level level_bytes fanout)) = false.
Proof.
  induction levels as [|x levels IH]; intros H level Hl; [by apply elem_of_nil in Hl|]. cbn in H.
  destruct (SFltb best _) eqn:E.
  - destruct (score_levels_some snapshot level_bytes fanout levels x (ratio (bytes_at_level snapshot x) (budget x level_bytes fanout))) as [? Hs]. congruence.
  - apply elem_of_cons in Hl as [->|Hl]; [done|]. by apply IH.
Qed.

Lemma score_levels_from snapshot level_bytes fanout levels : forall c b level,
  fst (fold_left (score_level snapshot level_bytes fanout) levels (c, b)) = Some level ->
  c = Some level \/ level ∈ levels.
Proof.
  induction levels as [|x levels IH]; intros c b level H; cbn in H; [by left|].
  rewrite elem_of_cons. destruct (SFltb _ _); apply IH in H as [H|H]; auto. injection H as ->. auto.
Qed.

Lemma plan_level snapshot l0_trigger level_bytes fanout p :
  plan snapshot l0_trigger level_bytes fanout = Some p ->
  0 <= pl_level p /\ pl_inputs p = inputs_for snapshot (pl_level p) /\
  (pl_level p = 0 -> 0 < l0_trigger <= zlen (at_level snapshot 0)).
Proof.
  unfold plan. destruct (fold_left _ _ _) as [chosen best] eqn:E. destruct chosen as [level|]; [|done].
  cbn. intros [= <-]. cbn [pl_level pl_inputs].
  apply (f_equal fst) in E. cbn [fst] in E.
  destruct ((l0_trigger <=? zlen (at_level snapshot 0)) && (0 <? l0_trigger)) eqn:El;
    apply score_levels_from in E as [E|E]; try done.
  - injection E as <-. apply andb_true_iff in El as [?%Z.leb_le ?%Z.ltb_lt]. split_and!; [done..|]. lia.
  - apply elem_of_seqZ in E. split_and!; [lia|done|]. lia.
  - apply elem_of_seqZ in E. split_and!; [lia|done|]. lia.
Qed.

(** Draining a merge of open tables. *)
Lemma merge_new_tables (tables : list SsTable) (ess : list (list entry)) (w : World) :
  Forall2 sst_holds tables ess ->
  let '(m, w') := merge_new (sst_scan <$> tables) w in
  Forall entries_sorted ess /\ read_through w w' (mg_failure m) /\ (mg_failure m = None -> merge_inv m ess).
Proof.
  intros Hholds. pose proof (merge_new_inv (sst_scan <$> tables) ess w) as Hnew. destruct (merge_new _ w) as [m w'].
  destruct Hnew as (V & Hinv & Hr & HV). { apply Forall2_fmap_l. eapply Forall2_impl; [exact Hholds|]. apply sst_scan_yields. }
  split_and!; [|done|intros Hf; by rewrite <- (HV Hf)].
  apply Forall_forall. intros es [i Hi]%list_elem_of_lookup.
  destruct (Forall2_lookup_r _ _ _ _ _ Hholds Hi) as (t & _ & Ht). by apply sst_holds_sorted in Ht.
Qed.

(** ** Claims *)

(** C12: A merge of files keeps exactly the newest version of every key. Given
    open tables that hold sorted entries, draining [Merge] ends (any fuel above the
    number of entries is enough), either with the error of a call that failed while
    a block was read, or with an output that is strictly sorted by key, in which
    every entry is the newest version of its key among all the inputs, and in which
    no key of any input is missing. Where no call fails it is the latter. *)
Theorem merge_keeps_newest (tables : list SsTable) (ess : list (list entry)) (fuel : nat) (w : World)
  (Hholds : Forall2 sst_holds tables ess) (Hfuel : (length (concat ess) < fuel)%nat) :
  let '(merge, w1) := merge_new (sst_scan <$> tables) w in
  let '(r, w2) := merge_collect fuel merge w1 in
  (exists es, r = Ok (Some es) /\ read_through w w2 None /\ entries_sorted es /\
     (forall e, e ∈ es -> newest_in (concat ess) (fst e) (snd e)) /\
     (forall e, e ∈ concat ess -> fst e ∈ es.*1)) \/
  (exists err, r = Err err /\ read_through w w2 (Some err) /\ ~ no_failures w).
Proof.
  pose proof (merge_new_tables tables ess w Hholds) as Hnew. destruct (merge_new _ w) as [m w1]. destruct Hnew as (Hsort & Hr & Hinv).
  destruct (mg_failure m) as [err|] eqn:Ef.
  - destruct fuel as [|fuel]; [lia|]. cbn [merge_collect]. unfold merge_next. rewrite Ef. right. exists err. split_and!; [done..|].
    intros Hn. by destruct (read_through_calm _ _ _ Hr Hn).
  - pose proof (merge_collect_spec fuel m ess w1 (Hinv eq_refl) Ef Hsort Hfuel) as Hc. destruct (merge_collect fuel m w1) as [r w2].
    destruct Hc as [(es & -> & Ho & Hr2)|(err & -> & Hr2)]; pose proof (read_through_trans _ _ _ _ Hr Hr2) as Hr3.
    + left. exists es. destruct (hands_out_spec _ _ _ Ho Hsort) as (Hs & Hnew & Hall). split_and!; auto.
    + right. exists err. split_and!; [done..|]. intros Hn. by destruct (read_through_calm _ _ _ Hr3 Hn).
Qed.

Lemma merge_keeps_newest_witness :
  let w := calm_world in
  let '(merge, w1) := merge_new (sst_scan <$> [demo_table; demo_table]) w in
  exists es, fst (merge_collect 7 merge w1) = Ok (Some es) /\ entries_sorted es.
Proof.
  pose proof (merge_keeps_newest [demo_table; demo_table] [demo_entries; demo_entries] 7 calm_world) as H.
  cbv zeta. destruct (merge_new _ _) as [m w1]. destruct (merge_collect 7 m w1) as [r w2].
  destruct H as [(es & -> & _ & H & _)|(err & _ & _ & H)].
  - repeat constructor; apply demo_table_holds.
  - cbn. lia.
  - by exists es.
  - by destruct H; constructor.
Defined.

(** C19: A compaction never leaves an overlap behind. The plan consumes live
    files only, all of level 0 when it drains level 0, and every file it leaves at
    the output level lies entirely below or entirely above the whole key range of
    what it consumes; so whatever it writes there cannot overlap what stays. *)
Theorem plan_leaves_no_overlap (snapshot : Snapshot) (l0_trigger level_bytes fanout : Z) (p : Plan)
  (Hplan : plan snapshot l0_trigger level_bytes fanout = Some p)
  (Hranges : ranges_ok (sn_files snapshot))
  (Hdisjoint : files_disjoint (at_level snapshot (output_level p))) :
  (forall f, f ∈ pl_inputs p ->
    f ∈ sn_files snapshot /\ (fm_level f = pl_level p \/ fm_level f = output_level p)) /\
  (pl_level p = 0 -> forall f, f ∈ at_level snapshot 0 -> f ∈ pl_inputs p) /\
  (forall f, f ∈ at_level snapshot (output_level p) -> f ∉ pl_inputs p ->
    key_lt (fm_max_key f) (fst (range_of (pl_inputs p))) \/
    key_lt (snd (range_of (pl_inputs p))) (fm_min_key f)).
Proof.
  apply plan_level in Hplan as (Hl & -> & _). unfold output_level in *. split_and!.
  - intros f [Hf|[Hf _]]%inputs_for_spec; [apply drained_at_level in Hf|];
      apply list_elem_of_filter in Hf as [? ?]; auto.
  - intros E f Hf. apply inputs_for_spec. left. rewrite E. exact Hf.
  - intros f Hf Hn. by apply left_behind_clear.
Qed.

Definition demo_levels : Snapshot :=
  mkSnapshot [mkFileMeta 7 0 (bstr "a") (bstr "m") 900 12; mkFileMeta 3 1 (bstr "b") (bstr "k") 4096 80;
              mkFileMeta 4 1 (bstr "p") (bstr "z") 4096 80] 92 8.

Lemma plan_leaves_no_overlap_witness :
  exists p, plan demo_levels 1 65536 10 = Some p /\
    (mkFileMeta 4 1 (bstr "p") (bstr "z") 4096 80 ∉ pl_inputs p) /\
    (key_lt (bstr "z") (fst (range_of (pl_inputs p))) \/ key_lt (snd (range_of (pl_inputs p))) (bstr "p")).
Proof.
  destruct (plan demo_levels 1 65536 10) as [p|] eqn:E; [|vm_compute in E; discriminate].
  exists p. split; [done|].
  assert (p = mkPlan 0 (take 2 (sn_files demo_levels))) as -> by (vm_compute in E; injection E as <-; reflexivity).
  assert ((mkFileMeta 4 1 (bstr "p") (bstr "z") 4096 80) ∉ take 2 (sn_files demo_levels)) as Hn.
  { cbn. rewrite !not_elem_of_cons. split; [discriminate|]. split; [discriminate|]. apply not_elem_of_nil. }
  split; [exact Hn|].
  destruct (plan_leaves_no_overlap demo_levels 1 65536 10 _ E) as (_ & _ & H).
  - intros f Hf. repeat (apply elem_of_cons in Hf as [->|Hf]; [vm_compute; discriminate|]). by apply elem_of_nil in Hf.
  - intros f g Hf Hg Hne. vm_compute in Hf, Hg.
    repeat (apply elem_of_cons in Hf as [->|Hf]); [| |by apply elem_of_nil in Hf];
      (repeat (apply elem_of_cons in Hg as [->|Hg]); [| |by apply elem_of_nil in Hg]);
      try done; vm_compute; auto.
  - apply (H (mkFileMeta 4 1 (bstr "p") (bstr "z") 4096 80)); [vm_compute; right; left|exact Hn].
Defined.

(** When nothing is planned, the shape is within its limits: level 0 holds
    fewer files than its trigger, unless the trigger is 0, and no deeper level's
    bytes exceed its budget by the score the planner compares. *)
Theorem plan_none_settled (snapshot : Snapshot) (l0_trigger level_bytes fanout : Z)
  (Hplan : plan snapshot l0_trigger level_bytes fanout = None) :
  (l0_trigger <= 0 \/ zlen (at_level snapshot 0) < l0_trigger) /\
  (forall level, 1 <= level <= deepest_level snapshot ->
    SFltb (as_f64 1) (ratio (bytes_at_level snapshot level) (budget level level_bytes fanout)) = false).
Proof.
  unfold plan in Hplan.
  destruct (fold_left _ _ _) as [[level|] best] eqn:E; [done|]. clear Hplan.
  apply (f_equal fst) in E. cbn [fst] in E.
  destruct ((l0_trigger <=? zlen (at_level snapshot 0)) && (0 <? l0_trigger)) eqn:El.
  - by destruct (score_levels_some snapshot level_bytes fanout (seqZ 1 (deepest_level snapshot)) 0
      (ratio (zlen (at_level snapshot 0)) l0_trigger)) as [? Hs]; rewrite E in Hs.
  - split; [apply andb_false_iff in El as [?%Z.leb_gt|?%Z.ltb_ge]; lia|].
    intros level Hl. apply (score_levels_none _ _ _ _ _ E). apply elem_of_seqZ. lia.
Qed.

Lemma plan_none_settled_witness :
  SFltb (as_f64 1) (ratio (bytes_at_level demo_levels 1) (budget 1 65536 10)) = false.
Proof. apply (plan_none_settled demo_levels 4 65536 10); [reflexivity|vm_compute; split; discriminate]. Defined.

(** With a budget of zero, as long as any file sits below level 0 the planner asks
    for another compaction: every deeper level scores infinity. *)
Lemma zero_budget_plans (snapshot : Snapshot) (l0_trigger fanout : Z) : 1 <= deepest_level snapshot ->
  plan snapshot l0_trigger 0 fanout <> None.
Proof.
  intros Hdeep Hplan. unfold plan in Hplan.
  destruct (fold_left _ _ _) as [[level|] best] eqn:E; [done|]. apply (f_equal fst) in E. cbn [fst] in E.
  destruct ((l0_trigger <=? zlen (at_level snapshot 0)) && (0 <? l0_trigger)).
  - by destruct (score_levels_some snapshot 0 fanout (seqZ 1 (deepest_level snapshot)) 0
      (ratio (zlen (at_level snapshot 0)) l0_trigger)) as [? Hs]; rewrite E in Hs.
  - pose proof (score_levels_none _ _ _ _ _ E 1 ltac:(apply elem_of_seqZ; lia)) as H. done.
Qed.
