(* ===== verification/Scores.v ===== *)
(** * The planner's scores are exact

    [compaction.rs] compares levels by ratios of [f64]. Below [2 ^ 53], which is far
    above what a store holds, the rounding never matters: a ratio is greater than one
    exactly when the value is over the limit. So a level is planned for only when it
    is over its budget in whole bytes, and nothing is planned only when none is. *)

From Stdlib Require Import Floats.SpecFloat.
From S2P Require Import Prelude SsTable Manifest Compaction.

(** ** Digits *)

Lemma zdigits_spec n : 0 < n -> 2 ^ (Zdigits2 n - 1) <= n < 2 ^ Zdigits2 n.
Proof.
  intros Hn. destruct n as [|p|p]; [lia| |lia]. clear Hn. cbn [Zdigits2]. induction p as [p IH|p IH|].
  - cbn [digits2_pos]. rewrite Pos2Z.inj_succ. replace (Z.succ _ - 1) with (Z.pos (digits2_pos p)) by lia.
    rewrite Z.pow_succ_r by lia. replace (2 ^ Z.pos (digits2_pos p)) with (2 * 2 ^ (Z.pos (digits2_pos p) - 1)) in *
      by (rewrite <- Z.pow_succ_r by lia; f_equal; lia). lia.
  - cbn [digits2_pos]. rewrite Pos2Z.inj_succ. replace (Z.succ _ - 1) with (Z.pos (digits2_pos p)) by lia.
    rewrite Z.pow_succ_r by lia. replace (2 ^ Z.pos (digits2_pos p)) with (2 * 2 ^ (Z.pos (digits2_pos p) - 1)) in *
      by (rewrite <- Z.pow_succ_r by lia; f_equal; lia). lia.
  - by split.
Qed.

Lemma zdigits_unique n d : 0 <= d -> 2 ^ (d - 1) <= n < 2 ^ d -> 0 < n -> Zdigits2 n = d.
Proof.
  intros Hd [H1 H2] Hn. pose proof (zdigits_spec n Hn) as [H3 H4].
  assert (0 < Zdigits2 n) by (destruct n; cbn; lia).
  destruct (Z.lt_trichotomy (Zdigits2 n) d) as [Hlt|[?|Hlt]]; [|done|].
  - assert (2 ^ Zdigits2 n <= 2 ^ (d - 1)) by (apply Z.pow_le_mono_r; lia). lia.
  - assert (2 ^ d <= 2 ^ (Zdigits2 n - 1)) by (apply Z.pow_le_mono_r; lia). lia.
Qed.

(** ** Rounding *)

(** Shifting a mantissa to the right. *)
Lemma shr_1_m mrs : 0 <= shr_m mrs -> shr_m (shr_1 mrs) = shr_m mrs / 2.
Proof.
  destruct mrs as [m r s]. cbn [shr_m]. intros Hm. destruct m as [|p|p]; [done| |lia]. destruct p as [p|p|]; cbn [shr_1 shr_m]; [| |done].
  - rewrite (Pos2Z.inj_xI p). Z.div_mod_to_equations. lia.
  - rewrite (Pos2Z.inj_xO p). Z.div_mod_to_equations. lia.
Qed.

Lemma iter_pos_swap {A} (f : A -> A) n : forall x, f (SpecFloat.iter_pos f n x) = SpecFloat.iter_pos f n (f x).
Proof. induction n as [n IH|n IH|]; intros x; cbn [SpecFloat.iter_pos]; [by rewrite !IH..|done]. Qed.

Lemma iter_pos_succ {A} (f : A -> A) n : forall x, SpecFloat.iter_pos f (Pos.succ n) x = SpecFloat.iter_pos f n (f x).
Proof.
  induction n as [n IH|n IH|]; intros x; [|done..].
  change (Pos.succ n~1) with (Pos.succ n)~0%positive. cbn [SpecFloat.iter_pos]. rewrite !IH. by rewrite iter_pos_swap.
Qed.

Lemma shr_m_iter n : forall mrs, 0 <= shr_m mrs -> shr_m (SpecFloat.iter_pos shr_1 n mrs) = shr_m mrs / 2 ^ Z.pos n.
Proof.
  induction n as [|n IH] using Pos.peano_ind; intros mrs Hm; [by apply shr_1_m|].
  rewrite iter_pos_succ, IH by (rewrite shr_1_m by done; apply Z.div_pos; lia). rewrite shr_1_m by done.
  rewrite Z.div_div by lia. f_equal. rewrite Pos2Z.inj_succ, Z.pow_succ_r by lia. done.
Qed.

Lemma shr_record_m m loc : shr_m (shr_record_of_loc m loc) = m.
Proof. by destruct loc as [|[]]. Qed.

Lemma round_nearest_even_up m loc : round_nearest_even m loc = m \/ round_nearest_even m loc = m + 1.
Proof. destruct loc as [|[]]; cbn; auto. destruct (Z.even m); auto. Qed.

(** The mantissas of 53 bits. *)
Abbreviation mantissa m := (2 ^ 52 <= m < 2 ^ 53).

(** Bringing a number of at least 53 digits down to 53. *)
Lemma shr_fexp_down m e loc : 0 < m -> 53 <= Zdigits2 m -> -1000 <= e ->
  exists mrs, shr_fexp 53 1024 m e loc = (mrs, e + (Zdigits2 m - 53)) /\ shr_m mrs = m / 2 ^ (Zdigits2 m - 53).
Proof.
  intros Hm Hd He. unfold shr_fexp, fexp, emin. rewrite Z.max_l by lia.
  replace (Zdigits2 m + e - 53 - e) with (Zdigits2 m - 53) by lia.
  destruct (Zdigits2 m - 53) as [|n|n] eqn:E; [| |lia]; cbn [shr]; eexists; split.
  - f_equal. lia.
  - rewrite shr_record_m. by rewrite Z.div_1_r.
  - done.
  - by rewrite shr_m_iter; rewrite shr_record_m; [|lia].
Qed.

Lemma mantissa_digits m : mantissa m -> Zdigits2 m = 53.
Proof. intros Hm. apply zdigits_unique; [lia|exact Hm|lia]. Qed.

Lemma shifted_mantissa m : 0 < m -> 53 <= Zdigits2 m -> mantissa (m / 2 ^ (Zdigits2 m - 53)).
Proof.
  intros Hm Hd. pose proof (zdigits_spec m Hm) as [H1 H2]. split.
  - apply Z.div_le_lower_bound; [lia|]. rewrite <- Z.pow_add_r by lia. etransitivity; [|exact H1]. apply Z.pow_le_mono_r; lia.
  - apply Z.div_lt_upper_bound; [lia|]. rewrite <- Z.pow_add_r by lia. eapply Z.lt_le_trans; [exact H2|]. apply Z.pow_le_mono_r; lia.
Qed.

(** Rounding a number of at least 53 digits: the leading 53, or the next number up. *)
Lemma round_aux_spec m e loc : 0 < m -> 53 <= Zdigits2 m -> -1000 <= e -> e + Zdigits2 m <= 1000 ->
  let q := m / 2 ^ (Zdigits2 m - 53) in
  exists M E, binary_round_aux 53 1024 false m e loc = S754_finite false M E /\ mantissa (Z.pos M) /\
    (E = e + (Zdigits2 m - 53) /\ q <= Z.pos M <= q + 1 \/ E = e + (Zdigits2 m - 53) + 1 /\ Z.pos M = 2 ^ 52).
Proof.
  intros Hm Hd He Hu q. destruct (shr_fexp_down m e loc Hm Hd He) as (mrs & H1 & H2).
  pose proof (shifted_mantissa m Hm Hd) as Hq. fold q in H2, Hq.
  unfold binary_round_aux. rewrite H1. set (m1 := round_nearest_even _ _).
  assert (m1 = q \/ m1 = q + 1) as Hm1 by (unfold m1; rewrite <- H2; apply round_nearest_even_up).
  destruct (decide (m1 = 2 ^ 53)) as [E|E].
  - destruct (shr_fexp_down m1 (e + (Zdigits2 m - 53)) loc_Exact ltac:(lia) ltac:(rewrite E; done) ltac:(lia)) as (mrs' & -> & H4).
    rewrite H4, E. change (2 ^ 53 / 2 ^ (Zdigits2 (2 ^ 53) - 53)) with (Z.pos (2 ^ 52)). cbv match.
    rewrite (proj2 (Z.leb_le _ _)) by (change (Zdigits2 (2 ^ 53)) with 54; lia).
    eexists _, _. split; [done|]. split; [by split|]. right. split; [|done]. change (Zdigits2 (2 ^ 53)) with 54. lia.
  - assert (mantissa m1) as Hr by lia. pose proof (mantissa_digits m1 Hr) as Hd1.
    destruct (shr_fexp_down m1 (e + (Zdigits2 m - 53)) loc_Exact ltac:(lia) ltac:(lia) ltac:(lia)) as (mrs' & -> & H4).
    rewrite H4, Hd1, Z.div_1_r. destruct m1 as [|M|M] eqn:Em; [lia| |lia]. rewrite (proj2 (Z.leb_le _ _)) by lia.
    eexists _, _. split; [done|]. split; [done|]. left. lia.
Qed.

(** A mantissa of exactly 53 digits is kept. *)
Lemma round_aux_mantissa m e : mantissa (Z.pos m) -> -1000 <= e <= 900 ->
  binary_round_aux 53 1024 false (Z.pos m) e loc_Exact = S754_finite false m e.
Proof.
  intros Hm He. pose proof (mantissa_digits _ Hm) as Hd.
  assert (forall e', -1000 <= e' -> shr_fexp 53 1024 (Z.pos m) e' loc_Exact = (shr_record_of_loc (Z.pos m) loc_Exact, e')) as Hs.
  { intros e' H. unfold shr_fexp, fexp, emin. rewrite Hd, Z.max_l by lia. by replace (53 + e' - 53 - e') with 0 by lia. }
  unfold binary_round_aux. rewrite Hs by lia. cbn [shr_record_of_loc shr_m loc_of_shr_record round_nearest_even].
  rewrite Hs by lia. cbn [shr_record_of_loc shr_m]. by rewrite (proj2 (Z.leb_le _ _)) by lia.
Qed.

(** ** Whole numbers as [f64] *)

Lemma shifted_left p n : Z.pos (Pos.iter xO p n) = Z.pos p * 2 ^ Z.pos n.
Proof.
  induction n as [|n IH] using Pos.peano_ind; [cbn; lia|].
  rewrite Pos.iter_succ, Pos2Z.inj_xO, IH, Pos2Z.inj_succ, Z.pow_succ_r by lia. lia.
Qed.

(** A number below [2 ^ 53] is represented exactly. *)
Lemma as_f64_exact v : 0 < v < 2 ^ 53 ->
  exists M a, as_f64 v = S754_finite false M (- a) /\ mantissa (Z.pos M) /\ 0 <= a <= 52 /\ Z.pos M = v * 2 ^ a.
Proof.
  intros Hv. destruct v as [|p|p]; [lia| |lia]. pose proof (zdigits_spec (Z.pos p) ltac:(lia)) as [H1 H2].
  set (d := Zdigits2 (Z.pos p)) in *. assert (1 <= d) by (unfold d; cbn; lia).
  assert (d <= 53).
  { destruct (decide (d <= 53)); [done|]. assert (2 ^ 53 <= 2 ^ (d - 1)) by (apply Z.pow_le_mono_r; lia). lia. }
  set (a := 53 - d). assert (mantissa (Z.pos p * 2 ^ a)) as Hm.
  { split.
    - replace 52 with ((d - 1) + a) by lia. rewrite Z.pow_add_r by lia. apply Z.mul_le_mono_nonneg_r; lia.
    - replace 53 with (d + a) by lia. rewrite Z.pow_add_r by lia. apply Z.mul_lt_mono_pos_r; lia. }
  unfold as_f64, binary_normalize, binary_round, fexp, emin. change (Z.pos (digits2_pos p)) with d.
  rewrite Z.max_l by lia. unfold shl_align.
  assert (d + 0 - 53 - 0 = - a) as -> by lia. assert (d + 0 - 53 = - a) as -> by lia.
  destruct a as [|n|n] eqn:E; [| |lia].
  - exists p, 0. cbv beta iota zeta delta [Z.opp]. rewrite round_aux_mantissa by lia. split; [done|]. split; [lia|]. split; [lia|]. lia.
  - assert (Z.pos (Pos.iter xO p n) = Z.pos p * 2 ^ Z.pos n) as Hs by apply shifted_left.
    cbv beta iota zeta delta [Z.opp]. rewrite round_aux_mantissa by (rewrite ?Hs; lia). exists (Pos.iter xO p n), (Z.pos n).
    split; [done|]. rewrite Hs. split; [done|]. split; [lia|done].
Qed.

(** A number from [2 ^ 53] up has an exponent above zero. *)
Lemma as_f64_large v : 2 ^ 53 <= v <= u64_max ->
  exists M E, as_f64 v = S754_finite false M E /\ mantissa (Z.pos M) /\ 1 <= E <= 12.
Proof.
  intros Hv. unfold u64_max in Hv. destruct v as [|p|p]; [lia| |lia]. pose proof (zdigits_spec (Z.pos p) ltac:(lia)) as [H1 H2].
  assert (1 <= Zdigits2 (Z.pos p)) by (cbn; lia).
  assert (53 < Zdigits2 (Z.pos p)) by (apply (Z.pow_lt_mono_r_iff 2); lia).
  assert (Zdigits2 (Z.pos p) - 1 < 64) by (apply (Z.pow_lt_mono_r_iff 2); lia).
  unfold as_f64, binary_normalize, binary_round, fexp, emin. change (Z.pos (digits2_pos p)) with (Zdigits2 (Z.pos p)).
  rewrite Z.max_l by lia. unfold shl_align. destruct (Zdigits2 (Z.pos p) + 0 - 53 - 0) as [|n|n] eqn:E; [lia| |lia].
  destruct (round_aux_spec (Z.pos p) 0 loc_Exact ltac:(lia) ltac:(lia) ltac:(lia) ltac:(lia)) as (M & e & -> & Hm & He).
  exists M, e. split; [done|]. split; [done|]. lia.
Qed.

(** ** Division *)

(** The quotient of two mantissas: at least 53 bits before rounding. *)
Lemma div_spec M1 E1 M2 E2 : mantissa (Z.pos M1) -> mantissa (Z.pos M2) -> -100 <= E1 <= 100 -> -100 <= E2 <= 100 ->
  let q := Z.pos M1 * 2 ^ 53 / Z.pos M2 in
  let r := (Z.pos M1 * 2 ^ 53) mod Z.pos M2 in
  SFdiv 53 1024 (S754_finite false M1 E1) (S754_finite false M2 E2) =
    binary_round_aux 53 1024 false q (E1 - E2 - 53) (new_location (Z.pos M2) r).
Proof.
  intros H1 H2 HE1 HE2 q r. unfold SFdiv, SFdiv_core_binary.
  rewrite (mantissa_digits _ H1), (mantissa_digits _ H2). unfold fexp, emin.
  rewrite Z.max_l by lia. rewrite Z.min_l by lia. replace (E1 - E2 - (53 + E1 - (53 + E2) - 53)) with 53 by lia.
  rewrite Z.shiftl_mul_pow2 by lia. cbv match.
  unfold q, r, Z.div, Z.modulo. destruct (Z.div_eucl (Z.pos M1 * 2 ^ 53) (Z.pos M2)) as [q' r'].
  by replace (53 + E1 - (53 + E2) - 53) with (E1 - E2 - 53) by lia.
Qed.

Lemma quotient_range M1 M2 : mantissa M1 -> mantissa M2 -> 2 ^ 52 <= M1 * 2 ^ 53 / M2 < 2 ^ 54.
Proof.
  intros H1 H2. split; [apply Z.div_le_lower_bound|apply Z.div_lt_upper_bound]; try lia.
Qed.

Lemma quotient_digits q : 2 ^ 52 <= q < 2 ^ 54 -> Zdigits2 q = if q <? 2 ^ 53 then 53 else 54.
Proof. intros Hq. destruct (Z.ltb_spec q (2 ^ 53)); apply zdigits_unique; lia. Qed.

Lemma as_f64_one : as_f64 1 = S754_finite false (2 ^ 52) (-52).
Proof. done. Qed.

Lemma one_less M E : SFltb (as_f64 1) (S754_finite false M E) = (-52 <? E) || ((E =? -52) && (2 ^ 52 <? Z.pos M)).
Proof.
  rewrite as_f64_one. unfold SFltb, SFcompare. destruct (Z.compare_spec (-52) E) as [<-|H|H].
  - change ((-52 <? -52) || ((-52 =? -52) && (2 ^ 52 <? Z.pos M))) with (2 ^ 52 <? Z.pos M). change (Pos.compare_cont Eq (2 ^ 52) M) with (2 ^ 52 ?= M)%positive.
    change (2 ^ 52 <? Z.pos M) with (match Z.pos (2 ^ 52) ?= Z.pos M with Lt => true | _ => false end). done.
  - by rewrite (proj2 (Z.ltb_lt _ _)).
  - rewrite (proj2 (Z.ltb_ge _ _)) by lia. by rewrite (proj2 (Z.eqb_neq _ _)) by lia.
Qed.

(** The quotient rounded: its exponent and mantissa, for a quotient of 53 or 54 bits. *)
Lemma quotient_rounds q e loc : 2 ^ 52 <= q < 2 ^ 54 -> -1000 <= e <= 900 ->
  let n := if q <? 2 ^ 53 then 0 else 1 in
  exists M E, binary_round_aux 53 1024 false q e loc = S754_finite false M E /\ mantissa (Z.pos M) /\
    (E = e + n /\ q / 2 ^ n <= Z.pos M <= q / 2 ^ n + 1 \/ E = e + n + 1 /\ Z.pos M = 2 ^ 52).
Proof.
  intros Hq He n. pose proof (quotient_digits q Hq) as Hd.
  destruct (round_aux_spec q e loc ltac:(lia)) as (M & E & H1 & H2 & H3); [rewrite ?Hd; destruct (q <? _); lia..|].
  exists M, E. split; [done|]. split; [done|]. rewrite Hd in H3.
  by replace ((if q <? 2 ^ 53 then 53 else 54) - 53) with n in H3 by (unfold n; destruct (q <? _); lia).
Qed.

(** A quotient that is not above one is not rounded above it. *)
Lemma quotient_not_above M1 E1 M2 E2 : mantissa (Z.pos M1) -> mantissa (Z.pos M2) -> -100 <= E1 <= 100 -> -100 <= E2 <= 100 ->
  E1 < E2 \/ E1 = E2 /\ Z.pos M1 <= Z.pos M2 ->
  SFltb (as_f64 1) (SFdiv 53 1024 (S754_finite false M1 E1) (S754_finite false M2 E2)) = false.
Proof.
  intros H1 H2 HE1 HE2 Hle. rewrite div_spec by done. pose proof (quotient_range _ _ H1 H2) as Hq.
  set (q := Z.pos M1 * 2 ^ 53 / Z.pos M2) in *.
  destruct (decide (E1 = E2 /\ q = 2 ^ 53)) as [[<- Eq]|Hne].
  - destruct Hle as [?|[_ Hle]]; [lia|]. assert (Z.pos M1 = Z.pos M2) as HM.
    { pose proof (Z.mul_div_le (Z.pos M1 * 2 ^ 53) (Z.pos M2) ltac:(lia)) as Hdm. fold q in Hdm. rewrite Eq in Hdm. clear - Hdm Hle. lia. }
    rewrite HM, Z.mul_comm, Z.mod_mul by lia. rewrite Eq. replace (E1 - E1 - 53) with (-53) by lia.
    unfold new_location. by destruct (Z.even _).
  - destruct (quotient_rounds q (E1 - E2 - 53) (new_location (Z.pos M2) ((Z.pos M1 * 2 ^ 53) mod Z.pos M2)) Hq ltac:(lia))
      as (M & E & -> & Hm & He).
    rewrite one_less. assert (E1 = E2 -> q < 2 ^ 53) as Hlt.
    { intros <-. destruct Hle as [?|[_ Hle]]; [lia|]. assert (q <= 2 ^ 53); [|lia].
      apply Z.div_le_upper_bound; lia. }
    destruct (Z.ltb_spec q (2 ^ 53)); destruct (Z.ltb_spec (-52) E); destruct (Z.eqb_spec E (-52));
      destruct (Z.ltb_spec (2 ^ 52) (Z.pos M)); try done; exfalso; lia.
Qed.

(** A quotient above one, by as much as two numbers below [2 ^ 53] can differ, is
    rounded above it. *)
Lemma quotient_above M1 E1 M2 E2 : mantissa (Z.pos M1) -> mantissa (Z.pos M2) -> -100 <= E1 <= 100 -> -100 <= E2 <= 100 ->
  E1 = E2 /\ Z.pos M2 < Z.pos M1 \/ E1 = E2 + 1 /\ Z.pos M2 + 2 <= 2 ^ 53 \/ E2 + 2 <= E1 ->
  SFltb (as_f64 1) (SFdiv 53 1024 (S754_finite false M1 E1) (S754_finite false M2 E2)) = true.
Proof.
  intros H1 H2 HE1 HE2 Hlt. rewrite div_spec by done. pose proof (quotient_range _ _ H1 H2) as Hq.
  pose proof (Z.div_mod (Z.pos M1 * 2 ^ 53) (Z.pos M2) ltac:(lia)) as Hdm.
  pose proof (Z.mod_pos_bound (Z.pos M1 * 2 ^ 53) (Z.pos M2) ltac:(lia)) as Hr.
  set (q := Z.pos M1 * 2 ^ 53 / Z.pos M2) in *. set (r := (Z.pos M1 * 2 ^ 53) mod Z.pos M2) in *.
  destruct (decide (E1 = E2 /\ q = 2 ^ 53 + 1)) as [[<- Eq]|Hne].
  - assert (r <> 0) by (intros E; rewrite E, Eq in Hdm; lia). rewrite Eq. replace (E1 - E1 - 53) with (-53) by lia.
    unfold new_location, new_location_even, new_location_odd. destruct r as [|r0|r0]; [done| |lia].
    destruct (Z.even (Z.pos M2)); [by destruct (Z.compare _ _)|]. by destruct (Z.compare _ _).
  - destruct (quotient_rounds q (E1 - E2 - 53) (new_location (Z.pos M2) r) Hq ltac:(lia)) as (M & E & -> & Hm & He).
    rewrite one_less.
    assert (E1 = E2 -> 2 ^ 53 + 2 <= q).
    { intros <-. destruct Hlt as [[_ Hlt]|?]; [|lia]. assert (2 ^ 53 + 1 <= q); [|lia]. apply Z.div_le_lower_bound; lia. }
    assert (E1 = E2 + 1 -> 2 ^ 52 + 1 <= q) by (intros ->; apply Z.div_le_lower_bound; lia).
    destruct (Z.ltb_spec q (2 ^ 53)); destruct (Z.ltb_spec (-52) E); destruct (Z.eqb_spec E (-52));
      destruct (Z.ltb_spec (2 ^ 52) (Z.pos M)); try done; exfalso; Z.div_mod_to_equations; lia.
Qed.

(** ** The ratio *)

(** A ratio is above one exactly when the value is above the limit. *)
Lemma ratio_above_one v l : 0 <= v < 2 ^ 53 -> 0 < l <= u64_max -> SFltb (as_f64 1) (ratio v l) = (l <? v).
Proof.
  intros Hv Hl. unfold ratio. rewrite (proj2 (Z.eqb_neq l 0)) by lia.
  destruct (decide (v = 0)) as [->|Hv0].
  { rewrite (proj2 (Z.ltb_ge l 0)) by lia. change (as_f64 0) with (S754_zero false).
    destruct (decide (l < 2 ^ 53)).
    - by destruct (as_f64_exact l) as (M & a & -> & _); [lia|].
    - by destruct (as_f64_large l) as (M & E & -> & _); [lia|]. }
  destruct (as_f64_exact v) as (M1 & a & -> & H1 & Ha & HM1); [lia|].
  destruct (decide (l < 2 ^ 53)) as [Hs|Hs].
  - destruct (as_f64_exact l) as (M2 & b & -> & H2 & Hb & HM2); [lia|].
    assert (forall c, 0 <= c -> 1 <= 2 ^ c) as Hpow by (intros c Hc; pose proof (Z.pow_pos_nonneg 2 c); lia).
    destruct (Z.ltb_spec l v) as [Hlt|Hle].
    + apply quotient_above; try lia. assert (a <= b).
      { destruct (decide (a <= b)); [done|]. assert (2 ^ a = 2 * 2 ^ (a - b - 1) * 2 ^ b) as Hp.
        { rewrite <- Z.pow_succ_r, <- Z.pow_add_r by lia. f_equal. lia. }
        pose proof (Hpow (a - b - 1) ltac:(lia)). pose proof (Hpow b ltac:(lia)). nia. }
      destruct (decide (a = b)) as [->|?]; [left; split; [done|]; pose proof (Hpow b ltac:(lia)); nia|].
      destruct (decide (b = a + 1)) as [->|?]; [|lia]. right; left. split; [lia|].
      rewrite Z.pow_add_r in HM2 by lia. lia.
    + apply quotient_not_above; try lia. assert (b <= a).
      { destruct (decide (b <= a)); [done|]. assert (2 ^ b = 2 * 2 ^ (b - a - 1) * 2 ^ a) as Hp.
        { rewrite <- Z.pow_succ_r, <- Z.pow_add_r by lia. f_equal. lia. }
        pose proof (Hpow (b - a - 1) ltac:(lia)). pose proof (Hpow a ltac:(lia)). nia. }
      destruct (decide (a = b)) as [->|?]; [|lia]. right. split; [done|]. pose proof (Hpow b ltac:(lia)). nia.
  - destruct (as_f64_large l) as (M2 & E2 & -> & H2 & HE2); [lia|]. rewrite (proj2 (Z.ltb_ge l v)) by lia.
    apply quotient_not_above; lia.
Qed.

(** A quotient of equal numbers is one. *)
Lemma ratio_self v : 0 < v < 2 ^ 53 -> ratio v v = as_f64 1.
Proof.
  intros Hv. unfold ratio. rewrite (proj2 (Z.eqb_neq v 0)) by lia.
  destruct (as_f64_exact v) as (M & a & -> & Hm & Ha & _); [lia|]. rewrite div_spec by lia.
  rewrite Z.mul_comm, Z.mod_mul, Z.div_mul by lia. replace (- a - - a - 53) with (-53) by lia.
  unfold new_location. by destruct (Z.even _).
Qed.

(** ** Comparing scores *)

(** A score: neither negative nor undefined. *)
Definition is_score (x : spec_float) : bool :=
  match x with S754_zero s | S754_infinity s | S754_finite s _ _ => negb s | S754_nan => false end.

Lemma ratio_is_score v l : 0 <= v < 2 ^ 53 -> 0 <= l <= u64_max -> is_score (ratio v l) = true.
Proof.
  intros Hv Hl. unfold ratio. destruct (Z.eqb_spec l 0) as [|Hl0]; [done|].
  assert (exists M E, as_f64 l = S754_finite false M E /\ mantissa (Z.pos M) /\ -52 <= E <= 12) as (M2 & E2 & -> & H2 & HE2).
  { destruct (decide (l < 2 ^ 53)).
    - destruct (as_f64_exact l) as (M & a & -> & Hm & Ha & _); [lia|]. exists M, (- a). split; [done|]. split; [done|lia].
    - destruct (as_f64_large l) as (M & E & -> & Hm & HE); [lia|]. exists M, E. split; [done|]. split; [done|lia]. }
  destruct (decide (v = 0)) as [->|Hv0]; [done|].
  destruct (as_f64_exact v) as (M1 & a & -> & H1 & Ha & _); [lia|]. rewrite div_spec by lia.
  destruct (quotient_rounds (Z.pos M1 * 2 ^ 53 / Z.pos M2) (- a - E2 - 53)
    (new_location (Z.pos M2) ((Z.pos M1 * 2 ^ 53) mod Z.pos M2)) (quotient_range _ _ H1 H2) ltac:(lia)) as (M & E & -> & _). done.
Qed.

(** Scores are ordered as their exponents and mantissas are. *)
Definition score_key (x : spec_float) : Z * Z * Z :=
  match x with
  | S754_finite _ m e => (1, e, Z.pos m)
  | S754_infinity _ => (2, 0, 0)
  | _ => (0, 0, 0)
  end.

Definition key3_lt (a b : Z * Z * Z) : Prop :=
  a.1.1 < b.1.1 \/ a.1.1 = b.1.1 /\ (a.1.2 < b.1.2 \/ a.1.2 = b.1.2 /\ a.2 < b.2).

Lemma score_lt x y : is_score x = true -> is_score y = true -> SFltb x y = true <-> key3_lt (score_key x) (score_key y).
Proof.
  unfold key3_lt. destruct x as [[]|[]| |[] m1 e1], y as [[]|[]| |[] m2 e2]; try done; intros _ _; cbn;
    try (split; [done|lia]); try (split; [lia|done]).
  unfold SFltb, SFcompare. destruct (Z.compare_spec e1 e2) as [->|H|H]; [|split; [lia|done]|split; [done|lia]].
  change (Pos.compare_cont Eq m1 m2) with (m1 ?= m2)%positive. destruct (Pos.compare_spec m1 m2); split; try done; lia.
Qed.

Lemma score_not_lt x y : is_score x = true -> is_score y = true -> SFltb x y = false <-> ~ key3_lt (score_key x) (score_key y).
Proof. intros Hx Hy. rewrite <- score_lt by done. by destruct (SFltb x y). Qed.

(** What is not above a score is not above a greater one. *)
Lemma score_raise x y z : is_score x = true -> is_score y = true -> is_score z = true ->
  SFltb x y = true -> SFltb x z = false -> SFltb y z = false.
Proof.
  intros Hx Hy Hz. rewrite (score_lt x y), (score_not_lt x z), (score_not_lt y z) by done. unfold key3_lt. lia.
Qed.


(** ** The planner *)

Lemma deepest_nonneg snapshot : 0 <= deepest_level snapshot.
Proof. unfold deepest_level. induction (fm_level <$> sn_files snapshot); cbn; lia. Qed.

Lemma level_below_deepest snapshot f : f ∈ sn_files snapshot -> fm_level f <= deepest_level snapshot.
Proof.
  unfold deepest_level. induction (sn_files snapshot) as [|g fs IH]; intros Hf; [by apply elem_of_nil in Hf|].
  apply elem_of_cons in Hf as [->|Hf]; cbn; [lia|]. specialize (IH Hf). lia.
Qed.

Lemma beyond_deepest snapshot level : deepest_level snapshot < level -> at_level snapshot level = [].
Proof.
  intros Hl. apply elem_of_nil_inv. intros f [E Hf]%list_elem_of_filter. apply level_below_deepest in Hf. lia.
Qed.

Lemma levels_snoc_elem (seen : list Z) level l : l ∈ seen ++ [level] -> l ∈ seen \/ l = level.
Proof. rewrite elem_of_app, list_elem_of_singleton. done. Qed.

Lemma levels_scanned snapshot l : l ∈ [0] ++ seqZ 1 (deepest_level snapshot) <-> 0 <= l <= deepest_level snapshot.
Proof. rewrite elem_of_app, list_elem_of_singleton, elem_of_seqZ. pose proof (deepest_nonneg snapshot). lia. Qed.

Lemma bytes_nonneg snapshot level : 0 <= bytes_at_level snapshot level.
Proof.
  unfold bytes_at_level. induction (at_level snapshot level) as [|f fs _] using rev_ind; [done|].
  rewrite fold_left_app. cbn [fold_left]. apply Z.mod_pos_bound. lia.
Qed.

Section Planner.
Variables (snapshot : Snapshot) (l0_trigger level_bytes fanout : Z).

(** How far a level is past its limit, as the planner measures it. *)
Definition level_score (level : Z) : spec_float :=
  if level =? 0 then ratio (zlen (at_level snapshot 0)) l0_trigger
  else ratio (bytes_at_level snapshot level) (budget level level_bytes fanout).

(** Whether a level is due, in whole numbers: level 0 by its count of files against
    the trigger, a deeper one by its bytes over its budget. *)
Definition level_due (level : Z) : bool :=
  if level =? 0 then (l0_trigger <=? zlen (at_level snapshot 0)) && (0 <? l0_trigger)
  else budget level level_bytes fanout <? bytes_at_level snapshot level.

Context (Hbytes : 0 < level_bytes) (Hfanout : 0 < fanout)
  (Hfiles : zlen (at_level snapshot 0) < 2 ^ 53)
  (Hlevels : forall level, bytes_at_level snapshot level < 2 ^ 53).

Lemma budget_range level : 0 < budget level level_bytes fanout <= u64_max.
Proof using Hbytes Hfanout.
  unfold budget, saturating_mul, saturating_pow.
  assert (0 < fanout ^ wrap32 (Z.min level u32_max - 1)) by (apply Z.pow_pos_nonneg; [lia|]; apply Z.mod_pos_bound; lia).
  assert (0 < u64_max) by done. nia.
Qed.

Lemma level_score_above level : 1 <= level -> SFltb (as_f64 1) (level_score level) = level_due level.
Proof using Hbytes Hfanout Hlevels.
  intros Hl. unfold level_score, level_due. rewrite (proj2 (Z.eqb_neq level 0)) by lia.
  apply ratio_above_one; [split; [apply bytes_nonneg|apply Hlevels]|apply budget_range].
Qed.

Lemma deep_score level : 1 <= level -> is_score (level_score level) = true.
Proof using Hbytes Hfanout Hlevels.
  intros Hl. unfold level_score. rewrite (proj2 (Z.eqb_neq level 0)) by lia. apply ratio_is_score; [split; [apply bytes_nonneg|apply Hlevels]|].
  pose proof (budget_range level). lia.
Qed.

Lemma due_score level : 0 <= level -> level_due level = true ->
  is_score (level_score level) = true /\ SFltb (level_score level) (as_f64 1) = false.
Proof using Hbytes Hfanout Hfiles Hlevels.
  intros Hl Hd. destruct (decide (level = 0)) as [->|Hn].
  - unfold level_due, level_score in *. cbn [Z.eqb] in *. apply andb_true_iff in Hd as [H1%Z.leb_le H2%Z.ltb_lt].
    assert (l0_trigger <= u64_max) by (unfold u64_max; lia). assert (is_score (ratio (zlen (at_level snapshot 0)) l0_trigger) = true) as Hs
      by (apply ratio_is_score; lia).
    split; [done|]. destruct (decide (l0_trigger = zlen (at_level snapshot 0))) as [->|Hne]; [by rewrite ratio_self by lia|].
    assert (SFltb (as_f64 1) (ratio (zlen (at_level snapshot 0)) l0_trigger) = true) as Ha
      by (rewrite ratio_above_one by lia; apply Z.ltb_lt; lia).
    rewrite score_lt in Ha by done. rewrite score_not_lt by done. unfold key3_lt in *. lia.
  - assert (is_score (level_score level) = true) as Hs by (apply deep_score; lia). split; [done|].
    rewrite <- level_score_above in Hd by lia. rewrite score_lt in Hd by done. rewrite score_not_lt by done. unfold key3_lt in *. lia.
Qed.

(** The state of the planner's loop: the best score so far and whose it is. *)
Definition best_so_far (seen : list Z) (acc : option Z * spec_float) : Prop :=
  match acc.1 with
  | None => acc.2 = as_f64 1
  | Some level => 0 <= level /\ level ∈ seen /\ level_due level = true /\ acc.2 = level_score level
  end /\
  forall level, level ∈ seen -> (acc.1 = None -> level_due level = false) /\
    (level_due level = true -> SFltb acc.2 (level_score level) = false).

Lemma best_so_far_score seen acc : best_so_far seen acc -> is_score acc.2 = true /\ SFltb acc.2 (as_f64 1) = false.
Proof using Hbytes Hfanout Hfiles Hlevels.
  destruct acc as [[level|] best]; intros [H _]; cbn in *; [|by rewrite H]. destruct H as (H0 & _ & Hd & ->). by apply due_score.
Qed.

Lemma score_level_best seen acc level : 1 <= level -> Forall (Z.le 0) seen ->
  best_so_far seen acc -> best_so_far (seen ++ [level]) (score_level snapshot level_bytes fanout acc level).
Proof using Hbytes Hfanout Hfiles Hlevels.
  intros Hl Hseen Hb. pose proof (best_so_far_score _ _ Hb) as [Hs1 Hs2]. destruct Hb as [Hc Hb].
  destruct acc as [chosen best]; cbn [fst snd] in *. unfold score_level.
  assert (ratio (bytes_at_level snapshot level) (budget level level_bytes fanout) = level_score level) as ->
    by (unfold level_score; by rewrite (proj2 (Z.eqb_neq level 0)) by lia).
  pose proof (deep_score level Hl) as Hs. pose proof (level_score_above level Hl) as Ha.
  destruct (SFltb best (level_score level)) eqn:E.
  - assert (level_due level = true) as Hd.
    { rewrite <- Ha. rewrite score_lt in * by done. rewrite score_not_lt in Hs2 by done. unfold key3_lt in *. lia. }
    split; cbn [fst snd]; [split_and!; [lia|apply elem_of_app; right; by left|done..]|].
    intros l [Hin| ->]%levels_snoc_elem; (split; [done|]).
    + intros Hdl. apply Hb in Hin as Hin'. destruct Hin' as [_ Hin']. rewrite Forall_forall in Hseen.
      destruct (due_score l (Hseen l Hin) Hdl) as [Hsl _]. by eapply score_raise, Hin'.
    + intros _. apply score_not_lt; [done..|]. unfold key3_lt. lia.
  - split; cbn [fst snd].
    + destruct chosen as [c|]; [|done]. destruct Hc as (? & ? & ? & ?). split_and!; [done|apply elem_of_app; by left|done..].
    + intros l [Hin| ->]%levels_snoc_elem; [by apply Hb|]. split; [|done].
      intros ->. subst best. by rewrite <- Ha.
Qed.

Lemma score_levels_best levels : forall seen acc, Forall (Z.le 0) seen -> Forall (Z.le 1) levels -> best_so_far seen acc ->
  best_so_far (seen ++ levels) (fold_left (score_level snapshot level_bytes fanout) levels acc).
Proof using Hbytes Hfanout Hfiles Hlevels.
  induction levels as [|level levels IH]; intros seen acc Hs Hl Hb; [by rewrite app_nil_r|].
  apply Forall_cons in Hl as [H1 Hl]. cbn [fold_left]. rewrite (cons_middle level seen levels), app_assoc.
  apply IH; [|done|by apply score_level_best]. apply Forall_app. split; [done|]. constructor; [lia|constructor].
Qed.

(** What the planner picks. *)
Lemma plan_picks : match plan snapshot l0_trigger level_bytes fanout with
  | Some p => 0 <= pl_level p <= deepest_level snapshot /\ level_due (pl_level p) = true /\
      forall level, 0 <= level <= deepest_level snapshot -> level_due level = true ->
        SFltb (level_score (pl_level p)) (level_score level) = false
  | None => forall level, 0 <= level -> level_due level = false
  end.
Proof using Hbytes Hfanout Hfiles Hlevels.
  unfold plan. set (start := if _ && _ then _ else _).
  assert (best_so_far [0] start) as Hb.
  { unfold start. destruct ((l0_trigger <=? _) && (0 <? l0_trigger)) eqn:E; split; cbn [fst snd]; try done.
    - split_and!; [done|by left|done..].
    - intros l ->%list_elem_of_singleton. split; [done|]. intros Hd. destruct (due_score 0 ltac:(lia) Hd) as [Hs _].
      change (ratio _ _) with (level_score 0). apply score_not_lt; [done..|]. unfold key3_lt. lia.
    - intros l ->%list_elem_of_singleton. unfold level_due. cbn [Z.eqb]. rewrite E. done. }
  apply (score_levels_best (seqZ 1 (deepest_level snapshot))) in Hb; [|by constructor|apply Forall_seqZ; lia].
  destruct (fold_left _ _ _) as [[c|] best]; destruct Hb as [Hc Hb]; cbn [fst snd fmap option_fmap option_map pl_level] in *.
  - destruct Hc as (Hc & Hin & Hd & ->). apply levels_scanned in Hin. split; [done|]. split; [done|].
    intros l Hl. by apply Hb, levels_scanned.
  - intros l Hl. destruct (decide (l <= deepest_level snapshot)) as [Hle|Hgt]; [by apply Hb; [apply levels_scanned|]|].
    pose proof (deepest_nonneg snapshot). unfold level_due. rewrite (proj2 (Z.eqb_neq l 0)) by lia.
    pose proof (budget_range l). unfold bytes_at_level. rewrite beyond_deepest by lia. apply Z.ltb_ge. cbn. lia.
Qed.
End Planner.

(** ** Claims *)

(** C21: The planner's scores never mislead it. As long as the budget of level 1 and
    the fan-out are above zero, level 0 holds fewer than [2 ^ 53] files and every level
    fewer than [2 ^ 53] bytes, comparing [f64] ratios is as good as comparing whole
    numbers: a level is planned for only when it is due, level 0 by its count of files
    and a deeper level by its bytes over its budget; no level that is due has a higher
    score than the one planned for; and nothing is planned exactly when no level is
    due. (With a budget of zero an empty level can score infinity and be planned.) *)
Theorem planner_is_exact (snapshot : Snapshot) (l0_trigger level_bytes fanout : Z)
  (Hbytes : 0 < level_bytes) (Hfanout : 0 < fanout)
  (Hfiles : zlen (at_level snapshot 0) < 2 ^ 53)
  (Hlevels : forall level, bytes_at_level snapshot level < 2 ^ 53) :
  match plan snapshot l0_trigger level_bytes fanout with
  | Some p => 0 <= pl_level p <= deepest_level snapshot /\
      level_due snapshot l0_trigger level_bytes fanout (pl_level p) = true /\
      forall level, 0 <= level <= deepest_level snapshot -> level_due snapshot l0_trigger level_bytes fanout level = true ->
        SFltb (level_score snapshot l0_trigger level_bytes fanout (pl_level p)) (level_score snapshot l0_trigger level_bytes fanout level) = false
  | None => forall level, 0 <= level -> level_due snapshot l0_trigger level_bytes fanout level = false
  end.
Proof. by apply plan_picks. Qed.

(** Level 0 is at its trigger, and level 1 one byte over its budget of [2 ^ 52 + 1]
    bytes, which no coarser score would show. *)
Definition tight_levels : Snapshot :=
  mkSnapshot [mkFileMeta 7 0 (bstr "a") (bstr "m") 900 12; mkFileMeta 3 1 (bstr "b") (bstr "k") (2 ^ 52) 80;
              mkFileMeta 4 1 (bstr "p") (bstr "z") 2 80] 92 8.

Lemma tight_bytes level : bytes_at_level tight_levels level < 2 ^ 53.
Proof.
  unfold bytes_at_level, at_level. cbn [sn_files tight_levels].
  rewrite !filter_cons. cbn [fm_level]. destruct (decide (0 = level)), (decide (1 = level)); cbn -[Z.pow wrap64]; done.
Qed.

Lemma planner_is_exact_witness :
  exists p, plan tight_levels 1 (2 ^ 52 + 1) 10 = Some p /\ pl_level p = 1 /\
    level_due tight_levels 1 (2 ^ 52 + 1) 10 1 = true.
Proof.
  pose proof (planner_is_exact tight_levels 1 (2 ^ 52 + 1) 10 ltac:(done) ltac:(done) ltac:(done) tight_bytes) as H.
  destruct (plan tight_levels 1 (2 ^ 52 + 1) 10) as [p|] eqn:E; [|by specialize (H 0 ltac:(lia))].
  exists p. split; [done|]. assert (pl_level p = 1) as Hp by (vm_compute in E; injection E as <-; reflexivity).
  split; [done|]. destruct H as (_ & H & _). by rewrite Hp in H.
Defined.
