(* ===== verification/Wal.v ===== *)
(** * The write-ahead log ([wal.rs])

    The log's shared state, the sections of code it runs under one lock at a time,
    and the threads that run them. A section is a function on the log and the
    directory; [thread_step] is the order in which one caller goes through them;
    [wal_step] is any number of callers interleaving, with any call failing. *)

From S2P Require Import Prelude Checksum Coding WalRecord WalReplay Disk.

Inductive SyncPolicy := Always | Group | Interval (millis : Z).

#[export] Instance sync_policy_eq_dec : EqDecision SyncPolicy.
Proof. solve_decision. Defined.

Definition MAX_PENDING_BYTES : Z := 64 * 1024.
Definition WRITE_FAILED : io_error :=
  IoError OtherKind "the log stopped accepting appends after a failed write".

(** [Shared] with [Pending] and [SyncState] in it. *)
Record Wal := mkWal {
  wl_path : string;
  wl_file : nat;
  wl_policy : SyncPolicy;
  wl_buf : bytes;
  wl_written : Z;
  wl_last_seq : Z;
  wl_durable : Z;
  wl_in_progress : bool;
  wl_writes : Z;
  wl_flushes : Z;
  wl_failed : bool;
  wl_background_error : option Error;
}.

Abbreviation logm := (stm (Wal * World)).

Definition on_world {A} (m : stm World A) : logm A := fun '(self, w) =>
  let '(r, w) := m w in (r, (self, w)).

Definition set_pending (buf : bytes) (written : Z) : logm unit := modify (fun '(self, w) =>
  (mkWal (wl_path self) (wl_file self) (wl_policy self) buf written (wl_last_seq self) (wl_durable self)
     (wl_in_progress self) (wl_writes self) (wl_flushes self) (wl_failed self) (wl_background_error self), w)).

Definition set_last_seq (seq : Z) : logm unit := modify (fun '(self, w) =>
  (mkWal (wl_path self) (wl_file self) (wl_policy self) (wl_buf self) (wl_written self) seq (wl_durable self)
     (wl_in_progress self) (wl_writes self) (wl_flushes self) (wl_failed self) (wl_background_error self), w)).

Definition set_sync (durable : Z) (in_progress : bool) : logm unit := modify (fun '(self, w) =>
  (mkWal (wl_path self) (wl_file self) (wl_policy self) (wl_buf self) (wl_written self) (wl_last_seq self) durable
     in_progress (wl_writes self) (wl_flushes self) (wl_failed self) (wl_background_error self), w)).

Definition count_write : logm unit := modify (fun '(self, w) =>
  (mkWal (wl_path self) (wl_file self) (wl_policy self) (wl_buf self) (wl_written self) (wl_last_seq self)
     (wl_durable self) (wl_in_progress self) (wrap64 (wl_writes self + 1)) (wl_flushes self) (wl_failed self)
     (wl_background_error self), w)).

Definition count_flush : logm unit := modify (fun '(self, w) =>
  (mkWal (wl_path self) (wl_file self) (wl_policy self) (wl_buf self) (wl_written self) (wl_last_seq self)
     (wl_durable self) (wl_in_progress self) (wl_writes self) (wrap64 (wl_flushes self + 1)) (wl_failed self)
     (wl_background_error self), w)).

Definition set_failed : logm unit := modify (fun '(self, w) =>
  (mkWal (wl_path self) (wl_file self) (wl_policy self) (wl_buf self) (wl_written self) (wl_last_seq self)
     (wl_durable self) (wl_in_progress self) (wl_writes self) (wl_flushes self) true (wl_background_error self), w)).

Definition set_error (e : option Error) : logm unit := modify (fun '(self, w) =>
  (mkWal (wl_path self) (wl_file self) (wl_policy self) (wl_buf self) (wl_written self) (wl_last_seq self)
     (wl_durable self) (wl_in_progress self) (wl_writes self) (wl_flushes self) (wl_failed self) e, w)).

Definition getw {A} (f : Wal -> A) : logm A := gets (fun s => f (fst s)).

(** ** Opening *)

Definition truncate (file : nat) (path : string) (len : Z) : stm World unit :=
  _ ← disk_set_len path file len;
  disk_sync path file.

(** [File::open] for replay: the contents, nothing, or an error. *)
Definition open_log (path name : string) : stm World opened := fun w =>
  match disk_read path name w with
  | (Ok bs, w) => (Ok (Content bs), w)
  | (Err (Io _ (IoError NotFound _)), w) => (Ok Absent, w)
  | (Err (Io _ e), w) => (Ok (Unreadable e), w)
  | (Err e, w) => (Err e, w)
  end.

(** [Wal::replay]. *)
Definition wal_replay (path name : string) : stm World Replay :=
  file ← open_log path name;
  lift (replay_open path file).

(** [Wal::new]. *)
Definition wal_new (path : string) (file : nat) (policy : SyncPolicy) (last_seq : Z) : Wal :=
  mkWal path file policy [] last_seq last_seq last_seq false 0 0 false None.

Definition highest_seq (records : list LogRecord) (last_seq : Z) : Z :=
  fold_left (fun acc r => Z.max acc (record_seq r)) records last_seq.

(** The loop of [recover]; [replay_all] always has fuel enough. *)
Definition drain_all (replay : Replay) : result (list LogRecord) * Replay :=
  default (Ok [], replay) (replay_all replay).

(** [Wal::recover]. *)
Definition wal_recover (path name : string) (policy : SyncPolicy) (last_seq : Z)
  : stm World (Wal * list LogRecord) :=
  replay ← wal_replay path name;
  let '(drained, replay) := drain_all replay in
  records ← lift drained;
  file ← disk_open_append path name;
  _ ← (if valid_len replay =? 0 then
         _ ← truncate file path 0;
         _ ← disk_write path file (MAGIC ++ to_le 4 FORMAT_VERSION);
         disk_sync path file
       else if bool_decide (is_Some (torn_at replay)) then truncate file path (valid_len replay)
       else mret tt);
  mret (wal_new path file policy (highest_seq records last_seq), records).

(** [Wal::create]. *)
Definition wal_create (path name : string) (policy : SyncPolicy) (last_seq : Z) : stm World Wal :=
  '(wal, _) ← wal_recover path name policy last_seq;
  mret wal.

(** ** The sections *)

(** [take_background_error] and the [failed] check at the top of [append], with no
    lock held. *)
Definition refuse_if_failed : logm unit :=
  e ← getw wl_background_error;
  match e with
  | Some err => _ ← set_error None; lift (Err err)
  | None =>
      failed ← getw wl_failed;
      path ← getw wl_path;
      if (failed : bool) then lift (Err (Io path WRITE_FAILED)) else mret tt
  end.

Definition flush_log : logm unit :=
  _ ← count_flush;
  path ← getw wl_path;
  file ← getw wl_file;
  on_world (disk_sync path file).

(** [write_all] of the buffer and what follows it: the buffer is dropped either
    way, and a failure closes the log to appends. *)
Definition write_out (path : string) (file : nat) (buf : bytes) : logm unit := fun s =>
  match on_world (disk_write path file buf) s with
  | (Ok _, s) => (last_seq ← getw wl_last_seq; set_pending [] last_seq) s
  | (Err e, s) => (written ← getw wl_written; _ ← set_pending [] written; _ ← set_failed; lift (Err e)) s
  end.

(** [write_pending], with the append lock held. *)
Definition write_pending : logm unit :=
  buf ← getw wl_buf;
  match buf with
  | [] => mret tt
  | _ =>
      _ ← count_write;
      path ← getw wl_path;
      file ← getw wl_file;
      write_out path file buf
  end.

(** The block of [append] that runs under the append lock. *)
Definition append_locked (key : bytes) (value : option bytes) : logm Z :=
  last_seq ← getw wl_last_seq;
  let seq := wrap64 (last_seq + 1) in
  buf ← getw wl_buf;
  written ← getw wl_written;
  let '(encoded, buf) := encode seq key value buf in
  _ ← set_pending buf written;
  _ ← lift encoded;
  _ ← set_last_seq seq;
  policy ← getw wl_policy;
  _ ← (if bool_decide (policy = Always) then
         _ ← write_pending; flush_log
       else if MAX_PENDING_BYTES <=? zlen buf then write_pending
       else mret tt);
  mret seq.

(** What a caller of [sync_through] finds under the sync lock. *)
Inductive sync_decision := Covered | Broken | Waiting | Owner.

Definition sync_enter (seq : Z) : logm sync_decision :=
  durable ← getw wl_durable;
  failed ← getw wl_failed;
  in_progress ← getw wl_in_progress;
  if seq <=? durable then mret Covered
  else if (failed : bool) then mret Broken
  else if (in_progress : bool) then mret Waiting
  else _ ← set_sync durable true; mret Owner.

(** The first half of [write_and_flush], under the append lock. *)
Definition write_section : logm Z :=
  _ ← write_pending;
  getw wl_written.

Definition write_and_flush : logm Z :=
  target ← write_section;
  _ ← flush_log;
  mret target.

(** The end of a turn of [sync_through]'s loop. *)
Definition sync_leave (flushed : result Z) : logm unit :=
  durable ← getw wl_durable;
  set_sync (match flushed with Ok target => Z.max durable target | Err _ => durable end) false.

Definition set_background_error (err : Error) : logm unit :=
  e ← getw wl_background_error;
  match e with None => set_error (Some err) | Some _ => mret tt end.

(** ** One caller *)

(** Where a caller of [append], [sync] or the background flush stands. *)
Inductive phase :=
  | Checking (key : bytes) (value : option bytes)     (* about to look at [failed] *)
  | Appending (key : bytes) (value : option bytes)    (* about to take the append lock *)
  | Syncing (seq : Z)                                 (* about to take the sync lock *)
  | Writing (seq : Z)                                 (* owns the flush *)
  | Flushing (seq target : Z)                         (* has written up to [target] *)
  | Leaving (seq : Z) (flushed : result Z)            (* about to take the sync lock again *)
  | Finished (r : result Z).

Definition thread_step (p : phase) (s : Wal * World) : phase * (Wal * World) :=
  match p with
  | Checking key value =>
      match refuse_if_failed s with
      | (Ok _, s) => (Appending key value, s)
      | (Err e, s) => (Finished (Err e), s)
      end
  | Appending key value =>
      match append_locked key value s with
      | (Ok seq, s) => (if bool_decide (wl_policy (fst s) = Group) then Syncing seq else Finished (Ok seq), s)
      | (Err e, s) => (Finished (Err e), s)
      end
  | Syncing seq =>
      match sync_enter seq s with
      | (Ok Covered, s) => (Finished (Ok seq), s)
      | (Ok Broken, s) => (Finished (Err (Io (wl_path (fst s)) WRITE_FAILED)), s)
      | (Ok Waiting, s) => (Syncing seq, s)
      | (Ok Owner, s) => (Writing seq, s)
      | (Err e, s) => (Finished (Err e), s)
      end
  | Writing seq =>
      match write_section s with
      | (Ok target, s) => (Flushing seq target, s)
      | (Err e, s) => (Leaving seq (Err e), s)
      end
  | Flushing seq target =>
      match flush_log s with
      | (Ok _, s) => (Leaving seq (Ok target), s)
      | (Err e, s) => (Leaving seq (Err e), s)
      end
  | Leaving seq flushed =>
      let s := snd (sync_leave flushed s) in
      (match flushed with Ok _ => Syncing seq | Err e => Finished (Err e) end, s)
  | Finished r => (Finished r, s)
  end.

(** A caller that nobody interleaves with; [None] when it is still waiting or
    [fuel] steps were not enough. *)
Fixpoint run_thread (fuel : nat) (p : phase) (s : Wal * World) : option (result Z * (Wal * World)) :=
  match p with
  | Finished r => Some (r, s)
  | _ =>
      match fuel with
      | O => None
      | S fuel => let '(p, s) := thread_step p s in run_thread fuel p s
      end
  end.

(** The longest way through: two turns of [sync_through] and the append. *)
Definition THREAD_FUEL : nat := 10.

(** [Wal::set] and [Wal::delete], and [Wal::sync], on one thread. *)
Definition wal_append (key : bytes) (value : option bytes) (s : Wal * World) : option (result Z * (Wal * World)) :=
  run_thread THREAD_FUEL (Checking key value) s.

Definition wal_sync (s : Wal * World) : option (result Z * (Wal * World)) :=
  run_thread THREAD_FUEL (Syncing (wl_last_seq (fst s))) s.

(** [Drop for Wal], once its background thread has been joined. *)
Definition wal_drop (s : Wal * World) : Wal * World := snd (write_and_flush s).

(** One round of the background flush of [SyncPolicy::Interval]: [sync_through]
    what has been appended, and keep the error for the next append. *)
Definition syncer_round (s : Wal * World) : option (Wal * World) :=
  '(r, s) ← wal_sync s;
  match r with
  | Ok _ => Some s
  | Err err => Some (snd (set_background_error err s))
  end.

(** ** What the sections do *)

(** The bytes of the log, and how many of them are on the device. *)
Definition log_bytes (s : Wal * World) : bytes := contents (disk (snd s)) (wl_file (fst s)).
Definition log_floor (s : Wal * World) : nat := floor_of (disk (snd s)) (wl_file (fst s)).

(** What no section ever changes. *)
Definition same_log (s s' : Wal * World) : Prop :=
  wl_path (fst s') = wl_path (fst s) /\ wl_file (fst s') = wl_file (fst s) /\ wl_policy (fst s') = wl_policy (fst s).

(** Sections that leave the file, the buffer and the numbering alone. *)
Record same_data (s s' : Wal * World) : Prop := {
  sd_log : same_log s s';
  sd_bytes : log_bytes s' = log_bytes s;
  sd_floor : log_floor s' = log_floor s;
  sd_buf : wl_buf (fst s') = wl_buf (fst s);
  sd_written : wl_written (fst s') = wl_written (fst s);
  sd_last : wl_last_seq (fst s') = wl_last_seq (fst s);
  sd_failed : wl_failed (fst s') = wl_failed (fst s);
}.

Lemma refuse_if_failed_spec s r s' :
  refuse_if_failed s = (r, s') -> same_data s s' /\ wl_durable (fst s') = wl_durable (fst s).
Proof.
  destruct s as [self w]. unfold refuse_if_failed, getw, set_error. run_stm. cbn [fst].
  destruct (wl_background_error self); cbn; [|destruct (wl_failed self)]; intros [= <- <-]; done.
Qed.

Lemma sync_enter_spec seq s r s' :
  sync_enter seq s = (r, s') ->
  same_data s s' /\ wl_durable (fst s') = wl_durable (fst s) /\ (r = Ok Covered -> seq <= wl_durable (fst s)).
Proof.
  destruct s as [self w]. unfold sync_enter, getw, set_sync. run_stm. cbn [fst].
  destruct (Z.leb_spec seq (wl_durable self)); [intros [= <- <-]; done|].
  destruct (wl_failed self) eqn:Ef; [intros [= <- <-]; done|].
  destruct (wl_in_progress self); intros [= <- <-]; done.
Qed.

Lemma sync_leave_spec flushed s :
  let s' := snd (sync_leave flushed s) in
  same_data s s' /\
  wl_durable (fst s') = match flushed with Ok t => Z.max (wl_durable (fst s)) t | Err _ => wl_durable (fst s) end.
Proof. by destruct s as [self w]. Qed.

Lemma contents_sync i d j : contents (snd (sync_run i d)) j = contents d j.
Proof. done. Qed.

(** [flush]: on success everything the file holds is on the device. *)
Lemma flush_log_spec s r s' :
  flush_log s = (r, s') ->
  same_log s s' /\ log_bytes s' = log_bytes s /\ wl_buf (fst s') = wl_buf (fst s) /\
  wl_written (fst s') = wl_written (fst s) /\ wl_last_seq (fst s') = wl_last_seq (fst s) /\
  wl_durable (fst s') = wl_durable (fst s) /\ wl_failed (fst s') = wl_failed (fst s) /\
  (log_floor s' = log_floor s \/ log_floor s' = length (log_bytes s)) /\
  (r = Ok tt -> log_floor s' = length (log_bytes s)).
Proof.
  destruct s as [self w]. unfold flush_log, getw, count_flush, on_world, log_bytes, log_floor. run_stm.
  destruct (disk_sync _ _ w) as [r' w'] eqn:E. cbn [fst wl_path wl_file] in *. intros [= <- <-].
  apply call_cases in E as [[Hr Hd]|(e & n & Hr & Hd)]; unfold no_effect in *; cbn [fst snd wl_file] in *; rewrite Hd;
    split_and!; try done.
  - right. unfold floor_of. cbn. by rewrite lookup_insert_eq.
  - intros _. unfold floor_of. cbn. by rewrite lookup_insert_eq.
  - by left.
  - by rewrite Hr.
Qed.

Lemma floor_append d i bs j : floor_of (append_data d i bs) j = floor_of d j.
Proof.
  unfold floor_of, append_data, set_data. cbn. destruct (decide (i = j)) as [->|].
  - by rewrite lookup_insert_eq.
  - by rewrite lookup_insert_ne.
Qed.

(** [write_pending]: the buffer goes into the file whole, or a prefix of it does
    and the log is marked failed. *)
Lemma write_pending_spec s r s' :
  write_pending s = (r, s') ->
  same_log s s' /\ wl_buf (fst s') = [] /\ wl_last_seq (fst s') = wl_last_seq (fst s) /\
  wl_durable (fst s') = wl_durable (fst s) /\ log_floor s' = log_floor s /\
  ((r = Ok tt /\ wl_failed (fst s') = wl_failed (fst s) /\ log_bytes s' = log_bytes s ++ wl_buf (fst s) /\
    wl_written (fst s') = (match wl_buf (fst s) with [] => wl_written (fst s) | _ => wl_last_seq (fst s) end)) \/
   (exists e n, r = Err e /\ wl_failed (fst s') = true /\ log_bytes s' = log_bytes s ++ take n (wl_buf (fst s)))).
Proof.
  destruct s as [self w]. unfold write_pending, getw. run_stm. cbn [fst].
  destruct (wl_buf self) as [|b bs] eqn:Eb.
  { intros [= <- <-]. cbn [fst]. split_and!; try done. left. split_and!; try done. by rewrite app_nil_r. }
  unfold count_write, write_out, on_world. run_stm. cbn [fst wl_path wl_file].
  destruct (disk_write _ _ _ w) as [[[]|e] w'] eqn:E; unfold set_pending, set_failed, getw, lift; run_stm;
    intros [= <- <-]; cbn [fst wl_buf wl_last_seq wl_durable wl_failed wl_written];
    apply call_cases in E as [[Hr Hd]|(e' & n & Hr & Hd)]; cbn [fst snd] in *; try done;
    unfold log_floor, log_bytes; cbn [fst snd wl_file]; rewrite Hd, floor_append.
  - split_and!; try done. left. split_and!; try done. unfold append_data. by rewrite contents_set_data, decide_True.
  - split_and!; try done. right. exists e, n. split_and!; try done. unfold append_data.
    by rewrite contents_set_data, decide_True.
Qed.

(** Under [append_locked], the state right after the record is encoded. *)
Definition encoded_state (seq : Z) (r : LogRecord) (s s1 : Wal * World) : Prop :=
  same_log s s1 /\ log_bytes s1 = log_bytes s /\ log_floor s1 = log_floor s /\
  wl_buf (fst s1) = wl_buf (fst s) ++ frame (payload r) /\ wl_written (fst s1) = wl_written (fst s) /\
  wl_last_seq (fst s1) = seq /\ wl_durable (fst s1) = wl_durable (fst s) /\ wl_failed (fst s1) = wl_failed (fst s).

Lemma append_locked_spec key value s r s' :
  append_locked key value s = (r, s') ->
  let seq := wrap64 (wl_last_seq (fst s) + 1) in
  let rec := make_record seq key value in
  (~ record_fits rec /\ (exists e, r = Err e) /\ same_data s s' /\ wl_durable (fst s') = wl_durable (fst s)) \/
  (record_fits rec /\ exists s1, encoded_state seq rec s s1 /\
    ((wl_policy (fst s) = Always /\ exists r1, (_ ← write_pending; flush_log) s1 = (r1, s') /\
        r = match r1 with Ok _ => Ok seq | Err e => Err e end) \/
     (wl_policy (fst s) <> Always /\ exists r1, write_pending s1 = (r1, s') /\
        r = match r1 with Ok _ => Ok seq | Err e => Err e end) \/
     (wl_policy (fst s) <> Always /\ s' = s1 /\ r = Ok seq))).
Proof.
  destruct s as [self w]. intros H seq rec. cbn [fst] in seq. unfold append_locked in H.
  unfold getw, set_pending, set_last_seq in H. run_stm. cbn [fst] in H. fold seq in H.
  rewrite (encode_eq seq key value (wl_buf self)) in H. cbn zeta in H. fold rec in H.
  destruct (decide (record_fits rec)) as [Hfits|Hnot]; cbn [fst wl_buf wl_policy] in H.
  2:{ left. injection H as <- <-. split_and!; [done|by eexists|done|done]. }
  right. split; [done|].
  match type of H with context [(if bool_decide _ then _ else _) ?st] => exists st end. split; [done|]. cbn [fst].
  destruct (bool_decide_reflect (wl_policy self = Always)) as [Hp|Hp].
  - left. split; [done|]. match type of H with context [write_pending ?st] => set (s1 := st) in * end.
    destruct (write_pending s1) as [[[]|e] s2] eqn:E.
    + destruct (flush_log s2) as [[[]|e] s3] eqn:E2; injection H as <- <-; eexists; (split; [done|done]).
    + injection H as <- <-. by eexists.
  - right. destruct (MAX_PENDING_BYTES <=? _).
    + left. split; [done|]. match type of H with context [write_pending ?st] => set (s1 := st) in * end.
      destruct (write_pending s1) as [[[]|e] s2] eqn:E; injection H as <- <-; by eexists.
    + right. by injection H as <- <-.
Qed.

(** ** The invariant of a log nobody has failed to write to *)

Section LogInvariant.
Context (base : list LogRecord) (b0 : Z).

(** Everything up to number [n] that this log was given is on the device. *)
Definition covered (floor : nat) (W : list LogRecord) (n : Z) : Prop :=
  n <= b0 \/ exists k, (k <= length W)%nat /\ n <= b0 + Z.of_nat k /\
    (length (log_file (base ++ take k W)) <= floor)%nat.

(** A record that no crash can take. *)
Definition safe (floor : nat) (W : list LogRecord) (r : LogRecord) : Prop :=
  exists k, W !! k = Some r /\ (length (log_file (base ++ take (S k) W)) <= floor)%nat.

(** [W] is what the file has taken, [P] what the buffer holds. *)
Record log_inv (s : Wal * World) (W P : list LogRecord) : Prop := {
  li_bytes : log_bytes s = log_file (base ++ W);
  li_buf : wl_buf (fst s) = frames P;
  li_seq : forall i r, (W ++ P) !! i = Some r -> record_seq r = b0 + 1 + Z.of_nat i;
  li_ok : Forall record_ok (base ++ W ++ P);
  li_last : wl_last_seq (fst s) = b0 + Z.of_nat (length (W ++ P));
  li_written : wl_written (fst s) = b0 + Z.of_nat (length W);
  li_durable : covered (log_floor s) W (wl_durable (fst s));
  li_floor : (log_floor s <= length (log_bytes s))%nat;
}.

Lemma log_file_app a b : log_file (a ++ b) = log_file a ++ frames b.
Proof. unfold log_file. by rewrite frames_app, app_assoc. Qed.

Lemma log_file_take W k : (length (log_file (base ++ take k W)) <= length (log_file (base ++ W)))%nat.
Proof.
  assert (log_file (base ++ W) = log_file (base ++ take k W) ++ frames (drop k W)) as ->.
  { by rewrite <- log_file_app, <- app_assoc, take_drop. }
  rewrite length_app. lia.
Qed.

Lemma covered_mono f f' W W' n n' :
  covered f W n -> (f <= f')%nat -> W `prefix_of` W' -> n' <= n -> covered f' W' n'.
Proof.
  intros [H|(k & Hk & Hn & Hf)] Hff [X ->] Hnn; [left; lia|]. right. exists k.
  rewrite length_app, take_app_le by lia. split_and!; [lia|lia|lia].
Qed.

Lemma safe_mono f f' W W' r : safe f W r -> (f <= f')%nat -> W `prefix_of` W' -> safe f' W' r.
Proof.
  intros (k & Hk & Hf) Hff [X ->]. exists k. pose proof (lookup_lt_Some _ _ _ Hk).
  rewrite lookup_app_l, take_app_le by lia. split; [done|lia].
Qed.

Lemma frames_nil_inv P : frames P = [] -> P = [].
Proof.
  destruct P as [|r P]; [done|]. rewrite frames_cons. intros E.
  pose proof (zlen_frame_pos (payload r)) as Hp. apply app_nil in E as [E _]. apply (f_equal zlen) in E. rewrite zlen_nil in E. lia.
Qed.

Lemma log_inv_same s s' W P :
  log_inv s W P -> same_data s s' -> covered (log_floor s) W (wl_durable (fst s')) -> log_inv s' W P.
Proof.
  intros [] [_ E1 E2 E3 E4 E5 _] Hc. split; rewrite ?E1, ?E2, ?E3, ?E4, ?E5; done.
Qed.

Lemma log_inv_encoded s s1 W P rec :
  log_inv s W P -> encoded_state (wrap64 (wl_last_seq (fst s) + 1)) rec s s1 ->
  record_seq rec = wrap64 (wl_last_seq (fst s) + 1) -> record_fits rec ->
  0 <= b0 -> wl_last_seq (fst s) < u64_max -> log_inv s1 W (P ++ [rec]).
Proof.
  intros [H1 H2 H3 H4 H5 H6 H7 H8] (_ & Eb & Ef & Ebuf & Ew & El & Ed & _) Hseq Hfit Hb0 Hmax.
  assert (wrap64 (wl_last_seq (fst s) + 1) = wl_last_seq (fst s) + 1) as Hw.
  { apply wrap64_small. split; lia. }
  split.
  - congruence.
  - rewrite Ebuf, H2, frames_app. unfold frames. cbn. by rewrite app_nil_r.
  - intros i r. rewrite app_assoc. intros [Hi|[Hi Hr]]%lookup_app_Some; [by apply H3|].
    apply list_lookup_singleton_Some in Hr as [Hz <-]. rewrite Hseq, Hw, H5. lia.
  - rewrite !app_assoc. apply Forall_app. rewrite <- app_assoc. split; [done|].
    constructor; [|constructor]. split; [|done]. rewrite Hseq, Hw. split; lia.
  - rewrite El, Hw, H5, app_assoc, !length_app. cbn. lia.
  - congruence.
  - rewrite Ef, Ed. done.
  - congruence.
Qed.

(** A write that goes through moves the buffer's records into the file. *)
Lemma log_inv_write s s' W P :
  log_inv s W P -> write_pending s = (Ok tt, s') -> log_inv s' (W ++ P) [].
Proof.
  intros [H1 H2 H3 H4 H5 H6 H7 H8] Hw. apply write_pending_spec in Hw as (_ & Eb & El & Ed & Ef & Hcase).
  destruct Hcase as [(_ & _ & Ebytes & Ewr)|(? & ? & ? & _)]; [|done].
  assert (covered (log_floor s') (W ++ P) (wl_durable (fst s'))) as Hcov.
  { rewrite Ed, Ef. eapply covered_mono; [exact H7|lia|by eexists|lia]. }
  split; try done; rewrite ?app_nil_r; try done.
  - rewrite Ebytes, H1, H2, (app_assoc base W P), (log_file_app (base ++ W) P). done.
  - by rewrite El, H5.
  - rewrite Ewr, H2. destruct (frames P) eqn:E.
    + apply frames_nil_inv in E as ->. by rewrite app_nil_r.
    + by rewrite H5.
  - rewrite Ef, Ebytes, length_app. lia.
Qed.

Lemma log_inv_flush s r s' W P :
  log_inv s W P -> flush_log s = (r, s') ->
  log_inv s' W P /\ (log_floor s <= log_floor s')%nat /\
  (r = Ok tt -> covered (log_floor s') W (b0 + Z.of_nat (length W)) /\ forall x, x ∈ W -> safe (log_floor s') W x).
Proof.
  intros [H1 H2 H3 H4 H5 H6 H7 H8] Hf.
  apply flush_log_spec in Hf as (_ & Ebytes & Eb & Ew & El & Ed & _ & Hfloor & Hok).
  assert (log_floor s <= log_floor s')%nat as Hle by (destruct Hfloor; lia).
  assert (log_floor s' <= length (log_bytes s'))%nat as Hle' by (rewrite Ebytes; destruct Hfloor; lia).
  split_and!; [|done|].
  - split; try (done || congruence). rewrite Ed. eapply covered_mono; [exact H7|done|done|lia].
  - intros Hr. specialize (Hok Hr). rewrite H1 in Hok. split.
    + right. exists (length W). rewrite firstn_all. split_and!; lia.
    + intros x [k Hk]%list_elem_of_lookup. exists k. split; [done|]. rewrite Hok.
      apply log_file_take.
Qed.
End LogInvariant.

(** ** Any number of callers *)

(** A log in use: its state, the directory, its callers with the record each one
    has had encoded, and the records whose append has returned [Ok] while no
    write had failed. *)
Record Sys := mkSys {
  sy_wal : Wal;
  sy_disk : Disk;
  sy_threads : gmap nat (phase * option LogRecord);
  sy_acked : list LogRecord;
}.

(** The record a step of [append] has just had encoded. *)
Definition note_record (p p' : phase) (r : option LogRecord) : option LogRecord :=
  match p, p' with
  | Appending key value, Syncing seq => Some (make_record seq key value)
  | Appending key value, Finished (Ok seq) => Some (make_record seq key value)
  | _, _ => r
  end.

(** The record a step acknowledges: [append] returns [Ok], the policy promises
    durability, and no write has failed so far. *)
Definition acknowledged (wal : Wal) (p' : phase) (r : option LogRecord) : list LogRecord :=
  match p', r, wl_policy wal, wl_failed wal with
  | Finished (Ok _), Some r, Always, false => [r]
  | Finished (Ok _), Some r, Group, false => [r]
  | _, _, _, _ => []
  end.

Definition running (p : phase) : Prop := match p with Finished _ => False | _ => True end.

Inductive wal_step : Sys -> Sys -> Prop :=
  | step_append wal d ts acked tid key value :
      ts !! tid = None ->
      wal_step (mkSys wal d ts acked) (mkSys wal d (<[tid := (Checking key value, None)]> ts) acked)
  | step_sync wal d ts acked tid :
      ts !! tid = None ->
      wal_step (mkSys wal d ts acked) (mkSys wal d (<[tid := (Syncing (wl_last_seq wal), None)]> ts) acked)
  | step_run wal d ts acked tid p r os p' wal' w' :
      ts !! tid = Some (p, r) -> running p -> wl_last_seq wal < u64_max ->
      thread_step p (wal, mkWorld d os) = (p', (wal', w')) ->
      let r' := note_record p p' r in
      wal_step (mkSys wal d ts acked)
        (mkSys wal' (disk w') (<[tid := (p', r')]> ts) (acked ++ acknowledged wal' p' r')).

(** A log just opened, holding [base] and numbering from [b0]. *)
Definition fresh_sys (base : list LogRecord) (b0 : Z) (s : Sys) : Prop :=
  exists path file policy d, s = mkSys (wal_new path file policy b0) d ∅ [] /\
    contents d file = log_file base /\ (floor_of d file <= length (contents d file))%nat /\
    Forall record_ok base /\ 0 <= b0.

Definition reachable (s s' : Sys) : Prop := rtc wal_step s s'.

Section SystemInvariant.
Context (base : list LogRecord) (b0 : Z).

Definition sys_state (s : Sys) : Wal * World := (sy_wal s, mkWorld (sy_disk s) []).

(** What a caller knows about its record. *)
Definition numbered (W P : list LogRecord) (seq : Z) (r : option LogRecord) : Prop :=
  match r with
  | Some r => exists i, (W ++ P) !! i = Some r /\ seq = b0 + 1 + Z.of_nat i
  | None => True
  end.

Definition thread_ok (floor : nat) (W P : list LogRecord) (t : phase * option LogRecord) : Prop :=
  match t with
  | (Syncing seq, r) | (Writing seq, r) | (Leaving seq (Err _), r) => numbered W P seq r
  | (Flushing seq target, r) => numbered W P seq r /\ target <= b0 + Z.of_nat (length W)
  | (Leaving seq (Ok target), r) => numbered W P seq r /\ covered base b0 floor W target
  | (Finished (Ok seq), Some r) => numbered W P seq (Some r)
  | (Finished (Ok seq), None) => covered base b0 floor W seq
  | (Checking _ _, _) | (Appending _ _, _) | (Finished (Err _), _) => True
  end.

(** While no write has failed: the log's invariant, and every caller's. After a
    failed write: what was acknowledged before it is still safe. *)
Record sys_inv (s : Sys) (W : list LogRecord) (junk : bytes) : Prop := {
  si_bytes : log_bytes (sys_state s) = log_file (base ++ W) ++ junk;
  si_ok : Forall record_ok (base ++ W);
  si_floor : (log_floor (sys_state s) <= length (log_bytes (sys_state s)))%nat;
  si_acked : forall r, r ∈ sy_acked s -> safe base (log_floor (sys_state s)) W r;
  si_live : wl_failed (sy_wal s) = false -> junk = [] /\ exists P, log_inv base b0 (sys_state s) W P /\
    forall tid t, sy_threads s !! tid = Some t -> thread_ok (log_floor (sys_state s)) W P t;
}.

Lemma numbered_mono W P W' P' seq r :
  numbered W P seq r -> (W ++ P) `prefix_of` (W' ++ P') -> numbered W' P' seq r.
Proof.
  destruct r as [r|]; [|done]. intros (i & Hi & Hs) [X E]. exists i. split; [|done].
  rewrite E. by apply lookup_app_l_Some.
Qed.

Lemma thread_ok_mono f f' W P W' P' t :
  thread_ok f W P t -> (f <= f')%nat -> W `prefix_of` W' -> (W ++ P) `prefix_of` (W' ++ P') -> thread_ok f' W' P' t.
Proof.
  intros Ht Hf HW HP. assert (length W <= length W')%nat by by apply prefix_length.
  destruct t as [[| |seq|seq|seq target|seq [target|]|[seq|]] r]; cbn in *; try done;
    try (by eapply numbered_mono).
  - destruct Ht. split; [by eapply numbered_mono|lia].
  - destruct Ht as [? Hc]. split; [by eapply numbered_mono|]. by eapply covered_mono.
  - destruct r as [r|]; [by apply (numbered_mono W P W' P' seq (Some r))|by eapply covered_mono].
Qed.

(** The outcomes a world still has in store do not matter to what holds now. *)
Lemma log_inv_world wal w w' W P :
  disk w = disk w' -> log_inv base b0 (wal, w) W P -> log_inv base b0 (wal, w') W P.
Proof.
  intros E [H1 H2 H3 H4 H5 H6 H7 H8]. unfold log_bytes, log_floor in *. cbn [fst snd] in *. rewrite E in *.
  by split.
Qed.

Lemma fresh_sys_inv s : fresh_sys base b0 s -> sys_inv s [] [].
Proof.
  intros (path & file & policy & d & -> & Hc & Hf & Hok & Hb).
  split; unfold sys_state, log_bytes, log_floor; cbn [sy_wal sy_disk fst snd disk wal_new wl_file]; rewrite ?app_nil_r.
  - done.
  - done.
  - done.
  - by intros r ?%elem_of_nil.
  - intros _. split; [done|]. exists []. split; [|by intros ? ? ?].
    split; unfold log_bytes, log_floor; cbn; rewrite ?app_nil_r; try done; try lia. by left.
Qed.

(** ** Every step, whatever fails *)

(** The file only ever grows, and so does the part of it on the device. *)
Definition grows (s s' : Wal * World) : Prop :=
  same_log s s' /\ (exists x, log_bytes s' = log_bytes s ++ x) /\
  ((log_floor s <= length (log_bytes s))%nat ->
     (log_floor s <= log_floor s')%nat /\ (log_floor s' <= length (log_bytes s'))%nat) /\
  (wl_failed (fst s) = true -> wl_failed (fst s') = true).

Lemma grows_trans s1 s2 s3 : grows s1 s2 -> grows s2 s3 -> grows s1 s3.
Proof.
  intros ((A1 & A2 & A3) & [x Ex] & Hf & Hg) ((B1 & B2 & B3) & [y Ey] & Hf' & Hg'). split_and!.
  - split_and!; congruence.
  - exists (x ++ y). by rewrite Ey, Ex, app_assoc.
  - intros H. destruct (Hf H) as [? H2]. destruct (Hf' H2). split; lia.
  - auto.
Qed.

Lemma same_data_grows s s' : same_data s s' -> grows s s'.
Proof.
  intros [Hl Hb Hf _ _ _ Hfail]. split_and!; [done|exists []; by rewrite app_nil_r|rewrite Hf, Hb; lia|congruence].
Qed.

Lemma write_pending_grows s r s' : write_pending s = (r, s') -> grows s s'.
Proof.
  intros (Hl & _ & _ & _ & Hf & Hc)%write_pending_spec. split_and!; [done| | |].
  - destruct Hc as [(_ & _ & Hb & _)|(e & n & _ & _ & Hb)]; by eexists.
  - intros H. rewrite Hf. split; [lia|]. destruct Hc as [(_ & _ & -> & _)|(e & n & _ & _ & ->)]; rewrite length_app; lia.
  - destruct Hc as [(_ & -> & _)|(e & n & _ & -> & _)]; done.
Qed.

Lemma flush_log_grows s r s' : flush_log s = (r, s') -> grows s s'.
Proof.
  intros (Hl & Hb & _ & _ & _ & _ & Hfail & Hf & _)%flush_log_spec.
  split_and!; [done|exists []; by rewrite app_nil_r|rewrite Hb; destruct Hf; lia|congruence].
Qed.

Lemma append_locked_grows key value s r s' : append_locked key value s = (r, s') -> grows s s'.
Proof.
  intros [(_ & _ & Hsd & _)|(_ & s1 & He & Hc)]%append_locked_spec; [by apply same_data_grows|].
  assert (grows s s1) as Hg.
  { destruct He as (Hl & Hb & Hf & _ & _ & _ & _ & Hfail).
    split_and!; [done|exists []; by rewrite app_nil_r|rewrite Hf, Hb; lia|congruence]. }
  destruct Hc as [(_ & r1 & Hw & _)|[(_ & r1 & Hw & _)|(_ & -> & _)]].
  - apply stm_bind_cases in Hw as [([] & s2 & Hw & Hfl)|(e & Hw & _)].
    + eapply grows_trans; [exact Hg|]. eapply grows_trans; [by eapply write_pending_grows|by eapply flush_log_grows].
    + eapply grows_trans; [exact Hg|by eapply write_pending_grows].
  - eapply grows_trans; [exact Hg|by eapply write_pending_grows].
  - done.
Qed.

Lemma write_section_cases s r s' :
  write_section s = (r, s') ->
  exists r1, write_pending s = (r1, s') /\ r = match r1 with Ok _ => Ok (wl_written (fst s')) | Err e => Err e end.
Proof.
  unfold write_section, getw. run_stm. destruct (write_pending s) as [[[]|e] s1]; intros [= <- <-]; by eexists.
Qed.

Lemma thread_step_grows p s p' s' : thread_step p s = (p', s') -> grows s s'.
Proof.
  destruct p as [key value|key value|seq|seq|seq target|seq flushed|r]; cbn [thread_step]; intros H.
  - destruct (refuse_if_failed s) as [[[]|e] s1] eqn:E; injection H as <- <-;
      apply refuse_if_failed_spec in E as [E _]; by apply same_data_grows.
  - destruct (append_locked key value s) as [[q|e] s1] eqn:E; injection H as <- <-; by eapply append_locked_grows.
  - destruct (sync_enter seq s) as [[[]|e] s1] eqn:E; injection H as <- <-;
      apply sync_enter_spec in E as (E & _); by apply same_data_grows.
  - destruct (write_section s) as [r s1] eqn:E. apply write_section_cases in E as (r1 & E & ->).
    destruct r1; injection H as <- <-; by eapply write_pending_grows.
  - destruct (flush_log s) as [[[]|e] s1] eqn:E; injection H as <- <-; by eapply flush_log_grows.
  - injection H as <- <-. apply same_data_grows, sync_leave_spec.
  - injection H as <- <-. by apply same_data_grows.
Qed.

Lemma covered_safe floor W P seq r :
  (forall i r, (W ++ P) !! i = Some r -> record_seq r = b0 + 1 + Z.of_nat i) ->
  numbered W P seq (Some r) -> covered base b0 floor W seq -> safe base floor W r.
Proof.
  intros Hseq (i & Hi & ->) [Hle|(k & Hk & Hle & Hf)]; [lia|].
  exists i. rewrite lookup_app_l in Hi by lia. split; [done|].
  etrans; [|exact Hf]. replace (take (S i) W) with (take (S i) (take k W)).
  - apply log_file_take.
  - rewrite take_take. f_equal. lia.
Qed.

Lemma acknowledged_elem wal p' r' x :
  x ∈ acknowledged wal p' r' -> r' = Some x /\ (exists seq, p' = Finished (Ok seq)) /\
    (wl_policy wal = Always \/ wl_policy wal = Group).
Proof.
  unfold acknowledged. destruct p' as [| | | | | |[seq|]]; try (by intros ?%elem_of_nil).
  destruct r' as [r|]; [|by intros ?%elem_of_nil].
  destruct (wl_policy wal), (wl_failed wal); try (by intros ?%elem_of_nil);
    intros ->%list_elem_of_singleton; eauto.
Qed.

(** What one step of one caller keeps, as long as no write fails. *)
Definition step_keeps (s s' : Wal * World) (W P W' P' : list LogRecord) (t' : phase * option LogRecord) : Prop :=
  log_inv base b0 s' W' P' /\ W `prefix_of` W' /\ (W ++ P) `prefix_of` (W' ++ P') /\
  (log_floor s <= log_floor s')%nat /\ thread_ok (log_floor s') W' P' t' /\
  (forall x, x ∈ acknowledged (fst s') (fst t') (snd t') -> safe base (log_floor s') W' x).

Lemma step_keeps_same s s' W P t' :
  log_inv base b0 s W P -> same_data s s' -> covered base b0 (log_floor s) W (wl_durable (fst s')) ->
  thread_ok (log_floor s) W P t' ->
  (forall x, x ∈ acknowledged (fst s') (fst t') (snd t') -> safe base (log_floor s) W x) ->
  step_keeps s s' W P W P t'.
Proof.
  intros Hinv Hsd Hc Ht Ha. pose proof (sd_floor _ _ Hsd) as Hf. unfold step_keeps. rewrite Hf.
  split_and!; try done. by eapply log_inv_same.
Qed.

(** The append section: the record is encoded, and under [Always] on the device. *)
Lemma append_keeps key value s W P r s' seq p' :
  log_inv base b0 s W P -> 0 <= b0 -> wl_last_seq (fst s) < u64_max ->
  append_locked key value s = (Ok seq, s') ->
  p' = (if bool_decide (wl_policy (fst s') = Group) then Syncing seq else Finished (Ok seq)) ->
  exists W' P', step_keeps s s' W P W' P' (p', note_record (Appending key value) p' r).
Proof.
  intros Hinv Hb0 Hmax Ha Hp'. set (rec := make_record seq key value).
  apply append_locked_grows in Ha as Hgr. destruct Hgr as ((_ & _ & Hpol) & _ & Hfl & _).
  destruct (Hfl (li_floor _ _ _ _ _ Hinv)) as [Hle _]. clear Hfl.
  apply append_locked_spec in Ha as [(_ & [e [=]] & _)|(Hfits & s1 & He & Hc)].
  assert (seq = wrap64 (wl_last_seq (fst s) + 1)) as Eseq.
  { destruct Hc as [(_ & r1 & _ & E)|[(_ & r1 & _ & E)|(_ & _ & [= E])]]; [destruct r1; congruence..|done]. }
  rewrite <- Eseq in *. fold rec in Hfits, He.
  assert (record_seq rec = seq) as Hrseq by (unfold rec, make_record; by destruct value).
  rewrite Eseq in He, Hrseq. pose proof (log_inv_encoded _ _ _ _ _ _ _ Hinv He Hrseq Hfits Hb0 Hmax) as Hinv1.
  rewrite <- Eseq in He, Hrseq.
  assert (log_floor s1 = log_floor s) as Hf1 by apply He.
  assert ((W ++ P) `prefix_of` (W ++ P ++ [rec])) as Hpre by (rewrite app_assoc; by apply prefix_app_r).
  assert (forall W' P', W' ++ P' = W ++ P ++ [rec] -> numbered W' P' seq (Some rec)) as Hnum.
  { intros W' P' E. exists (length (W ++ P)). split.
    - rewrite E, app_assoc. by rewrite lookup_app_r, Nat.sub_diag by lia.
    - rewrite <- Hrseq. apply (li_seq _ _ _ _ _ Hinv1). rewrite app_assoc, lookup_app_r, Nat.sub_diag by lia. done. }
  assert (note_record (Appending key value) p' r = Some rec) as ->.
  { subst p'. by destruct (bool_decide _). }
  destruct Hc as [(Hpa & r1 & Hw & E)|[(Hpa & r1 & Hw & E)|(Hpa & -> & _)]].
  - destruct r1 as [[]|]; [|done]. apply stm_bind_cases in Hw as [([] & s2 & Hw & Hfl)|(e & _ & [=])].
    pose proof (log_inv_write _ _ _ _ _ _ Hinv1 Hw) as Hinv2.
    destruct (log_inv_flush _ _ _ _ _ _ _ Hinv2 Hfl) as (Hinv3 & _ & Hok). destruct (Hok eq_refl) as [_ Hsafe].
    exists (W ++ P ++ [rec]), []. rewrite bool_decide_false in Hp' by congruence. subst p'.
    split_and!; try done; [by eexists|by rewrite app_nil_r|cbn; apply Hnum; by rewrite app_nil_r|].
    intros x (E' & _)%acknowledged_elem. cbn in E'. injection E' as <-. apply Hsafe.
    rewrite !elem_of_app. right. right. left.
  - destruct r1 as [[]|]; [|done]. pose proof (log_inv_write _ _ _ _ _ _ Hinv1 Hw) as Hinv2.
    exists (W ++ P ++ [rec]), []. subst p'. split_and!; try done; [by eexists|by rewrite app_nil_r| |].
    + destruct (bool_decide _); cbn; apply Hnum; by rewrite app_nil_r.
    + intros x (E' & (q & Eq) & Hpol')%acknowledged_elem. cbn in E', Eq, Hpol'.
      destruct (bool_decide_reflect (wl_policy (fst s') = Group)); [done|]. destruct Hpol' as [Hpo|Hpo]; congruence.
  - exists W, (P ++ [rec]). subst p'. split_and!; try done.
    + destruct (bool_decide _); cbn; by apply Hnum.
    + intros x (E' & (q & Eq) & Hpol')%acknowledged_elem. cbn in E', Eq, Hpol'.
      destruct (bool_decide_reflect (wl_policy (fst s1) = Group)); [done|]. destruct Hpol' as [Hpo|Hpo]; congruence.
Qed.

Lemma acknowledged_nil wal p' r' :
  (forall seq, p' <> Finished (Ok seq)) -> forall x, x ∈ acknowledged wal p' r' -> False.
Proof. intros Hne x (_ & (seq & ->) & _)%acknowledged_elem. by apply (Hne seq). Qed.

(** An append that fails without a failed write: nothing was encoded, or the
    record is in the file and the device refused the flush. *)
Lemma append_keeps_err key value s W P r s' e :
  log_inv base b0 s W P -> 0 <= b0 -> wl_last_seq (fst s) < u64_max ->
  append_locked key value s = (Err e, s') -> wl_failed (fst s') = false ->
  exists W' P', step_keeps s s' W P W' P' (Finished (Err e), r).
Proof.
  intros Hinv Hb0 Hmax Ha Hnf. pose proof (append_locked_grows _ _ _ _ _ Ha) as (_ & _ & Hfl & _).
  destruct (Hfl (li_floor _ _ _ _ _ Hinv)) as [Hle _]. clear Hfl.
  apply append_locked_spec in Ha as [(_ & _ & Hsd & Hd)|(Hfits & s1 & He & Hc)].
  { exists W, P. apply step_keeps_same; rewrite ?Hd; try done; [apply (li_durable _ _ _ _ _ Hinv)|].
    intros x Hx. by apply acknowledged_nil in Hx. }
  assert (forall s2 e', write_pending s1 = (Err e', s2) -> wl_failed (fst s2) = true) as Hbad.
  { intros s2 e' (_ & _ & _ & _ & _ & [(? & _)|(? & ? & _ & Hfail & _)])%write_pending_spec; congruence. }
  destruct Hc as [(_ & r1 & Hw & E)|[(_ & r1 & Hw & E)|(_ & _ & [=])]]; destruct r1 as [|e']; try done.
  - apply stm_bind_cases in Hw as [([] & s3 & Hw & Hfl)|(e'' & Hw & _)]; [|apply Hbad in Hw; congruence].
    assert (record_seq (make_record (wrap64 (wl_last_seq (fst s) + 1)) key value) = wrap64 (wl_last_seq (fst s) + 1))
      as Hrseq by by destruct value.
    pose proof (log_inv_encoded _ _ _ _ _ _ _ Hinv He Hrseq Hfits Hb0 Hmax) as Hinv1.
    pose proof (log_inv_write _ _ _ _ _ _ Hinv1 Hw) as Hinv2.
    destruct (log_inv_flush _ _ _ _ _ _ _ Hinv2 Hfl) as (Hinv3 & _ & _).
    eexists _, []. split_and!; try done; [by eexists| |by intros x Hx; apply acknowledged_nil in Hx].
    rewrite app_nil_r, app_assoc. by apply prefix_app_r.
  - apply Hbad in Hw. congruence.
Qed.

Lemma live_step p r s p' s' W P :
  log_inv base b0 s W P -> 0 <= b0 -> wl_last_seq (fst s) < u64_max -> running p ->
  thread_ok (log_floor s) W P (p, r) -> thread_step p s = (p', s') -> wl_failed (fst s') = false ->
  exists W' P', step_keeps s s' W P W' P' (p', note_record p p' r).
Proof.
  intros Hinv Hb0 Hmax Hrun Ht H Hnf. pose proof (li_durable _ _ _ _ _ Hinv) as Hdur.
  destruct p as [key value|key value|seq|seq|seq target|seq flushed|q]; cbn [thread_step] in H; [..|done].
  - destruct (refuse_if_failed s) as [[[]|e] s1] eqn:E; injection H as <- <-;
      apply refuse_if_failed_spec in E as [Hsd Hd]; exists W, P; apply step_keeps_same; rewrite ?Hd; try done;
      intros x Hx; exfalso; by eapply acknowledged_nil in Hx.
  - destruct (append_locked key value s) as [[q|e] s1] eqn:E; injection H as Hp <-; [by eapply append_keeps|].
    subst p'. by eapply append_keeps_err.
  - destruct (sync_enter seq s) as [[d|e] s1] eqn:E; apply sync_enter_spec in E as (Hsd & Hd & Hcov); exists W, P.
    2:{ injection H as <- <-. apply step_keeps_same; rewrite ?Hd; try done.
        intros x Hx. exfalso. by eapply acknowledged_nil in Hx. }
    destruct d; injection H as <- <-; apply step_keeps_same; rewrite ?Hd; try done;
      try (intros x Hx; exfalso; by eapply acknowledged_nil in Hx).
    { destruct r as [r|]; [exact Ht|]. eapply covered_mono; [exact Hdur|lia|done|by apply Hcov]. }
    intros x (E & _)%acknowledged_elem. cbn in E. subst r. cbn in Ht.
    eapply covered_safe; [apply (li_seq _ _ _ _ _ Hinv)|exact Ht|].
    eapply covered_mono; [exact Hdur|lia|done|by apply Hcov].
  - destruct (write_section s) as [r0 s1] eqn:E. apply write_section_cases in E as (r1 & E & ->).
    destruct r1 as [[]|e]; injection H as <- <-.
    2:{ apply write_pending_spec in E as (_ & _ & _ & _ & _ & [(? & _)|(? & ? & _ & Hfail & _)]); congruence. }
    pose proof (log_inv_write _ _ _ _ _ _ Hinv E) as Hinv'.
    apply write_pending_grows in E as (_ & _ & Hfl & _). destruct (Hfl (li_floor _ _ _ _ _ Hinv)) as [Hle _].
    exists (W ++ P), []. split_and!; try done; [by eexists|by rewrite app_nil_r| |].
    + cbn. split; [eapply numbered_mono; [exact Ht|by rewrite app_nil_r]|]. by rewrite (li_written _ _ _ _ _ Hinv').
    + intros x Hx. by eapply acknowledged_nil in Hx.
  - destruct (flush_log s) as [r0 s1] eqn:E. destruct (log_inv_flush _ _ _ _ _ _ _ Hinv E) as (Hinv' & Hle & Hok).
    destruct Ht as [Hnum Htgt]. exists W, P.
    destruct r0 as [[]|e]; injection H as <- <-; split_and!; try done;
      try (intros x Hx; exfalso; by eapply acknowledged_nil in Hx).
    cbn. split; [done|]. destruct (Hok eq_refl) as [Hc _]. eapply covered_mono; [exact Hc|lia|done|done].
  - injection H as <- <-. destruct (sync_leave_spec flushed s) as [Hsd Hd]. exists W, P.
    assert (covered base b0 (log_floor s) W (wl_durable (fst (snd (sync_leave flushed s))))) as Hc'.
    { rewrite Hd. destruct flushed as [t|]; [|done]. destruct Ht as [_ Hc].
      destruct (Z.max_spec (wl_durable (fst s)) t) as [[_ ->]|[_ ->]]; done. }
    apply step_keeps_same; [done|done|done| |].
    + destruct flushed as [t|]; cbn in *; [by destruct Ht|done].
    + intros x Hx. exfalso. destruct flushed; by eapply acknowledged_nil in Hx.
Qed.

Lemma sys_inv_spawn s W junk tid t :
  sys_inv s W junk -> (forall floor W P, thread_ok floor W P t) ->
  sys_inv (mkSys (sy_wal s) (sy_disk s) (<[tid := t]> (sy_threads s)) (sy_acked s)) W junk.
Proof.
  intros [H1 H2 H3 H4 H5] Ht. split; try done. intros Hf. destruct (H5 Hf) as (Hj & P & Hinv & Hts).
  split; [done|]. exists P. split; [done|]. cbn [sy_threads].
  intros tid' t' [[_ <-]|[_ Hl]]%lookup_insert_Some; [done|by eapply Hts].
Qed.

Lemma acknowledged_failed wal p' r' : wl_failed wal = true -> acknowledged wal p' r' = [].
Proof. unfold acknowledged. intros ->. destruct p' as [| | | | | |[]], r', (wl_policy wal); done. Qed.

Lemma wal_step_inv s s' W junk :
  0 <= b0 -> sys_inv s W junk -> wal_step s s' -> exists W' junk', sys_inv s' W' junk'.
Proof.
  intros Hb0 Hinv Hstep. destruct Hstep as [wal d ts acked tid key value Hnone|wal d ts acked tid Hnone
    |wal d ts acked tid p r os p' wal' w' Htid Hrun Hmax Hts].
  - exists W, junk. by apply (sys_inv_spawn (mkSys wal d ts acked)).
  - exists W, junk. by apply (sys_inv_spawn (mkSys wal d ts acked)).
  - pose proof (thread_step_grows _ _ _ _ Hts) as (Hlog & [x Hx] & Hfl & Hfail).
    destruct Hinv as [H1 H2 H3 H4 H5]. unfold sys_state in *. cbn [sy_wal sy_disk sy_threads sy_acked fst] in *.
    destruct (Hfl H3) as [Hle Hle'].
    change (log_bytes (wal, mkWorld d os)) with (log_bytes (wal, mkWorld d [])) in *.
    change (log_floor (wal, mkWorld d os)) with (log_floor (wal, mkWorld d [])) in *.
    assert (wl_failed wal' = true -> exists W' junk', sys_inv (mkSys wal' (disk w') (<[tid:=(p', note_record p p' r)]> ts)
      (acked ++ acknowledged wal' p' (note_record p p' r))) W' junk') as Hdead.
    { intros Hf'. exists W, (junk ++ x). rewrite acknowledged_failed, app_nil_r by done.
      split; unfold sys_state; cbn [sy_wal sy_disk sy_acked].
      - change (log_bytes (wal', w') = log_file (base ++ W) ++ junk ++ x). by rewrite Hx, H1, app_assoc.
      - done.
      - exact Hle'.
      - intros y Hy. by eapply safe_mono; [apply H4|exact Hle|].
      - congruence. }
    destruct (wl_failed wal') eqn:Hf'; [by apply Hdead|].
    assert (wl_failed wal = false) as Hf.
    { destruct (wl_failed wal); [|done]. specialize (Hfail eq_refl). cbn in Hfail. congruence. }
    destruct (H5 Hf) as (-> & P & Hlive & Hthreads).
    destruct (live_step p r (wal, mkWorld d os) p' (wal', w') W P) as (W' & P' & Hkeep); try done.
    { by eapply log_inv_world; [|exact Hlive]. }
    { by apply (Hthreads tid). }
    destruct Hkeep as (Hlive' & HW & HP & Hfl' & Hok' & Hack).
    apply (log_inv_world wal' w' (mkWorld (disk w') [])) in Hlive'; [|done].
    exists W', []. split; unfold sys_state; cbn [sy_wal sy_disk sy_acked sy_threads].
    + rewrite app_nil_r. apply (li_bytes _ _ _ _ _ Hlive').
    + pose proof (li_ok _ _ _ _ _ Hlive') as Hall. rewrite app_assoc in Hall. by apply Forall_app in Hall as [? _].
    + exact Hle'.
    + intros y [Hy|Hy]%elem_of_app; [eapply safe_mono; [by apply H4|exact Hle|done]|by apply Hack].
    + intros _. split; [done|]. exists P'. split; [exact Hlive'|].
      intros tid' t' [[_ <-]|[_ Hl]]%lookup_insert_Some; [done|].
      eapply thread_ok_mono; [by eapply Hthreads|exact Hle|done|done].
Qed.

Lemma reachable_inv s s' :
  fresh_sys base b0 s -> reachable s s' -> exists W junk, sys_inv s' W junk.
Proof.
  intros Hfresh Hreach. assert (0 <= b0) as Hb0 by by destruct Hfresh as (?&?&?&?&?&?&?&?&?).
  assert (exists W junk, sys_inv s W junk) as Hinv by (exists [], []; by apply fresh_sys_inv).
  clear Hfresh. induction Hreach as [|s1 s2 s3 Hstep _ IH]; [done|].
  destruct Hinv as (W & junk & Hinv). apply IH. by eapply wal_step_inv.
Qed.

(** A safe record is in what any crash leaves of the file. *)
Lemma safe_replayed s W junk d' r path :
  sys_inv s W junk -> safe base (log_floor (sys_state s)) W r -> crash (sy_disk s) d' ->
  exists records rp rp', replay_open path (Content (contents d' (wl_file (sy_wal s)))) = Ok rp /\
    replay_all rp = Some (Ok records, rp') /\ r ∈ records.
Proof.
  intros [H1 H2 H3 H4 H5] (k & Hk & Hlen) Hcr.
  pose proof (cr_floor _ _ Hcr (wl_file (sy_wal s))) as Hfl.
  change (contents (sy_disk s) (wl_file (sy_wal s))) with (log_bytes (sys_state s)) in Hfl.
  change (floor_of (sy_disk s) (wl_file (sy_wal s))) with (log_floor (sys_state s)) in Hfl.
  set (c := contents d' (wl_file (sy_wal s))) in *. set (fl := log_floor (sys_state s)) in *.
  assert (exists rest, c = log_file (base ++ take (S k) W) ++ rest) as [rest ->].
  { exists (drop (length (log_file (base ++ take (S k) W))) c).
    assert (take (length (log_file (base ++ take (S k) W))) c = log_file (base ++ take (S k) W)) as E.
    { apply (f_equal (take (length (log_file (base ++ take (S k) W))))) in Hfl.
      rewrite !take_take, !Nat.min_l in Hfl by lia. rewrite Hfl, H1.
      assert (log_file (base ++ W) = log_file (base ++ take (S k) W) ++ frames (drop (S k) W)) as ->.
      { by rewrite <- log_file_app, <- app_assoc, take_drop. }
      rewrite <- app_assoc. apply take_app_length. }
    rewrite <- E at 1. by rewrite take_drop. }
  destruct (replay_prefix path (base ++ take (S k) W) rest) as (more & rp & rp' & Ho & Hr).
  { rewrite Forall_app in H2 |- *. destruct H2. split; [done|]. by apply Forall_take. }
  eexists _, rp, rp'. split; [done|]. split; [exact Hr|].
  rewrite !elem_of_app. left. right. apply list_elem_of_lookup. exists k. rewrite lookup_take_lt by lia. done.
Qed.
End SystemInvariant.

(** ** A call of [sync] *)

(** [sync] called by a caller [tid]. *)
Definition sync_called (tid : nat) (s : Sys) : Sys :=
  mkSys (sy_wal s) (sy_disk s) (<[tid := (Syncing (wl_last_seq (sy_wal s)), None)]> (sy_threads s)) (sy_acked s).

(** Where it can be from then on. *)
Definition syncing (seq : Z) (p : phase) : Prop :=
  match p with
  | Syncing q | Writing q | Flushing q _ | Leaving q _ | Finished (Ok q) => q = seq
  | Finished (Err _) => True
  | _ => False
  end.

Lemma thread_step_syncing seq p s p' s' : syncing seq p -> thread_step p s = (p', s') -> syncing seq p'.
Proof.
  destruct p as [key value|key value|q|q|q target|q flushed|[q|e]]; cbn [syncing thread_step]; try done; intros Hq.
  - destruct (sync_enter q s) as [[[]|e] s1]; by intros [= <- <-].
  - destruct (write_section s) as [[t|e] s1]; by intros [= <- <-].
  - destruct (flush_log s) as [[t|e] s1]; by intros [= <- <-].
  - destruct flushed; by intros [= <- <-].
  - by intros [= <- <-].
  - by intros [= <- <-].
Qed.

Lemma sync_stays tid seq s s' : reachable s s' -> (exists p, sy_threads s !! tid = Some (p, None) /\ syncing seq p) ->
  exists p, sy_threads s' !! tid = Some (p, None) /\ syncing seq p.
Proof.
  induction 1 as [|s1 s2 s3 Hst _ IH]; [done|]. intros (p & Hp & Hq). apply IH.
  destruct Hst as [wal d ts acked t key value Hnone|wal d ts acked t Hnone|wal d ts acked t p1 r os p2 wal' w' Ht Hrun Hmax Hts]; cbn [sy_threads] in *.
  - exists p. rewrite lookup_insert_ne by congruence. done.
  - exists p. rewrite lookup_insert_ne by congruence. done.
  - destruct (decide (t = tid)) as [->|Hne]; [|exists p; by rewrite lookup_insert_ne].
    rewrite Hp in Ht. injection Ht as <- <-. exists p2. rewrite lookup_insert_eq.
    split; [by destruct p|by eapply thread_step_syncing].
Qed.

(** A call that has returned stays where it is. *)
Lemma finished_stays tid q r s s' : reachable s s' -> sy_threads s !! tid = Some (Finished q, r) -> sy_threads s' !! tid = Some (Finished q, r).
Proof.
  induction 1 as [|s1 s2 s3 Hst _ IH]; [done|]. intros Hp. apply IH.
  destruct Hst as [wal d ts acked t key value Hnone|wal d ts acked t Hnone|wal d ts acked t p1 r1 os p2 wal' w' Ht Hrun Hmax Hts]; cbn [sy_threads] in *;
    rewrite lookup_insert_ne; try congruence. intros ->. rewrite Hp in Ht. by injection Ht as <- <-.
Qed.

(** A failed write is never forgotten. *)
Lemma failure_stays s s' : reachable s s' -> wl_failed (sy_wal s') = false -> wl_failed (sy_wal s) = false.
Proof.
  induction 1 as [|s1 s2 s3 Hst _ IH]; [done|]. intros Hf. specialize (IH Hf). destruct Hst as [| |wal d ts acked t p r os p' wal' w' _ _ _ Hts]; [done..|].
  cbn [sy_wal] in *. apply thread_step_grows in Hts as (_ & _ & _ & Hm). cbn [fst] in Hm. destruct (wl_failed wal); [|done]. by rewrite Hm in IH.
Qed.

(** What is safe stays so: it might as well have been acknowledged. *)
Definition also_acked (x : LogRecord) (s : Sys) : Sys := mkSys (sy_wal s) (sy_disk s) (sy_threads s) (x :: sy_acked s).

Lemma also_acked_reachable x s s' : reachable s s' -> reachable (also_acked x s) (also_acked x s').
Proof.
  induction 1 as [|s1 s2 s3 Hst _ IH]; [apply rtc_refl|]. eapply rtc_l; [|exact IH].
  destruct Hst; unfold also_acked; cbn [sy_wal sy_disk sy_threads sy_acked]; rewrite ?app_comm_cons; by econstructor.
Qed.

Lemma safe_stays base b0 s s' W junk x : 0 <= b0 -> sys_inv base b0 s W junk -> safe base (log_floor (sys_state s)) W x -> reachable s s' ->
  exists W' junk', sys_inv base b0 s' W' junk' /\ safe base (log_floor (sys_state s')) W' x.
Proof.
  intros Hb0 [H1 H2 H3 H4 H5] Hx Hreach. apply (also_acked_reachable x) in Hreach.
  assert (exists W' junk', sys_inv base b0 (also_acked x s') W' junk') as (W' & junk' & [I1 I2 I3 I4 I5]).
  { assert (exists W junk, sys_inv base b0 (also_acked x s) W junk) as Hinv.
    { exists W, junk. split; [done..| |done]. by intros r [->|Hr]%elem_of_cons; [|apply H4]. }
    clear -Hb0 Hinv Hreach. revert Hinv. induction Hreach as [|s1 s2 s3 Hst _ IH]; [done|].
    intros (W & junk & Hinv). apply IH. by eapply wal_step_inv. }
  exists W', junk'. split; [|apply I4; left]. split; [done..| |done]. intros r Hr. apply I4. by right.
Qed.

(** The records of the appends that had returned when [sync] was called. *)
Lemma synced_safe base b0 s s1 s2 tid tid' q seq r : fresh_sys base b0 s -> reachable s s1 ->
  sy_threads s1 !! tid' = Some (Finished (Ok q), Some r) -> sy_threads s1 !! tid = None -> reachable (sync_called tid s1) s2 ->
  sy_threads s2 !! tid = Some (Finished (Ok seq), None) -> wl_failed (sy_wal s2) = false ->
  exists W junk, sys_inv base b0 s2 W junk /\ safe base (log_floor (sys_state s2)) W r.
Proof.
  intros Hfresh Hreach Happ Hnone Hsync Hdone Hf.
  assert (reachable s1 (sync_called tid s1)) as Hcall by (destruct s1; apply rtc_once, step_sync, Hnone).
  assert (reachable s1 s2) as Hall by by unfold reachable in *; etrans.
  destruct (reachable_inv base b0 s s1 Hfresh Hreach) as (W1 & junk1 & [_ _ _ _ Hlive1]).
  destruct (reachable_inv base b0 s s2 Hfresh ltac:(unfold reachable in *; by etrans)) as (W2 & junk2 & Hinv2).
  assert (q <= wl_last_seq (sy_wal s1)) as Hle.
  { destruct Hlive1 as (_ & P & Hlog & Ht); [by eapply failure_stays, Hf|]. specialize (Ht _ _ Happ) as (i & Hi & ->).
    pose proof (li_last _ _ _ _ _ Hlog) as E. cbn in E. rewrite E. apply lookup_lt_Some in Hi. lia. }
  destruct (sync_stays tid (wl_last_seq (sy_wal s1)) _ _ Hsync) as (p & Hp & Hseq).
  { exists (Syncing (wl_last_seq (sy_wal s1))). split; [apply lookup_insert_eq|done]. }
  rewrite Hdone in Hp. injection Hp as <-. cbn in Hseq. subst seq.
  exists W2, junk2. split; [done|]. destruct (si_live _ _ _ _ _ Hinv2 Hf) as (_ & P & Hlog & Ht).
  pose proof (Ht _ _ (finished_stays tid' _ _ s1 s2 Hall Happ)) as Hnum.
  eapply (covered_safe base b0 _ W2 P q); [apply (li_seq _ _ _ _ _ Hlog)|exact Hnum|].
  eapply covered_mono; [exact (Ht _ _ Hdone)|lia|done|done].
Qed.

(** ** Recovery, and one caller alone *)

(** A log file recovery can work with: missing, or intact records and a tail that
    does not read as one. *)
Definition recoverable (d : Disk) (name : string) (records : list LogRecord) : Prop :=
  match names d !! name with
  | Some i => exists tail, contents d i = log_file records ++ tail /\ first_record tail = None
  | None => records = []
  end.

Lemma log_file_length records : 12 <= zlen (log_file records).
Proof.
  unfold log_file. rewrite zlen_app, zlen_file_header. unfold FILE_HEADER_LEN.
  pose proof (zlen_nonneg (frames records)). lia.
Qed.

Lemma open_log_clean path name d :
  open_log path name (mkWorld d []) =
  (Ok (match names d !! name with Some i => Content (contents d i) | None => Absent end), mkWorld d []).
Proof.
  unfold open_log, disk_read. rewrite call_clean. unfold read_run. by destruct (names d !! name).
Qed.

(** [recover] hands back the intact records and leaves the file holding exactly
    them, ready for appending. *)
Lemma wal_recover_spec path name policy last_seq d records :
  recoverable d name records -> Forall record_ok records ->
  exists i d', wal_recover path name policy last_seq (mkWorld d []) =
      (Ok (wal_new path i policy (highest_seq records last_seq), records), mkWorld d' []) /\
    names d' !! name = Some i /\ contents d' i = log_file records /\
    (floor_of d i <= length (contents d i) -> floor_of d' i <= length (contents d' i))%nat.
Proof.
  intros Hrec Hok. unfold recoverable in Hrec. unfold wal_recover, wal_replay, truncate. run_stm.
  rewrite open_log_clean. cbn beta iota. destruct (names d !! name) as [i|] eqn:En.
  - destruct Hrec as (tail & Hc & Ht). rewrite Hc.
    destruct (replay_records path records tail Hok Ht) as [-> Hall]. cbn beta iota.
    unfold drain_all. rewrite Hall. cbn [default id]. cbn beta iota. rewrite disk_open_append_clean.
    unfold open_append_run. rewrite En. cbn [fst snd]. unfold valid_len, torn_at, ended. cbn [rp_pos rp_torn_at].
    pose proof (log_file_length records). destruct (Z.eqb_spec (zlen (log_file records)) 0); [lia|].
    destruct tail as [|b tail].
    + exists i, d. rewrite app_nil_r in Hc. by split_and!.
    + rewrite !bool_decide_true by (rewrite bool_decide_true by done; by eexists) || by done.
      autorewrite with clean. cbn beta iota. eexists i, _. split; [reflexivity|].
      rewrite contents_synced, contents_cut, floor_synced, contents_cut, Hc.
      unfold zlen. rewrite Nat2Z.id, take_app_length. by split_and!.
  - subst records. cbn [replay_open].
    change (drain_all (replay_empty path None)) with (Ok (@nil LogRecord), replay_empty path None). cbn beta iota.
    rewrite disk_open_append_clean. unfold open_append_run, create_run. rewrite En. cbn [fst snd].
    match goal with |- context [mkWorld ?x []] => set (d1 := x) end.
    change (valid_len (replay_empty path None) =? 0) with true. cbn beta iota.
    repeat (autorewrite with clean; cbn beta iota).
    eexists (fresh_inode d), _. split; [reflexivity|].
    rewrite contents_synced, floor_synced, contents_append, contents_synced, contents_cut.
    split_and!; [|done|done]. cbn. by rewrite lookup_insert_eq.
Qed.

(** A log nothing has gone wrong with, that nobody else is using. *)
Definition healthy (self : Wal) : Prop :=
  wl_failed self = false /\ wl_background_error self = None /\ wl_in_progress self = false.

Lemma flush_log_clean self d :
  exists self', flush_log (self, mkWorld d []) = (Ok tt, (self', mkWorld (synced d (wl_file self)) [])) /\
    (healthy self -> healthy self') /\ wl_in_progress self' = wl_in_progress self /\ wl_failed self' = wl_failed self /\
    wl_background_error self' = wl_background_error self /\ wl_durable self' = wl_durable self.
Proof.
  unfold flush_log, count_flush, getw, on_world. run_stm. cbn [fst wl_path wl_file].
  rewrite disk_sync_clean. eexists. split; [reflexivity|]. by split_and!.
Qed.

Lemma write_pending_clean self d :
  wl_buf self <> [] ->
  exists self', write_pending (self, mkWorld d []) =
      (Ok tt, (self', mkWorld (append_data d (wl_file self) (wl_buf self)) [])) /\
    wl_written self' = wl_last_seq self /\ wl_failed self' = wl_failed self /\
    wl_background_error self' = wl_background_error self /\ wl_in_progress self' = wl_in_progress self /\
    wl_durable self' = wl_durable self /\ wl_policy self' = wl_policy self.
Proof.
  intros Hb. unfold write_pending, getw. run_stm. cbn [fst]. destruct (wl_buf self) as [|b bs] eqn:E; [done|].
  unfold count_write, write_out, on_world, getw, set_pending. run_stm. cbn [fst wl_path wl_file].
  rewrite disk_write_clean. run_stm. eexists. split; [reflexivity|]. by split_and!.
Qed.

Lemma append_locked_clean key value self d :
  healthy self -> u64_ok (wl_last_seq self + 1) -> record_fits (make_record (wl_last_seq self + 1) key value) ->
  exists self' d', append_locked key value (self, mkWorld d []) = (Ok (wl_last_seq self + 1), (self', mkWorld d' [])) /\
    healthy self' /\ (wl_buf self' = [] -> wl_written self' = wl_last_seq self + 1) /\
    wl_last_seq self' = wl_last_seq self + 1 /\ wl_policy self' = wl_policy self.
Proof.
  intros Hh Hseq Hfit. unfold append_locked, getw, set_pending, set_last_seq. run_stm. cbn [fst].
  rewrite wrap64_small, encode_eq by done. cbn zeta. rewrite decide_True by done. cbn [fst wl_policy wl_buf].
  match goal with |- context [(if bool_decide _ then _ else _) (?st, _)] => set (s1 := st) end.
  assert (wl_buf s1 <> []) as Hb.
  { cbn. intros E%app_nil. destruct E as [_ E]. apply (f_equal zlen) in E. rewrite zlen_frame, zlen_nil in E.
    unfold HEADER_LEN in E. pose proof (zlen_nonneg (payload (make_record (wl_last_seq self + 1) key value))). lia. }
  assert (healthy s1 /\ wl_last_seq s1 = wl_last_seq self + 1 /\ wl_policy s1 = wl_policy self) as (Hh1 & Hl1 & Hp1) by done.
  clearbody s1.
  destruct (write_pending_clean s1 d Hb) as (s2 & Hw & Hwr & W1 & W2 & W3 & W4 & W5).
  pose proof (write_pending_spec _ _ _ Hw) as (_ & _ & Hlw & _). cbn [fst] in Hlw.
  assert (healthy s2) as Hh2 by (unfold healthy in *; by rewrite W1, W2, W3).
  destruct (bool_decide (wl_policy self = Always)).
  - rewrite Hw. destruct (flush_log_clean s2 (append_data d (wl_file s1) (wl_buf s1))) as (s3 & Hf & Hh3 & _).
    pose proof (flush_log_spec _ _ _ Hf) as ((_ & _ & Hp) & _ & _ & Hw3 & Hl3 & _). cbn [fst] in Hp, Hw3, Hl3.
    rewrite Hf. eexists s3, _. split; [reflexivity|]. split_and!; [by apply Hh3|congruence|congruence|congruence].
  - destruct (MAX_PENDING_BYTES <=? _).
    + rewrite Hw. eexists s2, _. split; [reflexivity|]. split_and!; [done|congruence|congruence|congruence].
    + eexists s1, _. split; [reflexivity|]. by split_and!.
Qed.

Lemma run_thread_S fuel p s p' s' :
  thread_step p s = (p', s') -> running p -> run_thread (S fuel) p s = run_thread fuel p' s'.
Proof. intros H Hp. by destruct p; cbn [run_thread]; rewrite ?H. Qed.

Lemma run_thread_more n m p s x : (n <= m)%nat -> run_thread n p s = Some x -> run_thread m p s = Some x.
Proof.
  revert m p s. induction n as [|n IH]; intros m p s Hm H.
  - destruct p; cbn [run_thread] in H; try done. by destruct m.
  - destruct m as [|m]; [lia|]. destruct p; cbn [run_thread] in *; try done;
      destruct (thread_step _ s) as [p' s']; apply IH; done || lia.
Qed.

Lemma highest_seq_spec records : forall last_seq,
  last_seq <= highest_seq records last_seq /\ forall r, r ∈ records -> record_seq r <= highest_seq records last_seq.
Proof.
  unfold highest_seq. induction records as [|x records IH]; intros n; cbn.
  - split; [lia|]. by intros r ?%elem_of_nil.
  - destruct (IH (Z.max n (record_seq x))) as [H1 H2]. split; [lia|].
    intros r [->|Hr]%elem_of_cons; [lia|auto].
Qed.

(** [sync_through] on its own: one turn that writes and flushes, one that finds it
    done. *)
Lemma sync_alone self d seq :
  healthy self -> wl_last_seq self = seq -> (wl_buf self = [] -> wl_written self = seq) ->
  exists self' d', run_thread 6 (Syncing seq) (self, mkWorld d []) = Some (Ok seq, (self', mkWorld d' [])).
Proof.
  intros (Hf & He & Hi) Hl Hb. destruct (Z.leb_spec seq (wl_durable self)) as [Hle|Hlt].
  { assert (thread_step (Syncing seq) (self, mkWorld d []) = (Finished (Ok seq), (self, mkWorld d []))) as E.
    { cbn [thread_step]. unfold sync_enter, getw. run_stm. cbn [fst]. by destruct (Z.leb_spec seq (wl_durable self)); [|lia]. }
    rewrite (run_thread_S _ _ _ _ _ E I). by eexists _, _. }
  assert (exists s1, thread_step (Syncing seq) (self, mkWorld d []) = (Writing seq, (s1, mkWorld d [])) /\
    wl_failed s1 = false /\ wl_buf s1 = wl_buf self /\ wl_written s1 = wl_written self /\
    wl_last_seq s1 = wl_last_seq self) as (s1 & E1 & Hf1 & Hb1 & Hw1 & Hl1).
  { cbn [thread_step]. unfold sync_enter, set_sync, getw. run_stm. cbn [fst]. rewrite Hf, Hi.
    destruct (Z.leb_spec seq (wl_durable self)); [lia|]. cbn. eexists. split; [reflexivity|]. by split_and!. }
  rewrite (run_thread_S _ _ _ _ _ E1 I).
  assert (exists s2 d2, thread_step (Writing seq) (s1, mkWorld d []) = (Flushing seq seq, (s2, mkWorld d2 [])))
    as (s2 & d2 & E2).
  { cbn [thread_step]. unfold write_section, getw. run_stm. destruct (decide (wl_buf s1 = [])) as [E|E].
    - exists s1, d. unfold write_pending, getw. run_stm. cbn [fst]. rewrite E. cbn [fst]. rewrite Hw1, Hb by congruence. done.
    - destruct (write_pending_clean s1 d E) as (s2 & -> & Hw & _). cbn [fst]. rewrite Hw, Hl1, Hl. by eexists _, _. }
  rewrite (run_thread_S _ _ _ _ _ E2 I).
  destruct (flush_log_clean s2 d2) as (s3 & E3 & _).
  assert (thread_step (Flushing seq seq) (s2, mkWorld d2 []) = (Leaving seq (Ok seq), (s3, mkWorld (synced d2 (wl_file s2)) [])))
    as E3' by (cbn [thread_step]; by rewrite E3).
  rewrite (run_thread_S _ _ _ _ _ E3' I). set (d3 := synced d2 (wl_file s2)).
  assert (exists s4, thread_step (Leaving seq (Ok seq)) (s3, mkWorld d3 []) = (Syncing seq, (s4, mkWorld d3 [])) /\
    seq <= wl_durable s4) as (s4 & E4 & Hd4).
  { cbn [thread_step]. unfold sync_leave, set_sync, getw. run_stm. cbn [fst snd]. eexists. split; [reflexivity|]. cbn. lia. }
  rewrite (run_thread_S _ _ _ _ _ E4 I).
  assert (thread_step (Syncing seq) (s4, mkWorld d3 []) = (Finished (Ok seq), (s4, mkWorld d3 []))) as E5.
  { cbn [thread_step]. unfold sync_enter, getw. run_stm. cbn [fst]. by destruct (Z.leb_spec seq (wl_durable s4)); [|lia]. }
  rewrite (run_thread_S _ _ _ _ _ E5 I). by eexists _, _.
Qed.

(** ** Claims *)

(** C8: A crash costs nothing that was acknowledged. Any number of callers
    append to and flush one log, in any interleaving, with any of their calls
    failing; under [Always] and [Group], every record whose [append] returned [Ok]
    before any write had failed is replayed from the log file after a crash at any
    moment, whatever the crash leaves behind the bytes already on the device. *)
Theorem acknowledged_records_survive (base : list LogRecord) (b0 : Z) (s s' : Sys) (d' : Disk)
  (r : LogRecord) (path : string)
  (Hfresh : fresh_sys base b0 s) (Hreach : reachable s s') (Hacked : r ∈ sy_acked s')
  (Hcrash : crash (sy_disk s') d') :
  exists records rp rp', replay_open path (Content (contents d' (wl_file (sy_wal s')))) = Ok rp /\
    replay_all rp = Some (Ok records, rp') /\ r ∈ records.
Proof.
  destruct (reachable_inv base b0 s s' Hfresh Hreach) as (W & junk & Hinv).
  eapply safe_replayed; [exact Hinv|by apply (si_acked _ _ _ _ _ Hinv)|done].
Qed.

(** C9: [sync] covers what was written before it. Under every policy, [Interval]
    included, where an append returns with its record still in memory: once a call of
    [sync] has returned [Ok] before any write had failed, the record of each append
    that had returned [Ok] when [sync] was called is replayed from the log file after
    a crash at any later moment, however the other callers interleave and whatever
    fails afterwards. *)
Theorem sync_covers_appends (base : list LogRecord) (b0 : Z) (s s1 s2 s3 : Sys) (tid tid' : nat) (q seq : Z) (d' : Disk)
  (r : LogRecord) (path : string)
  (Hfresh : fresh_sys base b0 s) (Hreach : reachable s s1)
  (Happended : sy_threads s1 !! tid' = Some (Finished (Ok q), Some r)) (Hnew : sy_threads s1 !! tid = None)
  (Hsync : reachable (sync_called tid s1) s2) (Hdone : sy_threads s2 !! tid = Some (Finished (Ok seq), None))
  (Hintact : wl_failed (sy_wal s2) = false) (Hlater : reachable s2 s3) (Hcrash : crash (sy_disk s3) d') :
  exists records rp rp', replay_open path (Content (contents d' (wl_file (sy_wal s3)))) = Ok rp /\
    replay_all rp = Some (Ok records, rp') /\ r ∈ records.
Proof.
  destruct (synced_safe base b0 s s1 s2 tid tid' q seq r Hfresh Hreach Happended Hnew Hsync Hdone Hintact) as (W & junk & Hinv & Hsafe).
  assert (0 <= b0) as Hb0 by by destruct Hfresh as (?&?&?&?&?&?&?&?&?).
  destruct (safe_stays base b0 s2 s3 W junk r Hb0 Hinv Hsafe Hlater) as (W' & junk' & Hinv' & Hsafe').
  by eapply safe_replayed.
Qed.

(** *** Traces *)

(** One step of one caller, with the outcomes of the calls it makes. *)
Definition sys_step (s : Sys) (tid : nat) (os : list outcome) : Sys :=
  match sy_threads s !! tid with
  | Some (p, r) =>
      let '(p', (wal', w')) := thread_step p (sy_wal s, mkWorld (sy_disk s) os) in
      let r' := note_record p p' r in
      mkSys wal' (disk w') (<[tid := (p', r')]> (sy_threads s)) (sy_acked s ++ acknowledged wal' p' r')
  | None => s
  end.

Definition sys_spawn (s : Sys) (tid : nat) (key : bytes) (value : option bytes) : Sys :=
  mkSys (sy_wal s) (sy_disk s) (<[tid := (Checking key value, None)]> (sy_threads s)) (sy_acked s).

Lemma sys_step_reachable s0 s tid os :
  reachable s0 s -> wl_last_seq (sy_wal s) < u64_max ->
  match sy_threads s !! tid with Some (p, _) => running p | None => False end ->
  reachable s0 (sys_step s tid os).
Proof.
  intros Hr Hmax Hrun. eapply rtc_r; [exact Hr|]. unfold sys_step.
  destruct s as [wal d ts acked]. cbn [sy_threads sy_wal sy_disk sy_acked] in *.
  destruct (ts !! tid) as [[p r]|] eqn:Et; [|done].
  destruct (thread_step p (wal, mkWorld d os)) as [p' [wal' w']] eqn:Es. by eapply step_run.
Qed.

Lemma sys_spawn_reachable s0 s tid key value :
  reachable s0 s -> sy_threads s !! tid = None -> reachable s0 (sys_spawn s tid key value).
Proof. intros Hr Ht. eapply rtc_r; [exact Hr|]. destruct s. by apply step_append. Qed.

(** A new log under [Always], holding its header and nothing else. *)
Definition demo_disk : Disk :=
  mkDisk {["000001.wal" := 0%nat]} [] {[0%nat := log_file []]} {[0%nat]} {[0%nat := 12%nat]} 1.

Definition demo_sys (policy : SyncPolicy) : Sys :=
  mkSys (wal_new "000001.wal" 0 policy 0) demo_disk ∅ [].

Lemma demo_sys_fresh policy : fresh_sys [] 0 (demo_sys policy).
Proof. exists "000001.wal", 0%nat, policy, demo_disk. split_and!; done. Qed.

Definition demo_record : LogRecord := RSet 1 (bstr "k") (bstr "v").

(** One append, start to end. *)
Definition demo_appended : Sys :=
  sys_step (sys_step (sys_spawn (demo_sys Always) 1 (bstr "k") (Some (bstr "v"))) 1 []) 1 [].

Lemma demo_appended_reachable : reachable (demo_sys Always) demo_appended.
Proof.
  unfold demo_appended. do 2 (apply sys_step_reachable; [|vm_compute; done..]).
  apply sys_spawn_reachable; [constructor|done].
Qed.

Definition settled (d : Disk) : Disk := mkDisk (names d) [] (data d) (dom (data d)) (floor d) (fresh_inode d).

Lemma settled_crash d : crash d (settled d).
Proof. split; try done. exact (candidates_names d). Qed.

Lemma acknowledged_records_survive_witness :
  exists records rp rp',
    replay_open "000001.wal" (Content (contents (settled (sy_disk demo_appended)) (wl_file (sy_wal demo_appended)))) = Ok rp /\
    replay_all rp = Some (Ok records, rp') /\ demo_record ∈ records.
Proof.
  apply (acknowledged_records_survive [] 0 (demo_sys Always) demo_appended (settled (sy_disk demo_appended))
    demo_record "000001.wal").
  - apply demo_sys_fresh.
  - apply demo_appended_reachable.
  - vm_compute. left.
  - apply settled_crash.
Defined.

(** An append under [Interval], which leaves its record in the buffer, and a [sync]. *)
Definition demo_buffered : Sys :=
  sys_step (sys_step (sys_spawn (demo_sys (Interval 1000)) 1 (bstr "k") (Some (bstr "v"))) 1 []) 1 [].

Definition demo_synced : Sys := Nat.iter 5 (fun s => sys_step s 2 []) (sync_called 2 demo_buffered).

Lemma sync_covers_appends_witness :
  wl_buf (sy_wal demo_buffered) <> [] /\
  exists records rp rp',
    replay_open "000001.wal" (Content (contents (settled (sy_disk demo_synced)) (wl_file (sy_wal demo_synced)))) = Ok rp /\
    replay_all rp = Some (Ok records, rp') /\ demo_record ∈ records.
Proof.
  split; [vm_compute; discriminate|].
  apply (sync_covers_appends [] 0 (demo_sys (Interval 1000)) demo_buffered demo_synced demo_synced 2 1 1 1).
  - apply demo_sys_fresh.
  - unfold demo_buffered. do 2 (apply sys_step_reachable; [|vm_compute; done..]). apply sys_spawn_reachable; [constructor|done].
  - vm_compute. reflexivity.
  - vm_compute. reflexivity.
  - unfold demo_synced. cbn [Nat.iter]. do 5 (apply sys_step_reachable; [|vm_compute; done..]). constructor.
  - vm_compute. reflexivity.
  - vm_compute. reflexivity.
  - constructor.
  - apply settled_crash.
Defined.

(** Two callers pass the [failed] check; the first one's write fails three bytes
    in; the second one's then goes through behind it. *)
Definition race : Sys :=
  let s := sys_spawn (sys_spawn (demo_sys Always) 1 (bstr "a") (Some (bstr "1"))) 2 (bstr "b") (Some (bstr "2")) in
  let s := sys_step (sys_step s 1 []) 2 [] in
  let s := sys_step s 1 [Some (IoError OtherKind "no space left on device", 3%nat)] in
  sys_step s 2 [].

Lemma race_reachable : reachable (demo_sys Always) race.
Proof.
  unfold race. cbv zeta.
  do 4 (apply sys_step_reachable; [|vm_compute; done..]).
  do 2 (apply sys_spawn_reachable; [|vm_compute; done]). constructor.
Qed.

(** C39: An append that races a failing write is acknowledged and lost. [append]
    looks at [failed] before it takes the append lock, so a caller already past
    that check writes behind the partial record another caller's failed write
    left: there is a run of the log under [Always] in which [append] returns
    [Ok(2)], the file is wholly on the device, and replay finds none of it. *)
Theorem racing_append_lost :
  exists s, reachable (demo_sys Always) s /\
    sy_threads s !! 2%nat = Some (Finished (Ok 2), Some (RSet 2 (bstr "b") (bstr "2"))) /\
    wl_failed (sy_wal s) = true /\ log_floor (sys_state s) = length (log_bytes (sys_state s)) /\
    exists rp rp', replay_open "000001.wal" (Content (log_bytes (sys_state s))) = Ok rp /\
      replay_all rp = Some (Ok [], rp').
Proof.
  exists race. split; [apply race_reachable|]. split; [vm_compute; reflexivity|].
  split; [vm_compute; reflexivity|]. split; [vm_compute; reflexivity|].
  set (tail := drop 12 (log_bytes (sys_state race))).
  assert (log_bytes (sys_state race) = log_file [] ++ tail) as -> by (vm_compute; reflexivity).
  destruct (replay_records "000001.wal" [] tail) as [Ho Hr]; [constructor|vm_compute; reflexivity|].
  eexists _, _. split; [exact Ho|exact Hr].
Qed.

(** C17: Appending works. On a log nothing has gone wrong with, [append] on its
    own ends, under every policy, with the next sequence number, as long as the
    record fits the format and the calls it makes succeed. *)
Theorem append_succeeds (self : Wal) (d : Disk) (key : bytes) (value : option bytes)
  (Hhealthy : healthy self) (Hseq : u64_ok (wl_last_seq self + 1))
  (Hfits : record_fits (make_record (wl_last_seq self + 1) key value)) :
  exists s', wal_append key value (self, mkWorld d []) = Some (Ok (wl_last_seq self + 1), s').
Proof.
  set (seq := wl_last_seq self + 1) in *. unfold wal_append, THREAD_FUEL.
  assert (thread_step (Checking key value) (self, mkWorld d []) = (Appending key value, (self, mkWorld d []))) as E1.
  { destruct Hhealthy as (Hf & He & _). cbn [thread_step]. unfold refuse_if_failed, getw. run_stm. cbn [fst].
    rewrite He. cbn. by rewrite Hf. }
  rewrite (run_thread_S _ _ _ _ _ E1 I).
  destruct (append_locked_clean key value self d Hhealthy Hseq Hfits) as (s1 & d1 & Ha & Hh1 & Hb1 & Hl1 & Hp1).
  assert (thread_step (Appending key value) (self, mkWorld d []) =
    (if bool_decide (wl_policy s1 = Group) then Syncing seq else Finished (Ok seq), (s1, mkWorld d1 []))) as E2.
  { cbn [thread_step]. by rewrite Ha. }
  rewrite (run_thread_S _ _ _ _ _ E2 I). destruct (bool_decide _); [|by eexists].
  destruct (sync_alone s1 d1 seq Hh1 Hl1 Hb1) as (s2 & d2 & Hs). exists (s2, mkWorld d2 []).
  revert Hs. apply run_thread_more. lia.
Qed.

Lemma append_succeeds_witness :
  exists s', wal_append (bstr "k") None (wal_new "000001.wal" 0 Group 41, mkWorld demo_disk []) = Some (Ok 42, s').
Proof.
  apply (append_succeeds (wal_new "000001.wal" 0 Group 41) demo_disk (bstr "k") None).
  - by split_and!.
  - split; vm_compute; discriminate.
  - split_and!; [vm_compute; discriminate|exact I|vm_compute; discriminate].
Defined.

(** C16: Recovery keeps exactly the intact records and continues after them.
    Opening a log that holds [records] and then any bytes that do not read as a
    record returns [records], cuts the file back to exactly them, and numbers on
    from the highest sequence number in use; so what is appended next is replayed
    after them. A missing log is created with its header. *)
Theorem recover_continues_the_log (path name : string) (policy : SyncPolicy) (last_seq : Z) (d : Disk)
  (records : list LogRecord)
  (Hrec : recoverable d name records) (Hok : Forall record_ok records) :
  exists i d', wal_recover path name policy last_seq (mkWorld d []) =
      (Ok (wal_new path i policy (highest_seq records last_seq), records), mkWorld d' []) /\
    names d' !! name = Some i /\ contents d' i = log_file records /\
    (forall r, r ∈ records -> record_seq r <= highest_seq records last_seq) /\ last_seq <= highest_seq records last_seq.
Proof.
  destruct (wal_recover_spec path name policy last_seq d records Hrec Hok) as (i & d' & Hr & Hn & Hc & _).
  exists i, d'. split_and!; try done; [|apply highest_seq_spec]. intros r Hr'. by apply highest_seq_spec.
Qed.

Lemma recover_continues_the_log_witness :
  let torn := mkDisk {["000001.wal" := 0%nat]} [] {[0%nat := log_file demo_log ++ [Byte.x01; Byte.x02]]} ∅ ∅ 1 in
  exists i d', wal_recover "000001.wal" "000001.wal" Group 0 (mkWorld torn []) =
      (Ok (wal_new "000001.wal" i Group 3, demo_log), mkWorld d' []) /\ contents d' i = log_file demo_log.
Proof.
  cbv zeta. destruct (recover_continues_the_log "000001.wal" "000001.wal" Group 0
    (mkDisk {["000001.wal" := 0%nat]} [] {[0%nat := log_file demo_log ++ [Byte.x01; Byte.x02]]} ∅ ∅ 1) demo_log)
    as (i & d' & H1 & _ & H2 & _).
  - cbn. exists [Byte.x01; Byte.x02]. split; [reflexivity|vm_compute; reflexivity].
  - apply demo_log_ok.
  - exists i, d'. split; [exact H1|exact H2].
Defined.

(** A new log's name is not made durable with it. [create] and [append] flush
    the file, never the directory it was created in; so on an empty store a record
    acknowledged under [Always] can be gone after a crash, together with the log
    it is in, where a directory entry is only durable once its directory has been
    flushed. *)
Theorem new_log_can_vanish :
  exists wal w r s d', wal_create "db/000001.wal" "000001.wal" Always 0 (mkWorld (mkDisk ∅ [] ∅ ∅ ∅ 0) []) = (Ok wal, w) /\
    wal_append (bstr "k") (Some (bstr "v")) (wal, w) = Some (Ok r, s) /\
    crash (disk (snd s)) d' /\
    fst (open_log "db/000001.wal" "000001.wal" (mkWorld d' [])) = Ok Absent.
Proof.
  destruct (wal_create "db/000001.wal" "000001.wal" Always 0 (mkWorld (mkDisk ∅ [] ∅ ∅ ∅ 0) [])) as [rw w] eqn:E1.
  destruct rw as [wal|e]; [|vm_compute in E1; discriminate].
  destruct (wal_append (bstr "k") (Some (bstr "v")) (wal, w)) as [[[r|e] s]|] eqn:E2;
    [|vm_compute in E1; injection E1 as <- <-; vm_compute in E2; discriminate..].
  exists wal, w, r, s, (mkDisk ∅ [] (data (disk (snd s))) (dom (data (disk (snd s)))) (floor (disk (snd s))) (fresh_inode (disk (snd s)))).
  split; [done|]. split; [done|]. vm_compute in E1. injection E1 as <- <-. vm_compute in E2. injection E2 as <- <-.
  split; [|reflexivity]. split; try done. vm_compute. left.
Qed.
