(* ===== verification/WalAlone.v ===== *)
(** * The log with one caller at a time

    What the engine needs of [Wal::set], [Wal::delete] and [Wal::sync] when no other
    caller is in the middle of one: they return, whatever fails, and the number a
    record gets is the one after the last. *)

From S2P Require Import Prelude Checksum Coding WalRecord WalReplay Disk Wal.

(** Between calls nobody owns the flush, and an empty buffer means everything
    numbered has been written, unless the log has failed. *)
Definition tidy (self : Wal) : Prop :=
  wl_in_progress self = false /\
  (wl_failed self = false -> wl_buf self = [] -> wl_written self = wl_last_seq self).

Lemma wal_new_tidy path file policy last_seq : tidy (wal_new path file policy last_seq).
Proof. done. Qed.

Lemma write_pending_progress s r s' : write_pending s = (r, s') -> wl_in_progress (fst s') = wl_in_progress (fst s).
Proof.
  destruct s as [self w]. unfold write_pending, getw. run_stm. cbn [fst].
  destruct (wl_buf self) as [|b bs]; [by intros [= <- <-]|].
  unfold count_write, write_out, on_world. run_stm. cbn [fst wl_path wl_file].
  destruct (disk_write _ _ _ w) as [[[]|e] w']; unfold set_pending, set_failed, getw, lift; run_stm; by intros [= <- <-].
Qed.

Lemma flush_log_progress s r s' : flush_log s = (r, s') -> wl_in_progress (fst s') = wl_in_progress (fst s).
Proof.
  destruct s as [self w]. unfold flush_log, getw, count_flush, on_world. run_stm.
  destruct (disk_sync _ _ w) as [r' w']. by intros [= <- <-].
Qed.

Lemma refuse_progress s r s' : refuse_if_failed s = (r, s') -> wl_in_progress (fst s') = wl_in_progress (fst s).
Proof.
  destruct s as [self w]. unfold refuse_if_failed, getw, set_error. run_stm. cbn [fst].
  destruct (wl_background_error self); cbn; [|destruct (wl_failed self)]; by intros [= <- <-].
Qed.

Lemma append_locked_progress key value s r s' :
  append_locked key value s = (r, s') -> wl_in_progress (fst s') = wl_in_progress (fst s).
Proof.
  destruct s as [self w]. intros H. unfold append_locked in H. unfold getw, set_pending, set_last_seq in H. run_stm. cbn [fst] in H.
  destruct (encode _ _ _ _) as [[[]|e] buf]; cbn [fst wl_policy] in H; [|by injection H as <- <-].
  destruct (bool_decide _).
  - match type of H with context [write_pending ?st] => set (s1 := st) in * end.
    destruct (write_pending s1) as [[[]|e] s2] eqn:E.
    + destruct (flush_log s2) as [[[]|e] s3] eqn:E2; injection H as <- <-;
        rewrite (flush_log_progress _ _ _ E2); by rewrite (write_pending_progress _ _ _ E).
    + injection H as <- <-. by rewrite (write_pending_progress _ _ _ E).
  - destruct (MAX_PENDING_BYTES <=? _); [|by injection H as <- <-].
    match type of H with context [write_pending ?st] => set (s1 := st) in * end.
    destruct (write_pending s1) as [[[]|e] s2] eqn:E; injection H as <- <-; by rewrite (write_pending_progress _ _ _ E).
Qed.

Lemma write_pending_tidy s r s' :
  write_pending s = (r, s') -> tidy (fst s) -> tidy (fst s') /\ (r = Ok tt -> wl_failed (fst s') = false -> wl_written (fst s') = wl_last_seq (fst s')).
Proof.
  intros H [Hp Ht]. pose proof (write_pending_progress _ _ _ H) as Hp'.
  apply write_pending_spec in H as (_ & Hb & Hl & _ & _ & Hc).
  assert (wl_failed (fst s') = false -> wl_written (fst s') = wl_last_seq (fst s')) as Hw.
  { intros Hf. destruct Hc as [(_ & Hf' & _ & ->)|(e & n & _ & Hf' & _)]; [|congruence].
    rewrite Hl. destruct (wl_buf (fst s)) eqn:Eb; [|done]. apply Ht; [congruence|done]. }
  split; [|auto]. split; [congruence|auto].
Qed.

(** The append itself: the record gets the next number, and its caller keeps it. *)
Lemma append_locked_seq key value s r s' :
  append_locked key value s = (r, s') -> tidy (fst s) -> wl_last_seq (fst s) < u64_max -> 0 <= wl_last_seq (fst s) ->
  tidy (fst s') /\ wl_last_seq (fst s) <= wl_last_seq (fst s') <= wl_last_seq (fst s) + 1 /\
  forall seq, r = Ok seq -> seq = wl_last_seq (fst s) + 1 /\ wl_last_seq (fst s') = seq.
Proof.
  intros H [Hp Ht] Hlt H0. pose proof (append_locked_progress _ _ _ _ _ H) as Hp'.
  apply append_locked_spec in H. cbn zeta in H. rewrite wrap64_small in H by (split; lia).
  destruct H as [(_ & [e ->] & Hsd & _)|(_ & s1 & He & Hc)].
  { destruct Hsd as [_ _ _ Hb Hw Hl Hf]. split_and!; [|lia..|done]. split; [congruence|]. rewrite Hb, Hw, Hl, Hf. done. }
  destruct He as (_ & _ & _ & Hb & _ & Hl & _ & Hf).
  assert (wl_buf (fst s1) <> []) as Hne.
  { rewrite Hb. intros [_ H]%app_nil. apply (f_equal (@length _)) in H. revert H. unfold frame. rewrite !length_app, length_to_le. cbn. lia. }
  assert (forall r1 s2, write_pending s1 = (r1, s2) -> wl_last_seq (fst s2) = wl_last_seq (fst s) + 1 /\
    (wl_failed (fst s2) = false -> wl_written (fst s2) = wl_last_seq (fst s2))) as Hwp.
  { intros r1 s2 (_ & _ & Hl2 & _ & _ & Hc2)%write_pending_spec. split; [congruence|]. intros Hf2. rewrite Hl2.
    destruct Hc2 as [(_ & _ & _ & ->)|(e & n & _ & Hf' & _)]; [by destruct (wl_buf (fst s1))|congruence]. }
  destruct Hc as [(_ & r1 & Hw & ->)|[(_ & r1 & Hw & ->)|(_ & -> & ->)]].
  - assert (wl_last_seq (fst s') = wl_last_seq (fst s) + 1 /\ (wl_failed (fst s') = false -> wl_written (fst s') = wl_last_seq (fst s'))) as [Hl' Hw'].
    { apply stm_bind_cases in Hw as [([] & s2 & Hw & Hfl)|(e & Hw & _)]; [|by eapply Hwp].
      destruct (Hwp _ _ Hw) as [E1 E2]. apply flush_log_spec in Hfl as (_ & _ & _ & Ew & El & _ & Ef & _). rewrite Ew, El, Ef. auto. }
    split_and!; [split; [congruence|auto]|lia..|]. intros seq. destruct r1; intros [= <-]; auto.
  - destruct (Hwp _ _ Hw) as [Hl' Hw']. split_and!; [split; [congruence|auto]|lia..|]. intros seq. destruct r1; intros [= <-]; auto.
  - split_and!; [|lia..|by intros ? [= <-]]. split; [congruence|]. done.
Qed.

(** A caller of [sync_through] that finds its record covered, or the log failed. *)
Lemma sync_step_done seq self w :
  wl_in_progress self = false -> seq <= wl_durable self \/ wl_failed self = true ->
  exists r, thread_step (Syncing seq) (self, w) = (Finished r, (self, w)) /\ (forall x, r = Ok x -> x = seq).
Proof.
  intros Hp Hc. cbn [thread_step]. unfold sync_enter, getw. run_stm. cbn [fst].
  destruct (Z.leb_spec seq (wl_durable self)); [eexists; split; [reflexivity|congruence]|].
  destruct Hc as [|Hf]; [lia|]. rewrite Hf. eexists. split; [reflexivity|done].
Qed.

(** One that takes the flush. *)
Lemma sync_step_owner seq self w :
  wl_in_progress self = false -> ~ (seq <= wl_durable self \/ wl_failed self = true) ->
  exists s1, thread_step (Syncing seq) (self, w) = (Writing seq, (s1, w)) /\ wl_failed s1 = false /\
    wl_buf s1 = wl_buf self /\ wl_written s1 = wl_written self /\ wl_last_seq s1 = wl_last_seq self.
Proof.
  intros Hp Hc. cbn [thread_step]. unfold sync_enter, set_sync, getw. run_stm. cbn [fst]. rewrite Hp.
  destruct (Z.leb_spec seq (wl_durable self)); [exfalso; auto|]. destruct (wl_failed self) eqn:E; [exfalso; auto|].
  eexists. split; [reflexivity|]. by split_and!.
Qed.

(** The end of a turn leaves the lock to the flush free. *)
Lemma leave_step seq flushed self w :
  wl_last_seq self = seq -> (wl_failed self = false -> wl_buf self = [] -> wl_written self = seq) ->
  exists p self', thread_step (Leaving seq flushed) (self, w) = (p, (self', w)) /\ tidy self' /\ wl_last_seq self' = seq /\
    (match flushed with Ok t => p = Syncing seq /\ t <= wl_durable self' | Err e => p = Finished (Err e) end).
Proof.
  intros Hl Ht. cbn [thread_step]. unfold sync_leave, set_sync, getw. run_stm. cbn [fst snd].
  destruct flushed as [t|e]; eexists _, _; (split; [reflexivity|]); unfold tidy; cbn; split_and!; rewrite ?Hl; try done; lia.
Qed.

(** What the owner of the flush does, up to the end of its turn. *)
Lemma owner_steps seq self w :
  wl_last_seq self = seq -> (wl_failed self = false -> wl_buf self = [] -> wl_written self = seq) ->
  exists fuel flushed self' w', (fuel <= 2)%nat /\
    (forall n, run_thread (fuel + n) (Writing seq) (self, w) = run_thread n (Leaving seq flushed) (self', w')) /\
    wl_last_seq self' = seq /\ (wl_failed self' = false -> wl_buf self' = [] -> wl_written self' = seq) /\
    (forall t, flushed = Ok t -> t = seq \/ wl_failed self' = true).
Proof.
  intros Hl Ht. destruct (write_section (self, w)) as [r [s2 w2]] eqn:E. pose proof E as E'.
  apply write_section_cases in E as (rp & Ew & Er). apply write_pending_spec in Ew as (_ & Hb & Hl2 & _ & _ & Hc). cbn [fst] in *.
  assert (wl_failed s2 = false -> wl_written s2 = seq) as Hw2.
  { intros Hf. destruct Hc as [(_ & Hf2 & _ & ->)|(e & n & _ & Hf2 & _)]; [|congruence].
    destruct (wl_buf self) eqn:Eb; [|done]. apply Ht; congruence. }
  destruct rp as [u|e]; subst r.
  2:{ exists 1%nat, (Err e), s2, w2. split_and!; [lia| |congruence|auto|done]. intros n. apply run_thread_S; [|done].
      cbn [thread_step]. by rewrite E'. }
  destruct (flush_log (s2, w2)) as [r4 [s4 w4]] eqn:E4. pose proof E4 as E4'.
  apply flush_log_spec in E4 as (_ & _ & Hb4 & Hw4 & Hl4 & _ & Hf4 & _). cbn [fst] in *.
  exists 2%nat, (match r4 with Ok _ => Ok (wl_written s2) | Err e => Err e end), s4, w4. split_and!; [lia| |congruence| |].
  - intros n. cbn [Nat.add]. rewrite (run_thread_S _ _ _ (Flushing seq (wl_written s2)) (s2, w2)); [|cbn [thread_step]; by rewrite E'|done].
    apply run_thread_S; [|done]. cbn [thread_step]. rewrite E4'. by destruct r4.
  - intros Hf _. rewrite Hw4. apply Hw2. congruence.
  - intros t Ht4. destruct r4; [|done]. injection Ht4 as <-. rewrite Hf4. destruct (wl_failed s2); auto.
Qed.

(** [sync_through] on its own always comes back, with the lock to the flush free. *)
Lemma sync_ends seq self w :
  tidy self -> wl_last_seq self = seq ->
  exists r self' w', run_thread 7 (Syncing seq) (self, w) = Some (r, (self', w')) /\
    tidy self' /\ wl_last_seq self' = seq /\ (forall x, r = Ok x -> x = seq).
Proof.
  intros [Hp Ht] Hl.
  destruct (decide (seq <= wl_durable self \/ wl_failed self = true)) as [Hc|Hc].
  { destruct (sync_step_done seq self w Hp Hc) as (r & E & Hr). rewrite (run_thread_S _ _ _ _ _ E I). exists r, self, w. by split_and!. }
  destruct (sync_step_owner seq self w Hp Hc) as (s1 & E1 & Hf1 & Hb1 & Hw1 & Hl1).
  rewrite (run_thread_S _ _ _ _ _ E1 I).
  destruct (owner_steps seq s1 w) as (fuel & flushed & s2 & w2 & Hfuel & Hrun & Hl2 & Ht2 & Hfl); [congruence|rewrite Hf1, Hb1, Hw1; intros _; rewrite <- Hl; destruct (wl_failed self); [exfalso; auto|auto]|].
  destruct (leave_step seq flushed s2 w2 Hl2 Ht2) as (p & s3 & E3 & Hti & Hl3 & Hp3).
  assert (exists r, run_thread 3 (Leaving seq flushed) (s2, w2) = Some (r, (s3, w2)) /\ (forall x, r = Ok x -> x = seq)) as (r & Hr & Hx).
  { rewrite (run_thread_S _ _ _ _ _ E3 I). destruct flushed as [t|e]; [destruct Hp3 as [-> Hd]|subst p].
    - destruct (sync_step_done seq s3 w2) as (r & E & Hr); [by destruct Hti| |].
      + destruct (Hfl t eq_refl) as [->|Hf]; [by left|right].
        revert E3. cbn [thread_step]. unfold sync_leave, set_sync, getw. run_stm. cbn [fst snd]. by intros [= <-].
      + rewrite (run_thread_S _ _ _ _ _ E I). by exists r.
    - by exists (Err e). }
  exists r, s3, w2. split_and!; [|done..]. replace 6%nat with (fuel + (6 - fuel))%nat by lia. rewrite Hrun.
  eapply run_thread_more; [|exact Hr]. lia.
Qed.

(** An append on its own always comes back. Acknowledged, it took the number after
    the last; refused, at most the number is gone. *)
Lemma append_ends key value self w :
  tidy self -> 0 <= wl_last_seq self < u64_max ->
  exists r self' w', wal_append key value (self, w) = Some (r, (self', w')) /\ tidy self' /\
    wl_last_seq self <= wl_last_seq self' <= wl_last_seq self + 1 /\
    forall seq, r = Ok seq -> seq = wl_last_seq self + 1 /\ wl_last_seq self' = seq.
Proof.
  intros Ht Hl. unfold wal_append, THREAD_FUEL.
  destruct (refuse_if_failed (self, w)) as [r1 [s1 w1]] eqn:E1. pose proof (refuse_progress _ _ _ E1) as Hp1.
  pose proof E1 as E1'. apply refuse_if_failed_spec in E1 as [[_ _ _ Hb1 Hw1 Hl1 Hf1] _]. cbn [fst] in *.
  assert (tidy s1) as Ht1 by (unfold tidy; rewrite Hp1, Hf1, Hb1, Hw1, Hl1; exact Ht).
  destruct r1 as [u|e].
  2:{ assert (thread_step (Checking key value) (self, w) = (Finished (Err e), (s1, w1))) as E by (cbn [thread_step]; by rewrite E1').
      rewrite (run_thread_S _ _ _ _ _ E I). exists (Err e), s1, w1. split_and!; try done; lia. }
  assert (thread_step (Checking key value) (self, w) = (Appending key value, (s1, w1))) as E by (cbn [thread_step]; by rewrite E1').
  rewrite (run_thread_S _ _ _ _ _ E I).
  destruct (append_locked key value (s1, w1)) as [r2 [s2 w2]] eqn:E2. pose proof E2 as E2'.
  apply append_locked_seq in E2 as (Ht2 & Hl2 & Hr2); [|done|cbn [fst]; lia..]. cbn [fst] in *. rewrite Hl1 in *.
  destruct r2 as [seq|e].
  2:{ assert (thread_step (Appending key value) (s1, w1) = (Finished (Err e), (s2, w2))) as E3 by (cbn [thread_step]; by rewrite E2').
      rewrite (run_thread_S _ _ _ _ _ E3 I). exists (Err e), s2, w2. split_and!; try done; lia. }
  destruct (Hr2 seq eq_refl) as [Hs1 Hs2].
  assert (thread_step (Appending key value) (s1, w1) =
    (if bool_decide (wl_policy s2 = Group) then Syncing seq else Finished (Ok seq), (s2, w2))) as E3 by (cbn [thread_step]; by rewrite E2').
  destruct (bool_decide (wl_policy s2 = Group)); rewrite (run_thread_S _ _ _ _ _ E3 I).
  - destruct (sync_ends seq s2 w2 Ht2 Hs2) as (r & s' & w' & Hrun & Ht' & Hl' & Hr).
    exists r, s', w'. split_and!; [by eapply run_thread_more; [|exact Hrun]; lia|done|lia|lia|].
    intros x ->. rewrite (Hr x eq_refl). split; congruence.
  - exists (Ok seq), s2, w2. split_and!; [done|done|lia|lia|]. intros x [= <-]. by split.
Qed.

Lemma wal_sync_ends self w :
  tidy self -> exists r self' w', wal_sync (self, w) = Some (r, (self', w')) /\ tidy self' /\ wl_last_seq self' = wl_last_seq self.
Proof.
  intros Ht. destruct (sync_ends _ self w Ht eq_refl) as (r & s' & w' & Hrun & Ht' & Hl' & _).
  exists r, s', w'. split_and!; [|done..]. unfold wal_sync. eapply run_thread_more; [|exact Hrun]. unfold THREAD_FUEL. lia.
Qed.
