(* ===== verification/Decimal.v ===== *)
(** * Decimal numbers

    How [std] prints integers ([to_string], [{number:06}]) and parses them
    ([str::parse] at the types the source uses), and that what is printed parses
    back. File names, the wire protocol and the server's options are built on
    these. *)

From S2P Require Import Prelude.
From Stdlib Require Import Ascii.

(** ** Decimal numbers *)

Definition digit (n : Z) : ascii := ascii_of_N (Z.to_N (48 + n)).

(** The last [width] decimal digits of [n]. *)
Fixpoint digits (width : nat) (n : Z) : string :=
  match width with
  | O => EmptyString
  | S width => (digits width (n / 10) +:+ String (digit (n mod 10)) EmptyString)%string
  end.

(** How many digits [n] takes; a [u64] takes at most twenty. *)
Fixpoint digit_count (fuel : nat) (n : Z) : nat :=
  match fuel with
  | O => 1
  | S fuel => if n <? 10 then 1 else S (digit_count fuel (n / 10))
  end.

(** [{number:06}]. *)
Definition decimal06 (n : Z) : string := digits (Nat.max 6 (digit_count 20 n)) n.

Definition digit_value (c : ascii) : option Z :=
  let v := Z.of_N (N_of_ascii c) - 48 in
  if (0 <=? v) && (v <=? 9) then Some v else None.

(** The loop of [from_str] on an integer type: digits only, and [None] once the
    value is over [limit]. *)
Fixpoint parse_digits (limit acc : Z) (s : string) : option Z :=
  match s with
  | EmptyString => Some acc
  | String c s =>
      v ← digit_value c;
      let acc := acc * 10 + v in
      if acc <=? limit then parse_digits limit acc s else None
  end.

(** [str::parse] at an unsigned type whose greatest value is [max]: at least one
    digit, after an optional plus sign. *)
Definition parse_unsigned (max : Z) (s : string) : option Z :=
  match s with
  | EmptyString => None
  | String c s' =>
      if Ascii.eqb c "+"%char then
        match s' with EmptyString => None | _ => parse_digits max 0 s' end
      else parse_digits max 0 s
  end.

Definition parse_u64 (s : string) : option Z := parse_unsigned u64_max s.

Definition i64_max : Z := 9223372036854775807.
Definition i64_ok (z : Z) : Prop := - (i64_max + 1) <= z <= i64_max.

(** [str::parse::<i64>]: a minus sign goes down to one further. *)
Definition parse_i64 (s : string) : option Z :=
  match s with
  | String c s' =>
      if Ascii.eqb c "-"%char then
        match s' with EmptyString => None | _ => Z.opp <$> parse_digits (i64_max + 1) 0 s' end
      else parse_unsigned i64_max s
  | EmptyString => None
  end.

(** [to_string] of an unsigned and of a signed integer. *)
Definition decimal (n : Z) : string := digits (digit_count 20 n) n.

Definition decimal_i64 (n : Z) : string :=
  if n <? 0 then String "-"%char (decimal (- n)) else decimal n.

(** ** Printing and parsing *)

Lemma app_string_cons x (a b : string) : (String x a +:+ b = String x (a +:+ b))%string.
Proof. reflexivity. Qed.

Lemma app_string_nil (b : string) : (EmptyString +:+ b = b)%string.
Proof. reflexivity. Qed.

Lemma app_string_assoc (a b c : string) : ((a +:+ b) +:+ c = a +:+ (b +:+ c))%string.
Proof. induction a as [|x a IH]; [done|]. by rewrite !app_string_cons, IH. Qed.

Lemma app_string_nil_r (a : string) : (a +:+ EmptyString = a)%string.
Proof. induction a as [|x a IH]; [done|]. by rewrite app_string_cons, IH. Qed.

Lemma digit_value_digit n : 0 <= n < 10 -> digit_value (digit n) = Some n.
Proof.
  intros H. unfold digit_value, digit. rewrite N_ascii_embedding by lia.
  replace (Z.of_N (Z.to_N (48 + n)) - 48) with n by lia.
  destruct (Z.leb_spec 0 n), (Z.leb_spec n 9); try lia. done.
Qed.

Lemma digits_range width : forall n, 0 <= n -> 0 <= n / 10 ^ Z.of_nat width.
Proof. intros n H. apply Z.div_pos; [done|]. apply Z.pow_pos_nonneg; lia. Qed.

(** Parsing the last [width] digits of [n] shifts them in behind [acc]. *)
Lemma parse_digits_app limit width : forall n acc rest,
  0 <= n < 10 ^ Z.of_nat width -> 0 <= acc -> acc * 10 ^ Z.of_nat width + n <= limit ->
  parse_digits limit acc (digits width n +:+ rest)%string = parse_digits limit (acc * 10 ^ Z.of_nat width + n) rest.
Proof.
  induction width as [|width IH]; intros n acc rest Hn Ha Hm; cbn [digits].
  - rewrite app_string_nil. f_equal. cbn in Hn. lia.
  - replace (Z.of_nat (S width)) with (Z.of_nat width + 1) in * by lia. rewrite Z.pow_add_r in * by lia.
    change (10 ^ 1) with 10 in *. pose proof (Z.div_mod n 10 ltac:(lia)) as Hd.
    pose proof (Z.mod_pos_bound n 10 ltac:(lia)) as Hmod. set (q := n / 10) in *. set (r := n mod 10) in *.
    assert (0 <= q) as Hq by (apply Z.div_pos; lia). assert (0 < 10 ^ Z.of_nat width) by (apply Z.pow_pos_nonneg; lia).
    rewrite app_string_assoc, IH by nia. rewrite app_string_cons, app_string_nil. cbn [parse_digits].
    rewrite digit_value_digit by done. cbn [mbind option_bind].
    replace ((acc * 10 ^ Z.of_nat width + q) * 10 + r) with (acc * (10 ^ Z.of_nat width * 10) + n) by lia.
    by destruct (Z.leb_spec (acc * (10 ^ Z.of_nat width * 10) + n) limit); [|lia].
Qed.

Lemma digit_count_bound fuel : forall n, 0 <= n < 10 ^ Z.of_nat (S fuel) -> n < 10 ^ Z.of_nat (digit_count fuel n).
Proof.
  induction fuel as [|fuel IH]; intros n Hn; cbn [digit_count]; [lia|].
  destruct (Z.ltb_spec n 10); [cbn; lia|].
  replace (Z.of_nat (S (S fuel))) with (Z.of_nat (S fuel) + 1) in Hn by lia. rewrite Z.pow_add_r in Hn by lia.
  pose proof (Z.div_mod n 10 ltac:(lia)). pose proof (Z.mod_pos_bound n 10 ltac:(lia)).
  specialize (IH (n / 10)). replace (Z.of_nat (S (digit_count fuel (n / 10)))) with (Z.of_nat (digit_count fuel (n / 10)) + 1) by lia.
  rewrite Z.pow_add_r by lia. change (10 ^ 1) with 10 in *. assert (0 <= n / 10) by (apply Z.div_pos; lia). nia.
Qed.

Lemma digits_head width : forall n, 0 <= n -> (0 < width)%nat ->
  exists d s, digits width n = String d s /\ d <> "+"%char /\ d <> "-"%char.
Proof.
  assert (forall m, 0 <= m < 10 -> digit m <> "+"%char /\ digit m <> "-"%char) as Hplus.
  { intros m Hm. split; intros E; pose proof (digit_value_digit m Hm) as H; by rewrite E in H. }
  induction width as [|width IH]; intros n Hn Hw; [lia|]. cbn [digits]. destruct width as [|width].
  - eexists _, _. cbn [digits]. rewrite app_string_nil. split; [done|]. apply Hplus, Z.mod_pos_bound. lia.
  - destruct (IH (n / 10)) as (d & s & -> & Hd); [apply Z.div_pos; lia|lia|]. rewrite app_string_cons. by eexists _, _.
Qed.

(** What a printed number parses to, at any type it fits. *)
Lemma parse_unsigned_digits max width n :
  0 <= n < 10 ^ Z.of_nat width -> (0 < width)%nat -> n <= max -> parse_unsigned max (digits width n) = Some n.
Proof.
  intros Hn Hw Hmax. destruct (digits_head width n ltac:(lia) Hw) as (d & s & E & Hd & _).
  pose proof (parse_digits_app max width n 0 EmptyString ltac:(lia) ltac:(lia) ltac:(lia)) as Hp.
  rewrite app_string_nil_r in Hp. unfold parse_unsigned. rewrite E in *. destruct (Ascii.eqb_spec d "+"%char); [done|]. by rewrite Hp.
Qed.

Lemma digit_count_pos fuel n : (0 < digit_count fuel n)%nat.
Proof. destruct fuel; cbn; [lia|]. destruct (n <? 10); lia. Qed.

Lemma decimal_bound n : 0 <= n <= u64_max -> n < 10 ^ Z.of_nat (digit_count 20 n).
Proof.
  intros [H1 H2]. apply (digit_count_bound 20). split; [done|]. unfold u64_max in H2.
  change (10 ^ Z.of_nat 21) with 1000000000000000000000. lia.
Qed.

Lemma decimal06_bound n : u64_ok n -> n < 10 ^ Z.of_nat (Nat.max 6 (digit_count 20 n)).
Proof.
  intros Hn. eapply Z.lt_le_trans; [by apply decimal_bound|]. apply Z.pow_le_mono_r; lia.
Qed.

Lemma parse_decimal06 n : u64_ok n -> parse_u64 (decimal06 n) = Some n.
Proof.
  intros Hn. pose proof (decimal06_bound n Hn). apply parse_unsigned_digits; [split; [apply Hn|done]|lia|apply Hn].
Qed.

Lemma parse_decimal max n : 0 <= n <= max -> max <= u64_max -> parse_unsigned max (decimal n) = Some n.
Proof.
  intros Hn Hmax. pose proof (decimal_bound n ltac:(lia)). apply parse_unsigned_digits; [lia|apply digit_count_pos|lia].
Qed.

Lemma parse_decimal_i64 n : i64_ok n -> parse_i64 (decimal_i64 n) = Some n.
Proof.
  unfold i64_ok, i64_max. intros Hn. unfold decimal_i64. destruct (Z.ltb_spec n 0).
  - pose proof (decimal_bound (- n) ltac:(unfold u64_max; lia)) as Hb. unfold parse_i64. cbn [Ascii.eqb eqb andb].
    change (Ascii.eqb "-" "-") with true. cbn beta iota.
    destruct (digits_head (digit_count 20 (- n)) (- n) ltac:(lia) (digit_count_pos _ _)) as (d & s & E & _).
    pose proof (parse_digits_app (i64_max + 1) (digit_count 20 (- n)) (- n) 0 EmptyString ltac:(lia) ltac:(lia) ltac:(unfold i64_max; lia)) as Hp.
    rewrite app_string_nil_r in Hp. unfold decimal. rewrite E in *. rewrite Hp. cbn. f_equal. lia.
  - pose proof (decimal_bound n ltac:(unfold u64_max; lia)) as Hb.
    pose proof (parse_unsigned_digits i64_max (digit_count 20 n) n ltac:(lia) (digit_count_pos _ _) ltac:(unfold i64_max; lia)) as Hp.
    unfold decimal. destruct (digits_head (digit_count 20 n) n ltac:(lia) (digit_count_pos _ _)) as (d & s & E & _ & Hm).
    rewrite E in *. unfold parse_i64. by destruct (Ascii.eqb_spec d "-"%char).
Qed.
