(* ===== verification/Naming.v ===== *)
(** * File names of a data directory ([engine.rs])

    [file_name] and [file_number], over [Decimal]'s printing and parsing, with
    [Path]'s split of a name at its last dot; and [Listing], what a directory's names say it holds. *)

From S2P Require Import Prelude Decimal Disk Manifest.
From Stdlib Require Import Ascii.

Definition LOG_EXT : string := "wal".
Definition TABLE_EXT : string := "sst".
Definition PARTIAL_EXT : string := "tmp".

(** ** Paths *)

(** The parts of a name around its last dot. *)
Fixpoint rsplit_dot (s : string) : option (string * string) :=
  match s with
  | EmptyString => None
  | String c s =>
      match rsplit_dot s with
      | Some (stem, ext) => Some (String c stem, ext)
      | None => if Ascii.eqb c "."%char then Some (EmptyString, s) else None
      end
  end.

(** [Path::extension]: none without a dot, or with only a leading one. *)
Definition extension (name : string) : option string :=
  match rsplit_dot name with
  | Some (EmptyString, _) | None => None
  | Some (_, ext) => Some ext
  end.

Definition file_stem (name : string) : string :=
  match rsplit_dot name with
  | Some (EmptyString, _) | None => name
  | Some (stem, _) => stem
  end.

Definition file_name (number : Z) (ext : string) : string :=
  (decimal06 number +:+ "." +:+ ext)%string.

Definition file_number (name : string) : option Z := parse_u64 (file_stem name).

(** [partial_path]'s name. *)
Definition partial_name (number : Z) : string :=
  (file_name number TABLE_EXT +:+ "." +:+ PARTIAL_EXT)%string.

(** ** Listing *)

Record Listing := mkListing {
  ls_logs : list Z;
  ls_tables : list Z;
  ls_partial : list string;
  ls_next_number : Z;
}.

(** [sort_unstable] on numbers, and [sort_by] below: insertion sorts, stable. *)
Fixpoint insert_by {A} (le : A -> A -> bool) (x : A) (l : list A) : list A :=
  match l with
  | [] => [x]
  | y :: l' => if le x y then x :: l else y :: insert_by le x l'
  end.

Definition sort_by {A} (le : A -> A -> bool) (l : list A) : list A := fold_right (insert_by le) [] l.

(** [Iterator::max]. *)
Definition reduce_max (l : list Z) : option Z :=
  match l with [] => None | x :: l => Some (fold_left Z.max l x) end.

(** One entry of the directory. *)
Definition list_name (listing : Listing) (name : string) : Listing :=
  let '(mkListing logs tables partial next) := listing in
  match extension name with
  | Some ext =>
      if bool_decide (ext = PARTIAL_EXT) then mkListing logs tables (partial ++ [name]) next
      else if bool_decide (ext = LOG_EXT) then
        mkListing (logs ++ option_list (file_number name)) tables partial next
      else if bool_decide (ext = TABLE_EXT) then
        mkListing logs (tables ++ option_list (file_number name)) partial next
      else listing
  | None => listing
  end.

Definition listing_of (entries : list string) : Listing :=
  let '(mkListing logs tables partial _) := fold_left list_name entries (mkListing [] [] [] 0) in
  let logs := sort_by Z.leb logs in
  let tables := sort_by Z.leb tables in
  let next := match reduce_max (logs ++ tables) with Some highest => wrap64 (highest + 1) | None => 1 end in
  mkListing logs tables partial next.

(** [Listing::scan]. *)
Definition listing_scan (dir : string) : stm World Listing :=
  entries ← disk_list dir;
  mret (listing_of entries).

Example file_name_7 : file_name 7 TABLE_EXT = "000007.sst".
Proof. reflexivity. Qed.

(** ** Names read back *)

Fixpoint no_dot (s : string) : bool :=
  match s with EmptyString => true | String c s => negb (Ascii.eqb c "."%char) && no_dot s end.

Lemma rsplit_no_dot s : no_dot s = true -> rsplit_dot s = None.
Proof.
  induction s as [|c s IH]; cbn; [done|]. intros [Hc Hs]%andb_true_iff. rewrite IH by done.
  by destruct (Ascii.eqb c "."%char).
Qed.

Lemma rsplit_app stem ext :
  no_dot ext = true -> rsplit_dot (stem +:+ "." +:+ ext)%string = Some (stem, ext).
Proof. intros H. induction stem as [|c stem IH].
  - rewrite app_string_nil. change ("." +:+ ext)%string with (String "."%char ext). cbn. by rewrite rsplit_no_dot.
  - rewrite app_string_cons. cbn. by rewrite IH.
Qed.

Lemma decimal06_nonempty n : 0 <= n -> decimal06 n <> EmptyString.
Proof.
  intros Hn. unfold decimal06. destruct (digits_head (Nat.max 6 (digit_count 20 n)) n Hn ltac:(lia)) as (d & s & -> & _). done.
Qed.

Lemma file_name_parts n ext :
  u64_ok n -> no_dot ext = true ->
  extension (file_name n ext) = Some ext /\ file_number (file_name n ext) = Some n.
Proof.
  intros Hn He. unfold extension, file_number, file_stem, file_name. rewrite rsplit_app by done.
  pose proof (decimal06_nonempty n ltac:(apply Hn)) as Hne. pose proof (parse_decimal06 n Hn).
  by destruct (decimal06 n).
Qed.

Lemma partial_name_extension n : extension (partial_name n) = Some PARTIAL_EXT.
Proof.
  unfold extension, partial_name. rewrite rsplit_app by done. unfold file_name.
  destruct (decimal06 n +:+ "." +:+ TABLE_EXT)%string eqn:E; [|done]. by destruct (decimal06 n).
Qed.

(** Different numbers, different names. *)
Lemma file_name_inj n m e f :
  u64_ok n -> u64_ok m -> no_dot e = true -> no_dot f = true ->
  file_name n e = file_name m f -> n = m /\ e = f.
Proof.
  intros Hn Hm He Hf E. destruct (file_name_parts n e Hn He) as [E1 E2]. destruct (file_name_parts m f Hm Hf) as [F1 F2].
  rewrite E in *. split; congruence.
Qed.
