(* ===== verification/Engine.v ===== *)
(** * The storage engine ([engine.rs])

    The store's state with everything its locks guard, and its operations: reads,
    writes, rotation, the flush and compaction of the background thread, the
    commit both go through, and opening a directory. An operation is a function on
    the engine and the directory; whatever it has changed when it fails stays
    changed. The in-memory table is any implementation of [Memtable]. *)

From S2P Require Import Prelude WalRecord WalReplay Wal Memtable SsTable Disk Manifest Naming Compaction.

(** [Config]; the kind of memtable is the [Memtable] instance. *)
Record Config := mkConfig {
  cf_sync : SyncPolicy;
  cf_memtable_bytes : Z;
  cf_l0_trigger : Z;
  cf_fanout : Z;
}.

Definition config_default : Config := mkConfig Group (4 * 1024 * 1024) 4 10.

(** A file the store holds, with what the manifest knows about it. *)
Record Table := mkTable { tb_meta : FileMeta; tb_table : SsTable }.

(** A memtable waiting to become a file, and the logs that still hold it. *)
Record Frozen (T : Type) := mkFrozen { fz_memtable : T; fz_logs : list string }.
Arguments mkFrozen {T}.
Arguments fz_memtable {T}.
Arguments fz_logs {T}.

Record State (T : Type) := mkState {
  st_active : T;
  st_active_logs : list string;
  st_frozen : list (Frozen T);
  st_levels : list (list Table);
}.
Arguments mkState {T}.
Arguments st_active {T}.
Arguments st_active_logs {T}.
Arguments st_frozen {T}.
Arguments st_levels {T}.

(** [Shared], with [Durable] and [FlushQueue] in it. *)
Record Engine (T : Type) := mkEngine {
  en_dir : string;
  en_config : Config;
  en_wal : Wal;
  en_manifest : Manifest;
  en_snapshot : Snapshot;
  en_pending : Z;
  en_shape_changed : bool;
  en_shutdown : bool;
  en_state : State T;
  en_next_number : Z;
  en_bytes_written : Z;
  en_background_error : option Error;
  en_block_reads : gmap Z Z;  (* the [block_reads] of the open files, by number; 0 until a lookup reads one *)
}.
Arguments mkEngine {T}.
Arguments en_dir {T}.
Arguments en_config {T}.
Arguments en_wal {T}.
Arguments en_manifest {T}.
Arguments en_snapshot {T}.
Arguments en_pending {T}.
Arguments en_shape_changed {T}.
Arguments en_shutdown {T}.
Arguments en_state {T}.
Arguments en_next_number {T}.
Arguments en_bytes_written {T}.
Arguments en_background_error {T}.
Arguments en_block_reads {T}.

(** What the background thread does next. *)
Inductive Task (T : Type) := TaskFlush (frozen : Frozen T) | TaskCompact.
Arguments TaskFlush {T}.
Arguments TaskCompact {T}.

(** ** Levels *)

(** [State::find]. *)
Definition find_table (levels : list (list Table)) (number : Z) : option SsTable :=
  tb_table <$> List.find (fun table => fm_number (tb_meta table) =? number) (concat levels).

Definition remove_tables (numbers : list Z) (level : list Table) : list Table :=
  filter (fun table => fm_number (tb_meta table) ∉ numbers) level.

(** [State::remove]. *)
Definition levels_remove (numbers : list Z) (levels : list (list Table)) : list (list Table) :=
  remove_tables numbers <$> levels.

Definition min_key_le (a b : Table) : bool := key_leb (fm_min_key (tb_meta a)) (fm_min_key (tb_meta b)).

(** [State::insert]. *)
Definition levels_insert (level : nat) (tables : list Table) (levels : list (list Table)) : list (list Table) :=
  let levels := levels ++ replicate (S level - length levels) [] in
  alter (fun l => sort_by min_key_le (l ++ tables)) level levels.

(** [slice::binary_search_by], as [std] runs it. *)
Fixpoint search_loop {A} (fuel : nat) (f : A -> comparison) (l : list A) (base size : nat) : nat :=
  match fuel with
  | O => base
  | S fuel =>
      if (size <=? 1)%nat then base
      else
        let half := Nat.div2 size in
        let mid := (base + half)%nat in
        let base := match f <$> l !! mid with Some Gt => base | _ => mid end in
        search_loop fuel f l base (size - half)
  end.

Definition binary_search_by {A} (f : A -> comparison) (l : list A) : option nat :=
  match l with
  | [] => None
  | _ =>
      let base := search_loop (length l) f l 0 (length l) in
      match f <$> l !! base with Some Eq => Some base | _ => None end
  end.

(** [covering]. *)
Definition cover_cmp (key : bytes) (table : Table) : comparison :=
  if key_ltb (fm_max_key (tb_meta table)) key then Lt
  else if key_ltb key (fm_min_key (tb_meta table)) then Gt
  else Eq.

Definition covering (level : list Table) (key : bytes) : option Table :=
  index ← binary_search_by (cover_cmp key) level;
  level !! index.

(** [answer]: [Some] breaks off the search with an answer. *)
Definition answer (lookup : Lookup) : option (option bytes) :=
  match lookup with
  | Found value => Some (Some value)
  | Deleted => Some None
  | Missing => None
  end.

(** [meta_of]. *)
Definition meta_of (number level : Z) (table : SsTable) : FileMeta :=
  mkFileMeta number level (st_min_key table) (st_max_key table) (st_bytes table) (st_entries table).

Section Operations.
Context {T : Type} `{!Memtable T}.
Implicit Types (e : Engine T).

Abbreviation em := (stm (Engine T * World)).

(** Running an operation of a part on the part. *)
Definition on_disk {A} (m : stm World A) : em A := fun '(e, w) => let '(r, w) := m w in (r, (e, w)).

Definition gete {A} (f : Engine T -> A) : em A := gets (fun s => f (fst s)).

Definition set_state (st : State T) : em unit := modify (fun '(e, w) =>
  (mkEngine (en_dir e) (en_config e) (en_wal e) (en_manifest e) (en_snapshot e) (en_pending e)
     (en_shape_changed e) (en_shutdown e) st (en_next_number e) (en_bytes_written e) (en_background_error e) (en_block_reads e), w)).

Definition set_wal (wal : Wal) : em unit := modify (fun '(e, w) =>
  (mkEngine (en_dir e) (en_config e) wal (en_manifest e) (en_snapshot e) (en_pending e)
     (en_shape_changed e) (en_shutdown e) (en_state e) (en_next_number e) (en_bytes_written e) (en_background_error e) (en_block_reads e), w)).

Definition set_queue (pending : Z) (shape_changed shutdown : bool) : em unit := modify (fun '(e, w) =>
  (mkEngine (en_dir e) (en_config e) (en_wal e) (en_manifest e) (en_snapshot e) pending
     shape_changed shutdown (en_state e) (en_next_number e) (en_bytes_written e) (en_background_error e) (en_block_reads e), w)).

Definition set_snapshot (snapshot : Snapshot) : em unit := modify (fun '(e, w) =>
  (mkEngine (en_dir e) (en_config e) (en_wal e) (en_manifest e) snapshot (en_pending e)
     (en_shape_changed e) (en_shutdown e) (en_state e) (en_next_number e) (en_bytes_written e) (en_background_error e) (en_block_reads e), w)).

(** [next_number.fetch_add(1)]. *)
Definition fetch_number : em Z := fun '(e, w) =>
  (Ok (en_next_number e),
   (mkEngine (en_dir e) (en_config e) (en_wal e) (en_manifest e) (en_snapshot e) (en_pending e)
      (en_shape_changed e) (en_shutdown e) (en_state e) (wrap64 (en_next_number e + 1)) (en_bytes_written e)
      (en_background_error e) (en_block_reads e), w)).

Definition add_bytes_written (n : Z) : em unit := modify (fun '(e, w) =>
  (mkEngine (en_dir e) (en_config e) (en_wal e) (en_manifest e) (en_snapshot e) (en_pending e)
     (en_shape_changed e) (en_shutdown e) (en_state e) (en_next_number e) (wrap64 (en_bytes_written e + n))
     (en_background_error e) (en_block_reads e), w)).

Definition set_background_error (err : option Error) : em unit := modify (fun '(e, w) =>
  (mkEngine (en_dir e) (en_config e) (en_wal e) (en_manifest e) (en_snapshot e) (en_pending e)
     (en_shape_changed e) (en_shutdown e) (en_state e) (en_next_number e) (en_bytes_written e) err (en_block_reads e), w)).

Definition take_background_error : em (option Error) :=
  err ← gete en_background_error;
  _ ← set_background_error None;
  mret err.

(** [set_background_error]: the first failure is kept. *)
Definition keep_background_error (err : Error) : em unit :=
  slot ← gete en_background_error;
  match slot with None => set_background_error (Some err) | Some _ => mret tt end.

(** ** Reading *)

(** The [block_reads] of an open file. *)
Definition block_reads_of e (number : Z) : Z := default 0 (en_block_reads e !! number).

Definition with_block_reads e (reads : gmap Z Z) : Engine T :=
  mkEngine (en_dir e) (en_config e) (en_wal e) (en_manifest e) (en_snapshot e) (en_pending e)
    (en_shape_changed e) (en_shutdown e) (en_state e) (en_next_number e) (en_bytes_written e)
    (en_background_error e) reads.

(** [SsTable::get] on an open file, with its counter. *)
Definition table_get (table : Table) (key : bytes) : em Lookup := fun '(e, w) =>
  let number := fm_number (tb_meta table) in
  let '(r, (n, w)) := sst_get (tb_table table) key (block_reads_of e number, w) in
  (r, (with_block_reads e (<[number := n]> (en_block_reads e)), w)).

(** One source after the other, until one answers. *)
Fixpoint search_tables (tables : list Table) (key : bytes) : em (option (option bytes)) :=
  match tables with
  | [] => mret None
  | table :: tables =>
      found ← table_get table key;
      match answer found with
      | Some a => mret (Some a)
      | None => search_tables tables key
      end
  end.

Fixpoint search_frozen (frozen : list (Frozen T)) (key : bytes) : em (option (option bytes)) :=
  match frozen with
  | [] => mret None
  | f :: frozen =>
      found ← expect (mt_get (fz_memtable f) key);
      match answer found with
      | Some a => mret (Some a)
      | None => search_frozen frozen key
      end
  end.

(** [Engine::get]: the active table, the frozen ones, every file of level 0, and
    the file of each deeper level that could hold the key. *)
Definition engine_get (key : bytes) : em (option bytes) :=
  st ← gete en_state;
  found ← expect (mt_get (st_active st) key);
  match answer found with
  | Some a => mret a
  | None =>
      frozen ← search_frozen (st_frozen st) key;
      match frozen with
      | Some a => mret a
      | None =>
          l0 ← search_tables (default [] (head (st_levels st))) key;
          match l0 with
          | Some a => mret a
          | None =>
              deeper ← search_tables (omap (fun level => covering level key) (tail (st_levels st))) key;
              mret (default None deeper)
          end
      end
  end.

(** ** Writing *)

(** [Wal::set] or [Wal::delete] through the engine's log, on one thread. A log no
    flush of which is in flight always answers; see [append_ends]. *)
Definition log_append (key : bytes) (value : option bytes) : em Z := fun '(e, w) =>
  match wal_append key value (en_wal e, w) with
  | Some (r, (wal, w)) => (r, snd (set_wal wal (e, w)))
  | None => (Err (Io (wl_path (en_wal e)) WRITE_FAILED), (e, w))
  end.

(** [rotate]: freezes the active table and starts a fresh log, unless the table is
    empty or still small. Dropping the old log flushes it. *)
Definition rotate (min_bytes : Z) : em unit :=
  st ← gete en_state;
  if mt_is_empty (st_active st) || (mt_approx_bytes (st_active st) <? min_bytes) then mret tt
  else
    number ← fetch_number;
    dir ← gete en_dir;
    config ← gete en_config;
    previous ← gete en_wal;
    let name := file_name number LOG_EXT in
    fresh ← on_disk (wal_create (join dir name) name (cf_sync config) (wl_last_seq previous));
    _ ← set_wal fresh;
    let frozen := mkFrozen (st_active st) (st_active_logs st) :: st_frozen st in
    _ ← set_state (mkState (mt_build (cf_memtable_bytes config)) [name] frozen (st_levels st));
    shape_changed ← gete en_shape_changed;
    shutdown ← gete en_shutdown;
    _ ← set_queue (zlen frozen) shape_changed shutdown;
    modify (fun '(e, w) => (e, snd (wal_drop (previous, w)))).

(** [Shared::write]. An insert that panics has changed the table, and no lock is held
    for writing: the store goes on without the caller. *)
Definition engine_write (key : bytes) (value : option bytes) : em unit :=
  err ← take_background_error;
  match err with
  | Some err => lift (Err err)
  | None =>
      seq ← log_append key value;
      st ← gete en_state;
      let inserted := mt_insert (st_active st) key seq value in
      let active := snd inserted in
      _ ← set_state (mkState active (st_active_logs st) (st_frozen st) (st_levels st));
      _ ← expect (fst inserted);
      config ← gete en_config;
      if cf_memtable_bytes config <=? mt_approx_bytes active then rotate (cf_memtable_bytes config) else mret tt
  end.

(** [Engine::set], [Engine::delete] and [Engine::sync]. *)
Definition engine_set (key value : bytes) : em unit := engine_write key (Some value).
Definition engine_delete (key : bytes) : em unit := engine_write key None.

Definition engine_sync : em unit := fun '(e, w) =>
  match wal_sync (en_wal e, w) with
  | Some (r, (wal, w)) => (_ ← r; Ok tt, snd (set_wal wal (e, w)))
  | None => (Err (Io (wl_path (en_wal e)) WRITE_FAILED), (e, w))
  end.

(** ** Files *)

(** [sync_dir]. *)
Definition sync_dir (dir : string) : stm World unit :=
  _ ← disk_open_dir dir;
  disk_sync_dir dir.

(** [SsTable::open]. *)
Definition table_open (path name : string) : stm World SsTable :=
  bs ← disk_read path name;
  sst_open path bs.

(** The writer's file: created empty, and given its bytes and flushed by [finish].
    [BufWriter] may hand bytes over earlier; they reach the device no sooner. *)
Definition writer_close (path : string) (file : nat) (w : Writer) : stm World unit :=
  let '(r, w) := writer_finish w in
  _ ← lift r;
  _ ← disk_write path file (w_file w);
  disk_sync path file.

(** [commit]: the manifest first, then the state in memory. *)
Definition commit (added : list FileMeta) (removed : list Z) (publish : State T -> State T) : em unit :=
  wal ← gete en_wal;
  snapshot ← gete en_snapshot;
  next_number ← gete en_next_number;
  manifest ← gete en_manifest;
  let files := filter (fun file => fm_number file ∉ removed) (sn_files snapshot) ++ added in
  let snapshot := mkSnapshot files (Z.max (sn_last_seq snapshot) (wl_last_seq wal)) next_number in
  _ ← on_disk (manifest_store manifest snapshot);
  _ ← set_snapshot snapshot;
  st ← gete en_state;
  set_state (publish st).

Definition mark_progress : em unit :=
  st ← gete en_state;
  shutdown ← gete en_shutdown;
  set_queue (zlen (st_frozen st)) true shutdown.

(** [fs::remove_file] on each name, stopping at the first failure. *)
Fixpoint remove_files (dir : string) (names : list string) : stm World unit :=
  match names with
  | [] => mret tt
  | name :: names => _ ← disk_remove (join dir name) name; remove_files dir names
  end.

(** What [flush] publishes: the new table in front of level 0, the oldest frozen
    one gone. [levels] is never empty. *)
Definition publish_flush (table : Table) (st : State T) : State T :=
  mkState (st_active st) (st_active_logs st) (take (length (st_frozen st) - 1) (st_frozen st))
    (alter (cons table) 0%nat (st_levels st)).

(** [Shared::flush], up to the commit: the frozen table's entries in a file, which
    takes its final name once it is complete, opened for reading. *)
Definition flush_file (frozen : Frozen T) : em Table :=
  number ← fetch_number;
  dir ← gete en_dir;
  let table_name := file_name number TABLE_EXT in
  let partial := partial_name number in
  file ← on_disk (disk_create (join dir partial) partial);
  let '(added, writer) := mt_for_each (fz_memtable frozen) writer_add (writer_create (join dir partial)) in
  _ ← lift added;
  _ ← on_disk (writer_close (join dir partial) file writer);
  _ ← on_disk (disk_rename (join dir table_name) partial table_name);
  _ ← on_disk (sync_dir dir);
  table ← on_disk (table_open (join dir table_name) table_name);
  _ ← add_bytes_written (st_bytes table);
  mret (mkTable (meta_of number 0 table) table).

(** [Shared::flush]. *)
Definition flush (frozen : Frozen T) : em unit :=
  table ← flush_file frozen;
  _ ← commit [tb_meta table] [] (publish_flush table);
  dir ← gete en_dir;
  _ ← on_disk (remove_files dir (fz_logs frozen));
  mark_progress.

(** ** Compaction *)

Definition target_bytes e : Z := cf_memtable_bytes (en_config e).
Definition level_bytes e : Z := saturating_mul (target_bytes e) (cf_fanout (en_config e)).

(** [seal]. *)
Definition seal (number level : Z) (file : nat) (writer : Writer) : em Table :=
  dir ← gete en_dir;
  let name := file_name number TABLE_EXT in
  _ ← on_disk (writer_close (join dir (partial_name number)) file writer);
  _ ← on_disk (disk_rename (join dir name) (partial_name number) name);
  table ← on_disk (table_open (join dir name) name);
  _ ← add_bytes_written (st_bytes table);
  mret (mkTable (meta_of number level table) table).

(** The output being written: its number, its file and its writer. *)
Abbreviation open_output := (option (Z * nat * Writer)).

(** What the loop of [write_merged] does with one entry. *)
Definition write_entry (snapshot : Snapshot) (level target : Z) (entry : entry)
  (outputs : list Table) (opened : open_output) : em (list Table * open_output) :=
  let '(key, (seq, value)) := entry in
  if bool_decide (value = None) && negb (tombstone_needed snapshot level key) then mret (outputs, opened)
  else
    '(number, file, writer) ← match opened with
      | Some out => mret out
      | None =>
          number ← fetch_number;
          dir ← gete en_dir;
          let partial := partial_name number in
          file ← on_disk (disk_create (join dir partial) partial);
          mret (number, file, writer_create (join dir partial))
      end;
    let '(added, writer) := writer_add key seq value writer in
    _ ← lift added;
    if target <=? bytes_written writer then
      table ← seal number level file writer;
      mret (outputs ++ [table], None)
    else mret (outputs, Some (number, file, writer)).

(** [Merge::new] and [Merge::next], on the world of the store. *)
Definition start_merge (inputs : list SsTable) : em (Merge Scan) := fun '(e, w) =>
  let '(merge, w) := merge_new (sst_scan <$> inputs) w in (Ok merge, (e, w)).

Definition next_merged (fuel : nat) (merge : Merge Scan) : em (option (option (result entry) * Merge Scan)) := fun '(e, w) =>
  match merge_next fuel merge w with
  | None => (Ok None, (e, w))
  | Some (item, (merge, w)) => (Ok (Some (item, merge)), (e, w))
  end.

(** The loop itself, pulling from the merge; [None] when its fuel runs out. *)
Fixpoint write_loop (fuel : nat) (snapshot : Snapshot) (level target : Z) (merge : Merge Scan)
  (outputs : list Table) (opened : open_output) : em (option (list Table * open_output)) :=
  match fuel with
  | O => mret None
  | S fuel' =>
      turn ← next_merged fuel merge;
      match turn with
      | None => mret None
      | Some (None, _) => mret (Some (outputs, opened))
      | Some (Some (Err err), _) => lift (Err err)
      | Some (Some (Ok entry), merge) =>
          '(outputs, opened) ← write_entry snapshot level target entry outputs opened;
          write_loop fuel' snapshot level target merge outputs opened
      end
  end.

(** Fuel for the loop: an entry takes more than one byte of its file. *)
Definition merge_fuel (inputs : list SsTable) : nat := S (length (concat (st_file <$> inputs))).

(** [write_merged]; without fuel, [None]. *)
Definition write_merged (plan : Plan) (snapshot : Snapshot) (inputs : list SsTable) : em (option (list Table)) :=
  target ← gete target_bytes;
  let level := output_level plan in
  merge ← start_merge inputs;
  done ← write_loop (merge_fuel inputs) snapshot level target merge [] None;
  match done with
  | None => mret None
  | Some (outputs, None) => mret (Some outputs)
  | Some (outputs, Some (number, file, writer)) =>
      table ← seal number level file writer;
      mret (Some (outputs ++ [table]))
  end.

(** What [compact_once] publishes. *)
Definition publish_compaction (removed : list Z) (level : Z) (outputs : list Table) (st : State T) : State T :=
  mkState (st_active st) (st_active_logs st) (st_frozen st)
    (levels_insert (Z.to_nat level) outputs (levels_remove removed (st_levels st))).

(** [compact_once]: whether there was a compaction to run; [None] without fuel. *)
Definition compact_once : em (option bool) :=
  snapshot ← gete en_snapshot;
  config ← gete en_config;
  level_bytes ← gete level_bytes;
  match plan snapshot (cf_l0_trigger config) level_bytes (cf_fanout config) with
  | None => mret (Some false)
  | Some plan =>
      st ← gete en_state;
      let inputs := omap (fun meta => find_table (st_levels st) (fm_number meta)) (pl_inputs plan) in
      if negb (length inputs =? length (pl_inputs plan))%nat then mret (Some false)
      else
        merged ← write_merged plan snapshot inputs;
        match merged with
        | None => mret None
        | Some outputs =>
            dir ← gete en_dir;
            _ ← on_disk (sync_dir dir);
            let removed := input_numbers plan in
            _ ← commit (tb_meta <$> outputs) removed (publish_compaction removed (output_level plan) outputs);
            _ ← on_disk (remove_files dir ((fun number => file_name number TABLE_EXT) <$> removed));
            _ ← mark_progress;
            mret (Some true)
        end
  end.

(** [compact_all], for at most [fuel] compactions. *)
Fixpoint compact_all (fuel : nat) : em (option unit) :=
  match fuel with
  | O => mret None
  | S fuel =>
      more ← compact_once;
      match more with
      | None => mret None
      | Some true => compact_all fuel
      | Some false => mret (Some tt)
      end
  end.

(** ** The background thread and who waits for it *)

(** [next_task], without the waiting: [None] when there is nothing to do yet. *)
Definition next_task : em (option (Task T)) :=
  pending ← gete en_pending;
  shape_changed ← gete en_shape_changed;
  shutdown ← gete en_shutdown;
  st ← gete en_state;
  if (shutdown : bool) then mret None
  else
    match (if 0 <? pending then last (st_frozen st) else None) with
    | Some frozen => mret (Some (TaskFlush frozen))
    | None =>
        if (shape_changed : bool) then
          _ ← set_queue pending false shutdown;
          mret (Some TaskCompact)
        else mret None
    end.

(** One turn of the loop of [spawn_flusher]. *)
Definition flusher_turn (fuel : nat) : em unit := fun s =>
  match next_task s with
  | (Ok (Some task), s) =>
      let '(outcome, s) := match task with
        | TaskFlush frozen => flush frozen s
        | TaskCompact => (_ ← compact_all fuel; mret tt) s
        end in
      match outcome with
      | Ok _ => (Ok tt, s)
      | Err err => keep_background_error err s
      end
  | (_, s) => (Ok tt, s)
  end.

(** What a turn of the loop of [wait_for_flush] comes to: an error, done, or
    ([None]) another wait. *)
Definition wait_turn : em (option unit) :=
  err ← take_background_error;
  match err with
  | Some err => lift (Err err)
  | None =>
      pending ← gete en_pending;
      if pending =? 0 then mret (Some tt) else mret None
  end.

(** ** Opening *)

(** [apply]: the mutation of a replayed record. *)
Definition apply_record (active : T) (record : LogRecord) : option bool * T :=
  mt_insert active (record_key record) (record_seq record) (record_value record).

(** One after the other, into a table nobody else has; an insert that panics ends it. *)
Fixpoint apply_records (active : T) (records : list LogRecord) : result T :=
  match records with
  | [] => Ok active
  | record :: records =>
      match apply_record active record with
      | (Some _, active) => apply_records active records
      | (None, _) => Err Panic
      end
  end.

(** [for record in Wal::replay(&path)? { .. record? .. }] over the older logs. *)
Fixpoint replay_logs (dir : string) (logs : list Z) (active : T) (last_seq : Z) : stm World (T * Z) :=
  match logs with
  | [] => mret (active, last_seq)
  | number :: logs =>
      let name := file_name number LOG_EXT in
      replay ← wal_replay (join dir name) name;
      records ← lift (fst (drain_all replay));
      active ← lift (apply_records active records);
      replay_logs dir logs active (highest_seq records last_seq)
  end.

Definition number_le (a b : FileMeta) : bool := fm_number a <=? fm_number b.

(** [levels[meta.level].push(Table { meta, table })] for every file, by number. *)
Fixpoint open_tables (dir : string) (files : list FileMeta) (levels : list (list Table))
  : stm World (list (list Table)) :=
  match files with
  | [] => mret levels
  | meta :: files =>
      let name := file_name (fm_number meta) TABLE_EXT in
      table ← table_open (join dir name) name;
      open_tables dir files (alter (fun l => l ++ [mkTable meta table]) (Z.to_nat (fm_level meta)) levels)
  end.

(** [open_levels]. *)
Definition open_levels (dir : string) (snapshot : Snapshot) : stm World (list (list Table)) :=
  let levels := replicate (S (Z.to_nat (deepest_level snapshot))) [] in
  levels ← open_tables dir (sort_by number_le (sn_files snapshot)) levels;
  match levels with
  | l0 :: deeper => mret (reverse l0 :: (sort_by min_key_le <$> deeper))
  | [] => mret []
  end.

(** The tables on disk the manifest does not name. *)
Definition orphans (listing : Listing) (snapshot : Snapshot) : list string :=
  (fun number => file_name number TABLE_EXT) <$>
    filter (fun number => number ∉ fm_number <$> sn_files snapshot) (ls_tables listing).

(** [Engine::open], up to starting the background thread. *)
Definition engine_open (dir : string) (config : Config) : stm World (Engine T) :=
  _ ← disk_open_dir dir;
  let manifest := manifest_new dir in
  listing ← listing_scan dir;
  _ ← remove_files dir (ls_partial listing);
  loaded ← manifest_load manifest;
  snapshot ← lift (match loaded with
    | Some snapshot => Ok snapshot
    | None =>
        match ls_tables listing with
        | [] => Ok snapshot_default
        | _ => Err (Corrupt dir "tables are present but the manifest naming them is gone")
        end
    end);
  _ ← remove_files dir (orphans listing snapshot);
  levels ← open_levels dir snapshot;
  let active := mt_build (cf_memtable_bytes config) in
  let next_number := Z.max (ls_next_number listing) (sn_next_number snapshot) in
  let last_seq := sn_last_seq snapshot in
  '(wal, active, active_logs, next_number) ←
    match last (ls_logs listing) with
    | Some newest =>
        let older := take (length (ls_logs listing) - 1) (ls_logs listing) in
        '(active, last_seq) ← replay_logs dir older active last_seq;
        let name := file_name newest LOG_EXT in
        '(wal, records) ← wal_recover (join dir name) name (cf_sync config) last_seq;
        active ← lift (apply_records active records);
        mret (wal, active,
              (fun number => file_name number LOG_EXT) <$> ls_logs listing, next_number)
    | None =>
        let name := file_name next_number LOG_EXT in
        wal ← wal_create (join dir name) name (cf_sync config) last_seq;
        mret (wal, active, [name], wrap64 (next_number + 1))
    end;
  mret (mkEngine dir config wal manifest snapshot 0 false false
    (mkState active active_logs [] levels) next_number 0 None ∅).

(** [Drop for Engine], once the background thread has stopped: the log is closed,
    which flushes it. *)
Definition engine_drop (s : Engine T * World) : World :=
  snd (wal_drop (en_wal (fst s), snd s)).

(** ** What can be read off a store *)

Definition table_count e : Z := zlen (concat (st_levels (en_state e))).
Definition level_sizes e : list Z := zlen <$> st_levels (en_state e).
Definition last_sequence e : Z := wl_last_seq (en_wal e).
Definition engine_block_reads e : Z :=
  fold_left (fun acc t => wrap64 (acc + block_reads_of e (fm_number (tb_meta t)))) (concat (st_levels (en_state e))) 0.
End Operations.

Arguments Engine : clear implicits.
