(* ===== verification/Layers.v ===== *)
(** * Layers of versions

    What the engine's correctness comes down to, away from its data structures:
    a store is a list of maps, newest first; a read takes the first map that has
    the key; and what keeps that right is that a layer is never older than the
    ones below it. The operations that move entries between layers are shown here
    to keep what a read sees. *)

From S2P Require Import Prelude Memtable Naming.

Abbreviation layer := (gmap bytes version).

(** What a client is told about a version, or about none. *)
Definition value_of (o : option version) : option bytes := o ≫= snd.

(** The first layer that has the key answers. *)
Definition view (ls : list layer) : layer := ⋃ ls.

(** [v] may hide [w]: a later mutation, or the very same one. *)
Definition hides (v w : version) : Prop := fst w < fst v \/ v = w.

Definition above (m m' : layer) : Prop :=
  forall k v w, m !! k = Some v -> m' !! k = Some w -> hides v w.

(** Newest layers first. *)
Fixpoint layers_ordered (ls : list layer) : Prop :=
  match ls with
  | [] => True
  | m :: ls => Forall (above m) ls /\ layers_ordered ls
  end.

(** What the store has been told: the newest mutation of every key. A read agrees
    with it, except that a tombstone nothing is left to hide may be gone. *)
Definition agrees (V H : layer) : Prop :=
  forall k, V !! k = H !! k \/ (V !! k = None /\ exists s, H !! k = Some (s, None)).

Lemma agrees_value V H k : agrees V H -> value_of (V !! k) = value_of (H !! k).
Proof. intros Ha. destruct (Ha k) as [->|[-> [s ->]]]; done. Qed.

Lemma agrees_refl V : agrees V V.
Proof. intros k. by left. Qed.

Lemma agrees_trans V W H : agrees V W -> agrees W H -> agrees V H.
Proof.
  intros H1 H2 k. destruct (H1 k) as [E1|[E1 [s Es]]], (H2 k) as [E2|[E2 [s' Es']]].
  - left. congruence.
  - right. split; [congruence|eauto].
  - right. split; [done|]. exists s. congruence.
  - congruence.
Qed.

Lemma view_cons m ls k : view (m :: ls) !! k = match m !! k with Some v => Some v | None => view ls !! k end.
Proof. unfold view. cbn. rewrite lookup_union. destruct (m !! k), ((⋃ ls) !! k); done. Qed.

Lemma view_app ls ls' k : view (ls ++ ls') !! k = match view ls !! k with Some v => Some v | None => view ls' !! k end.
Proof.
  induction ls as [|m ls IH]; cbn [app].
  - unfold view at 2. cbn. by rewrite lookup_empty.
  - rewrite !view_cons, IH. by destruct (m !! k).
Qed.

Lemma view_Some ls k v : view ls !! k = Some v -> exists m, m ∈ ls /\ m !! k = Some v.
Proof.
  induction ls as [|m ls IH]; [unfold view; cbn; by rewrite lookup_empty|]. rewrite view_cons.
  destruct (m !! k) as [w|] eqn:E.
  - intros [= ->]. exists m. split; [left|done].
  - intros (m' & Hm & Hk)%IH. exists m'. split; [by right|done].
Qed.

Lemma view_None ls k : view ls !! k = None <-> forall m, m ∈ ls -> m !! k = None.
Proof.
  induction ls as [|m ls IH].
  - split; [by intros _ m ?%elem_of_nil|]. intros _. apply lookup_empty.
  - rewrite view_cons. split.
    + intros H m' [->|Hm']%elem_of_cons; destruct (m !! k) eqn:E; try done; try congruence. by apply IH.
    + intros H. rewrite (H m ltac:(left)). apply IH. intros m' Hm'. apply H. by right.
Qed.

Lemma layers_ordered_app ls ls' :
  layers_ordered (ls ++ ls') <->
  layers_ordered ls /\ layers_ordered ls' /\ (forall m m', m ∈ ls -> m' ∈ ls' -> above m m').
Proof.
  induction ls as [|m ls IH]; cbn.
  - split; [|by intros (_&?&_)]. intros H. split_and!; [done..|]. by intros ? ? ?%elem_of_nil.
  - rewrite IH, Forall_app, !Forall_forall. split.
    + intros ((H1 & H2) & H3 & H4 & H5). split_and!; try done.
      intros a b [->|Ha]%elem_of_cons Hb; [by apply H2|by apply H5].
    + intros ((H1 & H3) & H4 & H5). split_and!; try done.
      * intros x Hx. apply H5; [left|done].
      * intros a b Ha. apply H5. by right.
Qed.

(** In ordered layers a read finds the newest version there is. *)
Lemma view_newest ls k v :
  layers_ordered ls -> view ls !! k = Some v -> forall m w, m ∈ ls -> m !! k = Some w -> hides v w.
Proof.
  induction ls as [|m ls IH]; intros Ho Hv m' w Hm Hw; [by apply elem_of_nil in Hm|].
  destruct Ho as [Hf Ho]. rewrite view_cons in Hv. apply elem_of_cons in Hm as [->|Hm].
  - rewrite Hw in Hv. injection Hv as <-. by right.
  - destruct (m !! k) as [u|] eqn:E; [|by eapply IH].
    injection Hv as ->. rewrite Forall_forall in Hf. by eapply Hf.
Qed.

(** ** Writing into the top layer *)

(** Writers reach the table in any order; all their numbers are beyond [bound],
    which nothing below the top layer is. *)
Definition below (bound : Z) (ls : list layer) : Prop :=
  forall m k v, m ∈ ls -> m !! k = Some v -> fst v <= bound.

(** What has been told and is not in the top layer is within the bound too. *)
Definition settled_below (bound : Z) (A H : layer) : Prop :=
  forall k v, H !! k = Some v -> A !! k = Some v \/ fst v <= bound.

Lemma spec_insert_top A ls H bound key seq value :
  agrees (view (A :: ls)) H -> layers_ordered (A :: ls) -> below bound ls -> settled_below bound A H ->
  bound < seq ->
  let A' := spec_insert A key seq value in let H' := spec_insert H key seq value in
  agrees (view (A' :: ls)) H' /\ layers_ordered (A' :: ls) /\ settled_below bound A' H'.
Proof.
  intros Ha [Hf Ho] Hb Hs Hseq A' H'.
  assert (spec_newest A key seq = true -> spec_newest H key seq = true) as Hnew.
  { unfold spec_newest. destruct (H !! key) as [[s v]|] eqn:E; [|done]. intros HA.
    destruct (Hs key _ E) as [EA|Hle]; [by rewrite EA in HA|]. cbn in Hle. apply Z.ltb_lt. lia. }
  assert (spec_newest A key seq = false -> A !! key = H !! key) as Hold.
  { unfold spec_newest. destruct (A !! key) as [[s v]|] eqn:E; [|done]. intros _.
    destruct (Ha key) as [Ek|[Ek _]]; rewrite view_cons, E in Ek; done. }
  assert (spec_newest A key seq = false -> spec_newest H key seq = false) as Hold'.
  { intros Hn. rewrite <- Hn. unfold spec_newest. by rewrite (Hold Hn). }
  split_and!.
  - intros k. unfold A', H'. rewrite view_cons, !spec_insert_lookup. destruct (decide (k = key)) as [->|].
    + destruct (spec_newest A key seq) eqn:En; [rewrite Hnew by done; by left|].
      rewrite Hold' by done. specialize (Ha key). by rewrite view_cons in Ha.
    + specialize (Ha k). by rewrite view_cons in Ha.
  - split; [|done]. rewrite Forall_forall in *. intros m Hm k v w Hv Hw.
    unfold A' in Hv. rewrite spec_insert_lookup in Hv. destruct (decide (k = key)) as [->|]; [|by eapply Hf].
    destruct (spec_newest A key seq); [|by eapply Hf]. injection Hv as <-. left. cbn.
    specialize (Hb m key w Hm Hw). lia.
  - intros k v. unfold A', H'. rewrite !spec_insert_lookup. destruct (decide (k = key)) as [->|]; [|apply Hs].
    destruct (spec_newest A key seq) eqn:En.
    + rewrite Hnew by done. intros E. by left.
    + rewrite Hold' by done. apply Hs.
Qed.

(** ** Replacing layers in the middle *)

(** [Z] is replaced by [Z']: what they show is the same, except that a tombstone
    over nothing may go. *)
Definition refines_over (Y : list layer) (Z Z' : list layer) : Prop :=
  forall k, view Z' !! k = view Z !! k \/
    (view Z' !! k = None /\ (exists s, view Z !! k = Some (s, None)) /\ view Y !! k = None).

Lemma replace_agrees X Z Z' Y : refines_over Y Z Z' -> agrees (view (X ++ Z' ++ Y)) (view (X ++ Z ++ Y)).
Proof.
  intros Hr k. rewrite !view_app. destruct (view X !! k); [by left|].
  destruct (Hr k) as [->|(-> & [s ->] & ->)]; [by left|]. right. eauto.
Qed.

(** Every version in the new layers was in the old ones. *)
Definition drawn_from (Z Z' : list layer) : Prop :=
  forall m k v, m ∈ Z' -> m !! k = Some v -> exists m0, m0 ∈ Z /\ m0 !! k = Some v.

Lemma replace_ordered X Z Z' Y :
  layers_ordered (X ++ Z ++ Y) -> layers_ordered Z' -> drawn_from Z Z' -> layers_ordered (X ++ Z' ++ Y).
Proof.
  rewrite !layers_ordered_app. intros (HX & (HZ & HY & HZY) & HXZY) HZ' Hd. split_and!; try done.
  - intros m m' Hm Hm' k v w Hv Hw. destruct (Hd m k v Hm Hv) as (m0 & Hm0 & Hv0). by eapply HZY.
  - intros m m' Hm [Hm'|Hm']%elem_of_app k v w Hv Hw.
    + destruct (Hd m' k w Hm' Hw) as (m0 & Hm0 & Hw0). eapply (HXZY m m0); try done. apply elem_of_app. by left.
    + eapply (HXZY m m'); try done. apply elem_of_app. by right.
Qed.

Lemma replace_below bound X Z Z' Y :
  below bound (X ++ Z ++ Y) -> drawn_from Z Z' -> below bound (X ++ Z' ++ Y).
Proof.
  intros Hb Hd m k v. rewrite !elem_of_app. intros [Hm|[Hm|Hm]] Hv.
  - eapply Hb; [|done]. rewrite elem_of_app. by left.
  - destruct (Hd m k v Hm Hv) as (m0 & Hm0 & Hv0). eapply Hb; [|exact Hv0]. rewrite !elem_of_app. auto.
  - eapply Hb; [|done]. rewrite !elem_of_app. auto.
Qed.

(** ** Merging layers into one *)

Lemma view_one m k : view [m] !! k = m !! k.
Proof. rewrite view_cons. by destruct (m !! k). Qed.

(** The inputs of a merge, [I] from the level above and [o] from the level below,
    become [w]; [q] is what the level below keeps, none of whose keys the inputs
    have; [R] is what the level above keeps. *)
Section Merging.
Context (Y R I : list layer) (q o w : layer).
Context (Hw : refines_over Y (I ++ [o]) [w]).
Context (Hq : forall k v, q !! k = Some v -> view (I ++ [o]) !! k = None).

Lemma merge_refines : refines_over Y (R ++ I ++ [q ∪ o]) (R ++ [q ∪ w]).
Proof.
  intros k. rewrite !view_app, !view_one, !lookup_union. destruct (view R !! k); [by left|].
  specialize (Hw k). rewrite !view_app, !view_one in Hw.
  destruct (q !! k) as [v|] eqn:Eq.
  - specialize (Hq k v Eq). rewrite view_app, view_one in Hq. destruct (view I !! k); [done|].
    assert (w !! k = None) as Hwk by (destruct Hw as [->|[-> _]]; done). left. by rewrite Hwk, Hq.
  - assert (forall x : option version, union None x = x) as Hl by by intros [].
    rewrite !Hl. destruct (view I !! k); exact Hw.
Qed.

Lemma merge_drawn : drawn_from (R ++ I ++ [q ∪ o]) (R ++ [q ∪ w]).
Proof.
  intros m k v [Hm| ->%list_elem_of_singleton]%elem_of_app Hv.
  { exists m. rewrite !elem_of_app. auto. }
  apply lookup_union_Some_raw in Hv as [Hv|[Hn Hv]].
  { exists (q ∪ o). rewrite !elem_of_app, list_elem_of_singleton. split; [by auto|]. rewrite lookup_union, Hv. by destruct (o !! k). }
  destruct (Hw k) as [E|[E _]]; rewrite view_one in E; [|congruence].
  rewrite Hv in E. symmetry in E. apply view_Some in E as (m & [Hm| ->%list_elem_of_singleton]%elem_of_app & Hk).
  - exists m. rewrite !elem_of_app. auto.
  - exists (q ∪ o). rewrite !elem_of_app, list_elem_of_singleton. split; [by auto|]. by rewrite lookup_union, Hn, Hk.
Qed.

Lemma merge_ordered : layers_ordered (R ++ I ++ [q ∪ o]) -> layers_ordered (R ++ [q ∪ w]).
Proof.
  intros Ho. rewrite !layers_ordered_app in Ho. destruct Ho as (HR & _ & Hab). apply layers_ordered_app.
  split_and!; [done|cbn; by split|]. intros m m' Hm Hm' k v x Hv Hx.
  destruct (merge_drawn m' k x) as (m0 & [Hm0|Hm0]%elem_of_app & Hx0); [apply elem_of_app; by right|done| |].
  - apply list_elem_of_singleton in Hm' as ->. apply lookup_union_Some_raw in Hx as Hx'.
    destruct Hx' as [Hx'|[Hn Hx']].
    + eapply (Hab m (q ∪ o)); [done|apply elem_of_app; right; left|done|].
      rewrite lookup_union, Hx'. by destruct (o !! k).
    + destruct (Hw k) as [E|[E _]]; rewrite view_one in E; [|congruence]. rewrite Hx' in E. symmetry in E.
      apply view_Some in E as (m1 & [Hm1| ->%list_elem_of_singleton]%elem_of_app & Hk).
      * eapply (Hab m m1); try done. apply elem_of_app. by left.
      * eapply (Hab m (q ∪ o)); [done|apply elem_of_app; right; left|done|]. by rewrite lookup_union, Hn, Hk.
  - by eapply (Hab m m0).
Qed.
End Merging.

(** A layer of two parts with no key in common is those parts, in either order. *)
Lemma split_layer Y r f rest :
  (forall k v, r !! k = Some v -> f !! k = None) ->
  refines_over Y ((r ∪ f) :: rest) (r :: f :: rest) /\ drawn_from ((r ∪ f) :: rest) (r :: f :: rest) /\
  (layers_ordered ((r ∪ f) :: rest) -> layers_ordered (r :: f :: rest)).
Proof.
  intros Hd.
  assert (forall k v, r !! k = Some v -> (r ∪ f) !! k = Some v) as Hr.
  { intros k v E. rewrite lookup_union, E. by destruct (f !! k). }
  assert (forall k v, f !! k = Some v -> (r ∪ f) !! k = Some v) as Hf.
  { intros k v E. rewrite lookup_union, E. destruct (r !! k) eqn:Er; [|done]. apply Hd in Er. congruence. }
  split_and!.
  - intros k. left. rewrite !view_cons, lookup_union. destruct (r !! k), (f !! k); done.
  - intros m k v [->|[->|Hm]%elem_of_cons]%elem_of_cons Hv.
    + exists (r ∪ f). split; [left|auto].
    + exists (r ∪ f). split; [left|auto].
    + exists m. split; [by right|done].
  - intros [Ha Ho]. rewrite Forall_forall in Ha. cbn. rewrite Forall_cons, !Forall_forall. split_and!; try done.
    + intros k v w Hv Hw. apply Hd in Hv. congruence.
    + intros m Hm k v w Hv Hw. eapply (Ha m Hm); [by apply Hr|done].
    + intros m Hm k v w Hv Hw. eapply (Ha m Hm); [by apply Hf|done].
Qed.
