(* ===== verification/Store.v ===== *)
(** * What a store holds, and what a read finds

    The invariant of the engine's state in memory: its tables and files hold
    entries, the files of a deeper level are in key order and apart, and the layers
    they make are ordered newest first. Against it: [Engine::get] is the view of the
    layers, binary search included. *)

From stdpp Require Import sorting.
From S2P Require Import Prelude Memtable SsTable Disk Manifest Naming Compaction Layers Engine.

(** ** Binary search *)

(** [f] goes from [Lt] through [Eq] to [Gt] along the list. *)
Definition ascending {A} (f : A -> comparison) (l : list A) : Prop :=
  forall i j x y, (i < j)%nat -> l !! i = Some x -> l !! j = Some y ->
    (f x = Gt -> f y = Gt) /\ (f x = Eq -> f y <> Lt) /\ (f y = Lt -> f x = Lt).

Lemma half_spec size : (1 < size)%nat -> (0 < Nat.div2 size < size)%nat /\ (Nat.div2 size <= size - Nat.div2 size)%nat.
Proof.
  intros H. rewrite Nat.div2_div. pose proof (Nat.div_mod_eq size 2). pose proof (Nat.mod_upper_bound size 2 ltac:(lia)). lia.
Qed.

Lemma search_loop_spec {A} (f : A -> comparison) l : ascending f l ->
  forall fuel base size, (size <= fuel)%nat -> (base + size <= length l)%nat -> (0 < size)%nat ->
  (exists i x, (base <= i < base + size)%nat /\ l !! i = Some x /\ f x = Eq) ->
  exists x, l !! search_loop fuel f l base size = Some x /\ f x = Eq.
Proof.
  intros Hasc. induction fuel as [|fuel IH]; intros base size Hfuel Hlen Hpos (i & x & Hi & Hx & Hf); [lia|].
  cbn [search_loop]. destruct (Nat.leb_spec size 1).
  { exists x. replace base with i by lia. done. }
  pose proof (half_spec size ltac:(lia)) as [Hhalf Hle]. set (half := Nat.div2 size) in *.
  destruct (lookup_lt_is_Some_2 l (base + half) ltac:(lia)) as [y Hy]. rewrite Hy. cbn.
  destruct (f y) eqn:Ey.
  - apply IH; [lia..|]. exists (base + half)%nat, y. split; [lia|done].
  - apply IH; [lia..|]. exists i, x. split; [|done].
    destruct (decide (base + half < i)%nat) as [|Hn]; [lia|exfalso].
    destruct (decide (i = base + half)%nat) as [->|]; [congruence|].
    destruct (Hasc i (base + half)%nat x y ltac:(lia) Hx Hy) as (_ & He & _). by apply He.
  - apply IH; [lia..|]. exists i, x. split; [|done].
    destruct (decide (i < base + half)%nat) as [|Hn]; [lia|exfalso].
    destruct (decide (i = base + half)%nat) as [->|]; [congruence|].
    destruct (Hasc (base + half)%nat i y x ltac:(lia) Hy Hx) as (Hg & _ & _). specialize (Hg Ey). congruence.
Qed.

(** The search finds an equal element exactly when there is one. *)
Lemma binary_search_spec {A} (f : A -> comparison) l : ascending f l ->
  match binary_search_by f l with
  | Some i => exists x, l !! i = Some x /\ f x = Eq
  | None => forall x, x ∈ l -> f x <> Eq
  end.
Proof.
  intros Hasc. destruct l as [|a l']; [by intros x ?%elem_of_nil|]. set (l := a :: l') in *.
  unfold binary_search_by. fold l. change (match l with [] => None | _ :: _ => ?x end) with x.
  destruct (f <$> l !! search_loop (length l) f l 0 (length l)) as [c|] eqn:E.
  - apply fmap_Some in E as (x & Hx & Hc).
    assert ((forall y, y ∈ l -> f y <> Eq) \/ c = Eq) as [Hno|He].
    { destruct (decide (Exists (fun y => f y = Eq) l)) as [He|Hn].
      - right. apply Exists_exists in He as (y & [i Hi]%list_elem_of_lookup & Hy).
        pose proof (lookup_lt_Some _ _ _ Hi). destruct (search_loop_spec f l Hasc (length l) 0 (length l)) as (z & Hz & Hfz);
          [lia|lia|cbn; lia|exists i, y; split; [lia|done]|]. congruence.
      - left. intros y Hy He. apply Hn, Exists_exists. by exists y. }
    + destruct c; [|done|done]. exists x. split; [done|]. exfalso. apply (Hno x); [|done]. by apply list_elem_of_lookup_2 in Hx.
    + subst c. rewrite He. by exists x.
  - intros y [i Hi]%list_elem_of_lookup He. pose proof (lookup_lt_Some _ _ _ Hi).
    destruct (search_loop_spec f l Hasc (length l) 0 (length l)) as (z & Hz & Hfz);
      [lia|lia|cbn; lia|exists i, y; split; [lia|done]|]. by rewrite Hz in E.
Qed.

(** ** Tables and levels *)

(** What a file holds: what a scan of it hands out when none of its calls fails. *)
Definition file_entries (t : Table) : list entry :=
  match fst (scan_collect (S (length (st_file (tb_table t)))) (sst_scan (tb_table t)) calm_world) with
  | Ok (Some es) => es
  | _ => []
  end.

Definition lo (t : Table) : bytes := fm_min_key (tb_meta t).
Definition hi (t : Table) : bytes := fm_max_key (tb_meta t).

(** A table open on a file of its entries, with their range in its metadata. *)
Record table_ok (t : Table) : Prop := {
  tk_holds : sst_holds (tb_table t) (file_entries t);
  tk_some : file_entries t <> [];
  tk_lo : lo t = first_key (file_entries t);
  tk_hi : hi t = last_key (file_entries t);
}.

Definition table_map (t : Table) : layer := list_to_map (file_entries t).
Definition level_map (level : list Table) : layer := list_to_map (concat (file_entries <$> level)).

(** The tables of a deeper level: in key order, their ranges apart. *)
Definition before (t u : Table) : Prop := key_lt (hi t) (lo u).
Definition level_sorted (level : list Table) : Prop := StronglySorted before level.

Lemma sst_holds_length t es : sst_holds t es -> (length es <= length (st_file t))%nat.
Proof.
  intros (groups & <- & _ & _ & _ & _ & ->). cbn. unfold table_bytes.
  pose proof (blocks_bytes_length groups) as H. rewrite !length_app. unfold zlen in H. lia.
Qed.

Lemma file_entries_holds t es : sst_holds (tb_table t) es -> file_entries t = es.
Proof.
  intros H. unfold file_entries. pose proof (sst_holds_length _ _ H).
  by destruct (reads_calm _ _ _ (sst_scan_holds _ es (S (length (st_file (tb_table t)))) H ltac:(lia)) calm_world_calm) as (w & -> & _).
Qed.

Lemma table_ok_intro number level t es :
  sst_holds t es -> es <> [] -> table_ok (mkTable (meta_of number level t) t).
Proof.
  intros H Hne. pose proof (file_entries_holds (mkTable (meta_of number level t) t) es H) as E.
  pose proof (sst_holds_range _ _ H) as [H1 H2]. split; unfold lo, hi; cbn; rewrite ?E; done.
Qed.

Lemma table_ok_sorted t : table_ok t -> entries_sorted (file_entries t).
Proof. intros [H _ _ _]. by eapply sst_holds_sorted. Qed.

Lemma table_range t k v : table_ok t -> (k, v) ∈ file_entries t -> key_le (lo t) k /\ key_le k (hi t).
Proof.
  intros Ht Hv. pose proof (table_ok_sorted t Ht) as Hs. rewrite (tk_lo t Ht), (tk_hi t Ht).
  pose proof (first_key_le _ _ Hs Hv). by pose proof (last_key_ge _ _ Hs Hv).
Qed.

Lemma table_lo_hi t : table_ok t -> key_le (lo t) (hi t).
Proof.
  intros Ht. pose proof (tk_some t Ht) as Hne. destruct (file_entries t) as [|[k v] es] eqn:E; [done|].
  destruct (table_range t k v Ht) as [H1 H2]; [rewrite E; left|]. key_order.
Qed.

Lemma to_map_lookup es k : entries_sorted es -> (list_to_map es : layer) !! k = find_entry es k.
Proof.
  intros Hs. apply option_eq. intros v.
  rewrite <- elem_of_list_to_map by by apply entries_sorted_NoDup. by apply find_entry_sorted.
Qed.

Lemma table_map_elem t k v : table_ok t -> table_map t !! k = Some v <-> (k, v) ∈ file_entries t.
Proof. intros Ht. unfold table_map. rewrite to_map_lookup by by apply table_ok_sorted. by rewrite <- find_entry_sorted by by apply table_ok_sorted. Qed.

Lemma elem_of_level level k v :
  (k, v) ∈ concat (file_entries <$> level) <-> exists t, t ∈ level /\ (k, v) ∈ file_entries t.
Proof.
  rewrite list_elem_of_In, in_concat. split.
  - intros (es & Hes & Hv). apply list_elem_of_In in Hes, Hv. apply list_elem_of_fmap in Hes as (t & -> & Ht). by exists t.
  - intros (t & Ht & Hv). exists (file_entries t). rewrite <- !list_elem_of_In. split; [|done]. by apply list_elem_of_fmap_2.
Qed.

(** A level in order holds its entries in order. *)
Lemma level_entries_sorted level :
  level_sorted level -> Forall table_ok level -> entries_sorted (concat (file_entries <$> level)).
Proof.
  induction 1 as [|t level Hs IH Hlt]; intros HF; cbn; [constructor|]. inversion_clear HF as [|? ? Ht HF'].
  apply entries_sorted_app. split_and!; [by apply table_ok_sorted|by apply IH|].
  intros [k v] [k' v'] He (u & Hu & Hf)%elem_of_level. rewrite Forall_forall in Hlt, HF'.
  destruct (table_range t k v Ht He), (table_range u k' v' (HF' u Hu) Hf). specialize (Hlt u Hu).
  unfold entry_lt, before in *. cbn. key_order.
Qed.

Lemma level_map_elem level k v : level_sorted level -> Forall table_ok level ->
  level_map level !! k = Some v <-> exists t, t ∈ level /\ (k, v) ∈ file_entries t.
Proof.
  intros Hs HF. pose proof (level_entries_sorted _ Hs HF) as He. unfold level_map.
  rewrite to_map_lookup, <- find_entry_sorted by done. apply elem_of_level.
Qed.

(** ** Searching *)

Lemma answer_of_answer o : answer (answer_of o) = match o with Some v => Some (snd v) | None => None end.
Proof. by destruct o as [[s [v|]]|]. Qed.

Lemma table_lookup t key : table_ok t -> sst_lookup (tb_table t) key = Ok (answer_of (table_map t !! key)).
Proof.
  intros Ht. rewrite (sst_lookup_holds _ _ key (tk_holds t Ht)). unfold table_map.
  by rewrite to_map_lookup by by apply table_ok_sorted.
Qed.

Section Searching.
Context {T : Type} `{!Memtable T}.
Implicit Types (e : Engine T) (s : Engine T * World).

(** The counters of block reads apart, the same store. *)
Definition counted e e' : Prop := exists reads, e' = with_block_reads e reads.

#[export] Instance counted_preorder : PreOrder counted.
Proof. split; [intros []; by eexists|]. intros e1 e2 e3 [r2 ->] [r3 ->]. by exists r3. Qed.

(** What [m] does to a store in [s]: it only reads, and comes to [r], unless one of its
    calls fails. *)
Definition answers {A} (m : stm (Engine T * World) A) (r : result A) s : Prop :=
  counted (fst s) (fst (snd (m s))) /\
  ((fst (m s) = r /\ read_through (snd s) (snd (snd (m s))) None) \/
   exists err, fst (m s) = Err err /\ read_through (snd s) (snd (snd (m s))) (Some err)).

Lemma answers_ret {A} (a : A) s : answers (mret a) (Ok a) s.
Proof. split; [done|]. left. split; [done|apply read_through_refl]. Qed.

Lemma answers_bind {A B} (m : stm (Engine T * World) A) (f : A -> stm (Engine T * World) B) a r s :
  answers m (Ok a) s -> (forall s', counted (fst s) (fst s') -> answers (f a) r s') -> answers (a ← m; f a) r s.
Proof.
  unfold answers, mbind, stm_bind. destruct (m s) as [r1 s1]. cbn [fst snd]. intros [Hc [[-> Hr]|(err & -> & Hr)]] Hf.
  - destruct (Hf s1 Hc) as [Hc2 H2]. split; [by etrans|]. destruct H2 as [[E Hr2]|(err & E & Hr2)].
    + left. split; [done|]. by eapply read_through_trans.
    + right. exists err. split; [done|]. by eapply read_through_trans.
  - cbn [fst snd]. split; [done|]. right. by exists err.
Qed.

Lemma table_get_answers t key s : answers (table_get t key) (sst_lookup (tb_table t) key) s.
Proof.
  destruct s as [e w]. unfold answers, table_get. destruct (sst_get_reads (tb_table t) key (block_reads_of e (fm_number (tb_meta t))) w) as (w' & E & H).
  destruct (sst_get _ _ _) as [r [n w1]]. cbn [fst snd] in *. injection E as -> ->. split; [by eexists|done].
Qed.

(** A run of tables answers as the view of their maps. *)
Lemma search_tables_spec tables key :
  Forall table_ok tables -> forall s, answers (search_tables tables key)
    (Ok (match view (table_map <$> tables) !! key with Some v => Some (snd v) | None => None end)) s.
Proof.
  induction 1 as [|t tables Ht _ IH]; intros s; cbn [search_tables fmap list_fmap].
  - unfold view. cbn. rewrite lookup_empty. apply answers_ret.
  - eapply answers_bind; [rewrite <- (table_lookup t key Ht); apply table_get_answers|]. intros s' _.
    rewrite answer_of_answer, view_cons. destruct (table_map t !! key); [apply answers_ret|apply IH].
Qed.
End Searching.

(** Two tables of a level, in their places. *)
Lemma level_apart level i j t u :
  level_sorted level -> (i < j)%nat -> level !! i = Some t -> level !! j = Some u -> before t u.
Proof.
  intros Hs Hij Hi Hj. pose proof (StronglySorted_app_1_elem_of before (take (S i) level) (drop (S i) level) t u) as Hap.
  rewrite take_drop in Hap. apply Hap; [done|..].
  - apply list_elem_of_lookup. exists i. rewrite lookup_take_lt by lia. done.
  - apply list_elem_of_lookup. exists (j - S i)%nat. rewrite lookup_drop. replace (S i + (j - S i))%nat with j by lia. done.
Qed.

Lemma level_ascending level key :
  Forall table_ok level -> level_sorted level -> ascending (cover_cmp key) level.
Proof.
  intros HF Hs i j x y Hij Hx Hy. rewrite Forall_forall in HF.
  pose proof (table_lo_hi x (HF x ltac:(by eapply list_elem_of_lookup_2))).
  pose proof (table_lo_hi y (HF y ltac:(by eapply list_elem_of_lookup_2))).
  pose proof (level_apart _ _ _ _ _ Hs Hij Hx Hy) as Hlt. unfold cover_cmp. fold (lo x) (hi x) (lo y) (hi y).
  unfold before in Hlt.
  destruct (key_ltb_spec (hi x) key), (key_ltb_spec key (lo x)),
    (key_ltb_spec (hi y) key), (key_ltb_spec key (lo y));
    split_and!; intros; try done; exfalso; rewrite ?key_not_lt in *; key_order.
Qed.

(** A table compares equal to a key exactly when its range has it. *)
Lemma cover_cmp_Eq t key : cover_cmp key t = Eq <-> key_le (lo t) key /\ key_le key (hi t).
Proof.
  unfold cover_cmp. fold (lo t) (hi t).
  destruct (key_ltb_spec (hi t) key), (key_ltb_spec key (lo t)); rewrite ?key_not_lt in *;
    (split; [intros ?|intros []]); try done; key_order.
Qed.

(** Only one table of a level has a key in its range. *)
Lemma level_unique level t u key : level_sorted level -> t ∈ level -> u ∈ level ->
  key_le (lo t) key -> key_le key (hi t) -> key_le (lo u) key -> key_le key (hi u) -> t = u.
Proof.
  intros Hs [i Hi]%list_elem_of_lookup [j Hj]%list_elem_of_lookup ????.
  destruct (Nat.lt_trichotomy i j) as [Hij|[->|Hij]]; [|congruence|];
    [pose proof (level_apart _ _ _ _ _ Hs Hij Hi Hj) as Hb|pose proof (level_apart _ _ _ _ _ Hs Hij Hj Hi) as Hb];
    unfold before in Hb; exfalso; key_order.
Qed.

(** The one table [covering] picks answers for its whole level. *)
Lemma covering_spec level key :
  Forall table_ok level -> level_sorted level ->
  match covering level key with
  | Some t => table_ok t /\ table_map t !! key = level_map level !! key
  | None => level_map level !! key = None
  end.
Proof.
  intros HF Hs. pose proof (fun k v => level_map_elem level k v Hs HF) as Hel. rewrite Forall_forall in HF.
  pose proof (binary_search_spec (cover_cmp key) level (level_ascending _ key ltac:(by apply Forall_forall) Hs)) as Hb.
  unfold covering. destruct (binary_search_by (cover_cmp key) level) as [i|]; cbn [mbind option_bind].
  - destruct Hb as (t & Ht & Heq). rewrite Ht. apply list_elem_of_lookup_2 in Ht. pose proof (HF t Ht) as Hok.
    split; [done|]. apply cover_cmp_Eq in Heq as [Hlo Hhi].
    apply option_eq. intros v. rewrite Hel, (table_map_elem t) by done. split.
    + intros Hv. by exists t.
    + intros (u & Hu & Hv). destruct (table_range u key v (HF u Hu) Hv) as [Hlo' Hhi'].
      by rewrite (level_unique level t u key Hs Ht Hu Hlo Hhi Hlo' Hhi').
  - destruct (level_map level !! key) as [v|] eqn:E; [exfalso|done].
    apply Hel in E as (t & Ht & Hv). apply (Hb t Ht), cover_cmp_Eq. by eapply table_range; [apply HF|].
Qed.

(** The deeper levels, through the one table each of them offers. *)
Lemma search_levels_spec {T} `{!Memtable T} levels key :
  Forall (Forall table_ok) levels -> Forall level_sorted levels -> forall s : Engine T * World,
  answers (search_tables (omap (fun level => covering level key) levels) key)
    (Ok (match view (level_map <$> levels) !! key with Some v => Some (snd v) | None => None end)) s.
Proof.
  induction 1 as [|level levels Hl _ IH]; intros Hs s; cbn [omap list_omap fmap list_fmap].
  - unfold view. cbn. rewrite lookup_empty. apply answers_ret.
  - inversion_clear Hs as [|? ? Hs1 Hs2]. pose proof (covering_spec level key Hl Hs1) as Hc. rewrite view_cons.
    destruct (covering level key) as [t|].
    + destruct Hc as [Ht E]. cbn [search_tables]. eapply answers_bind; [rewrite <- (table_lookup t key Ht); apply table_get_answers|].
      intros s' _. rewrite answer_of_answer, E. destruct (level_map level !! key); [apply answers_ret|by apply IH].
    + rewrite Hc. by apply IH.
Qed.

(** ** The whole state *)

(** The layers the files make: each table of level 0 on its own, newest first, then
    each deeper level as one. *)
Definition file_layers (levels : list (list Table)) : list layer :=
  match levels with
  | [] => []
  | l0 :: deeper => (table_map <$> l0) ++ (level_map <$> deeper)
  end.

Record levels_ok (levels : list (list Table)) : Prop := {
  lk_some : levels <> [];
  lk_tables : Forall (Forall table_ok) levels;
  lk_sorted : Forall level_sorted (tail levels);
}.

Section State.
Context {T : Type} `{MemtableLaws T}.

(** The state holds [A] in its active table and [Fs] in the frozen ones. *)
Record state_holds (st : State T) (A : layer) (Fs : list layer) : Prop := {
  sh_active : represents (st_active st) A;
  sh_frozen : Forall2 (fun f m => represents (fz_memtable f) m /\ m <> ∅) (st_frozen st) Fs;
  sh_levels : levels_ok (st_levels st);
}.

Definition layers_of (st : State T) (A : layer) (Fs : list layer) : list layer :=
  A :: Fs ++ file_layers (st_levels st).

Lemma search_frozen_spec frozen Fs key :
  Forall2 (fun (f : Frozen T) m => represents (fz_memtable f) m /\ m <> ∅) frozen Fs ->
  search_frozen frozen key = mret (match view Fs !! key with Some v => Some (snd v) | None => None end).
Proof.
  induction 1 as [|f m frozen Fs [Hf _] _ IH]; cbn [search_frozen].
  - unfold view. cbn. by rewrite lookup_empty.
  - rewrite (law_get _ _ key Hf), expect_bind, answer_of_answer, view_cons. destruct (m !! key); [done|exact IH].
Qed.

(** A read is the view of the layers: memory first, then level 0 newest first, then
    one table per deeper level. On files that are as written it fails only when one
    of its calls does. *)
Lemma engine_get_spec e w A Fs key :
  state_holds (en_state e) A Fs -> answers (engine_get key) (Ok (value_of (view (layers_of (en_state e) A Fs) !! key))) (e, w).
Proof.
  intros [Ha Hf [Hne Ht Hs]]. unfold engine_get. set (r := Ok _). eapply (answers_bind _ _ (en_state e)); [|].
  { split; [done|]. left. split; [done|apply read_through_refl]. }
  intros s' _. subst r. unfold layers_of. rewrite (law_get _ _ key Ha), expect_bind, answer_of_answer, view_cons.
  destruct (A !! key) as [v|]; [apply answers_ret|]. rewrite (search_frozen_spec _ _ key Hf), stm_ret_bind, view_app.
  destruct (view Fs !! key) as [v|]; [apply answers_ret|]. unfold file_layers.
  destruct (st_levels (en_state e)) as [|l0 deeper]; [done|]. inversion_clear Ht as [|? ? Ht0 Htd].
  change (default [] (head (l0 :: deeper))) with l0. change (tail (l0 :: deeper)) with deeper in *. rewrite view_app.
  eapply answers_bind; [by apply search_tables_spec|]. intros s1 _.
  destruct (view (table_map <$> l0) !! key) as [v|]; [apply answers_ret|].
  eapply answers_bind; [by apply search_levels_spec|]. intros s2 _.
  destruct (view (level_map <$> deeper) !! key); apply answers_ret.
Qed.
End State.
