(* ===== verification/Shape.v ===== *)
(** * The shape of the levels, and what a commit does to it

    The correspondence between the manifest's snapshot and the tables open in
    memory, and what publishing a flush or a compaction does to the layers a read
    goes through. Everything here is about the levels alone; [EngineSpec] runs the
    operations that get there. *)

From stdpp Require Import sorting.
From S2P Require Import Prelude Memtable SsTable Disk Manifest Naming Compaction Layers Engine Store.

Definition number_of (t : Table) : Z := fm_number (tb_meta t).

(** What the snapshot says the store holds is what it holds, each table at the
    level its metadata gives; no number is used twice or yet to be handed out. *)
Record shape_ok (sn : Snapshot) (next : Z) (levels : list (list Table)) : Prop := {
  so_levels : levels_ok levels;
  so_files : Permutation (sn_files sn) (tb_meta <$> concat levels);
  so_place : forall n level t, levels !! n = Some level -> t ∈ level -> fm_level (tb_meta t) = Z.of_nat n;
  so_numbers : NoDup (number_of <$> concat levels);
  so_next : forall t, t ∈ concat levels -> 0 <= number_of t < next;
}.

(** ** Sorting a level *)

Lemma insert_by_perm {A} (le : A -> A -> bool) x l : Permutation (insert_by le x l) (x :: l).
Proof. induction l as [|y l IH]; cbn; [done|]. destruct (le x y); [done|]. rewrite IH. constructor. Qed.

Lemma sort_by_perm {A} (le : A -> A -> bool) l : Permutation (sort_by le l) l.
Proof. unfold sort_by. induction l as [|x l IH]; cbn; [done|]. by rewrite insert_by_perm, IH. Qed.

(** Tables whose ranges are apart, in whatever order. *)
Definition apart (t u : Table) : Prop := before t u \/ before u t.

Lemma insert_by_sorted t level :
  Forall table_ok (t :: level) -> level_sorted level -> Forall (apart t) level ->
  level_sorted (insert_by min_key_le t level).
Proof.
  intros Hok Hs. induction Hs as [|u level Hs IH Hlt]; intros Ha; cbn; [repeat constructor|].
  inversion_clear Ha as [|? ? Hu Ha']. inversion_clear Hok as [|? ? Ht Hok']. inversion_clear Hok' as [|? ? Hou Hok''].
  pose proof (table_lo_hi t Ht). pose proof (table_lo_hi u Hou). unfold apart, before in *.
  unfold min_key_le. fold (lo t) (lo u). destruct (key_leb_spec (lo t) (lo u)) as [Hle|Hle%key_not_le].
  - assert (before t u) as Htu by (unfold before; destruct Hu; [done|key_order]).
    constructor; [by constructor|]. constructor; [done|]. eapply Forall_impl; [exact Hlt|].
    intros x Hx. unfold before in *. key_order.
  - constructor; [apply IH; [by constructor|done]|].
    assert (before u t) as Htu by (unfold before; destruct Hu; [key_order|done]).
    apply Forall_forall. intros x. rewrite (elem_of_Permutation_proper x _ _ (insert_by_perm min_key_le t level)).
    intros [->|Hx]%elem_of_cons; [done|]. by rewrite Forall_forall in Hlt; apply Hlt.
Qed.

(** Tables apart from each other sort into a level. *)
Lemma sort_level level :
  Forall table_ok level -> ForallOrdPairs apart level -> level_sorted (sort_by min_key_le level).
Proof.
  intros Hok Hp. induction Hp as [|t level Ht _ IH]; [constructor|]. inversion_clear Hok as [|? ? H1 H2].
  cbn. apply insert_by_sorted; [| |].
  - constructor; [done|]. rewrite Forall_forall in *. intros u Hu. apply H2. by rewrite (sort_by_perm min_key_le level) in Hu.
  - by apply IH.
  - rewrite Forall_forall in *. intros u Hu. apply Ht. by rewrite (sort_by_perm min_key_le level) in Hu.
Qed.

Lemma level_sorted_pairs level : level_sorted level -> ForallOrdPairs apart level.
Proof. induction 1 as [|t level Hs IH Hlt]; constructor; [|done]. eapply Forall_impl; [exact Hlt|]. by left. Qed.

Lemma pairs_app {A} (R : A -> A -> Prop) l k :
  ForallOrdPairs R l -> ForallOrdPairs R k -> (forall x y, x ∈ l -> y ∈ k -> R x y) -> ForallOrdPairs R (l ++ k).
Proof.
  induction 1 as [|x l Hx _ IH]; intros Hk H; cbn; [done|]. constructor.
  - apply Forall_app. split; [done|]. apply Forall_forall. intros y Hy. apply H; [left|done].
  - apply IH; [done|]. intros y z Hy. apply H. by right.
Qed.

(** ** Levels in parts *)

Lemma level_sorted_filter (P : Table -> Prop) `{!forall t, Decision (P t)} level :
  level_sorted level -> level_sorted (filter P level).
Proof.
  induction 1 as [|t level Hs IH Hlt]; [constructor|]. rewrite filter_cons. destruct (decide (P t)); [|done].
  constructor; [done|]. rewrite Forall_forall in *. intros u [_ Hu]%list_elem_of_filter. auto.
Qed.

Lemma level_NoDup level : Forall table_ok level -> level_sorted level -> NoDup level.
Proof.
  intros Hok Hs. induction Hs as [|t level Hs IH Hlt]; [constructor|]. inversion_clear Hok as [|? ? H1 H2].
  constructor; [|by apply IH]. intros Ht. rewrite Forall_forall in Hlt. specialize (Hlt t Ht).
  pose proof (table_lo_hi t H1). unfold before in Hlt. key_order.
Qed.

(** A level that is two others, shuffled together, maps what either of them does. *)
Lemma level_map_perm level X Y :
  Forall table_ok level -> level_sorted level -> level_sorted X -> level_sorted Y -> Permutation level (X ++ Y) ->
  level_map level = level_map X ∪ level_map Y /\ forall k v, level_map X !! k = Some v -> level_map Y !! k = None.
Proof.
  intros Hok Hs HX HY Hp.
  assert (Forall table_ok (X ++ Y)) as [HokX HokY]%Forall_app by by rewrite <- Hp.
  pose proof (fun k v => level_map_elem level k v Hs Hok) as El.
  pose proof (fun k v => level_map_elem X k v HX HokX) as EX.
  pose proof (fun k v => level_map_elem Y k v HY HokY) as EY.
  assert (forall k v, level_map X !! k = Some v -> level_map Y !! k = None) as Hdis.
  { intros k v (t & Ht & Hv)%EX. destruct (level_map Y !! k) as [w|] eqn:E; [exfalso|done].
    apply EY in E as (u & Hu & Hw). rewrite Forall_forall in HokX, HokY.
    destruct (table_range t k v (HokX t Ht) Hv), (table_range u k w (HokY u Hu) Hw).
    assert (t ∈ level) as Hlt by (rewrite Hp, elem_of_app; by left).
    assert (u ∈ level) as Hlu by (rewrite Hp, elem_of_app; by right).
    assert (t = u) as -> by (by apply (level_unique level t u k)).
    pose proof (level_NoDup _ Hok Hs) as Hnd. rewrite Hp in Hnd. apply NoDup_app in Hnd as (_ & Hn & _). by apply (Hn u). }
  split; [|done]. apply map_eq. intros k. apply option_eq. intros v.
  rewrite lookup_union_Some_raw, El, EX, EY. split.
  - intros (t & Ht & Hv). rewrite Hp in Ht. apply elem_of_app in Ht as [Ht|Ht]; [left; by exists t|].
    right. split; [|by exists t]. destruct (level_map X !! k) as [w|] eqn:E; [|done].
    apply Hdis in E. assert (level_map Y !! k = Some v) by (apply EY; by exists t). congruence.
  - intros [(t & Ht & Hv)|[_ (t & Ht & Hv)]]; exists t; (split; [rewrite Hp, elem_of_app; by auto|done]).
Qed.

Lemma filter_perm {A} (P : A -> Prop) `{!forall x, Decision (P x)} l :
  Permutation l (filter P l ++ filter (fun x => ~ P x) l).
Proof.
  induction l as [|x l IH]; [done|]. rewrite !filter_cons. destruct (decide (P x)), (decide (~ P x)); try done.
  - cbn. by rewrite <- IH.
  - rewrite <- Permutation_middle. by rewrite <- IH.
Qed.

Lemma filter_fmap {A B} (f : A -> B) (P : B -> Prop) (Q : A -> Prop)
  `{!forall x, Decision (P x), !forall x, Decision (Q x)} (l : list A) :
  (forall x, P (f x) <-> Q x) -> filter P (f <$> l) = f <$> filter Q l.
Proof.
  intros HPQ. induction l as [|x l IH]; [done|]. rewrite fmap_cons, !filter_cons. pose proof (HPQ x).
  destruct (decide (P (f x))), (decide (Q x)); try tauto; by rewrite IH.
Qed.

(** ** Empty layers *)

Lemma view_empties ls n k : view (ls ++ replicate n ∅) !! k = view ls !! k.
Proof.
  rewrite view_app. destruct (view ls !! k); [done|]. apply view_None. intros m Hm.
  apply elem_of_replicate in Hm as [-> _]. apply lookup_empty.
Qed.

Lemma above_empty m : above m ∅ /\ above ∅ m.
Proof. split; intros k v w; rewrite lookup_empty; done. Qed.

Lemma ordered_empties ls n : layers_ordered (ls ++ replicate n ∅) <-> layers_ordered ls.
Proof.
  rewrite layers_ordered_app. split; [by intros (?&?&?)|]. intros Ho. split_and!; [done| |].
  - induction n as [|n IH]; cbn; [done|]. split; [|done]. apply Forall_forall. intros m _. apply above_empty.
  - intros m m' _ [-> _]%elem_of_replicate. apply above_empty.
Qed.

(** What a replacement of layers in the middle keeps, of layers in order. *)
Definition kept (ls ls' : list layer) : Prop :=
  layers_ordered ls -> layers_ordered ls' /\ agrees (view ls') (view ls) /\ drawn_from ls ls'.

Lemma kept_refl ls : kept ls ls.
Proof. intros Ho. split_and!; [done|apply agrees_refl|]. intros m k v. by exists m. Qed.

Lemma kept_trans l1 l2 l3 : kept l1 l2 -> kept l2 l3 -> kept l1 l3.
Proof.
  intros A B Ho. destruct (A Ho) as (A1 & A2 & A3). destruct (B A1) as (B1 & B2 & B3). split_and!; [done|by eapply agrees_trans|].
  intros m k v Hm Hv. destruct (B3 m k v Hm Hv) as (m1 & Hm1 & Hv1). by eapply A3.
Qed.

Lemma kept_replace X Z Z' Y :
  (layers_ordered Z -> refines_over Y Z Z' /\ drawn_from Z Z' /\ layers_ordered Z') ->
  kept (X ++ Z ++ Y) (X ++ Z' ++ Y).
Proof.
  intros H Ho.
  assert (layers_ordered Z) as Hz by (rewrite !layers_ordered_app in Ho; by destruct Ho as (_ & (? & _) & _)).
  destruct (H Hz) as (Hr & Hd & Hz'). split_and!; [by apply (replace_ordered X Z Z' Y)|by apply replace_agrees|].
  intros m k v. rewrite !elem_of_app. intros [Hm|[Hm|Hm]] Hv.
  - exists m. rewrite !elem_of_app. auto.
  - destruct (Hd m k v Hm Hv) as (m0 & Hm0 & Hv0). exists m0. rewrite !elem_of_app. auto.
  - exists m. rewrite !elem_of_app. auto.
Qed.

Lemma kept_below bound ls ls' : kept ls ls' -> layers_ordered ls -> below bound ls -> below bound ls'.
Proof. intros Hk Ho Hb m k v Hm Hv. destruct (Hk Ho) as (_ & _ & Hd). destruct (Hd m k v Hm Hv) as (m0 & Hm0 & Hv0). by eapply Hb. Qed.

(** ** Publishing a compaction *)

Lemma elem_of_concat {A} (ls : list (list A)) x : x ∈ concat ls <-> exists l, l ∈ ls /\ x ∈ l.
Proof.
  rewrite list_elem_of_In, in_concat. split; intros (l & Hl & Hx); exists l; split; by apply list_elem_of_In.
Qed.

(** The tables a plan consumes, of those there are, and the entries that go into
    the merge. *)
Definition consumes (p : Plan) (t : Table) : Prop := number_of t ∈ input_numbers p.
#[export] Instance consumes_dec p t : Decision (consumes p t).
Proof. unfold consumes. apply _. Defined.

Definition merge_input (tables : list Table) (p : Plan) (k : bytes) (v : version) : Prop :=
  exists t, t ∈ tables /\ consumes p t /\ (k, v) ∈ file_entries t.

(** What the merge hands over. *)
Record outputs_ok (sn : Snapshot) (next : Z) (tables : list Table) (p : Plan) (outs : list Table) (next' : Z) : Prop := {
  oo_tables : Forall table_ok outs;
  oo_sorted : level_sorted outs;
  oo_place : forall t, t ∈ outs -> fm_level (tb_meta t) = output_level p;
  oo_numbers : NoDup (number_of <$> outs);
  oo_next : forall t, t ∈ outs -> next <= number_of t < next';
  oo_newest : forall t k v, t ∈ outs -> (k, v) ∈ file_entries t ->
    merge_input tables p k v /\ forall w, merge_input tables p k w -> fst w <= fst v;
  oo_all : forall k v, merge_input tables p k v ->
    (exists t w, t ∈ outs /\ (k, w) ∈ file_entries t) \/
    ((exists s, merge_input tables p k (s, None) /\ forall w, merge_input tables p k w -> fst w <= s) /\
     (forall t w, t ∈ outs -> (k, w) ∉ file_entries t) /\ tombstone_needed sn (output_level p) k = false);
}.
Section Compacting.
Context (sn : Snapshot) (next : Z) (P1 : list (list Table)) (La Lb : list Table) (P2 : list (list Table)).
Let levels := P1 ++ La :: Lb :: P2.
Context (Hshape : shape_ok sn next levels).
Context (p : Plan) (Hlevel : pl_level p = Z.of_nat (length P1)) (Hinputs : pl_inputs p = inputs_for sn (pl_level p)).

#[local] Abbreviation taken := (consumes p).
#[local] Abbreviation input_entry := (merge_input (concat levels) p).

Lemma levels_tables level t : level ∈ levels -> t ∈ level -> table_ok t.
Proof.
  intros Hl Ht. pose proof (lk_tables _ (so_levels _ _ _ Hshape)) as HF. rewrite Forall_forall in HF.
  specialize (HF level Hl). rewrite Forall_forall in HF. auto.
Qed.

Lemma table_unique t u : t ∈ concat levels -> u ∈ concat levels -> number_of t = number_of u -> t = u.
Proof.
  intros [i Hi]%list_elem_of_lookup [j Hj]%list_elem_of_lookup E.
  assert (i = j) as <-; [|congruence]. eapply (NoDup_lookup _ i j); [apply (so_numbers _ _ _ Hshape)|..];
    rewrite list_lookup_fmap; [by rewrite Hi|by rewrite Hj, E].
Qed.

Lemma files_meta f : f ∈ sn_files sn <-> exists t, t ∈ concat levels /\ tb_meta t = f.
Proof.
  rewrite (so_files _ _ _ Hshape), list_elem_of_fmap. split; intros (t & H1 & H2); exists t; by split.
Qed.

Lemma file_at_level f n level : levels !! n = Some level ->
  f ∈ at_level sn (Z.of_nat n) <-> exists t, t ∈ level /\ tb_meta t = f.
Proof.
  intros Hn. unfold at_level. rewrite list_elem_of_filter, files_meta. split.
  - intros [Hl (t & (lv & [m Hm]%list_elem_of_lookup & Ht)%elem_of_concat & <-)].
    pose proof (so_place _ _ _ Hshape _ _ _ Hm Ht). assert (m = n) as -> by lia. exists t. split; [|done]. congruence.
  - intros (t & Ht & <-). split; [by eapply (so_place _ _ _ Hshape)|]. exists t. split; [|done].
    apply elem_of_concat. exists level. split; [by eapply list_elem_of_lookup_2|done].
Qed.

Lemma inputs_are_files f : f ∈ pl_inputs p ->
  f ∈ sn_files sn /\ (fm_level f = Z.of_nat (length P1) \/ fm_level f = Z.of_nat (S (length P1))).
Proof.
  rewrite Hinputs, Hlevel. intros [Hf%drained_at_level|[Hf _]]%inputs_for_spec; apply list_elem_of_filter in Hf as [? ?]; (split; [done|]); lia.
Qed.

Lemma taken_input t : t ∈ concat levels -> taken t <-> tb_meta t ∈ pl_inputs p.
Proof.
  intros Ht. unfold consumes, input_numbers. split.
  - intros (f & E & Hf)%list_elem_of_fmap. destruct (inputs_are_files f Hf) as [Hfile _].
    apply files_meta in Hfile as (u & Hu & <-). by rewrite (table_unique t u Ht Hu E).
  - intros Hf. apply list_elem_of_fmap. by exists (tb_meta t).
Qed.

Lemma lookup_La : levels !! length P1 = Some La.
Proof. unfold levels. by rewrite lookup_app_r, Nat.sub_diag by lia. Qed.

Lemma lookup_Lb : levels !! S (length P1) = Some Lb.
Proof. unfold levels. rewrite lookup_app_r by lia. by replace (S (length P1) - length P1)%nat with 1%nat by lia. Qed.

Lemma in_levels level t n : levels !! n = Some level -> t ∈ level -> t ∈ concat levels.
Proof. intros Hn Ht. apply elem_of_concat. exists level. split; [by eapply list_elem_of_lookup_2|done]. Qed.

(** Only the two levels lose tables. *)
Lemma others_stay level t n : levels !! n = Some level -> n <> length P1 -> n <> S (length P1) -> t ∈ level -> ~ taken t.
Proof.
  intros Hn H1 H2 Ht Htk. pose proof (so_place _ _ _ Hshape _ _ _ Hn Ht) as Hp.
  apply taken_input, inputs_are_files in Htk as [_ Hl]; [lia|by eapply in_levels].
Qed.

Definition remains (level : list Table) : list Table := filter (fun t => ~ taken t) level.
Definition consumed (level : list Table) : list Table := filter taken level.

Lemma remove_remains level : remove_tables (input_numbers p) level = remains level.
Proof. done. Qed.

Lemma remains_id level : (forall t, t ∈ level -> ~ taken t) -> remains level = level.
Proof.
  intros H. unfold remains. induction level as [|t level IH]; [done|]. rewrite filter_cons.
  rewrite decide_True by (apply H; left). f_equal. apply IH. intros u Hu. apply H. by right.
Qed.

Lemma removed_levels : levels_remove (input_numbers p) levels = P1 ++ remains La :: remains Lb :: P2.
Proof.
  unfold levels_remove, levels. rewrite fmap_app, !fmap_cons.
  assert (forall off Q, (forall n level, Q !! n = Some level -> levels !! (off + n)%nat = Some level) ->
    (forall n, (n < length Q)%nat -> (off + n)%nat <> length P1 /\ (off + n)%nat <> S (length P1)) ->
    remove_tables (input_numbers p) <$> Q = Q) as Hid.
  { intros off Q HQ Hn. apply list_eq. intros n. rewrite list_lookup_fmap. destruct (Q !! n) as [level|] eqn:E; [|done].
    cbn. f_equal. apply remains_id. intros t Ht. destruct (Hn n) as [H1 H2]; [by eapply lookup_lt_Some|].
    by eapply others_stay; [apply HQ|..]. }
  rewrite (Hid 0%nat P1), (Hid (S (S (length P1))) P2); [done|..].
  - intros n level Hl. unfold levels. rewrite lookup_app_r by lia.
    by replace (S (S (length P1)) + n - length P1)%nat with (S (S n)) by lia.
  - intros n _. lia.
  - intros n level Hl. unfold levels. by apply lookup_app_l_Some.
  - intros n Hn. lia.
Qed.

Lemma input_in_two k v : input_entry k v <->
  (exists t, t ∈ consumed La /\ (k, v) ∈ file_entries t) \/ (exists t, t ∈ consumed Lb /\ (k, v) ∈ file_entries t).
Proof.
  unfold merge_input, consumed. split.
  - intros (t & (level & [n Hn]%list_elem_of_lookup & Ht)%elem_of_concat & Htk & Hv).
    destruct (decide (n = length P1)) as [->|H1].
    { left. exists t. rewrite lookup_La in Hn. injection Hn as <-. by rewrite list_elem_of_filter. }
    destruct (decide (n = S (length P1))) as [->|H2].
    { right. exists t. rewrite lookup_Lb in Hn. injection Hn as <-. by rewrite list_elem_of_filter. }
    exfalso. by eapply others_stay.
  - intros [(t & [Htk Ht]%list_elem_of_filter & Hv)|(t & [Htk Ht]%list_elem_of_filter & Hv)]; exists t;
      (split; [|done]); [by eapply in_levels; [apply lookup_La|]|by eapply in_levels; [apply lookup_Lb|]].
Qed.

Lemma input_range k v : input_entry k v ->
  key_le (fst (range_of (pl_inputs p))) k /\ key_le k (snd (range_of (pl_inputs p))).
Proof.
  intros (t & Ht & Htk & Hv). apply taken_input in Htk; [|done].
  assert (pl_inputs p <> []) as Hne by (intros E; rewrite E in Htk; by apply elem_of_nil in Htk).
  apply elem_of_concat in Ht as (level & Hl & Ht). pose proof (table_range t k v (levels_tables _ _ Hl Ht) Hv) as [H1 H2].
  pose proof (range_of_spec _ Hne) as Hr. destruct (range_of (pl_inputs p)) as [min max].
  destruct Hr as [Hr _]. destruct (Hr _ Htk) as [H3 H4]. unfold lo, hi in *. cbn [fst snd]. split; key_order.
Qed.

Lemma Lb_ok : Forall table_ok Lb /\ level_sorted Lb.
Proof.
  pose proof (so_levels _ _ _ Hshape) as [_ Ht Hs]. split.
  - apply Forall_forall. intros t. apply levels_tables. by eapply list_elem_of_lookup_2, lookup_Lb.
  - rewrite Forall_forall in Hs. apply Hs. unfold levels. destruct P1; cbn; [left|].
    apply elem_of_app. right. right. left.
Qed.

(** What stays at the output level is clear of every key that goes in. *)
Lemma remains_clear t : t ∈ remains Lb ->
  key_lt (hi t) (fst (range_of (pl_inputs p))) \/ key_lt (snd (range_of (pl_inputs p))) (lo t).
Proof.
  intros [Hnt Ht]%list_elem_of_filter. destruct Lb_ok as [Hok Hs]. rewrite Hinputs. rewrite Hlevel.
  assert (Z.of_nat (length P1) + 1 = Z.of_nat (S (length P1))) as E by lia.
  apply left_behind_clear.
  - intros f (u & (level & Hl & Hu)%elem_of_concat & <-)%files_meta. apply table_lo_hi. by eapply levels_tables.
  - rewrite E. intros f g (t1 & Ht1 & <-)%(file_at_level _ _ _ lookup_Lb) (t2 & Ht2 & <-)%(file_at_level _ _ _ lookup_Lb) Hne.
    apply list_elem_of_lookup in Ht1 as [i Hi], Ht2 as [j Hj].
    destruct (Nat.lt_trichotomy i j) as [Hij|[->|Hij]]; [left|congruence|right]; by eapply level_apart.
  - rewrite E. apply (file_at_level _ _ _ lookup_Lb). by exists t.
  - rewrite <- Hlevel, <- Hinputs. intros Hf. apply Hnt, taken_input; [|done]. by eapply in_levels; [apply lookup_Lb|].
Qed.

Context (outs : list Table) (next' : Z).
Context (Hle : 0 <= next <= next') (Houts : outputs_ok sn next (concat levels) p outs next').

Lemma outs_apart t u : t ∈ remains Lb -> u ∈ outs -> apart t u.
Proof.
  intros Ht Hu. pose proof Houts as [Hok _ _ _ _ Hnew _]. rewrite Forall_forall in Hok. specialize (Hok u Hu).
  assert (forall k v, (k, v) ∈ file_entries u -> key_le (fst (range_of (pl_inputs p))) k /\ key_le k (snd (range_of (pl_inputs p)))) as Hin.
  { intros k v Hv. destruct (Hnew u k v Hu Hv) as [Hi _]. by eapply input_range. }
  assert (exists k v, (k, v) ∈ file_entries u) as (k & v & Hv).
  { pose proof (tk_some u Hok) as Hne. destruct (file_entries u) as [|[k v] es]; [done|]. exists k, v. left. }
  assert (key_le (fst (range_of (pl_inputs p))) (lo u) /\ key_le (hi u) (snd (range_of (pl_inputs p)))) as [H1 H2].
  { rewrite (tk_lo u Hok), (tk_hi u Hok). pose proof (tk_some u Hok) as Hne. split.
    - destruct (file_entries u) as [|[k' v'] es]; [done|]. apply (Hin k' v'). left.
    - destruct (exists_last Hne) as (es & [k' v'] & E). rewrite E in *. rewrite last_key_snoc. apply (Hin k' v').
      apply elem_of_app. right. left. }
  pose proof (table_lo_hi u Hok).
  destruct (remains_clear t Ht); [left|right]; unfold before; key_order.
Qed.

(** The new output level. *)
Definition new_level : list Table := sort_by min_key_le (remains Lb ++ outs).

Lemma remains_ok : Forall table_ok (remains Lb) /\ level_sorted (remains Lb).
Proof.
  destruct Lb_ok as [H1 H2]. split; [|by apply level_sorted_filter].
  rewrite Forall_forall in *. intros t [_ Ht]%list_elem_of_filter. auto.
Qed.

Lemma new_level_ok : Forall table_ok new_level /\ level_sorted new_level.
Proof.
  destruct remains_ok as [H1 H2]. pose proof Houts as [Hok Hso _ _ _ _ _].
  assert (Forall table_ok (remains Lb ++ outs)) as HF by (apply Forall_app; by split).
  split; [by rewrite (sort_by_perm min_key_le (remains Lb ++ outs))|]. apply sort_level; [done|].
  apply pairs_app; [by apply level_sorted_pairs|by apply level_sorted_pairs|]. apply outs_apart.
Qed.

Lemma new_level_map : level_map new_level = level_map (remains Lb) ∪ level_map outs.
Proof.
  destruct new_level_ok, remains_ok. pose proof Houts as [_ Hso _ _ _ _ _].
  by apply level_map_perm; [..|apply sort_by_perm].
Qed.

Lemma Lb_map : level_map Lb = level_map (remains Lb) ∪ level_map (consumed Lb).
Proof.
  destruct Lb_ok as [H1 H2]. apply level_map_perm; [done|done|by apply level_sorted_filter..|].
  rewrite Permutation_app_comm. apply filter_perm.
Qed.

Lemma consumed_map_elem level k v : level_sorted level -> Forall table_ok level ->
  level_map (consumed level) !! k = Some v <-> exists t, t ∈ consumed level /\ (k, v) ∈ file_entries t.
Proof.
  intros Hs Hok. apply level_map_elem; [by apply level_sorted_filter|].
  rewrite Forall_forall in *. intros t [_ Ht]%list_elem_of_filter. auto.
Qed.

(** What is below the output level has no key a dropped tombstone was for. *)
Lemma nothing_below k : tombstone_needed sn (output_level p) k = false -> view (level_map <$> P2) !! k = None.
Proof.
  intros Hn. apply view_None. intros m (level & -> & [n Hl]%list_elem_of_lookup)%list_elem_of_fmap.
  assert (levels !! (S (S (length P1)) + n)%nat = Some level) as Hlv.
  { unfold levels. rewrite lookup_app_r by lia. by replace (S (S (length P1)) + n - length P1)%nat with (S (S n)) by lia. }
  assert (Forall table_ok level /\ level_sorted level) as [Hok Hs].
  { pose proof (so_levels _ _ _ Hshape) as [_ Ht Hs]. rewrite Forall_forall in Ht, Hs. split.
    - apply Ht. by eapply list_elem_of_lookup_2.
    - apply Hs. destruct levels as [|l0 ls]; [done|]. cbn in *. by eapply list_elem_of_lookup_2. }
  destruct (level_map level !! k) as [v|] eqn:E; [exfalso|done].
  apply level_map_elem in E as (t & Ht & Hv); [|done..]. rewrite Forall_forall in Hok.
  destruct (table_range t k v (Hok t Ht) Hv) as [H1 H2].
  assert (tombstone_needed sn (output_level p) k = true); [|congruence].
  unfold tombstone_needed. apply existsb_exists. exists (tb_meta t). split.
  - apply list_elem_of_In, files_meta. exists t. split; [by eapply in_levels|done].
  - apply andb_true_iff. split.
    + apply Z.ltb_lt. rewrite (so_place _ _ _ Hshape _ _ _ Hlv Ht). unfold output_level. lia.
    + unfold covers. fold (lo t) (hi t). by destruct (key_leb_spec (lo t) k), (key_leb_spec k (hi t)).
Qed.

(** Layers that hold just what goes in. *)
Definition input_layers (ls : list layer) : Prop :=
  forall (k : bytes) (v : version), input_entry k v <-> exists m, m ∈ ls /\ m !! k = Some v.

(** The merge's outputs stand for its inputs, whatever layers those make. *)
Lemma outputs_refine (I : list layer) :
  input_layers (I ++ [level_map (consumed Lb)]) ->
  layers_ordered (I ++ [level_map (consumed Lb)]) ->
  refines_over (level_map <$> P2) (I ++ [level_map (consumed Lb)]) [level_map outs].
Proof.
  intros HI Ho k. set (Z := I ++ [level_map (consumed Lb)]) in *. rewrite view_one.
  pose proof Houts as [Hok Hso _ _ _ Hnew Hall]. pose proof (fun k v => level_map_elem outs k v Hso Hok) as Ew.
  assert (forall v w, view Z !! k = Some v -> input_entry k w -> (forall x, input_entry k x -> fst x <= fst w) -> v = w) as Hmax.
  { intros v w Hv Hw Hm. pose proof (view_Some _ _ _ Hv) as (m & Hmz & Hmv).
    pose proof (Hm v (proj2 (HI k v) (ex_intro _ m (conj Hmz Hmv)))) as Hge.
    apply HI in Hw as (m' & Hm' & Hw'). destruct (view_newest Z k v Ho Hv m' w Hm' Hw') as [Hlt|]; [lia|done]. }
  destruct (view Z !! k) as [v|] eqn:Ev.
  2:{ left. destruct (level_map outs !! k) as [w|] eqn:E; [exfalso|done]. apply Ew in E as (t & Ht & Hw).
      destruct (Hnew t k w Ht Hw) as [Hi _]. apply HI in Hi as (m & Hm & Hv).
      rewrite view_None in Ev. rewrite (Ev m Hm) in Hv. done. }
  pose proof (view_Some _ _ _ Ev) as (m & Hmz & Hmv).
  destruct (Hall k v) as [(t & w & Ht & Hw)|((s & Hs & Hsm) & Hno & Htn)]; [apply HI; by exists m|left|right].
  - destruct (Hnew t k w Ht Hw) as [Hi Hm]. rewrite (Hmax v w eq_refl Hi Hm). apply Ew. by exists t.
  - rewrite (Hmax v (s, None) eq_refl Hs Hsm). split_and!; [|by exists s|by apply nothing_below].
    destruct (level_map outs !! k) as [w|] eqn:E; [exfalso|done]. apply Ew in E as (t & Ht & Hw). by eapply Hno.
Qed.

Lemma remains_no_input (k : bytes) (v : version) (I : list layer) :
  input_layers (I ++ [level_map (consumed Lb)]) ->
  level_map (remains Lb) !! k = Some v -> view (I ++ [level_map (consumed Lb)]) !! k = None.
Proof.
  intros HI Hv. destruct remains_ok as [Hok Hs]. apply level_map_elem in Hv as (t & Ht & Hv); [|done..].
  apply view_None. intros m Hm. destruct (m !! k) as [w|] eqn:E; [exfalso|done].
  destruct (input_range k w) as [H1 H2]; [apply HI; by exists m|]. rewrite Forall_forall in Hok.
  destruct (table_range t k v (Hok t Ht) Hv). destruct (remains_clear t Ht); key_order.
Qed.

(** Merging the levels' layers: [R] stays above, [I] goes in. *)
Lemma merged_kept (X R I : list layer) :
  input_layers (I ++ [level_map (consumed Lb)]) ->
  kept (X ++ (R ++ I ++ [level_map Lb]) ++ (level_map <$> P2))
       (X ++ (R ++ [level_map new_level]) ++ (level_map <$> P2)).
Proof.
  intros HI. rewrite Lb_map, new_level_map.
  assert (forall k v, level_map (remains Lb) !! k = Some v -> view (I ++ [level_map (consumed Lb)]) !! k = None) as Hq'
    by (intros; by eapply remains_no_input).
  assert (layers_ordered (R ++ I ++ [level_map (remains Lb) ∪ level_map (consumed Lb)]) ->
    refines_over (level_map <$> P2) (I ++ [level_map (consumed Lb)]) [level_map outs]) as Hw.
  { intros Ho. apply outputs_refine; [done|]. rewrite !layers_ordered_app in Ho. destruct Ho as (_ & (HoI & _ & Hab) & _).
    apply layers_ordered_app. split_and!; [done|cbn; by split|].
    intros m m' Hm ->%list_elem_of_singleton k v w Hv Hw. eapply (Hab m _ Hm ltac:(left)); [done|].
    rewrite lookup_union, Hw. destruct (level_map (remains Lb) !! k) eqn:E; [|done].
    specialize (Hq' k _ E). rewrite view_None in Hq'. specialize (Hq' (level_map (consumed Lb))).
    rewrite Hq' in Hw; [done|]. apply elem_of_app. right. left. }
  apply kept_replace. intros Ho. specialize (Hw Ho). split_and!.
  - by apply merge_refines.
  - by eapply merge_drawn.
  - by eapply merge_ordered.
Qed.

(** The levels after the commit. *)
Definition next_levels : list (list Table) := P1 ++ remains La :: new_level :: P2.

Lemma elem_of_tail {A} (l : list A) n x : l !! n = Some x -> (0 < n)%nat -> x ∈ tail l.
Proof. destruct l as [|y l], n as [|n]; cbn; try done; [lia|]. intros H _. by eapply list_elem_of_lookup_2. Qed.

Lemma La_level : P1 <> [] -> Forall table_ok La /\ level_sorted La.
Proof.
  intros Hne. pose proof (so_levels _ _ _ Hshape) as [_ _ Hs]. split.
  - apply Forall_forall. intros t. apply levels_tables. by eapply list_elem_of_lookup_2, lookup_La.
  - rewrite Forall_forall in Hs. apply Hs. eapply elem_of_tail; [apply lookup_La|]. destruct (nil_or_length_pos P1); [done|lia].
Qed.

(** Draining level 0 takes all of it. *)
Lemma level0_drained : P1 = [] -> (forall t, t ∈ La -> taken t).
Proof.
  intros E t Ht. apply taken_input; [by eapply in_levels; [apply lookup_La|]|].
  pose proof (lookup_La) as HL. rewrite Hinputs, Hlevel. apply inputs_for_spec. left. rewrite E in *. cbn in *.
  unfold drained. cbn. apply (file_at_level _ 0 La HL). by exists t.
Qed.

Lemma consumed_all level : (forall t, t ∈ level -> taken t) -> consumed level = level /\ remains level = [].
Proof.
  intros H. unfold consumed, remains. induction level as [|t level IH]; [done|]. rewrite !filter_cons.
  assert (taken t) as Ht by (apply H; left). rewrite decide_True by done. rewrite decide_False by tauto.
  destruct IH as [-> ->]; [|done]. intros u Hu. apply H. by right.
Qed.

Lemma input_layers_consumed (I : list layer) :
  (forall k v, (exists t, t ∈ consumed La /\ (k, v) ∈ file_entries t) <-> exists m : layer, m ∈ I /\ m !! k = Some v) ->
  input_layers (I ++ [level_map (consumed Lb)]).
Proof.
  intros HI k v. destruct Lb_ok as [Hok Hs]. rewrite input_in_two, <- (consumed_map_elem Lb k v) by done. rewrite HI. split.
  - intros [(m & Hm & Hv)|Hv]; [exists m|exists (level_map (consumed Lb))]; (split; [|done]); apply elem_of_app; [by left|right; left].
  - intros (m & [Hm| ->%list_elem_of_singleton]%elem_of_app & Hv); [left; by exists m|by right].
Qed.

Lemma first_or_deeper : P1 = [] \/ exists l0 D, P1 = l0 :: D.
Proof. generalize P1. intros [|l0 D]; eauto. Qed.

(** A compaction keeps what a read sees. *)
Lemma compaction_kept X : kept (X ++ file_layers levels) (X ++ file_layers next_levels).
Proof.
  destruct first_or_deeper as [EP|(l0 & D & EP)]; unfold levels, next_levels; rewrite EP; cbn [app].
  - destruct (consumed_all La) as [Hc Hr]; [by apply level0_drained|]. cbn. rewrite Hr. cbn.
    pose proof (merged_kept X [] (table_map <$> La)) as Hk. cbn in Hk. rewrite <- !app_assoc in Hk. apply Hk.
    apply input_layers_consumed. intros k v. rewrite Hc. pose proof (so_levels _ _ _ Hshape) as [_ Ht _].
    assert (forall t, t ∈ La -> table_ok t) as Hok.
    { intros t Hin. eapply levels_tables; [|exact Hin]. unfold levels. rewrite EP. cbn. left. }
    split.
    + intros (t & Hin & Hv). exists (table_map t). split; [by apply list_elem_of_fmap_2|]. by apply table_map_elem; [apply Hok|].
    + intros (m & (t & -> & Hin)%list_elem_of_fmap & Hv). exists t. split; [done|]. by apply table_map_elem in Hv; [|apply Hok].
  - destruct La_level as [Hok Hs]; [by rewrite EP|].
    assert (level_map La = level_map (remains La) ∪ level_map (consumed La) /\
      forall k v, level_map (remains La) !! k = Some v -> level_map (consumed La) !! k = None) as [HLa Hdis].
    { apply level_map_perm; [done|done|by apply level_sorted_filter..|]. rewrite Permutation_app_comm. apply filter_perm. }
    cbn [file_layers app]. rewrite !fmap_app, !fmap_cons.
    set (X' := X ++ (table_map <$> l0) ++ (level_map <$> D)).
    replace (X ++ (table_map <$> l0) ++ (level_map <$> D) ++ level_map La :: level_map Lb :: (level_map <$> P2))
      with (X' ++ [level_map La; level_map Lb] ++ (level_map <$> P2)) by (unfold X'; by rewrite <- !app_assoc).
    replace (X ++ (table_map <$> l0) ++ (level_map <$> D) ++ level_map (remains La) :: level_map new_level :: (level_map <$> P2))
      with (X' ++ ([level_map (remains La)] ++ [level_map new_level]) ++ (level_map <$> P2)) by (unfold X'; by rewrite <- !app_assoc).
    eapply kept_trans; [|apply (merged_kept X' [level_map (remains La)] [level_map (consumed La)])].
    + apply kept_replace. intros Ho. rewrite HLa in *.
      destruct (split_layer (level_map <$> P2) _ _ [level_map Lb] Hdis) as (H1 & H2 & H3). split_and!; [done..|by apply H3].
    + apply input_layers_consumed. intros k v. rewrite <- (consumed_map_elem La k v) by done. split.
      * intros Hv. exists (level_map (consumed La)). split; [left|done].
      * by intros (m & ->%list_elem_of_singleton & Hv).
Qed.

Lemma remains_concat (ls : list (list Table)) : concat (remains <$> ls) = remains (concat ls).
Proof. induction ls as [|l ls IH]; [done|]. cbn. rewrite IH. unfold remains. by rewrite filter_app. Qed.

Lemma next_levels_perm : Permutation (concat next_levels) (remains (concat levels) ++ outs).
Proof.
  rewrite <- remains_concat. change (remains <$> levels) with (levels_remove (input_numbers p) levels). rewrite removed_levels.
  unfold next_levels, new_level. rewrite !concat_app. cbn [concat]. rewrite (sort_by_perm min_key_le (remains Lb ++ outs)).
  rewrite <- !app_assoc. do 3 apply Permutation_app_head. apply Permutation_app_comm.
Qed.

(** And the shape the snapshot records. *)
Lemma compaction_shape last_seq number :
  shape_ok (mkSnapshot (filter (fun file => fm_number file ∉ input_numbers p) (sn_files sn) ++ (tb_meta <$> outs)) last_seq number)
    next' next_levels.
Proof.
  pose proof Houts as [Hok Hso Hpl Hnum Hnx _ _]. pose proof Hshape as [[Hne Ht Hs] Hf Hp Hn Hx].
  assert (forall t, t ∈ concat next_levels -> t ∈ concat levels \/ t ∈ outs) as Hin.
  { intros t. rewrite next_levels_perm. intros [[_ Hin]%list_elem_of_filter|Hin]%elem_of_app; auto. }
  split.
  - destruct new_level_ok as [Hnok Hns]. split.
    + unfold next_levels. by intros [_ ?]%app_nil.
    + unfold next_levels. unfold levels in Ht. rewrite !Forall_app, !Forall_cons in *. destruct Ht as (H1 & H2 & _ & H3).
      split_and!; [done| |done|done]. rewrite Forall_forall in *. intros t [_ Hin']%list_elem_of_filter. auto.
    + unfold next_levels, levels in *. destruct first_or_deeper as [EP|(l0 & D & EP)]; rewrite EP in Hs; rewrite EP; cbn in Hs |- *.
      * rewrite Forall_cons in *. by destruct Hs.
      * rewrite !Forall_app, !Forall_cons in *. destruct Hs as (H1 & H2 & _ & H3). split_and!; [done|by apply level_sorted_filter|done|done].
  - cbn [sn_files]. rewrite next_levels_perm, fmap_app. apply Permutation_app; [|done].
    rewrite Hf. unfold remains. by rewrite (filter_fmap tb_meta _ (fun t => ~ taken t)).
  - intros n level t Hl Hin'. unfold next_levels in Hl.
    assert (forall m, levels !! m = Some level -> fm_level (tb_meta t) = Z.of_nat m) as Hsame by (intros m Hm; by eapply Hp).
    destruct (decide (n < length P1)%nat) as [Hlt|Hge].
    { rewrite lookup_app_l in Hl by lia. apply Hsame. unfold levels. by rewrite lookup_app_l by lia. }
    rewrite lookup_app_r in Hl by lia. destruct (n - length P1)%nat as [|[|m]] eqn:Em; cbn in Hl.
    + injection Hl as <-. apply list_elem_of_filter in Hin' as [_ Hin']. replace n with (length P1) by lia.
      by eapply Hp; [apply lookup_La|].
    + injection Hl as <-. unfold new_level in Hin'. rewrite (sort_by_perm min_key_le (remains Lb ++ outs)) in Hin'.
      apply elem_of_app in Hin' as [[_ Hin']%list_elem_of_filter|Hin'].
      * replace n with (S (length P1)) by lia. by eapply Hp; [apply lookup_Lb|].
      * rewrite (Hpl t Hin'). unfold output_level. lia.
    + apply Hsame. unfold levels. rewrite lookup_app_r by lia. by rewrite Em.
  - rewrite next_levels_perm, fmap_app. apply NoDup_app. split_and!; [| |done].
    + eapply sublist_NoDup; [exact Hn|]. apply fmap_sublist. unfold remains. apply sublist_filter.
    + intros n (t & -> & [_ Hin']%list_elem_of_filter)%list_elem_of_fmap (u & E & Hu)%list_elem_of_fmap.
      pose proof (Hx t Hin'). pose proof (Hnx u Hu). lia.
  - intros t [Hin'|Hin']%Hin; [pose proof (Hx t Hin')|pose proof (Hnx t Hin')]; lia.
Qed.
End Compacting.

(** ** Levels that are not there yet *)

(** Empty levels added below are no levels at all. *)
Definition padded (n : nat) (levels : list (list Table)) : list (list Table) :=
  levels ++ replicate (n - length levels) [].

Lemma concat_padded n levels : concat (padded n levels) = concat levels.
Proof.
  unfold padded. rewrite concat_app. assert (forall m, concat (replicate m ([] : list Table)) = []) as ->; [|by rewrite app_nil_r].
  induction m; cbn; done.
Qed.

Lemma padded_shape sn next n levels : shape_ok sn next levels -> shape_ok sn next (padded n levels).
Proof.
  intros [[Hne Ht Hs] Hf Hp Hn Hx]. split; rewrite ?concat_padded; try done.
  - split; unfold padded.
    + by intros [? _]%app_nil.
    + apply Forall_app. split; [done|]. apply Forall_replicate. constructor.
    + destruct levels as [|l0 levels]; [done|]. cbn. apply Forall_app. split; [done|]. apply Forall_replicate. constructor.
  - intros m level t Hl Hin. unfold padded in Hl. apply lookup_app_Some in Hl as [Hl|[_ Hl]]; [by eapply Hp|].
    apply lookup_replicate in Hl as [-> _]. by apply elem_of_nil in Hin.
Qed.

Lemma padded_layers n levels : levels <> [] ->
  file_layers (padded n levels) = file_layers levels ++ replicate (n - length levels) ∅.
Proof.
  intros Hne. unfold padded. destruct levels as [|l0 levels]; [done|]. cbn [app file_layers]. rewrite fmap_app, <- app_assoc.
  do 2 f_equal. by rewrite fmap_replicate.
Qed.

Lemma padded_kept X n levels : levels <> [] -> kept (X ++ file_layers levels) (X ++ file_layers (padded n levels)).
Proof.
  intros Hne. rewrite padded_layers, app_assoc by done. intros Ho. split_and!.
  - by apply ordered_empties.
  - intros k. rewrite view_empties. by left.
  - intros m k v [Hm|[-> _]%elem_of_replicate]%elem_of_app Hv; [by exists m|]. by rewrite lookup_empty in Hv.
Qed.

Lemma remove_padded numbers n levels : levels_remove numbers (padded n levels) = padded n (levels_remove numbers levels).
Proof.
  unfold levels_remove, padded. rewrite fmap_app, fmap_replicate, length_fmap. done.
Qed.

Lemma two_levels n (levels : list (list Table)) : (S n < length levels)%nat ->
  exists P1 La Lb P2, levels = P1 ++ La :: Lb :: P2 /\ length P1 = n.
Proof.
  intros H. destruct (lookup_lt_is_Some_2 levels n ltac:(lia)) as [La Ha]. destruct (lookup_lt_is_Some_2 levels (S n) ltac:(lia)) as [Lb Hb].
  exists (take n levels), La, Lb, (drop (S (S n)) levels). split; [|rewrite length_take; lia].
  rewrite <- (take_drop n levels) at 1. f_equal. rewrite (drop_S _ _ _ Ha). f_equal. by rewrite (drop_S _ _ _ Hb).
Qed.

(** The levels [compact_once] publishes, over levels however deep. *)
Lemma published_levels sn next levels p outs :
  shape_ok sn next levels -> 0 <= pl_level p -> pl_inputs p = inputs_for sn (pl_level p) ->
  let n := Z.to_nat (pl_level p) in
  exists P1 La Lb P2, padded (S (S n)) levels = P1 ++ La :: Lb :: P2 /\ length P1 = n /\
    levels_insert (Z.to_nat (output_level p)) outs (levels_remove (input_numbers p) levels) = next_levels P1 La Lb P2 p outs.
Proof.
  intros Hshape Hlv Hin n. assert (Z.to_nat (output_level p) = S n) as En by (unfold output_level; lia).
  pose proof (padded_shape _ _ (S (S n)) _ Hshape) as Hpad.
  destruct (two_levels n (padded (S (S n)) levels)) as (P1 & La & Lb & P2 & Ep & El).
  { unfold padded. rewrite length_app, length_replicate. lia. }
  exists P1, La, Lb, P2. split; [done|]. split; [done|]. unfold levels_insert. rewrite En.
  change (_ ++ replicate _ _) with (padded (S (S n)) (levels_remove (input_numbers p) levels)).
  rewrite <- remove_padded, Ep.
  rewrite (removed_levels sn next P1 La Lb P2); [|by rewrite <- Ep|lia|done].
  unfold next_levels, new_level. rewrite <- El. replace (S (length P1)) with (length P1 + 1)%nat by lia. by rewrite alter_app_r.
Qed.

(** What [compact_once] publishes. *)
Lemma compaction_published sn next next' levels p outs last_seq number X :
  shape_ok sn next levels -> 0 <= pl_level p -> pl_inputs p = inputs_for sn (pl_level p) ->
  0 <= next <= next' -> outputs_ok sn next (concat levels) p outs next' ->
  let levels' := levels_insert (Z.to_nat (output_level p)) outs (levels_remove (input_numbers p) levels) in
  kept (X ++ file_layers levels) (X ++ file_layers levels') /\
  shape_ok (mkSnapshot (filter (fun file => fm_number file ∉ input_numbers p) (sn_files sn) ++ (tb_meta <$> outs)) last_seq number)
    next' levels'.
Proof.
  intros Hshape Hlv Hin Hle Houts levels'. set (n := Z.to_nat (pl_level p)).
  pose proof (padded_shape _ _ (S (S n)) _ Hshape) as Hpad.
  destruct (published_levels sn next levels p outs Hshape Hlv Hin) as (P1 & La & Lb & P2 & Ep & El & El'). fold n in Ep, El.
  assert (outputs_ok sn next (concat (P1 ++ La :: Lb :: P2)) p outs next') as Houts' by by rewrite <- Ep, concat_padded.
  unfold levels'. rewrite El'. split.
  - eapply kept_trans; [apply (padded_kept X (S (S n))), (lk_some _ (so_levels _ _ _ Hshape))|]. rewrite Ep.
    eapply (compaction_kept sn next); [by rewrite <- Ep|lia|done|exact Hle|exact Houts'].
  - eapply (compaction_shape sn next); [by rewrite <- Ep|lia|done|exact Hle|exact Houts'].
Qed.

Lemma shape_later sn next next' levels : shape_ok sn next levels -> next <= next' -> shape_ok sn next' levels.
Proof. intros [H1 H2 H3 H4 H5] Hle. split; try done. intros t Ht. specialize (H5 t Ht). lia. Qed.

Lemma filter_nothing_removed (files : list FileMeta) : filter (fun file => fm_number file ∉ []) files = files.
Proof. induction files as [|f files IH]; [done|]. rewrite filter_cons, decide_True by apply not_elem_of_nil. by rewrite IH. Qed.

(** ** Publishing a flush *)

(** More tables in front of level 0, their numbers their own. *)
Lemma tables_published sn sn' next levels fresh :
  shape_ok sn next levels -> Forall table_ok fresh -> Forall (fun t => fm_level (tb_meta t) = 0) fresh ->
  NoDup (number_of <$> fresh) -> (forall t, t ∈ fresh -> 0 <= number_of t < next) ->
  (forall t u, t ∈ fresh -> u ∈ concat levels -> number_of t <> number_of u) ->
  Permutation (sn_files sn') ((tb_meta <$> fresh) ++ sn_files sn) ->
  shape_ok sn' next (alter (app fresh) 0%nat levels) /\
  file_layers (alter (app fresh) 0%nat levels) = (table_map <$> fresh) ++ file_layers levels.
Proof.
  intros [[Hne Ht Hs] Hf Hp Hn Hx] Hok Hl Hnd Hnx Hap Hperm. destruct levels as [|l0 levels]; [done|].
  change (alter (app fresh) 0%nat (l0 :: levels)) with ((fresh ++ l0) :: levels).
  split; [|cbn [file_layers]; by rewrite fmap_app, app_assoc]. split.
  - split; [done| |done]. inversion_clear Ht as [|? ? H1 H2]. constructor; [by apply Forall_app|done].
  - rewrite Hperm, Hf, <- fmap_app. cbn [concat]. by rewrite app_assoc.
  - intros [|n] level u Hlv Hu; cbn in Hlv; [|by eapply (Hp (S n))]. injection Hlv as <-.
    apply elem_of_app in Hu as [Hu|Hu]; [|by apply (Hp 0%nat l0)]. rewrite Forall_forall in Hl. by apply Hl.
  - cbn [concat]. rewrite <- app_assoc, fmap_app. apply NoDup_app. split_and!; [done| |done].
    intros x (t & -> & Htf)%list_elem_of_fmap (u & E & Hu)%list_elem_of_fmap. by apply (Hap t u).
  - intros u. cbn [concat]. rewrite <- app_assoc. intros [Hu|Hu]%elem_of_app; [by apply Hnx|by apply Hx].
Qed.

(** What [flush] publishes: one more table in front of level 0. *)
Lemma flush_published sn next next' levels t last_seq number :
  shape_ok sn next levels -> table_ok t -> fm_level (tb_meta t) = 0 -> 0 <= next -> next <= number_of t < next' ->
  shape_ok (mkSnapshot (filter (fun file => fm_number file ∉ []) (sn_files sn) ++ [tb_meta t]) last_seq number)
    next' (alter (cons t) 0%nat levels) /\
  file_layers (alter (cons t) 0%nat levels) = table_map t :: file_layers levels.
Proof.
  intros Hshape Hok Hl H0 Hnum. apply (tables_published sn _ next' levels [t]).
  - eapply shape_later; [exact Hshape|lia].
  - by constructor.
  - by constructor.
  - apply NoDup_singleton.
  - intros u ->%list_elem_of_singleton. lia.
  - intros u v ->%list_elem_of_singleton Hv. pose proof (so_next _ _ _ Hshape v Hv). lia.
  - cbn [sn_files]. rewrite filter_nothing_removed. by rewrite Permutation_app_comm.
Qed.
