(* ===== verification/EngineSpec.v ===== *)
(** * The engine keeps what it is told

    The invariant of a running store against the map of everything it has been told,
    and that every operation of [Engine] keeps it, whichever of its calls fail:
    writing, rotating, flushing, compacting. With [Store], a read is then always the
    newest value written. *)

From S2P Require Import Prelude WalRecord WalReplay Wal WalAlone Memtable SsTable Disk Manifest Naming.
From S2P Require Import Compaction Layers Engine Store Shape.

(** ** Files on the way *)

Lemma create_ok path name w i w' :
  disk_create path name w = (Ok i, w') -> names (disk w') !! name = Some i /\ contents (disk w') i = [].
Proof.
  unfold disk_create. intros [[Hr Hd]|(e & n & Hr & _)]%call_cases; [|done]. rewrite Hd. unfold create_run in *.
  destruct (names (disk w) !! name) as [j|] eqn:E; cbn [fst snd] in *; injection Hr as ->.
  - split; [done|]. by rewrite contents_cut.
  - cbn. rewrite lookup_insert_eq. split; [done|]. unfold contents. cbn. by rewrite lookup_insert_eq.
Qed.

Lemma rename_ok path from to w w' :
  disk_rename path from to w = (Ok tt, w') ->
  exists i, names (disk w) !! from = Some i /\ names (disk w') !! to = Some i /\
    forall j, contents (disk w') j = contents (disk w) j.
Proof.
  unfold disk_rename. intros [[Hr Hd]|(e & n & Hr & _)]%call_cases; [|done]. rewrite Hd. unfold rename_run in *.
  destruct (names (disk w) !! from) as [i|] eqn:E; [|done]. exists i. split_and!; [done| |done]. cbn. by rewrite lookup_insert_eq.
Qed.

Lemma read_ok path name w bs w' :
  disk_read path name w = (Ok bs, w') -> exists i, names (disk w) !! name = Some i /\ bs = contents (disk w) i.
Proof.
  unfold disk_read. intros [[Hr Hd]|(e & n & Hr & _)]%call_cases; [|done]. unfold read_run in *.
  destruct (names (disk w) !! name) as [i|] eqn:E; [|done]. exists i. split; [done|]. by injection Hr.
Qed.

Lemma sync_dir_ok dir w w' :
  sync_dir dir w = (Ok tt, w') -> names (disk w') = names (disk w) /\ forall j, contents (disk w') j = contents (disk w) j.
Proof.
  unfold sync_dir. intros [([] & w1 & H1 & H2)|(e & _ & ?)]%stm_bind_cases; [|done].
  unfold disk_open_dir, disk_sync_dir in *.
  apply call_cases in H1 as [[_ H1]|(e & n & ? & _)]; [|done]. apply call_cases in H2 as [[_ H2]|(e & n & ? & _)]; [|done].
  rewrite H2. cbn [snd names]. cbn [snd] in H1. by rewrite H1.
Qed.

Lemma writer_close_ok path file wr w w' :
  writer_close path file wr w = (Ok tt, w') ->
  exists wr', writer_finish wr = (Ok tt, wr') /\ names (disk w') = names (disk w) /\
    contents (disk w') file = contents (disk w) file ++ w_file wr'.
Proof.
  unfold writer_close. destruct (writer_finish wr) as [r wr'] eqn:E.
  intros [([] & w1 & H1 & H2)|(e & _ & ?)]%stm_bind_cases; [|done]. unfold lift in H1. injection H1 as -> <-.
  apply stm_bind_cases in H2 as [([] & w2 & H2 & H3)|(e & _ & ?)]; [|done]. exists wr'.
  unfold disk_write, disk_sync in *.
  apply call_cases in H2 as [[_ H2]|(e & n & ? & _)]; [|done]. apply call_cases in H3 as [[_ H3]|(e & n & ? & _)]; [|done].
  split_and!; [done| |].
  - rewrite H3. cbn. by rewrite H2.
  - rewrite H3, contents_sync, H2. cbn [snd]. by rewrite contents_append.
Qed.

Lemma table_open_ok path name w t w' :
  table_open path name w = (Ok t, w') ->
  exists i, names (disk w) !! name = Some i /\ sst_opened path (contents (disk w) i) = Ok t.
Proof.
  unfold table_open. intros [(bs & w1 & H1 & H2)|(e & _ & ?)]%stm_bind_cases; [|done].
  apply read_ok in H1 as (i & Hi & ->). exists i. split; [done|]. by destruct (reads_ok _ _ _ _ _ (sst_open_reads _ _) H2).
Qed.

Lemma sst_opened_bytes path bs t : sst_opened path bs = Ok t -> st_bytes t = zlen bs.
Proof.
  unfold sst_opened. intros H. destruct (zlen bs <? FOOTER_LEN); [done|].
  apply result_bind_Ok in H as (footer & _ & H). apply result_bind_Ok in H as ([[[[io il] fo] fl] n] & _ & H).
  apply result_bind_Ok in H as (index & _ & H). apply result_bind_Ok in H as ([[mn mx] blocks] & _ & H).
  apply result_bind_Ok in H as (filter & _ & H). apply result_bind_Ok in H as (bloom & _ & H). by injection H as <-.
Qed.

(** A writer that has been fed [es], closed and opened again. *)
Lemma closed_table_holds path wr groups cur wr' t :
  writer_inv wr groups cur -> writer_finish wr = (Ok tt, wr') -> sst_opened path (w_file wr') = Ok t ->
  entries_sorted (concat groups ++ cur) -> seqs_ok (concat groups ++ cur) -> st_bytes t <= u64_max ->
  sst_holds t (concat groups ++ cur).
Proof.
  intros Hinv Hfin Hopen Hs Hq Hb. rewrite (sst_opened_bytes _ _ _ Hopen) in Hb.
  destruct (writer_shape wr wr wr' groups cur [] Hinv eq_refl Hfin Hb) as (groups' & Hcat & Hok & Hfile).
  rewrite app_nil_r in Hcat. rewrite Hfile in *. rewrite (sst_opened_table path groups') in Hopen by done.
  injection Hopen as <-. exists groups'. split_and!; try done; by rewrite Hcat.
Qed.

(** ** What an operation leaves alone *)

Section Engines.
Context {T : Type} `{MemtableLaws T}.
Implicit Types (e : Engine T) (w : World).

(** At most [n] numbers handed out, and the counters; nothing else that matters. *)
Record quiet (n : Z) e e' : Prop := {
  qt_wal : en_wal e' = en_wal e;
  qt_snapshot : en_snapshot e' = en_snapshot e;
  qt_state : en_state e' = en_state e;
  qt_config : en_config e' = en_config e;
  qt_next : en_next_number e <= en_next_number e' <= en_next_number e + n;
}.

Lemma quiet_refl n e : 0 <= n -> quiet n e e.
Proof. intros. split; try done. lia. Qed.

Lemma quiet_trans n m e1 e2 e3 : quiet n e1 e2 -> quiet m e2 e3 -> quiet (n + m) e1 e3.
Proof. intros [] []. split; try congruence. lia. Qed.

Lemma quiet_more n m e e' : quiet n e e' -> n <= m -> quiet m e e'.
Proof. intros [] ?. split; try done. lia. Qed.

Lemma on_disk_eq {A} (m : stm World A) e w r s' :
  on_disk m (e, w) = (r, s') -> exists w', m w = (r, w') /\ s' = (e, w').
Proof. unfold on_disk. destruct (m w) as [r' w'] eqn:E. intros [= -> <-]. by exists w'. Qed.

Lemma fetch_number_eq e w r s' :
  fetch_number (e, w) = (r, s') -> 0 <= en_next_number e < u64_max ->
  exists e', r = Ok (en_next_number e) /\ s' = (e', w) /\ quiet 1 e e' /\ en_next_number e' = en_next_number e + 1.
Proof.
  unfold fetch_number. intros [= <- <-] Hn. eexists. split_and!; [done|done| |].
  - split; try done. cbn. rewrite wrap64_small by (split; lia). lia.
  - cbn. by rewrite wrap64_small by (split; lia).
Qed.

Lemma gete_eq {A} (f : Engine T -> A) s r s' : gete f s = (r, s') -> r = Ok (f (fst s)) /\ s' = s.
Proof. unfold gete, gets. by intros [= <- <-]. Qed.

Lemma add_bytes_eq n e w r s' :
  add_bytes_written n (e, w) = (r, s') -> exists e', r = Ok tt /\ s' = (e', w) /\ quiet 0 e e'.
Proof. unfold add_bytes_written, modify. intros [= <- <-]. eexists. split_and!; [done..|]. split; try done. cbn. lia. Qed.
(** ** The outputs of a merge *)

(** A table made of [es] at [level]; good, if its length is one a file can have. *)
Definition made (level : Z) (t : Table) (es : list entry) : Prop :=
  fm_level (tb_meta t) = level /\ es <> [] /\
  (st_bytes (tb_table t) <= u64_max -> entries_sorted es -> seqs_ok es -> table_ok t /\ file_entries t = es).

(** A file that has been created and a writer on it, holding [es]. *)
Definition being_written (w : World) (number : Z) (file : nat) (wr : Writer) (es : list entry) : Prop :=
  names (disk w) !! partial_name number = Some file /\ contents (disk w) file = [] /\ es <> [] /\
  exists groups cur, writer_inv wr groups cur /\ concat groups ++ cur = es.

Lemma seal_spec number level file wr es e w r s' :
  being_written w number file wr es -> seal number level file wr (e, w) = (r, s') ->
  quiet 0 e (fst s') /\ forall t, r = Ok t -> made level t es /\ number_of t = number.
Proof.
  intros (Hn & Hc & Hne & groups & cur & Hinv & <-) Hs. unfold seal in Hs.
  apply stm_bind_cases in Hs as [(dir & s1 & [[= ->] ->]%gete_eq & Hs)|(err & [? _]%gete_eq & _)]; [|done].
  cbn [fst] in Hs.
  apply stm_bind_cases in Hs as [([] & s1 & (w1 & H1 & ->)%on_disk_eq & Hs)|(err & (w1 & _ & ->)%on_disk_eq & ->)];
    [|split; [by apply quiet_refl|done]].
  apply stm_bind_cases in Hs as [([] & s1 & (w2 & H2 & ->)%on_disk_eq & Hs)|(err & (w2 & _ & ->)%on_disk_eq & ->)];
    [|split; [by apply quiet_refl|done]].
  apply stm_bind_cases in Hs as [(t & s1 & (w3 & H3 & ->)%on_disk_eq & Hs)|(err & (w3 & _ & ->)%on_disk_eq & ->)];
    [|split; [by apply quiet_refl|done]].
  apply stm_bind_cases in Hs as [([] & s1 & (e4 & _ & -> & Hq)%add_bytes_eq & Hs)|(err & (e4 & ? & _)%add_bytes_eq & _)]; [|done].
  injection Hs as <- <-. split; [done|]. intros u [= <-].
  apply writer_close_ok in H1 as (wr' & Hfin & Hn1 & Hc1). apply rename_ok in H2 as (i & Hi1 & Hi2 & Hc2).
  apply table_open_ok in H3 as (j & Hj & Hopen).
  assert (i = file) as -> by congruence. assert (j = file) as -> by congruence. rewrite Hc2, Hc1, Hc in Hopen. cbn [app] in Hopen.
  split; [|done]. split_and!; [done|done|]. intros Hb Hso Hq'.
  pose proof (closed_table_holds _ _ _ _ _ _ Hinv Hfin Hopen Hso Hq' Hb) as Hh.
  split; [by eapply table_ok_intro|by apply file_entries_holds].
Qed.

(** Whether the merge's loop writes an entry or drops it. *)
Definition entry_kept (sn : Snapshot) (level : Z) (en : entry) : Prop :=
  snd (snd en) <> None \/ tombstone_needed sn level (fst en) = true.

#[local] Instance entry_kept_dec sn level en : Decision (entry_kept sn level en).
Proof. unfold entry_kept. apply _. Defined.

(** Where the loop stands: [done] is in finished files, [cur] in the open one. *)
Record writing (n0 level : Z) e w (outputs : list Table) (opened : option (Z * nat * Writer))
  (ess : list (list entry)) (cur : list entry) : Prop := {
  wt_made : Forall2 (made level) outputs ess;
  wt_opened : match opened with
    | Some (number, file, wr) => being_written w number file wr cur /\
        n0 <= number < en_next_number e /\ (forall t, t ∈ outputs -> number_of t <> number)
    | None => cur = []
    end;
  wt_numbers : NoDup (number_of <$> outputs);
  wt_range : forall t, t ∈ outputs -> n0 <= number_of t < en_next_number e;
}.

Lemma write_entry_dropped sn level target en outputs opened (s : Engine T * World) :
  ~ entry_kept sn level en -> write_entry sn level target en outputs opened s = (Ok (outputs, opened), s).
Proof.
  unfold entry_kept, write_entry. destruct en as [key [seq value]]. cbn. intros Hn.
  assert (value = None) as -> by (destruct value; [exfalso; apply Hn; by left|done]).
  destruct (tombstone_needed sn level key); [exfalso; apply Hn; by right|]. done.
Qed.

(** Opening a file for the next output, if none is. *)
Definition open_for (opened : option (Z * nat * Writer)) : stm (Engine T * World) (Z * nat * Writer) :=
  match opened with
  | Some out => mret out
  | None =>
      number ← fetch_number;
      dir ← gete en_dir;
      let partial := partial_name number in
      file ← on_disk (disk_create (join dir partial) partial);
      mret (number, file, writer_create (join dir partial))
  end.

Lemma write_entry_kept sn level target key seq value outputs opened :
  entry_kept sn level (key, (seq, value)) ->
  write_entry (T:=T) sn level target (key, (seq, value)) outputs opened =
    ('(number, file, writer) ← open_for opened;
     let '(added, writer) := writer_add key seq value writer in
     _ ← lift added;
     if target <=? bytes_written writer then
       table ← seal number level file writer;
       mret (outputs ++ [table], None)
     else mret (outputs, Some (number, file, writer))).
Proof.
  unfold entry_kept, write_entry, open_for. cbn. intros Hk.
  destruct (bool_decide_reflect (value = None)) as [->|]; [|done].
  destruct (tombstone_needed sn level key); [done|]. by destruct Hk.
Qed.

Lemma open_for_spec n0 level outputs opened ess cur e w r s' :
  writing n0 level e w outputs opened ess cur -> 0 <= n0 -> n0 <= en_next_number e < u64_max ->
  open_for opened (e, w) = (r, s') ->
  quiet 1 e (fst s') /\ forall number file wr, r = Ok (number, file, wr) ->
    names (disk (snd s')) !! partial_name number = Some file /\ contents (disk (snd s')) file = [] /\
    (exists groups c, writer_inv wr groups c /\ concat groups ++ c = cur) /\
    n0 <= number < en_next_number (fst s') /\ (forall t, t ∈ outputs -> number_of t <> number).
Proof.
  intros [Hm Ho Hnd Hr] H0 Hn Hs. unfold open_for in Hs. destruct opened as [[[number file] wr]|].
  { injection Hs as <- <-. split; [by apply quiet_refl|]. intros ? ? ? [= <- <- <-]. cbn [fst snd].
    destruct Ho as ((H1 & H2 & _ & H3) & H4 & H5). split_and!; try done; lia. }
  apply stm_bind_cases in Hs as [(number & s1 & Hf & Hs)|(err & Hf & _)];
    [|apply fetch_number_eq in Hf as (e1 & ? & _); [done|lia]].
  apply fetch_number_eq in Hf as (e1 & [= ->] & -> & Hq & Hnx); [|lia].
  apply stm_bind_cases in Hs as [(dir & s1 & [[= ->] ->]%gete_eq & Hs)|(err & [? _]%gete_eq & _)]; [|done]. cbn [fst] in Hs.
  apply stm_bind_cases in Hs as [(file & s1 & (w1 & Hc & ->)%on_disk_eq & Hs)|(err & (w1 & _ & ->)%on_disk_eq & ->)]; [|by split].
  injection Hs as <- <-. split; [done|]. intros ? ? ? [= <- <- <-]. cbn [fst snd]. subst cur.
  apply create_ok in Hc as [H1 H2]. split_and!; [done|done| |lia|lia|].
  - exists [], []. split; [apply writer_inv_create|done].
  - intros t Ht. specialize (Hr t Ht). lia.
Qed.

Lemma write_entry_spec n0 sn level target en outputs opened ess cur e w r s' :
  writing n0 level e w outputs opened ess cur -> 0 <= n0 -> n0 <= en_next_number e < u64_max -> entry_kept sn level en ->
  write_entry sn level target en outputs opened (e, w) = (r, s') ->
  quiet 1 e (fst s') /\ forall outputs' opened', r = Ok (outputs', opened') ->
    exists ess' cur', writing n0 level (fst s') (snd s') outputs' opened' ess' cur' /\
      concat ess' ++ cur' = (concat ess ++ cur) ++ [en].
Proof.
  destruct en as [key [seq value]]. intros Hwr H0 Hn Hk Hs. rewrite write_entry_kept in Hs by done.
  apply stm_bind_cases in Hs as [([[number file] wr] & [e1 w1] & Ho & Hs)|(err & Ho & ->)];
    (apply (open_for_spec _ _ _ _ _ _ _ _ _ _ Hwr H0 Hn) in Ho as [Hq Ho]); [|by split].
  destruct (Ho _ _ _ eq_refl) as (Hn1 & Hc1 & (groups & c & Hinv & Hcat) & Hnum & Hfresh). clear Ho. cbn [fst snd] in *.
  destruct (writer_add key seq value wr) as [added wr'] eqn:Ea.
  apply stm_bind_cases in Hs as [([] & s1 & Hl & Hs)|(err & Hl & ->)]; [|unfold lift in Hl; injection Hl as _ <-; by split].
  unfold lift in Hl. injection Hl as -> <-.
  destruct (writer_add_inv _ _ _ _ _ _ _ Hinv Ea) as (groups' & c' & Hinv' & Hcat').
  assert (being_written w1 number file wr' (cur ++ [(key, (seq, value))])) as Hbw.
  { split_and!; [done|done|by destruct cur|]. exists groups', c'. split; [done|]. by rewrite Hcat', Hcat. }
  destruct Hwr as [Hm _ Hnd Hr]. destruct Hq as [Q1 Q2 Q3 Q4 Q5].
  destruct (target <=? bytes_written wr').
  - apply stm_bind_cases in Hs as [(t & [e2 w2] & Hse & Hs)|(err & Hse & ->)]; apply (seal_spec _ _ _ _ _ _ _ _ _ Hbw) in Hse as [Hq2 Ht].
    2:{ split; [|done]. by apply (quiet_trans 1 0 _ e1). }
    injection Hs as <- <-. cbn [fst snd] in *. destruct (Ht t eq_refl) as [Hmt Hnt]. split; [by apply (quiet_trans 1 0 _ e1)|].
    intros ? ? [= <- <-]. exists (ess ++ [cur ++ [(key, (seq, value))]]), []. split.
    + destruct Hq2 as [_ _ _ _ Hnx2]. split; [by apply Forall2_app; [|constructor]|done| |].
      * rewrite fmap_app. apply NoDup_app. split_and!; [done| |apply NoDup_singleton].
        intros x (u & -> & Hu)%list_elem_of_fmap Hx%list_elem_of_singleton. apply (Hfresh u Hu). congruence.
      * intros u [Hu| ->%list_elem_of_singleton]%elem_of_app; [specialize (Hr u Hu)|rewrite Hnt]; lia.
    + rewrite concat_app. cbn. by rewrite !app_nil_r, app_assoc.
  - injection Hs as <- <-. cbn [fst snd]. split; [done|]. intros ? ? [= <- <-].
    exists ess, (cur ++ [(key, (seq, value))]). split; [|by rewrite app_assoc].
    split; try done. intros u Hu. specialize (Hr u Hu). lia.
Qed.
(** The loop of [write_merged] over what a merge hands out: before each entry and at
    the end blocks are read; a read that fails ends it. *)
Inductive writes (sn : Snapshot) (level target : Z) : list entry -> list Table -> option (Z * nat * Writer) -> Engine T * World ->
  result (list Table * option (Z * nat * Writer)) -> Engine T * World -> Prop :=
  | writes_end outputs opened e w w' : read_through w w' None ->
      writes sn level target [] outputs opened (e, w) (Ok (outputs, opened)) (e, w')
  | writes_failed outputs opened e w w' err : read_through w w' None ->
      writes sn level target [] outputs opened (e, w) (Err err) (e, w')
  | writes_entry en es outputs opened e w w1 outputs1 opened1 s1 r s' : read_through w w1 None ->
      write_entry sn level target en outputs opened (e, w1) = (Ok (outputs1, opened1), s1) ->
      writes sn level target es outputs1 opened1 s1 r s' ->
      writes sn level target (en :: es) outputs opened (e, w) r s'
  | writes_stopped en es outputs opened e w w1 err s' : read_through w w1 None ->
      write_entry sn level target en outputs opened (e, w1) = (Err err, s') ->
      writes sn level target (en :: es) outputs opened (e, w) (Err err) s'.

(** Only a loop that returns has gone over everything. *)
Definition finished {A} (r : result A) : bool := match r with Ok _ => true | Err _ => false end.

Lemma writes_after sn level target es outputs opened e w w1 r s' : read_through w w1 None ->
  writes sn level target es outputs opened (e, w1) r s' -> writes sn level target es outputs opened (e, w) r s'.
Proof.
  intros Hr Hw. inversion Hw; subst.
  - apply writes_end. by eapply read_through_trans.
  - apply writes_failed. by eapply read_through_trans.
  - eapply writes_entry; [by eapply read_through_trans|done..].
  - eapply writes_stopped; [by eapply read_through_trans|done].
Qed.

Lemma write_loop_writes sn level target : forall fuel merge V outputs opened e w r s',
  merge_inv merge V -> mg_failure merge = None -> Forall entries_sorted V -> (length (concat V) < fuel)%nat ->
  write_loop fuel sn level target merge outputs opened (e, w) = (r, s') ->
  exists es r', hands_out V es (finished r') /\ writes sn level target es outputs opened (e, w) r' s' /\ r = (done ← r'; Ok (Some done)).
Proof.
  induction fuel as [|fuel IH]; intros merge V outputs opened e w r s' Hinv Hnf Hsort Hfuel Hs; [lia|].
  cbn [write_loop] in Hs. unfold mbind at 1, stm_bind at 1, next_merged at 1 in Hs.
  destruct (merge_turn (S fuel) merge V w Hinv Hnf Hsort ltac:(lia)) as [[Et E]|(en & m' & w1 & Et & Hr & Hout & Hpos & Hm)]; rewrite Et in Hs.
  { injection Hs as <- <-. exists [], (Ok (outputs, opened)). split_and!; [by constructor|constructor; apply read_through_refl|done]. }
  pose proof (read_through_forget _ _ _ Hr) as Hr1.
  apply stm_bind_cases in Hs as [([outputs1 opened1] & [e2 w2] & Hw & Hs)|(err & Hw & ->)].
  2:{ exists [en], (Err err). split_and!; [apply Hout; constructor|by eapply writes_stopped|done]. }
  destruct (mg_failure m') as [err|] eqn:Ef.
  - destruct fuel as [|fuel]; [lia|]. cbn [write_loop] in Hs. unfold mbind at 1, stm_bind at 1, next_merged at 1 in Hs.
    destruct (Hm (S fuel) w2) as [m1 E]. rewrite E in Hs. injection Hs as <- <-.
    exists [en], (Err err). split_and!; [apply Hout; constructor| |done].
    eapply writes_entry; [done..|]. apply writes_failed, read_through_refl.
  - destruct Hm as (Hinv' & Hsort' & Hlen).
    destruct (IH _ _ _ _ _ _ _ _ Hinv' Ef Hsort' ltac:(lia) Hs) as (es & r' & Ho & Hws & ->).
    exists (en :: es), r'. split_and!; [by apply Hout|by eapply writes_entry|done].
Qed.

Lemma writing_after n0 level e w w' outputs opened ess cur :
  read_through w w' None -> writing n0 level e w outputs opened ess cur -> writing n0 level e w' outputs opened ess cur.
Proof.
  intros Hr%read_through_disk [Hm Ho Hn Hg]. split; [done| |done|done]. destruct opened as [[[number file] wr]|]; [|done].
  unfold being_written in *. by rewrite Hr.
Qed.

Lemma merge_fuel_enough inputs iess : Forall2 sst_holds inputs iess -> (length (concat iess) < merge_fuel inputs)%nat.
Proof.
  unfold merge_fuel. intros Hin. assert (length (concat iess) <= length (concat (st_file <$> inputs)))%nat; [|lia].
  induction Hin as [|t es inputs iess Ht _ IH]; [done|]. rewrite fmap_cons. cbn [concat]. rewrite !length_app. pose proof (sst_holds_length _ _ Ht). lia.
Qed.

Lemma writes_spec n0 sn level target es outputs opened s r s' : writes sn level target es outputs opened s r s' ->
  forall ess cur, writing n0 level (fst s) (snd s) outputs opened ess cur -> 0 <= n0 -> n0 <= en_next_number (fst s) ->
  en_next_number (fst s) + zlen es <= u64_max ->
  quiet (zlen es) (fst s) (fst s') /\ forall outputs' opened', r = Ok (outputs', opened') ->
    exists ess' cur', writing n0 level (fst s') (snd s') outputs' opened' ess' cur' /\
      concat ess' ++ cur' = (concat ess ++ cur) ++ filter (entry_kept sn level) es.
Proof.
  induction 1 as [outputs opened e w w' Hr|outputs opened e w w' err Hr|en es outputs opened e w w1 outs1 op1 s1 r s' Hr Hw _ IH
    |en es outputs opened e w w1 err s' Hr Hw]; intros ess cur Hwr H0 Hn Hlen; cbn [fst snd] in *.
  - split; [by apply quiet_refl|]. intros ? ? [= <- <-]. exists ess, cur. rewrite app_nil_r. split; [by eapply writing_after|done].
  - split; [by apply quiet_refl|done].
  - rewrite zlen_cons in *. pose proof (zlen_nonneg es). rewrite filter_cons. apply (writing_after _ _ _ _ _ _ _ _ _ Hr) in Hwr.
    destruct (decide (entry_kept sn level en)) as [Hk|Hk].
    + apply (write_entry_spec n0 _ _ _ _ _ _ _ _ _ _ _ _ Hwr H0 ltac:(lia) Hk) in Hw as [Hq Hw].
      destruct (Hw _ _ eq_refl) as (ess1 & cur1 & Hwr1 & Hcat1).
      pose proof (qt_next _ _ _ Hq). destruct (IH _ _ Hwr1) as [Hq2 Hs]; [lia..|].
      split; [by eapply quiet_trans|]. intros o2 p2 E. destruct (Hs o2 p2 E) as (ess2 & cur2 & Hwr2 & Hcat2).
      exists ess2, cur2. split; [done|]. by rewrite Hcat2, Hcat1, <- app_assoc.
    + rewrite write_entry_dropped in Hw by done. injection Hw as <- <- <-. cbn [fst snd] in IH.
      destruct (IH _ _ Hwr) as [Hq2 Hs]; [lia..|]. split; [eapply quiet_more; [exact Hq2|lia]|done].
  - rewrite zlen_cons in *. pose proof (zlen_nonneg es). apply (writing_after _ _ _ _ _ _ _ _ _ Hr) in Hwr. split; [|done].
    destruct (decide (entry_kept sn level en)) as [Hk|Hk].
    + destruct (write_entry_spec n0 _ _ _ _ _ _ _ _ _ _ _ _ Hwr H0 ltac:(lia) Hk Hw) as [Hq _]. eapply quiet_more; [exact Hq|lia].
    + by rewrite write_entry_dropped in Hw.
Qed.

(** The loop of [write_merged] goes over the newest entries of its inputs, all of them
    if it returns. *)
Lemma merged_list inputs iess (all : list entry) sn level target e w r s' :
  Forall2 sst_holds inputs iess -> (forall en, en ∈ concat iess -> en ∈ all) ->
  (merge ← start_merge inputs; write_loop (merge_fuel inputs) sn level target merge [] None) (e, w) = (r, s') ->
  exists es r', entries_sorted es /\ (forall en, en ∈ es -> newest_in (concat iess) (fst en) (snd en)) /\
    (finished r' = true -> forall en, en ∈ concat iess -> fst en ∈ es.*1) /\ zlen es <= zlen all /\
    writes sn level target es [] None (e, w) r' s' /\ r = (done ← r'; Ok (Some done)).
Proof.
  intros Hin Hsub Hs. unfold mbind at 1, stm_bind at 1, start_merge in Hs. pose proof (merge_new_tables inputs iess w Hin) as Hnew.
  destruct (merge_new _ w) as [m w1]. destruct Hnew as (Hsort & Hr & Hinv).
  destruct (mg_failure m) as [err|] eqn:Ef.
  { unfold merge_fuel in Hs. cbn [write_loop] in Hs. unfold mbind at 1, stm_bind at 1, next_merged at 1, merge_next in Hs. rewrite Ef in Hs.
    injection Hs as <- <-. exists [], (Err err). split_and!; [constructor|by intros ? ?%elem_of_nil|done|apply zlen_nonneg| |done].
    apply writes_failed. by eapply read_through_forget. }
  destruct (write_loop_writes _ _ _ _ _ _ _ _ _ _ _ _ (Hinv eq_refl) Ef Hsort ltac:(exact (merge_fuel_enough _ _ Hin)) Hs)
    as (es & r' & Ho & Hw & ->). destruct (hands_out_spec _ _ _ Ho Hsort) as (Hso & Hnw & Hall).
  exists es, r'. split_and!; [done..| |by eapply writes_after|done].
  assert (length es <= length all)%nat as Hlen; [|unfold zlen; lia].
  apply submseteq_length, NoDup_submseteq; [apply (NoDup_fmap_1 fst), entries_sorted_NoDup, Hso|].
  intros [k v] Hx. apply Hsub. by destruct (Hnw _ Hx).
Qed.

(** The files of a merge: the entries kept, cut into tables. *)
Lemma write_merged_spec p sn inputs iess (all : list entry) e w r s' :
  Forall2 sst_holds inputs iess -> (forall en, en ∈ concat iess -> en ∈ all) ->
  0 <= en_next_number e -> en_next_number e + zlen all <= u64_max ->
  write_merged p sn inputs (e, w) = (r, s') ->
  quiet (zlen all) e (fst s') /\ r <> Ok None /\ forall outs, r = Ok (Some outs) ->
    exists es ess, entries_sorted es /\
      (forall en, en ∈ es -> newest_in (concat iess) (fst en) (snd en)) /\
      (forall en, en ∈ concat iess -> fst en ∈ es.*1) /\
      Forall2 (made (output_level p)) outs ess /\ concat ess = filter (entry_kept sn (output_level p)) es /\
      NoDup (number_of <$> outs) /\ (forall t, t ∈ outs -> en_next_number e <= number_of t < en_next_number (fst s')).
Proof.
  intros Hin Hsub Hn0 Hroom Hs. unfold write_merged in Hs.
  apply stm_bind_cases in Hs as [(target & s1 & [_ ->]%gete_eq & Hs)|(err & [? _]%gete_eq & _)]; [|done].
  assert (writing (en_next_number e) (output_level p) e w [] None [] []) as Hwr.
  { split; [done|done|constructor|by intros ? ?%elem_of_nil]. }
  rewrite stm_bind_assoc in Hs.
  apply stm_bind_cases in Hs as [(res & [e1 w1] & Hl & Hs)|(err & Hl & ->)];
    destruct (merged_list inputs iess all _ _ _ _ _ _ _ Hin Hsub Hl) as (es & r' & Hso & Hnew & Hall & Hz & Hws & E);
    destruct (writes_spec (en_next_number e) _ _ _ _ _ _ _ _ _ Hws [] [] Hwr Hn0 (Z.le_refl _) ltac:(cbn; lia)) as [Hq Hl2]; cbn [fst snd] in *.
  2:{ split; [by eapply quiet_more|done]. }
  destruct r' as [[outs1 op1]|]; [|done]. injection E as ->. specialize (Hall eq_refl).
  destruct (Hl2 _ _ eq_refl) as (ess1 & cur1 & [Hmade Hop Hnd Hrg] & Hcat). cbn [fst snd app concat] in *.
  destruct op1 as [[[number file] wr]|].
  - destruct Hop as (Hbw & Hnum & Hfr).
    apply stm_bind_cases in Hs as [(t & [e3 w3] & Hse & Hs)|(err & Hse & ->)]; apply (seal_spec _ _ _ _ _ _ _ _ _ Hbw) in Hse as [Hq2 Ht].
    2:{ split; [|done]. eapply quiet_more; [by eapply quiet_trans|lia]. }
    injection Hs as <- <-. destruct (Ht t eq_refl) as [Hmt Hnt]. cbn [fst] in *. split; [eapply quiet_more; [by eapply quiet_trans|lia]|].
    split; [done|]. intros ? [= <-]. exists es, (ess1 ++ [cur1]). split_and!; try done.
    + by apply Forall2_app; [|constructor].
    + rewrite concat_app. cbn. by rewrite app_nil_r.
    + rewrite fmap_app. apply NoDup_app. split_and!; [done| |apply NoDup_singleton].
      intros x (u & -> & Hu)%list_elem_of_fmap Hx%list_elem_of_singleton. apply (Hfr u Hu). congruence.
    + destruct Hq2 as [_ _ _ _ Hx2]. intros u [Hu| ->%list_elem_of_singleton]%elem_of_app; [specialize (Hrg u Hu)|rewrite Hnt]; lia.
  - injection Hs as <- <-. cbn [fst]. split; [by eapply quiet_more|]. split; [done|]. intros ? [= <-]. subst cur1.
    rewrite app_nil_r in Hcat. by exists es, ess1.
Qed.
(** ** Committing *)

Lemma commit_cases added removed publish e w r s' :
  commit added removed publish (e, w) = (r, s') ->
  ((exists err, r = Err err) /\ fst s' = e) \/
  (r = Ok tt /\ en_wal (fst s') = en_wal e /\ en_next_number (fst s') = en_next_number e /\ en_config (fst s') = en_config e /\
   en_state (fst s') = publish (en_state e) /\ exists last_seq number, en_snapshot (fst s') =
     mkSnapshot (filter (fun file => fm_number file ∉ removed) (sn_files (en_snapshot e)) ++ added) last_seq number).
Proof.
  unfold commit, gete, gets, set_snapshot, set_state, modify, on_disk. intros Hs.
  unfold mbind at 1 2 3 4, stm_bind in Hs. cbn [fst] in Hs. unfold mbind, stm_bind in Hs. cbn [fst] in Hs.
  destruct (manifest_store _ _ w) as [[[]|err] w1]; injection Hs as <- <-.
  - right. cbn [fst]. split_and!; try done. by eexists _, _.
  - left. split; [by eexists|done].
Qed.

Lemma after_commit names e w r s' :
  (dir ← gete en_dir; _ ← on_disk (remove_files dir names); mark_progress) (e, w) = (r, s') -> quiet 0 e (fst s').
Proof.
  intros [(dir & s0 & [_ ->]%gete_eq & Hs)|(err & [? _]%gete_eq & _)]%stm_bind_cases; [|done]. revert Hs.
  intros [([] & s1 & (w1 & _ & ->)%on_disk_eq & Hs)|(err & (w1 & _ & ->)%on_disk_eq & ->)]%stm_bind_cases; [|by apply quiet_refl].
  unfold mark_progress, gete, gets, set_queue, modify in Hs. unfold mbind, stm_bind in Hs. injection Hs as <- <-.
  split; try done. cbn. lia.
Qed.

(** ** The invariant *)

(** Sequence numbers in range. *)
Definition within (bound : Z) (ls : list layer) : Prop :=
  forall m k v, m ∈ ls -> m !! k = Some v -> 0 <= fst v <= bound.

Lemma within_kept bound ls ls' : kept ls ls' -> layers_ordered ls -> within bound ls -> within bound ls'.
Proof. intros Hk Ho Hb m k v Hm Hv. destruct (Hk Ho) as (_ & _ & Hd). destruct (Hd m k v Hm Hv) as (m0 & Hm0 & Hv0). by eapply Hb. Qed.

Lemma within_more b b' ls : within b ls -> b <= b' -> within b' ls.
Proof. intros Hw Hle m k v Hm Hv. specialize (Hw m k v Hm Hv). lia. Qed.

(** What memory and the files hold stands for [told], the newest mutation of every
    key the store has accepted. *)
Definition holds_told e (told : layer) : Prop :=
  exists A Fs, state_holds (en_state e) A Fs /\ layers_ordered (layers_of (en_state e) A Fs) /\
    agrees (view (layers_of (en_state e) A Fs)) told /\ within (wl_last_seq (en_wal e)) (layers_of (en_state e) A Fs).

Record engine_inv e (told : layer) : Prop := {
  ei_tidy : tidy (en_wal e);
  ei_seq : 0 <= wl_last_seq (en_wal e) <= u64_max;
  ei_next : 0 <= en_next_number e;
  ei_shape : shape_ok (en_snapshot e) (en_next_number e) (st_levels (en_state e));
  ei_told : within (wl_last_seq (en_wal e)) [told];
  ei_holds : holds_told e told;
}.

(** What the types of the source promise of a state: a sequence number and a
    file's length are [u64]s. *)
Definition typed e : Prop :=
  wl_last_seq (en_wal e) <= u64_max /\ forall t, t ∈ concat (st_levels (en_state e)) -> st_bytes (tb_table t) <= u64_max.

(** Every entry in a file. *)
Definition all_entries e : list entry := concat (file_entries <$> concat (st_levels (en_state e))).

(** Enough file numbers for the next operation. *)
Definition numbers_left e : Prop := en_next_number e + zlen (all_entries e) + 1 <= u64_max.

Lemma quiet_inv n e e' told : engine_inv e told -> quiet n e e' -> engine_inv e' told.
Proof.
  intros [H1 H2 H3 H4 H5 H6] [Q1 Q2 Q3 Q4 Q5]. split; unfold holds_told in *; rewrite ?Q1, ?Q2, ?Q3; try done; [lia|].
  eapply shape_later; [done|lia].
Qed.

(** A lookup bumps counters, nothing else. *)
Lemma counted_quiet e e' : counted e e' -> quiet 0 e e'.
Proof. intros [reads ->]. split; try done. cbn. lia. Qed.

(** A read finds what the store has been told, unless one of its calls fails; it
    changes no more than the counters. *)
Lemma read_told e told key w : engine_inv e told -> answers (engine_get key) (Ok (value_of (told !! key))) (e, w).
Proof.
  intros [_ _ _ _ _ (A & Fs & Hst & _ & Ha & _)]. rewrite <- (agrees_value _ _ _ Ha). by apply engine_get_spec.
Qed.

(** The same, of a run of it. *)
Lemma read_ran e told key w r s' : engine_inv e told -> engine_get key (e, w) = (r, s') ->
  exists e' w', s' = (e', w') /\ counted e e' /\ engine_inv e' told /\ disk w' = disk w /\
    read_through w w' None /\ (r = Ok (value_of (told !! key)) \/ io_failed r).
Proof.
  intros Hinv E. destruct (read_told e told key w Hinv) as [Hc Hr]. rewrite E in *. destruct s' as [e' w']. cbn [fst snd] in *.
  exists e', w'. split_and!; [done|done|by eapply quiet_inv, counted_quiet|..].
  - destruct Hr as [[_ Hr]|(err & _ & Hr)]; by eapply read_through_disk.
  - destruct Hr as [[_ Hr]|(err & _ & Hr)]; by eapply read_through_forget.
  - destruct Hr as [[-> _]|(err & -> & Hr)]; [by left|right]. by eapply read_through_failed.
Qed.

(** Where no call fails a read does not. *)
Lemma read_calm e told key w : engine_inv e told -> no_failures w ->
  fst (engine_get key (e, w)) = Ok (value_of (told !! key)).
Proof.
  intros Hinv Hn. destruct (read_told e told key w Hinv) as [_ [[-> _]|(err & _ & Hr)]]; [done|].
  by destruct (read_through_calm _ _ _ Hr Hn).
Qed.

(** ** Flushing *)

Lemma frozen_last (st : State T) A Fs frozen :
  state_holds st A Fs -> last (st_frozen st) = Some frozen ->
  exists rest m Gs, st_frozen st = rest ++ [frozen] /\ Fs = Gs ++ [m] /\ represents (fz_memtable frozen) m /\ m <> ∅ /\
    Forall2 (fun f m => represents (fz_memtable f) m /\ m <> ∅) rest Gs.
Proof.
  intros [_ Hf _] Hl. apply last_Some in Hl as [rest E]. rewrite E in Hf.
  apply Forall2_app_inv_l in Hf as (Gs & Ms & HG & HM & ->). inversion_clear HM as [|? m ? ? [Hr Hne] Hn]. inversion_clear Hn.
  by exists rest, m, Gs.
Qed.

(** The entries of a frozen table, as a file gets them. *)
Lemma frozen_entries (frozen : Frozen T) m bound : represents (fz_memtable frozen) m -> m <> ∅ ->
  (forall k v, m !! k = Some v -> 0 <= fst v <= bound) -> bound <= u64_max ->
  exists es, (forall wr, mt_for_each (fz_memtable frozen) writer_add wr = visit_all writer_add es wr) /\
    es <> [] /\ entries_sorted es /\ seqs_ok es /\ (list_to_map es : layer) = m.
Proof.
  intros Hr Hne Hb Hu. destruct (law_for_each _ _ Hr) as (es & Hl & Hv). exists es. split_and!.
  - intros wr. apply Hv.
  - by rewrite (lists_nil_iff es m Hl).
  - apply Hl.
  - apply Forall_forall. intros [k v] Hin. apply Hl in Hin. destruct (Hb k v Hin). split; cbn; lia.
  - symmetry. by apply lists_to_map.
Qed.

Lemma flush_file_spec frozen es e w r s' :
  (forall wr, mt_for_each (fz_memtable frozen) writer_add wr = visit_all writer_add es wr) -> es <> [] ->
  0 <= en_next_number e < u64_max -> flush_file frozen (e, w) = (r, s') ->
  quiet 1 e (fst s') /\ forall t, r = Ok t -> made 0 t es /\ en_next_number e <= number_of t < en_next_number (fst s').
Proof.
  intros Hv Hne Hn Hs. unfold flush_file in Hs.
  apply stm_bind_cases in Hs as [(number & s1 & Hf & Hs)|(err & Hf & _)];
    [|apply fetch_number_eq in Hf as (e1 & ? & _); [done|lia]].
  apply fetch_number_eq in Hf as (e1 & [= ->] & -> & Hq & Hnx); [|lia].
  apply stm_bind_cases in Hs as [(dir & s1 & [[= ->] ->]%gete_eq & Hs)|(err & [? _]%gete_eq & _)]; [|done]. cbn [fst] in Hs.
  apply stm_bind_cases in Hs as [(file & s1 & (w1 & H1 & ->)%on_disk_eq & Hs)|(err & (w1 & _ & ->)%on_disk_eq & ->)]; [|by split].
  rewrite Hv in Hs. destruct (visit_all writer_add es _) as [added wr] eqn:Ea.
  apply stm_bind_cases in Hs as [([] & s1 & Hl & Hs)|(err & Hl & ->)]; [|unfold lift in Hl; injection Hl as _ <-; by split].
  unfold lift in Hl. injection Hl as -> <-.
  apply stm_bind_cases in Hs as [([] & s1 & (w2 & H2 & ->)%on_disk_eq & Hs)|(err & (w2 & _ & ->)%on_disk_eq & ->)]; [|by split].
  apply stm_bind_cases in Hs as [([] & s1 & (w3 & H3 & ->)%on_disk_eq & Hs)|(err & (w3 & _ & ->)%on_disk_eq & ->)]; [|by split].
  apply stm_bind_cases in Hs as [([] & s1 & (w4 & H4 & ->)%on_disk_eq & Hs)|(err & (w4 & _ & ->)%on_disk_eq & ->)]; [|by split].
  apply stm_bind_cases in Hs as [(t & s1 & (w5 & H5 & ->)%on_disk_eq & Hs)|(err & (w5 & _ & ->)%on_disk_eq & ->)]; [|by split].
  apply stm_bind_cases in Hs as [([] & s1 & (e6 & _ & -> & Hq6)%add_bytes_eq & Hs)|(err & (e6 & ? & _)%add_bytes_eq & _)]; [|done].
  injection Hs as <- <-. cbn [fst]. split; [by apply (quiet_trans 1 0 _ e1)|]. intros u [= <-].
  destruct (writer_adds_inv _ _ _ _ _ (writer_inv_create _) Ea) as (groups & cur & Hinv & Hcat). cbn [concat app] in Hcat.
  apply create_ok in H1 as [Hn1 Hc1]. apply writer_close_ok in H2 as (wr' & Hfin & Hn2 & Hc2).
  apply rename_ok in H3 as (i & Hi1 & Hi2 & Hc3). apply sync_dir_ok in H4 as [Hn4 Hc4]. apply table_open_ok in H5 as (j & Hj & Hopen).
  assert (i = file) as -> by congruence. assert (j = file) as -> by congruence.
  rewrite Hc4, Hc3, Hc2, Hc1 in Hopen. cbn [app] in Hopen. split.
  - split_and!; [done|done|]. intros Hb Hso Hq'. rewrite <- Hcat in *.
    pose proof (closed_table_holds _ _ _ _ _ _ Hinv Hfin Hopen Hso Hq' Hb) as Hh.
    split; [by eapply table_ok_intro|by apply file_entries_holds].
  - destruct Hq6 as [_ _ _ _ Hx]. unfold number_of. cbn. lia.
Qed.

(** A table stands for one map. *)
Lemma represents_unique (t : T) m m' : represents t m -> represents t m' -> m = m'.
Proof.
  intros Hm Hm'. destruct (law_for_each _ _ Hm) as (es & Hl & Hv). destruct (law_for_each _ _ Hm') as (es' & Hl' & Hv').
  set (note := fun (k : bytes) (s : Z) (v : option bytes) (acc : list entry) => (Ok tt : result unit, acc ++ [(k, (s, v))])).
  assert (forall es acc, visit_all note es acc = (Ok tt, acc ++ es)) as Hall.
  { clear. induction es as [|[k [s v]] es IH]; intros acc; cbn; [by rewrite app_nil_r|]. unfold mbind, stm_bind, note at 1. rewrite IH.
    by rewrite <- app_assoc. }
  specialize (Hv _ note []). rewrite (Hv' _ note []), !Hall in Hv. injection Hv as ->.
  by rewrite (lists_to_map _ _ Hl), (lists_to_map _ _ Hl').
Qed.

(** A table made of what a frozen memtable holds. *)
Definition made_of (frozen : Frozen T) (t : Table) : Prop :=
  exists es, made 0 t es /\ entries_sorted es /\ seqs_ok es /\ represents (fz_memtable frozen) (list_to_map es).

Lemma flush_file_made frozen e w r s' told :
  engine_inv e told -> frozen ∈ st_frozen (en_state e) -> en_next_number e < u64_max ->
  flush_file frozen (e, w) = (r, s') ->
  quiet 1 e (fst s') /\ forall t, r = Ok t -> made_of frozen t /\ en_next_number e <= number_of t < en_next_number (fst s').
Proof.
  intros Hinv [i Hi]%list_elem_of_lookup Hlt Hs. pose proof Hinv as [Htidy Hseq Hnext Hshape Htold (A & Fs & [_ Hfz _] & _ & _ & Hwi)].
  destruct (Forall2_lookup_l _ _ _ _ _ Hfz Hi) as (m & Hm & Hrep & Hne).
  destruct (frozen_entries frozen m (wl_last_seq (en_wal e)) Hrep Hne) as (es & Hv & Hes & Hso & Hq & Hmap); [|lia|].
  { intros k v. apply Hwi. unfold layers_of. right. apply elem_of_app. left. by apply list_elem_of_lookup_2 in Hm. }
  apply (flush_file_spec _ _ _ _ _ _ Hv Hes) in Hs as [Hq1 Hf]; [|lia]. split; [done|].
  intros t Ht. destruct (Hf t Ht) as [Hmade Hnum]. split; [|done]. exists es. by rewrite Hmap.
Qed.

(** Nothing frozen or in a file is numbered past [b]. *)
Definition files_below (b : Z) (st : State T) : Prop :=
  forall A Fs, state_holds st A Fs -> below b (Fs ++ file_layers (st_levels st)).

(** The commit of a flush. *)
Lemma flush_committed frozen t e w r s' told :
  engine_inv e told -> last (st_frozen (en_state e)) = Some frozen -> made_of frozen t ->
  0 <= number_of t < en_next_number e -> (forall u, u ∈ concat (st_levels (en_state e)) -> number_of t <> number_of u) ->
  typed (fst s') -> commit [tb_meta t] [] (publish_flush t) (e, w) = (r, s') ->
  match r with
  | Ok _ => engine_inv (fst s') told /\ en_state (fst s') = publish_flush t (en_state e) /\
      en_wal (fst s') = en_wal e /\ en_next_number (fst s') = en_next_number e /\
      forall b, files_below b (en_state e) -> files_below b (en_state (fst s'))
  | Err _ => fst s' = e
  end.
Proof.
  intros Hinv Hlast (es & (Hlv & _ & Hgood) & Hso & Hq & Hrep') Hnum Hap [_ Hty] Hc.
  pose proof Hinv as [Htidy Hseq Hnext Hshape Htold (A & Fs & Hst & Hord & Hag & Hwi)].
  apply commit_cases in Hc as [[[err ->] Hc]|(-> & C1 & C2 & C3 & C4 & (ls & nb & C5))]; [done|].
  destruct (frozen_last _ _ _ _ Hst Hlast) as (rest & m & Gs & Erest & -> & Hrep & Hne & Hrest).
  rewrite C4 in Hty. unfold publish_flush in *. cbn [st_levels] in Hty.
  assert (t ∈ concat (alter (cons t) 0%nat (st_levels (en_state e)))) as Hin.
  { pose proof (lk_some _ (so_levels _ _ _ Hshape)) as Hsome. destruct (st_levels (en_state e)) as [|l0 ls']; [done|]. cbn. left. }
  destruct (Hgood (Hty t Hin) Hso Hq) as [Hok Hent].
  destruct (tables_published (en_snapshot e) (en_snapshot (fst s')) (en_next_number e) (st_levels (en_state e)) [t] Hshape) as [Hshape' Hlay].
  { by constructor. }
  { by constructor. }
  { apply NoDup_singleton. }
  { by intros u ->%list_elem_of_singleton. }
  { intros u v ->%list_elem_of_singleton. apply Hap. }
  { rewrite C5. cbn [sn_files]. rewrite filter_nothing_removed. by rewrite Permutation_app_comm. }
  change (app [t]) with (cons t) in *. cbn [app fmap list_fmap] in Hlay.
  assert (layers_of (en_state (fst s')) A Gs = layers_of (en_state e) A (Gs ++ [m])) as Elay.
  { unfold layers_of. rewrite C4. cbn [st_levels]. rewrite Hlay. unfold table_map.
    by rewrite Hent, (represents_unique _ _ _ Hrep' Hrep), <- app_assoc. }
  assert (take (length (st_frozen (en_state e)) - 1) (st_frozen (en_state e)) = rest) as Etake.
  { rewrite Erest, length_app. cbn. by rewrite Nat.add_sub, take_app_length. }
  pose proof Hst as [Ha Hfz Hlk]. split; [|split_and!; [done..|]].
  - split; unfold holds_told; rewrite ?C1, ?C2; try done; [by rewrite C4|].
    exists A, Gs. rewrite Elay. split_and!; try done. rewrite C4. split; cbn [st_active st_frozen st_levels]; [done|by rewrite Etake|apply Hshape'].
  - intros b Hb A1 Fs1 [Ha1 Hfz1 _]. rewrite C4 in *. cbn [st_active st_frozen st_levels] in *. rewrite Etake in Hfz1. rewrite Hlay.
    unfold table_map at 1. rewrite Hent, (represents_unique _ _ _ Hrep' Hrep).
    assert (state_holds (en_state e) A1 (Fs1 ++ [m])) as Hb1%Hb.
    { split; [done| |done]. rewrite Erest. apply Forall2_app; [done|]. by repeat constructor. }
    by rewrite <- app_assoc in Hb1.
Qed.

Lemma flush_inv frozen e w r s' told :
  engine_inv e told -> last (st_frozen (en_state e)) = Some frozen -> numbers_left e -> typed (fst s') ->
  flush frozen (e, w) = (r, s') -> engine_inv (fst s') told.
Proof.
  intros Hinv Hlast Hleft Hty Hs. pose proof Hinv as [_ _ Hnext Hshape _ _].
  unfold numbers_left in Hleft. pose proof (zlen_nonneg (all_entries e)).
  assert (frozen ∈ st_frozen (en_state e)) as Hin by (apply last_Some in Hlast as [rest ->]; apply elem_of_app; right; left).
  unfold flush in Hs.
  apply stm_bind_cases in Hs as [(t & [e1 w1] & Hf & Hs)|(err & Hf & ->)];
    apply (flush_file_made _ _ _ _ _ _ Hinv Hin) in Hf as [Hq1 Hf]; try lia; [|by eapply quiet_inv]. cbn [fst] in *.
  destruct (Hf t eq_refl) as [Hmade Hnum]. pose proof Hq1 as [Q1 Q2 Q3 Q4 Q5]. pose proof (quiet_inv _ _ _ _ Hinv Hq1) as Hinv1.
  rewrite <- Q3 in Hlast.
  assert (forall u, u ∈ concat (st_levels (en_state e1)) -> number_of t <> number_of u) as Hap.
  { rewrite Q3. intros u Hu. pose proof (so_next _ _ _ Hshape u Hu). lia. }
  apply stm_bind_cases in Hs as [([] & [e2 w2] & Hc & Hs)|(err & Hc & ->)].
  - apply after_commit in Hs as Hq2. assert (typed e2) as Hty2 by (destruct Hq2 as [D1 D2 D3 _ _]; unfold typed in *; by rewrite <- D1, <- D3).
    apply (flush_committed _ _ _ _ _ (e2, w2) _ Hinv1 Hlast Hmade ltac:(lia) Hap Hty2) in Hc as [Hinv2 _]. exact (quiet_inv _ _ _ _ Hinv2 Hq2).
  - apply commit_cases in Hc as [[_ ->]|[? _]]; [done|done].
Qed.
(** ** Rotating and writing *)

Lemma wal_create_ok path name policy last_seq w fresh w' :
  wal_create path name policy last_seq w = (Ok fresh, w') -> tidy fresh /\ last_seq <= wl_last_seq fresh.
Proof.
  unfold wal_create, wal_recover. intros [([wal records] & w1 & Hs & Hr)|(err & _ & ?)]%stm_bind_cases; [|done].
  injection Hr as -> ->.
  apply stm_bind_cases in Hs as [(replay & w2 & _ & Hs)|(err & _ & ?)]; [|done].
  destruct (drain_all replay) as [drained replay'].
  apply stm_bind_cases in Hs as [(records' & w3 & _ & Hs)|(err & _ & ?)]; [|done].
  apply stm_bind_cases in Hs as [(file & w4 & _ & Hs)|(err & _ & ?)]; [|done].
  apply stm_bind_cases in Hs as [([] & w5 & _ & Hs)|(err & _ & ?)]; [|done].
  injection Hs as <- _ _. split; [apply wal_new_tidy|]. cbn. apply highest_seq_spec.
Qed.

(** The log and the rest of a state, the log's numbering having moved on. *)
Lemma inv_with_wal e e' told :
  engine_inv e told -> tidy (en_wal e') -> wl_last_seq (en_wal e) <= wl_last_seq (en_wal e') <= u64_max ->
  en_state e' = en_state e -> en_snapshot e' = en_snapshot e -> en_next_number e <= en_next_number e' -> engine_inv e' told.
Proof.
  intros [H1 H2 H3 H4 H5 (A & Fs & Hst & Ho & Ha & Hw)] Ht Hl E1 E2 E3. split; [done|lia|lia| | |].
  - rewrite E1, E2. by eapply shape_later.
  - eapply within_more; [done|lia].
  - exists A, Fs. rewrite E1. split_and!; try done. eapply within_more; [done|lia].
Qed.

Lemma rotate_inv min_bytes e w r s' told :
  engine_inv e told -> numbers_left e -> typed (fst s') -> rotate min_bytes (e, w) = (r, s') -> engine_inv (fst s') told.
Proof.
  intros Hinv Hleft [Hty _] Hs. unfold numbers_left in Hleft. pose proof (zlen_nonneg (all_entries e)).
  unfold rotate in Hs.
  apply stm_bind_cases in Hs as [(st & s1 & [[= ->] ->]%gete_eq & Hs)|(err & [? _]%gete_eq & _)]; [|done]. cbn [fst] in Hs.
  destruct (mt_is_empty (st_active (en_state e))) eqn:Eemp; cbn [orb] in Hs; [by injection Hs as <- <-|].
  destruct (mt_approx_bytes _ <? min_bytes); [by injection Hs as <- <-|].
  apply stm_bind_cases in Hs as [(number & s1 & Hf & Hs)|(err & Hf & _)];
    [|apply fetch_number_eq in Hf as (e1 & ? & _); [done|destruct Hinv; lia]].
  apply fetch_number_eq in Hf as (e1 & [= ->] & -> & Hq & Hnx); [|destruct Hinv; lia].
  apply stm_bind_cases in Hs as [(dir & s1 & [[= ->] ->]%gete_eq & Hs)|(err & [? _]%gete_eq & _)]; [|done].
  apply stm_bind_cases in Hs as [(config & s1 & [[= ->] ->]%gete_eq & Hs)|(err & [? _]%gete_eq & _)]; [|done].
  apply stm_bind_cases in Hs as [(previous & s1 & [[= ->] ->]%gete_eq & Hs)|(err & [? _]%gete_eq & _)]; [|done]. cbn [fst] in Hs.
  apply stm_bind_cases in Hs as [(fresh & s1 & (w1 & Hc & ->)%on_disk_eq & Hs)|(err & (w1 & _ & ->)%on_disk_eq & ->)]; [|by eapply quiet_inv].
  apply wal_create_ok in Hc as [Ht Hl].
  unfold set_wal, set_state, set_queue, gete, gets, modify in Hs. unfold mbind, stm_bind in Hs. cbn [fst] in Hs. injection Hs as <- <-.
  cbn [fst en_wal] in Hty |- *. destruct Hq as [Q1 Q2 Q3 Q4 Q5]. rewrite Q1 in Hl.
  destruct Hinv as [H1 H2 H3 H4 H5 (A & Fs & [Ha Hfz Hlk] & Ho & Hag & Hw)].
  split; cbn [en_wal en_next_number en_snapshot en_state st_levels]; rewrite ?Q2; try done; try lia.
  - eapply shape_later; [done|lia].
  - eapply within_more; [done|lia].
  - exists ∅, (A :: Fs).
    match goal with |- context [layers_of ?x _ _] => set (st' := x) end.
    assert (layers_of st' ∅ (A :: Fs) = ∅ :: layers_of (en_state e) A Fs) as -> by done. split_and!.
    + split; cbn; [apply law_build| |done]. constructor; [|done]. split; [done|]. intros ->.
      rewrite (law_is_empty _ _ Ha) in Eemp. by rewrite bool_decide_true in Eemp.
    + split; [|done]. apply Forall_forall. intros m _. apply above_empty.
    + intros k. rewrite view_cons, lookup_empty. apply Hag.
    + intros m k v [->|Hm]%elem_of_cons Hv; [by rewrite lookup_empty in Hv|]. specialize (Hw m k v Hm Hv). cbn. lia.
Qed.

(** The next number is new to the table in memory, so its insert returns. *)
Lemma insert_returns e told key seq value :
  engine_inv e told -> has_room (st_active (en_state e)) seq -> wl_last_seq (en_wal e) < seq ->
  is_Some (fst (mt_insert (st_active (en_state e)) key seq value)).
Proof.
  intros [_ _ _ _ _ (A & Fs & [Ha _ _] & _ & _ & Hw)] Hroom Hseq. destruct (law_insert _ A key seq value Ha Hroom) as [-> _]; [|by eexists].
  intros v Hv. specialize (Hw A key (seq, v) ltac:(left) Hv). cbn in Hw. lia.
Qed.

(** Inserting a mutation numbered past everything there is. *)
Lemma insert_told e e' told key value seq :
  engine_inv e told -> has_room (st_active (en_state e)) seq ->
  seq = wl_last_seq (en_wal e) + 1 -> tidy (en_wal e') -> wl_last_seq (en_wal e') = seq -> seq <= u64_max ->
  en_state e' = mkState (snd (mt_insert (st_active (en_state e)) key seq value)) (st_active_logs (en_state e))
    (st_frozen (en_state e)) (st_levels (en_state e)) ->
  en_snapshot e' = en_snapshot e -> en_next_number e' = en_next_number e ->
  engine_inv e' (<[key := (seq, value)]> told).
Proof.
  intros [H1 H2 H3 H4 H5 (A & Fs & [Ha Hfz Hlk] & Ho & Hag & Hw)] Hroom Eseq Ht Hl Hu Est Esn Enx.
  assert (below (wl_last_seq (en_wal e)) (Fs ++ file_layers (st_levels (en_state e)))) as Hb.
  { intros m k v Hm Hv. apply (Hw m k v); [|done]. right. exact Hm. }
  assert (settled_below (wl_last_seq (en_wal e)) A told) as Hsb.
  { intros k v Hv. right. apply (H5 told k v); [left|done]. }
  destruct (spec_insert_top A _ told _ key seq value Hag Ho Hb Hsb ltac:(lia)) as (Hag' & Ho' & _).
  assert (spec_insert told key seq value = <[key := (seq, value)]> told) as Etold.
  { unfold spec_insert, spec_newest. destruct (told !! key) as [[s v]|] eqn:E; [|done].
    specialize (H5 told key (s, v) ltac:(left) E). cbn in H5. by destruct (Z.ltb_spec s seq); [|lia]. }
  rewrite <- Etold.
  assert (forall m : layer, within (wl_last_seq (en_wal e)) [m] -> within seq [spec_insert m key seq value]) as Hins.
  { intros m Hm m' k v ->%list_elem_of_singleton. rewrite spec_insert_lookup. intros Hv.
    assert (m !! k = Some v -> 0 <= fst v <= seq) as Hold by (intros Hv'; specialize (Hm m k v ltac:(left) Hv'); lia).
    destruct (decide (k = key)); [|auto]. destruct (spec_newest m key seq); [|auto]. injection Hv as <-. cbn. lia. }
  split; rewrite ?Hl, ?Est, ?Esn, ?Enx; try done; [lia|by apply Hins|].
  exists (spec_insert A key seq value), Fs. rewrite Est, Hl. unfold layers_of. cbn [st_active st_frozen st_levels]. split_and!; try done.
  - split; [|done|done]. apply law_insert; [done|done|]. intros v Hv.
    specialize (Hw A key (seq, v) ltac:(left) Hv). cbn in Hw. lia.
  - intros m k v [->|Hm]%elem_of_cons Hv.
    + apply (Hins A) in Hv; [done| |left]. intros m' k' v' ->%list_elem_of_singleton. apply (Hw A). left.
    + assert (0 <= fst v <= wl_last_seq (en_wal e)) by (eapply Hw; [by right|done]). lia.
Qed.

Lemma take_background_eq e w r s' :
  take_background_error (e, w) = (r, s') -> exists e1, r = Ok (en_background_error e) /\ s' = (e1, w) /\ quiet 0 e e1.
Proof.
  unfold take_background_error, gete, gets, set_background_error, modify. unfold mbind, stm_bind. intros [= <- <-].
  eexists. split_and!; [done..|]. split; try done. cbn. lia.
Qed.

(** What a change to the log alone leaves as it was. *)
Definition same_but_log e e' : Prop :=
  en_state e' = en_state e /\ en_snapshot e' = en_snapshot e /\ en_next_number e' = en_next_number e /\ en_config e' = en_config e.

Lemma log_append_spec key value e w r s' :
  tidy (en_wal e) -> 0 <= wl_last_seq (en_wal e) < u64_max -> log_append key value (e, w) = (r, s') ->
  same_but_log e (fst s') /\ tidy (en_wal (fst s')) /\
  wl_last_seq (en_wal e) <= wl_last_seq (en_wal (fst s')) <= wl_last_seq (en_wal e) + 1 /\
  forall seq, r = Ok seq -> seq = wl_last_seq (en_wal e) + 1 /\ wl_last_seq (en_wal (fst s')) = seq.
Proof.
  intros Ht Hl. destruct (append_ends key value (en_wal e) w Ht Hl) as (ra & wal & wa & Ha & Hta & Hla & Hra).
  unfold log_append. rewrite Ha. intros [= <- <-]. unfold set_wal, modify. cbn [fst snd en_wal]. split_and!; try done; lia.
Qed.

(** The table in memory takes the mutation. *)
Lemma set_active_eq (st : State T) active e w r s' :
  set_state (mkState active (st_active_logs st) (st_frozen st) (st_levels st)) (e, w) = (r, s') ->
  r = Ok tt /\ exists e1, s' = (e1, w) /\ en_wal e1 = en_wal e /\ en_snapshot e1 = en_snapshot e /\
    en_next_number e1 = en_next_number e /\ en_state e1 = mkState active (st_active_logs st) (st_frozen st) (st_levels st).
Proof. unfold set_state, modify. intros [= <- <-]. split; [done|]. eexists. split; [reflexivity|]. done. Qed.

(** A write that is accepted is the newest mutation of its key; one that is refused
    may have been accepted all the same, when what failed is the rotation after it. *)
Lemma write_inv key value e w r s' told :
  engine_inv e told -> has_room (st_active (en_state e)) (wl_last_seq (en_wal e) + 1) -> wl_last_seq (en_wal e) < u64_max ->
  numbers_left e -> typed (fst s') -> engine_write key value (e, w) = (r, s') ->
  let told' := <[key := (wl_last_seq (en_wal e) + 1, value)]> told in
  engine_inv (fst s') told' \/ (engine_inv (fst s') told /\ r <> Ok tt).
Proof.
  intros Hinv Hroom Hlt Hleft Hty Hs told'. unfold engine_write in Hs.
  apply stm_bind_cases in Hs as [(berr & s1 & (e1 & [= ->] & -> & Hq)%take_background_eq & Hs)|(err & (e1 & ? & _)%take_background_eq & _)]; [|done].
  pose proof (quiet_inv _ _ _ _ Hinv Hq) as Hinv1. destruct Hq as [Q1 Q2 Q3 Q4 Q5].
  destruct (en_background_error e) as [err|]; [injection Hs as <- <-; by right|].
  pose proof Hinv1 as [Htidy Hseq _ _ _ _]. rewrite <- Q1 in Hlt. unfold told'. rewrite <- Q1. clear told'.
  apply stm_bind_cases in Hs as [(seq & [e2 w2] & Hl & Hs)|(err & Hl & ->)];
    apply log_append_spec in Hl as ((L1 & L2 & L3 & L4) & Ht2 & Hl2 & Hr2); try done; try lia; cbn [fst] in *.
  2:{ right. split; [|done]. eapply inv_with_wal; [exact Hinv1|done|lia|done|done|lia]. }
  destruct (Hr2 seq eq_refl) as [Eseq Els].
  apply stm_bind_cases in Hs as [(st & s1 & [[= ->] ->]%gete_eq & Hs)|(err & [? _]%gete_eq & _)]; [|done]. cbn [fst] in Hs.
  apply stm_bind_cases in Hs as [([] & s1 & (_ & e3 & -> & S1 & S2 & S3 & S4)%set_active_eq & Hs)|(err & [? _]%set_active_eq & _)]; [|done].
  destruct (insert_returns e1 told key seq value Hinv1) as [newest En]; [by rewrite Q3, Eseq, Q1|lia|].
  rewrite L1, En, expect_bind in Hs. rewrite L1 in S4.
  apply stm_bind_cases in Hs as [(cfg & s1 & [[= ->] ->]%gete_eq & Hs)|(err & [? _]%gete_eq & _)]; [|done].
  assert (engine_inv e3 (<[key := (wl_last_seq (en_wal e1) + 1, value)]> told)) as Hinv3.
  { rewrite <- Eseq. eapply (insert_told e1); rewrite ?S1, ?S2, ?S3; try done; [by rewrite Q3, Eseq, Q1|lia]. }
  left. destruct (cf_memtable_bytes _ <=? _); [|injection Hs as <- <-; exact Hinv3].
  eapply (rotate_inv _ e3); [exact Hinv3| |exact Hty|exact Hs].
  revert Hleft. unfold numbers_left, all_entries. rewrite S4, S3, L3, Q3. cbn [st_levels]. lia.
Qed.
(** ** Compacting *)

(** Looking the plan's inputs up finds them all. *)
Lemma find_inputs sn next levels (metas : list FileMeta) :
  shape_ok sn next levels -> (forall f, f ∈ metas -> f ∈ sn_files sn) ->
  exists ts : list Table, omap (fun meta => find_table levels (fm_number meta)) metas = tb_table <$> ts /\
    tb_meta <$> ts = metas /\ forall t, t ∈ ts -> t ∈ concat levels.
Proof.
  intros Hshape. induction metas as [|f metas IH]; intros Hin.
  { exists []. split_and!; [done..|]. by intros t ?%elem_of_nil. }
  destruct IH as (ts & E1 & E2 & E3); [intros g Hg; apply Hin; by right|].
  pose proof (Hin f ltac:(left)) as Hf. rewrite (so_files _ _ _ Hshape) in Hf. apply list_elem_of_fmap in Hf as (t & -> & Ht).
  exists (t :: ts).
  assert (List.find (fun table => fm_number (tb_meta table) =? fm_number (tb_meta t)) (concat levels) = Some t) as Hfind.
  { destruct (List.find _ (concat levels)) as [u|] eqn:E.
    - apply find_some in E as [Hu En%Z.eqb_eq]. apply list_elem_of_In in Hu. f_equal.
      apply list_elem_of_lookup in Hu as [i Hi], Ht as [j Hj].
      assert (i = j) as <-; [|congruence]. eapply (NoDup_lookup _ i j); [apply (so_numbers _ _ _ Hshape)|..];
        rewrite list_lookup_fmap; [by rewrite Hi|by rewrite Hj; unfold number_of; cbn; rewrite En].
    - exfalso. apply list_elem_of_In in Ht. pose proof (find_none _ _ E t Ht) as En. cbn in En. by rewrite Z.eqb_refl in En. }
  split_and!.
  - cbn [omap list_omap]. unfold find_table at 1. rewrite Hfind. cbn. by rewrite E1.
  - by rewrite fmap_cons, E2.
  - intros u [->|Hu]%elem_of_cons; [done|auto].
Qed.

Lemma consumes_found levels sn next p (ts : list Table) t :
  shape_ok sn next levels -> tb_meta <$> ts = pl_inputs p -> (forall t, t ∈ ts -> t ∈ concat levels) ->
  t ∈ concat levels -> consumes p t <-> t ∈ ts.
Proof.
  intros Hshape Hts Hin Ht. unfold consumes, input_numbers. rewrite <- Hts, <- list_fmap_compose. split.
  - intros (u & E & Hu)%list_elem_of_fmap. pose proof (Hin u Hu) as Hu'.
    assert (t = u) as ->; [|done]. apply list_elem_of_lookup in Ht as [i Hi], Hu' as [j Hj].
    assert (i = j) as <-; [|congruence]. eapply (NoDup_lookup _ i j); [apply (so_numbers _ _ _ Hshape)|..];
      rewrite list_lookup_fmap; [by rewrite Hi|by rewrite Hj, E].
  - intros Htt. apply list_elem_of_fmap. by exists t.
Qed.

(** Consecutive pieces of sorted entries are a level. *)
Lemma pieces_sorted (level : list Table) :
  Forall table_ok level -> entries_sorted (concat (file_entries <$> level)) -> level_sorted level.
Proof.
  induction 1 as [|t level Ht HF IH]; intros Hs; [constructor|]. rewrite fmap_cons in Hs. cbn [concat] in Hs.
  apply entries_sorted_app in Hs as (Ht' & Hs & Hlt). constructor; [by apply IH|]. apply Forall_forall. intros u Hu.
  rewrite Forall_forall in HF. pose proof (HF u Hu) as Hu'. unfold before. rewrite (tk_hi t Ht), (tk_lo u Hu').
  pose proof (tk_some t Ht) as H1. destruct (exists_last H1) as (es & [k v] & E). rewrite E, last_key_snoc.
  pose proof (tk_some u Hu') as H2. destruct (file_entries u) as [|[k' v'] fs] eqn:E'; [done|]. cbn.
  apply (Hlt (k, v) (k', v')).
  - rewrite E. apply elem_of_app. right. left.
  - apply elem_of_level. exists u. split; [done|]. rewrite E'. left.
Qed.

(** Files [made] of consecutive pieces of sorted entries hold just those. *)
Lemma made_tables level outs ess :
  Forall2 (made level) outs ess -> entries_sorted (concat ess) -> seqs_ok (concat ess) ->
  (forall t, t ∈ outs -> st_bytes (tb_table t) <= u64_max) ->
  Forall table_ok outs /\ file_entries <$> outs = ess.
Proof.
  induction 1 as [|t es outs ess (_ & _ & Hm) _ IH]; intros Hs Hq Hb; [done|]. cbn [concat] in *.
  apply entries_sorted_app in Hs as (Hs1 & Hs2 & _). apply Forall_app in Hq as [Hq1 Hq2].
  destruct (Hm (Hb t ltac:(left)) Hs1 Hq1) as [H1 <-]. destruct IH as [H2 <-]; [done|done|intros u Hu; apply Hb; by right|].
  split; [by constructor|done].
Qed.

Lemma entries_sorted_filter (P : entry -> Prop) `{!forall x, Decision (P x)} es : entries_sorted es -> entries_sorted (filter P es).
Proof.
  induction 1 as [|en es Hs IH Hlt]; [constructor|]. rewrite filter_cons. destruct (decide (P en)); [|done].
  constructor; [done|]. rewrite Forall_forall in *. intros u [_ Hu]%list_elem_of_filter. auto.
Qed.

(** What the merge wrote, as [Shape] wants it. *)
Lemma merged_outputs sn next next' levels p (ts outs : list Table) (es : list entry) ess :
  shape_ok sn next levels -> tb_meta <$> ts = pl_inputs p -> (forall t, t ∈ ts -> t ∈ concat levels) ->
  entries_sorted es -> (forall en, en ∈ es -> newest_in (concat (file_entries <$> ts)) (fst en) (snd en)) ->
  (forall en, en ∈ concat (file_entries <$> ts) -> fst en ∈ es.*1) ->
  Forall2 (made (output_level p)) outs ess -> concat ess = filter (entry_kept sn (output_level p)) es ->
  NoDup (number_of <$> outs) -> (forall t, t ∈ outs -> next <= number_of t < next') ->
  (forall t, t ∈ outs -> st_bytes (tb_table t) <= u64_max) ->
  outputs_ok sn next (concat levels) p outs next'.
Proof.
  intros Hshape Hts Hin Hes Hnew Hall Hmade Hcat Hnd Hrg Hb.
  assert (forall k v, merge_input (concat levels) p k v <-> (k, v) ∈ concat (file_entries <$> ts)) as Hmi.
  { intros k v. rewrite elem_of_level. unfold merge_input. split.
    - intros (t & Ht & Hc & Hv). exists t. split; [|done]. by eapply consumes_found.
    - intros (t & Ht & Hv). exists t. split_and!; [auto| |done]. eapply consumes_found; eauto. }
  assert (entries_sorted (concat ess)) as Hso by (rewrite Hcat; by apply entries_sorted_filter).
  assert (seqs_ok (concat ess)) as Hq.
  { apply Forall_forall. intros [k v] Hv. rewrite Hcat in Hv. apply list_elem_of_filter in Hv as [_ Hv].
    destruct (Hnew _ Hv) as [Hv' _]. apply elem_of_level in Hv' as (t & Ht & Hv').
    pose proof (Hin t Ht) as (level & Hl & Hlt)%elem_of_concat.
    pose proof (lk_tables _ (so_levels _ _ _ Hshape)) as HF. rewrite Forall_forall in HF. specialize (HF level Hl).
    rewrite Forall_forall in HF. destruct (tk_holds t (HF t Hlt)) as (? & _ & _ & _ & _ & Hsq & _).
    unfold seqs_ok in Hsq. rewrite Forall_forall in Hsq. exact (Hsq _ Hv'). }
  destruct (made_tables _ _ _ Hmade Hso Hq Hb) as [Hok Eess].
  assert (forall t k v, t ∈ outs -> (k, v) ∈ file_entries t -> (k, v) ∈ es /\ entry_kept sn (output_level p) (k, v)) as Hfrom.
  { intros t k v Ht Hv. assert ((k, v) ∈ concat ess) as Hc by (rewrite <- Eess; apply elem_of_level; by exists t).
    rewrite Hcat in Hc. by apply list_elem_of_filter in Hc as [? ?]. }
  split; [done| | |done|done| |].
  - apply pieces_sorted; [done|]. by rewrite Eess.
  - intros t [i Ht]%list_elem_of_lookup. by destruct (Forall2_lookup_l _ _ _ _ _ Hmade Ht) as (? & _ & ? & _).
  - intros t k v Ht Hv. destruct (Hfrom t k v Ht Hv) as [He _]. destruct (Hnew _ He) as [H1 H2]. split; [by apply Hmi|].
    intros w Hw%Hmi. by apply H2.
  - intros k v Hv%Hmi. apply Hall in Hv as ([k' x] & E & Hx)%list_elem_of_fmap. cbn [fst] in E. subst k'.
    destruct (decide (entry_kept sn (output_level p) (k, x))) as [Hk|Hk]; [left|right].
    + assert ((k, x) ∈ concat ess) as Hc by (rewrite Hcat; by apply list_elem_of_filter).
      rewrite <- Eess in Hc. apply elem_of_level in Hc as (t & Ht & Hxt). by exists t, x.
    + destruct (Hnew _ Hx) as [H1 H2]. unfold entry_kept in Hk. cbn in H1, H2, Hk. destruct x as [s [b|]]; [exfalso; apply Hk; by left|].
      split_and!.
      * exists s. split; [by apply Hmi|]. intros w Hw%Hmi. by apply H2 in Hw.
      * intros t w Ht Hw. destruct (Hfrom t k w Ht Hw) as [Hw' Hkept].
        assert (w = (s, None)) as ->; [|by apply Hk; destruct Hkept; [left|right]].
        apply (find_entry_sorted es) in Hw', Hx; [congruence|done..].
      * destruct (tombstone_needed sn (output_level p) k); [exfalso; apply Hk; by right|done].
Qed.

Lemma inputs_in_files sn next levels p f : shape_ok sn next levels -> pl_inputs p = inputs_for sn (pl_level p) ->
  f ∈ pl_inputs p -> f ∈ sn_files sn.
Proof.
  intros _ -> [Hf%drained_at_level|[Hf _]]%inputs_for_spec; by apply list_elem_of_filter in Hf as [_ ?].
Qed.
(** The tables of the levels after a compaction. *)
Lemma compacted_tables n outs removed levels t : t ∈ concat (levels_insert n outs (levels_remove removed levels)) ->
  t ∈ outs \/ t ∈ concat levels.
Proof.
  unfold levels_insert, levels_remove. set (padded := (remove_tables removed <$> levels) ++ _).
  assert (forall u, u ∈ concat padded -> u ∈ concat levels) as Hp.
  { intros u. unfold padded. rewrite concat_app, elem_of_app. intros [Hu|Hu].
    - apply elem_of_concat in Hu as (? & (level & -> & Hl)%list_elem_of_fmap & [_ Hu]%list_elem_of_filter). apply elem_of_concat. by exists level.
    - apply elem_of_concat in Hu as (? & [-> _]%elem_of_replicate & Hu). by apply elem_of_nil in Hu. }
  intros (level & [m Hm]%list_elem_of_lookup & Ht)%elem_of_concat. destruct (decide (m = n)) as [->|Hne].
  - rewrite list_lookup_alter_eq in Hm. destruct (padded !! n) as [l|] eqn:E; [|done]. injection Hm as <-.
    rewrite (sort_by_perm min_key_le (l ++ outs)) in Ht. apply elem_of_app in Ht as [Ht|Ht]; [right|by left].
    apply Hp, elem_of_concat. exists l. split; [|done]. by apply list_elem_of_lookup_2 in E.
  - rewrite list_lookup_alter_ne in Hm by done. right. apply Hp, elem_of_concat. exists level. split; [|done].
    by apply list_elem_of_lookup_2 in Hm.
Qed.

(** ** A compaction published over tables flushed since it was planned *)

Section Since.
Context (sn0 : Snapshot) (n0 : Z) (levels : list (list Table)) (fresh : list Table) (sn : Snapshot) (next : Z).
Context (Hshape0 : shape_ok sn0 n0 levels) (Hshape : shape_ok sn next (alter (app fresh) 0%nat levels)).
Context (p : Plan) (Hlv : 0 <= pl_level p) (Hin : pl_inputs p = inputs_for sn0 (pl_level p)).

Lemma concat_fresh : concat (alter (app fresh) 0%nat levels) = fresh ++ concat levels.
Proof using Hshape0.
  clear Hshape. pose proof (lk_some _ (so_levels _ _ _ Hshape0)) as Hne. destruct levels as [|l0 deeper]; [done|]. cbn. by rewrite app_assoc.
Qed.

Lemma fresh_apart t u : t ∈ fresh -> u ∈ concat levels -> number_of t <> number_of u.
Proof.
  intros Ht Hu E. pose proof (so_numbers _ _ _ Hshape) as Hnd. rewrite concat_fresh, fmap_app in Hnd.
  apply NoDup_app in Hnd as (_ & Hnd & _). apply (Hnd (number_of t)); [by apply list_elem_of_fmap_2|]. rewrite E. by apply list_elem_of_fmap_2.
Qed.

Lemma fresh_kept t : t ∈ fresh -> number_of t ∉ input_numbers p.
Proof.
  intros Ht (f & E & Hf)%list_elem_of_fmap. apply (inputs_in_files _ _ _ _ _ Hshape0 Hin) in Hf.
  rewrite (so_files _ _ _ Hshape0) in Hf. apply list_elem_of_fmap in Hf as (u & -> & Hu). by apply (fresh_apart t u).
Qed.

Lemma since_levels outs :
  levels_insert (Z.to_nat (output_level p)) outs (levels_remove (input_numbers p) (alter (app fresh) 0%nat levels)) =
  alter (app fresh) 0%nat (levels_insert (Z.to_nat (output_level p)) outs (levels_remove (input_numbers p) levels)).
Proof.
  pose proof (lk_some _ (so_levels _ _ _ Hshape0)) as Hne. pose proof fresh_kept as Hk. destruct levels as [|l0 deeper]; [done|].
  assert (remove_tables (input_numbers p) (fresh ++ l0) = fresh ++ remove_tables (input_numbers p) l0) as Er.
  { unfold remove_tables. rewrite filter_app. f_equal. clear -Hk. induction fresh as [|t ts IH]; [done|].
    rewrite filter_cons, decide_True by (apply Hk; left). f_equal. apply IH. intros u Hu. apply Hk. by right. }
  unfold levels_insert, levels_remove. replace (Z.to_nat (output_level p)) with (S (Z.to_nat (pl_level p))) by (unfold output_level; lia).
  cbn. by rewrite Er, length_fmap.
Qed.

Lemma compaction_published_since n1 outs last_seq number X :
  0 <= n0 <= n1 -> outputs_ok sn0 n0 (concat levels) p outs n1 -> n1 <= next ->
  (forall t u, t ∈ fresh -> u ∈ outs -> number_of t <> number_of u) ->
  let levels' := levels_insert (Z.to_nat (output_level p)) outs (levels_remove (input_numbers p) (alter (app fresh) 0%nat levels)) in
  kept (X ++ file_layers (alter (app fresh) 0%nat levels)) (X ++ file_layers levels') /\
  shape_ok (mkSnapshot (filter (fun file => fm_number file ∉ input_numbers p) (sn_files sn) ++ (tb_meta <$> outs)) last_seq number)
    next levels'.
Proof.
  intros Hn Houts Hle Hap levels'. unfold levels'. rewrite since_levels.
  destruct (compaction_published sn0 n0 n1 levels p outs last_seq number (X ++ (table_map <$> fresh)) Hshape0 Hlv Hin Hn Houts) as [Hkept Hc].
  assert (file_layers (alter (app fresh) 0%nat levels) = (table_map <$> fresh) ++ file_layers levels) as E0.
  { pose proof (lk_some _ (so_levels _ _ _ Hshape0)) as Hne. destruct levels as [|l0 deeper]; [done|]. cbn. by rewrite fmap_app, app_assoc. }
  edestruct (tables_published _ (mkSnapshot (filter (fun file => fm_number file ∉ input_numbers p) (sn_files sn) ++ (tb_meta <$> outs)) last_seq number)
    next _ fresh (shape_later _ _ next _ Hc Hle)) as [Hs El]; [..|split; [|exact Hs]].
  - pose proof (lk_tables _ (so_levels _ _ _ Hshape)) as Ht. pose proof (lk_some _ (so_levels _ _ _ Hshape0)) as Hne.
    destruct levels as [|l0 deeper]; [done|]. cbn in Ht. inversion_clear Ht as [|? ? H1 _]. by apply Forall_app in H1 as [? _].
  - apply Forall_forall. intros t Ht. pose proof (lk_some _ (so_levels _ _ _ Hshape0)) as Hne. pose proof (so_place _ _ _ Hshape 0%nat) as Hp.
    destruct levels as [|l0 deeper]; [done|]. apply (Hp (fresh ++ l0)); [done|]. apply elem_of_app. by left.
  - pose proof (so_numbers _ _ _ Hshape) as Hnd. rewrite concat_fresh, fmap_app in Hnd. by apply NoDup_app in Hnd as [? _].
  - intros t Ht. apply (so_next _ _ _ Hshape). rewrite concat_fresh. apply elem_of_app. by left.
  - intros t u Ht [Hu|Hu]%compacted_tables; [by apply Hap|by apply fresh_apart].
  - cbn [sn_files]. rewrite (so_files _ _ _ Hshape), concat_fresh, fmap_app, <- (so_files _ _ _ Hshape0).
    rewrite filter_app, <- app_assoc. f_equiv. pose proof fresh_kept as Hk. clear -Hk. induction fresh as [|t ts IH]; [done|].
    rewrite fmap_cons, filter_cons, decide_True by (apply Hk; left). f_equiv. apply IH. intros u Hu. apply Hk. by right.
  - rewrite El, E0, !app_assoc. by rewrite <- !app_assoc in *.
Qed.
End Since.

(** The tables of the levels after an insertion. *)
Lemma levels_insert_elem n outs levels t :
  t ∈ outs \/ t ∈ concat levels -> t ∈ concat (levels_insert n outs levels).
Proof.
  intros Ht. unfold levels_insert. set (padded := levels ++ _).
  assert (t ∈ outs \/ t ∈ concat padded) as Ht'.
  { destruct Ht as [Ht|Ht]; [by left|right]. unfold padded. rewrite concat_app. apply elem_of_app. by left. }
  destruct (lookup_lt_is_Some_2 padded n) as [l Hl]; [unfold padded; rewrite length_app, length_replicate; lia|].
  assert (t ∈ outs \/ t ∈ l -> t ∈ concat (alter (fun l => sort_by min_key_le (l ++ outs)) n padded)) as Hnew.
  { intros Hin. apply elem_of_concat. exists (sort_by min_key_le (l ++ outs)). split.
    - apply list_elem_of_lookup. exists n. by rewrite list_lookup_alter_eq, Hl.
    - rewrite (sort_by_perm min_key_le (l ++ outs)). apply elem_of_app. tauto. }
  destruct Ht' as [Ht'|(k & [m Hm]%list_elem_of_lookup & Htk)%elem_of_concat]; [by apply Hnew; left|].
  destruct (decide (m = n)) as [->|Hne]; [apply Hnew; right; congruence|].
  apply elem_of_concat. exists k. split; [|done]. apply list_elem_of_lookup. exists m. by rewrite list_lookup_alter_ne.
Qed.

(** Level sizes aside, what a compaction sees of the configuration. *)
Definition plan_of e : option Plan :=
  plan (en_snapshot e) (cf_l0_trigger (en_config e)) (level_bytes e) (cf_fanout (en_config e)).

(** What a compaction was planned on, and the tables flushed since. *)
Record planned e (p : Plan) (sn0 : Snapshot) (n0 : Z) (levels : list (list Table)) (fresh : list Table) : Prop := {
  pd_shape : shape_ok sn0 n0 levels;
  pd_next : 0 <= n0 <= en_next_number e;
  pd_level : 0 <= pl_level p;
  pd_inputs : pl_inputs p = inputs_for sn0 (pl_level p);
  pd_levels : st_levels (en_state e) = alter (app fresh) 0%nat levels;
}.

Lemma planned_now e told p : engine_inv e told -> plan_of e = Some p ->
  planned e p (en_snapshot e) (en_next_number e) (st_levels (en_state e)) [].
Proof.
  intros [_ _ Hn Hshape _ _] (Hpl & Hpi & _)%plan_level. split; [done|lia|done|done|]. by destruct (st_levels (en_state e)).
Qed.

Lemma find_app {A} (f : A -> bool) l k :
  List.find f (l ++ k) = match List.find f l with Some x => Some x | None => List.find f k end.
Proof. induction l as [|x l IH]; [done|]. cbn. by destruct (f x). Qed.

(** The inputs of the plan are found, also after later flushes. *)
Lemma planned_inputs e told p sn0 n0 levels fresh : engine_inv e told -> planned e p sn0 n0 levels fresh ->
  exists ts, omap (fun meta => find_table (st_levels (en_state e)) (fm_number meta)) (pl_inputs p) = tb_table <$> ts /\
    tb_meta <$> ts = pl_inputs p /\ forall t, t ∈ ts -> t ∈ concat levels.
Proof.
  intros [_ _ _ Hshape _ _] [P1 P2 P3 P4 P5]. rewrite P5 in Hshape |- *.
  destruct (find_inputs sn0 n0 levels (pl_inputs p) P1) as (ts & Ef & Et & Hin); [intros f; by eapply inputs_in_files|].
  exists ts. split; [|done]. rewrite <- Ef. apply list_omap_ext, Forall_Forall2_diag, Forall_forall. intros f Hf. unfold find_table.
  rewrite (concat_fresh sn0 n0 levels fresh P1), find_app. destruct (List.find _ fresh) as [t|] eqn:E; [|done].
  apply find_some in E as [Ht%list_elem_of_In En%Z.eqb_eq]. exfalso.
  apply (fresh_kept sn0 n0 levels fresh _ _ P1 Hshape p P4 t Ht). unfold number_of. rewrite En. unfold input_numbers. by apply list_elem_of_fmap_2.
Qed.

(** The inputs can be scanned. *)
Lemma inputs_hold sn next levels ts : shape_ok sn next levels -> (forall t, t ∈ ts -> t ∈ concat levels) ->
  Forall2 sst_holds (tb_table <$> ts) (file_entries <$> ts).
Proof.
  intros Hshape Hts. apply Forall2_fmap_2, Forall_Forall2_diag, Forall_forall. intros t Ht.
  pose proof (Hts t Ht) as (level & Hl & Hlt)%elem_of_concat. pose proof (lk_tables _ (so_levels _ _ _ Hshape)) as HF.
  rewrite Forall_forall in HF. specialize (HF level Hl). rewrite Forall_forall in HF. apply (tk_holds t (HF t Hlt)).
Qed.

(** The merge of a plan. *)
Lemma write_merged_planned e w told p sn0 n0 levels fresh ts r s' :
  engine_inv e told -> planned e p sn0 n0 levels fresh -> numbers_left e ->
  tb_meta <$> ts = pl_inputs p -> (forall t, t ∈ ts -> t ∈ concat levels) ->
  write_merged p sn0 (tb_table <$> ts) (e, w) = (r, s') ->
  quiet (zlen (all_entries e)) e (fst s') /\ r <> Ok None /\ forall outs, r = Ok (Some outs) ->
    (forall t, t ∈ outs -> en_next_number e <= number_of t < en_next_number (fst s')) /\
    ((forall t, t ∈ outs -> st_bytes (tb_table t) <= u64_max) -> outputs_ok sn0 n0 (concat levels) p outs (en_next_number (fst s'))).
Proof.
  intros [_ _ Hn Hshape _ _] [P1 P2 P3 P4 P5] Hleft Et Hts Hs.
  apply (write_merged_spec p _ _ _ (all_entries e) _ _ _ _ (inputs_hold _ _ _ _ P1 Hts)) in Hs as (Hq & Hnone & Hm); [| |done|unfold numbers_left in Hleft; lia].
  2:{ intros [k v] Hen. apply elem_of_level in Hen as (t & Ht & Hv). apply elem_of_level. exists t. split; [|done].
      rewrite P5, (concat_fresh sn0 n0 levels fresh P1). apply elem_of_app. right. by apply Hts. }
  split_and!; [done|done|]. intros outs Ho. destruct (Hm outs Ho) as (es & ess & Hes & Hnew & Hall & Hmade & Hcat & Hnd & Hrg).
  split; [done|]. intros Hlen. eapply merged_outputs; try done. intros t Ht. specialize (Hrg t Ht). lia.
Qed.

(** The commit of a compaction. *)
Lemma compaction_committed e w told p sn0 n0 levels fresh outs n1 r s' :
  engine_inv e told -> planned e p sn0 n0 levels fresh -> outputs_ok sn0 n0 (concat levels) p outs n1 -> n0 <= n1 <= en_next_number e ->
  (forall t u, t ∈ fresh -> u ∈ outs -> number_of t <> number_of u) ->
  commit (tb_meta <$> outs) (input_numbers p) (publish_compaction (input_numbers p) (output_level p) outs) (e, w) = (r, s') ->
  match r with
  | Ok _ => engine_inv (fst s') told /\ en_state (fst s') = publish_compaction (input_numbers p) (output_level p) outs (en_state e) /\
      en_wal (fst s') = en_wal e /\ en_next_number (fst s') = en_next_number e /\
      forall b, files_below b (en_state e) -> files_below b (en_state (fst s'))
  | Err _ => fst s' = e
  end.
Proof.
  intros Hinv [P1 P2 P3 P4 P5] Houts Hn1 Hap Hc.
  pose proof Hinv as [Htidy Hseq Hnext Hshape Htold (A & Fs & Hst & Hord & Hag & Hwi)].
  apply commit_cases in Hc as [[[err ->] Hc]|(-> & C1 & C2 & C3 & C4 & (ls & nb & C5))]; [done|].
  unfold layers_of in *. rewrite P5 in Hshape, Hord, Hag, Hwi.
  assert (forall X, kept (X ++ file_layers (st_levels (en_state e))) (X ++ file_layers (st_levels (en_state (fst s')))) /\
    shape_ok (en_snapshot (fst s')) (en_next_number e) (st_levels (en_state (fst s')))) as Hpub.
  { intros X. rewrite C4, C5, P5. cbn [publish_compaction st_levels]. rewrite P5.
    apply (compaction_published_since sn0 n0 levels fresh _ _ P1 Hshape p P3 P4 n1); [lia|exact Houts|lia|exact Hap]. }
  rewrite <- P5 in Hshape, Hord, Hag, Hwi. destruct (Hpub (A :: Fs)) as [Hk Hshape']. destruct (Hk Hord) as (Ho' & Ha' & Hd').
  split_and!; [|exact C4|done|done|].
  - split; unfold holds_told; rewrite ?C1, ?C2; try done. exists A, Fs. unfold layers_of. rewrite C4 in *. cbn [publish_compaction st_levels] in *.
    destruct Hst as [Ha Hfz Hlk]. split_and!; [split; [done|done|apply Hshape']|done|by eapply agrees_trans|by eapply within_kept].
  - intros b Hb A1 Fs1 Hst1. destruct (Hpub []) as [Hk0 _]. cbn [app] in Hk0. destruct Hk0 as (_ & _ & Hd).
    { by apply (layers_ordered_app (A :: Fs)) in Hord as (_ & ? & _). }
    assert (state_holds (en_state e) A1 Fs1) as Hb1%Hb.
    { destruct Hst as [_ _ Hlk], Hst1 as [Ha1 Hf1 _]. rewrite C4 in Ha1, Hf1. by split. }
    intros m k v [Hm|Hm]%elem_of_app Hv; [by apply (Hb1 m k v); [apply elem_of_app; left|]|].
    destruct (Hd m k v Hm Hv) as (m' & Hm' & Hv'). by apply (Hb1 m' k); [apply elem_of_app; right|].
Qed.

(** What a compaction that went through leaves. *)
Definition compacted e e' : Prop := exists p outs n1, plan_of e = Some p /\
  outputs_ok (en_snapshot e) (en_next_number e) (concat (st_levels (en_state e))) p outs n1 /\
  st_levels (en_state e') = levels_insert (Z.to_nat (output_level p)) outs (levels_remove (input_numbers p) (st_levels (en_state e))) /\
  en_config e' = en_config e.

(** One compaction, whatever comes of it. It never runs out of fuel, it says there
    was nothing to do only when nothing was planned, and it says that it went through
    only when the merge of a plan took the place of its inputs. *)
Lemma compact_once_does e w r s' told :
  engine_inv e told -> numbers_left e -> typed (fst s') -> compact_once (e, w) = (r, s') ->
  engine_inv (fst s') told /\ r <> Ok None /\ (r = Ok (Some false) -> plan_of e = None /\ s' = (e, w)) /\
  (r = Ok (Some true) -> compacted e (fst s')).
Proof.
  intros Hinv Hleft [_ Hty] Hs. pose proof (ei_next _ _ Hinv) as Hn. pose proof (zlen_nonneg (all_entries e)).
  unfold compact_once in Hs.
  apply stm_bind_cases in Hs as [(sn & s1 & [[= ->] ->]%gete_eq & Hs)|(err & [? _]%gete_eq & _)]; [|done].
  apply stm_bind_cases in Hs as [(cfg & s1 & [[= ->] ->]%gete_eq & Hs)|(err & [? _]%gete_eq & _)]; [|done].
  apply stm_bind_cases in Hs as [(lb & s1 & [[= ->] ->]%gete_eq & Hs)|(err & [? _]%gete_eq & _)]; [|done]. cbn [fst] in Hs.
  fold (plan_of e) in Hs. destruct (plan_of e) as [p|] eqn:Ep; [|injection Hs as <- <-; by split_and!].
  pose proof (planned_now _ _ _ Hinv Ep) as Hpd.
  apply stm_bind_cases in Hs as [(st & s1 & [[= ->] ->]%gete_eq & Hs)|(err & [? _]%gete_eq & _)]; [|done]. cbn [fst] in Hs.
  destruct (planned_inputs _ _ _ _ _ _ _ Hinv Hpd) as (ts & Efind & Ets & Hts).
  rewrite Efind in Hs. assert (length (tb_table <$> ts) = length (pl_inputs p)) as Elen by (rewrite <- Ets; by rewrite !length_fmap).
  rewrite Elen, Nat.eqb_refl in Hs. cbn [negb] in Hs.
  apply stm_bind_cases in Hs as [(merged & [e1 w1] & Hm & Hs)|(err & Hm & ->)];
    apply (write_merged_planned _ _ _ _ _ _ _ _ _ _ _ Hinv Hpd Hleft Ets Hts) in Hm as (Hq & Hnone & Hm); cbn [fst] in *.
  2:{ split_and!; [by eapply quiet_inv|done..]. }
  destruct merged as [outs|]; [|done]. destruct (Hm outs eq_refl) as [Hrg Houts]. pose proof (quiet_inv _ _ _ _ Hinv Hq) as Hinv1.
  apply stm_bind_cases in Hs as [(dir & s1 & [[= ->] ->]%gete_eq & Hs)|(err & [? _]%gete_eq & _)]; [|done]. cbn [fst] in Hs.
  apply stm_bind_cases in Hs as [([] & s1 & (w2 & _ & ->)%on_disk_eq & Hs)|(err & (w2 & _ & ->)%on_disk_eq & ->)]; [|by split_and!].
  apply stm_bind_cases in Hs as [([] & [e2 w3] & Hc & Hs)|(err & Hc & ->)].
  2:{ apply commit_cases in Hc as [[_ ->]|[? _]]; [by split_and!|done]. }
  assert (quiet 0 e2 (fst s') /\ r <> Ok None /\ r <> Ok (Some false)) as (Hq2 & Hr1 & Hr2).
  { apply stm_bind_cases in Hs as [([] & s1 & (w4 & _ & ->)%on_disk_eq & Hs)|(err & (w4 & _ & ->)%on_disk_eq & ->)];
      [|split_and!; [by apply quiet_refl|done|done]].
    unfold mark_progress, gete, gets, set_queue, modify in Hs. unfold mbind, stm_bind in Hs. injection Hs as <- <-.
    split_and!; [|done|done]. split; try done. cbn. lia. }
  assert (planned e1 p (en_snapshot e) (en_next_number e) (st_levels (en_state e)) []) as Hpd1.
  { destruct Hpd as [P1 P2 P3 P4 P5], Hq as [Q1 Q2 Q3 Q4 Q5]. split; [done|lia|done|done|by rewrite Q3]. }
  assert (en_state e2 = publish_compaction (input_numbers p) (output_level p) outs (en_state e1) /\ en_config e2 = en_config e1) as [Est Ecf].
  { by apply commit_cases in Hc as [[[? ?] _]|(_ & _ & _ & ? & ? & _)]. }
  assert (outputs_ok (en_snapshot e) (en_next_number e) (concat (st_levels (en_state e))) p outs (en_next_number e1)) as Hout.
  { apply Houts. intros t Ht. apply Hty. rewrite (qt_state _ _ _ Hq2), Est. apply levels_insert_elem. by left. }
  apply (compaction_committed _ _ _ _ _ _ _ _ _ (en_next_number e1) _ _ Hinv1 Hpd1) in Hc as [Hinv2 _];
    [|done|destruct Hq as [_ _ _ _ Q5]; lia|by intros t u ?%elem_of_nil].
  split_and!; [exact (quiet_inv _ _ _ _ Hinv2 Hq2)|done|done|]. intros _. exists p, outs, (en_next_number e1). split_and!; [done|done| |].
  - rewrite (qt_state _ _ _ Hq2), Est. cbn [publish_compaction st_levels]. by rewrite (qt_state _ _ _ Hq).
  - by rewrite (qt_config _ _ _ Hq2), Ecf, (qt_config _ _ _ Hq).
Qed.

Lemma compact_once_inv e w r s' told :
  engine_inv e told -> numbers_left e -> typed (fst s') -> compact_once (e, w) = (r, s') ->
  engine_inv (fst s') told /\ r <> Ok None /\ (r = Ok (Some false) -> plan_of e = None /\ s' = (e, w)).
Proof. intros Hinv Hleft Hty Hs. by destruct (compact_once_does e w r s' told Hinv Hleft Hty Hs) as (? & ? & ? & _). Qed.
End Engines.
