(* ===== verification/Runs.v ===== *)
(** * The store is a map

    The abstract specification of the store, a finite map from keys to values, and
    the refinement: any run of client calls and background turns over a store that
    starts empty answers as the map does, whichever calls to the system fail on the
    way. A call that reports an error may or may not have taken effect; nothing
    else is left open. *)

From S2P Require Import Prelude WalRecord WalReplay Wal WalAlone Memtable SsTable Disk Manifest Naming.
From S2P Require Import Compaction Layers Engine Store Shape EngineSpec Btree.

(** ** The specification *)

(** What a client asks of a store, and the turns its background thread takes. *)
Inductive Op :=
  | OpWrite (key : bytes) (value : option bytes)
  | OpGet (key : bytes)
  | OpSync
  | OpRotate (min_bytes : Z)
  | OpTurn (fuel : nat).

Inductive Answer :=
  | Done (r : result unit)
  | Value (r : result (option bytes)).

Definition map_write (key : bytes) (value : option bytes) (m : gmap bytes bytes) : gmap bytes bytes :=
  match value with
  | Some value => <[key := value]> m
  | None => delete key m
  end.

(** What the map allows each operation to answer, and to become. An operation can
    answer with the error of a system call: a read then has no effect, a write may
    have had its own. *)
Definition map_step (op : Op) (a : Answer) (m m' : gmap bytes bytes) : Prop :=
  match op, a with
  | OpGet key, Value r => (r = Ok (m !! key) \/ io_failed r) /\ m' = m
  | OpWrite key value, Done r => m' = map_write key value m \/ (m' = m /\ r <> Ok tt)
  | OpSync, Done _ | OpRotate _, Done _ | OpTurn _, Done _ => m' = m
  | _, _ => False
  end.

Fixpoint map_run (ops : list Op) (answers : list Answer) (m m' : gmap bytes bytes) : Prop :=
  match ops, answers with
  | [], [] => m' = m
  | op :: ops, a :: answers => exists m1, map_step op a m m1 /\ map_run ops answers m1 m'
  | _, _ => False
  end.

(** The map a store has been told. *)
Definition map_of (told : layer) : gmap bytes bytes := omap snd told.

Lemma map_of_lookup told key : map_of told !! key = value_of (told !! key).
Proof. unfold map_of. rewrite lookup_omap. by destruct (told !! key). Qed.

Lemma map_of_insert told key seq value : map_of (<[key := (seq, value)]> told) = map_write key value (map_of told).
Proof.
  apply map_eq. intros k. rewrite map_of_lookup. destruct (decide (k = key)) as [->|Hne].
  - rewrite lookup_insert_eq. destruct value; cbn; [by rewrite lookup_insert_eq|by rewrite lookup_delete_eq].
  - rewrite lookup_insert_ne by done. destruct value; cbn; [rewrite lookup_insert_ne by done|rewrite lookup_delete_ne by done];
      by rewrite map_of_lookup.
Qed.

(** ** The store *)

Section Runs.
Context {T : Type} `{MemtableLaws T}.
Implicit Types (e : Engine T) (w : World) (s : Engine T * World).

Definition run_op (op : Op) s : Answer * (Engine T * World) :=
  match op with
  | OpWrite key value => let '(r, s) := engine_write key value s in (Done r, s)
  | OpGet key => let '(r, s) := engine_get key s in (Value r, s)
  | OpSync => let '(r, s) := engine_sync s in (Done r, s)
  | OpRotate min_bytes => let '(r, s) := rotate min_bytes s in (Done r, s)
  | OpTurn fuel => let '(r, s) := flusher_turn fuel s in (Done r, s)
  end.

Fixpoint run_ops (ops : list Op) s : list Answer * (Engine T * World) :=
  match ops with
  | [] => ([], s)
  | op :: ops =>
      let '(a, s) := run_op op s in
      let '(answers, s) := run_ops ops s in
      (a :: answers, s)
  end.

(** The limits of the machine: sequence numbers and file numbers are not used up,
    lengths fit their types, and a table of fixed size has room. *)
Definition in_limits e : Prop :=
  has_room (st_active (en_state e)) (wl_last_seq (en_wal e) + 1) /\ wl_last_seq (en_wal e) < u64_max /\ numbers_left e /\ typed e.

Fixpoint compactions_in_limits (fuel : nat) s : Prop :=
  in_limits (fst s) /\
  match fuel with
  | O => True
  | S fuel => in_limits (fst (snd (compact_once s))) /\ compactions_in_limits fuel (snd (compact_once s))
  end.

(** At every moment of a run; a read needs nothing. *)
Definition op_in_limits (op : Op) s : Prop :=
  match op with
  | OpGet _ => True
  | OpTurn fuel => in_limits (fst s) /\ in_limits (fst (snd (run_op op s))) /\ compactions_in_limits fuel (snd (next_task s))
  | _ => in_limits (fst s) /\ in_limits (fst (snd (run_op op s)))
  end.

Fixpoint run_in_limits (ops : list Op) s : Prop :=
  match ops with
  | [] => True
  | op :: ops => op_in_limits op s /\ run_in_limits ops (snd (run_op op s))
  end.

Lemma sync_inv e w r s' told : engine_inv e told -> engine_sync (e, w) = (r, s') -> engine_inv (fst s') told.
Proof.
  intros Hinv. destruct (wal_sync_ends (en_wal e) w (ei_tidy _ _ Hinv)) as (ra & wal & wa & Ha & Hta & Hla).
  unfold engine_sync. rewrite Ha. intros [= _ <-]. unfold set_wal, modify. cbn [fst snd].
  pose proof (ei_seq _ _ Hinv). eapply inv_with_wal; [exact Hinv|..]; cbn [en_wal en_state en_snapshot en_next_number]; try done; lia.
Qed.

Lemma compact_all_inv told : forall fuel e w r s',
  engine_inv e told -> compactions_in_limits fuel (e, w) -> compact_all fuel (e, w) = (r, s') -> engine_inv (fst s') told.
Proof.
  induction fuel as [|fuel IH]; intros e w r s' Hinv Hlim Hs; cbn [compact_all] in Hs; [by injection Hs as <- <-|].
  destruct Hlim as [(_ & _ & Hleft & _) [(_ & _ & _ & Hty) Hlim]]. cbn [fst] in Hleft.
  destruct (compact_once (e, w)) as [r1 [e1 w1]] eqn:E. cbn [fst snd] in Hty, Hlim.
  pose proof (compact_once_inv e w r1 (e1, w1) told Hinv Hleft Hty E) as (Hinv1 & _).
  unfold mbind, stm_bind in Hs. rewrite E in Hs. destruct r1 as [[[|]|]|err].
  - by eapply IH.
  - by injection Hs as <- <-.
  - by injection Hs as <- <-.
  - by injection Hs as <- <-.
Qed.

Lemma next_task_eq e w r s' : next_task (e, w) = (r, s') ->
  exists e1, s' = (e1, w) /\ quiet 0 e e1 /\
    forall frozen, r = Ok (Some (TaskFlush frozen)) -> last (st_frozen (en_state e)) = Some frozen /\ e1 = e.
Proof.
  unfold next_task, gete, gets, set_queue, modify. unfold mbind, stm_bind. cbn [fst].
  destruct (en_shutdown e); [intros [= <- <-]; exists e; split_and!; [done|by apply quiet_refl|done]|].
  destruct (0 <? en_pending e); [destruct (last (st_frozen (en_state e))) as [fz|]|]; try destruct (en_shape_changed e);
    intros [= <- <-]; eexists; (split; [reflexivity|]); (split; [split; try done; cbn; lia|]); try done; by intros ? [= <-].
Qed.

Lemma keep_error_inv err e w r s' told : engine_inv e told -> keep_background_error err (e, w) = (r, s') ->
  engine_inv (fst s') told /\ en_state (fst s') = en_state e.
Proof.
  intros Hinv. unfold keep_background_error, gete, gets, set_background_error, modify. unfold mbind, stm_bind. cbn [fst].
  destruct (en_background_error e); intros [= <- <-]; cbn [fst]; [done|]. split; [|done].
  eapply quiet_inv; [exact Hinv|]. instantiate (1 := 0). split; try done. cbn. lia.
Qed.

Lemma turn_inv fuel e w told :
  engine_inv e told -> op_in_limits (OpTurn fuel) (e, w) -> engine_inv (fst (snd (flusher_turn fuel (e, w)))) told.
Proof.
  intros Hinv ((_ & _ & Hleft & _) & (_ & _ & _ & Hty) & Hlim). cbn [run_op] in Hty. unfold flusher_turn in *.
  destruct (next_task (e, w)) as [r [e1 w1]] eqn:E. cbn [snd fst] in *.
  apply next_task_eq in E as (e1' & [= <- ->] & Hq & Hfl). pose proof (quiet_inv _ _ _ _ Hinv Hq) as Hinv1.
  destruct r as [[[frozen|]|]|err]; try done.
  - destruct (Hfl frozen eq_refl) as [Hlast ->].
    destruct (flush frozen (e, w)) as [o [e2 w2]] eqn:Ef.
    assert (typed e2) as Hty2.
    { destruct o; [exact Hty|]. revert Hty. cbn.
      unfold keep_background_error, gete, gets, set_background_error, modify. unfold mbind, stm_bind. cbn [fst].
      by destruct (en_background_error e2). }
    pose proof (flush_inv frozen e w o (e2, w2) told Hinv Hlast Hleft Hty2 Ef) as Hinv2.
    destruct o; [done|]. cbn. destruct (keep_background_error e0 (e2, w2)) as [r3 s3] eqn:Ek.
    by eapply keep_error_inv.
  - unfold mbind, stm_bind.
    destruct (compact_all fuel (e1, w)) as [o [e2 w2]] eqn:Ec. pose proof (compact_all_inv told fuel e1 w o (e2, w2) Hinv1 Hlim Ec) as Hinv2.
    destruct o; [done|]. destruct (keep_background_error e0 (e2, w2)) as [r3 s3] eqn:Ek. by eapply keep_error_inv.
Qed.

(** Every operation does what the map does. *)
Lemma op_refines op s told : engine_inv (fst s) told -> op_in_limits op s ->
  exists told', engine_inv (fst (snd (run_op op s))) told' /\ map_step op (fst (run_op op s)) (map_of told) (map_of told').
Proof.
  destruct s as [e w]. intros Hinv Hlim. cbn [fst] in *. destruct op as [key value|key| |min_bytes|fuel]; cbn [op_in_limits] in Hlim.
  - destruct Hlim as ((Hroom & Hseq & Hleft & _) & (_ & _ & _ & Hty)).
    cbn [run_op] in *. destruct (engine_write key value (e, w)) as [r s'] eqn:E. cbn [fst snd] in *.
    destruct (write_inv _ _ _ _ _ _ _ Hinv Hroom Hseq Hleft Hty E) as [Hi|[Hi Hr]]; (eexists; split; [exact Hi|]); cbn.
    + left. apply map_of_insert.
    + by right.
  - exists told. cbn [run_op]. destruct (engine_get key (e, w)) as [r s'] eqn:E.
    destruct (read_ran _ _ _ _ _ _ Hinv E) as (e' & w' & -> & _ & Hi & _ & _ & Hr). cbn. split; [done|]. by rewrite map_of_lookup.
  - cbn [run_op]. destruct (engine_sync (e, w)) as [r s'] eqn:E. exists told. split; [by eapply sync_inv|done].
  - destruct Hlim as ((_ & _ & Hleft & _) & (_ & _ & _ & Hty)).
    cbn [run_op] in *. destruct (rotate min_bytes (e, w)) as [r s'] eqn:E. exists told. split; [by eapply rotate_inv|done].
  - exists told. pose proof (turn_inv fuel e w told Hinv Hlim) as Hi. cbn [run_op].
    destruct (flusher_turn fuel (e, w)) as [r s'] eqn:E. by split.
Qed.

Lemma run_refines ops : forall s told, engine_inv (fst s) told -> run_in_limits ops s ->
  exists told', engine_inv (fst (snd (run_ops ops s))) told' /\
    map_run ops (fst (run_ops ops s)) (map_of told) (map_of told').
Proof.
  induction ops as [|op ops IH]; intros s told Hinv Hlim; cbn [run_ops].
  - exists told. by split.
  - destruct Hlim as [Hop Hlim]. destruct (op_refines op s told Hinv Hop) as (told1 & Hinv1 & Hstep).
    destruct (run_op op s) as [a s1] eqn:E. cbn [fst snd] in *.
    destruct (IH s1 told1 Hinv1 Hlim) as (told2 & Hinv2 & Hrun). destruct (run_ops ops s1) as [answers s2]. cbn [fst snd] in *.
    exists told2. split; [done|]. exists (map_of told1). by split.
Qed.
(** ** A store that starts empty *)

Lemma empty_inv e :
  tidy (en_wal e) -> wl_last_seq (en_wal e) = 0 -> 0 <= en_next_number e -> sn_files (en_snapshot e) = [] ->
  (exists budget logs, en_state e = mkState (mt_build budget) logs [] [[]]) -> engine_inv e ∅.
Proof.
  intros Ht Hl Hn Hf (budget & logs & Est). split; rewrite ?Est; try done; rewrite ?Hl; try (unfold u64_max; lia).
  - split; cbn; rewrite ?Hf; try done; try (by intros t ?%elem_of_nil); try constructor; try done.
    + repeat constructor.
    + intros [|n] level t Hlv Ht'; cbn in Hlv; [injection Hlv as <-|done]. by apply elem_of_nil in Ht'.
  - intros m k v ->%list_elem_of_singleton. by rewrite lookup_empty.
  - exists ∅, []. rewrite Est. split_and!.
    + split; [apply law_build|constructor|]. split; [done|repeat constructor|constructor].
    + cbn. by split.
    + apply agrees_refl.
    + intros m k v ->%list_elem_of_singleton. by rewrite lookup_empty.
Qed.

(** Opening an empty directory, with nothing failing, gives an empty store. *)
Lemma open_empty dir config d : names d = ∅ ->
  exists e w, engine_open (T := T) dir config (mkWorld d []) = (Ok e, w) /\ engine_inv e ∅ /\ wl_last_seq (en_wal e) = 0.
Proof.
  intros Hn. unfold engine_open. run_stm. unfold disk_open_dir at 1. rewrite call_clean. cbn [fst snd].
  unfold listing_scan. run_stm. unfold disk_list. rewrite call_clean. cbn [fst snd]. rewrite Hn, map_to_list_empty. cbn [fmap list_fmap].
  set (l := listing_of []). vm_compute in l. subst l. cbn [ls_partial remove_files]. run_stm.
  unfold manifest_load. run_stm. unfold disk_read at 1. rewrite call_clean. unfold read_run. rewrite Hn, lookup_empty. cbn [fst snd].
  cbn [not_found ls_tables ls_logs ls_next_number orphans filter list_filter fmap list_fmap remove_files last]. run_stm.
  change (open_levels dir snapshot_default (mkWorld d [])) with (Ok [[]] : result (list (list Table)), mkWorld d []).
  cbn beta iota.
  match goal with |- context [wal_create ?p ?n ?pol ?l _] =>
    destruct (wal_recover_spec p n pol l d []) as (i & d' & Hw & _);
      [unfold recoverable; by rewrite Hn, lookup_empty|constructor|] end.
  unfold wal_create. run_stm. rewrite Hw. cbn beta iota. eexists _, _. split; [reflexivity|].
  split; [|done]. apply empty_inv; cbn; try done. by eexists _, _.
Qed.
End Runs.

(** ** Claims *)

(** A check of the limits that computes. *)
Definition limits_checked {T} (e : Engine T) : bool :=
  (wl_last_seq (en_wal e) <? u64_max) && (en_next_number e + zlen (all_entries e) + 1 <=? u64_max) &&
  forallb (fun t => st_bytes (tb_table t) <=? u64_max) (concat (st_levels (en_state e))).

Lemma limits_checked_ok (e : Engine BTreeMemtable) : limits_checked e = true -> in_limits e.
Proof.
  unfold limits_checked, in_limits, numbers_left, typed. intros [[H1%Z.ltb_lt H2%Z.leb_le]%andb_true_iff H3]%andb_true_iff.
  split_and!; [done|done|lia|lia|]. intros t Ht. rewrite forallb_forall in H3. apply Z.leb_le, H3. by apply list_elem_of_In.
Qed.

Fixpoint compactions_checked (fuel : nat) (s : Engine BTreeMemtable * World) : bool :=
  limits_checked (fst s) &&
  match fuel with
  | O => true
  | S fuel => let s' := snd (compact_once s) in limits_checked (fst s') && compactions_checked fuel s'
  end.

Fixpoint run_checked (ops : list Op) (s : Engine BTreeMemtable * World) : bool :=
  match ops with
  | [] => true
  | op :: ops =>
      let s' := snd (run_op op s) in
      match op with
      | OpGet _ => true
      | OpTurn fuel => limits_checked (fst s) && limits_checked (fst s') && compactions_checked fuel (snd (next_task s))
      | _ => limits_checked (fst s) && limits_checked (fst s')
      end && run_checked ops s'
  end.

Lemma compactions_checked_ok fuel : forall s, compactions_checked fuel s = true -> compactions_in_limits fuel s.
Proof.
  induction fuel as [|fuel IH]; intros s; cbn -[compact_once]; rewrite ?andb_true_iff.
  - intros [H1%limits_checked_ok _]. by split.
  - intros [H1%limits_checked_ok [H2%limits_checked_ok H3%IH]]. by split.
Qed.

Lemma run_checked_ok ops : forall s, run_checked ops s = true -> run_in_limits ops s.
Proof.
  induction ops as [|op ops IH]; intros s; [done|]. cbn [run_checked run_in_limits]. cbn zeta. rewrite andb_true_iff.
  intros [Hop H4%IH]. split; [|done]. destruct op; cbn [op_in_limits]; try done; rewrite !andb_true_iff in Hop.
  1-3: by destruct Hop as [H1%limits_checked_ok H2%limits_checked_ok].
  destruct Hop as [[H1%limits_checked_ok H2%limits_checked_ok] H3]. split_and!; [done|done|]. by apply compactions_checked_ok.
Qed.

(** C1: The store is a map. Open an empty directory, then make any sequence of
    calls (writes, deletes, reads, syncs, rotations) and background turns (flushes,
    compactions), with any of the system calls they make failing at any point, the
    reads of open tables included: every answer is one a finite map could give. A
    read returns exactly the value last written under its key, or the error of a
    system call that failed, and changes nothing; at the end, where no call fails,
    every key reads as the map has it. A write that returns [Ok] has taken effect;
    one that returns an error has either taken effect or not; and flushing and
    compacting never change what can be read. The limits assumed
    ([run_in_limits]): at every operation but a read, before and after it, and at
    every compaction of a turn, sequence numbers and file numbers are not used up
    (a compaction takes at most one number per entry), the length of an open file
    fits a [u64], and a memtable of fixed size has room for one more key. *)
Theorem store_is_a_map {T : Type} `{MemtableLaws T} (dir : string) (config : Config) (d : Disk) (e : Engine T)
  (w : World) (os : list outcome) (ops : list Op)
  (Hempty : names d = ∅) (Hopen : engine_open dir config (mkWorld d []) = (Ok e, w))
  (Hlimits : run_in_limits ops (e, mkWorld (disk w) os)) :
  exists m, map_run ops (fst (run_ops ops (e, mkWorld (disk w) os))) ∅ m /\
    forall key w', no_failures w' -> fst (engine_get key (fst (snd (run_ops ops (e, mkWorld (disk w) os))), w')) = Ok (m !! key).
Proof.
  destruct (open_empty dir config d Hempty) as (e' & w' & E & Hinv & _). rewrite Hopen in E. injection E as <- <-.
  destruct (run_refines ops (e, mkWorld (disk w) os) ∅ Hinv Hlimits) as (told & Hi & Hrun). exists (map_of told). split; [done|].
  intros key w' Hn. rewrite map_of_lookup. by apply read_calm.
Qed.

Definition demo_ops : list Op :=
  [OpWrite (bstr "k") (Some (bstr "1")); OpRotate 0; OpTurn 3; OpGet (bstr "k"); OpGet (bstr "k");
   OpWrite (bstr "k") None; OpGet (bstr "k"); OpRotate 0; OpTurn 3; OpTurn 3; OpGet (bstr "k")].

(** The call that fails is the one that reads a block for the first [get]; the second
    gets through, and both are counted. *)
Definition demo_outcomes : list outcome := replicate 27 None ++ [Some (IoError OtherKind "device", 0%nat)].

Example demo_read_fails :
  match engine_open (T := BTreeMemtable) "db" (mkConfig Always 4096 2 10) (mkWorld empty_disk []) with
  | (Ok e, w) =>
      let '(answers, s) := run_ops (take 5 demo_ops) (e, mkWorld (disk w) demo_outcomes) in
      drop 3 answers = [Value (Err (Io "db/000003.sst" (IoError OtherKind "device"))); Value (Ok (Some (bstr "1")))] /\
      engine_block_reads (fst s) = 2
  | _ => False
  end.
Proof. vm_compute. split; reflexivity. Qed.

Lemma store_is_a_map_witness : exists e w,
  engine_open (T := BTreeMemtable) "db" (mkConfig Always 4096 2 10) (mkWorld empty_disk []) = (Ok e, w) /\
  exists m, map_run demo_ops (fst (run_ops demo_ops (e, mkWorld (disk w) demo_outcomes))) ∅ m.
Proof.
  destruct (engine_open (T := BTreeMemtable) "db" (mkConfig Always 4096 2 10) (mkWorld empty_disk [])) as [[e|err] w] eqn:E;
    [|vm_compute in E; discriminate].
  exists e, w. split; [reflexivity|].
  destruct (store_is_a_map "db" (mkConfig Always 4096 2 10) empty_disk e w demo_outcomes demo_ops eq_refl E) as (m & Hm & _); [|by exists m].
  apply run_checked_ok.
  assert (match engine_open (T := BTreeMemtable) "db" (mkConfig Always 4096 2 10) (mkWorld empty_disk []) with
    | (Ok e, w) => run_checked demo_ops (e, mkWorld (disk w) demo_outcomes) | _ => false end = true) as Hc by (vm_compute; reflexivity).
  rewrite E in Hc. exact Hc.
Defined.
