(* ===== verification/Settling.v ===== *)
(** * Compacting comes to an end

    With a [fanout] of at least 2 a level far enough down can never be over its
    budget, and a compaction moves entries down without adding any. So entries
    weighed by how far they are from that depth weigh less after every compaction,
    and [compact_all], which goes on as long as there is something to compact, ends
    within a number of rounds the entries bound, with every level within its limit. *)

From S2P Require Import Prelude WalRecord Memtable Btree SsTable Disk Manifest Wal Compaction Scores Layers Engine Store Shape EngineSpec Runs.

(** ** How deep compactions go *)

(** The level from which on nothing is ever due. *)
Definition LAST_LEVEL : nat := 54.

Lemma budget_deep level level_bytes fanout : 0 < level_bytes -> 2 <= fanout -> Z.of_nat LAST_LEVEL <= level ->
  2 ^ 53 <= budget level level_bytes fanout.
Proof.
  intros Hb Hf Hl. unfold LAST_LEVEL in Hl. unfold budget, saturating_mul, saturating_pow.
  assert (wrap32 (Z.min level u32_max - 1) = Z.min level u32_max - 1) as -> by (apply Z.mod_small; unfold u32_max; lia).
  assert (2 ^ 53 <= fanout ^ (Z.min level u32_max - 1)).
  { transitivity (2 ^ (Z.min level u32_max - 1)); [apply Z.pow_le_mono_r|apply Z.pow_le_mono_l]; unfold u32_max; lia. }
  assert (2 ^ 53 <= u64_max) by done. nia.
Qed.

(** ** Weighing the levels *)

Definition level_size (level : list Table) : nat := length (concat (file_entries <$> level)).

(** The entries, each as heavy as its level is far from depth [w]. *)
Fixpoint weigh (w : nat) (levels : list (list Table)) : nat :=
  match levels with [] => 0 | level :: levels => w * level_size level + weigh (pred w) levels end.

Lemma weigh_app w P Q : weigh w (P ++ Q) = (weigh w P + weigh (w - length P) Q)%nat.
Proof.
  revert w. induction P as [|l P IH]; intros w; cbn; [by rewrite Nat.sub_0_r|]. rewrite IH. replace (pred w - length P)%nat with (w - S (length P))%nat by lia. lia.
Qed.

Lemma weigh_empties w n : weigh w (replicate n []) = 0%nat.
Proof. revert w. induction n as [|n IH]; intros w; cbn; [done|]. rewrite IH. unfold level_size. cbn. lia. Qed.

Lemma weigh_padded w n levels : weigh w (padded n levels) = weigh w levels.
Proof. unfold padded. rewrite weigh_app, weigh_empties. lia. Qed.

Lemma level_size_app a b : level_size (a ++ b) = (level_size a + level_size b)%nat.
Proof. unfold level_size. by rewrite fmap_app, concat_app, length_app. Qed.

#[export] Instance level_size_perm : Proper (Permutation ==> eq) level_size.
Proof.
  intros a b Hp. unfold level_size. induction Hp as [|t a b _ IH|t u a|a b c _ IH1 _ IH2]; cbn; [done|..|congruence].
  - rewrite !length_app. lia.
  - rewrite !length_app. lia.
Qed.

Lemma weigh_bound w levels : (weigh w levels <= w * level_size (concat levels))%nat.
Proof.
  revert w. induction levels as [|l ls IH]; intros w; cbn [weigh concat]; [lia|]. rewrite level_size_app. specialize (IH (pred w)).
  assert (pred w * level_size (concat ls) <= w * level_size (concat ls))%nat by (apply Nat.mul_le_mono_r; lia). lia.
Qed.

(** What goes into the merge and what stays make the level up. *)
Lemma level_size_parts p level : level_size level = (level_size (consumed p level) + level_size (remains p level))%nat.
Proof. rewrite <- level_size_app. apply level_size_perm, filter_perm. Qed.

(** The outputs have no more entries than the inputs. *)
Lemma outputs_no_more sn next P1 La Lb P2 p outs next' :
  shape_ok sn next (P1 ++ La :: Lb :: P2) -> pl_level p = Z.of_nat (length P1) -> pl_inputs p = inputs_for sn (pl_level p) ->
  outputs_ok sn next (concat (P1 ++ La :: Lb :: P2)) p outs next' ->
  (level_size outs <= level_size (consumed p La) + level_size (consumed p Lb))%nat.
Proof.
  intros Hshape Hl Hin Houts. rewrite <- level_size_app. unfold level_size.
  pose proof (level_entries_sorted _ (oo_sorted _ _ _ _ _ _ Houts) (oo_tables _ _ _ _ _ _ Houts)) as Hs.
  rewrite <- !(length_fmap fst). apply submseteq_length, NoDup_submseteq; [by apply entries_sorted_NoDup|].
  intros k ([k' v] & -> & (t & Ht & Hv)%elem_of_level)%list_elem_of_fmap. cbn [fst].
  apply list_elem_of_fmap. exists (k', v). split; [done|].
  apply (oo_newest _ _ _ _ _ _ Houts t k' v Ht) in Hv as [Hm%(input_in_two sn next P1 La Lb P2 Hshape p Hl Hin) _].
  apply elem_of_level. destruct Hm as [(u & Hu & ?)|(u & Hu & ?)]; exists u; (split; [|done]); apply elem_of_app; auto.
Qed.

(** A table holds something. *)
Lemma size_some t level : table_ok t -> t ∈ level -> (0 < level_size level)%nat.
Proof.
  intros Hok Ht. pose proof (tk_some _ Hok) as Hne. destruct (file_entries t) as [|[k v] es] eqn:E; [done|].
  assert ((k, v) ∈ concat (file_entries <$> level)) as Hin by (apply elem_of_level; exists t; split; [done|rewrite E; by left]).
  unfold level_size. destruct (concat _); [by apply elem_of_nil in Hin|cbn; lia].
Qed.

(** A compaction of a level that has files, above the last level, makes the levels
    lighter. *)
Lemma compaction_lighter sn next levels p outs next' :
  shape_ok sn next levels -> 0 <= pl_level p < Z.of_nat LAST_LEVEL -> pl_inputs p = inputs_for sn (pl_level p) ->
  at_level sn (pl_level p) <> [] -> outputs_ok sn next (concat levels) p outs next' ->
  (weigh LAST_LEVEL (levels_insert (Z.to_nat (output_level p)) outs (levels_remove (input_numbers p) levels)) <
   weigh LAST_LEVEL levels)%nat.
Proof.
  intros Hshape Hlv Hin Hsome Houts.
  destruct (published_levels sn next levels p outs Hshape ltac:(lia) Hin) as (P1 & La & Lb & P2 & Ep & El & ->).
  pose proof (padded_shape _ _ (S (S (Z.to_nat (pl_level p)))) _ Hshape) as Hpad. rewrite <- (weigh_padded _ (S (S (Z.to_nat (pl_level p)))) levels).
  rewrite Ep in *. rewrite <- (concat_padded (S (S (Z.to_nat (pl_level p))))), Ep in Houts.
  assert (pl_level p = Z.of_nat (length P1)) as Hl by lia.
  pose proof (outputs_no_more _ _ _ _ _ _ _ _ _ Hpad Hl Hin Houts) as Hno.
  assert (0 < level_size (consumed p La))%nat as Hpos.
  { assert (exists f, f ∈ drained sn (pl_level p)) as [f Hf].
    { unfold drained. destruct (at_level sn (pl_level p)) as [|f fs] eqn:E; [done|]. destruct (Z.eqb_spec (pl_level p) 0) as [E0|].
      - rewrite E0 in E. rewrite E. exists f. by left.
      - cbn. eexists. by left. }
    apply drained_at_level in Hf as Hfl. rewrite Hl in Hfl. apply (file_at_level sn next P1 La Lb P2 Hpad f _ La (lookup_La P1 La Lb P2)) in Hfl as (t & Ht & Etf).
    assert (t ∈ concat (P1 ++ La :: Lb :: P2)) as Htc by (eapply in_levels; [apply lookup_La|done]).
    apply (size_some t); [eapply (levels_tables sn next P1 La Lb P2 Hpad La); [eapply list_elem_of_lookup_2, lookup_La|done]|].
    apply list_elem_of_filter. split; [|done]. apply (taken_input sn next P1 La Lb P2 Hpad p Hl Hin t Htc).
    rewrite Etf, Hin. apply inputs_for_spec. by left. }
  unfold next_levels. rewrite !weigh_app. cbn [weigh]. unfold new_level. rewrite (sort_by_perm min_key_le (remains p Lb ++ outs)), level_size_app.
  rewrite (level_size_parts p La), (level_size_parts p Lb).
  replace (LAST_LEVEL - length P1)%nat with (S (pred (LAST_LEVEL - length P1))) by lia. cbn [pred].
  set (w := pred (LAST_LEVEL - length P1)). nia.
Qed.

(** ** Compacting until nothing is due *)

Section Settling.
Context {T : Type} `{MemtableLaws T}.
Implicit Types (e : Engine T) (w : World) (s : Engine T * World).

(** No level holds [2 ^ 53] bytes or files, before any of the compactions. *)
Definition moderate e : Prop :=
  zlen (at_level (en_snapshot e) 0) < 2 ^ 53 /\ forall level, bytes_at_level (en_snapshot e) level < 2 ^ 53.

Fixpoint compactions_moderate (fuel : nat) s : Prop :=
  moderate (fst s) /\ match fuel with O => True | S fuel => compactions_moderate fuel (snd (compact_once s)) end.

(** No level is past its limit. *)
Definition settled e : Prop := forall level, 0 <= level ->
  level_due (en_snapshot e) (cf_l0_trigger (en_config e)) (level_bytes e) (cf_fanout (en_config e)) level = false.

Definition weight e : nat := weigh LAST_LEVEL (st_levels (en_state e)).

Definition sensible (config : Config) : Prop := 1 <= cf_memtable_bytes config /\ 2 <= cf_fanout config.

Lemma level_bytes_pos e : sensible (en_config e) -> 0 < level_bytes e.
Proof.
  intros [? ?]. unfold level_bytes, target_bytes, saturating_mul. assert (0 < u64_max) by done.
  assert (0 < cf_memtable_bytes (en_config e) * cf_fanout (en_config e)) by (apply Z.mul_pos_pos; lia). lia.
Qed.

Lemma weight_bound e : (weight e <= LAST_LEVEL * length (all_entries e))%nat.
Proof. apply weigh_bound. Qed.

(** A compaction that went through made the store lighter. *)
Lemma compacted_lighter e e' told : engine_inv e told -> sensible (en_config e) -> moderate e ->
  compacted e e' -> (weight e' < weight e)%nat /\ en_config e' = en_config e.
Proof.
  intros Hinv Hsen [Hm0 Hm] (p & outs & n1 & Hplan & Houts & Elv & Ecf). split; [|done]. unfold weight. rewrite Elv.
  pose proof (level_bytes_pos e Hsen) as Hb. destruct Hsen as [_ Hf].
  pose proof (plan_picks (en_snapshot e) (cf_l0_trigger (en_config e)) (level_bytes e) (cf_fanout (en_config e)) Hb ltac:(lia) Hm0 Hm) as Hp.
  fold (plan_of e) in Hp. rewrite Hplan in Hp. destruct Hp as ([Hl _] & Hd & _).
  destruct (plan_level _ _ _ _ _ Hplan) as (_ & Hin & _). unfold level_due in Hd.
  apply (compaction_lighter (en_snapshot e) (en_next_number e) _ _ _ n1 (ei_shape _ _ Hinv)); try done.
  - split; [done|]. destruct (Z.eqb_spec (pl_level p) 0) as [->|]; [done|]. apply Z.ltb_lt in Hd.
    destruct (decide (pl_level p < Z.of_nat LAST_LEVEL)); [done|].
    pose proof (budget_deep (pl_level p) (level_bytes e) (cf_fanout (en_config e)) Hb Hf ltac:(lia)). specialize (Hm (pl_level p)). lia.
  - intros E. destruct (Z.eqb_spec (pl_level p) 0) as [E0|Hne].
    + rewrite E0 in E. rewrite E in Hd. apply andb_true_iff in Hd as [H1%Z.leb_le H2%Z.ltb_lt]. change (zlen (A := FileMeta) []) with 0 in H1. lia.
    + unfold bytes_at_level in Hd. rewrite E in Hd. apply Z.ltb_lt in Hd. cbn in Hd.
      pose proof (budget_range (level_bytes e) (cf_fanout (en_config e)) Hb ltac:(lia) (pl_level p)). lia.
Qed.

Lemma unplanned_settled e : sensible (en_config e) -> moderate e -> plan_of e = None -> settled e.
Proof.
  intros Hsen [Hm0 Hm] Hplan. pose proof (level_bytes_pos e Hsen) as Hb. destruct Hsen as [_ Hf].
  pose proof (plan_picks (en_snapshot e) (cf_l0_trigger (en_config e)) (level_bytes e) (cf_fanout (en_config e)) Hb ltac:(lia) Hm0 Hm) as Hp.
  fold (plan_of e) in Hp. by rewrite Hplan in Hp.
Qed.

(** Rounds enough for the weight are enough. *)
Lemma compact_all_ends told fuel : forall e w,
  engine_inv e told -> sensible (en_config e) -> (weight e < fuel)%nat ->
  compactions_in_limits fuel (e, w) -> compactions_moderate fuel (e, w) ->
  exists r s', compact_all fuel (e, w) = (r, s') /\ engine_inv (fst s') told /\ r <> Ok None /\
    (r = Ok (Some tt) -> settled (fst s')).
Proof.
  induction fuel as [|fuel IH]; intros e w Hinv Hsen Hw Hlim Hmod; [lia|].
  destruct Hlim as [(_ & _ & Hleft & _) [(_ & _ & _ & Hty) Hlim]]. cbn [fst] in Hleft. destruct Hmod as [Hmod Hmods]. cbn [fst] in Hmod.
  cbn [compact_all]. unfold mbind, stm_bind.
  destruct (compact_once (e, w)) as [r1 [e1 w1]] eqn:E. cbn [fst snd] in Hty, Hlim, Hmods.
  destruct (compact_once_does e w r1 (e1, w1) told Hinv Hleft Hty E) as (Hinv1 & Hnone & Hfalse & Htrue).
  destruct r1 as [[[|]|]|err].
  - destruct (compacted_lighter e e1 told Hinv Hsen Hmod (Htrue eq_refl)) as [Hlt Ecf]. apply IH; [done|by rewrite Ecf|lia|done|done].
  - destruct (Hfalse eq_refl) as [Hp [= -> ->]]. eexists _, _. split_and!; [done|done|done|]. intros _. by apply unplanned_settled.
  - done.
  - eexists _, _. by split_and!.
Qed.
End Settling.

(** ** Compacting for ever *)

Section Unsettling.
Context {T : Type} `{MemtableLaws T}.
Implicit Types (e : Engine T) (w : World) (s : Engine T * World).

(** Every level below 0 has a budget of zero bytes. *)
Definition no_budget (config : Config) : Prop := cf_memtable_bytes config = 0 \/ cf_fanout config = 0.

(** The files hold a value for [key], and not in level 0. *)
Definition live_below (key : bytes) (levels : list (list Table)) : Prop :=
  (forall t, t ∈ default [] (levels !! 0%nat) -> table_map t !! key = None) /\
  value_of (view (file_layers levels) !! key) <> None.

Lemma no_budget_bytes e : no_budget (en_config e) -> level_bytes e = 0.
Proof. unfold level_bytes, target_bytes, saturating_mul. by intros [-> | ->]; rewrite ?Z.mul_0_r, ?Z.mul_0_l. Qed.

(** Then some level below 0 has a file. *)
Lemma live_below_deep sn next levels key : shape_ok sn next levels -> live_below key levels -> 1 <= deepest_level sn.
Proof.
  intros Hshape [H0 Hv]. destruct (view (file_layers levels) !! key) as [v|] eqn:E; [|done].
  apply view_Some in E as (m & Hm & Hk). destruct levels as [|l0 deeper]; [by apply elem_of_nil in Hm|].
  cbn [file_layers] in Hm. apply elem_of_app in Hm as [(t & -> & Ht)%list_elem_of_fmap|(level & -> & [n Hn]%list_elem_of_lookup)%list_elem_of_fmap].
  { rewrite H0 in Hk by done. done. }
  assert (level <> []) as Hne by by intros ->. destruct level as [|t level]; [done|].
  pose proof (so_place _ _ _ Hshape (S n) (t :: level) t Hn ltac:(left)) as Hp.
  assert (tb_meta t ∈ sn_files sn) as Hf.
  { rewrite (so_files _ _ _ Hshape). apply list_elem_of_fmap. exists t. split; [done|]. apply elem_of_concat.
    exists (t :: level). split; [by eapply (list_elem_of_lookup_2 _ (S n))|by left]. }
  apply level_below_deepest in Hf. lia.
Qed.

(** A compaction leaves it so. *)
Lemma live_below_stays e told e' key : engine_inv e told -> compacted e e' ->
  live_below key (st_levels (en_state e)) -> live_below key (st_levels (en_state e')).
Proof.
  intros Hinv (p & outs & n1 & Hplan & Houts & -> & _) [H0 Hv]. pose proof (ei_shape _ _ Hinv) as Hshape.
  destruct (plan_level _ _ _ _ _ Hplan) as (Hlv & Hin & _). split.
  - destruct (published_levels _ _ _ p outs Hshape Hlv Hin) as (P1 & La & Lb & P2 & Ep & El & ->). intros t Ht. apply H0.
    pose proof (lk_some _ (so_levels _ _ _ Hshape)) as Hne. destruct (st_levels (en_state e)) as [|l0 deeper]; [done|].
    unfold padded in Ep. unfold next_levels in Ht. destruct P1 as [|l P1]; injection Ep as -> _; cbn in *; [|done].
    by apply list_elem_of_filter in Ht as [_ ?].
  - destruct (ei_holds _ _ Hinv) as (A & Fs & _ & Hord & _). unfold layers_of in Hord.
    change (A :: Fs ++ file_layers (st_levels (en_state e))) with ((A :: Fs) ++ file_layers (st_levels (en_state e))) in Hord.
    apply layers_ordered_app in Hord as (_ & Hord & _).
    destruct (compaction_published (en_snapshot e) (en_next_number e) (Z.max n1 (en_next_number e)) (st_levels (en_state e)) p outs 0 0 [] Hshape Hlv Hin) as [Hk _].
    + pose proof (ei_next _ _ Hinv). lia.
    + destruct Houts as [O1 O2 O3 O4 O5 O6 O7]. split; try done. intros t Ht. specialize (O5 t Ht). lia.
    + destruct (Hk Hord) as (_ & Hag & _). cbn [app] in Hag. by rewrite (agrees_value _ _ key Hag).
Qed.

(** However many rounds it is given, [compact_all] does not find nothing to do. *)
Lemma compact_all_unsettled told key fuel : forall e w,
  engine_inv e told -> no_budget (en_config e) -> live_below key (st_levels (en_state e)) ->
  compactions_in_limits fuel (e, w) -> fst (compact_all fuel (e, w)) <> Ok (Some tt).
Proof.
  induction fuel as [|fuel IH]; intros e w Hinv Hb Hlive Hlim; [done|].
  destruct Hlim as [(_ & _ & Hleft & _) [(_ & _ & _ & Hty) Hlim]]. cbn [fst] in Hleft.
  cbn [compact_all]. unfold mbind, stm_bind.
  destruct (compact_once (e, w)) as [r1 [e1 w1]] eqn:E. cbn [fst snd] in Hty, Hlim.
  destruct (compact_once_does e w r1 (e1, w1) told Hinv Hleft Hty E) as (Hinv1 & Hnone & Hfalse & Htrue).
  destruct r1 as [[[|]|]|err]; [|exfalso|done|done].
  - pose proof (Htrue eq_refl) as Hc. apply IH; [done| |exact (live_below_stays e told e1 key Hinv Hc Hlive)|done].
    destruct Hc as (p & outs & n1 & _ & _ & _ & Ecf). cbn [fst] in Ecf. by rewrite Ecf.
  - destruct (Hfalse eq_refl) as [Hp _]. unfold plan_of in Hp. rewrite no_budget_bytes in Hp by done.
    by apply zero_budget_plans in Hp; [|by eapply live_below_deep, Hlive; apply (ei_shape _ _ Hinv)].
Qed.
End Unsettling.

(** [moderate] and its rounds, computed. *)
Definition moderate_checked {T} (e : Engine T) : bool :=
  (zlen (at_level (en_snapshot e) 0) <? 2 ^ 53) &&
  forallb (fun file => bytes_at_level (en_snapshot e) (fm_level file) <? 2 ^ 53) (sn_files (en_snapshot e)).

Fixpoint compactions_moderate_checked {T} `{Memtable T} (fuel : nat) (s : Engine T * World) : bool :=
  moderate_checked (fst s) && match fuel with O => true | S fuel => compactions_moderate_checked fuel (snd (compact_once s)) end.

Lemma moderate_checked_ok {T} (e : Engine T) : moderate_checked e = true -> moderate e.
Proof.
  unfold moderate_checked. intros [H1%Z.ltb_lt H2]%andb_true_iff. split; [done|]. intros level.
  destruct (at_level (en_snapshot e) level) as [|f fs] eqn:E; [unfold bytes_at_level; by rewrite E|].
  assert (f ∈ at_level (en_snapshot e) level) as [<- Hf]%list_elem_of_filter by (rewrite E; by left).
  rewrite forallb_forall in H2. apply Z.ltb_lt, H2. by apply list_elem_of_In.
Qed.

Lemma compactions_moderate_ok {T} `{Memtable T} fuel : forall s : Engine T * World,
  compactions_moderate_checked fuel s = true -> compactions_moderate fuel s.
Proof.
  induction fuel as [|fuel IH]; intros s; cbn [compactions_moderate_checked compactions_moderate];
    intros [H1%moderate_checked_ok H2]%andb_true_iff; (split; [done|]); [done|by apply IH].
Qed.

(** ** Claims *)

(** C20: Compacting comes to an end. After any run of calls and background turns on
    a store opened in an empty directory, with any of the system calls failing, and
    with a memtable of at least one byte and a fan-out of at least 2: [compact_all]
    never loops for ever. Within [54] rounds per entry in the files, and one more,
    it has returned, either with an error, or with level 0 below its
    trigger and no deeper level over its budget. The limits assumed: those of the run
    and of each round ([run_in_limits], [compactions_in_limits]), that numbers and
    lengths are not used up; and at each round fewer than [2 ^ 53] files in level 0 and
    bytes in any level ([compactions_moderate]). *)
Theorem compact_all_settles {T : Type} `{MemtableLaws T} (dir : string) (config : Config) (d : Disk) (e : Engine T)
  (w : World) (os : list outcome) (ops : list Op) (s : Engine T * World) (fuel : nat)
  (Hempty : names d = ∅) (Hopen : engine_open dir config (mkWorld d []) = (Ok e, w))
  (Hlimits : run_in_limits ops (e, mkWorld (disk w) os)) (Hrun : snd (run_ops ops (e, mkWorld (disk w) os)) = s)
  (Hsensible : sensible (en_config (fst s))) (Hfuel : (54 * length (all_entries (fst s)) < fuel)%nat)
  (Hcompact : compactions_in_limits fuel s) (Hmoderate : compactions_moderate fuel s) :
  exists r s', compact_all fuel s = (r, s') /\ r <> Ok None /\ (r = Ok (Some tt) -> settled (fst s')).
Proof.
  destruct (open_empty dir config d Hempty) as (e' & w' & E & Hinv & _). rewrite Hopen in E. injection E as <- <-.
  destruct (run_refines ops (e, mkWorld (disk w) os) ∅ Hinv Hlimits) as (told & Hinv' & _). rewrite Hrun in Hinv'.
  destruct s as [e1 w1]. pose proof (weight_bound e1) as Hw. unfold LAST_LEVEL in Hw.
  destruct (compact_all_ends told fuel e1 w1 Hinv' Hsensible ltac:(cbn [fst] in Hfuel; lia) Hcompact Hmoderate) as (r & s' & ? & _ & ? & ?).
  by exists r, s'.
Qed.

(** Two tables of one entry each in level 0, over budget at every level down to the
    eighth, where they come to rest. *)
Definition deep_config : Config := mkConfig Always 1 2 2.
Definition deep_ops : list Op := [OpWrite (bstr "a") (Some (bstr "1")); OpTurn 0; OpWrite (bstr "b") (Some (bstr "2")); OpTurn 0].

Lemma deep_checked : match engine_open (T := BTreeMemtable) "db" deep_config (mkWorld empty_disk []) with
  | (Ok e, w) => let s := snd (run_ops deep_ops (e, mkWorld (disk w) [])) in
      run_checked deep_ops (e, mkWorld (disk w) []) && (length (all_entries (fst s)) =? 2)%nat &&
      compactions_checked 109 s && compactions_moderate_checked 109 s
  | _ => false end = true.
Proof. vm_compute. reflexivity. Qed.

Lemma compact_all_settles_witness : exists e w, let s := snd (run_ops deep_ops (e, mkWorld (disk w) [])) in
  engine_open (T := BTreeMemtable) "db" deep_config (mkWorld empty_disk []) = (Ok e, w) /\
  exists r s', compact_all 109 s = (r, s') /\ r <> Ok None /\ (r = Ok (Some tt) -> settled (fst s')).
Proof.
  destruct (engine_open (T := BTreeMemtable) "db" deep_config (mkWorld empty_disk [])) as [[e|err] w] eqn:E;
    [|vm_compute in E; discriminate].
  pose proof deep_checked as Hc. rewrite E in Hc. cbv zeta in Hc.
  apply andb_true_iff in Hc as [Hc Hm]. apply andb_true_iff in Hc as [Hc Hl]. apply andb_true_iff in Hc as [Hr He%Nat.eqb_eq].
  exists e, w. split; [reflexivity|]. apply (compact_all_settles "db" deep_config empty_disk e w [] deep_ops _ 109 eq_refl E).
  - by apply run_checked_ok.
  - reflexivity.
  - assert (en_config (fst (snd (run_ops deep_ops (e, mkWorld (disk w) [])))) = deep_config) as ->; [|split; done].
    assert (match engine_open (T := BTreeMemtable) "db" deep_config (mkWorld empty_disk []) with
      | (Ok e, w) => en_config (fst (snd (run_ops deep_ops (e, mkWorld (disk w) [])))) | _ => deep_config end = deep_config) as Hcf
      by (vm_compute; reflexivity).
    by rewrite E in Hcf.
  - rewrite He. lia.
  - by apply compactions_checked_ok.
  - by apply compactions_moderate_ok.
Defined.

(** C40: A budget of zero never settles. After any run of calls and background turns
    on a store opened in an empty directory, with any of the system calls failing,
    with [memtable_bytes] or [fanout] set to 0, and a key that reads as a value in the
    files and that no file of level 0 has: however many rounds [compact_all] is given,
    it does not return [Ok]; it runs on, or fails. (Every level below 0
    then scores infinity, an empty one too, so there is something to plan for as long
    as there is a file below level 0, and no round takes the value away.) The limits
    assumed ([run_in_limits], [compactions_in_limits]): before and after each of those
    operations and rounds, sequence numbers and file numbers are not used up, the length
    of an open file fits a [u64], and a memtable of fixed size has room for one more
    key. *)
Theorem zero_budget_never_settles {T : Type} `{MemtableLaws T} (dir : string) (config : Config) (d : Disk) (e : Engine T)
  (w : World) (os : list outcome) (ops : list Op) (s : Engine T * World) (key : bytes) (fuel : nat)
  (Hempty : names d = ∅) (Hopen : engine_open dir config (mkWorld d []) = (Ok e, w))
  (Hlimits : run_in_limits ops (e, mkWorld (disk w) os)) (Hrun : snd (run_ops ops (e, mkWorld (disk w) os)) = s)
  (Hzero : no_budget (en_config (fst s))) (Hlive : live_below key (st_levels (en_state (fst s))))
  (Hcompact : compactions_in_limits fuel s) :
  fst (compact_all fuel s) <> Ok (Some tt).
Proof.
  destruct (open_empty dir config d Hempty) as (e' & w' & E & Hinv & _). rewrite Hopen in E. injection E as <- <-.
  destruct (run_refines ops (e, mkWorld (disk w) os) ∅ Hinv Hlimits) as (told & Hinv' & _). rewrite Hrun in Hinv'.
  destruct s as [e1 w1]. by eapply compact_all_unsettled.
Qed.

(** A value in level 1, with no fan-out. *)
Definition zero_config : Config := mkConfig Always 4096 1 0.
Definition zero_ops : list Op := [OpWrite (bstr "a") (Some (bstr "1")); OpRotate 0; OpTurn 0; OpTurn 1].

Definition live_below_checked (key : bytes) (levels : list (list Table)) : bool :=
  forallb (fun t => bool_decide (table_map t !! key = None)) (default [] (levels !! 0%nat)) &&
  bool_decide (value_of (view (file_layers levels) !! key) <> None).

Lemma live_below_ok key levels : live_below_checked key levels = true -> live_below key levels.
Proof.
  intros [H1 H2%bool_decide_eq_true]%andb_true_iff. split; [|done]. intros t Ht.
  rewrite forallb_forall in H1. eapply bool_decide_eq_true, H1. by apply list_elem_of_In.
Qed.

Lemma zero_checked : match engine_open (T := BTreeMemtable) "db" zero_config (mkWorld empty_disk []) with
  | (Ok e, w) => let s := snd (run_ops zero_ops (e, mkWorld (disk w) [])) in
      run_checked zero_ops (e, mkWorld (disk w) []) && (cf_fanout (en_config (fst s)) =? 0) &&
      live_below_checked (bstr "a") (st_levels (en_state (fst s))) && compactions_checked 30 s
  | _ => false end = true.
Proof. vm_compute. reflexivity. Qed.

Lemma zero_budget_never_settles_witness : exists e w, let s := snd (run_ops zero_ops (e, mkWorld (disk w) [])) in
  engine_open (T := BTreeMemtable) "db" zero_config (mkWorld empty_disk []) = (Ok e, w) /\
  fst (compact_all 30 s) <> Ok (Some tt).
Proof.
  destruct (engine_open (T := BTreeMemtable) "db" zero_config (mkWorld empty_disk [])) as [[e|err] w] eqn:E;
    [|vm_compute in E; discriminate].
  pose proof zero_checked as Hc. rewrite E in Hc. cbv zeta in Hc.
  apply andb_true_iff in Hc as [Hc Hm]. apply andb_true_iff in Hc as [Hc Hl]. apply andb_true_iff in Hc as [Hr He%Z.eqb_eq].
  exists e, w. split; [reflexivity|].
  apply (zero_budget_never_settles "db" zero_config empty_disk e w [] zero_ops _ (bstr "a") 30 eq_refl E).
  - by apply run_checked_ok.
  - reflexivity.
  - by right.
  - by apply live_below_ok.
  - by apply compactions_checked_ok.
Defined.

(** With a fan-out of 1 the budgets do not grow, and a file larger than one is
    over it at every level: forty rounds move it forty levels down, and it is still
    planned for. *)
Definition flat_config : Config := mkConfig Always 100 2 1.

Example flat_fanout_sinks : match engine_open (T := BTreeMemtable) "db" flat_config (mkWorld empty_disk []) with
  | (Ok e, w) =>
      let '(_, s) := run_ops [OpWrite (bstr "a") (Some (bstr "1")); OpRotate 0; OpTurn 0; OpWrite (bstr "b") (Some (bstr "2"));
        OpRotate 0; OpTurn 0] (e, mkWorld (disk w) []) in
      let '(r, s) := compact_all 40 s in
      (r, fm_level <$> sn_files (en_snapshot (fst s)), pl_level <$> plan_of (fst s))
  | _ => (Ok None, [], None) end = (Ok None, [40], Some 40).
Proof. vm_compute. reflexivity. Qed.
