(* ===== verification/Callers.v ===== *)
(** * Callers sharing a store ([engine.rs])

    [Engine] runs each method on its own. Here the methods are cut where they take or
    release a lock another thread may be waiting for: a write between the log and the
    table in memory, a rotation, the background thread between a file and the commit
    that names it, a compaction between its plan, its merge and its commit. Any number
    of client calls and the background thread interleave at those points. What a
    thread does in between, on files no other thread touches, is one step; so is an
    append to the log, whose own callers [Wal] interleaves. *)

From S2P Require Import Prelude WalRecord WalReplay Wal Memtable SsTable Disk Manifest Naming Compaction Engine Runs.

(** What a thread is asked for; the background thread is asked once. *)
Inductive Request :=
  | RWrite (key : bytes) (value : option bytes)
  | RGet (key : bytes)
  | RSync
  | RFlush
  | RCompact
  | RBackground.

#[export] Instance Request_eq_dec : EqDecision Request.
Proof. solve_decision. Defined.

(** On whose behalf a compaction runs. *)
Inductive Owner := Client | Background.

Section Stages.
Context {T : Type} `{!Memtable T}.
Implicit Types (e : Engine T) (s : Engine T * World) (key : bytes) (value : option bytes).

Abbreviation em := (stm (Engine T * World)).

(** Where a thread is. *)
Inductive Stage :=
  | WriteBegin (key : bytes) (value : option bytes)
  | WriteLog (key : bytes) (value : option bytes)
  | WriteInsert (key : bytes) (value : option bytes) (seq : Z)   (* holding the log's lock for reading *)
  | WriteRotate
  | DropLog (previous : Wal) (waits : bool)
  | ReadBegin (key : bytes)
  | SyncBegin
  | FlushRotate
  | FlushWait
  | NextTask
  | FlushFile (frozen : Frozen T)
  | FlushCommit (frozen : Frozen T) (table : Table)
  | FlushRemove (frozen : Frozen T)
  | FlushMark
  | TaskFailed (err : Error)
  | CompactPlan (owner : Owner)
  | CompactFind (owner : Owner) (plan : Plan) (snapshot : Snapshot)   (* from here on holding [compacting] *)
  | CompactMerge (owner : Owner) (plan : Plan) (snapshot : Snapshot) (inputs : list SsTable)
  | CompactCommit (owner : Owner) (plan : Plan) (outputs : list Table)
  | CompactRemove (owner : Owner) (plan : Plan)
  | CompactMark (owner : Owner)
  | Returned (a : Answer).

Definition start (r : Request) : Stage :=
  match r with
  | RWrite key value => WriteBegin key value
  | RGet key => ReadBegin key
  | RSync => SyncBegin
  | RFlush => FlushRotate
  | RCompact => CompactPlan Client
  | RBackground => NextTask
  end.

(** ** The pieces *)

(** The part of [write] under the log's lock that follows the append. *)
Definition insert_active (key : bytes) (value : option bytes) (seq : Z) : em bool :=
  st ← gete en_state;
  let inserted := mt_insert (st_active st) key seq value in
  let active := snd inserted in
  _ ← set_state (mkState active (st_active_logs st) (st_frozen st) (st_levels st));
  _ ← expect (fst inserted);
  config ← gete en_config;
  mret (cf_memtable_bytes config <=? mt_approx_bytes active).

(** The part of [rotate] under its three locks: the old log, if it was replaced. *)
Definition rotate_locked (min_bytes : Z) : em (option Wal) :=
  st ← gete en_state;
  if mt_is_empty (st_active st) || (mt_approx_bytes (st_active st) <? min_bytes) then mret None
  else
    number ← fetch_number;
    dir ← gete en_dir;
    config ← gete en_config;
    previous ← gete en_wal;
    let name := file_name number LOG_EXT in
    fresh ← on_disk (wal_create (join dir name) name (cf_sync config) (wl_last_seq previous));
    _ ← set_wal fresh;
    let frozen := mkFrozen (st_active st) (st_active_logs st) :: st_frozen st in
    _ ← set_state (mkState (mt_build (cf_memtable_bytes config)) [name] frozen (st_levels st));
    shape_changed ← gete en_shape_changed;
    shutdown ← gete en_shutdown;
    _ ← set_queue (zlen frozen) shape_changed shutdown;
    mret (Some previous).

(** [drop(previous)], the locks released. *)
Definition drop_log (previous : Wal) : em unit := modify (fun '(e, w) => (e, snd (wal_drop (previous, w)))).

(** The plan of a compaction, with the snapshot it was made on. *)
Definition plan_compaction : em (option (Plan * Snapshot)) :=
  snapshot ← gete en_snapshot;
  config ← gete en_config;
  level_bytes ← gete level_bytes;
  mret ((fun p => (p, snapshot)) <$> plan snapshot (cf_l0_trigger config) level_bytes (cf_fanout config)).

Definition find_inputs_of (p : Plan) : em (list SsTable) :=
  st ← gete en_state;
  mret (omap (fun meta => find_table (st_levels st) (fm_number meta)) (pl_inputs p)).

(** The outputs of a compaction, on the device. *)
Definition write_outputs (p : Plan) (snapshot : Snapshot) (inputs : list SsTable) : em (option (list Table)) :=
  merged ← write_merged p snapshot inputs;
  match merged with
  | None => mret None
  | Some outputs =>
      dir ← gete en_dir;
      _ ← on_disk (sync_dir dir);
      mret (Some outputs)
  end.

Definition commit_outputs (p : Plan) (outputs : list Table) : em unit :=
  let removed := input_numbers p in
  commit (tb_meta <$> outputs) removed (publish_compaction removed (output_level p) outputs).

Definition remove_inputs (p : Plan) : em unit :=
  dir ← gete en_dir;
  on_disk (remove_files dir ((fun number => file_name number TABLE_EXT) <$> input_numbers p)).

Definition remove_logs (frozen : Frozen T) : em unit :=
  dir ← gete en_dir;
  on_disk (remove_files dir (fz_logs frozen)).

(** ** A step of a thread *)

(** A piece, and where it leads. *)
Definition after {A} (m : em A) (next : A -> Stage) (failed : Error -> Stage) s : Stage * (Engine T * World) :=
  let '(r, s) := m s in
  (match r with Ok a => next a | Err err => failed err end, s).

Definition return_unit (r : result unit) : Stage := Returned (Done r).
Definition return_error (err : Error) : Stage := return_unit (Err err).

(** The end of [compact_all]. *)
Definition settled (owner : Owner) : Stage := match owner with Client => return_unit (Ok tt) | Background => NextTask end.
Definition gave_up (owner : Owner) (err : Error) : Stage := match owner with Client => return_error err | Background => TaskFailed err end.

(** One step. A wait on the condition variable is a step that changes nothing. *)
Definition stage_step (p : Stage) s : Stage * (Engine T * World) :=
  match p with
  | WriteBegin key value =>
      after take_background_error (fun err => match err with Some err => return_error err | None => WriteLog key value end) return_error s
  | WriteLog key value => after (log_append key value) (fun seq => WriteInsert key value seq) return_error s
  | WriteInsert key value seq =>
      after (insert_active key value seq) (fun full : bool => if full then WriteRotate else return_unit (Ok tt)) return_error s
  | WriteRotate =>
      after (config ← gete en_config; rotate_locked (cf_memtable_bytes config))
        (fun previous => match previous with Some wal => DropLog wal false | None => return_unit (Ok tt) end) return_error s
  | DropLog previous waits => after (drop_log previous) (fun _ => if waits then FlushWait else return_unit (Ok tt)) return_error s
  | ReadBegin key => let '(r, s) := engine_get key s in (Returned (Value r), s)
  | SyncBegin => let '(r, s) := engine_sync s in (return_unit r, s)
  | FlushRotate =>
      after (rotate_locked 0) (fun previous => match previous with Some wal => DropLog wal true | None => FlushWait end) return_error s
  | FlushWait => after wait_turn (fun done => match done with Some _ => return_unit (Ok tt) | None => FlushWait end) return_error s
  | NextTask =>
      after next_task (fun task => match task with
        | Some (TaskFlush frozen) => FlushFile frozen
        | Some TaskCompact => CompactPlan Background
        | None => NextTask
        end) TaskFailed s
  | FlushFile frozen => after (flush_file frozen) (FlushCommit frozen) TaskFailed s
  | FlushCommit frozen table => after (commit [tb_meta table] [] (publish_flush table)) (fun _ => FlushRemove frozen) TaskFailed s
  | FlushRemove frozen => after (remove_logs frozen) (fun _ => FlushMark) TaskFailed s
  | FlushMark => after mark_progress (fun _ => NextTask) TaskFailed s
  | TaskFailed err => after (keep_background_error err) (fun _ => NextTask) TaskFailed s
  | CompactPlan owner =>
      after plan_compaction (fun planned => match planned with Some (p, snapshot) => CompactFind owner p snapshot | None => settled owner end)
        (gave_up owner) s
  | CompactFind owner p snapshot =>
      after (find_inputs_of p) (fun inputs =>
        if negb (length inputs =? length (pl_inputs p))%nat then settled owner else CompactMerge owner p snapshot inputs) (gave_up owner) s
  | CompactMerge owner p snapshot inputs =>
      after (write_outputs p snapshot inputs) (fun merged => match merged with Some outputs => CompactCommit owner p outputs | None => settled owner end)
        (gave_up owner) s
  | CompactCommit owner p outputs => after (commit_outputs p outputs) (fun _ => CompactRemove owner p) (gave_up owner) s
  | CompactRemove owner p => after (remove_inputs p) (fun _ => CompactMark owner) (gave_up owner) s
  | CompactMark owner => after mark_progress (fun _ => CompactPlan owner) (gave_up owner) s
  | Returned a => (Returned a, s)
  end.

(** ** Locks *)

(** The log's lock is held for reading across the two steps of a write, and taken for
    writing by a rotation. *)
Definition holds_log (p : Stage) : bool := match p with WriteInsert _ _ _ => true | _ => false end.
Definition takes_log (p : Stage) : bool := match p with WriteRotate | FlushRotate => true | _ => false end.

(** [compacting] is held from the plan to the end of [compact_once]. *)
Definition holds_compacting (p : Stage) : bool :=
  match p with
  | CompactFind _ _ _ | CompactMerge _ _ _ _ | CompactCommit _ _ _ | CompactRemove _ _ | CompactMark _ => true
  | _ => false
  end.
Definition takes_compacting (p : Stage) : bool := match p with CompactPlan _ => true | _ => false end.

(** Whether a thread at [p] can go on, [stages] being where they all are. *)
Definition admitted (stages : list Stage) (p : Stage) : bool :=
  (negb (takes_log p) || forallb (fun q => negb (holds_log q)) stages) &&
  (negb (takes_compacting p) || forallb (fun q => negb (holds_compacting q)) stages).

(** ** Alone, the stages make up the methods *)

(** Steps of one thread, nobody else moving. *)
Definition leads : relation (Stage * (Engine T * World)) := rtc (fun x y => stage_step (fst x) (snd x) = y).

(** Where a method that returns or fails leaves its thread. *)
Definition ending {A} (good : A -> Stage) (failed : Error -> Stage) (x : result A * (Engine T * World)) : Stage * (Engine T * World) :=
  (match fst x with Ok a => good a | Err err => failed err end, snd x).

(** One stage after another is one piece after another. *)
Lemma leads_bind {A B} p (m : em A) (next : A -> Stage) failed (k : A -> em B) good s :
  stage_step p s = after m next failed s -> (forall a s, leads (next a, s) (ending good failed (k a s))) ->
  leads (p, s) (ending good failed ((a ← m; k a) s)).
Proof.
  intros Hp Hk. eapply rtc_l; [exact Hp|]. unfold mbind, stm_bind, after. destruct (m s) as [[a|err] s1]; [apply Hk|apply rtc_refl].
Qed.

Lemma leads_last {A} p (m : em A) (next : A -> Stage) failed s :
  stage_step p s = after m next failed s -> leads (p, s) (ending next failed (m s)).
Proof. intros Hp. eapply rtc_l; [exact Hp|]. unfold after. destruct (m s) as [[a|err] s1]; apply rtc_refl. Qed.

(** What the insertion changes. *)
Lemma insert_active_eq key value seq e w r s' : insert_active key value seq (e, w) = (r, s') ->
  (is_Some (fst (mt_insert (st_active (en_state e)) key seq value)) -> exists full, r = Ok full) /\ en_wal (fst s') = en_wal e /\ en_snapshot (fst s') = en_snapshot e /\
  en_next_number (fst s') = en_next_number e /\
  en_state (fst s') = mkState (snd (mt_insert (st_active (en_state e)) key seq value)) (st_active_logs (en_state e))
    (st_frozen (en_state e)) (st_levels (en_state e)).
Proof.
  unfold insert_active, gete, gets, set_state, modify, mbind, stm_bind. cbn [fst].
  destruct (fst (mt_insert _ _ _ _)); intros [= <- <-]; (split; [|done]); [by eexists|by intros [? ?]].
Qed.

Lemma rotate_split min_bytes s :
  rotate min_bytes s = (previous ← rotate_locked min_bytes; match previous with Some wal => drop_log wal | None => mret tt end) s.
Proof.
  unfold rotate, rotate_locked. destruct s as [e w]. unfold mbind, stm_bind. cbn [gete gets fst].
  destruct (_ || _); [done|]. cbn [fetch_number]. unfold gete, gets. cbn [fst].
  destruct (on_disk _ _) as [[fresh|err] s1]; [|done]. cbn. by destruct s1.
Qed.

Lemma insert_split key value seq s :
  (st ← gete en_state;
   let inserted := mt_insert (st_active st) key seq value in
   let active := snd inserted in
   _ ← set_state (mkState active (st_active_logs st) (st_frozen st) (st_levels st));
   _ ← expect (fst inserted);
   config ← gete en_config;
   if cf_memtable_bytes config <=? mt_approx_bytes active then rotate (cf_memtable_bytes config) else mret tt) s =
  (full ← insert_active key value seq; if (full : bool) then config ← gete en_config; rotate (cf_memtable_bytes config) else mret tt) s.
Proof.
  destruct s as [e w]. unfold insert_active, mbind, stm_bind, gete, gets, set_state, modify. cbn [fst].
  destruct (fst (mt_insert _ _ _ _)); [|done]. cbn. by destruct (_ <=? _).
Qed.

Lemma write_alone key value s :
  leads (WriteBegin key value, s) (ending (fun _ => return_unit (Ok tt)) return_error (engine_write key value s)).
Proof.
  apply leads_bind with (1 := eq_refl). clear s. intros [err|] s; [apply rtc_refl|].
  apply leads_bind with (1 := eq_refl). clear s. intros seq s. rewrite insert_split.
  apply leads_bind with (1 := eq_refl). clear s. intros [|] s; [|apply rtc_refl].
  assert ((config ← gete en_config; rotate (cf_memtable_bytes config)) s =
    (previous ← (config ← gete en_config; rotate_locked (cf_memtable_bytes config)); match previous with Some wal => drop_log wal | None => mret tt end) s) as ->.
  { unfold mbind at 1, stm_bind at 1. unfold gete, gets. rewrite rotate_split. done. }
  apply leads_bind with (1 := eq_refl). clear s. intros [wal|] s; [|apply rtc_refl]. by apply leads_last.
Qed.

(** A flush of the background thread. *)
Lemma flush_alone frozen s : leads (FlushFile frozen, s) (ending (fun _ => NextTask) TaskFailed (flush frozen s)).
Proof.
  apply leads_bind with (1 := eq_refl). clear s. intros table s. apply leads_bind with (1 := eq_refl). clear s. intros [] s.
  change ((dir ← gete en_dir; _ ← on_disk (remove_files dir (fz_logs frozen)); mark_progress) s) with ((_ ← remove_logs frozen; mark_progress) s).
  apply leads_bind with (1 := eq_refl). clear s. intros [] s. by apply leads_last.
Qed.

Lemma commit_dir added removed publish s r s' : commit added removed publish s = (r, s') -> en_dir (fst s') = en_dir (fst s).
Proof.
  destruct s as [e w]. unfold commit, gete, gets, set_snapshot, set_state, modify, on_disk, mbind, stm_bind. cbn [fst].
  by destruct (manifest_store _ _ w) as [[[]|err] w1]; intros [= <- <-].
Qed.

Lemma on_disk_dir {A} (m : stm World A) s r s' : on_disk m s = (r, s') -> en_dir (fst s') = en_dir (fst s).
Proof. destruct s as [e w]. unfold on_disk. destruct (m w). by intros [= <- <-]. Qed.

(** A compaction in its pieces, and by its stages. *)
Lemma compact_split s :
  compact_once s = (planned ← plan_compaction; match planned with
    | None => mret (Some false)
    | Some (p, snapshot) =>
        inputs ← find_inputs_of p;
        if negb (length inputs =? length (pl_inputs p))%nat then mret (Some false)
        else merged ← write_outputs p snapshot inputs;
          match merged with
          | None => mret None
          | Some outputs => _ ← commit_outputs p outputs; _ ← remove_inputs p; _ ← mark_progress; mret (Some true)
          end
    end) s.
Proof.
  unfold compact_once, plan_compaction, find_inputs_of, write_outputs, commit_outputs, remove_inputs. unfold mbind, stm_bind, gete, gets. cbn [fst].
    destruct (plan _ _ _ _) as [p|]; cbn [fmap option_fmap option_map mret stm_ret]; [|done]. destruct (negb _); [done|].
    destruct (write_merged _ _ _ s) as [[[outs|]|err] s1]; [|done|done]. destruct (on_disk _ s1) as [[[]|err] s2] eqn:E2; [|done].
    cbn [mret stm_ret]. destruct (commit _ _ _ s2) as [[[]|err] s3] eqn:E3; [|done].
    by rewrite (commit_dir _ _ _ _ _ _ E3), (on_disk_dir _ _ _ _ E2).
Qed.

Lemma compact_alone owner s :
  leads (CompactPlan owner, s)
    (ending (fun more => match more with Some true => CompactPlan owner | _ => settled owner end) (gave_up owner) (compact_once s)).
Proof.
  rewrite compact_split.
  apply leads_bind with (1 := eq_refl). clear s. intros [[p snapshot]|] s; [|apply rtc_refl].
  apply leads_bind with (1 := eq_refl). clear s. intros inputs s. destruct (negb _); [apply rtc_refl|].
  apply leads_bind with (1 := eq_refl). clear s. intros [outputs|] s; [|apply rtc_refl].
  apply leads_bind with (1 := eq_refl). clear s. intros [] s. apply leads_bind with (1 := eq_refl). clear s. intros [] s.
  apply leads_bind with (1 := eq_refl). clear s. intros [] s. apply rtc_refl.
Qed.
End Stages.
Arguments Stage T : clear implicits.
