(* ===== verification/Sharing.v ===== *)
(** * A shared store is a map

    The invariant of a store with any number of callers between two of their steps
    and the background thread somewhere in a flush or a compaction, and the theorem
    it gives: every call takes effect at one of its own steps, and the effects in the
    order they happen are a run of a map. *)

From S2P Require Import Prelude WalRecord WalReplay Wal WalAlone Memtable SsTable Disk Manifest Naming.
From S2P Require Import Compaction Layers Engine Store Shape EngineSpec Runs Callers Btree.

(** ** The specification *)

(** What a call does to the map, once. A write carries the sequence number the log
    gave it. *)
Inductive Effect :=
  | EWrite (key : bytes) (seq : Z) (value : option bytes)
  | ERead (key : bytes) (answer : option bytes).

(** Whose effect it can be. *)
Definition effect_for (f : Effect) (r : Request) : Prop :=
  match f with EWrite key _ value => r = RWrite key value | ERead key _ => r = RGet key end.

Definition map_effect (f : Effect) (m m' : gmap bytes bytes) : Prop :=
  match f with
  | EWrite key _ value => m' = map_write key value m
  | ERead key answer => answer = m !! key /\ m' = m
  end.

(** One effect after another, each with the call it belongs to. *)
Fixpoint map_effects (effects : list (nat * Effect)) (m m' : gmap bytes bytes) : Prop :=
  match effects with
  | [] => m' = m
  | (_, f) :: effects => exists m1, map_effect f m m1 /\ map_effects effects m1 m'
  end.

(** A write that reaches memory after a later one of its key never shows: it counts
    as the write just before that one. *)
Definition overtaken (f g : Effect) : bool :=
  match f, g with
  | EWrite key seq _, EWrite key' seq' _ => bool_decide (key = key') && (seq <? seq')
  | _, _ => false
  end.

Fixpoint place (x : nat * Effect) (effects : list (nat * Effect)) : list (nat * Effect) :=
  match effects with
  | [] => [x]
  | y :: rest => if overtaken (snd x) (snd y) then x :: y :: rest else y :: place x rest
  end.

Lemma place_perm x effects : place x effects ≡ₚ x :: effects.
Proof. induction effects as [|y rest IH]; [done|]. cbn. destruct (overtaken _ _); [done|]. rewrite IH. apply perm_swap. Qed.

Lemma elem_of_place x y effects : y ∈ place x effects <-> y = x \/ y ∈ effects.
Proof. rewrite place_perm. apply elem_of_cons. Qed.

Lemma place_app x a b : place x (a ++ b) = if existsb (fun y => overtaken (snd x) (snd y)) a then place x a ++ b else a ++ place x b.
Proof. induction a as [|y a IH]; [done|]. cbn. destruct (overtaken _ _); [done|]. rewrite IH. by destruct (existsb _ a). Qed.

(** Effects of the first [n] calls, under sequence numbers up to [z]. *)
Definition dated (n : nat) (z : Z) (effects : list (nat * Effect)) : Prop :=
  forall j f, (j, f) ∈ effects -> (j < n)%nat /\ match f with EWrite _ seq _ => seq <= z | ERead _ _ => True end.

(** What comes among those effects is one of them. *)
Lemma place_dated n z j f old new : dated n z old -> match f with EWrite _ seq _ => (j < n)%nat \/ z < seq | ERead _ _ => True end ->
  exists old' new', place (j, f) (old ++ new) = old' ++ new' /\ dated n z old' /\ forall x, x ∈ old -> x ∈ old'.
Proof.
  intros Hd Hf. rewrite place_app. destruct (existsb _ old) eqn:Ex; [|exists old, (place (j, f) new); auto].
  exists (place (j, f) old), new. split; [done|]. split; [|intros x ?; apply elem_of_place; by right].
  intros k h [[= -> ->]|Hh]%elem_of_place; [|by apply Hd].
  apply existsb_exists in Ex as ([k g] & Hg%list_elem_of_In & Eo). destruct (Hd k g Hg) as [_ Hz].
  destruct f as [key seq value|]; [|by destruct g]. destruct g as [? seq' ?|]; [|done]. cbn in Eo.
  apply andb_true_iff in Eo as [_ Hlt%Z.ltb_lt]. destruct Hf; [split; [done|]|]; lia.
Qed.

(** The run of the map, with the sequence number each value was written under. *)
Definition layer_effect (f : Effect) (m m' : layer) : Prop :=
  match f with
  | EWrite key seq value => m' = <[key := (seq, value)]> m /\ forall v, m !! key = Some v -> fst v <= seq
  | ERead key answer => answer = value_of (m !! key) /\ m' = m
  end.

Fixpoint layer_effects (effects : list (nat * Effect)) (m m' : layer) : Prop :=
  match effects with
  | [] => m' = m
  | (_, f) :: effects => exists m1, layer_effect f m m1 /\ layer_effects effects m1 m'
  end.

Lemma layer_effects_map effects : forall m m', layer_effects effects m m' -> map_effects effects (map_of m) (map_of m').
Proof.
  induction effects as [|[i f] effects IH]; intros m m'; cbn; [by intros ->|]. intros (m1 & Hf & Hrun). exists (map_of m1).
  split; [|by apply IH]. destruct f as [key seq value|key answer]; cbn in *; destruct Hf as [-> Hf]; [apply map_of_insert|]. by rewrite Hf, map_of_lookup.
Qed.

Lemma layer_effects_app a b : forall m m1 m', layer_effects a m m1 -> layer_effects b m1 m' -> layer_effects (a ++ b) m m'.
Proof. induction a as [|[i f] a IH]; intros m m1 m'; cbn; [by intros ->|]. intros (m2 & Hs & Ha) Hb. exists m2. eauto. Qed.

(** Along a run, the sequence number of a key only rises. *)
Lemma layer_effects_rise effects key : forall m m' v, layer_effects effects m m' -> m !! key = Some v ->
  exists v', m' !! key = Some v' /\ fst v <= fst v'.
Proof.
  induction effects as [|[i f] effects IH]; intros m m' v; cbn; [intros ->; by exists v|]. intros (m1 & Hf & Hrun) Hv.
  assert (exists v1, m1 !! key = Some v1 /\ fst v <= fst v1) as (v1 & Hv1 & Hle).
  { destruct f as [k seq value|k answer]; destruct Hf as [-> Hf]; [|exists v; by rewrite Hf].
    destruct (decide (k = key)) as [->|Hne]; [|exists v; by rewrite lookup_insert_ne].
    exists (seq, value). rewrite lookup_insert_eq. split; [done|]. cbn. specialize (Hf v Hv). lia. }
  destruct (IH _ _ _ Hrun Hv1) as (v' & ? & ?). exists v'. split; [done|lia].
Qed.

(** The effect of a step on what the store has been told. *)
Definition effect_step (f : Effect) (m m' : layer) : Prop :=
  match f with
  | EWrite key seq value => m' = spec_insert m key seq value /\ forall v, m !! key = Some v -> fst v <> seq
  | ERead key answer => answer = value_of (m !! key) /\ m' = m
  end.

Lemma place_read i key answer effects : place (i, ERead key answer) effects = effects ++ [(i, ERead key answer)].
Proof. induction effects as [|y rest IH]; [done|]. cbn. by rewrite IH. Qed.

Lemma place_write i key seq value effects : forall m told, layer_effects effects m told ->
  (forall v, told !! key = Some v -> fst v <> seq) -> (forall v, m !! key = Some v -> fst v <= seq) ->
  layer_effects (place (i, EWrite key seq value) effects) m (spec_insert told key seq value).
Proof.
  induction effects as [|[j g] rest IH]; intros m told; cbn [place layer_effects].
  - intros -> Hne Hm. exists (<[key := (seq, value)]> m). split; [by split|]. unfold spec_insert, spec_newest.
    destruct (m !! key) as [[q v]|] eqn:E; [|done]. specialize (Hm _ eq_refl). specialize (Hne _ eq_refl). cbn in *. by rewrite (proj2 (Z.ltb_lt q seq)) by lia.
  - intros (m1 & Hg & Hrun) Hne Hm. cbn [snd]. destruct (overtaken (EWrite key seq value) g) eqn:Eo.
    + destruct g as [k seq' value'|]; [|done]. cbn in Eo. apply andb_true_iff in Eo as [->%bool_decide_eq_true Hlt%Z.ltb_lt].
      destruct Hg as [-> _]. destruct (layer_effects_rise rest k _ _ (seq', value') Hrun (lookup_insert_eq _ _ _)) as (v' & Hv' & Hle).
      assert (spec_insert told k seq value = told) as ->.
      { unfold spec_insert, spec_newest. rewrite Hv'. destruct v' as [q v']. cbn in Hle. by rewrite (proj2 (Z.ltb_ge _ _)) by lia. }
      exists (<[k := (seq, value)]> m). split; [by split|]. exists (<[k := (seq', value')]> m). split; [|done].
      split; [by rewrite insert_insert_eq|]. intros v. rewrite lookup_insert_eq. intros [= <-]. cbn. lia.
    + exists m1. split; [done|]. apply IH; [done|done|]. intros v Hv. destruct g as [k seq' value'|k answer]; destruct Hg as [-> Hg]; [|apply Hm; by rewrite <- Hg].
      destruct (decide (k = key)) as [->|Hk]; [|rewrite lookup_insert_ne in Hv by done; by apply Hm].
      destruct (layer_effects_rise rest key _ _ (seq', value') Hrun (lookup_insert_eq _ _ _)) as (v' & Hv' & Hle).
      rewrite lookup_insert_eq in Hv. injection Hv as <-. cbn in *. rewrite bool_decide_true in Eo by done. apply Z.ltb_ge in Eo. lia.
Qed.

Section Sharing.
Context {T : Type} `{MemtableLaws T}.
Implicit Types (e : Engine T) (w : World) (told : layer) (p q : Stage T) (b : Z).

#[local] Abbreviation levels e := (st_levels (en_state e)).
#[local] Abbreviation last_seq e := (wl_last_seq (en_wal e)).

(** The effect of a step. *)
Definition effect_of (p p' : Stage T) : option Effect :=
  match p, p' with
  | WriteInsert key value seq, _ => Some (EWrite key seq value)
  | ReadBegin key, Returned (Value (Ok answer)) => Some (ERead key answer)
  | _, _ => None
  end.

(** What the store has been told after it. *)
Definition told_after (p : Stage T) told : layer :=
  match p with WriteInsert key value seq => spec_insert told key seq value | _ => told end.

Definition record (i : nat) (p p' : Stage T) (effects : list (nat * Effect)) : list (nat * Effect) :=
  match effect_of p p' with Some f => place (i, f) effects | None => effects end.

Lemma effect_told p p' told told' :
  match effect_of p p' with Some f => effect_step f told told' | None => told' = told end -> told' = told_after p told.
Proof.
  destruct p; cbn [effect_of told_after]; try done; [by intros [-> _]|]. destruct p' as [| | | | | | | | | | | | | | | | | | | | |[?|[?|?]]]; try done. by intros [_ ->].
Qed.

Record Store := mkStore {
  so_engine : Engine T * World;
  so_calls : list (Request * Stage T);
  so_effects : list (nat * Effect);
}.

(** The limits of the machine, where a step needs them. *)
Definition step_in_limits (p : Stage T) e e' : Prop :=
  last_seq e < u64_max /\ numbers_left e /\ typed e' /\
  match p with WriteInsert _ _ seq => has_room (st_active (en_state e)) seq | _ => True end.

(** A new call, or a step of a thread that no lock keeps waiting. *)
Inductive store_step : Store -> Store -> Prop :=
  | step_call s r : r <> RBackground ->
      store_step s (mkStore (so_engine s) (so_calls s ++ [(r, start r)]) (so_effects s))
  | step_thread s i r p p' s' :
      so_calls s !! i = Some (r, p) -> admitted (snd <$> so_calls s) p = true -> stage_step p (so_engine s) = (p', s') ->
      step_in_limits p (fst (so_engine s)) (fst s') ->
      store_step s (mkStore s' (<[i := (r, p')]> (so_calls s))
        (record i p p' (so_effects s))).

Definition store_steps : Store -> Store -> Prop := rtc store_step.

(** An open store: its background thread, and nobody else yet. *)
Definition fresh_store (s : Engine T * World) : Store := mkStore s [(RBackground, NextTask)] [].

(** ** What is true of a thread between two of its steps *)

(** File numbers taken and not yet in the levels. *)
Definition numbers (p : Stage T) : list Z :=
  match p with
  | FlushCommit _ table => [number_of table]
  | CompactCommit _ _ outputs => number_of <$> outputs
  | _ => []
  end.

(** A sequence number handed out and not yet in memory. *)
Definition flying (p : Stage T) : list Z := match p with WriteInsert _ _ seq => [seq] | _ => [] end.

Definition numbers_ok e p : Prop :=
  forall n, n ∈ numbers p -> 0 <= n < en_next_number e /\ n ∉ number_of <$> concat (levels e).

(** [b]: what is frozen or in a file is numbered up to there; what is not yet in
    memory is numbered past it. *)
Definition thread_ok b e p : Prop :=
  match p with
  | WriteInsert _ _ seq => b < seq <= last_seq e /\
      forall A, represents (st_active (en_state e)) A -> forall k v, A !! k = Some v -> fst v <> seq
  | FlushFile frozen => last (st_frozen (en_state e)) = Some frozen
  | FlushCommit frozen table => last (st_frozen (en_state e)) = Some frozen /\ made_of frozen table
  | CompactFind _ pl sn => exists n0 L fresh, planned e pl sn n0 L fresh
  | CompactMerge _ pl sn inputs => exists n0 L fresh ts, planned e pl sn n0 L fresh /\
      inputs = tb_table <$> ts /\ tb_meta <$> ts = pl_inputs pl /\ (forall t, t ∈ ts -> t ∈ concat L)
  | CompactCommit _ pl outs => exists sn n0 L fresh n1, planned e pl sn n0 L fresh /\ n0 <= n1 <= en_next_number e /\
      ((forall t, t ∈ outs -> st_bytes (tb_table t) <= u64_max) -> outputs_ok sn n0 (concat L) pl outs n1)
  | _ => True
  end.

(** Run by the background thread. *)
Definition background (p : Stage T) : bool :=
  match p with
  | NextTask | FlushFile _ | FlushCommit _ _ | FlushRemove _ | FlushMark | TaskFailed _
  | CompactPlan Background | CompactFind Background _ _ | CompactMerge Background _ _ _ | CompactCommit Background _ _
  | CompactRemove Background _ | CompactMark Background => true
  | _ => false
  end.

(** What two threads cannot both be at, or both have. *)
Record stages_apart p q : Prop := {
  ap_numbers : forall n, n ∈ numbers p -> n ∉ numbers q;
  ap_flying : forall n, n ∈ flying p -> n ∉ flying q;
  ap_compacting : holds_compacting p && holds_compacting q = false;
  ap_background : background p && background q = false;
}.

Lemma stages_apart_sym p q : stages_apart p q -> stages_apart q p.
Proof. intros [A1 A2 A3 A4]. split; [intros n Hn Hp; by eapply A1|intros n Hn Hp; by eapply A2|by rewrite andb_comm..]. Qed.

Lemma planned_quiet n e e' pl sn n0 L fresh : quiet n e e' -> planned e pl sn n0 L fresh -> planned e' pl sn n0 L fresh.
Proof. intros [_ _ Q3 _ Q5] [P1 P2 P3 P4 P5]. split; [done|lia|done|done|by rewrite Q3]. Qed.

(** A state stands for one list of layers. *)
Lemma state_holds_unique (st : State T) A Fs A' Fs' : state_holds st A Fs -> state_holds st A' Fs' -> A = A' /\ Fs = Fs'.
Proof.
  intros [Ha Hf _] [Ha' Hf' _]. split; [by eapply represents_unique|].
  revert Fs' Hf'. induction Hf as [|f m fs ms [Hm _] _ IH]; intros Fs' Hf'; inversion_clear Hf' as [|? m' ? ms' [Hm' _] Hfs]; [done|].
  f_equal; [by eapply represents_unique|by apply IH].
Qed.

(** ** What a step changes *)

(** What every step leaves true of the engine. *)
Record shared b e told : Prop := {
  sh_inv : engine_inv e told;
  sh_below : files_below b (en_state e);
  sh_settled : forall A, represents (st_active (en_state e)) A -> settled_below b A told;
  sh_bound : 0 <= b <= last_seq e;
}.

(** What a step at [p] may do to the engine, the bound and what has been told. *)
Inductive change (p : Stage T) b e told : Z -> Engine T -> layer -> Prop :=
  | change_quiet n e' : 0 <= n -> quiet n e e' -> change p b e told b e' told
  | change_log e' : same_but_log e e' -> tidy (en_wal e') -> last_seq e <= last_seq e' <= u64_max -> change p b e told b e' told
  | change_insert key value seq A e' : p = WriteInsert key value seq -> en_wal e' = en_wal e -> en_snapshot e' = en_snapshot e ->
      en_next_number e' = en_next_number e ->
      represents (st_active (en_state e)) A -> represents (st_active (en_state e')) (spec_insert A key seq value) ->
      en_state e' = mkState (snd (mt_insert (st_active (en_state e)) key seq value)) (st_active_logs (en_state e))
        (st_frozen (en_state e)) (levels e) ->
      change p b e told b e' (spec_insert told key seq value)
  | change_rotate logs budget name e' : takes_log p = true -> en_snapshot e' = en_snapshot e ->
      en_next_number e <= en_next_number e' -> last_seq e <= last_seq e' ->
      en_state e' = mkState (mt_build budget) name (mkFrozen (st_active (en_state e)) logs :: st_frozen (en_state e)) (levels e) ->
      change p b e told (last_seq e) e' told
  | change_flush frozen t e' : p = FlushCommit frozen t -> en_wal e' = en_wal e -> en_next_number e' = en_next_number e ->
      en_state e' = publish_flush t (en_state e) -> change p b e told b e' told
  | change_compact o pl outs e' : p = CompactCommit o pl outs -> en_wal e' = en_wal e -> en_next_number e' = en_next_number e ->
      en_state e' = publish_compaction (input_numbers pl) (output_level pl) outs (en_state e) -> change p b e told b e' told.

(** A planned compaction stays one, whatever another thread does. *)
Lemma planned_change p b e told b' e' told' pl sn n0 L fresh : change p b e told b' e' told' -> holds_compacting p = false ->
  planned e pl sn n0 L fresh -> exists fresh', planned e' pl sn n0 L fresh'.
Proof.
  intros Hc Hp [P1 P2 P3 P4 P5].
  destruct Hc as [n e' Hn [Q1 Q2 Q3 Q4 Q5]|e' (L1 & L2 & L3 & L4) Ht Hl|key value seq A e' -> C1 C2 C3 C4 C5 C6|
    logs budget name e' Hlog C1 C2 C3 C4|frozen t e' -> C1 C2 C3|o pl' outs e' -> C1 C2 C3].
  - exists fresh. split; [done|lia|done|done|by rewrite Q3].
  - exists fresh. split; [done|lia|done|done|by rewrite L1].
  - exists fresh. split; [done|lia|done|done|by rewrite C6].
  - exists fresh. split; [done|lia|done|done|by rewrite C4].
  - exists (t :: fresh). split; [done|lia|done|done|]. rewrite C3. cbn [publish_flush st_levels]. rewrite P5. by destruct L.
  - done.
Qed.

(** The tables of the levels after a step. *)
Lemma change_levels p b e told b' e' told' t : change p b e told b' e' told' ->
  t ∈ concat (levels e') -> t ∈ concat (levels e) \/ number_of t ∈ numbers p.
Proof.
  intros Hc.
  destruct Hc as [n e' Hn [Q1 Q2 Q3 Q4 Q5]|e' (L1 & L2 & L3 & L4) Ht Hl|key value seq A e' -> C1 C2 C3 C4 C5 C6|
    logs budget name e' Hlog C1 C2 C3 C4|frozen u e' -> C1 C2 C3|o pl' outs e' -> C1 C2 C3].
  - rewrite Q3. by left.
  - rewrite L1. by left.
  - rewrite C6. by left.
  - rewrite C4. by left.
  - rewrite C3. cbn [publish_flush st_levels numbers]. destruct (levels e) as [|l0 deeper]; [by left|].
    intros [->|Hin]%elem_of_cons; [right; left|by left].
  - rewrite C3. cbn [publish_compaction st_levels numbers]. intros [Hin|Hin]%compacted_tables; [right|by left].
    by apply list_elem_of_fmap_2.
Qed.

Lemma change_next p b e told b' e' told' : change p b e told b' e' told' -> en_next_number e <= en_next_number e'.
Proof.
  intros Hc. destruct Hc as [n e' Hn [Q1 Q2 Q3 Q4 Q5]|e' (L1 & L2 & L3 & L4) Ht Hl|key value seq A e' -> C1 C2 C3 C4 C5 C6|
    logs budget name e' Hlog C1 C2 C3 C4|frozen u e' -> C1 C2 C3|o pl' outs e' -> C1 C2 C3]; lia.
Qed.

Lemma change_last p b e told b' e' told' : change p b e told b' e' told' -> last_seq e <= last_seq e'.
Proof.
  intros Hc. destruct Hc as [n e' Hn [Q1 Q2 Q3 Q4 Q5]|e' (L1 & L2 & L3 & L4) Ht Hl|key value seq A e' -> C1 C2 C3 C4 C5 C6|
    logs budget name e' Hlog C1 C2 C3 C4|frozen u e' -> C1 C2 C3|o pl' outs e' -> C1 C2 C3]; rewrite ?Q1, ?C1; lia.
Qed.

(** The oldest frozen table stays the oldest until the background thread takes it. *)
Lemma change_frozen p b e told b' e' told' frozen : change p b e told b' e' told' -> background p = false ->
  last (st_frozen (en_state e)) = Some frozen -> last (st_frozen (en_state e')) = Some frozen.
Proof.
  intros Hc Hb Hl. destruct Hc as [n e' Hn [Q1 Q2 Q3 Q4 Q5]|e' (L1 & L2 & L3 & L4) Ht Hl'|key value seq A e' -> C1 C2 C3 C4 C5 C6|
    logs budget name e' Hlog C1 C2 C3 C4|frozen' u e' -> C1 C2 C3|o pl' outs e' -> C1 C2 C3].
  - by rewrite Q3.
  - by rewrite L1.
  - by rewrite C6.
  - rewrite C4. cbn [st_frozen]. by destruct (st_frozen (en_state e)).
  - done.
  - by rewrite C3.
Qed.

(** What a step leaves true of the other threads. *)
Lemma change_others p q b e told b' e' told' : change p b e told b' e' told' -> stages_apart p q ->
  (takes_log p = true -> flying q = []) -> thread_ok b e q -> numbers_ok e q -> thread_ok b' e' q /\ numbers_ok e' q.
Proof.
  intros Hc [A1 A2 A3 A4] Hlog Hq Hn. pose proof (change_next _ _ _ _ _ _ _ Hc) as Hnx. split.
  2:{ intros n Hin. destruct (Hn n Hin) as [Hr Hno]. split; [lia|]. intros (t & -> & Ht)%list_elem_of_fmap.
      destruct (change_levels _ _ _ _ _ _ _ _ Hc Ht) as [Hold|Hnew]; [by apply Hno, list_elem_of_fmap_2|by apply (A1 (number_of t))]. }
  assert (background q = true -> forall frozen, last (st_frozen (en_state e)) = Some frozen -> last (st_frozen (en_state e')) = Some frozen) as Hfz.
  { intros Eq frozen. rewrite Eq, andb_true_r in A4. by eapply change_frozen. }
  assert (holds_compacting q = true -> forall pl sn n0 L fresh, planned e pl sn n0 L fresh -> exists fresh', planned e' pl sn n0 L fresh') as Hpl.
  { intros Eq pl sn n0 L fresh. rewrite Eq, andb_true_r in A3. by eapply planned_change. }
  destruct q as [| |key value seq| | | | | | | |frozen|frozen t| | | | |o pl sn|o pl sn inputs|o pl outs| | |]; try done; cbn [thread_ok flying] in *.
  - destruct Hq as [Hb HA].
    destruct Hc as [n e' _ [Q1 Q2 Q3 Q4 Q5]|e' (L1 & L2 & L3 & L4) Ht Hl|key' value' seq' A e' -> C1 C2 C3 C4 C5 C6|
      logs budget name e' Hlg C1 C2 C3 C4|frozen' u e' -> C1 C2 C3|o pl' outs e' -> C1 C2 C3].
    + by rewrite Q1, Q3.
    + rewrite L1. split; [lia|done].
    + rewrite C1. split; [done|]. intros A' HA' k v. rewrite (represents_unique _ _ _ HA' C5), spec_insert_lookup.
      assert (A !! k = Some v -> fst v <> seq) as Hold by (intros Hk; by eapply HA). destruct (decide (k = key')); [|done].
      destruct (spec_newest A key' seq'); [|done]. intros [= <-]. cbn. intros ->. apply (A2 seq); left.
    + by specialize (Hlog Hlg).
    + by rewrite C1, C3.
    + by rewrite C1, C3.
  - by apply Hfz.
  - destruct Hq as [Hl Hm]. split; [by apply Hfz|done].
  - destruct Hq as (n0 & L & fresh & Hp). destruct (Hpl eq_refl _ _ _ _ _ Hp) as [fresh' ?]. by exists n0, L, fresh'.
  - destruct Hq as (n0 & L & fresh & ts & Hp & Hq). destruct (Hpl eq_refl _ _ _ _ _ Hp) as [fresh' ?]. by exists n0, L, fresh', ts.
  - destruct Hq as (sn & n0 & L & fresh & n1 & Hp & Hn1 & Ho). destruct (Hpl eq_refl _ _ _ _ _ Hp) as [fresh' ?].
    exists sn, n0, L, fresh', n1. split_and!; [done|lia|lia|done].
Qed.

(** ** One step of one thread *)

(** A step from [p] to [p'] was one of the changes, kept what is shared, and left the
    thread where it can go on; and the map saw its effect. *)
Definition advanced p b e told p' e' : Prop :=
  exists b' told', change p b e told b' e' told' /\ shared b' e' told' /\ thread_ok b' e' p' /\ numbers_ok e' p' /\
    (forall n, n ∈ numbers p' -> n ∈ numbers p \/ en_next_number e <= n) /\ (forall n, n ∈ flying p' -> last_seq e < n) /\
    match effect_of p p' with Some f => effect_step f told told' | None => told' = told end.

Lemma shared_quiet n b e e' told : 0 <= n -> quiet n e e' -> shared b e told -> shared b e' told.
Proof.
  intros Hn Hq [S1 S2 S3 S4]. pose proof (quiet_inv _ _ _ _ S1 Hq). destruct Hq as [Q1 Q2 Q3 Q4 Q5].
  split; [done|by rewrite Q3|by rewrite Q3|by rewrite Q1].
Qed.

Lemma advanced_quiet n p b e told p' e' : 0 <= n -> quiet n e e' -> shared b e told -> thread_ok b e' p' -> numbers_ok e' p' ->
  (forall n, n ∈ numbers p' -> n ∈ numbers p \/ en_next_number e <= n) -> flying p' = [] -> effect_of p p' = None ->
  advanced p b e told p' e'.
Proof.
  intros Hn Hq Hs Hth Hnum Hnew Hfl Hef. exists b, told. rewrite Hfl, Hef. split_and!; [by eapply change_quiet|by eapply shared_quiet|done..| |done].
  by intros m ?%elem_of_nil.
Qed.

(** A stage that promises nothing. *)
Definition idle p : Prop := numbers p = [] /\ flying p = [] /\ forall b e, thread_ok b e p.

Lemma advanced_idle n p b e told p' e' : 0 <= n -> quiet n e e' -> shared b e told -> idle p' -> effect_of p p' = None ->
  advanced p b e told p' e'.
Proof.
  intros Hn Hq Hs (I1 & I2 & I3) Hef. eapply advanced_quiet; [done|done|done|done| | |done|done]; intros m; rewrite I1; by intros ?%elem_of_nil.
Qed.

Lemma idle_settled owner : idle (settled owner).
Proof. by destruct owner. Qed.

Lemma idle_gave_up owner err : idle (gave_up owner err).
Proof. by destruct owner. Qed.

(** The log moves on. *)
Lemma shared_log b e e' told : same_but_log e e' -> tidy (en_wal e') -> last_seq e <= last_seq e' <= u64_max -> shared b e told -> shared b e' told.
Proof.
  intros (L1 & L2 & L3 & L4) Ht Hl [S1 S2 S3 S4]. split; [|by rewrite L1|by rewrite L1|lia].
  eapply inv_with_wal; [exact S1|done|lia|done|done|lia].
Qed.

(** What is in memory is numbered within what the log has handed out. *)
Lemma active_within b e told A k v : shared b e told -> represents (st_active (en_state e)) A -> A !! k = Some v -> 0 <= fst v <= last_seq e.
Proof.
  intros [S1 _ _ _] HA Hv. destruct (ei_holds _ _ S1) as (A' & Fs & [Ha _ _] & _ & _ & Hw).
  rewrite (represents_unique _ _ _ HA Ha) in Hv. apply (Hw A' k v); [left|done].
Qed.

Lemma append_advanced key value b e w told r s' : shared b e told -> last_seq e < u64_max -> log_append key value (e, w) = (r, s') ->
  advanced (WriteLog key value) b e told (match r with Ok seq => WriteInsert key value seq | Err err => return_error err end) (fst s').
Proof.
  intros Hs Hlt Ha. pose proof Hs as [S1 S2 S3 S4]. destruct S1 as [Htidy Hseq _ _ _ _].
  apply log_append_spec in Ha as (Hsame & Ht & Hl & Hok); [|done|lia].
  exists b, told. split; [by apply change_log; [|done|lia]|]. split; [by eapply shared_log; [done|done|lia|]|].
  destruct r as [seq|err].
  - destruct (Hok seq eq_refl) as [Eseq Els]. destruct Hsame as (L1 & _). split_and!; [|by intros n ?%elem_of_nil..| |done].
    + cbn. rewrite Els. split; [lia|]. rewrite L1. intros A HA k v Hv E. pose proof (active_within _ _ _ _ _ _ Hs HA Hv). lia.
    + intros n ->%list_elem_of_singleton. lia.
  - split_and!; [done|by intros n ?%elem_of_nil..|done].
Qed.

Lemma sync_log e w r s' : tidy (en_wal e) -> engine_sync (e, w) = (r, s') ->
  same_but_log e (fst s') /\ tidy (en_wal (fst s')) /\ last_seq (fst s') = last_seq e.
Proof.
  intros Ht. destruct (wal_sync_ends (en_wal e) w Ht) as (ra & wal & wa & Hw & Hta & Hla).
  unfold engine_sync. rewrite Hw. intros [= _ <-]. done.
Qed.

Lemma sync_advanced b e w told r s' : shared b e told -> engine_sync (e, w) = (r, s') -> advanced SyncBegin b e told (return_unit r) (fst s').
Proof.
  intros Hs Ha. pose proof (sh_inv _ _ _ Hs) as Hinv. pose proof (ei_seq _ _ Hinv).
  apply (sync_log _ _ _ _ (ei_tidy _ _ Hinv)) in Ha as (Hsame & Ht & Hl).
  exists b, told. split_and!; [apply change_log; [done|done|lia]|eapply shared_log; [exact Hsame|done|lia|done]|done|by intros n ?%elem_of_nil..|done].
Qed.

(** The mutation reaches the table in memory. *)
Lemma insert_shared key value seq b e e' told A : shared b e told -> thread_ok b e (WriteInsert key value seq) ->
  represents (st_active (en_state e)) A -> represents (st_active (en_state e')) (spec_insert A key seq value) ->
  en_wal e' = en_wal e -> en_snapshot e' = en_snapshot e -> en_next_number e' = en_next_number e ->
  en_state e' = mkState (snd (mt_insert (st_active (en_state e)) key seq value)) (st_active_logs (en_state e))
    (st_frozen (en_state e)) (levels e) ->
  shared b e' (spec_insert told key seq value).
Proof.
  intros [S1 S2 S3 S4] [Hb Hfresh] HA HA' E1 E2 E3 E4.
  destruct S1 as [H1 H2 H3 H4 H5 (A0 & Fs & [Ha Hfz Hlk] & Ho & Hag & Hw)]. assert (A0 = A) as -> by by eapply represents_unique.
  assert (below b (Fs ++ file_layers (levels e))) as Hbl by by apply (S2 A Fs).
  destruct (spec_insert_top A _ told _ key seq value Hag Ho Hbl (S3 A HA) ltac:(lia)) as (Hag' & Ho' & Hset).
  assert (forall m : layer, within (last_seq e) [m] -> within (last_seq e) [spec_insert m key seq value]) as Hins.
  { intros m Hm m' k v ->%list_elem_of_singleton. rewrite spec_insert_lookup. intros Hv.
    assert (m !! k = Some v -> 0 <= fst v <= last_seq e) as Hold by (intros Hv'; by apply (Hm m k v ltac:(left))).
    destruct (decide (k = key)); [|auto]. destruct (spec_newest m key seq); [|auto]. injection Hv as <-. cbn. lia. }
  split; [split; rewrite ?E1, ?E2, ?E3, ?E4; try done; [by apply Hins|]| | |by rewrite E1].
  - exists (spec_insert A key seq value), Fs. rewrite E4 in HA' |- *. rewrite E1. unfold layers_of. cbn [st_active st_frozen st_levels] in *.
    split_and!; [by split|done|done|]. intros m k v [->|Hm]%elem_of_cons Hv; [|apply (Hw m k v); [by right|done]].
    apply (Hins A) in Hv; [done| |left]. intros m' k' v' ->%list_elem_of_singleton. apply (Hw A). left.
  - intros A1 Fs1 [_ Hf1 Hl1]. rewrite E4 in *. apply (S2 A Fs1). by split.
  - intros A1 HA1. by rewrite (represents_unique _ _ _ HA1 HA').
Qed.

(** The insert returns. *)
Lemma insert_goes key value seq b e told : shared b e told -> thread_ok b e (WriteInsert key value seq) ->
  has_room (st_active (en_state e)) seq -> is_Some (fst (mt_insert (st_active (en_state e)) key seq value)).
Proof.
  intros Hs [_ Hf] Hroom. destruct (ei_holds _ _ (sh_inv _ _ _ Hs)) as (A & Fs & [HA _ _] & _).
  destruct (law_insert _ A key seq value HA Hroom) as [-> _]; [|by eexists]. intros v Hv. by apply (Hf A HA _ _ Hv).
Qed.

Lemma insert_advanced key value seq b e w told r s' : shared b e told -> thread_ok b e (WriteInsert key value seq) ->
  has_room (st_active (en_state e)) seq -> insert_active key value seq (e, w) = (r, s') ->
  advanced (WriteInsert key value seq) b e told
    (match r with Ok full => if (full : bool) then WriteRotate else return_unit (Ok tt) | Err err => return_error err end) (fst s').
Proof.
  intros Hs Hth Hroom Ha. apply insert_active_eq in Ha as (Hgo & E1 & E2 & E3 & E4).
  destruct (Hgo (insert_goes _ _ _ _ _ _ Hs Hth Hroom)) as [full ->].
  destruct (ei_holds _ _ (sh_inv _ _ _ Hs)) as (A & Fs & [HA _ _] & _).
  assert (represents (st_active (en_state (fst s'))) (spec_insert A key seq value)) as HA'.
  { rewrite E4. cbn [st_active]. apply law_insert; [done|done|]. intros v Hv. destruct Hth as [_ Hf]. by apply (Hf A HA _ _ Hv). }
  exists b, (spec_insert told key seq value). split; [by eapply change_insert|]. split; [by eapply insert_shared|].
  assert (effect_step (EWrite key seq value) told (spec_insert told key seq value)) as Heff.
  { split; [done|]. intros v Hv. destruct Hth as [Hb Hf]. destruct (sh_settled _ _ _ Hs A HA _ _ Hv) as [HAv|]; [by apply (Hf A HA _ _ HAv)|lia]. }
  destruct full; (split; [done|]); (split; [by intros n ?%elem_of_nil|]); (split; [by intros n ?%elem_of_nil|]); (split; [by intros n ?%elem_of_nil|exact Heff]).
Qed.

(** The rotation. *)
Lemma rotate_locked_eq min_bytes e w r s' : rotate_locked min_bytes (e, w) = (r, s') -> 0 <= en_next_number e < u64_max ->
  (quiet 1 e (fst s') /\ (r = Ok None \/ exists err, r = Err err)) \/
  (exists previous logs budget name, r = Ok (Some previous) /\ en_snapshot (fst s') = en_snapshot e /\
     en_next_number e <= en_next_number (fst s') /\ last_seq e <= last_seq (fst s') /\
     en_state (fst s') = mkState (mt_build budget) name (mkFrozen (st_active (en_state e)) logs :: st_frozen (en_state e)) (levels e)).
Proof.
  intros Hs Hn. unfold rotate_locked in Hs.
  apply stm_bind_cases in Hs as [(st & s1 & [[= ->] ->]%gete_eq & Hs)|(err & [? _]%gete_eq & _)]; [|done]. cbn [fst] in Hs.
  destruct (_ || _); [injection Hs as <- <-; left; split; [by apply quiet_refl|by left]|].
  apply stm_bind_cases in Hs as [(number & s1 & (e1 & [= ->] & -> & Hq & Hnx)%fetch_number_eq & Hs)|(err & (e1 & ? & _)%fetch_number_eq & _)]; [|done..].
  apply stm_bind_cases in Hs as [(dir & s1 & [[= ->] ->]%gete_eq & Hs)|(err & [? _]%gete_eq & _)]; [|done].
  apply stm_bind_cases in Hs as [(config & s1 & [[= ->] ->]%gete_eq & Hs)|(err & [? _]%gete_eq & _)]; [|done].
  apply stm_bind_cases in Hs as [(previous & s1 & [[= ->] ->]%gete_eq & Hs)|(err & [? _]%gete_eq & _)]; [|done]. cbn [fst] in Hs.
  apply stm_bind_cases in Hs as [(fresh & s1 & (w1 & Hc & ->)%on_disk_eq & Hs)|(err & (w1 & _ & ->)%on_disk_eq & ->)];
    [|left; split; [done|right; by eexists]].
  right. unfold set_wal, set_state, set_queue, gete, gets, modify in Hs. unfold mbind, stm_bind in Hs. cbn [fst] in Hs. injection Hs as <- <-.
  apply wal_create_ok in Hc as [_ Hl]. destruct Hq as [Q1 Q2 Q3 Q4 Q5]. rewrite Q1 in Hl.
  eexists _, _, _, _. split_and!; [done|done|cbn; lia|exact Hl|done].
Qed.

Lemma rotate_advanced min_bytes p p' b e w told r s' : shared b e told -> takes_log p = true -> effect_of p p' = None -> idle p' ->
  numbers_left e -> typed (fst s') -> rotate_locked min_bytes (e, w) = (r, s') -> advanced p b e told p' (fst s').
Proof.
  intros Hs Hp Hef Hidle Hleft Hty Hr. pose proof Hs as [S1 S2 S3 S4].
  assert (0 <= en_next_number e < u64_max) as Hn.
  { unfold numbers_left in Hleft. pose proof (zlen_nonneg (all_entries e)). pose proof (ei_next _ _ S1). lia. }
  assert (engine_inv (fst s') told) as Hinv'.
  { pose proof (rotate_split min_bytes (e, w)) as Hsp. unfold mbind, stm_bind in Hsp. rewrite Hr in Hsp. destruct s' as [e' w'].
    destruct r as [[previous|]|err]; by apply (rotate_inv _ _ _ _ _ told S1 Hleft) in Hsp. }
  apply rotate_locked_eq in Hr as [[Hq _]|(previous & logs & budget & name & _ & R1 & R2 & R3 & R4)]; [by apply (advanced_idle 1)| |done].
  destruct Hidle as (I1 & I2 & I3). pose proof (ei_seq _ _ S1). pose proof (ei_holds _ _ S1) as (A & Fs & Hst & _ & _ & Hw).
  exists (last_seq e), told. rewrite Hef. split_and!; [by eapply change_rotate| |apply I3|..|done];
    [|by intros n; rewrite I1; intros ?%elem_of_nil..|by intros n; rewrite I2; intros ?%elem_of_nil].
  split; [done|..|lia].
  - intros A1 Fs1 [_ Hf Hl]. rewrite R4 in Hf, Hl |- *. cbn [st_frozen st_levels] in *.
    inversion_clear Hf as [|? m ? ms [Hm _] Hfs]. cbn [fz_memtable] in Hm.
    destruct (state_holds_unique _ _ _ _ _ Hst (ltac:(by split) : state_holds (en_state e) m ms)) as [-> ->].
    intros m' k v Hm' Hv. apply (Hw m' k v); [exact Hm'|done].
  - intros A1 _ k v Hv. right. by apply (ei_told _ _ S1 told k v ltac:(left)).
Qed.
(** The background thread's flush. *)
Lemma flush_file_advanced frozen b e w told r s' : shared b e told -> thread_ok b e (FlushFile frozen) -> numbers_left e ->
  flush_file frozen (e, w) = (r, s') ->
  advanced (FlushFile frozen) b e told (match r with Ok t => FlushCommit frozen t | Err err => TaskFailed err end) (fst s').
Proof.
  intros Hs Hl Hleft Hf. pose proof (sh_inv _ _ _ Hs) as Hinv. cbn in Hl. pose proof (ei_next _ _ Hinv).
  assert (frozen ∈ st_frozen (en_state e)) as Hin by (apply last_Some in Hl as [rest ->]; apply elem_of_app; right; left).
  unfold numbers_left in Hleft. pose proof (zlen_nonneg (all_entries e)).
  apply (flush_file_made _ _ _ _ _ _ Hinv Hin) in Hf as [Hq Hf]; [|lia].
  destruct r as [t|err]; [|by apply (advanced_idle 1)]. destruct (Hf t eq_refl) as [Hmade Hnum]. pose proof Hq as [Q1 Q2 Q3 Q4 Q5].
  apply (advanced_quiet 1); [lia|done|done|by rewrite <- Q3 in Hl|..|done|done].
  - intros n ->%list_elem_of_singleton. split; [lia|]. rewrite Q3. intros (u & E & Hu)%list_elem_of_fmap.
    pose proof (so_next _ _ _ (ei_shape _ _ Hinv) u Hu). lia.
  - intros n ->%list_elem_of_singleton. right. lia.
Qed.

Lemma flush_commit_advanced frozen t b e w told r s' : shared b e told -> thread_ok b e (FlushCommit frozen t) ->
  numbers_ok e (FlushCommit frozen t) -> typed (fst s') -> commit [tb_meta t] [] (publish_flush t) (e, w) = (r, s') ->
  advanced (FlushCommit frozen t) b e told (match r with Ok _ => FlushRemove frozen | Err err => TaskFailed err end) (fst s').
Proof.
  intros Hs [Hl Hmade] Hn Hty Hc. pose proof Hs as [S1 S2 S3 S4]. destruct (Hn (number_of t) ltac:(left)) as [Hr Hno].
  assert (forall u, u ∈ concat (levels e) -> number_of t <> number_of u) as Hap.
  { intros u Hu E. apply Hno. rewrite E. by apply list_elem_of_fmap_2. }
  apply (flush_committed _ _ _ _ _ _ _ S1 Hl Hmade Hr Hap Hty) in Hc. destruct r as [[]|err].
  - destruct Hc as (Hinv' & Est & Ew & En & Hb). exists b, told.
    split_and!; [by eapply change_flush| |done|by intros n ?%elem_of_nil..|done].
    split; [done|by apply Hb|by rewrite Est|by rewrite Ew].
  - rewrite Hc. by apply (advanced_idle 0); [|apply quiet_refl|..].
Qed.

(** A compaction's steps. *)
Lemma plan_compaction_eq (s : Engine T * World) :
  plan_compaction s = (Ok (match plan_of (fst s) with Some pl => Some (pl, en_snapshot (fst s)) | None => None end), s).
Proof. done. Qed.

Lemma plan_advanced owner b e told : shared b e told ->
  advanced (CompactPlan owner) b e told (match plan_of e with Some pl => CompactFind owner pl (en_snapshot e) | None => settled owner end) e.
Proof.
  intros Hs. destruct (plan_of e) as [pl|] eqn:Ep; [|by apply (advanced_idle 0); [|apply quiet_refl| |apply idle_settled|]].
  apply (advanced_quiet 0); [done|by apply quiet_refl|done|..|done|done].
  - eexists _, _, _. eapply planned_now; [apply Hs|done].
  - by intros n ?%elem_of_nil.
  - by intros n ?%elem_of_nil.
Qed.

Lemma find_advanced owner pl sn b e told inputs : shared b e told -> thread_ok b e (CompactFind owner pl sn) ->
  inputs = omap (fun meta => find_table (levels e) (fm_number meta)) (pl_inputs pl) ->
  advanced (CompactFind owner pl sn) b e told
    (if negb (length inputs =? length (pl_inputs pl))%nat then settled owner else CompactMerge owner pl sn inputs) e.
Proof.
  intros Hs (n0 & L & fresh & Hp) ->. destruct (negb _); [by apply (advanced_idle 0); [|apply quiet_refl| |apply idle_settled|]|].
  apply (advanced_quiet 0); [done|by apply quiet_refl|done|..|done|done].
  - destruct (planned_inputs _ _ _ _ _ _ _ (sh_inv _ _ _ Hs) Hp) as (ts & E & Et & Hts). exists n0, L, fresh, ts. by rewrite E.
  - by intros n ?%elem_of_nil.
  - by intros n ?%elem_of_nil.
Qed.

Lemma merge_advanced owner pl sn inputs b e w told r s' : shared b e told -> thread_ok b e (CompactMerge owner pl sn inputs) ->
  numbers_left e -> write_outputs pl sn inputs (e, w) = (r, s') ->
  advanced (CompactMerge owner pl sn inputs) b e told
    (match r with Ok (Some outs) => CompactCommit owner pl outs | Ok None => settled owner | Err err => gave_up owner err end) (fst s').
Proof.
  intros Hs (n0 & L & fresh & ts & Hp & -> & Et & Hts) Hleft Hm. pose proof (sh_inv _ _ _ Hs) as Hinv. pose proof (zlen_nonneg (all_entries e)).
  unfold write_outputs in Hm.
  apply stm_bind_cases in Hm as [(merged & [e1 w1] & Hm & Hd)|(err & Hm & ->)];
    apply (write_merged_planned _ _ _ _ _ _ _ _ _ _ _ Hinv Hp Hleft Et Hts) in Hm as (Hq & Hnone & Hm); cbn [fst] in *.
  2:{ apply (advanced_idle (zlen (all_entries e))); [done|done|done|apply idle_gave_up|done]. }
  destruct merged as [outs|]; [|done]. destruct (Hm outs eq_refl) as [Hrg Houts]. pose proof Hq as [Q1 Q2 Q3 Q4 Q5].
  apply stm_bind_cases in Hd as [(dir & s1 & [[= ->] ->]%gete_eq & Hd)|(err & [? _]%gete_eq & _)]; [|done].
  apply stm_bind_cases in Hd as [([] & s1 & (w2 & _ & ->)%on_disk_eq & Hd)|(err & (w2 & _ & ->)%on_disk_eq & ->)]; cbn [fst] in *.
  2:{ apply (advanced_idle (zlen (all_entries e))); [done|done|done|apply idle_gave_up|done]. }
  injection Hd as <- <-. cbn [fst]. pose proof (ei_next _ _ Hinv).
  apply (advanced_quiet (zlen (all_entries e))); [done|done|done|..|done|done].
  - exists sn, n0, L, fresh, (en_next_number e1). split_and!; [by eapply planned_quiet| |lia|done].
    destruct Hp as [_ ? _ _ _]. lia.
  - intros n (t & -> & Ht)%list_elem_of_fmap. specialize (Hrg t Ht). split; [lia|]. rewrite Q3.
    intros (u & E & Hu)%list_elem_of_fmap. pose proof (so_next _ _ _ (ei_shape _ _ Hinv) u Hu). lia.
  - intros n (t & -> & Ht)%list_elem_of_fmap. specialize (Hrg t Ht). right. lia.
Qed.

Lemma commit_outputs_advanced owner pl outs b e w told r s' : shared b e told -> thread_ok b e (CompactCommit owner pl outs) ->
  numbers_ok e (CompactCommit owner pl outs) -> typed (fst s') -> commit_outputs pl outs (e, w) = (r, s') ->
  advanced (CompactCommit owner pl outs) b e told
    (match r with Ok _ => CompactRemove owner pl | Err err => gave_up owner err end) (fst s').
Proof.
  intros Hs (sn & n0 & L & fresh & n1 & Hp & Hn1 & Houts) Hn [_ Hty] Hc. pose proof Hs as [S1 S2 S3 S4]. unfold commit_outputs in Hc.
  pose proof Hc as [[[err ->] He]|(-> & _ & _ & _ & Est & _)]%commit_cases.
  { rewrite He. apply (advanced_idle 0); [done|by apply quiet_refl|done|apply idle_gave_up|done]. }
  assert (outputs_ok sn n0 (concat L) pl outs n1) as Ho.
  { apply Houts. intros t Ht. apply Hty. rewrite Est. apply levels_insert_elem. by left. }
  assert (forall t u, t ∈ fresh -> u ∈ outs -> number_of t <> number_of u) as Hap.
  { intros t u Ht Hu E. destruct (Hn (number_of u)) as [_ Hno]; [by apply list_elem_of_fmap_2|]. apply Hno. rewrite <- E.
    apply list_elem_of_fmap_2. destruct Hp as [P1 _ _ _ P5]. rewrite P5, (concat_fresh sn n0 L fresh P1). apply elem_of_app. by left. }
  apply (compaction_committed _ _ _ _ _ _ _ _ _ n1 _ _ S1 Hp Ho Hn1 Hap) in Hc as (Hinv' & _ & Ew & En & Hb).
  exists b, told. split_and!; [by eapply change_compact| |done|by intros n ?%elem_of_nil..|done].
  split; [done|by apply Hb|by rewrite Est|by rewrite Ew].
Qed.
Lemma after_eq {A} (m : stm (Engine T * World) A) next failed s p' s' : after m next failed s = (p', s') ->
  exists r, m s = (r, s') /\ p' = match r with Ok a => next a | Err err => failed err end.
Proof. unfold after. destruct (m s) as [r s1]. intros [= <- <-]. by exists r. Qed.

Lemma wait_turn_eq e w r s' : wait_turn (e, w) = (r, s') -> quiet 0 e (fst s').
Proof.
  unfold wait_turn. intros [(err & s1 & (e1 & _ & -> & Hq)%take_background_eq & Hs)|(err & (e1 & ? & _)%take_background_eq & _)]%stm_bind_cases; [|done].
  destruct err as [err|]; [by injection Hs as _ <-|].
  apply stm_bind_cases in Hs as [(pending & s1 & [_ ->]%gete_eq & Hs)|(err & [? _]%gete_eq & _)]; [|done].
  destruct (pending =? 0); by injection Hs as _ <-.
Qed.

Lemma mark_progress_eq e w r s' : mark_progress (e, w) = (r, s') -> r = Ok tt /\ quiet 0 e (fst s').
Proof.
  unfold mark_progress, gete, gets, set_queue, modify, mbind, stm_bind. cbn [fst]. intros [= <- <-]. split; [done|]. split; try done. cbn. lia.
Qed.

Lemma keep_error_eq err e w r s' : keep_background_error err (e, w) = (r, s') -> r = Ok tt /\ quiet 0 e (fst s').
Proof.
  unfold keep_background_error, gete, gets, set_background_error, modify, mbind, stm_bind. cbn [fst].
  destruct (en_background_error e); intros [= <- <-]; (split; [done|]); [by apply quiet_refl|]. split; try done. cbn. lia.
Qed.

Lemma removal_eq (m : string -> stm World unit) e w r s' : (dir ← gete en_dir; on_disk (m dir)) (e, w) = (r, s') -> fst s' = e.
Proof.
  intros [(dir & s1 & [_ ->]%gete_eq & (w' & _ & ->)%on_disk_eq)|(err & [? _]%gete_eq & _)]%stm_bind_cases; done.
Qed.

(** Any step of any thread. *)
Lemma stage_advanced p b s told p' s' : shared b (fst s) told -> thread_ok b (fst s) p -> numbers_ok (fst s) p ->
  stage_step p s = (p', s') -> step_in_limits p (fst s) (fst s') -> advanced p b (fst s) told p' (fst s').
Proof.
  intros Hs Hth Hn Hst (Hlast & Hleft & Hty & Hroom).
  destruct p as [key value|key value|key value seq| |previous waits|key| | | | |frozen|frozen t|frozen| |err|
    owner|owner pl sn|owner pl sn inputs|owner pl outs|owner pl|owner|a]; cbn [stage_step] in Hst.
  - apply after_eq in Hst as (r & Hm & ->). destruct s as [e w]. apply take_background_eq in Hm as (e1 & -> & -> & Hq). apply (advanced_idle 0); [done|done|done|..];
      by destruct (en_background_error e).
  - apply after_eq in Hst as (r & Hm & ->). destruct s as [e w]. by eapply append_advanced.
  - apply after_eq in Hst as (r & Hm & ->). destruct s as [e w]. by eapply insert_advanced.
  - apply after_eq in Hst as (r & Hm & ->). destruct s as [e w].
    apply stm_bind_cases in Hm as [(config & s1 & [_ ->]%gete_eq & Hm)|(err & [? _]%gete_eq & _)]; [|done].
    eapply rotate_advanced; try done; by destruct r as [[]|].
  - apply after_eq in Hst as (r & Hm & ->). destruct s as [e w]. unfold drop_log, modify in Hm. injection Hm as <- <-.
    apply (advanced_idle 0); [done|by apply quiet_refl|done|..]; by destruct waits.
  - destruct (engine_get key s) as [r s1] eqn:E. injection Hst as <- <-. destruct s as [e w].
    destruct (read_ran _ _ _ _ _ _ (sh_inv _ _ _ Hs) E) as (e1 & w1 & -> & Hq%counted_quiet & Hi & _ & _ & Hr). cbn [fst].
    pose proof (shared_quiet 0 b e e1 told (Z.le_refl _) Hq Hs) as Hs1.
    exists b, told. split_and!; [by apply (change_quiet _ _ _ _ 0)|done|done|by intros n ?%elem_of_nil..|].
    destruct Hr as [->|(path & err & ->)]; [|done]. by split.
  - destruct (engine_sync s) as [r s1] eqn:E. injection Hst as <- <-. destruct s as [e w]. by eapply sync_advanced.
  - apply after_eq in Hst as (r & Hm & ->). destruct s as [e w]. eapply rotate_advanced; try done; by destruct r as [[]|].
  - apply after_eq in Hst as (r & Hm & ->). destruct s as [e w]. apply wait_turn_eq in Hm. apply (advanced_idle 0); [done|done|done|..]; by destruct r as [[]|].
  - apply after_eq in Hst as (r & Hm & ->). destruct s as [e w]. apply next_task_eq in Hm as (e1 & -> & Hq & Hf). cbn [fst].
    destruct r as [[[frozen|]|]|err]; try by apply (advanced_idle 0).
    destruct (Hf frozen eq_refl) as [Hl ->]. apply (advanced_quiet 0); [done|done|done|done|..|done|done]; by intros n ?%elem_of_nil.
  - apply after_eq in Hst as (r & Hm & ->). destruct s as [e w]. by eapply flush_file_advanced.
  - apply after_eq in Hst as (r & Hm & ->). destruct s as [e w]. by eapply flush_commit_advanced.
  - apply after_eq in Hst as (r & Hm & ->). destruct s as [e w]. apply removal_eq in Hm. rewrite Hm. apply (advanced_idle 0); [done|by apply quiet_refl|done|..]; by destruct r.
  - apply after_eq in Hst as (r & Hm & ->). destruct s as [e w]. apply mark_progress_eq in Hm as [-> Hq]. by apply (advanced_idle 0).
  - apply after_eq in Hst as (r & Hm & ->). destruct s as [e w]. apply keep_error_eq in Hm as [-> Hq]. by apply (advanced_idle 0).
  - apply after_eq in Hst as (r & Hm & ->). destruct s as [e w]. rewrite plan_compaction_eq in Hm. injection Hm as <- <-. cbn [fst].
    pose proof (plan_advanced owner b e told Hs) as Hadv. by destruct (plan_of e).
  - apply after_eq in Hst as (r & Hm & ->). destruct s as [e w].
    apply stm_bind_cases in Hm as [(st & s1 & [[= ->] ->]%gete_eq & Hm)|(err & [? _]%gete_eq & _)]; [|done].
    injection Hm as <- <-. by eapply find_advanced.
  - apply after_eq in Hst as (r & Hm & ->). destruct s as [e w]. by eapply merge_advanced.
  - apply after_eq in Hst as (r & Hm & ->). destruct s as [e w]. by eapply commit_outputs_advanced.
  - apply after_eq in Hst as (r & Hm & ->). destruct s as [e w]. apply removal_eq in Hm. rewrite Hm.
    apply (advanced_idle 0); [done|by apply quiet_refl|done|..]; destruct r; [done|apply idle_gave_up|done|done].
  - apply after_eq in Hst as (r & Hm & ->). destruct s as [e w]. apply mark_progress_eq in Hm as [-> Hq]. by apply (advanced_idle 0).
  - injection Hst as <- <-. by apply (advanced_idle 0); [|apply quiet_refl|..].
Qed.
(** ** Which call a thread is in *)

Definition by_owner (o : Owner) : Request := match o with Client => RCompact | Background => RBackground end.

(** The stage is one of the request's. *)
Definition serves (r : Request) (p : Stage T) : Prop :=
  match p with
  | WriteBegin key value | WriteLog key value | WriteInsert key value _ => r = RWrite key value
  | WriteRotate | DropLog _ false => exists key value, r = RWrite key value
  | ReadBegin key => r = RGet key
  | SyncBegin => r = RSync
  | FlushRotate | DropLog _ true | FlushWait => r = RFlush
  | NextTask | FlushFile _ | FlushCommit _ _ | FlushRemove _ | FlushMark | TaskFailed _ => r = RBackground
  | CompactPlan o | CompactFind o _ _ | CompactMerge o _ _ _ | CompactCommit o _ _ | CompactRemove o _ | CompactMark o => r = by_owner o
  | Returned (Value _) => exists key, r = RGet key
  | Returned (Done _) => (exists key value, r = RWrite key value) \/ r = RSync \/ r = RFlush \/ r = RCompact
  end.

(** Not yet in effect. *)
Definition before (p : Stage T) : bool :=
  match p with WriteBegin _ _ | WriteLog _ _ | WriteInsert _ _ _ | ReadBegin _ => true | _ => false end.

(** The effect a call has had by the time it is at [p]. *)
Definition owed (i : nat) (r : Request) (p : Stage T) (effects : list (nat * Effect)) : Prop :=
  match r, p with
  | RWrite key value, (WriteRotate | DropLog _ _ | Returned (Done (Ok _))) => exists seq, (i, EWrite key seq value) ∈ effects
  | RGet key, Returned a => (exists v, a = Value (Ok v) /\ (i, ERead key v) ∈ effects) \/ (exists r, a = Value r /\ io_failed r)
  | _, _ => True
  end.

Lemma serves_start r : serves r (start r) /\ (r <> RBackground -> background (start r) = false).
Proof. by destruct r. Qed.

Lemma owed_more i r p effects effects' : owed i r p effects -> (forall f, (i, f) ∈ effects -> (i, f) ∈ effects') -> owed i r p effects'.
Proof.
  intros Ho Hsub. unfold owed in *. destruct r as [key value|key| | | |]; try done.
  - destruct p; try done; [..|destruct a as [[|]|]; try done]; destruct Ho as (seq & ?); exists seq; auto.
  - destruct p; try done. destruct Ho as [(v & ? & ?)|Hf]; [left; exists v; auto|by right].
Qed.

Lemma elem_of_record i p p' effects x : x ∈ record i p p' effects <-> x ∈ effects \/ exists f, effect_of p p' = Some f /\ x = (i, f).
Proof.
  unfold record. destruct (effect_of p p') as [f|]; [|split; [by left|by intros [?|(f & ? & _)]]]. rewrite elem_of_place. split.
  - intros [->|?]; [right; by exists f|by left].
  - intros [?|(g & [= ->] & ->)]; [by right|by left].
Qed.

(** The run goes on. *)
Lemma record_run i p p' effects init told told' : layer_effects effects init told ->
  (forall n k v, n ∈ flying p -> init !! k = Some v -> fst v <= n) ->
  match effect_of p p' with Some f => effect_step f told told' | None => told' = told end ->
  layer_effects (record i p p' effects) init told'.
Proof.
  unfold record. destruct (effect_of p p') as [[key seq value|key answer]|] eqn:E; cbn [effect_step]; [..|by intros ? _ ->].
  - intros Hrun Hin [-> Hne]. apply place_write; [done|done|]. intros v. apply Hin.
    destruct p; try done; cbn in E; [injection E as -> -> ->; left|by repeat case_match].
  - intros Hrun _ [-> ->]. rewrite place_read. eapply layer_effects_app; [exact Hrun|]. by eexists.
Qed.

(** Each stage leads to one of the same call; only a plan takes [compacting]. *)
Lemma stage_serves r p s p' s' : serves r p -> stage_step p s = (p', s') ->
  serves r p' /\ background p' = background p /\ (holds_compacting p' = true -> holds_compacting p = true \/ takes_compacting p = true).
Proof.
  intros Hr Hst. destruct p as [key value|key value|key value seq| |previous waits|key| | | | |frozen|frozen t|frozen| |err|
    owner|owner pl sn|owner pl sn inputs|owner pl outs|owner pl|owner|a]; cbn [stage_step] in Hst.
  6: { destruct (engine_get key s) as [x s1]. injection Hst as <- <-. cbn in *. split_and!; [by exists key|done|done]. }
  6: { destruct (engine_sync s) as [x s1]. injection Hst as <- <-. cbn in *. split_and!; [by right; left|done|done]. }
  20: { by injection Hst as <- <-. }
  all: apply after_eq in Hst as (x & _ & ->).
  all: cbn [serves] in Hr; repeat case_match; cbn in *; subst; eauto 8.
  all: destruct owner; cbn; auto 10.
Qed.

(** A step that has an effect is the last before it. *)
Lemma stage_before p s p' s' : stage_step p s = (p', s') ->
  (before p' = true -> before p = true /\ effect_of p p' = None) /\ (effect_of p p' <> None -> before p = true).
Proof.
  intros Hst. destruct p as [key value|key value|key value seq| |previous waits|key| | | | |frozen|frozen t|frozen| |err|
    owner|owner pl sn|owner pl sn inputs|owner pl outs|owner pl|owner|a]; try (split; [|by intros []]); cbn [stage_step] in Hst.
  6: { destruct (engine_get key s) as [x s1]. injection Hst as <- <-. by split. }
  6: { destruct (engine_sync s) as [x s1]. by injection Hst as <- <-. }
  20: { by injection Hst as <- <-. }
  3: { split; [|done]. apply after_eq in Hst as (x & _ & ->). by repeat case_match. }
  all: apply after_eq in Hst as (x & _ & ->).
  all: unfold settled, gave_up; by repeat case_match.
Qed.

(** What the call owes after a step. *)
Lemma stage_owed i r p b s told p' s' effects : shared b (fst s) told -> serves r p -> owed i r p effects ->
  stage_step p s = (p', s') -> owed i r p' (record i p p' effects).
Proof.
  intros Hs Hr Ho Hst. assert (owed i r p (record i p p' effects)) as Ho' by (eapply owed_more; [exact Ho|intros f Hf; apply elem_of_record; by left]).
  clear Ho. destruct r as [key value|key| | | |]; try done.
  - destruct p as [key' value'|key' value'|key' value' seq| |previous [|]|key'| | | | |frozen|frozen t|frozen| |err|
      owner|owner pl sn|owner pl sn inputs|owner pl outs|owner pl|owner|a]; cbn [stage_step] in Hst; cbn [serves] in Hr; try done;
      try (by destruct owner).
    + apply after_eq in Hst as (x & _ & ->). by repeat case_match.
    + apply after_eq in Hst as (x & _ & ->). by repeat case_match.
    + injection Hr as <- <-. apply after_eq in Hst as (x & _ & ->). destruct x as [[|]|err]; cbn; [..|done];
        exists seq; apply elem_of_place; by left.
    + apply after_eq in Hst as (x & _ & ->). destruct x as [[wal|]|err]; [exact Ho'|exact Ho'|done].
    + apply after_eq in Hst as (x & _ & ->). destruct x as [[]|err]; [exact Ho'|done].
    + by injection Hst as <- <-.
  - destruct p as [key' value'|key' value'|key' value' seq| |previous [|]|key'| | | | |frozen|frozen t|frozen| |err|
      owner|owner pl sn|owner pl sn inputs|owner pl outs|owner pl|owner|a]; cbn [stage_step] in Hst; cbn [serves] in Hr; try done;
      try (by destruct owner); try (by destruct Hr as (? & ? & ?)).
    + injection Hr as <-. destruct (engine_get key s) as [x s1] eqn:E. injection Hst as <- <-. destruct s as [e w].
      destruct (read_ran _ _ _ _ _ _ (sh_inv _ _ _ Hs) E) as (_ & _ & _ & _ & _ & _ & _ & Hr). cbn [owed].
      destruct Hr as [->|Hr]; [left; eexists; split; [done|]; apply elem_of_place; by left|right; by exists x].
    + by injection Hst as <- <-.
Qed.
(** ** The invariant *)

#[local] Abbreviation engine_of s := (fst (so_engine s)).

(** What the store had been told when it was opened. *)
Context (init : layer).

Record store_inv (s : Store) told b : Prop := {
  si_shared : shared b (engine_of s) told;
  si_run : layer_effects (so_effects s) init told;
  si_init : forall k v, init !! k = Some v -> fst v <= b;
  si_threads : forall i r p, so_calls s !! i = Some (r, p) -> thread_ok b (engine_of s) p /\ numbers_ok (engine_of s) p /\ serves r p;
  si_apart : forall i j r p r' q, so_calls s !! i = Some (r, p) -> so_calls s !! j = Some (r', q) -> i <> j -> stages_apart p q;
  si_known : forall i f, (i, f) ∈ so_effects s -> exists r p, so_calls s !! i = Some (r, p) /\ before p = false /\
    effect_for f r;
  si_once : NoDup (so_effects s).*1;
  si_owed : forall i r p, so_calls s !! i = Some (r, p) -> owed i r p (so_effects s);
  si_seqs : forall i key seq value, (i, EWrite key seq value) ∈ so_effects s -> seq <= last_seq (engine_of s);
}.

Lemma fresh_store_inv e w : engine_inv e init -> store_inv (fresh_store (e, w)) init (last_seq e).
Proof.
  intros Hinv. pose proof (ei_seq _ _ Hinv).
  assert (forall k v, init !! k = Some v -> fst v <= last_seq e) as Hwi by (intros k v Hv; by apply (ei_told _ _ Hinv init k v ltac:(left))).
  assert (forall i r p, [(RBackground, NextTask)] !! i = Some (r, p) -> i = 0%nat /\ r = RBackground /\ p = (NextTask : Stage T)) as Hone.
  { by intros i r p [-> [= <- <-]]%list_lookup_singleton_Some. }
  split; cbn [fresh_store so_engine so_calls so_effects fst].
  - split; [done|..|lia].
    + intros A Fs Hst m k v Hm Hv. destruct (ei_holds _ _ Hinv) as (A' & Fs' & Hst' & _ & _ & Hw).
      destruct (state_holds_unique _ _ _ _ _ Hst Hst') as [-> ->]. by destruct (Hw m k v) as [_ ?]; [by right|done|].
    + intros A _ k v Hv. right. by eapply Hwi.
  - done.
  - exact Hwi.
  - intros i r p (_ & -> & ->)%Hone. by split_and!; [|intros n ?%elem_of_nil|].
  - by intros i j r p r' q (-> & _)%Hone (-> & _)%Hone.
  - by intros i f ?%elem_of_nil.
  - constructor.
  - by intros i r p (_ & -> & ->)%Hone.
  - by intros i key seq value ?%elem_of_nil.
Qed.

Lemma change_bound p b e told b' e' told' : shared b e told -> change p b e told b' e' told' -> b <= b'.
Proof. intros [_ _ _ ?]. by destruct 1; lia. Qed.

(** Two stages after a step of one of them. *)
Lemma advanced_apart p p' q b e e' told r s s' : advanced p b e told p' e' -> serves r p -> stage_step p s = (p', s') ->
  (takes_compacting p = true -> holds_compacting q = false) -> thread_ok b e q -> numbers_ok e q -> stages_apart p q -> stages_apart p' q.
Proof.
  intros (b' & told' & _ & _ & _ & _ & Hnum & Hfl & _) Hr Hst Hlock Hq Hn [A1 A2 A3 A4].
  destruct (stage_serves _ _ _ _ _ Hr Hst) as (_ & Eb & Hc). split.
  - intros n Hin Hinq. destruct (Hnum n Hin) as [Hp|Hle]; [by apply (A1 n)|]. destruct (Hn n Hinq). lia.
  - intros n Hin Hinq. specialize (Hfl n Hin). destruct q; try by apply elem_of_nil in Hinq.
    apply list_elem_of_singleton in Hinq as ->. destruct Hq as [[_ ?] _]. lia.
  - destruct (holds_compacting p') eqn:E; [|done]. destruct (Hc eq_refl) as [E'|E']; [by rewrite E' in A3|by rewrite Hlock].
  - by rewrite Eb.
Qed.

Lemma admitted_log (stages : list (Stage T)) p q : admitted stages p = true -> q ∈ stages -> takes_log p = true -> flying q = [].
Proof.
  unfold admitted. intros [Ha _]%andb_true_iff Hq Hp. rewrite Hp in Ha. cbn [negb orb] in Ha. rewrite forallb_forall in Ha.
  specialize (Ha q ltac:(by apply list_elem_of_In)). by destruct q.
Qed.

Lemma admitted_compacting (stages : list (Stage T)) p q : admitted stages p = true -> q ∈ stages -> takes_compacting p = true ->
  holds_compacting q = false.
Proof.
  unfold admitted. intros [_ Ha]%andb_true_iff Hq Hp. rewrite Hp in Ha. cbn [negb orb] in Ha. rewrite forallb_forall in Ha.
  specialize (Ha q ltac:(by apply list_elem_of_In)). by destruct (holds_compacting q).
Qed.

Lemma start_keeps s r told b : r <> RBackground -> store_inv s told b ->
  store_inv (mkStore (so_engine s) (so_calls s ++ [(r, start r)]) (so_effects s)) told b.
Proof.
  intros Hr [I1 I2 I0 I3 I4 I5 I6 I7 I8]. destruct (serves_start r) as [Hserve Hb]. specialize (Hb Hr).
  assert (forall q, stages_apart (start r) q) as Hap.
  { intros q. split; [by destruct r; intros n ?%elem_of_nil..|by destruct r|by rewrite Hb]. }
  assert (forall i r' p, (so_calls s ++ [(r, start r)]) !! i = Some (r', p) -> so_calls s !! i = Some (r', p) \/ (i = length (so_calls s) /\ r' = r /\ p = start r)) as Hlook.
  { intros i r' p [Hi|[Hle [Ei [= <- <-]]%list_lookup_singleton_Some]]%lookup_app_Some; [by left|right; split; [lia|done]]. }
  split; cbn [so_engine so_calls so_effects]; try done.
  - intros i r' p [Hi|(-> & -> & ->)]%Hlook; [by apply (I3 i)|]. split_and!; [by destruct r|by destruct r; intros n ?%elem_of_nil|done].
  - intros i j r' p r2 q [Hi|(-> & -> & ->)]%Hlook [Hj|(-> & -> & ->)]%Hlook Hne; [by apply (I4 i j r' p r2 q)|apply stages_apart_sym, Hap|apply Hap|done].
  - intros i f Hf. destruct (I5 i f Hf) as (r' & p & Hi & Hp). exists r', p. split; [|done]. by apply lookup_app_l_Some.
  - intros i r' p [Hi|(-> & -> & ->)]%Hlook; [by apply I7|]. by destruct r.
Qed.

Lemma step_keeps s i r p p' s' told b : so_calls s !! i = Some (r, p) -> admitted (snd <$> so_calls s) p = true ->
  stage_step p (so_engine s) = (p', s') -> step_in_limits p (engine_of s) (fst s') -> store_inv s told b ->
  exists b', store_inv (mkStore s' (<[i := (r, p')]> (so_calls s)) (record i p p' (so_effects s))) (told_after p told) b'.
Proof.
  intros Hi Had Hst Hlim [I1 I2 I0 I3 I4 I5 I6 I7 I8]. destruct (I3 i r p Hi) as (Hth & Hn & Hr).
  pose proof (stage_advanced _ _ _ _ _ _ I1 Hth Hn Hst Hlim) as Hadv. pose proof (stage_before _ _ _ _ Hst) as [Hb1 Hb2].
  pose proof (stage_serves _ _ _ _ _ Hr Hst) as (Hr' & _ & _).
  pose proof Hadv as (b' & told' & Hch & Hs' & Hth' & Hn' & _ & _ & Hef).
  assert (forall j r' q, so_calls s !! j = Some (r', q) -> q ∈ snd <$> so_calls s) as Hin.
  { intros j r' q Hj. apply list_elem_of_fmap. exists (r', q). split; [done|]. by eapply list_elem_of_lookup_2. }
  assert (forall j r' q, j <> i -> <[i := (r, p')]> (so_calls s) !! j = Some (r', q) -> so_calls s !! j = Some (r', q)) as Hoth.
  { intros j r' q Hne. by rewrite list_lookup_insert_ne by done. }
  assert (<[i := (r, p')]> (so_calls s) !! i = Some (r, p')) as Hself by (apply list_lookup_insert_eq; by eapply lookup_lt_Some).
  assert (before p = true -> forall f, (i, f) ∉ so_effects s) as Hnot.
  { intros Hb f Hf. destruct (I5 i f Hf) as (r' & q & Hq & Hbq & _). rewrite Hi in Hq. injection Hq as <- <-. congruence. }
  rewrite <- (effect_told _ _ _ _ Hef).
  exists b'. split; cbn [so_engine so_calls so_effects].
  - done.
  - eapply record_run; [done| |done]. intros n k v Hfl Hv. specialize (I0 k v Hv). destruct p; try by apply elem_of_nil in Hfl.
    apply list_elem_of_singleton in Hfl as ->. destruct Hth as [[? _] _]. lia.
  - pose proof (change_bound _ _ _ _ _ _ _ I1 Hch). intros k v Hv. specialize (I0 k v Hv). lia.
  - intros j r' q Hj. destruct (decide (j = i)) as [->|Hne].
    + rewrite Hself in Hj. injection Hj as <- <-. done.
    + apply (Hoth j r' q Hne) in Hj. destruct (I3 j r' q Hj) as (Hq1 & Hq2 & Hq3).
      assert (stages_apart p q) as Hpq by by eapply (I4 i j).
      destruct (change_others p q _ _ _ _ _ _ Hch Hpq) as [? ?]; [|done..].
      intros Hl. by eapply admitted_log; [exact Had|by eapply Hin|].
  - assert (forall j r' q, j <> i -> so_calls s !! j = Some (r', q) -> stages_apart p' q) as Hap.
    { intros j r' q Hne Hj. destruct (I3 j r' q Hj) as (Hq1 & Hq2 & _). eapply advanced_apart; [exact Hadv|exact Hr|exact Hst| |done|done|by eapply I4].
      intros Hc. by eapply admitted_compacting; [exact Had|by eapply Hin|]. }
    intros j k r1 q1 r2 q2 Hj Hk Hne. destruct (decide (j = i)) as [->|Hji], (decide (k = i)) as [->|Hki]; [done|..].
    + rewrite Hself in Hj. injection Hj as <- <-. eapply (Hap k r2); [exact Hki|by eapply Hoth].
    + rewrite Hself in Hk. injection Hk as <- <-. apply stages_apart_sym. eapply (Hap j r1); [exact Hji|by eapply Hoth].
    + eapply (I4 j k r1 q1 r2 q2); [by eapply Hoth|by eapply Hoth|done].
  - intros j f [Hf|(g & Eg & [= -> ->])]%elem_of_record.
    + destruct (I5 j f Hf) as (r' & q & Hj & Hbq & Hq). destruct (decide (j = i)) as [->|Hne].
      * rewrite Hi in Hj. injection Hj as <- <-. exists r, p'. split_and!; [done| |done]. destruct (before p'); [|done]. destruct (Hb1 eq_refl) as [? _]. congruence.
      * exists r', q. split; [|done]. by rewrite list_lookup_insert_ne.
    + exists r, p'. split_and!; [done| |].
      * destruct (before p'); [|done]. destruct (Hb1 eq_refl) as [_ ?]. congruence.
      * destruct p; try done; cbn in Eg; [by injection Eg as <-|]. by repeat case_match; simplify_eq.
  - unfold record. destruct (effect_of p p') as [f|] eqn:Ef; [|done]. rewrite (place_perm (i, f) (so_effects s)). cbn. constructor; [|done].
    intros ([j g] & -> & Hg)%list_elem_of_fmap. by apply (Hnot (Hb2 ltac:(done)) g).
  - intros j r' q Hj. destruct (decide (j = i)) as [->|Hne].
    + rewrite Hself in Hj. injection Hj as <- <-. eapply stage_owed; [exact I1|exact Hr|by eapply I7|exact Hst].
    + eapply owed_more; [eapply I7; by eapply Hoth|]. intros f Hf. apply elem_of_record. by left.
  - pose proof (change_last _ _ _ _ _ _ _ Hch). intros j key seq value [Hf|(g & Eg & [= -> <-])]%elem_of_record; [specialize (I8 _ _ _ _ Hf); lia|].
    destruct p; try done; cbn in Eg; [|by repeat case_match; simplify_eq]. injection Eg as <- <- <-. destruct Hth as [[_ ?] _]. lia.
Qed.

(** ** From a fresh store on *)

Lemma store_step_keeps s s' told b : store_inv s told b -> store_step s s' -> exists told' b', store_inv s' told' b'.
Proof.
  intros Hinv Hst. destruct Hst as [s r Hr|s i r p p' s' Hi Had Hst Hlim]; [exists told, b; by apply start_keeps|].
  eexists. by eapply step_keeps.
Qed.

Lemma store_steps_keep s s' told b : store_inv s told b -> store_steps s s' -> exists told' b', store_inv s' told' b'.
Proof.
  intros Hinv Hst. revert told b Hinv. induction Hst as [s|s s1 s2 Hst _ IH]; intros told b Hinv; [by exists told, b|].
  destruct (store_step_keeps _ _ _ _ Hinv Hst) as (told1 & b1 & Hinv1). by eapply IH.
Qed.

(** Seen from a moment with [n] calls made and sequence numbers up to [z] given out:
    [old] is what had taken effect, with what calls of before that moment added since. *)
Record later (n : nat) (z : Z) (old : list (nat * Effect)) (s : Store) : Prop := {
  la_calls : (n <= length (so_calls s))%nat;
  la_last : z <= last_seq (engine_of s);
  la_old : dated n z old;
  la_flying : forall j r p seq, so_calls s !! j = Some (r, p) -> seq ∈ flying p -> (j < n)%nat \/ z < seq;
}.

Lemma later_step n z old new s s' told b : store_inv s told b -> later n z old s -> so_effects s = old ++ new -> store_step s s' ->
  exists old' new', so_effects s' = old' ++ new' /\ later n z old' s' /\ forall x, x ∈ old -> x ∈ old'.
Proof.
  intros Hinv [L1 L2 L3 L4] E Hst. destruct Hst as [s r Hr|s i r p p' s' Hi Had Hst Hlim]; cbn [so_effects].
  { exists old, new. split; [done|]. split; [|done]. split; cbn [so_calls so_engine]; [rewrite length_app; lia|done|done|].
    intros j r' p seq [Hj|[_ [_ [= <- <-]]%list_lookup_singleton_Some]]%lookup_app_Some Hfl; [by eapply L4|].
    by destruct r; apply elem_of_nil in Hfl. }
  destruct Hinv as [I1 I2 I0 I3 I4 I5 I6 I7 I8]. destruct (I3 i r p Hi) as (Hth & Hn & Hr).
  pose proof (stage_advanced _ _ _ _ _ _ I1 Hth Hn Hst Hlim) as (b' & told' & Hch & _ & _ & _ & _ & Hfl & _).
  pose proof (change_last _ _ _ _ _ _ _ Hch) as Hlast.
  assert (forall old' effects, dated n z old' -> later n z old' (mkStore s' (<[i:=(r, p')]> (so_calls s)) effects)) as Hlater.
  { intros old' effects Hold. split; cbn [so_calls so_engine]; [by rewrite length_insert|lia|done|]. intros j r' p1 seq Hj Hin.
    destruct (decide (j = i)) as [->|Hne]; [|rewrite list_lookup_insert_ne in Hj by done; by eapply L4].
    rewrite list_lookup_insert_eq in Hj by (by eapply lookup_lt_Some). injection Hj as <- <-. specialize (Hfl seq Hin). right. lia. }
  unfold record. destruct (effect_of p p') as [f|] eqn:Ef; [|exists old, new; auto].
  destruct (place_dated n z i f old new L3) as (old' & new' & Ep & Hd & Hsub); [|rewrite E, Ep; exists old', new'; auto].
  destruct f as [key seq value|]; [|done]. destruct p; try done; cbn in Ef; [|by repeat case_match; simplify_eq].
  injection Ef as -> -> ->. eapply L4; [exact Hi|left].
Qed.

(** A call begun after a moment takes effect after all that had taken effect by then. *)
Lemma later_steps n z old new s s' told b : store_inv s told b -> later n z old s -> so_effects s = old ++ new -> store_steps s s' ->
  exists old' new', so_effects s' = old' ++ new' /\ later n z old' s' /\ forall x, x ∈ old -> x ∈ old'.
Proof.
  intros Hinv Hl E Hst. revert told b old new Hinv Hl E. induction Hst as [s|s s1 s2 Hst _ IH]; intros told b old new Hinv Hl E; [by exists old, new|].
  destruct (later_step _ _ _ _ _ _ _ _ Hinv Hl E Hst) as (old1 & new1 & E1 & Hl1 & Hsub).
  destruct (store_step_keeps _ _ _ _ Hinv Hst) as (told1 & b1 & Hinv1).
  destruct (IH _ _ _ _ Hinv1 Hl1 E1) as (old2 & new2 & E2 & Hl2 & Hsub2). exists old2, new2. auto.
Qed.

Lemma later_now s told b : store_inv s told b -> later (length (so_calls s)) (last_seq (engine_of s)) (so_effects s) s.
Proof.
  intros [I1 I2 I0 I3 I4 I5 I6 I7 I8]. split; [done|done|..].
  - intros j f Hf. destruct (I5 j f Hf) as (r & p & Hj & _). split; [by eapply lookup_lt_Some|]. destruct f; [by eapply I8|done].
  - intros j r p seq Hj _. left. by eapply lookup_lt_Some.
Qed.
End Sharing.

(** ** Claims *)

(** A move of a schedule: a new call, or a step of one that was made. *)
Inductive Move := MCall (r : Request) | MStep (i : nat).

Definition move (m : Move) (s : Store (T := BTreeMemtable)) : option (Store (T := BTreeMemtable)) :=
  match m with
  | MCall RBackground => None
  | MCall r => Some (mkStore (so_engine s) (so_calls s ++ [(r, start r)]) (so_effects s))
  | MStep i =>
      '(r, p) ← so_calls s !! i;
      let '(p', s') := stage_step p (so_engine s) in
      if admitted (snd <$> so_calls s) p && limits_checked (fst (so_engine s)) && limits_checked (fst s')
      then Some (mkStore s' (<[i := (r, p')]> (so_calls s)) (record i p p' (so_effects s))) else None
  end.

Definition moves (ms : list Move) (s : Store (T := BTreeMemtable)) : option (Store (T := BTreeMemtable)) :=
  foldl (fun s m => s ≫= move m) (Some s) ms.

Lemma move_step m s s' : move m s = Some s' -> store_step s s'.
Proof.
  destruct m as [r|i]; cbn [move].
  - destruct (decide (r = RBackground)) as [->|Hr]; [done|]. intros Hs. assert (s' = mkStore (so_engine s) (so_calls s ++ [(r, start r)]) (so_effects s)) as -> by (destruct r; congruence).
    by apply step_call.
  - destruct (so_calls s !! i) as [[r p]|] eqn:Ei; [|done]. cbn [mbind option_bind]. destruct (stage_step p (so_engine s)) as [p' s1] eqn:Es.
    destruct (_ && _ && _) eqn:Ec; [|done]. intros [= <-].
    apply andb_true_iff in Ec as [[Ha (_ & Hl & Hn & _)%limits_checked_ok]%andb_true_iff (_ & _ & _ & Ht)%limits_checked_ok].
    eapply step_thread; [exact Ei|exact Ha|exact Es|]. split_and!; try done. by destruct p.
Qed.

Lemma moves_steps ms : forall s s', moves ms s = Some s' -> store_steps s s'.
Proof.
  induction ms as [|m ms IH]; intros s s'; unfold moves; cbn [foldl]; [intros [= <-]; apply rtc_refl|].
  cbn [mbind option_bind]. destruct (move m s) as [s1|] eqn:E; intros Hm.
  - eapply rtc_l; [by eapply move_step|by apply IH].
  - exfalso. clear -Hm. by induction ms.
Qed.

Definition racing : list Move :=
  [MCall (RWrite (bstr "k") (Some (bstr "1"))); MCall (RWrite (bstr "k") (Some (bstr "2"))); MStep 1; MStep 2; MStep 1; MStep 2; MStep 2;
   MCall (RGet (bstr "k")); MStep 3; MStep 1; MStep 2; MStep 2; MStep 1].

Definition working : list Move :=
  [MStep 0; MStep 0; MCall (RGet (bstr "k")); MStep 4; MCall (RWrite (bstr "k") None); MStep 5; MStep 5; MStep 5; MStep 0; MCall (RGet (bstr "k"));
   MStep 6; MStep 0; MStep 0; MStep 5; MStep 5; MStep 0; MStep 0; MStep 0; MStep 0; MStep 0; MStep 0; MStep 0; MStep 0;
   MCall (RWrite (bstr "k") (Some (bstr "3"))); MStep 7; MStep 7; MStep 7; MStep 0; MCall (RGet (bstr "k")); MStep 8; MStep 7; MStep 7; MStep 0; MStep 0; MStep 0].

(** C6: Callers sharing a store see a map. Open an empty directory, then let any
    number of callers write, delete, read, sync, flush and compact while the
    background thread flushes and compacts, one of them moving at a time between two
    of its lock operations, in any order the locks allow and with any of the system
    calls failing, the reads of open tables included. At every moment, each call has
    had at most one effect; a read that returned answered its effect's value, or the
    error of a system call that failed; a write that returned [Ok] has had its effect;
    and the effects, in the order the engine recorded them, are a run of the map: each
    read answers what the last write before it left, and a read made now, if no call
    of its own fails, answers what the map has come to. The order respects time:
    whatever takes effect in a call begun after a moment [s] comes after everything
    that had taken effect by [s]. The limits assumed at every step
    ([step_in_limits]): sequence numbers are not used up, nor file numbers (one per
    entry in the files, and one more, are left), the length of an open file fits a
    [u64], and a memtable of fixed size has room for the key inserted. *)
Theorem callers_share_a_store {T : Type} `{MemtableLaws T} (dir : string) (config : Config) (d : Disk) (e : Engine T)
  (w : World) (os : list outcome) (s s' : Store (T := T))
  (Hempty : names d = ∅) (Hopen : engine_open dir config (mkWorld d []) = (Ok e, w))
  (Hs : store_steps (fresh_store (e, mkWorld (disk w) os)) s) (Hs' : store_steps s s') :
  (exists m, map_effects (so_effects s') ∅ m /\
     forall key w', no_failures w' -> fst (engine_get key (fst (so_engine s'), w')) = Ok (m !! key)) /\
  NoDup (so_effects s').*1 /\
  (forall i f, (i, f) ∈ so_effects s' -> exists r p, so_calls s' !! i = Some (r, p) /\ effect_for f r) /\
  (forall i key a, so_calls s' !! i = Some (RGet key, Returned a) ->
    (exists v, a = Value (Ok v) /\ (i, ERead key v) ∈ so_effects s') \/ (exists r, a = Value r /\ io_failed r)) /\
  (forall i key value, so_calls s' !! i = Some (RWrite key value, Returned (Done (Ok tt))) ->
    exists seq, (i, EWrite key seq value) ∈ so_effects s') /\
  (exists earlier after, so_effects s' = earlier ++ after /\ (forall x, x ∈ so_effects s -> x ∈ earlier) /\
    forall j f, (j, f) ∈ earlier -> (j < length (so_calls s))%nat).
Proof.
  destruct (open_empty dir config d Hempty) as (e' & w' & E & Hinv & _). rewrite Hopen in E. injection E as <- <-.
  destruct (store_steps_keep _ _ _ _ _ (fresh_store_inv ∅ e (mkWorld (disk w) os) Hinv) Hs) as (told & b & Hin).
  destruct (later_steps _ _ _ _ [] _ _ _ _ Hin (later_now _ _ _ _ Hin) (symmetry (app_nil_r _)) Hs') as (earlier & after & E & Hl & Hsub).
  destruct (store_steps_keep _ _ _ _ _ Hin Hs') as (told' & b' & [I1 I2 I0 I3 I4 I5 I6 I7 I8]). split_and!.
  - exists (map_of told'). split; [by apply layer_effects_map in I2|]. intros key w' Hn. rewrite map_of_lookup. apply read_calm; [apply I1|done].
  - done.
  - intros i f Hf. destruct (I5 i f Hf) as (r & p & Hi & _ & Hr). by exists r, p.
  - intros i key a Hi. exact (I7 _ _ _ Hi).
  - intros i key value Hi. exact (I7 _ _ _ Hi).
  - exists earlier, after. split; [done|]. split; [done|]. intros j f Hf. by apply (la_old _ _ _ _ Hl) in Hf as [? _].
Qed.

Definition small_config : Config := mkConfig Always 1 2 10.

Definition what_happened : list (nat * Effect) :=
  [(1%nat, EWrite (bstr "k") 1 (Some (bstr "1"))); (2%nat, EWrite (bstr "k") 2 (Some (bstr "2")));
   (3%nat, ERead (bstr "k") (Some (bstr "2"))); (4%nat, ERead (bstr "k") (Some (bstr "2"))); (5%nat, EWrite (bstr "k") 3 None);
   (6%nat, ERead (bstr "k") None); (7%nat, EWrite (bstr "k") 4 (Some (bstr "3"))); (8%nat, ERead (bstr "k") (Some (bstr "3")))].

(** Two racing writers, of which the first to be numbered is the last in memory; then
    readers and writers while the background thread flushes twice and compacts. *)
Lemma callers_share_a_store_witness : exists (e : Engine BTreeMemtable) (w : World) (s s' : Store (T := BTreeMemtable)),
  engine_open "db" small_config (mkWorld empty_disk []) = (Ok e, w) /\
  moves racing (fresh_store (e, mkWorld (disk w) [])) = Some s /\ moves working s = Some s' /\
  so_effects s' = what_happened /\
  exists m, map_effects (so_effects s') ∅ m.
Proof.
  assert (match engine_open (T := BTreeMemtable) "db" small_config (mkWorld empty_disk []) with
    | (Ok e, w) => match moves racing (fresh_store (e, mkWorld (disk w) [])) with
      | Some s => match moves working s with Some s' => Some (so_effects s') | None => None end | None => None end
    | _ => None end = Some what_happened) as Hc
    by (vm_compute; reflexivity).
  destruct (engine_open (T := BTreeMemtable) "db" small_config (mkWorld empty_disk [])) as [[e|err] w] eqn:E; [|discriminate Hc].
  destruct (moves racing (fresh_store (e, mkWorld (disk w) []))) as [s|] eqn:E1; [|discriminate Hc].
  destruct (moves working s) as [s'|] eqn:E2; [|discriminate Hc]. injection Hc as Hc.
  exists e, w, s, s'. split; [reflexivity|]. split; [done|]. split; [done|]. split; [exact Hc|].
  destruct (callers_share_a_store "db" small_config empty_disk e w [] s s' eq_refl E (moves_steps _ _ _ E1) (moves_steps _ _ _ E2))
    as [(m & Hm & _) _]. by exists m.
Defined.

(** C7: The levels keep their shape whatever the callers do. Under the same
    interleavings, at every moment: every table is well formed and sits at the level
    its metadata gives; from level 1 down the tables of a level are sorted and their
    ranges apart, which is what a lookup's binary search needs; the manifest's
    snapshot lists exactly the tables the levels hold; no file number is used twice
    or yet to be handed out; and no two threads are in the middle of a compaction. *)
Theorem levels_stay_in_shape {T : Type} `{MemtableLaws T} (dir : string) (config : Config) (d : Disk) (e : Engine T)
  (w : World) (os : list outcome) (s : Store (T := T))
  (Hempty : names d = ∅) (Hopen : engine_open dir config (mkWorld d []) = (Ok e, w))
  (Hs : store_steps (fresh_store (e, mkWorld (disk w) os)) s) :
  let e' := fst (so_engine s) in
  levels_ok (st_levels (en_state e')) /\
  (forall n level t, st_levels (en_state e') !! n = Some level -> t ∈ level -> fm_level (tb_meta t) = Z.of_nat n) /\
  sn_files (en_snapshot e') ≡ₚ tb_meta <$> concat (st_levels (en_state e')) /\
  NoDup (number_of <$> concat (st_levels (en_state e'))) /\
  (forall t, t ∈ concat (st_levels (en_state e')) -> 0 <= number_of t < en_next_number e') /\
  (forall i j r p r' q, so_calls s !! i = Some (r, p) -> so_calls s !! j = Some (r', q) ->
    holds_compacting p = true -> holds_compacting q = true -> i = j).
Proof.
  destruct (open_empty dir config d Hempty) as (e1 & w1 & E & Hinv & _). rewrite Hopen in E. injection E as <- <-.
  destruct (store_steps_keep _ _ _ _ _ (fresh_store_inv ∅ e (mkWorld (disk w) os) Hinv) Hs) as (told & b & [I1 _ _ _ I4 _ _ _ _]).
  destruct (ei_shape _ _ (sh_inv _ _ _ I1)) as [S1 S2 S3 S4 S5]. cbv zeta. do 5 (split; [done|]).
  intros i j r p r' q Hi Hj Hp Hq. destruct (decide (i = j)); [done|].
  destruct (I4 i j r p r' q Hi Hj ltac:(done)) as [_ _ Hc _]. by rewrite Hp, Hq in Hc.
Qed.

(** Two flushes, and a compaction about to be committed. *)
Lemma levels_stay_in_shape_witness : exists (e : Engine BTreeMemtable) (w : World) (s : Store (T := BTreeMemtable)),
  engine_open "db" small_config (mkWorld empty_disk []) = (Ok e, w) /\
  moves (racing ++ take 32 working) (fresh_store (e, mkWorld (disk w) [])) = Some s /\
  (length <$> st_levels (en_state (fst (so_engine s)))) = [2%nat] /\ levels_ok (st_levels (en_state (fst (so_engine s)))).
Proof.
  assert (match engine_open (T := BTreeMemtable) "db" small_config (mkWorld empty_disk []) with
    | (Ok e, w) => match moves (racing ++ take 32 working) (fresh_store (e, mkWorld (disk w) [])) with
      | Some s => Some (length <$> st_levels (en_state (fst (so_engine s)))) | None => None end
    | _ => None end = Some [2%nat]) as Hc by (vm_compute; reflexivity).
  destruct (engine_open (T := BTreeMemtable) "db" small_config (mkWorld empty_disk [])) as [[e|err] w] eqn:E; [|discriminate Hc].
  destruct (moves (racing ++ take 32 working) (fresh_store (e, mkWorld (disk w) []))) as [s|] eqn:E1; [|discriminate Hc].
  injection Hc as Hc. exists e, w, s. split; [reflexivity|]. split; [done|]. split; [exact Hc|].
  apply (levels_stay_in_shape "db" small_config empty_disk e w [] s eq_refl E (moves_steps _ _ _ E1)).
Defined.
