(* ===== verification/Crashes.v ===== *)
(** * What a crash leaves of the logs

    The store flushes the files it writes, but not the directory after it has created
    a log: it counts on a file that has been flushed keeping its name, and on a file
    cut short by a crash being just that. [ordered_crash] is a crash of a device that
    gives both; the durability of the whole store is proved for those. Here: which
    directories such a crash can leave, and what can be read from a log after it. *)

From S2P Require Import Prelude Checksum Coding WalRecord WalReplay Disk Manifest Naming.

Definition log_name (number : Z) : string := file_name number LOG_EXT.
Definition table_name (number : Z) : string := file_name number TABLE_EXT.

(** ** Crashes in order *)

(** A directory that can be there after the crash: one no older than the last flush
    of the directory, and that has every log which has itself been flushed. *)
Definition survives (d : Disk) (c : gmap string nat) : Prop :=
  c ∈ candidates d /\
  forall k i, names d !! log_name k = Some i -> (0 < floor_of d i)%nat -> c !! log_name k = Some i.

(** A crash after which a file holds the bytes it was sure to hold and perhaps some
    of those that followed, and a log flushed at least once still has its name. *)
Record ordered_crash (d d' : Disk) : Prop := {
  oc_crash : crash d d';
  oc_logs : forall k i, names d !! log_name k = Some i -> (0 < floor_of d i)%nat -> names d' !! log_name k = Some i;
  oc_cut : forall i, contents d' i `prefix_of` contents d i;
  oc_floor : forall i, floor_of d' i = length (contents d' i);
}.

Lemma survives_now d : survives d (names d).
Proof. split; [apply candidates_names|done]. Qed.

Lemma crash_survives d d' : ordered_crash d d' -> survives d (names d').
Proof. intros [[Hn _ _ _ _ _ _] Hl _ _]. by split. Qed.

(** ** Reading a log back *)

(** What replaying a file of [bs] finds. *)
Definition reads (bs : bytes) (recs : list LogRecord) : Prop :=
  Forall record_ok recs /\
  ((exists tail, bs = log_file recs ++ tail /\ first_record tail = None) \/ ((length bs < 12)%nat /\ recs = [])).

(** A file holding [bs], [floor] bytes of which are on the device: whatever is left
    of it, replaying it finds one of [R]. *)
Definition lasting (floor : nat) (bs : bytes) (R : list LogRecord -> Prop) : Prop :=
  (floor <= length bs)%nat /\ forall k, (floor <= k)%nat -> exists recs, R recs /\ reads (take k bs) recs.

Lemma length_log_file recs : length (log_file recs) = (12 + length (frames recs))%nat.
Proof. unfold log_file. by rewrite length_app. Qed.

Lemma lasting_mono f f' bs (R R' : list LogRecord -> Prop) :
  lasting f bs R -> (f <= f' <= length bs)%nat -> (forall x, R x -> R' x) -> lasting f' bs R'.
Proof.
  intros [_ H] [Hf Hl] HR. split; [done|]. intros k Hk. destruct (H k ltac:(lia)) as (recs & Hr & Hs). eauto.
Qed.

(** A log cut anywhere. *)
Lemma reads_take all k : Forall record_ok all ->
  exists m, reads (take k (log_file all)) (take m all) /\
    forall j, (j <= length all)%nat -> (length (log_file (take j all)) <= k)%nat -> (j <= m)%nat.
Proof.
  intros Hok. destruct (decide (k < 12)%nat) as [Hk|Hk].
  - exists 0%nat. split.
    + split; [constructor|]. right. split; [|done]. rewrite length_take. lia.
    + intros j _ Hj. rewrite length_log_file in Hj. lia.
  - destruct (take_frames all (k - 12) Hok) as (m & t & Htake & Ht & Hm & Hmax). exists m. split.
    + split; [by apply Forall_take|]. left. exists t. split; [|done]. unfold log_file.
      rewrite take_app_ge by (change (length file_header) with 12%nat; lia).
      change (length file_header) with 12%nat. by rewrite Htake, app_assoc.
    + intros j Hj Hl. rewrite length_log_file in Hl. apply Hmax; [done|lia].
Qed.

Lemma log_file_snoc recs r : log_file (recs ++ [r]) = log_file recs ++ frame (payload r).
Proof. unfold log_file. rewrite frames_app, app_assoc. unfold frames at 2. cbn. by rewrite app_nil_r. Qed.

(** A log all of which is on the device. *)
Lemma lasting_whole recs : Forall record_ok recs -> lasting (length (log_file recs)) (log_file recs) (eq recs).
Proof.
  intros Hok. split; [done|]. intros k Hk. exists recs. split; [done|]. rewrite take_ge by done.
  split; [done|]. left. exists []. by rewrite app_nil_r.
Qed.

(** One record more, any part of which may have got there. *)
Lemma lasting_append floor recs r n :
  Forall record_ok (recs ++ [r]) -> (length (log_file recs) <= floor)%nat ->
  (floor <= length (log_file recs ++ take n (frame (payload r))))%nat ->
  lasting floor (log_file recs ++ take n (frame (payload r))) (fun x => x = recs \/ x = recs ++ [r]).
Proof.
  intros Hok Hf Hl. split; [done|]. intros k Hk.
  assert (exists n', take k (log_file recs ++ take n (frame (payload r))) = take n' (log_file (recs ++ [r])) /\
    (length (log_file recs) <= n')%nat) as (n' & -> & Hn).
  { exists (k `min` (length (log_file recs) + n))%nat. split; [|lia]. rewrite log_file_snoc.
    rewrite <- take_take. f_equal. rewrite take_app_ge by lia. do 2 f_equal. lia. }
  destruct (reads_take (recs ++ [r]) n' Hok) as (m & Hr & Hm). exists (take m (recs ++ [r])). split; [|done].
  specialize (Hm (length recs)). rewrite take_app_length, length_app in Hm.
  specialize (Hm ltac:(lia) Hn). destruct (decide (m = length recs)) as [->|].
  - left. by rewrite take_app_length.
  - right. rewrite take_ge; [done|]. rewrite length_app. cbn. lia.
Qed.

(** A new log, as far as its header has got. *)
Lemma lasting_header floor n : (floor <= length (take n file_header))%nat -> lasting floor (take n file_header) (eq []).
Proof.
  intros Hf. split; [done|]. intros k _. exists []. split; [done|]. rewrite take_take.
  destruct (reads_take [] (k `min` n) ltac:(constructor)) as (m & Hr & _). rewrite take_nil in Hr. exact Hr.
Qed.

(** Bytes cut off that were no record. *)
Lemma lasting_cut f bs n (R : list LogRecord -> Prop) :
  lasting f bs R -> (exists recs, R recs /\ reads (take n bs) recs) -> lasting (f `min` n) (take n bs) R.
Proof.
  intros [Hf H] Hn. split; [rewrite length_take; lia|]. intros k Hk.
  destruct (decide (n <= k)%nat) as [Hle|Hlt]; [by rewrite take_take, Nat.min_r|].
  rewrite take_take, Nat.min_l by lia. apply H. lia.
Qed.

(** What a crash leaves reads as it did before, and all of it is on the device. *)
Lemma lasting_crash d d' i (R : list LogRecord -> Prop) :
  lasting (floor_of d i) (contents d i) R -> ordered_crash d d' ->
  exists recs, R recs /\ reads (contents d' i) recs /\ lasting (floor_of d' i) (contents d' i) (eq recs).
Proof.
  intros [Hf H] Hc. pose proof (cr_floor _ _ (oc_crash _ _ Hc) i) as Hfl. pose proof (oc_cut _ _ Hc i) as [rest Hcut].
  assert (floor_of d i <= length (contents d' i))%nat as Hle.
  { apply (f_equal length) in Hfl. rewrite !length_take in Hfl. lia. }
  destruct (H (length (contents d' i)) Hle) as (recs & HR & Hr). rewrite Hcut, take_app_length in Hr.
  exists recs. split_and!; [done..|]. rewrite (oc_floor _ _ Hc). split; [done|]. intros k Hk.
  exists recs. split; [done|]. by rewrite take_ge by done.
Qed.

(** ** Replaying what is there *)

Lemma reads_open path bs recs : reads bs recs ->
  exists rp rp', replay_open path (Content bs) = Ok rp /\ replay_all rp = Some (Ok recs, rp') /\
    valid_len rp' = (if (length bs <? 12)%nat then 0 else zlen (log_file recs)) /\
    (torn_at rp' = None -> valid_len rp' = zlen bs).
Proof.
  intros [Hok [(tail & -> & Ht)|[Hs ->]]].
  - destruct (replay_records path recs tail Hok Ht) as [Ho Hr]. eexists _, _. split_and!; [exact Ho|exact Hr| |].
    + destruct (Nat.ltb_spec (length (log_file recs ++ tail)) 12) as [Hl|_]; [|done].
      rewrite length_app, length_log_file in Hl. lia.
    + unfold torn_at, ended, valid_len. cbn [rp_torn_at rp_pos]. destruct tail; cbn [bool_decide]; [|done].
      by rewrite app_nil_r.
  - destruct (Nat.ltb_spec (length bs) 12); [|lia]. unfold replay_open.
    destruct (Z.eqb_spec (zlen bs) 0) as [E|E].
    + eexists _, _. split_and!; [done|done|done|]. by intros _.
    + destruct (Z.ltb_spec (zlen bs) FILE_HEADER_LEN); [|unfold FILE_HEADER_LEN, zlen in *; lia].
      eexists _, _. split_and!; [done|done|done|done].
Qed.

(** ** A crash that computes *)

(** A crash that keeps the directory, and of each file just what was sure to be on
    the device. *)
Definition power_cut (d : Disk) : Disk :=
  let data' := map_imap (fun i bs => Some (if bool_decide (i ∈ clean d) then bs else take (floor_of d i) bs)) (data d) in
  mkDisk (names d) [] data' (dom data') (length <$> data') (fresh_inode d).

Lemma power_cut_data d i : data (power_cut d) !! i =
  (fun bs => if bool_decide (i ∈ clean d) then bs else take (floor_of d i) bs) <$> data d !! i.
Proof. cbn. rewrite map_lookup_imap. by destruct (data d !! i). Qed.

Lemma power_cut_crash d : ordered_crash d (power_cut d).
Proof.
  assert (forall i, contents (power_cut d) i = if bool_decide (i ∈ clean d) then contents d i else take (floor_of d i) (contents d i)) as Hc.
  { intros i. unfold contents at 1. rewrite power_cut_data. unfold contents. destruct (data d !! i); cbn; [done|].
    rewrite take_nil. by destruct (bool_decide _). }
  split; [split|..]; try done.
  - apply (candidates_names d).
  - intros i Hi. rewrite power_cut_data, bool_decide_true by done. by destruct (data d !! i).
  - intros i. rewrite Hc. destruct (bool_decide _); [done|]. by rewrite take_take, Nat.min_id.
  - intros i [bs E]. rewrite power_cut_data, E. by eexists.
  - intros i. rewrite Hc. destruct (bool_decide _); [done|]. apply prefix_take.
  - intros i. unfold floor_of, contents, power_cut. cbn [floor data]. rewrite lookup_fmap.
    by destruct (map_imap _ _ !! i).
Qed.
