(* ===== verification/Triples.v ===== *)
(** * Crash triples

    A small program logic for operations that can stop anywhere: [triple P m Q C] says
    that [m], started where [P] holds, ends where [Q] holds if it returns, and where
    [C] holds if it stops at an error, which is also how a machine that goes down
    stops it. [dtriple] is the same for operations on the disk, and knows in addition
    that without a failing call there is no error. *)

From S2P Require Import Prelude Disk.

Definition triple {S A} (P : S -> Prop) (m : stm S A) (Q : A -> S -> Prop) (C : S -> Prop) : Prop :=
  forall s, P s -> match m s with (Ok a, s') => Q a s' | (Err _, s') => C s' end.

Lemma triple_ret {S A} (P : S -> Prop) (a : A) (Q : A -> S -> Prop) C :
  (forall s, P s -> Q a s) -> triple P (mret a) Q C.
Proof. intros H s Hs. by apply H. Qed.

Lemma triple_bind {S A B} (P : S -> Prop) (m : stm S A) (f : A -> stm S B) (Q : A -> S -> Prop) R C :
  triple P m Q C -> (forall a, triple (Q a) (f a) R C) -> triple P (a ← m; f a) R C.
Proof.
  intros Hm Hf s Hs. specialize (Hm s Hs). unfold mbind, stm_bind.
  destruct (m s) as [[a|e] s']; [by apply Hf|done].
Qed.

Lemma triple_weaken {S A} (P P' : S -> Prop) (m : stm S A) (Q Q' : A -> S -> Prop) (C C' : S -> Prop) :
  triple P m Q C -> (forall s, P' s -> P s) -> (forall a s, Q a s -> Q' a s) -> (forall s, C s -> C' s) -> triple P' m Q' C'.
Proof.
  intros Hm HP HQ HC s Hs. specialize (Hm s (HP s Hs)). destruct (m s) as [[a|e] s']; auto.
Qed.

(** A fact that does not depend on the state. *)
Lemma triple_pure {S A} (F : Prop) (P : S -> Prop) (m : stm S A) Q C :
  (F -> triple P m Q C) -> triple (fun s => F /\ P s) m Q C.
Proof. intros H s [HF Hs]. by apply H. Qed.

Lemma triple_ex {S A X} (P : X -> S -> Prop) (m : stm S A) Q C :
  (forall x, triple (P x) m Q C) -> triple (fun s => exists x, P x s) m Q C.
Proof. intros H s [x Hs]. by apply (H x). Qed.

(** ** On the disk *)

Section Disks.
(** The outcomes the calls may have. *)
Context (may : outcome -> Prop).

(** No call can fail. *)
Definition calm : Prop := forall o, may o -> o = None.

Definition dtriple {A} (P : Disk -> Prop) (m : stm World A) (Q : A -> Disk -> Prop) (C : Disk -> Prop) : Prop :=
  triple (fun w => Forall may (outcomes w) /\ P (disk w)) m
    (fun a w => Forall may (outcomes w) /\ Q a (disk w)) (fun w => C (disk w) /\ ~ calm).

Lemma dtriple_ret {A} (P : Disk -> Prop) (a : A) (Q : A -> Disk -> Prop) C :
  (forall d, P d -> Q a d) -> dtriple P (mret a) Q C.
Proof. intros H. apply triple_ret. intros w [Hn Hp]. auto. Qed.

Lemma dtriple_bind {A B} (P : Disk -> Prop) (m : stm World A) (f : A -> stm World B) (Q : A -> Disk -> Prop) R C :
  dtriple P m Q C -> (forall a, dtriple (Q a) (f a) R C) -> dtriple P (a ← m; f a) R C.
Proof. intros Hm Hf. eapply triple_bind; [exact Hm|exact Hf]. Qed.

Lemma dtriple_weaken {A} (P P' : Disk -> Prop) (m : stm World A) (Q Q' : A -> Disk -> Prop) (C C' : Disk -> Prop) :
  dtriple P m Q C -> (forall d, P' d -> P d) -> (forall a d, Q a d -> Q' a d) -> (forall d, C d -> C' d) -> dtriple P' m Q' C'.
Proof.
  intros Hm HP HQ HC. eapply triple_weaken; [exact Hm|..].
  - intros w []. auto.
  - intros a w []. auto.
  - intros w []. auto.
Qed.

Lemma dtriple_pure {A} (F : Prop) (P : Disk -> Prop) (m : stm World A) Q C :
  (F -> dtriple P m Q C) -> dtriple (fun d => F /\ P d) m Q C.
Proof. intros H w (Hn & HF & Hp). by apply H. Qed.

Lemma dtriple_ex {A X} (P : X -> Disk -> Prop) (m : stm World A) Q C :
  (forall x, dtriple (P x) m Q C) -> dtriple (fun d => exists x, P x d) m Q C.
Proof. intros H w (Hn & x & Hp). by apply (H x). Qed.

(** A result that is known. *)
Lemma dtriple_lift {A} (P : Disk -> Prop) (r : result A) (Q : A -> Disk -> Prop) (C : Disk -> Prop) :
  (forall d, P d -> match r with Ok a => Q a d | Err _ => C d /\ ~ calm end) -> dtriple P (lift r) Q C.
Proof. intros H w [Hn Hp]. specialize (H _ Hp). unfold lift. by destruct r. Qed.

(** One call: it runs, or it fails with an error that may be. *)
Lemma call_outcomes {A} path (run : Disk -> result A * Disk) fail w r w' :
  Forall may (outcomes w) -> call path run fail w = (r, w') ->
  Forall may (outcomes w') /\
  ((r = fst (run (disk w)) /\ disk w' = snd (run (disk w))) \/
   (exists e n, may (Some (e, n)) /\ r = Err (Io path e) /\ disk w' = fail n (disk w))).
Proof.
  intros Hm. unfold call. destruct (outcomes w) as [|[[e n]|] rest].
  - destruct (run (disk w)) as [r' d'] eqn:E. intros [= -> <-]. split; [constructor|by left].
  - inversion Hm as [|?? Ho Hr]. intros [= <- <-]. split; [done|]. right. by exists e, n.
  - inversion Hm as [|?? Ho Hr]. destruct (run (disk w)) as [r' d'] eqn:E. intros [= -> <-]. split; [done|by left].
Qed.

Lemma not_calm e n : may (Some (e, n)) -> ~ calm.
Proof. intros H Hc. by apply Hc in H. Qed.

Lemma dtriple_call {A} path (run : Disk -> result A * Disk) fail (P : Disk -> Prop) (Q : A -> Disk -> Prop) (C : Disk -> Prop) :
  (forall d, P d -> exists a, fst (run d) = Ok a /\ Q a (snd (run d))) ->
  (forall n d, P d -> C (fail n d)) -> dtriple P (call path run fail) Q C.
Proof.
  intros Hrun Hfail w [Hn Hp]. destruct (call path run fail w) as [r w'] eqn:E.
  apply call_outcomes in E as [Hm [[-> ->]|(e & n & Hx & -> & ->)]]; [| |done].
  - destruct (Hrun _ Hp) as (a & -> & Hq). done.
  - split; [by apply Hfail|]. by eapply not_calm.
Qed.

(** One call that leaves things as they were when it fails. *)
Lemma dtriple_plain {A} path (run : Disk -> result A * Disk) (P : Disk -> Prop) (Q : A -> Disk -> Prop) (C : Disk -> Prop) :
  (forall d, P d -> exists a, fst (run d) = Ok a /\ Q a (snd (run d))) ->
  (forall d, P d -> C d) -> dtriple P (call path run no_effect) Q C.
Proof. intros Hrun Hc. apply dtriple_call; [exact Hrun|]. intros n d. apply Hc. Qed.

(** An operation that only reads, whose result is known. *)
Lemma dtriple_reads {A} (P : Disk -> Prop) (m : stm World A) (r : result A) (Q : A -> Disk -> Prop) (C : Disk -> Prop) :
  reads_as m r -> (forall d, P d -> match r with Ok a => Q a d | Err _ => ~ calm end) -> (forall d, P d -> C d) -> dtriple P m Q C.
Proof.
  intros Hm HQ HC w [Hn Hp]. destruct (Hm w) as [[E Hr]|(err & E & Hr)]; destruct (m w) as [r' w']; cbn [fst snd] in *; subst r';
    destruct (read_through_may may _ _ _ Hr Hn) as [Hn' He]; pose proof (read_through_disk _ _ _ Hr) as Ed; rewrite Ed.
  - specialize (HQ _ Hp). destruct r; [done|]. split; [by apply HC|done].
  - split; [by apply HC|]. destruct (He err eq_refl) as (path & e & n & _ & Hx). by eapply not_calm.
Qed.

(** Without failing calls an operation returns. *)
Lemma dtriple_calm {A} (P : Disk -> Prop) (m : stm World A) Q C d os :
  dtriple P m Q C -> calm -> Forall may os -> P d ->
  exists a w, m (mkWorld d os) = (Ok a, w) /\ Q a (disk w) /\ Forall may (outcomes w).
Proof.
  intros Hm Hc Ho Hp. specialize (Hm (mkWorld d os) (conj Ho Hp)).
  destruct (m (mkWorld d os)) as [[a|e] w]; [|by destruct Hm]. exists a, w. by destruct Hm as [? ?].
Qed.
End Disks.

Lemma calm_none : calm (eq None).
Proof. intros o <-. done. Qed.

(** ** Where any call may fail *)

Definition any (o : outcome) : Prop := True.

Lemma not_calm_any : ~ calm any.
Proof. intros H. by specialize (H (Some (IoError OtherKind EmptyString, O)) I). Qed.

Lemma dtriple_run {A} (P : Disk -> Prop) (m : stm World A) (Q : A -> Disk -> Prop) C w r w' :
  dtriple any P m Q C -> P (disk w) -> m w = (r, w') -> match r with Ok a => Q a (disk w') | Err _ => C (disk w') end.
Proof.
  intros Hm Hp E. specialize (Hm w (conj (proj2 (Forall_forall _ _) (fun _ _ => I)) Hp)). rewrite E in Hm. destruct r; by destruct Hm.
Qed.

(** A call that may itself find that it cannot be done. *)
Lemma dtriple_any {A} path (run : Disk -> result A * Disk) fail (P : Disk -> Prop) (Q : A -> Disk -> Prop) (C : Disk -> Prop) :
  (forall d, P d -> match fst (run d) with Ok a => Q a (snd (run d)) | Err _ => C (snd (run d)) end) ->
  (forall n d, P d -> C (fail n d)) -> dtriple any P (call path run fail) Q C.
Proof.
  intros Hrun Hfail w [Hn Hp]. destruct (call path run fail w) as [r w'] eqn:E.
  apply (call_outcomes any) in E as [Hm [[-> ->]|(e & n & Hx & -> & ->)]]; [| |done].
  - specialize (Hrun _ Hp). destruct (fst (run (disk w))); [done|]. split; [done|apply not_calm_any].
  - split; [by apply Hfail|apply not_calm_any].
Qed.
