(* ===== verification/Layout.v ===== *)
(** * What the directory holds, at every moment

    The invariant of the store's directory while an operation is under way: the files
    it may hold, the tables its manifest counts on, its logs and what they are sure to
    say after a crash; and that every call an operation makes keeps it. Each file
    gets its final name from a temporary one, so what is being written is out of the
    reach of any directory a crash can bring back. *)

From stdpp Require Import sorting.
From S2P Require Import Prelude Checksum Coding WalRecord WalReplay Disk Manifest Decimal Naming SsTable.
From S2P Require Import Compaction Memtable Layers Engine Store Shape Crashes.

(** ** Names *)

Definition is_tmp (name : string) : Prop := extension name = Some PARTIAL_EXT.
#[export] Instance is_tmp_dec name : Decision (is_tmp name).
Proof. unfold is_tmp. apply _. Defined.

(** The names the store gives. *)
Inductive known : string -> Prop :=
  | known_manifest : known FILE_NAME
  | known_temp : known TEMP_NAME
  | known_log k : u64_ok k -> known (log_name k)
  | known_table k : u64_ok k -> known (table_name k)
  | known_partial k : u64_ok k -> known (partial_name k).

Lemma decimal06_some n : decimal06 n <> EmptyString.
Proof.
  unfold decimal06. destruct (Nat.max 6 (digit_count 20 n)) eqn:E; [lia|]. cbn [digits].
  by destruct (digits n0 (n / 10)).
Qed.

Lemma extension_file_name n ext : no_dot ext = true -> extension (file_name n ext) = Some ext.
Proof.
  intros He. unfold extension, file_name. rewrite rsplit_app by done. pose proof (decimal06_some n). by destruct (decimal06 n).
Qed.

Lemma log_not_tmp k : ~ is_tmp (log_name k).
Proof. unfold is_tmp, log_name. by rewrite extension_file_name. Qed.
Lemma table_not_tmp k : ~ is_tmp (table_name k).
Proof. unfold is_tmp, table_name. by rewrite extension_file_name. Qed.
Lemma partial_tmp k : is_tmp (partial_name k).
Proof. apply partial_name_extension. Qed.
Lemma temp_tmp : is_tmp TEMP_NAME.
Proof. done. Qed.
Lemma manifest_not_tmp : ~ is_tmp FILE_NAME.
Proof. done. Qed.
Lemma manifest_not_file k ext : no_dot ext = true -> FILE_NAME <> file_name k ext.
Proof. intros He E. apply (f_equal extension) in E. by rewrite extension_file_name in E. Qed.

Lemma log_name_inj k k' : u64_ok k -> u64_ok k' -> log_name k = log_name k' -> k = k'.
Proof. intros H H' E. by apply file_name_inj in E as [? _]. Qed.
Lemma table_name_inj k k' : u64_ok k -> u64_ok k' -> table_name k = table_name k' -> k = k'.
Proof. intros H H' E. by apply file_name_inj in E as [? _]. Qed.
Lemma log_not_table k k' : log_name k <> table_name k'.
Proof. intros E. apply (f_equal extension) in E. unfold log_name, table_name in E. by rewrite !extension_file_name in E. Qed.
Lemma tmp_not_log name k : is_tmp name -> name <> log_name k.
Proof. intros H ->. by apply log_not_tmp in H. Qed.
Lemma tmp_not_table name k : is_tmp name -> name <> table_name k.
Proof. intros H ->. by apply table_not_tmp in H. Qed.
Lemma tmp_not_manifest name : is_tmp name -> name <> FILE_NAME.
Proof. by intros H ->. Qed.
Lemma manifest_not_log k : FILE_NAME <> log_name k.
Proof. by apply manifest_not_file. Qed.
Lemma manifest_not_table k : FILE_NAME <> table_name k.
Proof. by apply manifest_not_file. Qed.

Create HintDb names.
#[export] Hint Resolve log_not_tmp table_not_tmp partial_tmp temp_tmp manifest_not_tmp log_not_table tmp_not_log
  tmp_not_table tmp_not_manifest manifest_not_log manifest_not_table not_eq_sym : names.

(** ** The parts of the invariant *)

(** A log: its file, the records it is sure to hold, and those it may hold besides. *)
Record LogFile := mkLogFile {
  lf_number : Z;
  lf_inode : nat;
  lf_records : list LogRecord;
  lf_pending : list LogRecord;
}.

Definition lf_maybe (l : LogFile) (recs : list LogRecord) : Prop :=
  recs = lf_records l \/ recs = lf_records l ++ lf_pending l.

(** [c] has just the logs [ls]. *)
Definition logs_are (c : gmap string nat) (ls : list LogFile) : Prop :=
  forall k i, u64_ok k -> c !! log_name k = Some i <-> exists l, l ∈ ls /\ lf_number l = k /\ lf_inode l = i.

(** The directory holds only files of the store; a file under a temporary name is
    under no final one, in any directory that may come back; a log's file is never
    anything else; and numbers from [next] on are free. *)
Record dir_ok (d : Disk) (next : Z) : Prop := {
  do_disk : disk_ok d;
  do_known : forall c name i, c ∈ candidates d -> c !! name = Some i -> known name;
  do_sep : forall c name i name', c ∈ candidates d -> c !! name = Some i -> ~ is_tmp name -> is_tmp name' ->
    names d !! name' <> Some i;
  do_logs : forall c c' name k i, c ∈ candidates d -> c' ∈ candidates d -> c !! name = Some i -> c' !! log_name k = Some i ->
    name = log_name k;
  do_floor : forall i, (floor_of d i <= length (contents d i))%nat;
  do_free : forall k, next <= k -> u64_ok k ->
    names d !! log_name k = None /\ names d !! table_name k = None /\ names d !! partial_name k = None;
}.

Section Layout.
Context (dir : string).

(** A table under its name, on the device. *)
Definition table_in (d : Disk) (t : Table) : Prop :=
  exists i, (forall c, c ∈ candidates d -> c !! table_name (number_of t) = Some i) /\ i ∈ clean d /\
    sst_opened (join dir (table_name (number_of t))) (contents d i) = Ok (tb_table t).

(** The logs: [gone] have been removed, oldest first, and may come back, the last of
    them first; [logs] are there; [born] is being created and may not be. *)
Record logs_in (d : Disk) (gone logs born : list LogFile) : Prop := {
  lo_sorted : StronglySorted Z.lt (lf_number <$> gone ++ logs ++ born);
  lo_u64 : Forall (fun l => u64_ok (lf_number l)) (gone ++ logs ++ born);
  lo_now : logs_are (names d) (logs ++ born);
  lo_later : forall c, survives d c -> exists j born', (born' = [] \/ born' = born) /\ logs_are c (drop j gone ++ logs ++ born');
  lo_lasting : forall c l, survives d c -> l ∈ gone ++ logs ++ born -> c !! log_name (lf_number l) = Some (lf_inode l) ->
    lasting (floor_of d (lf_inode l)) (contents d (lf_inode l)) (lf_maybe l);
}.

Record layout (d : Disk) (P : option Snapshot -> Prop) (ts : list Table) (gone logs born : list LogFile) (next : Z) : Prop := {
  ly_dir : dir_ok d next;
  ly_manifest : manifest_safe d P;
  ly_tables : Forall (table_in d) ts;
  ly_logs : logs_in d gone logs born;
}.

(** ** What a change of the disk keeps *)

(** Every directory that may come back has the logs of one that might have before,
    with their contents and as much of them on the device. *)
Record same_logs (d d' : Disk) : Prop := {
  sl_later : forall c, survives d' c -> exists c0, survives d c0 /\ forall k, c !! log_name k = c0 !! log_name k;
  sl_now : forall k, names d' !! log_name k = names d !! log_name k;
  sl_files : forall c k i, survives d c -> c !! log_name k = Some i -> contents d' i = contents d i /\
    (floor_of d' i = floor_of d i \/ floor_of d' i = length (contents d i));
}.

Lemma logs_in_same d d' gone logs born : same_logs d d' -> logs_in d gone logs born -> logs_in d' gone logs born.
Proof.
  intros [Hl Hn Hf] [H1 H2 H3 H4 H5]. split; [done|done| | |].
  - intros k i Hk. rewrite Hn. by apply H3.
  - intros c (c0 & Hs & Hc)%Hl. destruct (H4 c0 Hs) as (j & born' & Hb & Hj). exists j, born'. split; [done|].
    intros k i Hk. rewrite Hc. by apply Hj.
  - intros c l (c0 & Hs & Hc)%Hl Hin Hb. rewrite Hc in Hb. pose proof (H5 c0 l Hs Hin Hb) as Hla.
    destruct (Hf c0 _ _ Hs Hb) as [-> Hfl]. eapply lasting_mono; [exact Hla| |done].
    destruct Hla as [Hle _]. destruct Hfl as [-> | ->]; lia.
Qed.

(** Only the directory changes, and not in its logs. *)
Lemma same_logs_names d m :
  (forall k, m !! log_name k = names d !! log_name k) -> same_logs d (set_names d m).
Proof.
  intros Hm. split; [|done|auto]. intros c [Hc Hk]. apply candidates_set_names in Hc as [Hc| ->].
  - exists c. split; [|done]. split; [done|]. intros k i Hn Hf. apply Hk; [|done]. cbn. by rewrite Hm.
  - exists (names d). split; [apply survives_now|done].
Qed.

(** Only bytes of one file change, which is no log. *)
Lemma same_logs_data d i bs n :
  (forall c k, c ∈ candidates d -> c !! log_name k <> Some i) -> same_logs d (set_data d i bs n).
Proof.
  intros Hi. assert (forall c k j, c ∈ candidates d -> c !! log_name k = Some j -> floor_of (set_data d i bs n) j = floor_of d j) as Hfl.
  { intros c k j Hc Hj. unfold floor_of, set_data. cbn. rewrite lookup_insert_ne; [done|]. intros ->. by eapply Hi. }
  split; [|done|].
  - intros c [Hc Hk]. exists c. split; [|done]. split; [done|]. intros k j Hn Hf. apply Hk; [done|].
    rewrite (Hfl (names d) k); [done|apply candidates_names|done].
  - intros c k j [Hc _] Hj. split; [|left; by eapply Hfl]. rewrite contents_set_data. destruct (decide (i = j)) as [->|]; [|done].
    by destruct (Hi c k).
Qed.

(** A file that is under a temporary name is no table, manifest or log. *)
Lemma tmp_scratch d next name i c name' :
  dir_ok d next -> names d !! name = Some i -> is_tmp name -> c ∈ candidates d -> c !! name' = Some i -> is_tmp name'.
Proof.
  intros Hd Hn Ht Hc Hn'. destruct (decide (is_tmp name')) as [|Hx]; [done|]. by destruct (do_sep _ _ Hd c name' i name Hc Hn' Hx Ht).
Qed.

Lemma floor_set_data d i bs n j : floor_of (set_data d i bs n) j = if decide (i = j) then n else floor_of d j.
Proof.
  unfold floor_of, set_data. cbn [floor]. destruct (decide (i = j)) as [->|].
  - by rewrite lookup_insert_eq.
  - by rewrite lookup_insert_ne.
Qed.

Lemma dir_ok_data d next i bs n : dir_ok d next -> (n <= length bs)%nat -> dir_ok (set_data d i bs n) next.
Proof.
  intros [H1 H2 H3 H4 H5 H6] Hn. split; [by apply disk_ok_data|done..| |done].
  intros j. rewrite floor_set_data, contents_set_data. by destruct (decide (i = j)).
Qed.

Lemma manifest_safe_set d P i bs n :
  manifest_safe d P -> (forall c, c ∈ candidates d -> c !! FILE_NAME <> Some i) -> manifest_safe (set_data d i bs n) P.
Proof.
  intros [Ho Hi Hs] Hne. split; [by apply disk_ok_data| |done]. intros c Hc. destruct (Hi c Hc) as (s & HP & Hin).
  exists s. split; [done|]. destruct s as [s|]; [|done]. destruct Hin as (j & Hj & Hcl & Hdec).
  assert (i <> j) as Hij by (intros ->; by apply (Hne c)). exists j. split_and!; [done|cbn; set_solver|].
  rewrite contents_set_data, decide_False by done. done.
Qed.

Lemma table_in_set d t i bs n :
  table_in d t -> names d !! table_name (number_of t) <> Some i -> table_in (set_data d i bs n) t.
Proof.
  intros (j & Hc & Hcl & Ho) Hne. assert (i <> j) as Hij by (intros ->; apply Hne, Hc, candidates_names).
  exists j. split_and!; [done|cbn; set_solver|]. by rewrite contents_set_data, decide_False.
Qed.

(** *** Bytes of a file under a temporary name *)

Lemma layout_scratch d P ts gone logs born next name i bs n :
  layout d P ts gone logs born next -> names d !! name = Some i -> is_tmp name -> (n <= length bs)%nat ->
  layout (set_data d i bs n) P ts gone logs born next.
Proof.
  intros [Hd Hm Ht Hl] Hn Htmp Hle. assert (forall c name', c ∈ candidates d -> c !! name' = Some i -> is_tmp name') as Hx.
  { intros c name'. by apply (tmp_scratch d next name). }
  split.
  - by apply dir_ok_data.
  - apply manifest_safe_set; [done|]. intros c Hc Hf. by apply Hx in Hf.
  - eapply Forall_impl; [exact Ht|]. intros t Hin. apply table_in_set; [done|]. intros Hf.
    apply (Hx _ _ (candidates_names d)) in Hf. by apply table_not_tmp in Hf.
  - eapply logs_in_same; [|done]. apply same_logs_data. intros c k Hc Hf. apply Hx in Hf; [|done]. by apply log_not_tmp in Hf.
Qed.

(** *** Flushing a file *)

Lemma floor_synced_other d i j : i <> j -> floor_of (synced d i) j = floor_of d j.
Proof. intros H. unfold floor_of, synced, sync_run. cbn. by rewrite lookup_insert_ne. Qed.

Lemma layout_sync d P ts gone logs born next i :
  layout d P ts gone logs born next -> layout (synced d i) P ts gone logs born next.
Proof.
  intros [[D1 D2 D3 D4 D5 D6] Hm Ht Hl]. split.
  - split; [|done..| |done].
    + apply disk_ok_clean; [done|]. intros; apply elem_of_app; by left.
    + intros j. rewrite contents_synced. destruct (decide (i = j)) as [->|]; [by rewrite floor_synced|].
      by rewrite floor_synced_other.
  - by apply manifest_safe_sync.
  - eapply Forall_impl; [exact Ht|]. intros t (j & Hc & Hcl & Ho). exists j. split_and!; [done|by apply elem_of_union_r|done].
  - eapply logs_in_same; [|done]. split; [|done|].
    + intros c [Hc Hk]. exists c. split; [|done]. split; [done|]. intros k j Hn Hf. apply Hk; [done|].
      destruct (decide (i = j)) as [->|]; [|by rewrite floor_synced_other]. rewrite floor_synced. specialize (D5 j). lia.
    + intros c k j _ _. split; [done|]. destruct (decide (i = j)) as [->|]; [right; apply floor_synced|].
      left. by apply floor_synced_other.
Qed.

(** *** A new file *)

Section Creating.
Context (d : Disk) (name : string) (Hnone : names d !! name = None).
Let i := fresh_inode d.
Let d' := snd (create_run name d).

Lemma created_names : names d' = <[name := i]> (names d).
Proof. unfold d', create_run. by rewrite Hnone. Qed.

Lemma created_candidates c : c ∈ candidates d' <-> c ∈ candidates d \/ c = <[name := i]> (names d).
Proof.
  unfold d', create_run. rewrite Hnone. cbn [snd]. unfold candidates, set_names. cbn [past names].
  rewrite !elem_of_app, !list_elem_of_singleton. unfold candidates. tauto.
Qed.

Lemma created_contents j : contents d' j = if decide (i = j) then [] else contents d j.
Proof.
  unfold d', create_run. rewrite Hnone. unfold contents. cbn. destruct (decide (i = j)) as [<-|].
  - by rewrite lookup_insert_eq.
  - by rewrite lookup_insert_ne.
Qed.

Lemma created_floor j : floor_of d' j = if decide (i = j) then O else floor_of d j.
Proof.
  unfold d', create_run. rewrite Hnone. unfold floor_of. cbn. destruct (decide (i = j)) as [<-|].
  - by rewrite lookup_insert_eq.
  - by rewrite lookup_insert_ne.
Qed.

Lemma created_clean j : i <> j -> j ∈ clean d -> j ∈ clean d'.
Proof. unfold d', create_run. rewrite Hnone. cbn. intros. fold i. set_solver. Qed.

Lemma fresh_unbound c n j : disk_ok d -> c ∈ candidates d -> c !! n = Some j -> i <> j.
Proof. intros Hd Hc Hn E. apply (dok_fresh d Hd) in Hn as [? _]; [|done]. unfold i in E. lia. Qed.

Lemma fresh_not c n : disk_ok d -> c ∈ candidates d -> c !! n <> Some i.
Proof. intros Hd Hc Hn. by destruct (fresh_unbound c n i Hd Hc Hn). Qed.

#[local] Hint Resolve candidates_names : core.
#[local] Ltac fresh_in H := exfalso; revert H; apply fresh_not; by auto.

Lemma dir_ok_create next next' : dir_ok d next -> known name -> next <= next' ->
  (forall k, next' <= k -> u64_ok k -> name <> log_name k /\ name <> table_name k /\ name <> partial_name k) ->
  dir_ok d' next'.
Proof.
  intros Hd Hk Hle Hfree. pose proof Hd as [D1 D2 D3 D4 D5 D6]. split.
  - by apply disk_ok_create.
  - intros c n j [Hc| ->]%created_candidates; [by apply D2|]. intros [[<- _]|[_ H]]%lookup_insert_Some; [done|].
    by eapply D2, H; apply candidates_names.
  - intros c n j n' Hc Hn Ht Ht'. rewrite created_names. intros [[<- <-]|[Hne Hn']]%lookup_insert_Some.
    + apply created_candidates in Hc as [Hc| ->]; [fresh_in Hn|].
      apply lookup_insert_Some in Hn as [[<- _]|[_ Hn]]; [done|fresh_in Hn].
    + apply created_candidates in Hc as [Hc| ->]; [by eapply D3|].
      apply lookup_insert_Some in Hn as [[_ <-]|[_ Hn]]; [fresh_in Hn'|by apply (D3 (names d) n j n')].
  - intros c c' n k j Hc Hc' Hn Hn'.
    apply created_candidates in Hc as [Hc| ->], Hc' as [Hc'| ->]; [by apply (D4 c c' n k j)| | |].
    + apply lookup_insert_Some in Hn' as [[_ <-]|[_ Hn']]; [fresh_in Hn|by apply (D4 c (names d) n k j)].
    + apply lookup_insert_Some in Hn as [[_ <-]|[_ Hn]]; [fresh_in Hn'|by apply (D4 (names d) c' n k j)].
    + apply lookup_insert_Some in Hn as [[<- <-]|[_ Hn]], Hn' as [[<- E]|[_ Hn']]; [done| | |].
      * fresh_in Hn'.
      * subst j. fresh_in Hn.
      * by apply (D4 (names d) (names d) n k j).
  - intros j. rewrite created_floor, created_contents. by destruct (decide (i = j)).
  - intros k Hk' Hu. rewrite created_names. destruct (Hfree k Hk' Hu) as (F1 & F2 & F3). rewrite !lookup_insert_ne by done.
    apply D6; [lia|done].
Qed.

Lemma manifest_safe_new P : manifest_safe d P -> name <> FILE_NAME -> manifest_safe d' P.
Proof.
  intros [Ho Hi Hs] Hne. split; [by apply disk_ok_create| |].
  - intros c [Hc| ->]%created_candidates.
    + destruct (Hi c Hc) as (s & HP & Hin). exists s. split; [done|]. destruct s as [s|]; [|done].
      destruct Hin as (j & Hj & Hcl & Hdec). assert (i <> j) by by eapply fresh_unbound. exists j. split_and!; [done| |].
      * by apply created_clean.
      * by rewrite created_contents, decide_False.
    + destruct (Hi _ (candidates_names d)) as (s & HP & Hin). exists s. split; [done|]. destruct s as [s|]; cbn in *.
      * destruct Hin as (j & Hj & Hcl & Hdec). assert (i <> j) by (by apply (fresh_unbound (names d) FILE_NAME)).
        exists j. rewrite lookup_insert_ne by done. split_and!; [done| |].
        -- by apply created_clean.
        -- by rewrite created_contents, decide_False.
      * by rewrite lookup_insert_ne.
  - intros c j Hc Hj. rewrite created_names. intros [[E <-]|[_ H]]%lookup_insert_Some.
    + apply created_candidates in Hc as [Hc| ->]; [fresh_in Hj|]. rewrite lookup_insert_ne in Hj by done. fresh_in Hj.
    + apply created_candidates in Hc as [Hc| ->]; [by eapply Hs|].
      rewrite lookup_insert_ne in Hj by done. by apply (Hs (names d) j).
Qed.

Lemma table_in_new t : disk_ok d -> table_in d t -> name <> table_name (number_of t) -> table_in d' t.
Proof.
  intros Hd (j & Hc & Hcl & Ho) Hne. assert (i <> j) by (apply (fresh_unbound (names d) (table_name (number_of t))); auto).
  exists j. split_and!.
  - intros c [Hc'| ->]%created_candidates; [by apply Hc|]. rewrite lookup_insert_ne by done. by apply Hc.
  - by apply created_clean.
  - by rewrite created_contents, decide_False.
Qed.

(** A new file under a temporary name is nothing to the store yet. *)
Lemma same_logs_create : disk_ok d -> is_tmp name -> same_logs d d'.
Proof.
  intros Hd Ht. split.
  - intros c [Hc Hk]. assert (forall k, (<[name := i]> (names d)) !! log_name k = names d !! log_name k) as Hl.
    { intros k. apply lookup_insert_ne. auto with names. }
    apply created_candidates in Hc as [Hc| ->]; [|exists (names d); split; [apply survives_now|done]].
    exists c. split; [|done]. split; [done|]. intros k j Hn Hf. apply Hk; [by rewrite created_names, Hl|].
    rewrite created_floor, decide_False; [done|]. by apply (fresh_unbound (names d) (log_name k)).
  - intros k. rewrite created_names. apply lookup_insert_ne. auto with names.
  - intros c k j [Hc _] Hj. rewrite created_contents, created_floor, !decide_False by (by eapply fresh_unbound). auto.
Qed.

Lemma layout_create_tmp P ts gone logs born next next' :
  layout d P ts gone logs born next -> known name -> is_tmp name -> next <= next' ->
  (forall k, next' <= k -> u64_ok k -> name <> partial_name k) ->
  layout d' P ts gone logs born next' /\ names d' !! name = Some i /\ contents d' i = [].
Proof.
  intros [Hd Hm Ht Hl] Hk Htmp Hle Hfree. pose proof (do_disk _ _ Hd) as Hok. split_and!.
  - split.
    + eapply dir_ok_create; [done..|]. intros k H1 H2. split_and!; [auto with names..|by apply Hfree].
    + apply manifest_safe_new; auto with names.
    + eapply Forall_impl; [exact Ht|]. intros t Hin. apply table_in_new; auto with names.
    + eapply logs_in_same; [|done]. by apply same_logs_create.
  - rewrite created_names. apply lookup_insert_eq.
  - by rewrite created_contents, decide_True.
Qed.
End Creating.

(** *** A name removed *)

Lemma dir_ok_remove d name next : dir_ok d next -> dir_ok (set_names d (delete name (names d))) next.
Proof.
  intros [D1 D2 D3 D4 D5 D6]. assert (forall c n j, c ∈ candidates (set_names d (delete name (names d))) -> c !! n = Some j ->
    exists c0, c0 ∈ candidates d /\ c0 !! n = Some j) as Hc.
  { intros c n j [Hc| ->]%candidates_set_names Hn; [by exists c|]. apply lookup_delete_Some in Hn as [_ Hn].
    exists (names d). split; [apply candidates_names|done]. }
  split.
  - apply disk_ok_names; [done| |].
    + intros n j [_ H]%lookup_delete_Some. by eapply (dok_fresh d D1), H; apply candidates_names.
    + intros n n' j [_ H]%lookup_delete_Some [_ H']%lookup_delete_Some.
      by apply (dok_inj d D1 (names d) n n' j (candidates_names d)).
  - intros c n j Hin Hn. destruct (Hc c n j Hin Hn) as (c0 & H0 & Hn0). by eapply D2.
  - intros c n j n' Hin Hn Ht Ht'. cbn [set_names names]. intros [_ Hn']%lookup_delete_Some. destruct (Hc c n j Hin Hn) as (c0 & H0 & Hn0).
    by apply (D3 c0 n j n').
  - intros c c' n k j Hin Hin' Hn Hn'. destruct (Hc c n j Hin Hn) as (c0 & H0 & Hn0).
    destruct (Hc c' _ j Hin' Hn') as (c1 & H1 & Hn1). by apply (D4 c0 c1 n k j).
  - done.
  - intros k Hk Hu. destruct (D6 k Hk Hu) as (F1 & F2 & F3). cbn [set_names names].
    rewrite !lookup_delete_None. auto.
Qed.

Lemma manifest_safe_remove d name P :
  manifest_safe d P -> name <> FILE_NAME -> manifest_safe (set_names d (delete name (names d))) P.
Proof.
  intros [Ho Hi Hs] Hne. split.
  - assert (snd (remove_run "" name d) = d \/ snd (remove_run "" name d) = set_names d (delete name (names d))) as Hr.
    { unfold remove_run. destruct (names d !! name) as [i|]; cbn; auto. }
    apply disk_ok_names; [done| |].
    + intros n j [_ H]%lookup_delete_Some. by eapply (dok_fresh d Ho), H; apply candidates_names.
    + intros n n' j [_ H]%lookup_delete_Some [_ H']%lookup_delete_Some.
      by apply (dok_inj d Ho (names d) n n' j (candidates_names d)).
  - intros c [Hc| ->]%candidates_set_names; [by apply Hi|].
    destruct (Hi _ (candidates_names d)) as (s & HP & Hin). exists s. split; [done|].
    destruct s as [s|]; cbn in *; by rewrite lookup_delete_ne.
  - intros c j Hc Hj. cbn [set_names names]. intros [_ Ht]%lookup_delete_Some. apply candidates_set_names in Hc as [Hc| ->]; [by apply (Hs c j)|].
    apply lookup_delete_Some in Hj as [_ Hj]. by apply (Hs (names d) j (candidates_names d)).
Qed.

Lemma table_in_names d m t :
  table_in d t -> m !! table_name (number_of t) = names d !! table_name (number_of t) -> table_in (set_names d m) t.
Proof.
  intros (j & Hc & Hcl & Ho) Hm. exists j. split_and!; [|done|done].
  intros c [H| ->]%candidates_set_names; [by apply Hc|]. rewrite Hm. apply Hc, candidates_names.
Qed.

Lemma layout_remove d P ts gone logs born next name :
  layout d P ts gone logs born next -> (forall k, name <> log_name k) -> name <> FILE_NAME ->
  (forall t, t ∈ ts -> name <> table_name (number_of t)) ->
  layout (set_names d (delete name (names d))) P ts gone logs born next.
Proof.
  intros [Hd Hm Ht Hl] Hnl Hnm Hnt. split.
  - by apply dir_ok_remove.
  - by apply manifest_safe_remove.
  - apply Forall_forall. intros t Hin. rewrite Forall_forall in Ht. apply table_in_names; [by apply Ht|].
    apply lookup_delete_ne. by apply Hnt.
  - eapply logs_in_same; [|done]. apply same_logs_names. intros k. by apply lookup_delete_ne.
Qed.

(** *** A file given its final name *)

Lemma dir_ok_rename d from to i next :
  dir_ok d next -> names d !! from = Some i -> is_tmp from -> ~ is_tmp to -> known to -> (forall k, to <> log_name k) ->
  (forall k, next <= k -> u64_ok k -> to <> table_name k) ->
  dir_ok (set_names d (<[to := i]> (delete from (names d)))) next.
Proof.
  intros [D1 D2 D3 D4 D5 D6] Hf Htf Htt Hk Hnl Hfree. set (m := <[to := i]> (delete from (names d))).
  assert (forall n j, m !! n = Some j -> (n = to /\ j = i) \/ (n <> from /\ n <> to /\ names d !! n = Some j)) as Hm.
  { intros n j [[<- <-]|[Hn [Hn' H]%lookup_delete_Some]]%lookup_insert_Some; auto. }
  pose proof (candidates_names d) as Hcn. split.
  - pose proof (disk_ok_rename "" from to d D1) as Hr. unfold rename_run in Hr. by rewrite Hf in Hr.
  - intros c n j [Hc| ->]%candidates_set_names Hn; [by eapply D2|]. apply Hm in Hn as [[-> _]|(_ & _ & Hn)]; [done|by eapply D2].
  - intros c n j n' Hc Hn Ht Ht' Hn'. cbn [set_names names] in Hn'. apply Hm in Hn' as [[-> _]|(Hne & _ & Hn')]; [done|].
    apply candidates_set_names in Hc as [Hc| ->]; [by apply (D3 c n j n')|].
    apply Hm in Hn as [[-> ->]|(_ & _ & Hn)]; [|by apply (D3 (names d) n j n')].
    by destruct (dok_inj d D1 (names d) _ _ _ Hcn Hf Hn').
  - assert (forall c k j, c ∈ candidates (set_names d m) -> c !! log_name k = Some j ->
      exists c0, c0 ∈ candidates d /\ c0 !! log_name k = Some j) as Hlog.
    { intros c k j [Hc| ->]%candidates_set_names Hn; [by exists c|].
      apply Hm in Hn as [[E _]|(_ & _ & Hn)]; [by destruct (Hnl k)|by exists (names d)]. }
    intros c c' n k j Hc Hc' Hn Hn'. destruct (Hlog c' k j Hc' Hn') as (c1 & H1 & Hn1).
    apply candidates_set_names in Hc as [Hc| ->]; [by apply (D4 c c1 n k j)|].
    apply Hm in Hn as [[-> ->]|(_ & _ & Hn)]; [|by apply (D4 (names d) c1 n k j)].
    pose proof (D4 (names d) c1 from k i Hcn H1 Hf Hn1) as ->. by apply log_not_tmp in Htf.
  - done.
  - intros k Hk' Hu. destruct (D6 k Hk' Hu) as (F1 & F2 & F3). cbn [set_names names]. unfold m.
    rewrite !lookup_insert_None, !lookup_delete_None. split_and!; auto.
    intros ->. by apply Htt, partial_tmp.
Qed.

(** A complete table takes its name. *)
Lemma layout_rename_table d P ts gone logs born next k i :
  layout d P ts gone logs born next -> names d !! partial_name k = Some i -> u64_ok k -> k < next ->
  names d !! table_name k = None ->
  layout (set_names d (<[table_name k := i]> (delete (partial_name k) (names d)))) P ts gone logs born next.
Proof.
  intros [Hd Hm Ht Hl] Hp Hu Hk Hfree. split.
  - apply dir_ok_rename; auto with names; [by constructor|]. intros k' Hk' Hu' E. apply table_name_inj in E; [|done..]. lia.
  - destruct Hm as [Ho Hi Hs]. pose proof (candidates_names d) as Hcn. split.
    + pose proof (disk_ok_rename "" (partial_name k) (table_name k) d Ho) as Hr. unfold rename_run in Hr. by rewrite Hp in Hr.
    + intros c [Hc| ->]%candidates_set_names; [by apply Hi|].
      destruct (Hi _ Hcn) as (s & HP & Hin). exists s. split; [done|].
      assert (FILE_NAME <> partial_name k) by (intros E; pose proof (partial_tmp k) as Ht'; by rewrite <- E in Ht').
      destruct s as [s|]; cbn in *; rewrite lookup_insert_ne, lookup_delete_ne by auto with names; done.
    + intros c j Hc Hj. cbn [set_names names].
      intros [[E _]|[_ [_ Htmp]%lookup_delete_Some]]%lookup_insert_Some; [by destruct (table_not_tmp k); rewrite E|].
      apply candidates_set_names in Hc as [Hc| ->]; [by apply (Hs c j)|].
      rewrite lookup_insert_ne in Hj by auto with names. apply lookup_delete_Some in Hj as [_ Hj]. by apply (Hs (names d) j).
  - eapply Forall_impl; [exact Ht|]. intros t Hin. apply table_in_names; [done|].
    assert (table_name k <> table_name (number_of t)) as Hne.
    { intros E. destruct Hin as (j & Hc & _). specialize (Hc _ (candidates_names d)). by rewrite <- E, Hfree in Hc. }
    rewrite lookup_insert_ne, lookup_delete_ne; auto with names.
  - eapply logs_in_same; [|done]. apply same_logs_names. intros k'.
    rewrite lookup_insert_ne, lookup_delete_ne; auto with names.
Qed.

(** The new manifest takes its name. *)
Lemma layout_rename_manifest d P ts gone logs born next i sn :
  layout d P ts gone logs born next -> names d !! TEMP_NAME = Some i -> i ∈ clean d ->
  decode_snapshot (contents d i) = Some sn ->
  let d' := set_names d (<[FILE_NAME := i]> (delete TEMP_NAME (names d))) in
  layout d' (fun s => P s \/ s = Some sn) ts gone logs born next /\ manifest_in d' (names d') (Some sn).
Proof.
  intros [Hd Hm Ht Hl] Hp Hcl Hdec. pose proof (manifest_safe_rename "" d P i sn Hm Hp Hcl Hdec) as (_ & Hm' & Hin).
  unfold rename_run in Hm', Hin. rewrite Hp in Hm', Hin. cbn [snd] in Hm', Hin. split; [|done]. split; [|done| |].
  - apply dir_ok_rename; auto with names; constructor.
  - eapply Forall_impl; [exact Ht|]. intros t Htin. apply table_in_names; [done|].
    rewrite lookup_insert_ne, lookup_delete_ne; auto with names.
  - eapply logs_in_same; [|done]. apply same_logs_names. intros k.
    rewrite lookup_insert_ne, lookup_delete_ne; auto with names.
Qed.

(** *** The directory flushed *)

Definition dir_synced (d : Disk) : Disk := mkDisk (names d) [] (data d) (clean d) (floor d) (fresh_inode d).

Lemma dir_synced_candidates d c : c ∈ candidates (dir_synced d) <-> c = names d.
Proof. unfold candidates, dir_synced. cbn. apply list_elem_of_singleton. Qed.

Lemma dir_ok_synced d next : dir_ok d next -> dir_ok (dir_synced d) next.
Proof.
  intros [D1 D2 D3 D4 D5 D6]. pose proof (candidates_names d) as Hcn. split; try done.
  - apply disk_ok_clean; [done|]. by intros m ?%elem_of_nil.
  - intros c n j ->%dir_synced_candidates. by apply D2.
  - intros c n j n' ->%dir_synced_candidates. by apply D3.
  - intros c c' n k j ->%dir_synced_candidates ->%dir_synced_candidates. by apply D4.
Qed.

Lemma table_in_synced d t i :
  names d !! table_name (number_of t) = Some i -> i ∈ clean d ->
  sst_opened (join dir (table_name (number_of t))) (contents d i) = Ok (tb_table t) -> table_in (dir_synced d) t.
Proof. intros Hn Hc Ho. exists i. split_and!; [|done|done]. by intros c ->%dir_synced_candidates. Qed.

Lemma survives_synced d c : survives (dir_synced d) c <-> c = names d.
Proof.
  split; [intros [Hc _]; by apply dir_synced_candidates in Hc|]. intros ->. apply (survives_now (dir_synced d)).
Qed.

Lemma sorted_suffix (a b : list LogFile) :
  StronglySorted Z.lt (lf_number <$> a ++ b) -> StronglySorted Z.lt (lf_number <$> b).
Proof. rewrite fmap_app. intros H. by apply StronglySorted_app_1_r in H. Qed.

Lemma layout_sync_dir d P ts gone logs born next s :
  layout d P ts gone logs born next -> manifest_in d (names d) s ->
  layout (dir_synced d) (eq s) ts [] logs born next.
Proof.
  intros [Hd [Ho Hi Hs] Ht [L1 L2 L3 L4 L5]] Hin. split.
  - by apply dir_ok_synced.
  - split; [by apply dir_ok_synced in Hd as []| |].
    + intros c ->%dir_synced_candidates. by exists s.
    + intros c i ->%dir_synced_candidates. apply Hs, candidates_names.
  - eapply Forall_impl; [exact Ht|]. intros t (i & Hc & Hcl & Hop). specialize (Hc _ (candidates_names d)).
    by apply (table_in_synced d t i).
  - split; [by apply sorted_suffix in L1|by apply Forall_app in L2 as [_ ?]|done| |].
    + intros c ->%survives_synced. exists O, born. split; [by right|exact L3].
    + intros c l ->%survives_synced Hl. apply L5; [apply survives_now|]. apply elem_of_app. by right.
Qed.

(** ** Logs *)

(** Every directory that may come back has the logs that are there. *)
Definition all_logs (d : Disk) (gone logs : list LogFile) : Prop :=
  forall c, c ∈ candidates d -> exists j, logs_are c (drop j gone ++ logs).

Lemma all_logs_synced d gone logs : logs_in d gone logs [] -> all_logs (dir_synced d) [] logs.
Proof. intros [_ _ L3 _ _] c ->%dir_synced_candidates. exists O. by rewrite app_nil_r in L3. Qed.

Lemma known_log_inv name k : known name -> name = log_name k -> exists k', u64_ok k' /\ log_name k = log_name k'.
Proof.
  intros Hk E. assert (~ is_tmp name) as Ht by (rewrite E; apply log_not_tmp). destruct Hk as [| |k' Hu|k' Hu|k' Hu].
  - by apply manifest_not_log in E.
  - by destruct Ht.
  - by exists k'.
  - symmetry in E. by apply log_not_table in E.
  - by destruct Ht; apply partial_tmp.
Qed.

(** A log there is is one of the logs. *)
Lemma logs_now d next ls c k i : dir_ok d next -> c ∈ candidates d -> logs_are c ls -> c !! log_name k = Some i ->
  exists l, l ∈ ls /\ log_name k = log_name (lf_number l) /\ lf_inode l = i /\ u64_ok (lf_number l).
Proof.
  intros Hd Hc Hl Hk. destruct (known_log_inv _ k (do_known _ _ Hd c _ i Hc Hk) eq_refl) as (k' & Hu & E).
  rewrite E in Hk. apply Hl in Hk as (l & Hin & <- & <-); [|done]. by exists l.
Qed.

Lemma all_logs_survive d next gone logs c : dir_ok d next -> logs_in d gone logs [] -> all_logs d gone logs ->
  c ∈ candidates d -> survives d c.
Proof.
  intros Hd [_ _ L3 _ _] Hall Hc. split; [done|]. intros k i Hk _. rewrite app_nil_r in L3.
  destruct (logs_now d next logs _ k i Hd (candidates_names d) L3 Hk) as (l & Hin & -> & <- & Hu).
  destruct (Hall c Hc) as (j & Hj). apply Hj; [done|]. exists l. split_and!; [|done|done]. apply elem_of_app. by right.
Qed.

Lemma sorted_unique (ls : list LogFile) l l' :
  StronglySorted Z.lt (lf_number <$> ls) -> l ∈ ls -> l' ∈ ls -> lf_number l = lf_number l' -> l = l'.
Proof.
  induction ls as [|x ls IH]; cbn; [by intros _ ?%elem_of_nil|]. intros [Hs Hx]%StronglySorted_inv Hl Hl' E.
  rewrite Forall_forall in Hx.
  apply elem_of_cons in Hl as [->|Hl], Hl' as [->|Hl']; [done| | |by apply IH].
  - specialize (Hx (lf_number l') ltac:(by apply list_elem_of_fmap_2)). lia.
  - specialize (Hx (lf_number l) ltac:(by apply list_elem_of_fmap_2)). lia.
Qed.

(** *** A log removed *)

Lemma logs_are_cons_delete c l ls :
  logs_are c (l :: ls) -> u64_ok (lf_number l) -> Forall (fun x => u64_ok (lf_number x)) ls ->
  (forall x, x ∈ ls -> lf_number x <> lf_number l) -> logs_are (delete (log_name (lf_number l)) c) ls.
Proof.
  intros Hc Hu Hus Hne k i Hk. rewrite lookup_delete_Some. split.
  - intros [Hn Hi]. apply Hc in Hi as (x & [->|Hx]%elem_of_cons & <- & <-); [done| |done]. by exists x.
  - intros (x & Hx & <- & <-). split; [|apply Hc; [done|]; exists x; split; [by right|done]].
    intros E. apply log_name_inj in E; [|done..]. by apply (Hne x Hx).
Qed.

(** Logs that every directory a crash may bring back has. *)
Definition pinned (d : Disk) (ls : list LogFile) : Prop :=
  forall c l, c ∈ candidates d -> l ∈ ls -> c !! log_name (lf_number l) = Some (lf_inode l).

Lemma pinned_same d d' ls : pinned d ls -> (forall c, c ∈ candidates d' -> c ∈ candidates d \/ c = names d') ->
  (forall l, l ∈ ls -> names d' !! log_name (lf_number l) = names d !! log_name (lf_number l)) -> pinned d' ls.
Proof.
  intros Hp Hc Hn c l [Hin| ->]%Hc Hl; [by apply Hp|]. rewrite Hn by done. apply Hp; [apply candidates_names|done].
Qed.

Lemma all_logs_pinned d gone logs : all_logs d gone logs -> Forall (fun l => u64_ok (lf_number l)) logs -> pinned d logs.
Proof.
  intros Hall Hu c l Hc Hl. destruct (Hall c Hc) as (j & Hj). rewrite Forall_forall in Hu. apply Hj; [by apply Hu|].
  exists l. split; [|done]. apply elem_of_app. by right.
Qed.

Lemma layout_remove_log d P ts gone l logs next :
  layout d P ts gone (l :: logs) [] next -> pinned d [l] ->
  let d' := set_names d (delete (log_name (lf_number l)) (names d)) in layout d' P ts (gone ++ [l]) logs [] next.
Proof.
  intros [Hd Hm Ht Hl] Hpin. pose proof Hl as [L1 L2 L3 L4 L5]. rewrite !app_nil_r in *.
  assert (u64_ok (lf_number l)) as Hu by (apply Forall_app in L2 as [_ H]; by inversion H).
  assert (logs_are (delete (log_name (lf_number l)) (names d)) logs) as Hnow.
  { apply Forall_app in L2 as [_ H]. apply logs_are_cons_delete; [done|done|by inversion H|].
    intros x Hx. rewrite fmap_app in L1. apply StronglySorted_app_1_r in L1. cbn in L1.
    apply StronglySorted_inv in L1 as [_ L1]. rewrite Forall_forall in L1.
    specialize (L1 (lf_number x) ltac:(by apply list_elem_of_fmap_2)). lia. }
  set (m := delete (log_name (lf_number l)) (names d)) in *. cbn zeta.
  assert (forall c, c ∈ candidates d -> survives (set_names d m) c -> survives d c) as Hsurv.
  { intros c Hc [_ Hs]. split; [done|]. intros k i Hk Hf. destruct (decide (log_name k = log_name (lf_number l))) as [E|E].
    - rewrite E in *. rewrite (Hpin (names d) l) in Hk by (apply candidates_names || left). rewrite <- Hk. apply Hpin; [done|left].
    - apply Hs; [|done]. cbn. unfold m. by rewrite lookup_delete_ne. }
  split.
  - by apply dir_ok_remove.
  - apply manifest_safe_remove; [done|]. apply not_eq_sym. auto with names.
  - eapply Forall_impl; [exact Ht|]. intros t Hin. apply table_in_names; [done|]. apply lookup_delete_ne. auto with names.
  - split; rewrite ?app_nil_r; [by rewrite <- app_assoc|by rewrite <- app_assoc|done| |].
    + intros c Hs. pose proof (proj1 Hs) as [Hc| ->]%candidates_set_names.
      * destruct (L4 c (Hsurv c Hc Hs)) as (j & born' & Hb & Hj). assert (born' = []) as -> by by destruct Hb. rewrite app_nil_r in Hj.
        exists (j `min` length gone)%nat, []. split; [by left|]. rewrite app_nil_r, drop_app_le, <- app_assoc by lia. cbn.
        replace (drop (j `min` length gone) gone) with (drop j gone); [done|].
        destruct (decide (j <= length gone)%nat); [by rewrite Nat.min_l|]. by rewrite Nat.min_r, !drop_ge by lia.
      * exists (length (gone ++ [l])), []. split; [by left|]. by rewrite drop_all, app_nil_r.
    + intros c x Hs Hx Hn. rewrite <- app_assoc in Hx. cbn in Hx. pose proof (proj1 Hs) as [Hc| ->]%candidates_set_names.
      * apply (L5 c x); [by apply Hsurv|done|done].
      * apply lookup_delete_Some in Hn as [_ Hn]. apply (L5 (names d) x); [apply survives_now|done|done].
Qed.

(** *** Writing to a log *)

(** The same files, whatever is known of their records. *)
Definition same_files (logs logs' : list LogFile) : Prop :=
  Forall2 (fun l l' => lf_number l' = lf_number l /\ lf_inode l' = lf_inode l) logs logs'.

Lemma same_files_numbers logs logs' : same_files logs logs' -> lf_number <$> logs' = lf_number <$> logs.
Proof. induction 1 as [|l l' ls ls' [E _] _ IH]; cbn; [done|]. by rewrite E, IH. Qed.

Lemma same_files_elem logs logs' k i : same_files logs logs' ->
  (exists l, l ∈ logs /\ lf_number l = k /\ lf_inode l = i) <-> (exists l, l ∈ logs' /\ lf_number l = k /\ lf_inode l = i).
Proof.
  induction 1 as [|l l' ls ls' [E1 E2] _ IH]; [by split; intros (? & ?%elem_of_nil & _)|]. split.
  - intros (x & [->|Hx]%elem_of_cons & H1 & H2); [exists l'; split; [left|split; congruence]|].
    destruct (proj1 IH) as (y & Hy & Hy'); [by exists x|]. exists y. split; [by right|done].
  - intros (x & [->|Hx]%elem_of_cons & H1 & H2); [exists l; split; [left|split; congruence]|].
    destruct (proj2 IH) as (y & Hy & Hy'); [by exists x|]. exists y. split; [by right|done].
Qed.

Lemma logs_are_files c logs logs' : same_files logs logs' -> logs_are c logs -> logs_are c logs'.
Proof. intros Hs Hl k i Hk. rewrite (Hl k i Hk). by apply same_files_elem. Qed.

Lemma same_files_refl logs : same_files logs logs.
Proof. induction logs; constructor; auto. Qed.

(** A change to the files' bytes, with the same names, after which no more
    directories can come back. *)
Lemma logs_in_change d d' gone logs logs' born born' :
  logs_in d gone logs born -> same_files logs logs' -> same_files born born' ->
  names d' = names d -> (forall c, survives d' c -> survives d c) ->
  (forall c l, survives d c -> l ∈ gone -> c !! log_name (lf_number l) = Some (lf_inode l) ->
    contents d' (lf_inode l) = contents d (lf_inode l) /\ floor_of d' (lf_inode l) = floor_of d (lf_inode l)) ->
  (forall l, l ∈ logs' ++ born' -> lasting (floor_of d' (lf_inode l)) (contents d' (lf_inode l)) (lf_maybe l)) ->
  logs_in d' gone logs' born'.
Proof.
  intros [L1 L2 L3 L4 L5] Hs Hb Hn Hsv Hg Hla. pose proof (same_files_numbers _ _ Hs) as En.
  pose proof (same_files_numbers _ _ Hb) as Enb. split.
  - rewrite !fmap_app, En, Enb, <- !fmap_app. done.
  - rewrite <- (Forall_fmap lf_number u64_ok) in L2 |- *. rewrite !fmap_app, En, Enb, <- !fmap_app. done.
  - rewrite Hn. eapply logs_are_files; [|exact L3]. by apply Forall2_app.
  - intros c Hc%Hsv. destruct (L4 c Hc) as (j & b & Hb' & Hj). exists j, (if decide (b = []) then [] else born').
    split; [by destruct (decide (b = [])); auto|]. eapply logs_are_files; [|exact Hj].
    apply Forall2_app; [apply same_files_refl|]. apply Forall2_app; [done|].
    destruct (decide (b = [])) as [->|Hne]; [constructor|]. by destruct Hb' as [->| ->].
  - intros c l Hc%Hsv Hin Hk. apply elem_of_app in Hin as [Hin|Hin]; [|by apply Hla].
    destruct (Hg c l Hc Hin Hk) as [-> ->]. apply (L5 c l Hc); [|done]. apply elem_of_app. by left.
Qed.

Lemma survives_data d i bs n c : (floor_of d i <= n)%nat -> survives (set_data d i bs n) c -> survives d c.
Proof.
  intros Hle [Hc Hk]. split; [done|]. intros k j Hn Hf. apply Hk; [done|]. rewrite floor_set_data.
  destruct (decide (i = j)) as [->|]; [lia|done].
Qed.

(** A log's number is its own. *)
Lemma log_inode_number d gone logs born next c l l' :
  dir_ok d next -> logs_in d gone logs born -> l ∈ gone ++ logs ++ born -> l' ∈ logs ++ born -> c ∈ candidates d ->
  c !! log_name (lf_number l) = Some (lf_inode l) -> lf_inode l = lf_inode l' -> l = l'.
Proof.
  intros Hd [L1 L2 L3 L4 L5] Hl Hl' Hc Hn E. assert (l' ∈ gone ++ logs ++ born) as Hin by (apply elem_of_app; by right).
  rewrite Forall_forall in L2. apply (sorted_unique _ _ _ L1); [done..|].
  apply log_name_inj; [by apply L2..|]. apply (do_logs _ _ Hd c (names d) _ (lf_number l') (lf_inode l)); [done|apply candidates_names|done|].
  apply L3; [by apply L2|]. by exists l'.
Qed.

Lemma layout_log_data d P ts gone logs logs' born born' next l bs n :
  layout d P ts gone logs born next -> l ∈ logs ++ born -> (n <= length bs)%nat ->
  (forall c, survives (set_data d (lf_inode l) bs n) c -> survives d c) ->
  same_files logs logs' -> same_files born born' ->
  (forall x, x ∈ logs' ++ born' -> lf_inode x = lf_inode l -> lasting n bs (lf_maybe x)) ->
  (forall x, x ∈ logs' ++ born' -> lf_inode x <> lf_inode l -> x ∈ logs ++ born) ->
  layout (set_data d (lf_inode l) bs n) P ts gone logs' born' next.
Proof.
  intros [Hd Hm Ht Hl] Hin Hn Hsv Hs Hb Hnew Hold. pose proof Hl as [L1 L2 L3 L4 L5]. pose proof (candidates_names d) as Hcn.
  assert (u64_ok (lf_number l)) as Hu by (rewrite Forall_forall in L2; apply L2, elem_of_app; by right).
  assert (names d !! log_name (lf_number l) = Some (lf_inode l)) as Hnl by (apply L3; [done|by exists l]).
  assert (forall c name, c ∈ candidates d -> c !! name = Some (lf_inode l) -> name = log_name (lf_number l)) as Hx.
  { intros c name Hc Hk. by apply (do_logs _ _ Hd c (names d) name (lf_number l) (lf_inode l)). }
  split.
  - by apply dir_ok_data.
  - apply manifest_safe_set; [done|]. intros c Hc Hf. apply Hx in Hf; [|done]. by apply manifest_not_log in Hf.
  - eapply Forall_impl; [exact Ht|]. intros t Htin. apply table_in_set; [done|]. intros Hf. apply Hx in Hf; [|done].
    symmetry in Hf. by apply log_not_table in Hf.
  - eapply logs_in_change; [exact Hl|done|done|done|done| |].
    + intros c x [Hc _] Hg Hk. rewrite contents_set_data, floor_set_data.
      destruct (decide (lf_inode l = lf_inode x)) as [E|]; [|done].
      assert (x = l) as -> by (eapply log_inode_number; [done|done|apply elem_of_app; by left|done|done|done|done]).
      rewrite fmap_app in L1. pose proof (StronglySorted_app_1_elem_of _ _ _ (lf_number l) (lf_number l) L1
        ltac:(by apply list_elem_of_fmap_2) ltac:(by apply list_elem_of_fmap_2)). lia.
    + intros x Hx'. rewrite contents_set_data, floor_set_data. destruct (decide (lf_inode l = lf_inode x)) as [E|Hne].
      * apply Hnew; [done|by rewrite E].
      * specialize (Hold x Hx' ltac:(congruence)). apply (L5 (names d) x); [apply survives_now|apply elem_of_app; by right|].
        apply L3; [|by exists x]. rewrite Forall_forall in L2. apply L2, elem_of_app. by right.
Qed.

(** Nothing changes but what is known of the logs. *)
Lemma layout_relabel d P ts gone logs logs' born born' next :
  layout d P ts gone logs born next -> same_files logs logs' -> same_files born born' ->
  (forall l, l ∈ logs' ++ born' -> lasting (floor_of d (lf_inode l)) (contents d (lf_inode l)) (lf_maybe l)) ->
  layout d P ts gone logs' born' next.
Proof. intros [Hd Hm Ht Hl] Hs Hb Hla. split; [done..|]. eapply logs_in_change; eauto. Qed.

Lemma layout_lasting d P ts gone logs born next l :
  layout d P ts gone logs born next -> l ∈ logs ++ born ->
  names d !! log_name (lf_number l) = Some (lf_inode l) /\
  lasting (floor_of d (lf_inode l)) (contents d (lf_inode l)) (lf_maybe l).
Proof.
  intros [Hd Hm Ht [L1 L2 L3 L4 L5]] Hin. rewrite Forall_forall in L2.
  assert (l ∈ gone ++ logs ++ born) as Hin' by (apply elem_of_app; by right).
  assert (names d !! log_name (lf_number l) = Some (lf_inode l)) as Hn by (apply L3; [by apply L2|by exists l]).
  split; [done|]. by apply (L5 (names d) l); [apply survives_now|..].
Qed.

(** *** A new log *)

Lemma logs_are_create c ls k i :
  logs_are c ls -> u64_ok k -> c !! log_name k = None -> logs_are (<[log_name k := i]> c) (ls ++ [mkLogFile k i [] []]).
Proof.
  intros Hc Hk Hn k' i' Hk'. rewrite lookup_insert_Some. split.
  - intros [[E <-]|[Hne Hi]].
    + apply log_name_inj in E as <-; [|done..]. eexists. split; [apply elem_of_app; right; by apply list_elem_of_singleton|done].
    + apply Hc in Hi as (l & Hl & Hl'); [|done]. exists l. split; [apply elem_of_app; by left|done].
  - intros (l & [Hl| ->%list_elem_of_singleton]%elem_of_app & <- & <-); [|by left].
    assert (c !! log_name (lf_number l) = Some (lf_inode l)) as Hi by (apply Hc; [done|by exists l]).
    right. split; [|done]. intros E. by rewrite E, Hi in Hn.
Qed.

Lemma layout_create_log d P ts gone logs next next' k :
  layout d P ts gone logs [] next -> u64_ok k -> next <= k < next' ->
  Forall (fun l => lf_number l < k) (gone ++ logs) ->
  let d' := snd (create_run (log_name k) d) in let i := fresh_inode d in
  layout d' P ts gone logs [mkLogFile k i [] []] next' /\ names d' !! log_name k = Some i /\ contents d' i = [] /\
  floor_of d' i = O.
Proof.
  intros [Hd Hm Ht Hl] Hu Hk Hlt. cbn zeta. pose proof Hd as [D1 D2 D3 D4 D5 D6].
  destruct (D6 k ltac:(lia) Hu) as (Hnone & _). pose proof Hl as [L1 L2 L3 L4 L5]. rewrite !app_nil_r in *.
  set (i := fresh_inode d). set (d' := snd (create_run (log_name k) d)).
  assert (forall j, i <> j -> contents d' j = contents d j /\ floor_of d' j = floor_of d j) as Hother.
  { intros j Hj. unfold d'. rewrite created_contents, created_floor by done. fold i. by rewrite !decide_False. }
  assert (names d' = <[log_name k := i]> (names d)) as En by by apply created_names.
  assert (contents d' i = [] /\ floor_of d' i = O) as [Ec Ef].
  { unfold d'. rewrite created_contents, created_floor by done. fold i. by rewrite !decide_True. }
  assert (forall c l, c ∈ candidates d -> c !! log_name (lf_number l) = Some (lf_inode l) -> i <> lf_inode l) as Hfr.
  { intros c l. by apply fresh_unbound. }
  assert (forall c, survives d' c -> c ∈ candidates d -> survives d c) as Hsv.
  { intros c [_ Hk'] Hc. split; [done|]. intros k' j Hn Hf. apply Hk'.
    - rewrite En, lookup_insert_ne; [done|]. intros E. by rewrite <- E, Hnone in Hn.
    - destruct (Hother j) as [_ ->]; [|done]. by apply (fresh_unbound d (names d) (log_name k')); [|apply candidates_names|]. }
  split_and!; [split| |done|done].
  - eapply (dir_ok_create d (log_name k) Hnone next); [done|by constructor|lia|]. intros k' Hk' Hu'. split_and!; [|auto with names|].
    + intros E. apply log_name_inj in E; [|done..]. lia.
    + intros E. by destruct (log_not_tmp k); rewrite E; apply partial_tmp.
  - apply manifest_safe_new; auto with names.
  - eapply Forall_impl; [exact Ht|]. intros t Hin. apply table_in_new; auto with names.
  - split.
    + rewrite app_assoc, fmap_app. apply StronglySorted_app_2; [|done|repeat constructor].
      intros x y (l & -> & Hx)%list_elem_of_fmap Hy. rewrite Forall_forall in Hlt. specialize (Hlt l Hx).
      cbn in Hy. apply list_elem_of_singleton in Hy as ->. done.
    + rewrite app_assoc. apply Forall_app. split; [done|]. by constructor.
    + rewrite En. by apply logs_are_create.
    + intros c Hc. pose proof Hc as [Hcc _]. apply created_candidates in Hcc as [Hcc| ->]; [|..|done].
      * destruct (L4 c (Hsv c Hc Hcc)) as (j & b & Hb & Hj). exists j, []. split; [by left|]. by destruct Hb as [-> | ->].
      * exists (length gone), [mkLogFile k i [] []]. split; [by right|]. rewrite drop_all. by apply logs_are_create.
    + intros c l Hc Hin Hn. rewrite app_assoc in Hin. apply elem_of_app in Hin as [Hin|Hin].
      * assert (log_name (lf_number l) <> log_name k) as Hne.
        { rewrite Forall_forall in L2, Hlt. intros E. apply log_name_inj in E; [|by apply L2|done]. specialize (Hlt l Hin). lia. }
        pose proof Hc as [Hcc _]. apply created_candidates in Hcc as [Hcc| ->]; [|..|done].
        -- destruct (Hother (lf_inode l)) as [-> ->]; [by eapply Hfr|]. by apply (L5 c l); [apply Hsv|..].
        -- rewrite lookup_insert_ne in Hn by done.
           destruct (Hother (lf_inode l)) as [-> ->]; [by eapply Hfr, Hn; apply candidates_names|].
           apply (L5 (names d) l); [apply survives_now|done|done].
      * apply list_elem_of_singleton in Hin as ->. cbn [lf_inode]. rewrite Ec, Ef.
        split; [done|]. intros n _. exists []. split; [by left|]. rewrite take_nil. split; [constructor|]. right. split; [cbn; lia|done].
  - rewrite En. apply lookup_insert_eq.
Qed.

(** Once flushed, it is one of the logs. *)
Lemma layout_born d P ts gone logs l next :
  layout d P ts gone logs [l] next -> (0 < floor_of d (lf_inode l))%nat -> layout d P ts gone (logs ++ [l]) [] next.
Proof.
  intros Hly Hf. destruct (layout_lasting _ _ _ _ _ _ _ l Hly) as [Hn _]; [apply elem_of_app; right; by apply list_elem_of_singleton|].
  destruct Hly as [Hd Hm Ht [L1 L2 L3 L4 L5]]. split; [done..|].
  split; rewrite ?app_nil_r; [done|done|done| |done].
  intros c Hc. destruct (L4 c Hc) as (j & b & [-> | ->] & Hj); exists j, []; (split; [by left|]); rewrite ?app_nil_r in *; [|done].
  exfalso. pose proof Hc as [Hcc Hk]. specialize (Hk _ _ Hn Hf). apply Hj in Hk as (x & Hx & E & _);
    [|rewrite Forall_forall in L2; apply L2; rewrite !elem_of_app, list_elem_of_singleton; auto].
  assert (x ∈ gone ++ logs) as Hx'.
  { rewrite <- (take_drop j gone), <- app_assoc. apply elem_of_app. by right. }
  rewrite app_assoc, fmap_app in L1.
  pose proof (StronglySorted_app_1_elem_of _ _ _ (lf_number x) (lf_number l) L1 ltac:(by apply list_elem_of_fmap_2)
    ltac:(by apply list_elem_of_singleton)). lia.
Qed.

Lemma layout_weaken d P P' ts ts' gone logs born next :
  layout d P ts gone logs born next -> (forall s, P s -> P' s) -> (forall t, t ∈ ts' -> t ∈ ts) ->
  layout d P' ts' gone logs born next.
Proof.
  intros [Hd Hm Ht Hl] HP Hs. split; [done| | |done].
  - by eapply manifest_safe_mono.
  - rewrite Forall_forall in Ht. apply Forall_forall. auto.
Qed.

Lemma layout_next d P ts gone logs born next next' :
  layout d P ts gone logs born next ->
  (forall k, next' <= k -> u64_ok k ->
    names d !! log_name k = None /\ names d !! table_name k = None /\ names d !! partial_name k = None) ->
  layout d P ts gone logs born next'.
Proof. intros [[D1 D2 D3 D4 D5 D6] Hm Ht Hl] Hf. split; [|done..]. by split. Qed.

Lemma layout_later d P ts gone logs born next next' :
  layout d P ts gone logs born next -> next <= next' -> layout d P ts gone logs born next'.
Proof. intros Hl Hle. eapply layout_next; [done|]. intros k Hk. apply (do_free _ _ (ly_dir _ _ _ _ _ _ _ Hl)). lia. Qed.

(** ** After a crash *)

Lemma crash_candidates d d' c : ordered_crash d d' -> c ∈ candidates d' <-> c = names d'.
Proof. intros [[_ Hp _ _ _ _ _] _ _ _]. unfold candidates. rewrite Hp. apply list_elem_of_singleton. Qed.

Lemma crash_contents d d' i : ordered_crash d d' -> i ∈ clean d -> contents d' i = contents d i.
Proof. intros [[_ _ Hc _ _ _ _] _ _ _] Hi. unfold contents. by rewrite Hc. Qed.

Lemma crash_clean d d' c n i : disk_ok d -> ordered_crash d d' -> c ∈ candidates d -> c !! n = Some i -> i ∈ clean d'.
Proof.
  intros Hd [[_ _ _ _ Hdata _ Hcl] _ _ _] Hc Hn. rewrite Hcl. apply elem_of_dom. apply Hdata. by eapply dok_fresh.
Qed.

Lemma dir_ok_crash d d' next : dir_ok d next -> ordered_crash d d' -> dir_ok d' (u64_max + 1).
Proof.
  intros [D1 D2 D3 D4 D5 D6] Hc. pose proof (cr_names _ _ (oc_crash _ _ Hc)) as Hin.
  assert (disk_ok d') as Hok by (eapply disk_ok_crash; [exact D1|apply Hc]). split; [done|..].
  - intros c n i ->%(crash_candidates d d' c Hc). by apply D2.
  - intros c n i n' ->%(crash_candidates d d' c Hc) Hn Ht Ht' Hn'.
    rewrite (dok_inj d' Hok (names d') n n' i) in Ht; [done|apply candidates_names|done|done].
  - intros c c' n k i ->%(crash_candidates d d' c Hc) ->%(crash_candidates d d' c' Hc). by apply D4.
  - intros i. by rewrite (oc_floor _ _ Hc).
  - intros k Hk [_ Hu]. lia.
Qed.

(** What a crash leaves: one of the manifests, the tables, and logs that say one of
    the things they might. *)
Definition left_of (l l' : LogFile) : Prop :=
  lf_number l' = lf_number l /\ lf_inode l' = lf_inode l /\ lf_maybe l (lf_records l') /\ lf_pending l' = [].

Lemma crash_logs d d' ls :
  ordered_crash d d' ->
  Forall (fun l => lasting (floor_of d (lf_inode l)) (contents d (lf_inode l)) (lf_maybe l)) ls ->
  exists ls', Forall2 left_of ls ls' /\
    Forall (fun l => lasting (floor_of d' (lf_inode l)) (contents d' (lf_inode l)) (lf_maybe l)) ls'.
Proof.
  intros Hc. induction 1 as [|l ls Hl _ (ls' & Hf & Hls)]; [by exists []|].
  destruct (lasting_crash d d' _ _ Hl Hc) as (recs & Hr & _ & Hla).
  exists (mkLogFile (lf_number l) (lf_inode l) recs [] :: ls'). split; [by constructor|]. constructor; [|done].
  cbn. eapply lasting_mono; [exact Hla|destruct Hla; lia|]. intros x <-. by left.
Qed.

Lemma left_of_files ls ls' : Forall2 left_of ls ls' -> same_files ls ls'.
Proof. intros H. eapply Forall2_impl; [exact H|]. by intros l l' (E1 & E2 & _). Qed.

Lemma layout_crash d d' P ts gone logs born next :
  layout d P ts gone logs born next -> ordered_crash d d' ->
  exists s j born' logs', P s /\ manifest_in d' (names d') s /\ (born' = [] \/ born' = born) /\
    Forall2 left_of (drop j gone ++ logs ++ born') logs' /\
    layout d' (eq s) ts [] logs' [] (u64_max + 1) /\ all_logs d' [] logs'.
Proof.
  intros [Hd Hm Ht Hl] Hc. pose proof (crash_survives _ _ Hc) as Hs. pose proof Hl as [L1 L2 L3 L4 L5].
  pose proof (cr_names _ _ (oc_crash _ _ Hc)) as Hin. pose proof (do_disk _ _ Hd) as Hok.
  destruct (ms_in _ _ Hm _ Hin) as (s & HP & Hms). destruct (L4 _ Hs) as (j & b & Hb & Hj).
  assert (forall x, x ∈ drop j gone ++ logs ++ b -> x ∈ gone ++ logs ++ born) as Hsub.
  { intros x. rewrite !elem_of_app. intros [H|[H|H]]; [left|by right; left|].
    - rewrite <- (take_drop j gone). apply elem_of_app. by right.
    - destruct Hb as [-> | ->]; [by apply elem_of_nil in H|]. by right; right. }
  destruct (crash_logs d d' (drop j gone ++ logs ++ b) Hc) as (ls & Hf & Hla).
  { apply Forall_forall. intros l Hx. apply (L5 _ _ Hs); [by apply Hsub|]. apply Hj; [|by exists l].
    rewrite Forall_forall in L2. by apply L2, Hsub. }
  assert (manifest_in d' (names d') s) as Hms'.
  { destruct s as [s|]; [|done]. destruct Hms as (i & Hi & Hcl & Hdec). exists i. split_and!; [done| |].
    - by eapply crash_clean.
    - by rewrite (crash_contents d d'). }
  assert (logs_are (names d') ls) as Hls by (eapply logs_are_files; [by apply left_of_files|done]).
  pose proof (same_files_numbers _ _ (left_of_files _ _ Hf)) as En.
  exists s, j, b, ls. split_and!; [done..|split|].
  - by eapply dir_ok_crash.
  - split; [by apply (dir_ok_crash d d' next)| |].
    + intros c ->%(crash_candidates d d' c Hc). by exists s.
    + intros c i ->%(crash_candidates d d' c Hc) Hfi Hti.
      pose proof (dok_inj d' (do_disk _ _ (dir_ok_crash d d' next Hd Hc)) _ FILE_NAME TEMP_NAME i (candidates_names d') Hfi Hti) as E.
      discriminate E.
  - eapply Forall_impl; [exact Ht|]. intros t (i & Hti & Hcl & Ho). exists i. split_and!.
    + intros c ->%(crash_candidates d d' c Hc). by apply Hti.
    + eapply crash_clean; [done|done|exact Hin|by apply Hti].
    + by rewrite (crash_contents d d').
  - split; rewrite ?app_nil_r; cbn [app].
    + rewrite En. assert (exists pre post, gone ++ logs ++ born = pre ++ (drop j gone ++ logs ++ b) ++ post) as (pre & post & E).
      { exists (take j gone). destruct Hb as [-> | ->].
        - exists born. by rewrite app_nil_r, <- !app_assoc, (app_assoc (take j gone)), take_drop.
        - exists []. by rewrite app_nil_r, (app_assoc (take j gone)), take_drop. }
      rewrite E, !fmap_app in L1. apply StronglySorted_app_1_r, StronglySorted_app_1_l in L1. by rewrite !fmap_app.
    + rewrite <- (Forall_fmap lf_number u64_ok), En, Forall_fmap. apply Forall_forall. intros x Hx.
      rewrite Forall_forall in L2. by apply L2, Hsub.
    + done.
    + intros c [->%(crash_candidates d d' c Hc) _]. exists O, []. split; [by left|]. by rewrite app_nil_r.
    + intros c l _ Hx _. rewrite Forall_forall in Hla. by apply Hla.
  - intros c ->%(crash_candidates d d' c Hc). by exists O.
Qed.
End Layout.
