(* ===== verification/Tells.v ===== *)
(** * What the logs and the files say together

    Replaying the logs into an empty table and putting it in front of the files is
    what opening a store comes to. [tells] says that this gives back what the store
    has been told, and the lemmas that appending a record, flushing the oldest
    records to a file, and compacting keep it so: after a flush also while some of
    the logs the file replaces are still there. *)

From stdpp Require Import sorting.
From S2P Require Import Prelude WalRecord WalReplay Wal Memtable SsTable Disk Manifest Naming Compaction Layers Engine Store Shape.
From S2P Require Import EngineSpec.

Definition mutation (r : LogRecord) : entry := (record_key r, (record_seq r, record_value r)).

(** What the records leave in a table. *)
Definition memory_of (recs : list LogRecord) : layer := spec_apply ∅ (mutation <$> recs).

Definition numbered (recs : list LogRecord) : Prop := StronglySorted Z.lt (record_seq <$> recs).

Lemma memory_in recs k v : memory_of recs !! k = Some v -> exists r, r ∈ recs /\ mutation r = (k, v).
Proof.
  intros [H|H]%spec_apply_lookup; [by rewrite lookup_empty in H|].
  apply list_elem_of_fmap in H as (r & E & Hr). by exists r.
Qed.

Lemma numbered_app a b : numbered (a ++ b) <->
  numbered a /\ numbered b /\ forall r r', r ∈ a -> r' ∈ b -> record_seq r < record_seq r'.
Proof.
  unfold numbered. rewrite fmap_app, StronglySorted_app. split.
  - intros (H & Ha & Hb). split_and!; [done..|]. intros r r' Hr Hr'. apply H; by apply list_elem_of_fmap_2.
  - intros (Ha & Hb & H). split_and!; [|done..]. intros x y (r & -> & Hr)%list_elem_of_fmap (r' & -> & Hr')%list_elem_of_fmap. auto.
Qed.

Lemma memory_snoc recs r : numbered (recs ++ [r]) ->
  memory_of (recs ++ [r]) = <[record_key r := (record_seq r, record_value r)]> (memory_of recs).
Proof.
  intros (_ & _ & Hlt)%numbered_app. unfold memory_of at 1. rewrite fmap_app. unfold spec_apply. rewrite fold_left_app.
  fold (spec_apply ∅ (mutation <$> recs)). fold (memory_of recs). cbn. unfold spec_insert, spec_newest.
  destruct (memory_of recs !! record_key r) as [[s v]|] eqn:E; [|done].
  apply memory_in in E as (x & Hx & [= E1 E2 E3]). specialize (Hlt x r Hx ltac:(by apply list_elem_of_singleton)).
  destruct (Z.ltb_spec s (record_seq r)); [done|lia].
Qed.

(** Later records hide earlier ones. *)
Lemma memory_app a b : numbered (a ++ b) -> memory_of (a ++ b) = memory_of b ∪ memory_of a.
Proof.
  induction b as [|r b IH] using rev_ind; intros Hn.
  - rewrite app_nil_r. unfold memory_of at 2. cbn. by rewrite (left_id_L ∅ _).
  - rewrite app_assoc in *. rewrite memory_snoc by done. apply numbered_app in Hn as Hn'. destruct Hn' as (Hab & _ & _).
    rewrite IH by done. rewrite <- app_assoc in Hn. apply numbered_app in Hn as (_ & Hb & _).
    rewrite memory_snoc by done. by rewrite insert_union_l.
Qed.

(** ** Telling *)

(** The files hold numbers up to [last_seq]. *)
Record tells (last_seq : Z) (levels : list (list Table)) (recs : list LogRecord) (told : layer) : Prop := {
  te_numbered : numbered recs;
  te_ok : Forall record_ok recs;
  te_ordered : layers_ordered (memory_of recs :: file_layers levels);
  te_agrees : agrees (view (memory_of recs :: file_layers levels)) told;
  te_files : within last_seq (file_layers levels);
  te_told : within (highest_seq recs last_seq) [told];
}.

Lemma highest_seq_app a b l : highest_seq (a ++ b) l = highest_seq b (highest_seq a l).
Proof. apply fold_left_app. Qed.

Lemma highest_seq_mono recs : forall l l', l <= l' -> highest_seq recs l <= highest_seq recs l'.
Proof. induction recs as [|r recs IH]; intros l l' H; cbn; [done|]. apply IH. lia. Qed.

Lemma highest_seq_le recs : forall l n, l <= n -> (forall r, r ∈ recs -> record_seq r <= n) -> highest_seq recs l <= n.
Proof.
  induction recs as [|r recs IH]; intros l n Hl Hr; cbn; [done|]. apply IH.
  - specialize (Hr r ltac:(left)). lia.
  - intros x Hx. apply Hr. by right.
Qed.

Lemma memory_within recs l : Forall record_ok recs -> within (highest_seq recs l) [memory_of recs].
Proof.
  intros Hok m k v ->%list_elem_of_singleton (r & Hr & [= <- <-])%memory_in. cbn. rewrite Forall_forall in Hok.
  destruct (Hok r Hr) as [[H0 _] _]. split; [done|]. by apply highest_seq_spec.
Qed.

Lemma tells_empty : tells 0 [[]] [] ∅.
Proof.
  split; [constructor|constructor|..].
  - split; constructor.
  - intros k. left. by rewrite view_cons, lookup_empty.
  - by intros m k v ?%elem_of_nil.
  - intros m k v ->%list_elem_of_singleton Hv. by rewrite lookup_empty in Hv.
Qed.

(** A record with the next number. *)
Lemma tells_append last_seq levels recs told r :
  tells last_seq levels recs told -> record_seq r = highest_seq recs last_seq + 1 -> record_ok r -> 
  tells last_seq levels (recs ++ [r]) (<[record_key r := (record_seq r, record_value r)]> told).
Proof.
  intros [T1 T2 T3 T4 T5 T6] Hr Hok. pose proof (highest_seq_spec recs last_seq) as [Hge Hle].
  assert (numbered (recs ++ [r])) as Hn.
  { apply numbered_app. split_and!; [done|repeat constructor|]. intros x y Hx ->%list_elem_of_singleton. specialize (Hle x Hx). lia. }
  assert (below (highest_seq recs last_seq) (file_layers levels)) as Hb.
  { intros m k v Hm Hv. destruct (T5 m k v Hm Hv). lia. }
  assert (settled_below (highest_seq recs last_seq) (memory_of recs) told) as Hs.
  { intros k v Hv. right. by apply (T6 told k v ltac:(by apply list_elem_of_singleton)). }
  destruct (spec_insert_top _ _ _ _ (record_key r) (record_seq r) (record_value r) T4 T3 Hb Hs ltac:(lia)) as (H1 & H2 & _).
  assert (forall m : layer, within (highest_seq recs last_seq) [m] ->
    spec_insert m (record_key r) (record_seq r) (record_value r) = <[record_key r := (record_seq r, record_value r)]> m) as Hins.
  { intros m Hm. unfold spec_insert, spec_newest. destruct (m !! record_key r) as [[s v]|] eqn:E; [|done].
    destruct (Hm m _ _ ltac:(by apply list_elem_of_singleton) E) as [_ Hs']. cbn in Hs'. destruct (Z.ltb_spec s (record_seq r)); [done|lia]. }
  pose proof (memory_within recs last_seq T2) as Hmw. cbn zeta in H1, H2. rewrite (Hins _ Hmw) in H1, H2. rewrite (Hins _ T6) in H1.
  rewrite <- memory_snoc in H1, H2 by done.
  split; [done|apply Forall_app; split; [done|by constructor]|done|done|done|].
  rewrite highest_seq_app. cbn. intros m k v ->%list_elem_of_singleton [[<- <-]|[_ Hv]]%lookup_insert_Some; cbn.
  - destruct Hok as [[? _] _]. lia.
  - destruct (T6 told k v ltac:(by apply list_elem_of_singleton) Hv). lia.
Qed.

Lemma above_sub (m m' f : layer) : above m f -> m' ⊆ m -> above m' f.
Proof. intros H Hs k v w Hv. apply H. by eapply lookup_weaken. Qed.

(** The records [x ++ a] are in the file [t]; any number of the last of them may
    still be in the logs. *)
Lemma tells_flush last_seq last_seq' levels x a b told t :
  tells last_seq levels ((x ++ a) ++ b) told -> table_map t = memory_of (x ++ a) ->
  Forall (above (memory_of (x ++ a))) (file_layers levels) -> levels <> [] ->
  highest_seq ((x ++ a) ++ b) last_seq <= last_seq' ->
  tells last_seq' (alter (cons t) 0%nat levels) (a ++ b) told.
Proof.
  intros [T1 T2 T3 T4 T5 T6] Ht Hab Hne Hls. pose proof (highest_seq_spec ((x ++ a) ++ b) last_seq) as [Hge Hle].
  apply numbered_app in T1 as T1'. destruct T1' as (Hxa & Hb & Hlt). apply numbered_app in Hxa as Hxa'. destruct Hxa' as (_ & Ha & _).
  assert (numbered (a ++ b)) as Hab'.
  { apply numbered_app. split_and!; [done..|]. intros r r' Hr Hr'. apply Hlt; [|done]. apply elem_of_app. by right. }
  assert (file_layers (alter (cons t) 0%nat levels) = memory_of (x ++ a) :: file_layers levels) as Efl.
  { destruct levels as [|l0 deeper]; [done|]. cbn. by rewrite Ht. }
  rewrite (memory_app (x ++ a) b) in T3, T4 by done. cbn [layers_ordered] in T3. destruct T3 as [T3 T3'].
  assert (memory_of a ⊆ memory_of (x ++ a)) as Hsub by (rewrite (memory_app x a) by done; apply map_union_subseteq_l).
  pose proof (memory_app a b Hab') as Em. split; rewrite ?Efl.
  - done.
  - rewrite !Forall_app in T2. apply Forall_app. tauto.
  - rewrite Em. cbn [layers_ordered]. split_and!; [|done|done]. constructor.
    + intros k v w Hv Hw. rewrite lookup_union in Hv. destruct (memory_of b !! k) as [v'|] eqn:E.
      * rewrite union_Some_l in Hv. injection Hv as <-. left.
        apply memory_in in E as (r & Hr & [= _ <-]), Hw as (r' & Hr' & [= _ <-]). by apply Hlt.
      * rewrite (left_id None union) in Hv. right. pose proof (lookup_weaken _ _ _ _ Hv Hsub). congruence.
    + eapply Forall_impl; [exact T3|]. intros f Hf. eapply above_sub; [exact Hf|].
      by apply map_union_mono_l.
  - intros k. specialize (T4 k). rewrite !view_cons, Em. rewrite view_cons in T4. rewrite !lookup_union in *.
    destruct (memory_of b !! k) as [v|] eqn:E; [by rewrite union_Some_l in *|]. rewrite !(left_id None union) in *.
    destruct (memory_of a !! k) as [v|] eqn:E'; [|done]. by rewrite (lookup_weaken _ _ _ _ E' Hsub) in T4.
  - intros m k v [->|Hm]%elem_of_cons Hv.
    + apply memory_in in Hv as (r & Hr & [= _ <-]). cbn. assert (r ∈ (x ++ a) ++ b) as Hr' by (apply elem_of_app; by left).
      rewrite Forall_forall in T2. destruct (T2 r Hr') as [[? _] _]. specialize (Hle r Hr'). lia.
    + destruct (T5 m k v Hm Hv). lia.
  - eapply within_more; [exact T6|]. pose proof (highest_seq_spec (a ++ b) last_seq'). lia.
Qed.

(** A change of the files that shows the same. *)
Lemma tells_kept last_seq last_seq' levels levels' recs told :
  tells last_seq levels recs told -> (forall X, kept (X ++ file_layers levels) (X ++ file_layers levels')) ->
  last_seq <= last_seq' -> tells last_seq' levels' recs told.
Proof.
  intros [T1 T2 T3 T4 T5 T6] Hk Hle. pose proof (Hk []) as Hk0. cbn [app] in Hk0.
  destruct (Hk [memory_of recs] T3) as (Ho & Hag & _). split; [done|done|exact Ho| | |].
  - by eapply agrees_trans.
  - eapply within_more; [|exact Hle]. eapply within_kept; [exact Hk0|apply T3|done].
  - eapply within_more; [exact T6|]. by apply highest_seq_mono.
Qed.

(** Empty levels at the bottom say nothing. *)
Lemma tells_padded last_seq n levels recs told : levels <> [] ->
  tells last_seq (padded n levels) recs told -> tells last_seq levels recs told.
Proof.
  intros Hne [T1 T2 T3 T4 T5 T6]. pose proof (padded_layers n levels Hne) as E. rewrite E in *.
  rewrite app_comm_cons in T3, T4. split; [done|done|by apply ordered_empties in T3| | |done].
  - intros k. rewrite <- (view_empties _ (n - length levels)). apply T4.
  - intros m k v Hm. apply T5. apply elem_of_app. by left.
Qed.
