(* ===== verification/Listings.v ===== *)
(** * Scanning a directory ([Listing] of [engine.rs])

    What [Listing::scan] makes of a directory that holds only files of the store:
    every log and table by its number, in order, every temporary file, and a number
    past all of them. *)

From stdpp Require Import sorting.
From S2P Require Import Prelude Decimal Disk Manifest Naming Compaction Engine Store Shape Crashes Layout.

(** ** Sorting *)

Lemma sort_by_in {A} (le : A -> A -> bool) y l : y ∈ sort_by le l <-> y ∈ l.
Proof. by rewrite sort_by_perm. Qed.

Lemma sort_by_sorted {A} (le : A -> A -> bool) l :
  (forall x y, le x y = false -> le y x = true) -> (forall x y z, le x y = true -> le y z = true -> le x z = true) ->
  StronglySorted (fun x y => le x y = true) (sort_by le l).
Proof.
  intros Htot Htr. induction l as [|x l IH]; cbn; [constructor|]. fold (sort_by le l). revert IH.
  generalize (sort_by le l) as s. intros s. induction s as [|y s IHs]; cbn; intros Hs; [by repeat constructor|].
  apply StronglySorted_inv in Hs as [Hs Hy]. destruct (le x y) eqn:E.
  - constructor; [by constructor|]. constructor; [done|]. eapply Forall_impl; [exact Hy|]. intros z. by apply Htr.
  - constructor; [by apply IHs|]. apply Forall_forall. intros z. rewrite insert_by_perm. intros [->|Hz]%elem_of_cons; [by apply Htot|].
    rewrite Forall_forall in Hy. by apply Hy.
Qed.

(** ** One pass over the names *)

Definition with_ext (ext name : string) : option Z :=
  if decide (extension name = Some ext) then file_number name else None.

Lemma list_name_eq logs tables partial next name :
  list_name (mkListing logs tables partial next) name =
  mkListing (logs ++ option_list (with_ext LOG_EXT name)) (tables ++ option_list (with_ext TABLE_EXT name))
    (partial ++ if decide (is_tmp name) then [name] else []) next.
Proof.
  unfold list_name, with_ext. destruct (decide (is_tmp name)) as [E|E]; unfold is_tmp in E.
  - rewrite E. cbn. rewrite !decide_False by done. cbn. by rewrite !app_nil_r.
  - destruct (extension name) as [ext|] eqn:Ee; [|rewrite !decide_False by done; cbn; by rewrite !app_nil_r].
    rewrite bool_decide_false by congruence. destruct (decide (Some ext = Some LOG_EXT)) as [[= ->]|H1].
    + rewrite bool_decide_true by done. rewrite decide_False by done. cbn. by rewrite !app_nil_r.
    + rewrite bool_decide_false by congruence. destruct (decide (Some ext = Some TABLE_EXT)) as [[= ->]|H2].
      * rewrite bool_decide_true by done. cbn. by rewrite !app_nil_r.
      * rewrite bool_decide_false by congruence. cbn. by rewrite !app_nil_r.
Qed.

Lemma list_names entries : forall logs tables partial next,
  fold_left list_name entries (mkListing logs tables partial next) =
  mkListing (logs ++ omap (with_ext LOG_EXT) entries) (tables ++ omap (with_ext TABLE_EXT) entries)
    (partial ++ filter is_tmp entries) next.
Proof.
  induction entries as [|name entries IH]; intros logs tables partial next; cbn [fold_left omap list_omap].
  - by rewrite !app_nil_r.
  - rewrite list_name_eq, IH, filter_cons. f_equal; rewrite <- app_assoc; f_equal.
    + by destruct (with_ext LOG_EXT name).
    + by destruct (with_ext TABLE_EXT name).
    + by destruct (decide (is_tmp name)).
Qed.

Lemma with_ext_file k ext ext' : u64_ok k -> no_dot ext = true -> ext = ext' -> with_ext ext' (file_name k ext) = Some k.
Proof. intros Hk He <-. unfold with_ext. destruct (file_name_parts k ext Hk He) as [-> ->]. by rewrite decide_True. Qed.

Lemma with_ext_known ext name k : known name -> ext = LOG_EXT \/ ext = TABLE_EXT -> with_ext ext name = Some k ->
  u64_ok k /\ name = file_name k ext.
Proof.
  unfold with_ext. intros Hk He. case_decide as E; [|done]. destruct Hk as [| |k' Hu|k' Hu|k' Hu].
  - done.
  - destruct He as [-> | ->]; done.
  - unfold log_name in *. destruct (file_name_parts k' LOG_EXT Hu eq_refl) as [E1 ->]. rewrite E1 in E. by intros [= ->]; simplify_eq.
  - unfold table_name in *. destruct (file_name_parts k' TABLE_EXT Hu eq_refl) as [E1 ->]. rewrite E1 in E. by intros [= ->]; simplify_eq.
  - rewrite partial_name_extension in E. destruct He as [-> | ->]; done.
Qed.

Lemma omap_ext (entries : list string) ext k : (forall name, name ∈ entries -> known name) -> ext = LOG_EXT \/ ext = TABLE_EXT ->
  k ∈ omap (with_ext ext) entries <-> u64_ok k /\ file_name k ext ∈ entries.
Proof.
  intros Hk He. rewrite list_elem_of_omap. split.
  - intros (name & Hin & Hw). apply with_ext_known in Hw as [? ->]; auto.
  - intros [Hu Hin]. exists (file_name k ext). split; [done|]. apply with_ext_file; [done| |done]. by destruct He as [-> | ->].
Qed.

Lemma omap_ext_NoDup (entries : list string) ext : (forall name, name ∈ entries -> known name) -> ext = LOG_EXT \/ ext = TABLE_EXT ->
  NoDup entries -> NoDup (omap (with_ext ext) entries).
Proof.
  intros Hk He. induction 1 as [|name entries Hnot _ IH]; cbn; [constructor|].
  specialize (IH ltac:(intros; apply Hk; by right)). destruct (with_ext ext name) as [k|] eqn:E; [|done].
  constructor; [|done]. intros Hin. apply omap_ext in Hin as [_ Hin]; [|intros; apply Hk; by right|done].
  apply with_ext_known in E as [_ ->]; [done|apply Hk; left|done].
Qed.

(** The greatest number, and the one after it. *)
Lemma reduce_max_spec l : match reduce_max l with
  | Some m => m ∈ l /\ forall x, x ∈ l -> x <= m
  | None => l = []
  end.
Proof.
  destruct l as [|x l]; cbn; [done|]. revert x. induction l as [|y l IH]; intros x; cbn [fold_left].
  - split; [left|]. by intros z ->%list_elem_of_singleton.
  - destruct (IH (Z.max x y)) as [Hin Hle]. split.
    + apply elem_of_cons in Hin as [->|Hin]; [|by right; right]. destruct (Z.max_spec x y) as [[_ ->]|[_ ->]]; [right; left|left].
    + intros z [->|[->|Hz]%elem_of_cons]%elem_of_cons; [| |apply Hle; by right]; specialize (Hle (Z.max x y) ltac:(left)); lia.
Qed.

Record listed (entries : list string) (l : Listing) : Prop := {
  ld_logs : forall k, k ∈ ls_logs l <-> u64_ok k /\ log_name k ∈ entries;
  ld_sorted : StronglySorted Z.lt (ls_logs l);
  ld_tables : forall k, k ∈ ls_tables l <-> u64_ok k /\ table_name k ∈ entries;
  ld_nodup : NoDup (ls_tables l);
  ld_partial : forall name, name ∈ ls_partial l <-> is_tmp name /\ name ∈ entries;
  ld_once : NoDup (ls_partial l);
  ld_next : (forall k, u64_ok k -> log_name k ∈ entries \/ table_name k ∈ entries -> k + 1 < u64_max) ->
    0 <= ls_next_number l < u64_max /\ forall k, u64_ok k -> log_name k ∈ entries \/ table_name k ∈ entries -> k < ls_next_number l;
}.

Lemma sorted_lt (l : list Z) : StronglySorted (fun x y => (x <=? y) = true) l -> NoDup l -> StronglySorted Z.lt l.
Proof.
  induction 1 as [|x l Hs IH Hx]; [constructor|]. intros [Hnot Hn]%NoDup_cons. constructor; [by apply IH|].
  rewrite Forall_forall in *. intros y Hy. specialize (Hx y Hy). apply Z.leb_le in Hx.
  assert (x <> y) by (intros ->; done). lia.
Qed.

Lemma listing_listed entries : (forall name, name ∈ entries -> known name) -> NoDup entries -> listed entries (listing_of entries).
Proof.
  intros Hk Hn. unfold listing_of. rewrite list_names. cbn [app].
  set (logs := omap (with_ext LOG_EXT) entries). set (tables := omap (with_ext TABLE_EXT) entries).
  assert (forall k, k ∈ logs <-> u64_ok k /\ log_name k ∈ entries) as Hl by (intros k; apply omap_ext; auto).
  assert (forall k, k ∈ tables <-> u64_ok k /\ table_name k ∈ entries) as Ht by (intros k; apply omap_ext; auto).
  assert (NoDup logs) as Hnl by (apply omap_ext_NoDup; auto). assert (NoDup tables) as Hnt by (apply omap_ext_NoDup; auto).
  assert (forall l, StronglySorted (fun x y => (x <=? y) = true) (sort_by Z.leb l)) as Hs by (intros l; apply sort_by_sorted; lia).
  split; cbn [ls_logs ls_tables ls_partial ls_next_number].
  - intros k. by rewrite sort_by_in.
  - apply sorted_lt; [done|]. by rewrite sort_by_perm.
  - intros k. by rewrite sort_by_in.
  - by rewrite sort_by_perm.
  - intros name. apply list_elem_of_filter.
  - by apply NoDup_filter.
  - intros Hmax. assert (forall k, k ∈ sort_by Z.leb logs ++ sort_by Z.leb tables <->
      u64_ok k /\ (log_name k ∈ entries \/ table_name k ∈ entries)) as Hall.
    { intros k. rewrite elem_of_app, !sort_by_in, Hl, Ht. tauto. }
    pose proof (reduce_max_spec (sort_by Z.leb logs ++ sort_by Z.leb tables)) as Hr.
    destruct (reduce_max _) as [m|].
    + destruct Hr as [Hin Hle]. apply Hall in Hin as [Hu Hin]. specialize (Hmax m Hu Hin).
      rewrite wrap64_small by (unfold u64_ok in *; lia). unfold u64_ok in *. split; [lia|].
      intros k Hk' Hin'. specialize (Hle k ltac:(by apply Hall)). lia.
    + split; [unfold u64_max; lia|]. intros k Hk' Hin'. exfalso. apply (not_elem_of_nil k). rewrite <- Hr. by apply Hall.
Qed.
