(* ===== verification/Reopen.v ===== *)
(** * The levels of a store opened again ([open_levels] of [engine.rs])

    The tables the manifest names, opened one by one in the order of their numbers
    and put back at their levels, are the levels the store had: level 0 newest first,
    the others by key; only empty levels at the bottom are not made again. *)

From stdpp Require Import sorting.
From S2P Require Import Prelude WalRecord WalReplay Wal Memtable SsTable Disk Manifest Naming Compaction Layers Engine Store Shape.
From S2P Require Import EngineSpec Crashes Triples Layout Listings.

Definition newer (t u : Table) : Prop := number_of u < number_of t.

(** A snapshot with the levels it stands for, as the manifest records it. *)
Record saved (sn : Snapshot) (levels : list (list Table)) : Prop := {
  sv_typed : snapshot_typed sn;
  sv_shape : shape_ok sn (u64_max + 1) levels;
  sv_newest : StronglySorted newer (default [] (head levels));
}.

Definition level_of (t : Table) : nat := Z.to_nat (fm_level (tb_meta t)).

(** Pushing tables to their levels one after the other. *)
Definition push_table (levels : list (list Table)) (t : Table) : list (list Table) :=
  alter (fun l => l ++ [t]) (level_of t) levels.

Definition pushed (ts : list Table) (levels : list (list Table)) : list (list Table) := fold_left push_table ts levels.

Lemma pushed_length ts : forall levels, length (pushed ts levels) = length levels.
Proof. induction ts as [|t ts IH]; intros levels; [done|]. cbn. rewrite IH. apply length_alter. Qed.

Lemma pushed_lookup ts : forall levels n,
  pushed ts levels !! n = (fun l => l ++ filter (fun t => level_of t = n) ts) <$> levels !! n.
Proof.
  induction ts as [|t ts IH]; intros levels n; cbn [pushed fold_left].
  - destruct (levels !! n); cbn; by rewrite ?app_nil_r.
  - fold (pushed ts (push_table levels t)). rewrite IH, filter_cons. unfold push_table. destruct (decide (level_of t = n)) as [E|E].
    + rewrite E, list_lookup_alter, decide_True by done. destruct (levels !! n); cbn; by rewrite <- ?app_assoc.
    + by rewrite list_lookup_alter_ne.
Qed.

(** ** Sorted in one way only *)

Lemma sorted_same {A} (R : A -> A -> Prop) l l' : Permutation l l' -> StronglySorted R l -> StronglySorted R l' ->
  (forall x y, x ∈ l -> y ∈ l -> R x y -> R y x -> x = y) -> l = l'.
Proof.
  intros Hp Hl Hl' Ha. apply (StronglySorted_unique_strong R); [|done..]. intros x y Hx Hy. apply Ha; [done|by rewrite Hp].
Qed.

Lemma apart_sym t u : apart t u -> apart u t.
Proof. intros [H|H]; [by right|by left]. Qed.

Lemma pairs_perm {A} (R : A -> A -> Prop) l l' : (forall x y, R x y -> R y x) -> Permutation l l' ->
  ForallOrdPairs R l -> ForallOrdPairs R l'.
Proof.
  intros Hs. induction 1 as [|x l l' Hp IH|x y l|l1 l2 l3 _ IH1 _ IH2]; intros H.
  - done.
  - inversion H as [|?? Hx Hl]; subst. constructor; [by rewrite <- Hp|by apply IH].
  - inversion H as [|?? Hx Hl]; subst. inversion Hl as [|?? Hy Hl']; subst. inversion Hx; subst.
    constructor; [constructor; [by apply Hs|done]|by constructor].
  - auto.
Qed.

(** A level is what sorting any arrangement of it gives. *)
Lemma sort_level_back level l : Forall table_ok level -> level_sorted level -> Permutation l level ->
  sort_by min_key_le l = level.
Proof.
  intros Hok Hs Hp. assert (Forall table_ok l) as Hok' by by rewrite Hp.
  apply (sorted_same before).
  - by rewrite sort_by_perm.
  - apply sort_level; [done|]. eapply pairs_perm; [apply apart_sym|symmetry; exact Hp|]. by apply level_sorted_pairs.
  - done.
  - intros t u Ht Hu H1 H2. rewrite sort_by_in in Ht, Hu. rewrite Forall_forall in Hok'.
    pose proof (table_lo_hi t (Hok' t Ht)). pose proof (table_lo_hi u (Hok' u Hu)). unfold before in *. key_order.
Qed.

(** ** The levels again *)

Lemma filter_every {A} (P : A -> Prop) `{!forall x, Decision (P x)} (l : list A) : (forall x, x ∈ l -> P x) -> filter P l = l.
Proof.
  induction l as [|x l IH]; intros Hp; [done|]. rewrite filter_cons, decide_True by (apply Hp; left).
  f_equal. apply IH. intros y Hy. apply Hp. by right.
Qed.

Lemma filter_nothing {A} (P : A -> Prop) `{!forall x, Decision (P x)} (l : list A) : (forall x, x ∈ l -> ~ P x) -> filter P l = [].
Proof.
  induction l as [|x l IH]; intros Hp; [done|]. rewrite filter_cons, decide_False by (apply Hp; left).
  apply IH. intros y Hy. apply Hp. by right.
Qed.

Lemma filter_concat_levels n levels : forall off,
  (forall i level t, levels !! i = Some level -> t ∈ level -> level_of t = (off + i)%nat) ->
  filter (fun t => level_of t = (off + n)%nat) (concat levels) = default [] (levels !! n).
Proof.
  revert n. induction levels as [|l levels IH]; intros n off Hp; [by destruct n|]. cbn [concat]. rewrite filter_app.
  assert (forall i level t, levels !! i = Some level -> t ∈ level -> level_of t = (S off + i)%nat) as Hp'.
  { intros i level t Hi Ht. rewrite (Hp (S i) level t Hi Ht). lia. }
  destruct n as [|n].
  - rewrite filter_every by (intros t Ht; rewrite (Hp O l t eq_refl Ht); lia).
    assert (filter (fun t => level_of t = (off + 0)%nat) (concat levels) = []) as ->; [|by rewrite app_nil_r].
    apply filter_nothing. intros t (level & Hl & Ht)%elem_of_concat. apply list_elem_of_lookup in Hl as [i Hi].
    rewrite (Hp' i level t Hi Ht). lia.
  - assert (filter (fun t => level_of t = (off + S n)%nat) l = []) as ->.
    { apply filter_nothing. intros t Ht. rewrite (Hp O l t eq_refl Ht). lia. }
    change ((l :: levels) !! S n) with (levels !! n). rewrite <- (IH n (S off) Hp'). cbn [app].
    by replace (off + S n)%nat with (S off + n)%nat by lia.
Qed.

Lemma deepest_level_spec sn f : f ∈ sn_files sn -> fm_level f <= deepest_level sn.
Proof.
  unfold deepest_level. induction (sn_files sn) as [|x l IH]; [by intros ?%elem_of_nil|]. cbn.
  intros [->|H%IH]%elem_of_cons; lia.
Qed.

Lemma deepest_level_lt sn n : 0 < n -> (forall f, f ∈ sn_files sn -> fm_level f < n) -> 0 <= deepest_level sn < n.
Proof.
  unfold deepest_level. intros Hn. induction (sn_files sn) as [|x l IH]; cbn; [lia|]. intros H.
  specialize (IH ltac:(intros; apply H; by right)). specialize (H x ltac:(left)). lia.
Qed.

(** What [open_levels] makes of the tables pushed. *)
Definition reopened (levels : list (list Table)) : list (list Table) :=
  match levels with
  | l0 :: deeper => reverse l0 :: (sort_by min_key_le <$> deeper)
  | [] => []
  end.

Lemma reopened_levels sn next levels ts :
  shape_ok sn next levels -> StronglySorted newer (default [] (head levels)) ->
  Permutation ts (concat levels) -> StronglySorted (fun t u => number_of t < number_of u) ts ->
  let r := reopened (pushed ts (replicate (S (Z.to_nat (deepest_level sn))) [])) in
  r <> [] /\ levels = padded (length levels) r.
Proof.
  intros [[Hsome Hok Hsorted] Hfiles Hplace Hnum _] Hnew Hts Hasc. cbn zeta. set (D := Z.to_nat (deepest_level sn)).
  assert (forall n level, levels !! n = Some level -> Permutation (filter (fun t => level_of t = n) ts) level) as Hfil.
  { intros n level Hn. rewrite Hts. pose proof (filter_concat_levels n levels 0) as Hc. cbn [Nat.add] in Hc. rewrite Hc, Hn; [done|].
    intros i l t Hi Ht. unfold level_of. rewrite (Hplace i l t Hi Ht). apply Nat2Z.id. }
  assert (0 <= deepest_level sn < Z.of_nat (length levels)) as Hdeep.
  { apply deepest_level_lt; [destruct levels; [done|cbn; lia]|]. intros f Hf. rewrite Hfiles in Hf.
    apply list_elem_of_fmap in Hf as (t & -> & (level & Hl & Ht)%elem_of_concat). apply list_elem_of_lookup in Hl as [i Hi].
    rewrite (Hplace i level t Hi Ht). apply lookup_lt_Some in Hi. lia. }
  assert (forall n level, levels !! n = Some level -> (D < n)%nat -> level = []) as Hempty.
  { intros n level Hn HD. destruct level as [|t level]; [done|]. exfalso.
    assert (tb_meta t ∈ sn_files sn) as Hin.
    { rewrite Hfiles. apply list_elem_of_fmap_2, elem_of_concat. exists (t :: level). split; [by eapply list_elem_of_lookup_2|left]. }
    apply deepest_level_spec in Hin. rewrite (Hplace n _ t Hn ltac:(left)) in Hin. unfold D in HD. lia. }
  set (p := pushed ts (replicate (S D) [])).
  assert (length p = S D) as Hlen by (unfold p; by rewrite pushed_length, length_replicate).
  assert (forall n, (n <= D)%nat -> p !! n = Some (filter (fun t => level_of t = n) ts)) as Hp.
  { intros n Hn. unfold p. rewrite pushed_lookup, lookup_replicate_2 by lia. done. }
  assert (length (reopened p) = S D) as Hlr by (destruct p; cbn in *; rewrite ?length_fmap; lia).
  split; [intros E; by rewrite E in Hlr|]. apply list_eq. intros n. unfold padded.
  destruct (decide (n <= D)%nat) as [Hn|Hn].
  - rewrite lookup_app_l by lia. destruct (lookup_lt_is_Some_2 levels n ltac:(lia)) as [level Hl]. rewrite Hl.
    pose proof (Hfil n level Hl) as Hperm. specialize (Hp n Hn). destruct p as [|l0 deeper]; [done|]. cbn [reopened].
    destruct n as [|n].
    + injection Hp as ->. cbn. f_equal. destruct levels as [|x levels]; [done|]. injection Hl as ->. cbn in Hnew.
      apply (sorted_same newer); [by rewrite reverse_Permutation|done| |unfold newer; lia].
      assert (StronglySorted (fun t u => number_of t < number_of u) (filter (fun t => level_of t = 0%nat) ts)) as Hf.
      { clear -Hasc. induction Hasc as [|x l Hs IH Hx]; [constructor|]. rewrite filter_cons. destruct (decide _); [|done].
        constructor; [done|]. rewrite Forall_forall in *. intros y [_ Hy]%list_elem_of_filter. by apply Hx. }
      clear -Hf. induction Hf as [|x l Hs IH Hx]; [constructor|]. rewrite reverse_cons. apply StronglySorted_app_2; [|done|repeat constructor].
      intros y z Hy ->%list_elem_of_singleton. rewrite Forall_forall in Hx. apply Hx. by apply elem_of_reverse.
    + change (Some level = (sort_by min_key_le <$> deeper) !! n). change (deeper !! n = Some (filter (fun t => level_of t = S n) ts)) in Hp.
      rewrite list_lookup_fmap, Hp. cbn. f_equal. symmetry.
      assert (level ∈ tail levels) as Hin by (destruct levels; [done|]; by eapply list_elem_of_lookup_2).
      rewrite Forall_forall in Hok, Hsorted. apply sort_level_back; [|by apply Hsorted|done].
      apply Hok. by eapply list_elem_of_lookup_2.
  - rewrite lookup_app_r, Hlr by lia. destruct (levels !! n) as [level|] eqn:Hl.
    + rewrite (Hempty n level Hl) by lia. symmetry. apply lookup_lt_Some in Hl. apply lookup_replicate_2. lia.
    + symmetry. apply lookup_ge_None in Hl. apply lookup_ge_None. rewrite length_replicate. lia.
Qed.
