(* ===== verification/Recovery.v ===== *)
(** * Opening a store after a crash

    What a directory keeps of a store ([keeps]), whatever moment it is cut off at;
    that a crash leaves one that can be opened ([opening]); and that [Engine::open],
    itself cut off at any call, keeps it, and if it returns has in memory what the
    directory keeps ([holds]). *)

From stdpp Require Import sorting.
From S2P Require Import Prelude Checksum Coding WalRecord WalReplay Wal WalAlone Memtable SsTable Disk Manifest Naming.
From S2P Require Import Compaction Layers Engine Store Shape EngineSpec Crashes Triples Layout Tells Listings Reopen.

Definition records_of (ls : list LogFile) : list LogRecord := concat (lf_records <$> ls).

Definition sn_of (s : option Snapshot) : Snapshot := default snapshot_default s.

Definition no_tables (d : Disk) : Prop := forall c k, c ∈ candidates d -> c !! table_name k = None.

(** Not a directory with tables and no manifest, which [open] refuses: a crash in the
    middle of the first flush leaves such a one. *)
Definition complete (d : Disk) : Prop := names d !! FILE_NAME = None -> forall k, names d !! table_name k = None.

(** A manifest with the levels it stands for. *)
Definition alt_ok (s : option Snapshot) (levels : list (list Table)) : Prop :=
  match s with
  | Some sn => saved sn levels
  | None => levels = [[]]
  end.

Lemma records_of_app a b : records_of (a ++ b) = records_of a ++ records_of b.
Proof. unfold records_of. by rewrite fmap_app, concat_app. Qed.

Lemma left_of_settled ls ls' : Forall2 left_of ls ls' -> Forall (fun l => lf_pending l = []) ls ->
  records_of ls' = records_of ls.
Proof.
  unfold records_of. induction 1 as [|l l' ls ls' (_ & _ & Hm & _) _ IH]; cbn; [done|]. intros [Hp Hps]%Forall_cons.
  rewrite IH by done. f_equal. destruct Hm as [-> | ->]; [done|]. by rewrite Hp, app_nil_r.
Qed.

(** Manifests there may be, each with its levels. *)
Abbreviation alternatives := (list (option Snapshot * list (list Table))).

Definition alt_tables (alts : alternatives) : list Table := concat ((fun a => concat (snd a)) <$> alts).

Section Keeping.
Context (dir : string).
Implicit Types (d : Disk) (s : option Snapshot) (levels : list (list Table)) (gone logs born : list LogFile) (next : Z).

(** The directory keeps one of [S]: whichever manifest, logs and records a crash
    leaves. [alts] are the manifests there may be with their levels. *)
Definition keeps (d : Disk) (S : layer -> Prop) : Prop :=
  exists (alts : alternatives) gone logs born next,
    layout dir d (fun s => s ∈ alts.*1) (alt_tables alts) gone logs born next /\
    forall s levels, (s, levels) ∈ alts -> alt_ok s levels /\
      forall j born' ls, born' = [] \/ born' = born -> Forall2 left_of (drop j gone ++ logs ++ born') ls ->
        exists told, S told /\ tells (sn_last_seq (sn_of s)) levels (records_of ls) told.

Lemma keeps_mono (d : Disk) (S S' : layer -> Prop) : keeps d S -> (forall told, S told -> S' told) -> keeps d S'.
Proof.
  intros (alts & gone & logs & born & next & Hly & Hk) HS. exists alts, gone, logs, born, next. split; [done|].
  intros s levels Hin. destruct (Hk s levels Hin) as [Ha Ht]. split; [done|]. intros j b ls Hb Hl.
  destruct (Ht j b ls Hb Hl) as (told & Hs & Htl). eauto.
Qed.

(** A directory about to be opened, or being opened. *)
Record opening (s : option Snapshot) (levels : list (list Table)) (logs : list LogFile) (told : layer) (next : Z) (d : Disk) : Prop := {
  og_layout : layout dir d (eq s) (concat levels) [] logs [] next;
  og_all : all_logs d [] logs;
  og_alt : alt_ok s levels;
  og_tables : s = None -> no_tables d;
  og_tells : tells (sn_last_seq (sn_of s)) levels (records_of logs) told;
  og_settled : Forall (fun l => lf_pending l = []) logs;
}.

Lemma keeps_one (d : Disk) s levels gone logs born next (S : layer -> Prop) :
  layout dir d (eq s) (concat levels) gone logs born next -> alt_ok s levels ->
  Forall (fun l => lf_pending l = []) (gone ++ logs ++ born) -> Forall (fun l => lf_records l = []) born ->
  (forall j, exists told, S told /\ tells (sn_last_seq (sn_of s)) levels (records_of (drop j gone ++ logs)) told) -> keeps d S.
Proof.
  intros Hl Ha Hp Hb Ht. exists [(s, levels)], gone, logs, born, next. split.
  - eapply layout_weaken; [exact Hl| |].
    + intros ? <-. cbn. left.
    + intros t. unfold alt_tables. cbn. by rewrite app_nil_r.
  - intros s' levels' [= -> ->]%list_elem_of_singleton. split; [done|]. intros j born' ls Hb' Hleft.
    destruct (Ht j) as (told & Hs & Htl). exists told. split; [done|].
    rewrite (left_of_settled _ _ Hleft).
    + rewrite !app_assoc, records_of_app. assert (records_of born' = []) as ->; [|by rewrite app_nil_r].
      destruct Hb' as [-> | ->]; [done|]. unfold records_of. clear -Hb. induction Hb as [|l born E _ IH]; cbn; [done|]. by rewrite E.
    + rewrite !Forall_app in Hp. destruct Hp as (Hg & Hlo & Hbo). rewrite !Forall_app. split_and!; [by apply Forall_drop|done|].
      by destruct Hb' as [-> | ->].
Qed.

Lemma opening_keeps s levels logs told next d : opening s levels logs told next d -> keeps d (eq told).
Proof.
  intros [Hl _ Ha _ Ht Hp]. eapply (keeps_one d s levels [] logs []); [done|done|by rewrite app_nil_r|constructor|].
  intros j. exists told. by rewrite drop_nil.
Qed.

(** All bytes of a file are on the device. *)
Definition flushed (d : Disk) (i : nat) : Prop := floor_of d i = length (contents d i).

Lemma flushed_synced d i : flushed (synced d i) i.
Proof. unfold flushed. by rewrite floor_synced. Qed.

(** A crash leaves a directory that can be opened. *)
Lemma keeps_crash (d d' : Disk) (S : layer -> Prop) : keeps d S -> ordered_crash d d' -> complete d' ->
  exists s levels logs told, S told /\ opening s levels logs told (u64_max + 1) d' /\ forall i, flushed d' i.
Proof.
  intros (alts & gone & logs & born & next & Hl & Hk) Hc Hcomp.
  destruct (layout_crash dir d d' _ _ _ _ _ _ Hl Hc) as (s & j & b & ls & Hs & Hm & Hb & Hleft & Hl' & Hall).
  apply list_elem_of_fmap in Hs as ([s' levels] & -> & Hin). cbn [fst] in *.
  destruct (Hk s' levels Hin) as [Ha Ht]. destruct (Ht j b ls Hb Hleft) as (told & HS & Htl).
  exists s', levels, ls, told. split_and!; [done| |intros i; apply (oc_floor _ _ Hc)]. split.
  - eapply layout_weaken; [exact Hl'|done|]. intros t Htin. apply elem_of_concat. exists (concat levels). split; [|done].
    apply list_elem_of_fmap. by exists (s', levels).
  - done.
  - done.
  - intros -> c k ->%(crash_candidates d d' c Hc). by apply Hcomp.
  - done.
  - apply Forall_forall. intros x (i & Hi)%list_elem_of_lookup.
    destruct (Forall2_lookup_r _ _ _ _ _ Hleft Hi) as (y & _ & (_ & _ & _ & Hp)). done.
Qed.

(** *** Removing what is not part of the store *)

(** A name the store can do without. *)
Definition spare (levels : list (list Table)) (name : string) : Prop :=
  (forall k, name <> log_name k) /\ name <> FILE_NAME /\ forall t, t ∈ concat levels -> name <> table_name (number_of t).

Lemma opening_remove s levels logs told next d name :
  opening s levels logs told next d -> spare levels name ->
  opening s levels logs told next (set_names d (delete name (names d))).
Proof.
  intros [Hl Hall Ha Hno Ht Hp] (Hnl & Hnf & Hnt). split; [| |done| |done..].
  - by apply layout_remove.
  - intros c [Hc| ->]%candidates_set_names; [by apply Hall|]. destruct (Hall _ (candidates_names d)) as (j & Hj). exists j.
    intros k i Hk. rewrite lookup_delete_ne by done. by apply Hj.
  - intros Hs c k [Hc| ->]%candidates_set_names; [by apply Hno|]. apply lookup_delete_None. right. apply Hno; [done|apply candidates_names].
Qed.

(** What the removals leave. *)
Fixpoint without (ns : list string) (m : gmap string nat) : gmap string nat :=
  match ns with [] => m | n :: ns => without ns (delete n m) end.

Lemma without_lookup ns : forall m n, without ns m !! n = if decide (n ∈ ns) then None else m !! n.
Proof.
  induction ns as [|x ns IH]; intros m n; cbn [without]; [by rewrite decide_False by apply not_elem_of_nil|].
  rewrite IH. destruct (decide (n ∈ ns)) as [Hin|Hin].
  - by rewrite decide_True by by right.
  - destruct (decide (x = n)) as [->|Hne].
    + rewrite lookup_delete_eq, decide_True; [done|left].
    + rewrite lookup_delete_ne, decide_False; [done| |done]. intros [->|?]%elem_of_cons; done.
Qed.

(** The bytes of the files, untouched. *)
Definition same_bytes (d0 d : Disk) : Prop := data d = data d0 /\ floor d = floor d0.

Context (may : outcome -> Prop).

Lemma dtriple_remove_files s levels logs told next d0 ns : forall m,
  NoDup ns -> (forall n, n ∈ ns -> spare levels n /\ is_Some (m !! n)) ->
  dtriple may (fun d => opening s levels logs told next d /\ same_bytes d0 d /\ names d = m) (remove_files dir ns)
    (fun _ d => opening s levels logs told next d /\ same_bytes d0 d /\ names d = without ns m)
    (fun d => keeps d (eq told)).
Proof.
  induction ns as [|n ns IH]; intros m Hnd Hns; cbn [remove_files without].
  - by apply dtriple_ret.
  - apply NoDup_cons in Hnd as [Hnot Hnd]. destruct (Hns n ltac:(left)) as [Hsp [i Hi]].
    eapply (dtriple_bind may _ _ _ (fun _ d => opening s levels logs told next d /\ same_bytes d0 d /\ names d = delete n m)).
    + apply dtriple_plain; [|intros d [Ho _]; by eapply opening_keeps]. intros d (Ho & Hb & <-). exists tt.
      unfold remove_run. rewrite Hi. cbn [fst snd]. split; [done|]. split_and!; [by apply opening_remove|done|done].
    + intros _. apply IH; [done|]. intros x Hx. destruct (Hns x ltac:(by right)) as [? ?]. split; [done|].
      rewrite lookup_delete_ne; [done|]. by intros ->.
Qed.

(** *** Opening the tables *)

Lemma dtriple_table_open (P C : Disk -> Prop) t :
  (forall d, P d -> table_in dir d t) -> (forall d, P d -> C d) ->
  dtriple may P (table_open (join dir (table_name (number_of t))) (table_name (number_of t)))
    (fun r d => r = tb_table t /\ P d) C.
Proof.
  intros Ht HC. unfold table_open.
  eapply (dtriple_bind may _ _ _ (fun bs d => sst_opened (join dir (table_name (number_of t))) bs = Ok (tb_table t) /\ P d)).
  - apply dtriple_plain; [|done]. intros d Hp. destruct (Ht d Hp) as (i & Hi & _ & Ho). exists (contents d i).
    unfold read_run. rewrite (Hi _ (candidates_names d)). done.
  - intros bs. apply dtriple_pure. intros Ho. eapply dtriple_reads; [apply sst_open_reads| |done]. intros d Hp. by rewrite Ho.
Qed.

Lemma dtriple_open_tables (P C : Disk -> Prop) ts : forall levels,
  (forall d t, P d -> t ∈ ts -> table_in dir d t) -> (forall d, P d -> C d) ->
  dtriple may P (open_tables dir (tb_meta <$> ts) levels) (fun r d => r = pushed ts levels /\ P d) C.
Proof.
  induction ts as [|t ts IH]; intros levels Ht HC; cbn [open_tables fmap list_fmap].
  - by apply dtriple_ret.
  - eapply (dtriple_bind may _ _ _ (fun r d => r = tb_table t /\ P d)).
    + apply (dtriple_table_open P C t); [|done]. intros d Hp. apply Ht; [done|left].
    + intros r. apply dtriple_pure. intros ->.
      replace (mkTable (tb_meta t) (tb_table t)) with t by by destruct t.
      apply (IH (push_table levels t)); [|done]. intros d u Hp Hu. apply Ht; [done|by right].
Qed.

(** The tables in the order of their numbers. *)
Lemma tables_by_number sn next levels : shape_ok sn next levels ->
  exists ts, sort_by number_le (sn_files sn) = tb_meta <$> ts /\ Permutation ts (concat levels) /\
    StronglySorted (fun t u => number_of t < number_of u) ts.
Proof.
  intros [_ Hfiles _ Hnum _].
  assert (Permutation (sort_by number_le (sn_files sn)) (tb_meta <$> concat levels)) as Hp by by rewrite sort_by_perm.
  apply Permutation_map_inv in Hp as (ts & E & Hp). exists ts. split; [done|]. split; [by symmetry|].
  assert (StronglySorted (fun x y => number_le x y = true) (tb_meta <$> ts)) as Hs.
  { change (tb_meta <$> ts) with (map tb_meta ts). rewrite <- E. apply sort_by_sorted; unfold number_le; lia. }
  rewrite Hp in Hnum. clear -Hs Hnum. induction ts as [|t ts IH]; [constructor|]. cbn in Hs, Hnum.
  apply StronglySorted_inv in Hs as [Hs Ht]. apply NoDup_cons in Hnum as [Hnot Hn]. constructor; [by apply IH|].
  pose proof (proj1 (Forall_forall _ _) Ht) as Ht'. apply Forall_forall. intros u Hu. specialize (Ht' (tb_meta u) ltac:(by apply list_elem_of_fmap_2)).
  unfold number_le in Ht'. apply Z.leb_le in Ht'. fold (number_of t) (number_of u) in Ht'.
  assert (number_of t <> number_of u); [|lia]. intros E. apply Hnot. rewrite E. by apply list_elem_of_fmap_2.
Qed.

Lemma dtriple_open_levels (P C : Disk -> Prop) sn next levels :
  shape_ok sn next levels -> StronglySorted newer (default [] (head levels)) ->
  (forall d t, P d -> t ∈ concat levels -> table_in dir d t) -> (forall d, P d -> C d) ->
  dtriple may P (open_levels dir sn) (fun r d => (r <> [] /\ levels = padded (length levels) r) /\ P d) C.
Proof.
  intros Hs Hn Ht HC. destruct (tables_by_number sn next levels Hs) as (ts & E & Hp & Ha).
  unfold open_levels. rewrite E. eapply dtriple_bind.
  - apply (dtriple_open_tables P C ts); [|done]. intros d t Hd Hin. apply Ht; [done|]. by rewrite <- Hp.
  - intros r. apply dtriple_pure. intros ->. pose proof (reopened_levels sn next levels ts Hs Hn Hp Ha) as Hr. cbn zeta in Hr.
    destruct (pushed ts _) as [|l0 deeper]; (apply dtriple_ret; intros d Hd; split; [exact Hr|done]).
Qed.

(** *** Reading the manifest *)

Context (honest : forall e n, may (Some (e, n)) -> io_kind e <> NotFound).

Lemma dtriple_manifest_load (P C : Disk -> Prop) self s :
  (forall d, P d -> manifest_in d (names d) s) -> (forall d, P d -> C d) ->
  dtriple may P (manifest_load self) (fun r d => r = s /\ P d) C.
Proof.
  intros Hm HC w [Ho Hp]. unfold manifest_load, disk_read. specialize (Hm _ Hp).
  destruct (call (man_path self) (read_run (man_path self) FILE_NAME) no_effect w) as [r w'] eqn:E.
  apply (call_outcomes may) in E as [Hmay [[-> E]|(e & n & Hx & -> & E)]]; [| |done].
  - unfold read_run in *. destruct s as [sn|]; cbn in Hm.
    + destruct Hm as (i & Hi & _ & Hdec). rewrite Hi in *. cbn [fst snd] in *. rewrite Hdec. cbn. rewrite E. done.
    + rewrite Hm in *. cbn [fst snd not_found] in *. rewrite E. done.
  - apply honest in Hx as Hne. unfold no_effect in E. destruct e as [[] msg]; [done|..]; rewrite E;
      (split; [by apply HC|by eapply not_calm]).
Qed.

(** *** Reading a log *)

Lemma dtriple_open_log (P C : Disk -> Prop) path name i :
  (forall d, P d -> names d !! name = Some i) -> (forall d, P d -> C d) ->
  dtriple may P (open_log path name)
    (fun r d => (match r with Content bs => contents d i = bs | Absent => False | Unreadable _ => ~ calm may end) /\ P d) C.
Proof.
  intros Hn HC w [Ho Hp]. unfold open_log, disk_read. specialize (Hn _ Hp).
  destruct (call path (read_run path name) no_effect w) as [r w'] eqn:E.
  apply (call_outcomes may) in E as [Hmay [[-> E]|(e & n & Hx & -> & E)]]; [| |done].
  - unfold read_run in *. rewrite Hn in *. cbn [fst snd] in *. by rewrite E.
  - apply honest in Hx as Hne. unfold no_effect in E. destruct e as [[] msg]; [done|..]; rewrite E;
      (split; [done|]; split; [by eapply not_calm|done]).
Qed.

Lemma dtriple_wal_replay (P C : Disk -> Prop) path name i recs :
  (forall d, P d -> names d !! name = Some i /\ reads (contents d i) recs) -> (forall d, P d -> C d) ->
  dtriple may P (wal_replay path name)
    (fun rp d => (exists rp', drain_all rp = (Ok recs, rp') /\
       valid_len rp' = (if (length (contents d i) <? 12)%nat then 0 else zlen (log_file recs)) /\
       (torn_at rp' = None -> valid_len rp' = zlen (contents d i))) /\ P d) C.
Proof.
  intros Hn HC. unfold wal_replay. eapply dtriple_bind.
  - apply (dtriple_open_log P C path name i); [|done]. intros d Hp. by destruct (Hn d Hp).
  - intros f. apply dtriple_lift. intros d [Hf Hp]. destruct (Hn d Hp) as [_ Hr]. destruct f as [bs| |e].
    + destruct (reads_open path _ _ Hr) as (rp & rp' & H1 & H2 & H3 & H4). rewrite Hf in *. rewrite H1. split; [|done].
      exists rp'. unfold drain_all. rewrite H2. done.
    + done.
    + cbn. split; [by apply HC|done].
Qed.

Lemma dtriple_drain (P C : Disk -> Prop) rp recs rp' : drain_all rp = (Ok recs, rp') ->
  dtriple may P (lift (fst (drain_all rp))) (fun r d => r = recs /\ P d) C.
Proof. intros E. apply dtriple_lift. intros d Hp. by rewrite E. Qed.

(** *** The newest log *)

Lemma opening_log_data s levels logs told next d l bs n :
  opening s levels logs told next d -> l ∈ logs -> (n <= length bs)%nat -> lasting n bs (lf_maybe l) ->
  opening s levels logs told next (set_data d (lf_inode l) bs n).
Proof.
  intros [Hl Hall Ha Hno Ht Hp] Hin Hn Hla. pose proof Hl as [Hd Hm Htab Hlo]. split; [|done..].
  eapply layout_log_data; [exact Hl|by apply elem_of_app; left|done| |apply same_files_refl|constructor| |].
  - intros c [Hc _]. by eapply all_logs_survive.
  - intros x Hx E. destruct (layout_lasting _ _ _ _ _ _ _ _ x Hl Hx) as [Hn' _].
    by rewrite (log_inode_number d [] logs [] next (names d) x l Hd Hlo Hx ltac:(by apply elem_of_app; left) (candidates_names d) Hn' E).
  - done.
Qed.

Lemma opening_sync s levels logs told next d i :
  opening s levels logs told next d -> opening s levels logs told next (synced d i).
Proof.
  intros [Hl Hall Ha Hno Ht Hp]. split; [by apply layout_sync|done..].
Qed.

Lemma opening_lasting s levels logs told next d l : opening s levels logs told next d -> l ∈ logs ->
  names d !! log_name (lf_number l) = Some (lf_inode l) /\
  lasting (floor_of d (lf_inode l)) (contents d (lf_inode l)) (eq (lf_records l)) /\
  reads (contents d (lf_inode l)) (lf_records l).
Proof.
  intros [Hl _ _ _ _ Hp] Hin. rewrite Forall_forall in Hp.
  destruct (layout_lasting _ _ _ _ _ _ _ _ l Hl ltac:(by apply elem_of_app; left)) as [Hn Hla].
  assert (lasting (floor_of d (lf_inode l)) (contents d (lf_inode l)) (eq (lf_records l))) as Hla'.
  { eapply lasting_mono; [exact Hla|destruct Hla; lia|]. intros x [-> | ->]; [done|]. by rewrite (Hp l Hin), app_nil_r. }
  split_and!; [done|done|]. destruct Hla' as [Hf H]. destruct (H _ Hf) as (recs & <- & Hr).
  destruct (H (length (contents d (lf_inode l))) Hf) as (recs' & <- & Hr'). by rewrite take_ge in Hr' by done.
Qed.

Lemma maybe_records l recs : recs = lf_records l -> lf_maybe l recs.
Proof. by left. Qed.

(** Cutting the log, down to nothing or to its records. *)
Lemma dtriple_truncate path s levels logs told next l bs n :
  l ∈ logs -> reads (take (Z.to_nat n) bs) (lf_records l) ->
  dtriple may (fun d => opening s levels logs told next d /\ contents d (lf_inode l) = bs) (truncate (lf_inode l) path n)
    (fun _ d => opening s levels logs told next d /\ contents d (lf_inode l) = take (Z.to_nat n) bs /\ flushed d (lf_inode l))
    (fun d => keeps d (eq told)).
Proof.
  intros Hin Hr. unfold truncate.
  eapply (dtriple_bind may _ _ _ (fun _ d => opening s levels logs told next d /\ contents d (lf_inode l) = take (Z.to_nat n) bs)).
  - apply dtriple_plain; [|intros d [Ho _]; by eapply opening_keeps]. intros d [Ho <-]. exists tt. cbn [fst snd].
    split; [done|]. rewrite contents_cut. split; [|done].
    destruct (opening_lasting _ _ _ _ _ _ l Ho Hin) as (_ & Hla & _).
    apply opening_log_data; [done|done| |].
    + destruct Hla as [Hf _]. rewrite length_take. lia.
    + eapply lasting_mono; [eapply (lasting_cut _ _ (Z.to_nat n)); [exact Hla|by eexists]| |intros x <-; by left].
      destruct Hla as [Hf _]. rewrite length_take. lia.
  - intros _. apply dtriple_plain; [|intros d [Ho _]; by eapply opening_keeps]. intros d [Ho Hc]. exists tt. cbn [fst snd].
    split; [done|]. fold (synced d (lf_inode l)). split_and!; [by apply opening_sync|done|apply flushed_synced].
Qed.

(** Its header, written to an empty file. *)
Lemma dtriple_header path s levels logs told next l :
  l ∈ logs -> lf_records l = [] ->
  dtriple may (fun d => opening s levels logs told next d /\ contents d (lf_inode l) = [])
    (_ ← disk_write path (lf_inode l) (MAGIC ++ to_le 4 FORMAT_VERSION); disk_sync path (lf_inode l))
    (fun _ d => opening s levels logs told next d /\ contents d (lf_inode l) = log_file [] /\ flushed d (lf_inode l))
    (fun d => keeps d (eq told)).
Proof.
  intros Hin Hr. change (MAGIC ++ to_le 4 FORMAT_VERSION) with file_header.
  assert (forall n d, opening s levels logs told next d /\ contents d (lf_inode l) = [] ->
    opening s levels logs told next (append_data d (lf_inode l) (take n file_header))) as Hw.
  { intros n d [Ho Hc]. destruct (opening_lasting _ _ _ _ _ _ l Ho Hin) as (_ & [Hf _] & _). rewrite Hc in Hf.
    unfold append_data. rewrite Hc. cbn [app length] in *. apply opening_log_data; [done|done|lia|].
    eapply lasting_mono; [apply (lasting_header (floor_of d (lf_inode l)) n); lia|lia|]. intros x <-. left. by rewrite Hr. }
  eapply (dtriple_bind may _ _ _ (fun _ d => opening s levels logs told next d /\ contents d (lf_inode l) = log_file [])).
  - apply dtriple_call.
    + intros d Hd. exists tt. cbn [fst snd]. split; [done|]. rewrite contents_append. split.
      * specialize (Hw (length file_header) d Hd). by rewrite take_ge in Hw by done.
      * destruct Hd as [_ ->]. unfold log_file. by rewrite app_nil_r.
    + intros n d Hd. eapply opening_keeps, Hw. exact Hd.
  - intros _. apply dtriple_plain; [|intros d [Ho _]; by eapply opening_keeps]. intros d [Ho Hc]. exists tt. cbn [fst snd].
    split; [done|]. fold (synced d (lf_inode l)). split_and!; [by apply opening_sync|done|apply flushed_synced].
Qed.

(** What [recover] does to the file of a log it has read. *)
Lemma dtriple_repair path s levels logs told next l bs replay :
  l ∈ logs -> reads bs (lf_records l) ->
  valid_len replay = (if (length bs <? 12)%nat then 0 else zlen (log_file (lf_records l))) ->
  (torn_at replay = None -> valid_len replay = zlen bs) ->
  dtriple may (fun d => opening s levels logs told next d /\ flushed d (lf_inode l) /\ contents d (lf_inode l) = bs)
    (if valid_len replay =? 0 then
       _ ← truncate (lf_inode l) path 0;
       _ ← disk_write path (lf_inode l) (MAGIC ++ to_le 4 FORMAT_VERSION);
       disk_sync path (lf_inode l)
     else if bool_decide (is_Some (torn_at replay)) then truncate (lf_inode l) path (valid_len replay)
     else mret tt)
    (fun _ d => opening s levels logs told next d /\ contents d (lf_inode l) = log_file (lf_records l) /\ flushed d (lf_inode l))
    (fun d => keeps d (eq told)).
Proof.
  intros Hin Hreads Hvl Htorn. revert Hvl. destruct (Nat.ltb_spec (length bs) 12) as [Hshort|Hlong]; intros Hvl; rewrite Hvl in *.
  - cbn [Z.eqb]. assert (lf_records l = []) as Er.
    { destruct Hreads as [_ [(tail & -> & _)|[_ ?]]]; [|done]. rewrite length_app, length_log_file in Hshort. lia. }
    rewrite Er. eapply dtriple_bind.
    + eapply dtriple_weaken; [apply (dtriple_truncate path s levels logs told next l bs 0 Hin)|..]; [|by intros d (Ho & _ & ?)| |done].
      * rewrite Er. split; [constructor|]. right. split; [rewrite length_take; lia|done].
      * intros a d Hd. exact Hd.
    + intros u. cbv beta. rewrite Z2Nat.inj_0. eapply dtriple_weaken; [by apply (dtriple_header path s levels logs told next l Hin)|..]; [|done|done].
      by intros d (Ho & Hc & _).
  - destruct Hreads as [Hok [(tail & Ebs & Ht)|[? _]]]; [|lia]. pose proof (log_file_length (lf_records l)).
    destruct (Z.eqb_spec (zlen (log_file (lf_records l))) 0); [lia|]. destruct (torn_at replay) as [t|] eqn:Et.
    + rewrite bool_decide_true by by eexists. assert (take (Z.to_nat (zlen (log_file (lf_records l)))) bs = log_file (lf_records l)) as Etake.
      { rewrite Ebs. unfold zlen. by rewrite Nat2Z.id, take_app_length. }
      eapply dtriple_weaken; [apply (dtriple_truncate path s levels logs told next l bs _ Hin)|..]; [|by intros d (Ho & _ & ?)| |done].
      * rewrite Etake. split; [done|]. left. exists []. by rewrite app_nil_r.
      * intros u d. cbv beta. by rewrite Etake.
    + rewrite bool_decide_false by by intros [? ?]. apply dtriple_ret. intros d (Ho & Hf & Hc). split_and!; [done| |done].
      rewrite Hc, Ebs. specialize (Htorn eq_refl). rewrite Ebs, zlen_app in Htorn.
      rewrite (zlen_nil_inv tail) by lia. by rewrite app_nil_r.
Qed.

(** [Wal::recover] on a log that is there: what its file says, and the file cut back
    to just that. *)
Lemma dtriple_wal_recover path policy last_seq s levels logs told next l :
  l ∈ logs ->
  dtriple may (fun d => opening s levels logs told next d /\ flushed d (lf_inode l))
    (wal_recover path (log_name (lf_number l)) policy last_seq)
    (fun r d => r = (wal_new path (lf_inode l) policy (highest_seq (lf_records l) last_seq), lf_records l) /\
       opening s levels logs told next d /\ contents d (lf_inode l) = log_file (lf_records l) /\ flushed d (lf_inode l))
    (fun d => keeps d (eq told)).
Proof.
  intros Hin w0 (Hm0 & Ho0 & Hf0). set (bs := contents (disk w0) (lf_inode l)).
  set (P := fun d => opening s levels logs told next d /\ flushed d (lf_inode l) /\ contents d (lf_inode l) = bs).
  assert (forall d, P d -> keeps d (eq told)) as HC by (intros d [Ho _]; by eapply opening_keeps).
  assert (forall d, P d -> names d !! log_name (lf_number l) = Some (lf_inode l) /\ reads (contents d (lf_inode l)) (lf_records l)) as HP.
  { intros d [Ho _]. by destruct (opening_lasting _ _ _ _ _ _ l Ho Hin) as (? & _ & ?). }
  assert (reads bs (lf_records l)) as Hreads by (apply (HP (disk w0)); done).
  enough (dtriple may P (wal_recover path (log_name (lf_number l)) policy last_seq)
    (fun r d => r = (wal_new path (lf_inode l) policy (highest_seq (lf_records l) last_seq), lf_records l) /\
       opening s levels logs told next d /\ contents d (lf_inode l) = log_file (lf_records l) /\ flushed d (lf_inode l))
    (fun d => keeps d (eq told))) as Hmain by by apply (Hmain w0).
  unfold wal_recover. eapply dtriple_bind.
  { eapply dtriple_weaken; [apply (dtriple_wal_replay P _ path _ _ _ HP HC)|done| |done].
    intros rp d ((rp' & Hdr & Hvl & Htorn) & Hp). pose proof Hp as (_ & _ & Hc). rewrite Hc in *.
    exact (conj (ex_intro _ rp' (conj Hdr (conj Hvl Htorn))) Hp). }
  intros rp. apply dtriple_pure. intros (rp' & Hdr & Hvl & Htorn). rewrite Hdr.
  eapply (dtriple_bind may _ _ _ (fun r d => r = lf_records l /\ P d)); [by apply dtriple_lift|]. intros recs. apply dtriple_pure. intros ->.
  eapply (dtriple_bind may _ _ _ (fun r d => r = lf_inode l /\ P d)).
  { apply dtriple_plain; [|done]. intros d Hd. destruct (HP d Hd) as [Hn _]. exists (lf_inode l). unfold open_append_run. by rewrite Hn. }
  intros file. apply dtriple_pure. intros ->.
  eapply dtriple_bind; [by apply (dtriple_repair path s levels logs told next l bs rp')|]. intros u. by apply dtriple_ret.
Qed.

Lemma apply_records_app {T : Type} `{!Memtable T} a b : forall t : T,
  apply_records t (a ++ b) = (t ← apply_records t a; apply_records t b).
Proof.
  induction a as [|r a IH]; intros t; [done|]. cbn [app apply_records]. destruct (apply_record t r) as [[newest|] t']; [apply IH|done].
Qed.

(** The older logs, as long as what they say fits into the table. *)
Lemma dtriple_replay_logs {T : Type} `{!Memtable T} s levels logs told next (C : Disk -> Prop) (P : Disk -> Prop) ls :
  forall (active active' : T) last_seq, apply_records active (records_of ls) = Ok active' ->
  (forall d, P d -> opening s levels logs told next d) -> (forall d, P d -> C d) -> (forall l, l ∈ ls -> l ∈ logs) ->
  dtriple may P (replay_logs dir (lf_number <$> ls) active last_seq)
    (fun r d => r = (active', highest_seq (records_of ls) last_seq) /\ P d) C.
Proof.
  induction ls as [|l ls IH]; intros active active' last_seq Ha HP HC Hls; cbn [replay_logs fmap list_fmap].
  - injection Ha as <-. by apply dtriple_ret.
  - assert (records_of (l :: ls) = lf_records l ++ records_of ls) as El by done. rewrite El, apply_records_app in Ha. rewrite El, highest_seq_app. clear El.
    destruct (apply_records active (lf_records l)) as [active1|] eqn:E1; [|done]. cbn [mbind result_bind] in Ha.
    assert (l ∈ logs) as Hin by (apply Hls; left).
    assert (forall d, P d -> names d !! log_name (lf_number l) = Some (lf_inode l) /\ reads (contents d (lf_inode l)) (lf_records l)) as Hr.
    { intros d Hp. by destruct (opening_lasting _ _ _ _ _ _ l (HP d Hp) Hin) as (? & _ & ?). }
    eapply (dtriple_bind may _ _ _ (fun rp d => (exists rp', drain_all rp = (Ok (lf_records l), rp')) /\ P d)).
    + eapply dtriple_weaken; [apply (dtriple_wal_replay P C _ (log_name (lf_number l)) _ _ Hr HC)|done| |done].
      intros rp d [(rp' & E & _) Hp]. split; [by exists rp'|done].
    + intros rp. apply dtriple_pure. intros (rp' & E).
      eapply (dtriple_bind may _ _ _ (fun r d => r = lf_records l /\ P d)); [apply dtriple_lift; intros d Hp; by rewrite E|].
      intros recs. apply dtriple_pure. intros ->.
      eapply (dtriple_bind may _ _ _ (fun r d => r = active1 /\ P d)); [apply dtriple_lift; intros d Hp; by rewrite E1|].
      intros t. apply dtriple_pure. intros ->. apply (IH active1 active' (highest_seq (lf_records l) last_seq) Ha HP HC).
      intros x Hx. apply Hls. by right.
Qed.
End Keeping.

(** ** A new log *)

Section Creating.
Context (dir : string) (may : outcome -> Prop).
Context (P : option Snapshot -> Prop) (ts : list Table) (gone logs : list LogFile) (next next' k : Z).
Context (Hu : u64_ok k) (Hk : next <= k < next') (Hlt : Forall (fun l => lf_number l < k) (gone ++ logs)).

#[local] Abbreviation new i := (mkLogFile k i [] []).

(** Created, and holding [bs]. *)
Definition being_born (i : nat) (bs : bytes) (d : Disk) : Prop :=
  layout dir d P ts gone logs [new i] next' /\ contents d i = bs.

(** Interrupted. *)
Definition maybe_born (d : Disk) : Prop :=
  exists born, layout dir d P ts gone logs born next' /\ Forall (fun l => lf_records l = [] /\ lf_pending l = []) born.

Lemma being_maybe i bs d : being_born i bs d -> maybe_born d.
Proof. intros [Hl _]. exists [new i]. split; [done|]. by repeat constructor. Qed.

Lemma being_born_data i bs d n m :
  being_born i bs d -> (floor_of d i <= m <= length (take n file_header))%nat ->
  being_born i (take n file_header) (set_data d i (take n file_header) m).
Proof.
  intros (Hl & Hc) [Hf Hm]. split.
  - apply (layout_log_data dir d P ts gone logs logs [new i] [new i] next' (new i) (take n file_header) m);
      [exact Hl|apply elem_of_app; right; by left|done|..].
    + intros c. by apply survives_data.
    + apply same_files_refl.
    + apply same_files_refl.
    + intros x Hx E. assert (x = new i) as ->.
      { destruct (layout_lasting _ _ _ _ _ _ _ _ x Hl Hx) as [Hn _].
        eapply (log_inode_number d gone logs [new i]); [apply Hl|apply Hl|apply elem_of_app; by right| |apply candidates_names|done|done].
        apply elem_of_app. right. by left. }
      eapply lasting_mono; [apply (lasting_header m n); lia|lia|]. intros y <-. by left.
    + done.
  - by rewrite contents_set_data, decide_True.
Qed.

Lemma being_born_sync i bs d : being_born i bs d -> being_born i bs (synced d i).
Proof. intros [Hl Hc]. split; [by apply layout_sync|done]. Qed.

Lemma being_born_floor i bs d : being_born i bs d -> (floor_of d i <= length bs)%nat.
Proof.
  intros (Hl & <-). destruct (layout_lasting _ _ _ _ _ _ _ _ (new i) Hl) as [_ [Hf _]]; [apply elem_of_app; right; by left|exact Hf].
Qed.

Lemma dtriple_sync_new path i bs :
  dtriple may (being_born i bs) (disk_sync path i) (fun _ d => being_born i bs d /\ flushed d i) maybe_born.
Proof.
  apply dtriple_plain; [|intros d; apply being_maybe]. intros d Hb. exists tt. cbn [fst snd]. fold (synced d i).
  split; [done|]. split; [by apply being_born_sync|apply flushed_synced].
Qed.

Lemma dtriple_fill_new path i :
  dtriple may (being_born i [])
    (_ ← truncate i path 0; _ ← disk_write path i (MAGIC ++ to_le 4 FORMAT_VERSION); disk_sync path i)
    (fun _ d => being_born i (log_file []) d /\ flushed d i) maybe_born.
Proof.
  assert (forall bs d, being_born i bs d /\ flushed d i -> being_born i bs d) as Hd by by intros ?? [].
  eapply (dtriple_bind may _ _ _ (fun _ d => being_born i [] d /\ flushed d i)).
  - unfold truncate. eapply (dtriple_bind may _ _ _ (fun _ => being_born i [])); [|intros u; apply dtriple_sync_new].
    apply dtriple_plain; [|intros d; apply being_maybe]. intros d Hb. exists tt. cbn [fst snd]. split; [done|].
    pose proof (being_born_floor i _ d Hb). pose proof Hb as (_ & Hc). unfold cut_data. rewrite Hc, take_nil.
    apply (being_born_data i [] d 0); [done|]. cbn in *. lia.
  - intros u. eapply (dtriple_bind may _ _ _ (fun _ => being_born i (log_file []))).
    + change (MAGIC ++ to_le 4 FORMAT_VERSION) with file_header.
      assert (forall n d, being_born i [] d -> being_born i (take n file_header) (append_data d i (take n file_header))) as Hw.
      { intros n d Hb. pose proof (being_born_floor i _ d Hb) as Hf. cbn in Hf. pose proof Hb as (_ & Hc). unfold append_data. rewrite Hc.
        apply (being_born_data i [] d n); [done|lia]. }
      apply dtriple_call.
      * intros d [Hb _]. exists tt. split; [done|]. cbn [snd]. specialize (Hw (length file_header) d Hb).
        rewrite take_ge in Hw by done. replace (log_file []) with file_header; [done|]. unfold log_file. by rewrite app_nil_r.
      * intros n d [Hb _]. eapply being_maybe, Hw. done.
    + intros u'. apply dtriple_sync_new.
Qed.

(** [Wal::create]: the log, holding nothing, and on the device. *)
Lemma dtriple_wal_create policy last_seq :
  dtriple may (fun d => layout dir d P ts gone logs [] next) (wal_create (join dir (log_name k)) (log_name k) policy last_seq)
    (fun wal d => exists i, wal = wal_new (join dir (log_name k)) i policy last_seq /\
       layout dir d P ts gone (logs ++ [new i]) [] next' /\ contents d i = log_file [] /\ flushed d i)
    maybe_born.
Proof.
  set (P0 := fun d => layout dir d P ts gone logs [] next).
  assert (forall d, P0 d -> maybe_born d) as HC.
  { intros d Hl. exists []. split; [|constructor]. eapply layout_later; [exact Hl|lia]. }
  assert (forall d, P0 d -> names d !! log_name k = None) as Hnone.
  { intros d Hl. apply (do_free _ _ (ly_dir _ _ _ _ _ _ _ _ Hl) k); [lia|done]. }
  unfold wal_create, wal_recover, wal_replay.
  eapply (dtriple_bind may _ _ _ (fun r d => exists i, r = (wal_new (join dir (log_name k)) i policy last_seq, []) /\
    being_born i (log_file []) d /\ flushed d i)).
  - eapply (dtriple_bind may _ _ _ (fun rp d => rp = replay_empty (join dir (log_name k)) None /\ P0 d)).
    + intros w [Ho Hp]. specialize (Hnone _ Hp). unfold mbind, stm_bind, open_log, disk_read.
      destruct (call _ (read_run _ _) no_effect w) as [r w'] eqn:E.
      apply (call_outcomes may) in E as [Hmay [[-> E]|(e & n & Hx & -> & E)]]; [| |done].
      * unfold read_run in *. rewrite Hnone in *. cbn [fst snd] in *. cbn. by rewrite E.
      * unfold no_effect in E. destruct e as [[] msg]; cbn; rewrite E; [done|..];
          (split; [by apply HC|by eapply not_calm]).
    + intros rp. apply dtriple_pure. intros ->.
      change (drain_all (replay_empty (join dir (log_name k)) None)) with (Ok (@nil LogRecord), replay_empty (join dir (log_name k)) None).
      eapply (dtriple_bind may _ _ _ (fun r d => r = [] /\ P0 d)); [by apply dtriple_lift|]. intros recs. apply dtriple_pure. intros ->.
      eapply (dtriple_bind may _ _ _ (fun i => being_born i [])).
      * apply dtriple_plain; [|done]. intros d Hp. specialize (Hnone d Hp). exists (fresh_inode d).
        unfold open_append_run. rewrite Hnone.
        assert (fst (create_run (log_name k) d) = Ok (fresh_inode d)) as -> by (unfold create_run; by rewrite Hnone).
        split; [done|]. destruct (layout_create_log dir d P ts gone logs next next' k Hp Hu Hk Hlt) as (H1 & _ & H2 & _).
        by split.
      * intros i. change (valid_len (replay_empty (join dir (log_name k)) None) =? 0) with true. cbv iota.
        eapply dtriple_bind; [apply dtriple_fill_new|]. intros u. apply dtriple_ret. intros d Hb. by exists i.
  - intros r. apply dtriple_ex. intros i. apply dtriple_pure. intros ->. apply dtriple_ret. intros d [(Hl & Hc) Hf]. exists i.
    split_and!; [done| |done|done]. apply layout_born; [done|]. cbn [lf_inode]. rewrite Hf, Hc. rewrite length_log_file. lia.
Qed.
End Creating.
