(* ===== verification/Opened.v ===== *)
(** * [Engine::open], from a directory a crash left

    [standing] relates a running engine to its directory, also while calls are under
    way: the manifest, the tables and the logs there are what is in memory and what is
    on its way there; [holds] is [standing] between calls, when everything the store
    has been told is on the device. [Engine::open] gets there from any directory that
    keeps a store, and cut off at any of its calls leaves one that still does. *)

From stdpp Require Import sorting.
From S2P Require Import Prelude Checksum Coding WalRecord WalReplay Wal WalAlone Memtable SsTable Disk Manifest Naming.
From S2P Require Import Compaction Layers Engine Store Shape EngineSpec Crashes Triples Layout Tells Listings Reopen Recovery.

(** ** The records of a directory *)

Definition file_records (bs : bytes) : list LogRecord :=
  match replay_open "" (Content bs) with
  | Ok rp => match fst (drain_all rp) with Ok recs => recs | Err _ => [] end
  | Err _ => []
  end.

(** All that its logs say, in the order they are replayed. *)
Definition disk_records (d : Disk) : list LogRecord :=
  concat ((fun k => match names d !! log_name k with Some i => file_records (contents d i) | None => [] end) <$>
    ls_logs (listing_of (map_to_list (names d)).*1)).

Lemma reads_file_records bs recs : reads bs recs -> file_records bs = recs.
Proof.
  intros Hr. destruct (reads_open "" bs recs Hr) as (rp & rp' & E1 & E2 & _). unfold file_records, drain_all. by rewrite E1, E2.
Qed.

Definition log_names (ls : list LogFile) : list string := (fun l => log_name (lf_number l)) <$> ls.

(** ** Levels opened again *)

Lemma shape_next sn next next' levels : shape_ok sn next levels -> (forall t, t ∈ concat levels -> number_of t < next') ->
  shape_ok sn next' levels.
Proof. intros [H1 H2 H3 H4 H5] Hn. split; [done..|]. intros t Ht. destruct (H5 t Ht). specialize (Hn t Ht). lia. Qed.

Lemma shape_unpadded sn next n levels : levels <> [] -> shape_ok sn next (padded n levels) -> shape_ok sn next levels.
Proof.
  intros Hne [[_ Hok Hs] H2 H3 H4 H5]. rewrite concat_padded in *. unfold padded in *. split; [split|done| |done|done].
  - done.
  - by apply Forall_app in Hok as [? _].
  - destruct levels as [|l0 levels]; [done|]. cbn in *. by apply Forall_app in Hs as [? _].
  - intros i level t Hi. apply H3. by apply lookup_app_l_Some.
Qed.

Lemma alt_shape s levels : alt_ok s levels ->
  shape_ok (sn_of s) (u64_max + 1) levels /\ StronglySorted newer (default [] (head levels)) /\ snapshot_typed (sn_of s).
Proof.
  destruct s as [sn|]; cbn; [by intros []|]. intros ->. split_and!.
  - split; cbn; [|done| |constructor|by intros t ?%elem_of_nil].
    + split; [done|by repeat constructor|constructor].
    + intros n level t Hn Ht. apply list_elem_of_lookup_2 in Hn. apply list_elem_of_singleton in Hn as ->. by apply elem_of_nil in Ht.
  - constructor.
  - split_and!; [split; unfold u64_max; cbn; lia|split; unfold u64_max; cbn; lia|constructor].
Qed.

Section Opened.
Context {T : Type} `{MemtableLaws T} (dir : string) (config : Config).
Implicit Types (e : Engine T) (told : layer).

(** The logs, oldest first: those of the frozen tables, then those of the active one. *)
Definition logs_of (flogs : list (list LogFile)) (alogs : list LogFile) : list LogFile := concat (reverse flogs) ++ alogs.

(** What stands in the directory: the manifest; the logs that have been removed and
    may come back; those a file has replaced, still to be removed; those of the active
    table and of the frozen ones; the tables no level has yet; and the records that
    are in a log and not yet in memory. *)
Record Ledger := mkLedger {
  lg_man : option Snapshot;
  lg_gone : list LogFile;
  lg_spent : list LogFile;
  lg_active : list LogFile;
  lg_frozen : list (list LogFile);
  lg_pending : list Table;
  lg_flying : list LogRecord;
}.
Implicit Types (g : Ledger).

Definition lg_logs g : list LogFile := logs_of (lg_frozen g) (lg_active g).

(** What the logs say: with the records not yet in memory. *)
Definition logged g told : layer := spec_apply told (mutation <$> lg_flying g).

(** No operation is under way. *)
Definition at_rest g : Prop := lg_spent g = [] /\ lg_pending g = [] /\ lg_flying g = [].

(** The running store [e], told [told], and its directory. *)
Record standing e told g (d : Disk) : Prop := {
  sd_layout : layout dir d (eq (lg_man g)) (concat (st_levels (en_state e)) ++ lg_pending g) (lg_gone g) (lg_spent g ++ lg_logs g) []
    (en_next_number e);
  sd_alt : alt_ok (lg_man g) (st_levels (en_state e));
  sd_snapshot : en_snapshot e = sn_of (lg_man g);
  sd_settled : Forall (fun l => lf_pending l = []) (lg_gone g ++ lg_spent g ++ lg_logs g);
  sd_pinned : pinned d (lg_spent g);
  sd_active : exists A, represents (st_active (en_state e)) A /\ memory_of (records_of (lg_active g)) = spec_apply A (mutation <$> lg_flying g);
  sd_names : st_active_logs (en_state e) = log_names (lg_active g);
  sd_frozen : Forall2 (fun f ls => represents (fz_memtable f) (memory_of (records_of ls)) /\ fz_logs f = log_names ls)
    (st_frozen (en_state e)) (lg_frozen g);
  sd_newest : exists pre l, lg_active g = pre ++ [l] /\ wl_file (en_wal e) = lf_inode l /\
    contents d (lf_inode l) = log_file (lf_records l) /\ flushed d (lf_inode l);
  sd_wal : wl_buf (en_wal e) = [] /\ wl_failed (en_wal e) = false /\ wl_policy (en_wal e) = cf_sync config /\
    wl_durable (en_wal e) <= wl_last_seq (en_wal e);
  sd_tells : forall j, tells (sn_last_seq (en_snapshot e)) (st_levels (en_state e))
    (records_of (drop j (lg_gone g ++ lg_spent g) ++ lg_logs g)) (logged g told);
  sd_last : forall j, wl_last_seq (en_wal e) = highest_seq (records_of (drop j (lg_gone g ++ lg_spent g) ++ lg_logs g)) (sn_last_seq (en_snapshot e));
  sd_flying : NoDup (numbering (mutation <$> lg_flying g));
  sd_places : en_dir e = dir /\ en_config e = config /\ en_manifest e = manifest_new dir;
}.

(** Between calls. *)
Definition holds e told (d : Disk) : Prop := engine_inv e told /\ exists g, at_rest g /\ standing e told g d.

Lemma drop_some {A} j (a b c : list A) : exists n, drop j a ++ b ++ c = drop n (a ++ b) ++ c.
Proof.
  destruct (decide (j <= length a)%nat); [exists j; by rewrite drop_app_le, app_assoc|exists (length a)].
  by rewrite drop_ge, drop_app_length by lia.
Qed.

(** A directory that still has all of it: other tables, a log on its way, and fewer
    of the logs that are no longer needed, do no harm. *)
Lemma standing_left e told g d d' ts n born next : standing e told g d ->
  layout dir d' (eq (lg_man g)) ts (drop n (lg_gone g)) (lg_spent g ++ lg_logs g) born next ->
  (forall t, t ∈ concat (st_levels (en_state e)) -> t ∈ ts) ->
  Forall (fun l => lf_records l = [] /\ lf_pending l = []) born -> keeps dir d' (eq (logged g told)).
Proof.
  intros Hh Hl Hts Hb. rewrite Forall_forall in Hb.
  apply (keeps_one dir d' (lg_man g) (st_levels (en_state e)) (drop n (lg_gone g)) (lg_spent g ++ lg_logs g) born next); [|apply Hh| | |].
  - eapply layout_weaken; [exact Hl|done|done].
  - pose proof (sd_settled _ _ _ _ Hh) as Hs. rewrite !Forall_app in Hs. rewrite !Forall_app.
    split_and!; [apply Forall_drop; tauto|tauto|tauto|]. apply Forall_forall. intros x Hx. by apply Hb.
  - apply Forall_forall. intros x Hx. by apply Hb.
  - intros j. exists (logged g told). split; [done|]. rewrite <- (sd_snapshot _ _ _ _ Hh), drop_drop.
    destruct (drop_some (n + j) (lg_gone g) (lg_spent g) (lg_logs g)) as [m ->]. apply Hh.
Qed.

Lemma standing_keeps e told g d : standing e told g d -> keeps dir d (eq (logged g told)).
Proof.
  intros Hh. apply (standing_left e told g d d _ 0 [] _ Hh (sd_layout _ _ _ _ Hh)); [|constructor]. intros t Ht. apply elem_of_app. by left.
Qed.

Lemma at_rest_logged g told : at_rest g -> logged g told = told.
Proof. intros (_ & _ & E). unfold logged. by rewrite E. Qed.

Lemma holds_keeps e told d : holds e told d -> keeps dir d (eq told).
Proof. intros (_ & g & Hg & Hh). rewrite <- (at_rest_logged g told Hg). by eapply standing_keeps. Qed.

(** ** Limits of a directory that is opened *)

(** Its file numbers are not used up, and what its logs say fits into a table. *)
Record open_in_limits (d : Disk) : Prop := {
  ol_numbers : forall k, u64_ok k -> is_Some (names d !! log_name k) \/ is_Some (names d !! table_name k) -> k + 1 < u64_max;
  ol_manifest : forall i sn, names d !! FILE_NAME = Some i -> decode_snapshot (contents d i) = Some sn -> sn_next_number sn < u64_max;
  ol_room : roomy (mt_build (cf_memtable_bytes config) : T) (mutation <$> disk_records d);
}.

(** ** Replaying into a table *)

(** With room for each record no insert panics. *)
Lemma apply_records_room recs : forall (t : T) m, represents t m -> roomy t (mutation <$> recs) ->
  NoDup (numbering (mutation <$> recs)) -> (forall k s v, (k, (s, v)) ∈ mutation <$> recs -> fresh_for m k s) ->
  apply_records t recs = Ok (mt_apply t (mutation <$> recs)).
Proof.
  induction recs as [|r recs IH]; intros t m Hr Hroom Hnd Hf; [done|]. cbn [apply_records apply_record fmap list_fmap] in *.
  destruct Hroom as [Hr1 Hroom]. assert (fresh_for m (record_key r) (record_seq r)) as Hf1 by (eapply Hf; left).
  pose proof Hnd as [_ Hnd']%NoDup_cons.
  destruct (law_insert t m _ _ (record_value r) Hr Hr1 Hf1) as [En Hr'].
  unfold apply_record. destruct (mt_insert t _ _ _) as [newest t'] eqn:E. cbn [fst snd] in *. subst newest.
  rewrite (IH t' _ Hr' Hroom Hnd'); [|by eapply fresh_after]. cbn. by rewrite E.
Qed.

Lemma numbered_numbering recs : numbered recs -> NoDup (numbering (mutation <$> recs)).
Proof.
  unfold numbered, numbering. induction recs as [|r recs IH]; cbn; [constructor|].
  intros [Hs Hr]%StronglySorted_inv. constructor; [|by apply IH].
  intros (x & E & (y & -> & Hy)%list_elem_of_fmap)%list_elem_of_fmap. cbn in E. injection E as _ E.
  rewrite Forall_forall in Hr. specialize (Hr (record_seq y) ltac:(by apply list_elem_of_fmap_2)). lia.
Qed.

Lemma replayed_represents recs budget : numbered recs -> roomy (mt_build budget : T) (mutation <$> recs) ->
  exists t, apply_records (mt_build budget : T) recs = Ok t /\ represents t (memory_of recs).
Proof.
  intros Hn%numbered_numbering Hr. assert (forall k s v, (k, (s, v)) ∈ mutation <$> recs -> fresh_for ∅ k s) as Hf.
  { intros k s v _ w. by rewrite lookup_empty. }
  eexists. split; [by apply (apply_records_room recs _ ∅); [apply law_build|..]|]. by apply mt_apply_represents; [apply law_build|..].
Qed.

(** What has just been opened holds what it was told. *)
Lemma opened_inv e told recs :
  tidy (en_wal e) -> wl_last_seq (en_wal e) = highest_seq recs (sn_last_seq (en_snapshot e)) ->
  tells (sn_last_seq (en_snapshot e)) (st_levels (en_state e)) recs told -> snapshot_typed (en_snapshot e) ->
  0 <= en_next_number e -> shape_ok (en_snapshot e) (en_next_number e) (st_levels (en_state e)) ->
  represents (st_active (en_state e)) (memory_of recs) -> st_frozen (en_state e) = [] -> engine_inv e told.
Proof.
  intros Ht El [T1 T2 T3 T4 T5 T6] Hty Hn Hs Hr Hf.
  pose proof (highest_seq_spec recs (sn_last_seq (en_snapshot e))) as [Hge Hle]. destruct Hty as ([H0 H1] & _ & _).
  split; [done| |done|done|by rewrite El|].
  - rewrite El. split; [lia|]. apply highest_seq_le; [done|]. intros r Hin. rewrite Forall_forall in T2.
    destruct (T2 r Hin) as [[_ ?] _]. done.
  - exists (memory_of recs), []. unfold layers_of. cbn [app]. split_and!; [|done|done|].
    + split; [done|rewrite Hf; constructor|apply Hs].
    + intros m k v [->|Hm]%elem_of_cons Hv; rewrite El.
      * by apply (memory_within recs _ T2 _ k v ltac:(by apply list_elem_of_singleton)).
      * destruct (T5 m k v Hm Hv). lia.
Qed.

(** ** The last part of [open]: the logs *)

Definition open_logs (numbers : list Z) (next last_seq : Z) : stm World (Wal * T * list string * Z) :=
  let active := mt_build (cf_memtable_bytes config) in
  match last numbers with
  | Some newest =>
      let older := take (length numbers - 1) numbers in
      '(active, last_seq) ← replay_logs dir older active last_seq;
      let name := file_name newest LOG_EXT in
      '(wal, records) ← wal_recover (join dir name) name (cf_sync config) last_seq;
      active ← lift (apply_records active records);
      mret (wal, active, (fun number => file_name number LOG_EXT) <$> numbers, next)
  | None =>
      let name := file_name next LOG_EXT in
      wal ← wal_create (join dir name) name (cf_sync config) last_seq;
      mret (wal, active, [name], wrap64 (next + 1))
  end.

(** The logs of the new store: those there were, or a new one. *)
Record logs_opened s levels told (records : list LogRecord) (last_seq : Z) (r : Wal * T * list string * Z)
  (alogs : list LogFile) (d : Disk) : Prop := {
  lp_layout : layout dir d (eq s) (concat levels) [] alogs [] (snd r);
  lp_alt : alt_ok s levels;
  lp_settled : Forall (fun l => lf_pending l = []) alogs;
  lp_records : records_of alogs = records;
  lp_active : apply_records (mt_build (cf_memtable_bytes config)) records = Ok (snd (fst (fst r)));
  lp_names : snd (fst r) = log_names alogs;
  lp_newest : exists pre l path, alogs = pre ++ [l] /\ fst (fst (fst r)) = wal_new path (lf_inode l) (cf_sync config) (highest_seq records last_seq) /\
    contents d (lf_inode l) = log_file (lf_records l) /\ flushed d (lf_inode l);
}.

Context (may : outcome -> Prop) (honest : forall err n, may (Some (err, n)) -> io_kind err <> NotFound).

(** A directory without logs gets one. *)
Lemma dtriple_first_log s levels told next last_seq :
  0 <= next < u64_max -> tells (sn_last_seq (sn_of s)) levels [] told ->
  dtriple may (fun d => opening dir s levels [] told next d) (open_logs [] next last_seq)
    (fun r d => (next <= snd r <= u64_max) /\ exists alogs, logs_opened s levels told [] last_seq r alogs d)
    (fun d => keeps dir d (eq told)).
Proof.
  intros Hnext Ht w0 (Hm & Ho). pose proof (og_alt _ _ _ _ _ _ _ Ho) as Halt.
  set (Q := fun (wal : Wal) d => exists i, wal = wal_new (join dir (log_name next)) i (cf_sync config) last_seq /\
    layout dir d (eq s) (concat levels) [] [mkLogFile next i [] []] [] (next + 1) /\ contents d i = log_file [] /\ flushed d i).
  enough (dtriple may (fun d => layout dir d (eq s) (concat levels) [] [] [] next) (open_logs [] next last_seq)
    (fun r d => (next <= snd r <= u64_max) /\ exists alogs, logs_opened s levels told [] last_seq r alogs d)
    (fun d => keeps dir d (eq told))) as Hmain.
  { apply (Hmain w0). split; [done|apply Ho]. }
  unfold open_logs. cbn [last]. change (file_name next LOG_EXT) with (log_name next).
  apply (dtriple_bind may _ _ _ Q).
  - eapply dtriple_weaken; [apply (dtriple_wal_create dir may (eq s) (concat levels) [] [] next (next + 1) next)|done| |].
    + split; lia.
    + lia.
    + constructor.
    + intros wal d Hq. exact Hq.
    + intros d (born & Hl & Hb). rewrite Forall_forall in Hb.
      apply (keeps_one dir d s levels [] [] born (next + 1)); [exact Hl|done| | |].
      * apply Forall_forall. intros x Hx. by apply Hb.
      * apply Forall_forall. intros x Hx. by apply Hb.
      * intros j. exists told. by rewrite drop_nil.
  - intros wal. apply dtriple_ret. intros d (i & -> & Hl & Hc & Hf). cbn [fst snd].
    rewrite wrap64_small by (unfold u64_ok; lia). split; [lia|]. exists [mkLogFile next i [] []].
    split; cbn [fst snd]; [done|done|by repeat constructor|done|done|done|].
    by exists [], (mkLogFile next i [] []), (join dir (log_name next)).
Qed.

Lemma dtriple_open_logs s levels logs told next last_seq (t : T) :
  apply_records (mt_build (cf_memtable_bytes config)) (records_of logs) = Ok t ->
  0 <= next < u64_max -> tells (sn_last_seq (sn_of s)) levels (records_of logs) told ->
  dtriple may (fun d => opening dir s levels logs told next d /\ forall l, l ∈ logs -> flushed d (lf_inode l))
    (open_logs (lf_number <$> logs) next last_seq)
    (fun r d => (next <= snd r <= u64_max) /\ exists alogs, logs_opened s levels told (records_of logs) last_seq r alogs d)
    (fun d => keeps dir d (eq told)).
Proof.
  intros Ha Hnext Ht. destruct logs as [|l pre _] using rev_ind.
  { eapply dtriple_weaken; [by apply dtriple_first_log|by intros d []|done|done]. }
  unfold open_logs. rewrite fmap_app. change (lf_number <$> [l]) with [lf_number l].
  rewrite last_snoc, length_app, length_fmap. cbn [length].
  replace (length pre + 1 - 1)%nat with (length (lf_number <$> pre)) by (rewrite length_fmap; lia). rewrite take_app_length.
  set (P := fun d => opening dir s levels (pre ++ [l]) told next d /\ forall x, x ∈ pre ++ [l] -> flushed d (lf_inode x)).
  assert (l ∈ pre ++ [l]) as Hl by (apply elem_of_app; right; by left).
  assert (records_of [l] = lf_records l) as Erl by (unfold records_of; cbn; apply app_nil_r).
  pose proof Ha as Ha'. rewrite records_of_app, apply_records_app, Erl in Ha'.
  destruct (apply_records _ (records_of pre)) as [t1|] eqn:E1; [|done]. cbn [mbind result_bind] in Ha'.
  eapply dtriple_bind.
  - apply (dtriple_replay_logs dir may honest s levels (pre ++ [l]) told next _ P pre _ t1); [done|..].
    + by intros d [].
    + intros d [Ho _]. by eapply opening_keeps.
    + intros x Hx. apply elem_of_app. by left.
  - intros r. apply dtriple_pure. intros ->. change (file_name (lf_number l) LOG_EXT) with (log_name (lf_number l)).
    eapply dtriple_bind.
    + eapply dtriple_weaken; [apply (dtriple_wal_recover dir may honest _ _ _ s levels (pre ++ [l]) told next l Hl)| |..].
      * intros d [Ho Hf]. split; [done|by apply Hf].
      * intros r d Hq. exact Hq.
      * done.
    + intros r. apply dtriple_pure. intros ->.
      eapply (dtriple_bind may _ _ _ (fun r d => r = t /\ opening dir s levels (pre ++ [l]) told next d /\
        contents d (lf_inode l) = log_file (lf_records l) /\ flushed d (lf_inode l))); [apply dtriple_lift; intros d Hd; by rewrite Ha'|].
      intros active. apply dtriple_pure. intros ->. apply dtriple_ret. intros d (Ho & Hc & Hf). cbn [fst snd]. split; [lia|].
      exists (pre ++ [l]). rewrite records_of_app, Erl.
      split; cbn [fst snd].
      * apply Ho.
      * apply Ho.
      * apply Ho.
      * by rewrite records_of_app, Erl.
      * by rewrite apply_records_app, E1.
      * unfold log_names. rewrite !fmap_app. f_equal. symmetry. apply (list_fmap_compose lf_number log_name pre).
      * exists pre, l. eexists. split_and!; [done| |done|done]. by rewrite highest_seq_app.
Qed.

(** ** The first part: what is there *)

Lemma elem_of_names (m : gmap string nat) name : name ∈ (map_to_list m).*1 <-> is_Some (m !! name).
Proof.
  rewrite list_elem_of_fmap. split.
  - intros ([n i] & -> & Hin%elem_of_map_to_list). by exists i.
  - intros [i Hi]. exists (name, i). split; [done|]. by apply elem_of_map_to_list.
Qed.

Section Scanned.
Context (s : option Snapshot) (levels : list (list Table)) (logs : list LogFile) (told : layer) (d0 : Disk).
Context (Hopen : opening dir s levels logs told (u64_max + 1) d0) (Hflushed : forall i, flushed d0 i) (Hlimits : open_in_limits d0).

Let m0 := names d0.
Let listing := listing_of (map_to_list m0).*1.
Let m1 := without (ls_partial listing) m0.
Let m2 := without (orphans listing (sn_of s)) m1.
Let next := Z.max (ls_next_number listing) (sn_next_number (sn_of s)).

(** While the directory is tidied up. *)
Definition at_names (m : gmap string nat) (d : Disk) : Prop :=
  opening dir s levels logs told (u64_max + 1) d /\ same_bytes d0 d /\ names d = m.

Lemma scanned : listed (map_to_list m0).*1 listing.
Proof.
  apply listing_listed; [|apply NoDup_fst_map_to_list]. intros name [i Hi]%elem_of_names.
  eapply (do_known _ _ (ly_dir _ _ _ _ _ _ _ _ (og_layout _ _ _ _ _ _ _ Hopen))); [apply candidates_names|exact Hi].
Qed.

Lemma scanned_logs : ls_logs listing = lf_number <$> logs.
Proof.
  pose proof scanned as [L1 L2 _ _ _ _ _]. destruct (og_layout _ _ _ _ _ _ _ Hopen) as [_ _ _ [S1 S2 S3 _ _]].
  rewrite !app_nil_r in *. cbn [app] in S1, S2. rewrite Forall_forall in S2.
  assert (NoDup (lf_number <$> logs)) as Hnd.
  { clear -S1. induction S1 as [|x l _ IH Hx]; [constructor|]. constructor; [|done]. intros Hin. rewrite Forall_forall in Hx.
    specialize (Hx x Hin). lia. }
  assert (NoDup (ls_logs listing)) as Hnd'.
  { clear -L2. induction L2 as [|x l _ IH Hx]; [constructor|]. constructor; [|done]. intros Hin. rewrite Forall_forall in Hx.
    specialize (Hx x Hin). lia. }
  apply (sorted_same Z.lt); [|done|done|lia]. apply NoDup_Permutation; [done..|]. intros k. rewrite L1, elem_of_names. split.
  - intros [Hu [i Hi]]. apply S3 in Hi as (l & Hl & <- & _); [|done]. by apply list_elem_of_fmap_2.
  - intros (l & -> & Hl)%list_elem_of_fmap. split; [by apply S2|]. exists (lf_inode l). apply S3; [by apply S2|]. by exists l.
Qed.

Lemma scanned_records : disk_records d0 = records_of logs.
Proof.
  unfold disk_records. change (listing_of (map_to_list (names d0)).*1) with listing. rewrite scanned_logs. unfold records_of. f_equal.
  rewrite <- list_fmap_compose. apply list_fmap_ext. intros i l Hl. cbn. apply list_elem_of_lookup_2 in Hl.
  destruct (opening_lasting dir s levels logs told _ d0 l Hopen Hl) as (-> & _ & Hr). by apply reads_file_records.
Qed.

Lemma scanned_next : 0 <= ls_next_number listing /\ ls_next_number listing <= next < u64_max /\
  (forall k, u64_ok k -> is_Some (m0 !! log_name k) \/ is_Some (m0 !! table_name k) -> k < ls_next_number listing).
Proof.
  pose proof (ld_next _ _ scanned) as Hn. setoid_rewrite elem_of_names in Hn.
  destruct Hn as [Hn1 Hn2]; [intros k Hu Hk; by apply (ol_numbers _ Hlimits)|].
  assert (sn_next_number (sn_of s) < u64_max) as H2.
  { pose proof (ms_in _ _ (ly_manifest _ _ _ _ _ _ _ _ (og_layout _ _ _ _ _ _ _ Hopen)) _ (candidates_names d0)) as Hm.
    destruct Hm as (s' & <- & Hm). destruct s as [sn|]; [|done]. destruct Hm as (i & Hi & _ & Hd). by apply (ol_manifest _ Hlimits i). }
  split_and!; [lia|lia|lia|done].
Qed.
Lemma scanned_alt : alt_ok s levels.
Proof. apply Hopen. Qed.

Lemma scanned_number t : t ∈ concat levels -> u64_ok (number_of t) /\ number_of t < next.
Proof.
  intros Ht. destruct (alt_shape s levels scanned_alt) as (Hs & _ & _). pose proof (so_next _ _ _ Hs t Ht).
  assert (u64_ok (number_of t)) as Hu by (unfold u64_ok; lia). split; [done|]. destruct scanned_next as (_ & [Hn _] & Hlt).
  assert (number_of t < ls_next_number listing); [|lia]. apply Hlt; [done|]. right.
  pose proof (proj1 (Forall_forall _ _) (ly_tables _ _ _ _ _ _ _ _ (og_layout _ _ _ _ _ _ _ Hopen)) t Ht) as (i & Hi & _).
  exists i. apply Hi, candidates_names.
Qed.

Lemma partial_spare name : name ∈ ls_partial listing -> spare levels name /\ is_Some (m0 !! name).
Proof.
  rewrite (ld_partial _ _ scanned), elem_of_names. intros [Ht Hin]. split; [|done]. split_and!; intros; auto with names.
Qed.

Lemma orphan_spare name : name ∈ orphans listing (sn_of s) -> spare levels name /\ is_Some (m1 !! name).
Proof.
  unfold orphans. intros (k & -> & [Hk Hin]%list_elem_of_filter)%list_elem_of_fmap. change (file_name k TABLE_EXT) with (table_name k).
  apply (ld_tables _ _ scanned) in Hin as [Hu Hin]. apply elem_of_names in Hin. split.
  - split_and!; [intros k'; auto with names|auto with names|]. intros t Ht E. apply table_name_inj in E as ->; [|done|by apply scanned_number].
    apply Hk. destruct (alt_shape s levels scanned_alt) as (Hs & _ & _). rewrite (so_files _ _ _ Hs).
    apply (list_elem_of_fmap_2 fm_number (tb_meta <$> concat levels) (tb_meta t)). by apply list_elem_of_fmap_2.
  - unfold m1. rewrite without_lookup, decide_False; [done|]. rewrite (ld_partial _ _ scanned). intros [Ht _].
    by apply table_not_tmp in Ht.
Qed.

Lemma orphans_NoDup : NoDup (orphans listing (sn_of s)).
Proof.
  unfold orphans. apply NoDup_fmap_2_strong; [|apply NoDup_filter, scanned].
  intros x y [_ Hx]%list_elem_of_filter [_ Hy]%list_elem_of_filter. apply table_name_inj; by apply (ld_tables _ _ scanned).
Qed.

(** Tidied up, the directory has nothing under the numbers to come. *)
Lemma tidied_opening d : at_names m2 d -> opening dir s levels logs told next d.
Proof.
  intros ([Hl Hall Ha Ht Hp] & _ & Hm). split; [|done..]. eapply layout_next; [exact Hl|]. intros k Hk Hu.
  destruct scanned_next as (_ & [Hle _] & Hlt).
  assert (forall n, m0 !! n = None -> m2 !! n = None) as Hsub.
  { intros n Hn. unfold m2, m1. rewrite !without_lookup. by repeat case_decide. }
  assert (forall n, is_Some (m0 !! n) -> n = log_name k \/ n = table_name k -> k < ls_next_number listing) as Hsome.
  { intros n Hn Hnk. apply Hlt; [done|]. destruct Hnk as [<- | <-]; auto. }
  assert (forall n, n = log_name k \/ n = table_name k -> names d !! n = None) as Hfree.
  { intros n Hn. rewrite Hm. apply Hsub, eq_None_not_Some. intros Hx. specialize (Hsome n Hx Hn). lia. }
  split_and!; [by apply Hfree; left|by apply Hfree; right|]. rewrite Hm. destruct (m0 !! partial_name k) as [i|] eqn:E; [|by apply Hsub].
  assert (partial_name k ∈ ls_partial listing) as Hin.
  { apply (ld_partial _ _ scanned). split; [auto with names|]. apply elem_of_names. by exists i. }
  unfold m2, m1. rewrite !without_lookup, (decide_True _ _ Hin). by case_decide.
Qed.

Lemma at_names_flushed m d i : at_names m d -> flushed d i.
Proof. intros (_ & [Ed Ef] & _). unfold flushed, floor_of, contents. rewrite Ed, Ef. apply Hflushed. Qed.
End Scanned.

(** ** [Engine::open] *)

Lemma alt_unpadded s n levels : levels <> [] -> alt_ok s (padded n levels) -> n = length (padded n levels) -> alt_ok s levels.
Proof.
  intros Hne. destruct s as [sn|]; cbn.
  - intros [Hty Hs Hn] _. split; [done|by eapply shape_unpadded|]. by destruct levels.
  - intros E Hl. rewrite E in Hl. cbn in Hl. subst n. unfold padded in E.
    destruct levels as [|l0 levels]; [done|]. cbn [length Nat.sub app replicate] in E. rewrite app_nil_r in E. exact E.
Qed.

(** The store in memory is what the directory kept. *)
Lemma opened_holds s levels levels' logs told d0 d next (r : Wal * T * list string * Z) alogs :
  opening dir s levels logs told (u64_max + 1) d0 -> open_in_limits d0 -> disk_records d0 = records_of logs ->
  (forall t, t ∈ concat levels -> number_of t < next) -> 0 <= next <= snd r ->
  levels' <> [] -> levels = padded (length levels) levels' -> logs_opened s levels told (records_of logs) (sn_last_seq (sn_of s)) r alogs d ->
  holds (mkEngine dir config (fst (fst (fst r))) (manifest_new dir) (sn_of s) 0 false false
    (mkState (snd (fst (fst r))) (snd (fst r)) [] levels') (snd r) 0 None ∅) told d.
Proof.
  intros Hopen Hlim Hrecs Hnum Hnext Hne Epad [L1 L2 L3 L4 L5 L6 L7].
  assert (concat levels' = concat levels) as Econ by (rewrite Epad; by rewrite concat_padded).
  destruct (alt_shape s levels (og_alt _ _ _ _ _ _ _ Hopen)) as (Hshape & _ & Hty).
  assert (tells (sn_last_seq (sn_of s)) levels' (records_of logs) told) as Ht.
  { eapply tells_padded; [done|]. rewrite <- Epad. apply Hopen. }
  assert (represents (snd (fst (fst r))) (memory_of (records_of logs))) as Hr.
  { destruct (replayed_represents (records_of logs) (cf_memtable_bytes config)) as (t & E & Hrep); [apply Ht|rewrite <- Hrecs; apply Hlim|].
    rewrite L5 in E. by injection E as ->. }
  destruct L7 as (pre & l & path & El & Ew & Hc & Hf).
  assert (alt_ok s levels') as Halt.
  { eapply (alt_unpadded s (length levels)); [done|by rewrite <- Epad|by rewrite <- Epad]. }
  split; [|exists (mkLedger s [] [] alogs [] [] []); split; [done|]; split;
    cbn [en_wal en_snapshot en_state en_next_number en_dir en_config en_manifest st_active st_active_logs st_frozen st_levels
      lg_man lg_gone lg_spent lg_active lg_frozen lg_pending lg_flying app]; unfold lg_logs, logged; cbn [lg_frozen lg_active lg_flying fmap list_fmap app];
    try change (logs_of [] alogs) with alogs; rewrite ?app_nil_r].
  - apply (opened_inv _ _ (records_of logs)); cbn; [by rewrite Ew|by rewrite Ew|done|done|lia| |done|done].
    apply (shape_next _ (u64_max + 1)); [apply (shape_unpadded _ _ (length levels)); [done|by rewrite <- Epad]|].
    rewrite Econ. intros t Hin. specialize (Hnum t Hin). lia.
  - by rewrite Econ.
  - done.
  - done.
  - done.
  - by intros c l0 _ ?%elem_of_nil.
  - exists (memory_of (records_of logs)). by rewrite L4.
  - done.
  - constructor.
  - exists pre, l. by rewrite Ew.
  - by rewrite Ew.
  - intros j. rewrite drop_nil. cbn [app]. by rewrite L4.
  - intros j. rewrite drop_nil. cbn [app]. by rewrite L4, Ew.
  - constructor.
  - done.
Qed.

Lemma dtriple_engine_open s levels logs told :
  dtriple may (fun d => opening dir s levels logs told (u64_max + 1) d /\ (forall i, flushed d i) /\ open_in_limits d)
    (engine_open dir config) (fun e d => holds e told d) (fun d => keeps dir d (eq told)).
Proof.
  intros w0 (Hm0 & Ho0 & Hf0 & Hlim). set (d0 := disk w0) in *. set (P m d := at_names s levels logs told d0 m d).
  set (listing := listing_of (map_to_list (names d0)).*1).
  assert (forall m d, P m d -> keeps dir d (eq told)) as HC by (intros m d [Ho _]; by eapply opening_keeps).
  enough (dtriple may (P (names d0)) (engine_open dir config)
    (fun e d => holds e told d) (fun d => keeps dir d (eq told))) as Hmain by by apply (Hmain w0).
  unfold engine_open. eapply (dtriple_bind may _ _ _ (fun _ => P (names d0))).
  { apply dtriple_plain; [|apply HC]. intros d Hd. by exists tt. }
  intros u. cbv beta zeta. eapply (dtriple_bind may _ _ _ (fun r d => r = listing /\ P (names d0) d)).
  { eapply (dtriple_bind may _ _ _ (fun r d => r = (map_to_list (names d0)).*1 /\ P (names d0) d)).
    - apply dtriple_plain; [|apply HC]. intros d Hd. eexists. split; [done|]. split; [|done]. by destruct Hd as (_ & _ & ->).
    - intros r. apply dtriple_pure. intros ->. by apply dtriple_ret. }
  intros r. apply dtriple_pure. intros ->. eapply dtriple_bind.
  { apply (dtriple_remove_files dir may s levels logs told _ d0 (ls_partial listing) (names d0)).
    - by eapply scanned.
    - intros n. by eapply partial_spare. }
  intros u'. eapply dtriple_bind.
  { apply (dtriple_manifest_load may honest (P (without (ls_partial listing) (names d0)))) with (s := s); [|apply HC].
    intros d [Ho _]. by destruct (ms_in _ _ (ly_manifest _ _ _ _ _ _ _ _ (og_layout _ _ _ _ _ _ _ Ho)) _ (candidates_names d)) as (? & <- & ?). }
  intros r. apply dtriple_pure. intros ->. eapply (dtriple_bind may _ _ _ (fun r d => r = sn_of s /\ P _ d)).
  { apply dtriple_lift. intros d Hd. destruct s as [sn|]; [done|]. cbn [sn_of default].
    assert (ls_tables listing = []) as ->; [|done]. apply elem_of_nil_inv. intros k Hk.
    pose proof (og_tables _ _ _ _ _ _ _ Ho0 eq_refl) as Hn. eapply (ld_tables _ _ (scanned None levels logs told d0 Ho0)) in Hk as [_ [i Hi]%elem_of_names].
    by rewrite (Hn _ k (candidates_names d0)) in Hi. }
  intros r. apply dtriple_pure. intros ->. eapply dtriple_bind.
  { apply (dtriple_remove_files dir may s levels logs told _ d0 (orphans listing (sn_of s)) (without (ls_partial listing) (names d0))).
    - by eapply orphans_NoDup.
    - intros n. by eapply orphan_spare. }
  intros u''. destruct (alt_shape s levels (og_alt _ _ _ _ _ _ _ Ho0)) as (Hshape & Hnewest & _). eapply dtriple_bind.
  { apply (dtriple_open_levels dir may (P (without (orphans listing (sn_of s)) (without (ls_partial listing) (names d0)))) _ _ _ levels Hshape Hnewest); [|apply HC].
    intros d t [Ho _] Ht. by apply (proj1 (Forall_forall _ _) (ly_tables _ _ _ _ _ _ _ _ (og_layout _ _ _ _ _ _ _ Ho))). }
  intros levels'. apply dtriple_pure. intros [Hne Epad]. cbv zeta.
  destruct (scanned_next s levels logs told d0 Ho0 Hlim) as (H0 & Hnext & _).
  set (next := Z.max (ls_next_number listing) (sn_next_number (sn_of s))) in *. fold listing next in H0, Hnext.
  eapply dtriple_bind.
  { rewrite (scanned_logs s levels logs told d0 Ho0 : ls_logs listing = _).
    destruct (replayed_represents (records_of logs) (cf_memtable_bytes config)) as (t & Et & _).
    { apply Ho0. }
    { rewrite <- (scanned_records s levels logs told d0 Ho0). apply Hlim. }
    eapply dtriple_weaken; [apply (dtriple_open_logs s levels logs told next (sn_last_seq (sn_of s)) t Et)|..].
    - lia.
    - apply Ho0.
    - intros d Hd. split; [by eapply tidied_opening|]. intros l _. by eapply at_names_flushed.
    - intros r d Hq. exact Hq.
    - done. }
  intros [[[wal active] names'] next']. apply dtriple_ret. intros d (Hn & alogs & Hlo).
  apply (opened_holds s levels levels' logs told d0 d next (wal, active, names', next') alogs); try done.
  - by eapply scanned_records.
  - intros t Ht. by eapply scanned_number.
  - cbn in *. lia.
Qed.
End Opened.
