(* ===== verification/Logging.v ===== *)
(** * What a call of the log leaves on the disk

    The sections of [Wal] again, this time for all they do to the directory: with one
    caller at a time, a call changes the log's own file and nothing else. An append
    that is acknowledged has its record there, on the device; one that is not leaves
    the file as it was, or with some of the record's bytes after it. *)

From S2P Require Import Prelude Checksum Coding WalRecord WalReplay Wal WalAlone Disk Manifest Crashes Layout.

(** The fields the sections between an append and its flush leave alone. *)
Record still (a b : Wal) : Prop := {
  st_file : wl_file b = wl_file a;
  st_policy : wl_policy b = wl_policy a;
  st_last : wl_last_seq b = wl_last_seq a;
  st_durable : wl_durable b = wl_durable a;
}.

Lemma still_refl a : still a a.
Proof. done. Qed.

Lemma still_trans a b c : still a b -> still b c -> still a c.
Proof. intros [] []. split; congruence. Qed.

(** [write_pending]: the buffer at the end of the file, or some of it. *)
Lemma write_pending_disk self w r self' w' :
  write_pending (self, w) = (r, (self', w')) ->
  still self self' /\
  match r with
  | Ok _ => wl_buf self' = [] /\ wl_failed self' = wl_failed self /\
      disk w' = (match wl_buf self with [] => disk w | buf => append_data (disk w) (wl_file self) buf end) /\
      wl_written self' = (match wl_buf self with [] => wl_written self | _ => wl_last_seq self end)
  | Err _ => wl_buf self <> [] /\ exists n, disk w' = append_data (disk w) (wl_file self) (take n (wl_buf self))
  end.
Proof.
  unfold write_pending, getw. run_stm. cbn [fst]. destruct (wl_buf self) as [|b bs] eqn:Eb.
  { by intros [= <- <- <-]. }
  unfold count_write, write_out, on_world. run_stm. cbn [fst wl_path wl_file].
  destruct (disk_write _ _ _ w) as [[[]|e] w1] eqn:E; unfold set_pending, set_failed, getw, lift; run_stm; intros [= <- <- <-];
    apply call_cases in E as [[Hr Hd]|(e' & n & Hr & Hd)]; cbn in *; try done.
  split; [done|]. split; [done|]. by exists n.
Qed.

(** [flush_log]: the file on the device, or nothing. *)
Lemma flush_log_disk self w r self' w' :
  flush_log (self, w) = (r, (self', w')) ->
  still self self' /\ wl_buf self' = wl_buf self /\ wl_failed self' = wl_failed self /\ wl_written self' = wl_written self /\
  match r with Ok _ => disk w' = synced (disk w) (wl_file self) | Err _ => disk w' = disk w end.
Proof.
  unfold flush_log, getw, count_flush, on_world. run_stm. cbn [fst wl_path wl_file].
  destruct (disk_sync _ _ w) as [r1 w1] eqn:E. intros [= <- <- <-]. split_and!; [done..|].
  apply call_cases in E as [[-> Hd]|(e' & n & -> & Hd)]; done.
Qed.

(** A property of every phase that the steps keep holds where the caller ends. *)
Lemma run_thread_inv (I : phase -> Wal * World -> Prop) :
  (forall p s, I p s -> I (fst (thread_step p s)) (snd (thread_step p s))) ->
  forall fuel p s r s', I p s -> run_thread fuel p s = Some (r, s') -> I (Finished r) s'.
Proof.
  intros Hstep. induction fuel as [|fuel IH]; intros p s r s' Hp; cbn [run_thread].
  - destruct p; try done. by intros [= <- <-].
  - specialize (Hstep p s Hp). destruct p; try (destruct (thread_step _ s) as [p1 s1]; cbn [fst snd] in Hstep; by apply IH).
    by intros [= <- <-].
Qed.

(** ** One append *)

Section Append.
Context (key : bytes) (value : option bytes) (wal0 : Wal) (d0 : Disk).
Context (Hlast : 0 <= wl_last_seq wal0 < u64_max) (Hdurable : wl_durable wal0 <= wl_last_seq wal0).
Context (Hbuf : wl_buf wal0 = []) (Hfailed : wl_failed wal0 = false) (Hpolicy : wl_policy wal0 = Always \/ wl_policy wal0 = Group).

#[local] Abbreviation seq := (wl_last_seq wal0 + 1).
#[local] Abbreviation rec := (make_record seq key value).
#[local] Abbreviation i := (wl_file wal0).
#[local] Abbreviation bs := (frame (payload rec)).

(** What an append that is not acknowledged may leave. *)
Inductive wrote : Disk -> Prop :=
  | wrote_nothing : wrote d0
  | wrote_part n : record_fits rec -> wrote (append_data d0 i (take n bs)).

(** The record is in the file, perhaps not on the device. *)
Definition written (self : Wal) (d : Disk) : Prop :=
  record_fits rec /\ d = append_data d0 i bs /\ wl_buf self = [] /\ wl_written self = seq /\ wl_durable self <= wl_last_seq wal0.

Definition buffered (self : Wal) (d : Disk) : Prop :=
  record_fits rec /\ d = d0 /\ wl_buf self = bs /\ wl_durable self <= wl_last_seq wal0.

Definition on_device (d : Disk) : Prop := record_fits rec /\ d = synced (append_data d0 i bs) i.

(** The log, once the record has its number. *)
Record numbered_log (self : Wal) : Prop := {
  nl_file : wl_file self = i;
  nl_policy : wl_policy self = wl_policy wal0;
  nl_last : wl_last_seq self = seq;
  nl_failed : wl_failed self = false;
}.

(** Where an append stands. *)
Definition append_at (p : phase) (s : Wal * World) : Prop :=
  let '(self, w) := s in
  match p with
  | Checking k v | Appending k v => k = key /\ v = value /\ disk w = d0 /\ still wal0 self /\ wl_buf self = [] /\ wl_failed self = false
  | Syncing n => n = seq /\ numbered_log self /\
      (buffered self (disk w) \/ written self (disk w) \/ (on_device (disk w) /\ wl_buf self = [] /\ wl_durable self = seq))
  | Writing n => n = seq /\ numbered_log self /\ (buffered self (disk w) \/ written self (disk w))
  | Flushing n t => n = seq /\ t = seq /\ numbered_log self /\ written self (disk w)
  | Leaving n (Ok t) => n = seq /\ t = seq /\ numbered_log self /\ on_device (disk w) /\ wl_buf self = [] /\ wl_durable self <= wl_last_seq wal0
  | Leaving _ (Err _) => wrote (disk w)
  | Finished (Ok n) => n = seq /\ numbered_log self /\ on_device (disk w) /\ wl_buf self = [] /\ wl_durable self <= seq
  | Finished (Err _) => wrote (disk w)
  end.

Lemma wrote_whole : record_fits rec -> wrote (append_data d0 i bs).
Proof. intros Hf. pose proof (wrote_part (length bs) Hf) as H. by rewrite take_ge in H by done. Qed.

Lemma frame_some p : frame p <> [].
Proof. intros E. apply (f_equal zlen) in E. rewrite zlen_frame in E. pose proof (zlen_nonneg p).
  unfold HEADER_LEN in E. change (zlen (@nil Byte.byte)) with 0 in E. lia. Qed.

Lemma append_locked_at self w : append_at (Appending key value) (self, w) ->
  append_at (fst (thread_step (Appending key value) (self, w))) (snd (thread_step (Appending key value) (self, w))).
Proof.
  intros (_ & _ & Hd & [S1 S2 S3 S4] & Hb & Hfl). cbn [thread_step].
  destruct (append_locked key value (self, w)) as [r [self' w']] eqn:E. unfold append_locked in E.
  unfold getw, set_pending, set_last_seq in E. run_stm. cbn [fst] in E.
  rewrite S3, wrap64_small in E by (unfold u64_ok; lia).
  rewrite (encode_eq seq key value (wl_buf self)) in E. cbn zeta in E.  rewrite Hb in E. cbn [app] in E.
  destruct (decide (record_fits rec)) as [Hfits|Hnot]; cbn [fst wl_buf wl_policy] in E.
  2:{ injection E as <- <- <-. cbn. rewrite Hd. constructor. }
  rewrite S2 in E. destruct Hpolicy as [Hp|Hp]; rewrite Hp in E; cbn [bool_decide] in E.
  - rewrite bool_decide_true in E by done. match type of E with context [write_pending (?st, _)] => set (s1 := st) in * end.
    destruct (write_pending (s1, w)) as [r1 [s2 w2]] eqn:E2. pose proof (write_pending_disk _ _ _ _ _ E2) as [[W1 W2 W3 W4] Hw].
    cbn [s1 wl_buf wl_file wl_written wl_last_seq wl_failed wl_policy wl_durable] in *. rewrite S1 in *.
    destruct r1 as [[]|e].
    + destruct Hw as (Hw1 & Hw2 & Hw3 & Hw4). rewrite Hd in Hw3.
      destruct (flush_log (s2, w2)) as [r3 [s3 w3]] eqn:E3. pose proof (flush_log_disk _ _ _ _ _ E3) as ([F1 F2 F3 F4] & Hf1 & Hf2 & Hf3 & Hf4).
      assert (disk w2 = append_data d0 i bs) as Hdw by (rewrite Hw3; by destruct (frame (payload rec)) eqn:Ef; [apply frame_some in Ef|]).
      destruct r3 as [[]|e]; injection E as <- <- <-.
      * cbn [fst snd]. rewrite F2, W2, bool_decide_false by (rewrite ?S2, ?Hp; done). cbn. split_and!; [done| | |congruence|lia].
        -- split; congruence.
        -- split; [done|]. by rewrite Hf4, Hdw, W1.
      * cbn. rewrite Hf4, Hdw. by apply wrote_whole.
    + injection E as <- <- <-. cbn. destruct Hw as (_ & n & ->). rewrite Hd. by constructor.
  - rewrite bool_decide_false in E by done. destruct (MAX_PENDING_BYTES <=? zlen bs).
    + match type of E with context [write_pending (?st, _)] => set (s1 := st) in * end.
      destruct (write_pending (s1, w)) as [r1 [s2 w2]] eqn:E2. pose proof (write_pending_disk _ _ _ _ _ E2) as [[W1 W2 W3 W4] Hw].
      cbn [s1 wl_buf wl_file wl_written wl_last_seq wl_failed wl_policy wl_durable] in *. rewrite S1 in *.
      destruct r1 as [[]|e]; injection E as <- <- <-.
      * destruct Hw as (Hw1 & Hw2 & Hw3 & Hw4). rewrite Hd in Hw3. cbn [fst snd].
        rewrite W2, bool_decide_true by (rewrite ?S2, ?Hp; done). cbn. split_and!; [done|split; congruence|]. right. left.
        destruct (frame (payload rec)) eqn:Ef; [by apply frame_some in Ef|]. rewrite <- Ef in *. split_and!; [done|congruence|done|done|lia].
      * cbn. destruct Hw as (_ & n & ->). rewrite Hd. by constructor.
    + injection E as <- <- <-. cbn [fst snd wl_policy]. rewrite bool_decide_true by done. cbn. split_and!; [done|split; cbn; congruence|].
      left. split_and!; [done|done|done|]. cbn. lia.
Qed.

Lemma append_at_step p s : append_at p s -> append_at (fst (thread_step p s)) (snd (thread_step p s)).
Proof.
  destruct s as [self w]. destruct p as [k v|k v|n|n|n t|n [t|e]|r]; cbn [append_at].
  - intros (-> & -> & Hd & Hst & Hb & Hfl). cbn [thread_step]. unfold refuse_if_failed, getw, set_error. run_stm. cbn [fst].
    destruct (wl_background_error self); cbn; [rewrite Hd; constructor|]. rewrite Hfl. cbn. by split_and!.
  - intros (-> & -> & Hrest). apply append_locked_at. by split; [|split].
  - intros (-> & Hnl & Hc). pose proof Hnl as [N1 N2 N3 N4]. cbn [thread_step]. unfold sync_enter, getw, set_sync. run_stm. cbn [fst].
    destruct (Z.leb_spec seq (wl_durable self)) as [Hle|Hgt].
    + destruct Hc as [(_ & _ & _ & ?)|[(_ & _ & _ & _ & ?)|(Hon & Hb & Hdu)]]; [lia..|]. cbn. split_and!; [done..|lia].
    + rewrite N4. destruct (wl_in_progress self); cbn; [by split_and!|]. split_and!; [done|split; done|].
      destruct Hc as [(? & ? & ? & ?)|[(? & ? & ? & ? & ?)|(_ & _ & ?)]]; [left; by split_and!|right; by split_and!|lia].
  - intros (-> & Hnl & Hc). pose proof Hnl as [N1 N2 N3 N4]. cbn [thread_step]. unfold write_section, getw. run_stm.
    destruct (write_pending (self, w)) as [r1 [s2 w2]] eqn:E2. pose proof (write_pending_disk _ _ _ _ _ E2) as [[W1 W2 W3 W4] Hw].
    destruct r1 as [[]|e]; cbn [fst snd].
    + destruct Hw as (Hw1 & Hw2 & Hw3 & Hw4).
      assert (written s2 (disk w2) /\ wl_written s2 = seq) as [Hwr Hws].
      { destruct Hc as [(Hf & Hd & Hb & Hdu)|(Hf & Hd & Hb & Hws & Hdu)]; rewrite Hb in *.
        - destruct (frame (payload rec)) eqn:Ef; [by apply frame_some in Ef|]. rewrite <- Ef in *. unfold written. rewrite Hw4, Hw3, Hd, N1, N3, W4. done.
        - unfold written. rewrite Hw4, Hw3, Hd, Hws, W4. done. }
      cbn. split_and!; [done|congruence|split; congruence|done..].
    + cbn. destruct Hw as (Hne & n & ->). destruct Hc as [(Hf & Hd & Hb & Hdu)|(_ & _ & Hb & _)]; [|done].
      rewrite Hd, Hb, N1. by constructor.
  - intros (-> & -> & Hnl & (Hf & Hd & Hb & Hws & Hdu)). pose proof Hnl as [N1 N2 N3 N4]. cbn [thread_step].
    destruct (flush_log (self, w)) as [r3 [s3 w3]] eqn:E3. pose proof (flush_log_disk _ _ _ _ _ E3) as ([F1 F2 F3 F4] & Hf1 & Hf2 & Hf3 & Hf4).
    destruct r3 as [[]|e]; cbn.
    + split_and!; [done|done|split; congruence|split; [done|congruence]|congruence|lia].
    + rewrite Hf4, Hd. by apply wrote_whole.
  - intros (-> & -> & Hnl & Hon & Hb & Hdu). cbn [thread_step]. unfold sync_leave, getw, set_sync. run_stm. cbn. pose proof Hnl as [N1 N2 N3 N4].
    split_and!; [done|split; done|]. right. right. split_and!; [done|done|]. lia.
  - intros Hw. cbn [thread_step]. unfold sync_leave, getw, set_sync. by run_stm.
  - done.
Qed.

(** [Wal::set] and [Wal::delete]. *)
Lemma wal_append_disk w r self' w' :
  disk w = d0 -> wal_append key value (wal0, w) = Some (r, (self', w')) ->
  match r with
  | Ok n => n = seq /\ numbered_log self' /\ on_device (disk w') /\ wl_buf self' = [] /\ wl_durable self' <= seq
  | Err _ => wrote (disk w')
  end.
Proof.
  intros Hd. unfold wal_append. generalize THREAD_FUEL. intros fuel Hrun.
  pose proof (run_thread_inv append_at append_at_step fuel (Checking key value) (wal0, w) _ _
    (conj eq_refl (conj eq_refl (conj Hd (conj (still_refl wal0) (conj Hbuf Hfailed))))) Hrun) as H.
  exact H.
Qed.
End Append.

(** ** Flushing *)

(** A log with nothing in its buffer. *)
Record drained (wal0 self : Wal) : Prop := {
  dr_still : wl_file self = wl_file wal0 /\ wl_policy self = wl_policy wal0 /\ wl_last_seq self = wl_last_seq wal0;
  dr_buf : wl_buf self = [];
  dr_failed : wl_failed self = false;
  dr_written : wl_written self = wl_last_seq wal0;
  dr_durable : wl_durable self <= wl_last_seq wal0;
}.

Lemma drained_start self : tidy self -> wl_buf self = [] -> wl_failed self = false -> wl_durable self <= wl_last_seq self -> drained self self.
Proof. intros [_ Ht] Hb Hf Hd. by split; auto. Qed.

Section Flushes.
Context (wal0 : Wal) (P : Disk -> Prop) (HP : forall d, P d -> P (synced d (wl_file wal0))).

Lemma drained_flush self w r self' w' :
  drained wal0 self -> P (disk w) -> flush_log (self, w) = (r, (self', w')) -> drained wal0 self' /\ P (disk w').
Proof.
  intros [(D1 & D2 & D3) D4 D5 D6 D7] Hp ([F1 F2 F3 F4] & Hf1 & Hf2 & Hf3 & Hf4)%flush_log_disk. split.
  - split; [split_and!; congruence|congruence|congruence|congruence|lia].
  - destruct r; rewrite Hf4; [rewrite D1; by apply HP|done].
Qed.

Lemma drained_write self w : drained wal0 self -> write_section (self, w) = (Ok (wl_last_seq wal0), (self, w)).
Proof. intros [_ Hb _ Hw _]. unfold write_section, write_pending, getw. run_stm. cbn [fst]. rewrite Hb. cbn. by rewrite Hw. Qed.

(** Where a flush stands. *)
Definition sync_at (p : phase) (s : Wal * World) : Prop :=
  drained wal0 (fst s) /\ P (disk (snd s)) /\
  match p with Checking _ _ | Appending _ _ => False | Flushing _ t | Leaving _ (Ok t) => t = wl_last_seq wal0 | _ => True end.

Lemma sync_at_step p s : sync_at p s -> sync_at (fst (thread_step p s)) (snd (thread_step p s)).
Proof.
  destruct s as [self w]. intros (Hdr & Hp & Hph). cbn [fst snd] in *.
  destruct p as [k v|k v|n|n|n t|n fl|r]; try done; cbn [thread_step].
  - pose proof Hdr as [(D1 & D2 & D3) D4 D5 D6 D7]. unfold sync_enter, getw, set_sync. run_stm. cbn [fst]. rewrite D5.
    destruct (n <=? wl_durable self); [by split_and!|]. destruct (wl_in_progress self); by split_and!.
  - rewrite drained_write by done. by split_and!.
  - destruct (flush_log (self, w)) as [r1 [s1 w1]] eqn:E. apply drained_flush in E as [Hdr1 Hp1]; [|done..]. by destruct r1; split_and!.
  - pose proof Hdr as [(D1 & D2 & D3) D4 D5 D6 D7]. unfold sync_leave, getw, set_sync. run_stm. cbn [fst snd].
    destruct fl as [t|e]; (split; [split|]); cbn; try done; lia.
Qed.

(** [Wal::sync]. *)
Lemma wal_sync_disk w r self' w' :
  drained wal0 wal0 -> P (disk w) -> wal_sync (wal0, w) = Some (r, (self', w')) -> drained wal0 self' /\ P (disk w').
Proof.
  intros Hd Hp. unfold wal_sync. generalize THREAD_FUEL. intros fuel Hrun.
  destruct (run_thread_inv sync_at sync_at_step fuel (Syncing (wl_last_seq wal0)) (wal0, w) _ _ (conj Hd (conj Hp I)) Hrun) as (Hdr & Hp' & _). done.
Qed.

(** [Drop for Wal]. *)
Lemma wal_drop_disk w : drained wal0 wal0 -> P (disk w) -> P (disk (snd (wal_drop (wal0, w)))).
Proof.
  intros Hd Hp. unfold wal_drop, write_and_flush. run_stm. rewrite drained_write by done.
  destruct (flush_log (wal0, w)) as [r1 [s1 w1]] eqn:E. apply drained_flush in E as [_ Hp1]; [|done..]. by destruct r1.
Qed.
End Flushes.
