(* ===== verification/Making.v ===== *)
(** * Tables, the manifest, and what is removed, on the disk

    The calls that make a table and put it in the store, each as a crash triple over
    [layout]: a file under a temporary name is nothing to the store; complete and on
    the device it takes its name; the manifest that counts it in replaces the one
    before; and only then are the logs or the tables it stands for removed. *)

From stdpp Require Import sorting.
From S2P Require Import Prelude Checksum Coding WalRecord WalReplay Wal Memtable SsTable Disk Manifest Naming.
From S2P Require Import Compaction Layers Engine Store Shape Crashes Triples Layout Recovery Opened.

Lemma partial_name_inj k k' : u64_ok k -> u64_ok k' -> partial_name k = partial_name k' -> k = k'.
Proof.
  intros H H' E. unfold partial_name in E. apply (f_equal rsplit_dot) in E. rewrite !rsplit_app in E by done.
  injection E as E. by apply file_name_inj in E as [? _].
Qed.

Lemma partial_not_temp k : TEMP_NAME <> partial_name k.
Proof.
  intros E. unfold partial_name in E. apply (f_equal rsplit_dot) in E. rewrite rsplit_app in E by done. cbn in E.
  injection E as E. apply (f_equal extension) in E. by rewrite extension_file_name in E.
Qed.

(** ** The log being written *)

(** A log whose file is just its records, all of it on the device. *)
Definition whole (l : LogFile) (d : Disk) : Prop := contents d (lf_inode l) = log_file (lf_records l) /\ flushed d (lf_inode l).

Lemma flushed_other d i j : flushed d i -> flushed (synced d j) i.
Proof.
  intros Hf. destruct (decide (i = j)) as [->|Hne]; [apply flushed_synced|]. unfold flushed.
  rewrite floor_synced_other by done. exact Hf.
Qed.

Lemma whole_sync l d i : whole l d -> whole l (synced d i).
Proof. intros [Hc Hf]. split; [by rewrite contents_synced|by apply flushed_other]. Qed.

Lemma whole_scratch dir l d P ts gone logs born next name i bs n : layout dir d P ts gone logs born next -> l ∈ logs ->
  names d !! name = Some i -> is_tmp name -> whole l d -> whole l (set_data d i bs n).
Proof.
  intros Hl Hin Hn Ht [Hc Hf]. destruct (layout_lasting _ _ _ _ _ _ _ _ l Hl) as [Hn' _]; [apply elem_of_app; by left|].
  assert (i <> lf_inode l) as Hne.
  { intros ->. apply (tmp_not_log name (lf_number l) Ht). eapply dok_inj; [apply Hl|apply candidates_names|done|done]. }
  split; [by rewrite contents_set_data, decide_False|]. unfold flushed in *. rewrite contents_set_data, decide_False by done.
  unfold floor_of, set_data. cbn. by rewrite lookup_insert_ne.
Qed.

Lemma whole_create dir l d P ts gone logs born next name : layout dir d P ts gone logs born next -> l ∈ logs ->
  names d !! name = None -> whole l d -> whole l (snd (create_run name d)).
Proof.
  intros Hl Hin Hn [Hc Hf]. destruct (layout_lasting _ _ _ _ _ _ _ _ l Hl) as [Hn' _]; [apply elem_of_app; by left|].
  assert (fresh_inode d <> lf_inode l) as Hne.
  { intros E. rewrite <- E in Hn'. eapply fresh_not in Hn'; [done|apply Hl|apply candidates_names]. }
  unfold whole, flushed in *. by rewrite (created_contents d name Hn), (created_floor d name Hn), !decide_False.
Qed.

(** With it, the logs [ps] that have to stay until they are removed. *)
Definition steady (l : LogFile) (ps : list LogFile) (d : Disk) : Prop := whole l d /\ pinned d ps.

(** A change of the directory that does not touch its logs. *)
Lemma pinned_names d m ps : pinned d ps -> (forall k, m !! log_name k = names d !! log_name k) -> pinned (set_names d m) ps.
Proof. intros Hp Hm. eapply pinned_same; [exact Hp|by intros c ?%candidates_set_names|by intros]. Qed.

(** [Wal::create] leaves the other logs where they are. *)
Lemma triple_call_keeps {A} (I : Disk -> Prop) path (run : Disk -> result A * Disk) fail :
  (forall d, I d -> I (snd (run d))) -> (forall n d, I d -> I (fail n d)) ->
  triple (fun w => I (disk w)) (call path run fail) (fun _ w => I (disk w)) (fun w => I (disk w)).
Proof.
  intros Hrun Hfail w Hw. destruct (call path run fail w) as [r w'] eqn:E.
  apply call_cases in E as [(-> & Hd)|(err & n & -> & Hd)]; [destruct (fst (run (disk w)))|]; rewrite Hd; auto.
Qed.

Lemma pinned_created d name ps : pinned d ps -> (forall l, l ∈ ps -> name <> log_name (lf_number l)) -> pinned (snd (create_run name d)) ps.
Proof.
  intros Hp Hl. destruct (names d !! name) as [i|] eqn:E; [unfold create_run; by rewrite E|]. eapply pinned_same; [exact Hp|..].
  - intros c. rewrite created_candidates, created_names by done. done.
  - intros l Hin. rewrite created_names by done. rewrite lookup_insert_ne; [done|by apply Hl].
Qed.

Lemma pinned_wal_create path name policy last_seq ps w : (forall l, l ∈ ps -> name <> log_name (lf_number l)) ->
  pinned (disk w) ps -> pinned (disk (snd (wal_create path name policy last_seq w))) ps.
Proof.
  intros Hne Hw. set (I := fun w : World => pinned (disk w) ps).
  enough (triple I (wal_create path name policy last_seq) (fun _ => I) I) as Ht.
  { specialize (Ht w Hw). by destruct (wal_create path name policy last_seq w) as [[]]. }
  assert (forall A (r : result A), triple I (lift r) (fun _ => I) I) as Hlift by (intros A [a|err] w0; done).
  assert (forall i len, triple I (truncate i path len) (fun _ => I) I) as Htr.
  { intros i len. eapply triple_bind with (Q := fun _ => I); [|intros _]; by apply (triple_call_keeps (fun d => pinned d ps)). }
  assert (forall i bs, triple I (disk_write path i bs) (fun _ => I) I) as Hwr by (intros i bs; by apply (triple_call_keeps (fun d => pinned d ps))).
  assert (forall i, triple I (disk_sync path i) (fun _ => I) I) as Hsy by (intros i; by apply (triple_call_keeps (fun d => pinned d ps))).
  unfold wal_create, wal_recover. eapply triple_bind with (Q := fun _ => I); [|intros []; by apply triple_ret].
  eapply triple_bind with (Q := fun _ => I).
  { unfold wal_replay. eapply triple_bind with (Q := fun _ => I); [|intros bs; apply Hlift]. intros w0 Hw0. unfold open_log.
    pose proof (triple_call_keeps (fun d => pinned d ps) path (read_run path name) no_effect) as Hr.
    specialize (Hr ltac:(intros d Hd; unfold read_run; by destruct (names d !! name)) ltac:(done) w0 Hw0). fold (disk_read path name) in Hr.
    destruct (disk_read path name w0) as [[bs|err] w1]; [done|]. destruct err as [p [[] m]| | |]; exact Hr. }
  intros replay. destruct (drain_all replay) as [drained replay']. eapply triple_bind with (Q := fun _ => I); [apply Hlift|]. intros recs.
  eapply triple_bind with (Q := fun _ => I).
  { apply (triple_call_keeps (fun d => pinned d ps)); [|done]. intros d Hd. unfold open_append_run. destruct (names d !! name); [done|].
    by apply pinned_created. }
  intros i. eapply triple_bind with (Q := fun _ => I); [|intros _; by apply triple_ret].
  destruct (_ =? 0); [|destruct (bool_decide _); [apply Htr|by apply triple_ret]].
  eapply triple_bind with (Q := fun _ => I); [apply Htr|intros _]. eapply triple_bind with (Q := fun _ => I); [apply Hwr|intros _; apply Hsy].
Qed.

Lemma steady_sync l ps d i : steady l ps d -> steady l ps (synced d i).
Proof. intros [Hw Hp]. split; [by apply whole_sync|exact Hp]. Qed.

Lemma steady_scratch dir l ps d P ts gone logs born next name i bs n : layout dir d P ts gone logs born next -> l ∈ logs ->
  names d !! name = Some i -> is_tmp name -> steady l ps d -> steady l ps (set_data d i bs n).
Proof. intros Hl Hin Hn Ht [Hw Hp]. split; [by eapply whole_scratch|exact Hp]. Qed.

Lemma steady_create dir l ps d P ts gone logs born next name : layout dir d P ts gone logs born next -> l ∈ logs ->
  names d !! name = None -> is_tmp name -> steady l ps d -> steady l ps (snd (create_run name d)).
Proof.
  intros Hl Hin Hn Ht [Hw Hp]. split; [by eapply whole_create|]. apply pinned_created; [done|]. intros k _. by apply tmp_not_log.
Qed.

Lemma steady_names l ps d m : steady l ps d -> (forall k, m !! log_name k = names d !! log_name k) -> steady l ps (set_names d m).
Proof. intros [Hw Hp] Hm. split; [exact Hw|by apply pinned_names]. Qed.

Lemma steady_dir_synced l ps d : steady l ps d -> steady l ps (dir_synced d).
Proof.
  intros [Hw Hp]. split; [exact Hw|]. intros c x ->%dir_synced_candidates Hx. apply Hp; [apply candidates_names|done].
Qed.

Section Making.
Context (dir : string) (man : option Snapshot) (ts : list Table) (logs : list LogFile) (l : LogFile) (Hin : l ∈ logs) (ps : list LogFile).
Implicit Types (d : Disk) (gone : list LogFile) (next k : Z) (i : nat) (outs : list Table).

(** ** A table on its way *)

(** Under its name and on the device, though perhaps not yet in every directory a
    crash may bring back. *)
Definition sealed d (t : Table) : Prop :=
  exists i, names d !! table_name (number_of t) = Some i /\ i ∈ clean d /\
    sst_opened (join dir (table_name (number_of t))) (contents d i) = Ok (tb_table t).

Definition making gone outs next d : Prop :=
  layout dir d (eq man) ts gone logs [] next /\ steady l ps d /\ forall t, t ∈ outs -> sealed d t.

(** A file for table [k], under its temporary name. *)
Definition partial k i d : Prop := names d !! partial_name k = Some i /\ names d !! table_name k = None.

(** A file for table [k], complete. *)
Definition placed k (bs : bytes) d : Prop :=
  exists i, names d !! table_name k = Some i /\ i ∈ clean d /\ contents d i = bs.

Lemma sealed_still d d' t : sealed d t ->
  (forall i, names d !! table_name (number_of t) = Some i ->
     names d' !! table_name (number_of t) = Some i /\ contents d' i = contents d i /\ (i ∈ clean d -> i ∈ clean d')) -> sealed d' t.
Proof.
  intros (i & Hn & Hc & Ho) Hs. destruct (Hs i Hn) as (Hn' & Hc' & Hcl). exists i. split_and!; [done|auto|by rewrite Hc'].
Qed.

(** Bytes of a file under a temporary name are nobody's. *)
Lemma making_scratch gone outs next d name i bs n :
  making gone outs next d -> names d !! name = Some i -> is_tmp name -> (n <= length bs)%nat ->
  making gone outs next (set_data d i bs n).
Proof.
  intros (Hl & Hw & Hs) Hn Ht Hle. split; [by eapply layout_scratch|]. split; [by eapply steady_scratch|]. intros t Hint. eapply sealed_still; [by apply Hs|].
  intros j Hj. assert (i <> j) as Hne.
  { intros ->. apply (tmp_not_table name (number_of t) Ht). eapply dok_inj; [apply Hl|apply candidates_names|done|done]. }
  split_and!; [done|by rewrite contents_set_data, decide_False|]. cbn. set_solver.
Qed.

Lemma making_sync gone outs next d i : making gone outs next d -> making gone outs next (synced d i).
Proof.
  intros (Hl & Hw & Hs). split; [by apply layout_sync|]. split; [by apply steady_sync|]. intros t Hint. eapply sealed_still; [by apply Hs|]. intros j Hj.
  split_and!; [done|by rewrite contents_synced|]. cbn. set_solver.
Qed.

Lemma dtriple_create_partial gone outs next next' k :
  u64_ok k -> next <= k < next' ->
  dtriple any (making gone outs next) (disk_create (join dir (partial_name k)) (partial_name k))
    (fun i d => making gone outs next' d /\ partial k i d /\ contents d i = []) (making gone outs next).
Proof.
  intros Hu Hk. apply dtriple_plain; [|done]. intros d (Hl & Hw & Hs).
  destruct (do_free _ _ (ly_dir _ _ _ _ _ _ _ _ Hl) k ltac:(lia) Hu) as (_ & Ht & Hp). exists (fresh_inode d).
  assert (fst (create_run (partial_name k) d) = Ok (fresh_inode d)) as -> by (unfold create_run; by rewrite Hp). split; [done|].
  destruct (layout_create_tmp dir d (partial_name k) Hp _ _ _ _ _ next next' Hl) as (Hl' & Hn' & Hc'); [by constructor|auto with names|lia| |].
  { intros k' Hk' Hu' E. apply partial_name_inj in E; [lia|done|done]. }
  assert (forall k', names (snd (create_run (partial_name k) d)) !! table_name k' = names d !! table_name k') as Hother.
  { intros k'. rewrite created_names by done. rewrite lookup_insert_ne; [done|]. auto with names. }
  split; [|split; [by split; [|rewrite Hother]|done]]. split; [done|]. split; [eapply steady_create; eauto with names|].
  intros t Hint. eapply sealed_still; [by apply Hs|]. intros j Hj. rewrite Hother. split_and!; [done| |].
  - rewrite created_contents by done. rewrite decide_False; [done|]. intros <-. eapply fresh_not in Hj; [done|apply Hl|apply candidates_names].
  - apply created_clean; [done|]. intros <-. eapply fresh_not in Hj; [done|apply Hl|apply candidates_names].
Qed.

(** [finish], and the file flushed. *)
Lemma dtriple_writer_close gone outs next k i path wr :
  dtriple any (fun d => making gone outs next d /\ partial k i d /\ contents d i = []) (writer_close path i wr)
    (fun _ d => making gone outs next d /\ partial k i d /\ i ∈ clean d /\ contents d i = w_file (snd (writer_finish wr)))
    (making gone outs next).
Proof.
  unfold writer_close. destruct (writer_finish wr) as [r w]. cbn [snd].
  assert (forall n d, making gone outs next d /\ partial k i d /\ contents d i = [] ->
    making gone outs next (append_data d i (take n (w_file w)))) as Hw.
  { intros n d (Hm & [Hp _] & Hc). unfold append_data. rewrite Hc. eapply making_scratch; [done|exact Hp|auto with names|].
    pose proof (do_floor _ _ (ly_dir _ _ _ _ _ _ _ _ (proj1 Hm)) i) as Hf. rewrite Hc in Hf. cbn in *. lia. }
  eapply (dtriple_bind any _ _ _ (fun _ d => making gone outs next d /\ partial k i d /\ contents d i = [])).
  { apply dtriple_lift. intros d Hd. destruct r; [done|]. split; [apply Hd|apply not_calm_any]. }
  intros []. eapply (dtriple_bind any _ _ _ (fun _ d => making gone outs next d /\ partial k i d /\ contents d i = w_file w)).
  { apply dtriple_call; [|intros n d Hd; by apply Hw]. intros d Hd. exists tt. cbn [fst snd]. split; [done|]. split_and!.
    - specialize (Hw (length (w_file w)) d Hd). by rewrite take_ge in Hw by done.
    - apply Hd.
    - rewrite contents_append. by destruct Hd as (_ & _ & ->). }
  intros []. apply dtriple_plain; [|by intros d []]. intros d (Hm & Hp & Hc). exists tt. cbn [fst snd]. fold (synced d i).
  split; [done|]. split_and!; [by apply making_sync|done|cbn; set_solver|by rewrite contents_synced].
Qed.

(** The table takes its name. *)
Lemma dtriple_rename_table gone outs next k i bs path :
  u64_ok k -> k < next ->
  dtriple any (fun d => making gone outs next d /\ partial k i d /\ i ∈ clean d /\ contents d i = bs)
    (disk_rename path (partial_name k) (table_name k))
    (fun _ d => making gone outs next d /\ placed k bs d) (making gone outs next).
Proof.
  intros Hu Hk. apply dtriple_plain; [|by intros d []]. intros d ((Hl & Hw & Hs) & [Hp Ht] & Hcl & Hc). exists tt. unfold rename_run. rewrite Hp.
  cbn [fst snd]. split; [done|]. split; [split; [|split]|].
  - by apply layout_rename_table.
  - apply (steady_names l ps d); [done|]. intros k'. rewrite lookup_insert_ne, lookup_delete_ne; [done|auto with names..].
  - intros t Hint. eapply sealed_still; [by apply Hs|]. intros j Hj. split_and!; [|done|done]. cbn.
    rewrite lookup_insert_ne, lookup_delete_ne; [done|auto with names|congruence].
  - exists i. split_and!; [|done|done]. cbn. by rewrite lookup_insert_eq.
Qed.

(** Opening changes nothing. *)
Lemma dtriple_table_open_any (P : Disk -> Prop) path name :
  dtriple any P (table_open path name)
    (fun tbl d => P d /\ exists i, names d !! name = Some i /\ sst_opened path (contents d i) = Ok tbl) P.
Proof.
  unfold table_open. eapply (dtriple_bind any _ _ _ (fun bs d => P d /\ exists i, names d !! name = Some i /\ contents d i = bs)).
  - apply dtriple_any; [|done]. intros d Hp. unfold read_run. destruct (names d !! name) as [i|] eqn:E; [|done]. cbn. split; [done|]. by exists i.
  - intros bs. eapply dtriple_reads; [apply sst_open_reads| |by intros d [Hp _]]. intros d [Hp (i & Hn & <-)].
    destruct (sst_opened path (contents d i)) eqn:E; [eauto|apply not_calm_any].
Qed.

(** Flushing the directory. *)
Lemma dtriple_sync_dir (P : Disk -> Prop) path :
  dtriple any P (sync_dir path) (fun _ d => exists d0, P d0 /\ d = dir_synced d0) P.
Proof.
  unfold sync_dir. eapply (dtriple_bind any _ _ _ (fun _ => P)).
  - apply dtriple_plain; [|done]. intros d Hp. by exists tt.
  - intros []. apply dtriple_plain; [|done]. intros d Hp. exists tt. split; [done|]. by exists d.
Qed.
End Making.

(** ** The manifest *)

Section Storing.
Context (dir : string) (man : option Snapshot) (sn : Snapshot) (ts : list Table) (gone logs : list LogFile) (next : Z).
Context (l : LogFile) (Hin : l ∈ logs) (ps : list LogFile) (Hty : snapshot_typed sn).
Implicit Types (d : Disk) (i : nat).

Definition old d : Prop := layout dir d (eq man) ts gone logs [] next /\ steady l ps d.

(** The old manifest or the new one. *)
Definition either d : Prop := layout dir d (fun s => man = s \/ s = Some sn) ts gone logs [] next.

Lemma old_either d : old d -> either d.
Proof. intros [Hl _]. eapply layout_weaken; [exact Hl|by left|done]. Qed.

Lemma dtriple_create_temp path :
  dtriple any old (disk_create path TEMP_NAME) (fun i d => old d /\ names d !! TEMP_NAME = Some i /\ contents d i = []) either.
Proof.
  apply dtriple_plain; [|apply old_either]. intros d [Hl Hw]. unfold create_run. destruct (names d !! TEMP_NAME) as [i|] eqn:E.
  - exists i. cbn [fst snd]. split; [done|]. split_and!; [|done|].
    + split; [|by eapply steady_scratch]. unfold cut_data. eapply layout_scratch; [done|exact E|done|].
      pose proof (do_floor _ _ (ly_dir _ _ _ _ _ _ _ _ Hl) i). rewrite length_take. lia.
    + rewrite contents_cut. by rewrite take_0.
  - exists (fresh_inode d). split; [done|].
    destruct (layout_create_tmp dir d TEMP_NAME E (eq man) ts gone logs [] next next Hl) as (H1 & H2 & H3); [constructor|done|lia| |].
    { intros k _ _. apply partial_not_temp. }
    pose proof (steady_create dir l ps d _ _ _ _ _ _ TEMP_NAME Hl Hin E temp_tmp Hw) as Hw'. unfold create_run in H1, H2, H3, Hw'. rewrite E in H1, H2, H3, Hw'.
    split; [by split|done].
Qed.

(** [Manifest::store]. *)
Lemma dtriple_manifest_store self :
  dtriple any old (manifest_store self sn)
    (fun _ d => layout dir d (eq (Some sn)) ts [] logs [] next /\ steady l ps d /\ pinned d logs) either.
Proof.
  unfold manifest_store. eapply (dtriple_bind any _ _ _ (fun bs d => decode_snapshot bs = Some sn /\ old d)).
  { apply dtriple_lift. intros d Hl. destruct (encode_snapshot sn) as [bs|e] eqn:E.
    - split; [by apply decode_encode|done].
    - split; [by apply old_either|apply not_calm_any]. }
  intros bs. apply dtriple_pure. intros Hdec. eapply dtriple_bind; [apply dtriple_create_temp|]. intros i. cbv beta.
  assert (forall n d, old d /\ names d !! TEMP_NAME = Some i /\ contents d i = [] -> old (append_data d i (take n bs))) as Hw.
  { intros n d ([Hl Hwh] & Hn & Hc). unfold append_data. split; [|by eapply steady_scratch]. eapply layout_scratch; [done|exact Hn|done|].
    pose proof (do_floor _ _ (ly_dir _ _ _ _ _ _ _ _ Hl) i). rewrite length_app. lia. }
  eapply (dtriple_bind any _ _ _ (fun _ d => old d /\ names d !! TEMP_NAME = Some i /\ contents d i = bs)).
  { apply dtriple_call; [|intros n d Hd; by apply old_either, Hw]. intros d Hd. exists tt. cbn [fst snd]. split; [done|]. split; [|split].
    - specialize (Hw (length bs) d Hd). by rewrite take_ge in Hw by done.
    - apply Hd.
    - rewrite contents_append. by destruct Hd as (_ & _ & ->). }
  intros []. eapply (dtriple_bind any _ _ _ (fun _ d => old d /\ names d !! TEMP_NAME = Some i /\ i ∈ clean d /\ contents d i = bs)).
  { apply dtriple_plain; [|intros d [Hd _]; by apply old_either]. intros d ([Hl Hwh] & Hn & Hc). exists tt. cbn [fst snd]. fold (synced d i).
    split; [done|]. split; [by split; [apply layout_sync|apply steady_sync]|]. split_and!; [done|cbn; set_solver|by rewrite contents_synced]. }
  intros []. eapply (dtriple_bind any _ _ _ (fun _ d => either d /\ steady l ps d /\ manifest_in d (names d) (Some sn))).
  { apply dtriple_plain; [|intros d [Hd _]; by apply old_either]. intros d ([Hl Hwh] & Hn & Hcl & Hc). exists tt. unfold rename_run. rewrite Hn.
    cbn [fst snd]. split; [done|]. destruct (layout_rename_manifest dir d (eq man) ts gone logs [] next i sn) as [H1 H2]; [done..|by rewrite Hc|].
    split; [done|]. split; [|done]. apply (steady_names l ps d); [done|]. intros k. rewrite lookup_insert_ne, lookup_delete_ne; [done|auto with names..]. }
  intros []. eapply (dtriple_bind any _ _ _ (fun _ d => either d /\ steady l ps d /\ manifest_in d (names d) (Some sn))).
  { apply dtriple_plain; [|by intros d []]. intros d Hd. by exists tt. }
  intros []. apply dtriple_plain; [|by intros d []]. intros d (Hl & Hwh & Hm). exists tt. cbn [fst snd]. fold (dir_synced d). split; [done|].
  split; [by apply (layout_sync_dir dir d _ ts gone logs [] next (Some sn)) in Hl|]. split; [by apply steady_dir_synced|].
  eapply all_logs_pinned; [eapply all_logs_synced, Hl|]. pose proof (lo_u64 _ _ _ _ (ly_logs _ _ _ _ _ _ _ _ Hl)) as Hu. rewrite app_nil_r in Hu. by apply Forall_app in Hu as [_ ?].
Qed.
End Storing.

(** ** What is no longer needed *)

(** The first log's name is no other's. *)
Lemma logs_names_ne dir d P ts gone l ls rest next x : layout dir d P ts gone ((l :: ls) ++ rest) [] next -> x ∈ ls ->
  log_name (lf_number l) <> log_name (lf_number x).
Proof.
  intros Hl Hx E. pose proof (lo_sorted _ _ _ _ (ly_logs _ _ _ _ _ _ _ _ Hl)) as Hs. pose proof (lo_u64 _ _ _ _ (ly_logs _ _ _ _ _ _ _ _ Hl)) as Hu.
  rewrite Forall_forall in Hu. assert (forall y, y ∈ l :: ls -> u64_ok (lf_number y)) as Hu'.
  { intros y Hy. apply Hu. apply elem_of_app. right. apply elem_of_app. left. apply elem_of_app. by left. }
  apply log_name_inj in E; [|apply Hu'; left|apply Hu'; by right].
  rewrite app_nil_r, fmap_app in Hs. apply StronglySorted_app_1_r in Hs. cbn in Hs. apply StronglySorted_inv in Hs as [_ Hs].
  rewrite Forall_forall in Hs. specialize (Hs (lf_number x)). rewrite fmap_app in Hs. specialize (Hs ltac:(apply elem_of_app; left; by apply list_elem_of_fmap_2)). lia.
Qed.

Section Removing.
Context (dir : string) (s : option Snapshot) (ts : list Table) (next : Z) (l0 : LogFile) (ps : list LogFile).
Implicit Types (d : Disk) (gone logs rest ls : list LogFile).

(** Logs, oldest first. *)
Lemma dtriple_remove_logs rest ls : forall gone,
  dtriple any (fun d => layout dir d (eq s) ts gone (ls ++ rest) [] next /\ whole l0 d /\ pinned d ls) (remove_files dir (log_names ls))
    (fun _ d => layout dir d (eq s) ts (gone ++ ls) rest [] next /\ whole l0 d)
    (fun d => exists a b, ls = a ++ b /\ layout dir d (eq s) ts (gone ++ a) (b ++ rest) [] next).
Proof.
  induction ls as [|l ls IH]; intros gone; cbn [remove_files log_names fmap list_fmap].
  - apply dtriple_ret. intros d (Hl & Hw & _). by rewrite app_nil_r.
  - eapply (dtriple_bind any _ _ _ (fun _ d => layout dir d (eq s) ts (gone ++ [l]) (ls ++ rest) [] next /\ whole l0 d /\ pinned d ls)).
    + apply dtriple_plain.
      * intros d (Hl & Hw & Hpin). exists tt. unfold remove_run.
        destruct (layout_lasting _ _ _ _ _ _ _ _ l Hl) as [Hn _]; [left|]. rewrite Hn. cbn [fst snd]. split; [done|].
        assert (pinned d [l]) as Hone by (intros c x Hc ->%list_elem_of_singleton; apply Hpin; [done|left]).
        split; [by apply layout_remove_log|]. split; [done|]. intros c x [Hc| ->]%candidates_set_names Hx; [apply Hpin; [done|by right]|].
        rewrite lookup_delete_ne; [apply Hpin; [apply candidates_names|by right]|].
        by eapply logs_names_ne; [exact Hl|].
      * intros d [Hl _]. exists [], (l :: ls). by rewrite app_nil_r.
    + intros u. cbv beta. eapply dtriple_weaken; [apply (IH (gone ++ [l]))|done| |].
      * intros u' d [Hl Hw]. by rewrite <- app_assoc in Hl.
      * intros d (a & b & -> & Hl). exists (l :: a), b. split; [done|]. by rewrite <- app_assoc in Hl.
Qed.

(** Files that are no part of the store. *)
Lemma dtriple_remove_tables gone logs ns :
  (forall n, n ∈ ns -> (forall k, n <> log_name k) /\ n <> FILE_NAME /\ forall t, t ∈ ts -> n <> table_name (number_of t)) ->
  dtriple any (fun d => layout dir d (eq s) ts gone logs [] next /\ steady l0 ps d) (remove_files dir ns)
    (fun _ d => layout dir d (eq s) ts gone logs [] next /\ steady l0 ps d) (fun d => layout dir d (eq s) ts gone logs [] next).
Proof.
  induction ns as [|n ns IH]; intros Hns; cbn [remove_files]; [by apply dtriple_ret|].
  eapply (dtriple_bind any _ _ _ (fun _ d => layout dir d (eq s) ts gone logs [] next /\ steady l0 ps d)).
  - apply dtriple_any; [|by intros ? d []]. intros d [Hl Hw]. unfold remove_run. destruct (names d !! n) as [i|]; [|done]. cbn [fst snd].
    destruct (Hns n ltac:(left)) as (H1 & H2 & H3). split; [by apply layout_remove|]. apply steady_names; [done|]. intros k. apply lookup_delete_ne. by apply H1.
  - intros u. apply IH. intros x Hx. apply Hns. by right.
Qed.
End Removing.
