(* ===== verification/Survive.v ===== *)
(** * Writing survives a crash

    The pieces of [set], [delete], [sync] and [rotate], from a store and a directory
    that [standing] relates: a piece that returns [Ok] leaves them so, with the record
    in the log and then in memory; one that is cut off, at whichever of its calls to
    the system, leaves a directory that keeps what the logs said, with the record or
    without it. Then the calls, made up of them. *)

From stdpp Require Import sorting.
From S2P Require Import Prelude Checksum Coding WalRecord WalReplay Wal WalAlone Memtable SsTable Disk Manifest Naming.
From S2P Require Import Compaction Layers Engine Store Shape EngineSpec Runs Callers Crashes Triples Layout Tells Reopen Recovery Opened Logging Making.

Lemma record_of_mutation seq key value : mutation (make_record seq key value) = (key, (seq, value)).
Proof. by destruct value. Qed.

Lemma record_seq_make seq key value : record_seq (make_record seq key value) = seq.
Proof. by destruct value. Qed.

Lemma records_of_one l : records_of [l] = lf_records l.
Proof. unfold records_of. cbn. apply app_nil_r. Qed.

Lemma mutation_of_record seq key value (r : LogRecord) : r = make_record seq key value ->
  record_key r = key /\ record_seq r = seq /\ record_value r = value.
Proof. intros ->. pose proof (record_of_mutation seq key value) as E. unfold mutation in E. by injection E as -> -> ->. Qed.

(** A number above the others of its key. *)
Lemma spec_insert_above (m : layer) key seq value : (forall v, m !! key = Some v -> fst v < seq) ->
  spec_insert m key seq value = <[key := (seq, value)]> m.
Proof.
  intros Hm. unfold spec_insert, spec_newest. destruct (m !! key) as [[s v]|] eqn:E; [|done].
  specialize (Hm _ eq_refl). cbn in Hm. by destruct (Z.ltb_spec s seq); [|lia].
Qed.

Lemma spec_apply_snoc m muts key seq value : spec_apply m (muts ++ [(key, (seq, value))]) = spec_insert (spec_apply m muts) key seq value.
Proof. unfold spec_apply. by rewrite fold_left_app. Qed.

(** ** One record more *)

Section Appending.
Context (dir : string) (man : option Snapshot) (ts : list Table) (gone pre : list LogFile) (l : LogFile) (next : Z) (r : LogRecord).
Context (Hok : Forall record_ok (lf_records l ++ [r])).

Let maybe := mkLogFile (lf_number l) (lf_inode l) (lf_records l) [r].
Let longer := mkLogFile (lf_number l) (lf_inode l) (lf_records l ++ [r]) [].

Lemma files_with x : lf_number x = lf_number l -> lf_inode x = lf_inode l -> same_files (pre ++ [l]) (pre ++ [x]).
Proof. intros H1 H2. apply Forall2_app; [apply same_files_refl|by repeat constructor]. Qed.

(** Any part of it. *)
Lemma layout_append d n :
  layout dir d (eq man) ts gone (pre ++ [l]) [] next -> contents d (lf_inode l) = log_file (lf_records l) -> flushed d (lf_inode l) ->
  layout dir (append_data d (lf_inode l) (take n (frame (payload r)))) (eq man) ts gone (pre ++ [maybe]) [] next.
Proof.
  intros Hl Hc Hf. unfold flushed in Hf. unfold append_data. rewrite Hc in *. assert (l ∈ (pre ++ [l]) ++ []) as Hin by (rewrite app_nil_r; apply elem_of_app; right; left).
  eapply layout_log_data; [exact Hl|exact Hin|rewrite length_app; lia| |by apply files_with|constructor| |].
  - intros c. apply survives_data. lia.
  - intros x Hx E. rewrite app_nil_r in Hx. apply elem_of_app in Hx as [Hx| ->%list_elem_of_singleton].
    + assert (x ∈ (pre ++ [l]) ++ []) as Hx' by (rewrite app_nil_r; apply elem_of_app; by left).
      destruct (layout_lasting _ _ _ _ _ _ _ _ x Hl Hx') as [Hn _].
      assert (x = l) as ->.
      { eapply (log_inode_number d gone (pre ++ [l]) []); [apply Hl|apply Hl|apply elem_of_app; by right|exact Hin|apply candidates_names|done|done]. }
      exfalso. pose proof (lo_sorted _ _ _ _ (ly_logs _ _ _ _ _ _ _ _ Hl)) as Hs. rewrite app_nil_r, !fmap_app in Hs.
      apply StronglySorted_app in Hs as (_ & _ & Hs). apply StronglySorted_app in Hs as (Hlt & _ & _).
      specialize (Hlt (lf_number l) (lf_number l) ltac:(by apply list_elem_of_fmap_2) ltac:(left)). lia.
    + apply lasting_append; [done|lia|rewrite length_app; lia].
  - intros x Hx Hne. rewrite app_nil_r in *. apply elem_of_app in Hx as [Hx| ->%list_elem_of_singleton]; [apply elem_of_app; by left|done].
Qed.

(** All of it, on the device. *)
Lemma layout_appended d :
  layout dir d (eq man) ts gone (pre ++ [l]) [] next -> contents d (lf_inode l) = log_file (lf_records l) -> flushed d (lf_inode l) ->
  let d' := synced (append_data d (lf_inode l) (frame (payload r))) (lf_inode l) in
  layout dir d' (eq man) ts gone (pre ++ [longer]) [] next /\ contents d' (lf_inode l) = log_file (lf_records l ++ [r]) /\
  flushed d' (lf_inode l).
Proof.
  intros Hl Hc Hf d'. pose proof (layout_append d (length (frame (payload r))) Hl Hc Hf) as Hm. rewrite take_ge in Hm by done.
  apply (layout_sync _ _ _ _ _ _ _ _ (lf_inode l)) in Hm. fold d' in Hm.
  assert (contents d' (lf_inode l) = log_file (lf_records l ++ [r])) as Hc'.
  { unfold d'. rewrite contents_synced, contents_append, Hc. by rewrite log_file_snoc. }
  assert (flushed d' (lf_inode l)) as Hf' by apply flushed_synced.
  split_and!; [|done|done]. eapply layout_relabel; [exact Hm| |constructor|].
  - apply Forall2_app; [apply same_files_refl|by repeat constructor].
  - intros x Hx. rewrite app_nil_r in Hx. apply elem_of_app in Hx as [Hx| ->%list_elem_of_singleton].
    + eapply layout_lasting; [exact Hm|]. rewrite app_nil_r. apply elem_of_app. by left.
    + cbn [longer lf_inode lf_records lf_pending]. rewrite (Hf' : floor_of d' (lf_inode l) = _), Hc'. eapply lasting_mono; [apply lasting_whole; done|lia|]. intros x <-. by left.
Qed.

(** What a directory may then be kept to say. *)
Lemma left_of_maybe X ls : Forall (fun l => lf_pending l = []) X -> Forall2 left_of (X ++ [maybe]) ls ->
  records_of ls = records_of (X ++ [l]) \/ records_of ls = records_of (X ++ [l]) ++ [r].
Proof.
  intros Hp Hl. apply Forall2_app_inv_l in Hl as (ls1 & ls2 & H1 & H2 & ->). apply Forall2_cons_inv_l in H2 as (x & ? & Hx & H2 & ->).
  apply Forall2_nil_inv_l in H2 as ->. rewrite !records_of_app, !records_of_one, (left_of_settled _ _ H1 Hp).
  destruct Hx as (_ & _ & [E|E] & _); cbn in E; rewrite E; [by left|right; by rewrite app_assoc].
Qed.
End Appending.

(** ** What the pieces keep *)

Section Pieces.
Context {T : Type} `{MemtableLaws T} (dir : string) (config : Config).
Implicit Types (e : Engine T) (told : layer) (g : Ledger) (key : bytes) (value : option bytes).

#[local] Abbreviation standing := (standing dir config).
#[local] Abbreviation holds := (holds dir config).
#[local] Abbreviation last_seq e := (wl_last_seq (en_wal e)).

(** What [standing] reads of a store. *)
Record same_store e e' : Prop := {
  sst_wal : en_wal e' = en_wal e;
  sst_state : en_state e' = en_state e;
  sst_snapshot : en_snapshot e' = en_snapshot e;
  sst_next : en_next_number e' = en_next_number e;
  sst_places : en_dir e' = en_dir e /\ en_config e' = en_config e /\ en_manifest e' = en_manifest e;
}.

(** The counters of block reads are not among it. *)
Lemma counted_same e e' : counted e e' -> same_store e e'.
Proof. by intros [reads ->]. Qed.

Lemma same_store_inv e e' told : same_store e e' -> engine_inv e told -> engine_inv e' told.
Proof. intros [S1 S2 S3 S4 (S5 & S6 & S7)] Hinv. eapply quiet_inv; [exact Hinv|]. instantiate (1 := 0). split; try done. lia. Qed.

Lemma standing_same e e' told g d : same_store e e' -> standing e told g d -> standing e' told g d.
Proof.
  intros [S1 S2 S3 S4 (S5 & S6 & S7)] [H1 H2 H3 H4 H5 H6 H7 H8 H9 H10 H11 H12 H13 H14].
  by split; rewrite ?S1, ?S2, ?S3, ?S4, ?S5, ?S6, ?S7.
Qed.

Lemma holds_same e e' told d : same_store e e' -> holds e told d -> holds e' told d.
Proof. intros Hs (Hinv & g & Hg & Hh). split; [by eapply same_store_inv|]. exists g. split; [done|]. by eapply standing_same. Qed.

Lemma take_background_same e w r s' :
  take_background_error (e, w) = (r, s') -> exists e1, r = Ok (en_background_error e) /\ s' = (e1, w) /\ same_store e e1.
Proof.
  unfold take_background_error, gete, gets, set_background_error, modify. unfold mbind, stm_bind. intros [= <- <-].
  eexists. by split_and!.
Qed.

(** A file flushed. *)
Lemma standing_synced e told g d i : standing e told g d -> standing e told g (synced d i).
Proof.
  intros [H1 H2 H3 H4 H5 H6 H7 H8 (pre & l & E1 & E2 & E3 & E4) H10 H11 H12 H13 H14]. split; try done; [by apply layout_sync|].
  exists pre, l. split_and!; [done|done|by rewrite contents_synced|by apply flushed_other].
Qed.

(** The order of the records on their way does not matter; and some tables need not
    be waited for. *)
Lemma standing_perm e told g d flying pending : standing e told g d -> lg_flying g ≡ₚ flying -> pending ⊆ lg_pending g ->
  standing e told (mkLedger (lg_man g) (lg_gone g) (lg_spent g) (lg_active g) (lg_frozen g) pending flying) d.
Proof.
  intros [H1 H2 H3 H4 H5 (A & HA & HAr) H7 H8 H9 H10 H11 H12 H13 H14] Hp Hsub.
  assert (forall m, spec_apply m (mutation <$> flying) = spec_apply m (mutation <$> lg_flying g)) as Ef.
  { intros m. symmetry. apply spec_apply_perm; [by rewrite Hp|done]. }
  split; cbn [lg_man lg_gone lg_spent lg_active lg_frozen lg_pending lg_flying]; unfold lg_logs, logged in *; cbn [lg_man lg_gone lg_spent lg_active lg_frozen lg_pending lg_flying];
    try done.
  - eapply layout_weaken; [exact H1|done|]. intros t. rewrite !elem_of_app. intros [?|Ht]; [by left|right; by apply Hsub].
  - exists A. by rewrite Ef.
  - intros j. rewrite Ef. apply H11.
  - revert H13. unfold numbering. by rewrite Hp.
Qed.

Lemma standing_numbers e told g d : standing e told g d ->
  Forall (fun l => lf_number l < en_next_number e) (lg_gone g ++ lg_spent g ++ lg_logs g).
Proof.
  intros Hh. pose proof (sd_layout _ _ _ _ _ _ Hh) as Hl.
  assert (forall l, l ∈ lg_spent g ++ lg_logs g -> lf_number l < en_next_number e) as Hlogs.
  { intros l Hin. destruct (layout_lasting _ _ _ _ _ _ _ _ l Hl) as [Hn _]; [apply elem_of_app; by left|].
    destruct (decide (lf_number l < en_next_number e)); [done|].
    assert (u64_ok (lf_number l)) as Hu.
    { pose proof (lo_u64 _ _ _ _ (ly_logs _ _ _ _ _ _ _ _ Hl)) as Hu. rewrite Forall_forall in Hu. apply Hu.
      apply elem_of_app. right. apply elem_of_app. by left. }
    destruct (do_free _ _ (ly_dir _ _ _ _ _ _ _ _ Hl) (lf_number l)) as [E _]; [lia|done|congruence]. }
  apply Forall_app. split; [|by apply Forall_forall]. apply Forall_forall. intros l Hin.
  destruct (sd_newest _ _ _ _ _ _ Hh) as (pre & x & Ea & _). assert (x ∈ lg_spent g ++ lg_logs g) as Hx.
  { unfold lg_logs, logs_of. rewrite Ea, !elem_of_app. right. right. right. left. }
  pose proof (lo_sorted _ _ _ _ (ly_logs _ _ _ _ _ _ _ _ Hl)) as Hs. rewrite app_nil_r, fmap_app in Hs.
  apply StronglySorted_app in Hs as (Hlt & _). specialize (Hlt (lf_number l) (lf_number x)).
  specialize (Hlt ltac:(by apply list_elem_of_fmap_2) ltac:(by apply list_elem_of_fmap_2)). specialize (Hlogs x Hx). lia.
Qed.

(** The newest log, and what goes before it. *)
Lemma standing_newest e told g d : standing e told g d ->
  exists pre l, lg_active g = pre ++ [l] /\ lg_spent g ++ lg_logs g = (lg_spent g ++ concat (reverse (lg_frozen g)) ++ pre) ++ [l] /\
    wl_file (en_wal e) = lf_inode l /\ contents d (lf_inode l) = log_file (lf_records l) /\ flushed d (lf_inode l) /\ lf_pending l = [] /\
    Forall (fun x => lf_pending x = []) (lg_gone g ++ lg_spent g ++ concat (reverse (lg_frozen g)) ++ pre) /\ Forall record_ok (lf_records l).
Proof.
  intros Hh. destruct (sd_newest _ _ _ _ _ _ Hh) as (pre & l & Ea & Hw & Hc & Hf). exists pre, l.
  assert (lg_logs g = (concat (reverse (lg_frozen g)) ++ pre) ++ [l]) as E by (unfold lg_logs, logs_of; by rewrite Ea, app_assoc).
  pose proof (sd_settled _ _ _ _ _ _ Hh) as Hs. rewrite E, !Forall_app in Hs. destruct Hs as (Hg & Hsp & (Hs1 & Hs2) & Hp).
  apply Forall_cons in Hp as [Hp _]. split_and!; [done| |done..| |].
  - by rewrite E, !app_assoc.
  - rewrite !Forall_app. done.
  - pose proof (te_ok _ _ _ _ (sd_tells _ _ _ _ _ _ Hh 0)) as Hok. rewrite E, !records_of_app, !Forall_app, records_of_one in Hok. tauto.
Qed.

(** The records on their way are numbered within what the log has handed out. *)
Lemma flying_within e told g d r : standing e told g d -> r ∈ lg_flying g -> record_seq r <= last_seq e.
Proof.
  intros Hh Hr. destruct (sd_active _ _ _ _ _ _ Hh) as (A & _ & HA).
  destruct (spec_apply_ge (mutation <$> lg_flying g) A (record_key r) (record_seq r, record_value r)) as (v & Hv & Hle).
  { right. by apply (list_elem_of_fmap_2 mutation). }
  rewrite <- HA in Hv. apply memory_in in Hv as (x & Hx & Em). unfold mutation in Em. injection Em as _ <-. cbn in Hle.
  rewrite (sd_last _ _ _ _ _ _ Hh 0). destruct (highest_seq_spec (records_of (drop 0 (lg_gone g ++ lg_spent g) ++ lg_logs g)) (sn_last_seq (en_snapshot e))) as [_ Hhi].
  assert (record_seq x <= highest_seq (records_of (drop 0 (lg_gone g ++ lg_spent g) ++ lg_logs g)) (sn_last_seq (en_snapshot e))); [|cbn in *; lia].
  apply Hhi. unfold lg_logs, logs_of. rewrite !records_of_app, !elem_of_app. auto.
Qed.

(** Other logs for the tables in memory, other records on their way. *)
Definition relogged g alogs flogs flying : Ledger := mkLedger (lg_man g) (lg_gone g) (lg_spent g) alogs flogs (lg_pending g) flying.

(** The mutation a call makes, told. *)
Definition and_told e key value told : layer := <[key := (last_seq e + 1, value)]> told.

Lemma tells_and_told e key value told g d r : standing e told g d ->
  0 <= last_seq e < u64_max -> r = make_record (last_seq e + 1) key value -> record_fits r ->
  record_ok r /\ forall j, tells (sn_last_seq (en_snapshot e)) (st_levels (en_state e))
    (records_of (drop j (lg_gone g ++ lg_spent g) ++ lg_logs g) ++ [r]) (and_told e key value (logged g told)).
Proof.
  intros Hh Hlt Er Hfits. destruct (mutation_of_record _ _ _ _ Er) as (E1 & E2 & E3).
  assert (record_ok r) as Hok by (split; [rewrite E2; unfold u64_ok; lia|done]). split; [done|]. intros j.
  unfold and_told. rewrite <- E1, <- E2, <- E3. apply tells_append; [apply Hh| |done]. rewrite E2. f_equal. apply Hh.
Qed.

(** With the record on its way. *)
Lemma logged_append e key value told g d alogs flogs : standing e told g d -> 
  logged (relogged g alogs flogs (lg_flying g ++ [make_record (last_seq e + 1) key value])) told = and_told e key value (logged g told).
Proof.
  intros Hh. unfold logged. cbn [relogged lg_flying]. rewrite fmap_app. cbn. rewrite record_of_mutation, spec_apply_snoc.
  apply spec_insert_above. intros v Hv. destruct (te_told _ _ _ _ (sd_tells _ _ _ _ _ _ Hh 0) _ key v ltac:(left) Hv) as [_ Hle].
  rewrite <- (sd_last _ _ _ _ _ _ Hh 0) in Hle. lia.
Qed.

(** An append that was not acknowledged. *)
Lemma standing_wrote e told g d d' key value : standing e told g d -> 0 <= last_seq e < u64_max -> wrote key value (en_wal e) d d' ->
  keeps dir d' (fun t => t = logged g told \/ t = and_told e key value (logged g told)).
Proof.
  intros Hh Hlt [|n Hfits]; [eapply keeps_mono; [by eapply standing_keeps|by intros ? <-; left]|].
  destruct (standing_newest _ _ _ _ Hh) as (pre & l & Ea & El & -> & Hc & Hf & Hp & Hpre & Hok).
  set (r := make_record _ key value) in *. destruct (tells_and_told _ key value _ _ _ r Hh Hlt eq_refl Hfits) as [Hr Ht].
  pose proof (sd_layout _ _ _ _ _ _ Hh) as Hl. rewrite El in Hl.
  assert (Forall record_ok (lf_records l ++ [r])) as Hokr by (apply Forall_app; split; [done|by constructor]).
  set (X := lg_spent g ++ concat (reverse (lg_frozen g)) ++ pre) in *.
  pose proof (layout_append dir (lg_man g) _ (lg_gone g) X l _ r Hokr d n Hl Hc Hf) as Hly.
  exists [(lg_man g, st_levels (en_state e))], (lg_gone g), (X ++ [mkLogFile (lf_number l) (lf_inode l) (lf_records l) [r]]), [],
    (en_next_number e). split.
  - eapply layout_weaken; [exact Hly|intros ? <-; left|]. intros t. unfold alt_tables. cbn. rewrite app_nil_r. intros Hin. apply elem_of_app. by left.
  - intros s levels [= -> ->]%list_elem_of_singleton. split; [apply Hh|]. intros j born' ls Hb Hleft.
    assert (born' = []) as -> by by destruct Hb. rewrite app_nil_r, app_assoc in Hleft.
    rewrite <- (sd_snapshot _ _ _ _ _ _ Hh).
    destruct (drop_some j (lg_gone g) (lg_spent g) (lg_logs g)) as [m Em]. pose proof (sd_tells _ _ _ _ _ _ Hh m) as Hold. specialize (Ht m).
    rewrite <- Em, El, app_assoc in Hold, Ht. apply (left_of_maybe l r) in Hleft as [-> | ->].
    + exists (logged g told). split; [by left|done].
    + exists (and_told e key value (logged g told)). split; [by right|done].
    + rewrite Forall_app in Hpre |- *. split; [apply Forall_drop|]; tauto.
Qed.

(** One that was. *)
Lemma standing_appended e e' told g d d' key value : standing e told g d -> 0 <= last_seq e < u64_max ->
  numbered_log (en_wal e) (en_wal e') -> on_device key value (en_wal e) d d' -> wl_buf (en_wal e') = [] ->
  wl_durable (en_wal e') <= last_seq e + 1 -> same_but_log e e' -> en_dir e' = en_dir e -> en_manifest e' = en_manifest e ->
  exists alogs, standing e' told (relogged g alogs (lg_frozen g) (lg_flying g ++ [make_record (last_seq e + 1) key value])) d'.
Proof.
  intros Hh Hlt [N1 N2 N3 N4] [Hfits ->] Hb Hdu (L1 & L2 & L3 & L4) Ed Em.
  destruct (standing_newest _ _ _ _ Hh) as (pre & l & Ea & El & Ew & Hc & Hf & Hp & Hpre & Hok). rewrite Ew in *.
  set (seq := last_seq e + 1) in *. set (r := make_record seq key value) in *.
  destruct (tells_and_told _ key value _ _ _ r Hh Hlt eq_refl Hfits) as [Hr Ht].
  pose proof (sd_layout _ _ _ _ _ _ Hh) as Hl. rewrite El in Hl.
  assert (Forall record_ok (lf_records l ++ [r])) as Hokr by (apply Forall_app; split; [done|by constructor]).
  destruct (layout_appended dir (lg_man g) _ (lg_gone g) _ l _ r Hokr d Hl Hc Hf) as (Hly & Hc' & Hf').
  set (longer := mkLogFile (lf_number l) (lf_inode l) (lf_records l ++ [r]) []) in *.
  assert (forall X, records_of (X ++ [longer]) = records_of (X ++ [l]) ++ [r]) as Erec.
  { intros X. rewrite !records_of_app, !records_of_one. cbn. by rewrite app_assoc. }
  assert (lg_spent g ++ logs_of (lg_frozen g) (pre ++ [longer]) = (lg_spent g ++ concat (reverse (lg_frozen g)) ++ pre) ++ [longer]) as El'
    by (unfold logs_of; by rewrite !app_assoc).
  assert (forall j, records_of (drop j (lg_gone g ++ lg_spent g) ++ logs_of (lg_frozen g) (pre ++ [longer])) =
    records_of (drop j (lg_gone g ++ lg_spent g) ++ lg_logs g) ++ [r]) as Ej.
  { intros j. unfold lg_logs, logs_of. rewrite Ea, !app_assoc. apply Erec. }
  assert (numbered (records_of (lg_active g) ++ [r])) as Hnum.
  { specialize (Ht (length (lg_gone g ++ lg_spent g))). rewrite drop_all in Ht. apply te_numbered in Ht. revert Ht. unfold lg_logs, logs_of. cbn [app].
    rewrite records_of_app, <- app_assoc. by intros (_ & ? & _)%numbered_app. }
  destruct (mutation_of_record _ _ _ r eq_refl) as (E1 & E2 & E3).
  exists (pre ++ [longer]). split; rewrite ?L1, ?L2, ?L3, ?N3;
    cbn [relogged lg_man lg_gone lg_spent lg_active lg_frozen lg_pending lg_flying]; unfold lg_logs; cbn [relogged lg_man lg_gone lg_spent lg_active lg_frozen lg_pending lg_flying]; try apply Hh.
  - by rewrite El'.
  - rewrite El'. rewrite !Forall_app in *. split_and!; try tauto. by constructor.
  - destruct (sd_active _ _ _ _ _ _ Hh) as (A & HA & HAr). exists A. split; [done|].
    rewrite Erec, <- Ea, (memory_snoc _ r Hnum), HAr, fmap_app. cbn. unfold r. rewrite record_of_mutation, spec_apply_snoc. fold r. rewrite E1, E2, E3.
    symmetry. apply spec_insert_above. intros v Hv. rewrite <- HAr in Hv. apply memory_in in Hv as (x & Hx & Emu). unfold mutation in Emu. injection Emu as _ <-.
    cbn. rewrite <- E2. apply numbered_app in Hnum as (_ & _ & Hall). apply Hall; [done|left].
  - rewrite (sd_names _ _ _ _ _ _ Hh), Ea. unfold log_names. by rewrite !fmap_app.
  - exists pre, longer. by rewrite N1.
  - rewrite N2. split_and!; [done|done|apply Hh|done].
  - intros j. rewrite Ej, (logged_append e key value told g d _ _ Hh). apply Ht.
  - intros j. rewrite Ej, highest_seq_app, <- (sd_last _ _ _ _ _ _ Hh j). cbn. rewrite E2. unfold seq. lia.
  - unfold numbering. rewrite !fmap_app. apply NoDup_app. split; [apply Hh|]. split; [|apply NoDup_singleton].
    intros x (y & -> & (z & -> & Hz)%list_elem_of_fmap)%list_elem_of_fmap Hx%list_elem_of_singleton. unfold mutation in Hx. cbn [fst snd] in Hx.
    injection Hx as _ Hx. rewrite E2 in Hx. pose proof (flying_within _ _ _ _ z Hh Hz). unfold seq in Hx. lia.
  - rewrite Ed, L4, Em. apply Hh.
Qed.

(** The log's part of a write. *)
Lemma log_append_standing key value e w r s' told g : standing e told g (disk w) -> tidy (en_wal e) ->
  cf_sync config = Always \/ cf_sync config = Group -> 0 <= last_seq e < u64_max -> log_append key value (e, w) = (r, s') ->
  match r with
  | Ok seq => seq = last_seq e + 1 /\
      exists alogs, standing (fst s') told (relogged g alogs (lg_frozen g) (lg_flying g ++ [make_record seq key value])) (disk (snd s'))
  | Err _ => keeps dir (disk (snd s')) (fun t => t = logged g told \/ t = and_told e key value (logged g told))
  end.
Proof.
  intros Hh Htidy Hpol Hlt. destruct (sd_wal _ _ _ _ _ _ Hh) as (Wb & Wf & Wp & Wd).
  destruct (append_ends key value (en_wal e) w Htidy) as (ra & wal & wa & Ha & Hta & _); [lia|].
  unfold log_append. rewrite Ha. intros [= <- <-]. unfold set_wal, modify. cbn [fst snd].
  pose proof (wal_append_disk key value (en_wal e) (disk w) ltac:(lia) Wd Wb Wf ltac:(by rewrite Wp) w ra wal wa eq_refl Ha) as Hd.
  destruct ra as [seq|err]; [|by eapply standing_wrote].
  destruct Hd as (-> & Hnl & Hon & Hb & Hdu). split; [done|]. by eapply standing_appended.
Qed.

(** The table in memory brought up to date. *)
Lemma insert_standing key value seq rest e w r s' told g : standing e told g (disk w) ->
  lg_flying g ≡ₚ make_record seq key value :: rest -> has_room (st_active (en_state e)) seq ->
  (forall A, represents (st_active (en_state e)) A -> fresh_for A key seq) -> insert_active key value seq (e, w) = (r, s') ->
  snd s' = w /\ standing (fst s') (spec_insert told key seq value) (relogged g (lg_active g) (lg_frozen g) rest) (disk w).
Proof.
  intros Hh Hfl Hroom Hfresh Hi. destruct (standing_perm _ _ _ _ (make_record seq key value :: rest) (lg_pending g) Hh Hfl ltac:(done))
    as [H1 H2 H3 H4 H5 (A & HA & HAr) H7 H8 H9 H10 H11 H12 H13 H14].
  unfold lg_logs, logged in *. cbn [lg_man lg_gone lg_spent lg_active lg_frozen lg_pending lg_flying] in *. cbn [fmap list_fmap] in *.
  rewrite record_of_mutation in *. unfold spec_apply in HAr, H11. cbn [fold_left] in HAr, H11.
  unfold insert_active, gete, gets, set_state, modify, mbind, stm_bind in Hi. cbn [fst] in Hi.
  destruct (law_insert _ A key seq value HA Hroom (Hfresh A HA)) as [En _]. rewrite En in Hi. injection Hi as _ <-. cbn [fst snd]. split; [done|].
  split; cbn [en_wal en_state en_snapshot en_next_number en_dir en_config en_manifest st_active st_active_logs st_frozen st_levels
    relogged lg_man lg_gone lg_spent lg_active lg_frozen lg_pending lg_flying]; unfold lg_logs, logged;
    cbn [relogged lg_man lg_gone lg_spent lg_active lg_frozen lg_pending lg_flying]; try done.
  - exists (spec_insert A key seq value). split; [|done]. by apply law_insert; auto.
  - by apply NoDup_cons in H13 as [_ ?].
Qed.

(** A fresh log, and the table the old ones fill put aside. *)
Lemma standing_rotated e e' told g d d' i path : standing e told g d -> lg_flying g = [] ->
  layout dir d' (eq (lg_man g)) (concat (st_levels (en_state e)) ++ lg_pending g) (lg_gone g)
    ((lg_spent g ++ lg_logs g) ++ [mkLogFile (en_next_number e) i [] []]) [] (en_next_number e + 1) ->
  pinned d' (lg_spent g) -> contents d' i = log_file [] -> flushed d' i ->
  en_wal e' = wal_new path i (cf_sync config) (last_seq e) ->
  en_state e' = mkState (mt_build (cf_memtable_bytes config)) [log_name (en_next_number e)]
    (mkFrozen (st_active (en_state e)) (st_active_logs (en_state e)) :: st_frozen (en_state e)) (st_levels (en_state e)) ->
  en_snapshot e' = en_snapshot e -> en_next_number e' = en_next_number e + 1 ->
  en_dir e' = en_dir e /\ en_config e' = en_config e /\ en_manifest e' = en_manifest e ->
  standing e' told (relogged g [mkLogFile (en_next_number e) i [] []] (lg_active g :: lg_frozen g) []) d'.
Proof.
  intros Hh Hfl Hl Hpin Hc Hf Ew Est Esn Enx (Ed & Ecf & Em). set (new := mkLogFile (en_next_number e) i [] []) in *.
  assert (logs_of (lg_active g :: lg_frozen g) [new] = lg_logs g ++ [new]) as El.
  { unfold lg_logs, logs_of. by rewrite reverse_cons, concat_app, <- !app_assoc; cbn; rewrite app_nil_r. }
  assert (forall j, records_of (drop j (lg_gone g ++ lg_spent g) ++ logs_of (lg_active g :: lg_frozen g) [new]) =
    records_of (drop j (lg_gone g ++ lg_spent g) ++ lg_logs g)) as Ej.
  { intros j. by rewrite El, app_assoc, records_of_app, records_of_one, app_nil_r. }
  split; rewrite ?Est, ?Esn, ?Enx, ?Ew; cbn [st_levels st_active st_active_logs st_frozen wal_new wl_file wl_buf wl_failed wl_policy wl_durable wl_last_seq
    relogged lg_man lg_gone lg_spent lg_active lg_frozen lg_pending lg_flying]; unfold lg_logs, logged;
    cbn [relogged lg_man lg_gone lg_spent lg_active lg_frozen lg_pending lg_flying]; try done; try apply Hh.
  - by rewrite El, app_assoc.
  - rewrite El, !app_assoc, Forall_app, <- app_assoc. split; [apply Hh|by constructor].
  - exists ∅. split; [apply law_build|]. by rewrite records_of_one.
  - constructor; [|apply Hh]. destruct (sd_active _ _ _ _ _ _ Hh) as (A & HA & HAr). rewrite Hfl in HAr. cbn in HAr. rewrite HAr. split; [done|apply Hh].
  - by exists [], new.
  - intros j. rewrite Ej. pose proof (sd_tells _ _ _ _ _ _ Hh j) as Ht. unfold logged in Ht. by rewrite Hfl in Ht.
  - intros j. rewrite Ej. apply Hh.
  - constructor.
  - rewrite Ed, Ecf, Em. apply Hh.
Qed.

(** The part of a rotation under its locks. *)
Lemma rotate_locked_standing min_bytes e w r s' told g : standing e told g (disk w) -> lg_flying g = [] -> tidy (en_wal e) ->
  0 <= en_next_number e < u64_max -> rotate_locked min_bytes (e, w) = (r, s') ->
  match r with
  | Ok None => s' = (e, w)
  | Ok (Some previous) => drained previous previous /\ exists alogs flogs, standing (fst s') told (relogged g alogs flogs []) (disk (snd s'))
  | Err _ => keeps dir (disk (snd s')) (eq (logged g told))
  end.
Proof.
  intros Hh Hfl Htidy Hn Hs. unfold rotate_locked in Hs.
  apply stm_bind_cases in Hs as [(st & s1 & [[= ->] ->]%gete_eq & Hs)|(err & [? _]%gete_eq & _)]; [|done]. cbn [fst] in Hs.
  destruct (_ || _); [by injection Hs as <- <-|].
  unfold fetch_number, gete, gets in Hs. unfold mbind, stm_bind in Hs. cbn [fst en_dir en_config en_wal] in Hs.
  destruct (sd_places _ _ _ _ _ _ Hh) as (Edir & Ecf & _). destruct (sd_wal _ _ _ _ _ _ Hh) as (Wb & Wf & Wp & Wd).
  rewrite Edir, Ecf in Hs. change (file_name (en_next_number e) LOG_EXT) with (log_name (en_next_number e)) in Hs. unfold on_disk in Hs.
  pose proof (standing_numbers _ _ _ _ Hh) as Hnum.
  pose proof (pinned_wal_create (join dir (log_name (en_next_number e))) (log_name (en_next_number e)) (cf_sync config) (last_seq e) (lg_spent g) w) as Hpin.
  destruct (wal_create (join dir (log_name (en_next_number e))) (log_name (en_next_number e)) (cf_sync config) (last_seq e) w)
    as [rc wc] eqn:Ec.
  pose proof (dtriple_run _ _ _ _ _ _ _ (dtriple_wal_create dir any (eq (lg_man g)) (concat (st_levels (en_state e)) ++ lg_pending g) (lg_gone g)
    (lg_spent g ++ lg_logs g) (en_next_number e) (en_next_number e + 1) (en_next_number e) ltac:(split; lia) ltac:(lia) Hnum _ _)
    (sd_layout _ _ _ _ _ _ Hh) Ec) as Hcr.
  destruct rc as [fresh|err]; [|injection Hs as <- <-; destruct Hcr as (born & Hl & Hb)].
  2:{ eapply (standing_left dir config e told g _ _ _ 0); [exact Hh|exact Hl| |exact Hb]. intros t Ht. apply elem_of_app. by left. }
  destruct Hcr as (i & -> & Hl & Hc & Hf). unfold set_wal, set_state, set_queue, modify in Hs. cbn [fst] in Hs.
  injection Hs as <- <-. cbn [fst snd] in *. split; [by apply drained_start|].
  eexists _, _. eapply standing_rotated; try exact Hh; try done; cbn; [|rewrite wrap64_small by (split; lia); lia].
  apply Hpin; [|apply Hh]. intros l Hin E. rewrite Forall_forall in Hnum. specialize (Hnum l ltac:(rewrite !elem_of_app; auto)).
  apply log_name_inj in E; [lia|split; lia|]. pose proof (lo_u64 _ _ _ _ (ly_logs _ _ _ _ _ _ _ _ (sd_layout _ _ _ _ _ _ Hh))) as Hu.
  rewrite Forall_forall in Hu. apply Hu. rewrite !elem_of_app. auto.
Qed.

(** The log that was replaced, flushed. *)
Lemma drop_log_standing previous e w r s' told g : standing e told g (disk w) -> drained previous previous ->
  drop_log previous (e, w) = (r, s') -> r = Ok tt /\ fst s' = e /\ standing e told g (disk (snd s')).
Proof.
  intros Hh Hd. unfold drop_log, modify. intros [= <- <-]. split_and!; [done|done|]. cbn [snd].
  apply (wal_drop_disk previous (standing e told g)); [|done|done]. intros d. apply standing_synced.
Qed.

Lemma sync_runs e w r s' : tidy (en_wal e) -> engine_sync (e, w) = (r, s') ->
  exists ra wal wa, wal_sync (en_wal e, w) = Some (ra, (wal, wa)) /\ s' = snd (set_wal wal (e, wa)).
Proof.
  intros Ht. destruct (wal_sync_ends (en_wal e) w Ht) as (ra & wal & wa & Ha & _). unfold engine_sync. rewrite Ha. intros [= _ <-].
  by exists ra, wal, wa.
Qed.

(** [sync]. *)
Lemma sync_standing e w r s' told g : standing e told g (disk w) -> tidy (en_wal e) ->
  engine_sync (e, w) = (r, s') -> standing (fst s') told g (disk (snd s')).
Proof.
  intros Hh Ht Hs. destruct (sd_wal _ _ _ _ _ _ Hh) as (Wb & Wf & Wp & Wd).
  destruct (sync_runs e w r s' Ht Hs) as (ra & wal & wa & Ha & ->).
  destruct (wal_sync_disk (en_wal e) (standing e told g)) with (w := w) (r := ra) (self' := wal) (w' := wa) as [[(D1 & D2 & D3) D4 D5 _ D7] Hh'];
    [intros d; apply standing_synced|by apply drained_start|done|done|].
  cbn [fst snd]. destruct Hh' as [H1 H2 H3 H4 H5 H6 H7 H8 H9 H10 H11 H12 H13 H14]. split; cbn; try done.
  - destruct H9 as (pre & l & ? & ? & ? & ?). exists pre, l. by rewrite D1.
  - by rewrite D2, D3.
  - intros j. rewrite D3. apply H12.
Qed.

(** ** The calls *)

Lemma rotate_holds min_bytes e w r s' told : holds e told (disk w) ->
  numbers_left e -> typed (fst s') -> rotate min_bytes (e, w) = (r, s') ->
  match r with
  | Ok _ => holds (fst s') told (disk (snd s'))
  | Err _ => keeps dir (disk (snd s')) (eq told)
  end.
Proof.
  intros (Hinv & g & Hg & Hh) Hleft Hty Hs. pose proof (rotate_inv _ _ _ _ _ _ Hinv Hleft Hty Hs) as Hinv'.
  unfold numbers_left in Hleft. pose proof (zlen_nonneg (all_entries e)). pose proof (ei_next _ _ Hinv) as Hn0.
  rewrite <- (at_rest_logged g told Hg). pose proof Hg as (Gs & Gp & Gf). rewrite rotate_split in Hs.
  apply stm_bind_cases in Hs as [(previous & [e1 w1] & Hr & Hs)|(err & Hr & ->)];
    apply (rotate_locked_standing _ _ _ _ _ _ _ Hh Gf (ei_tidy _ _ Hinv) ltac:(lia)) in Hr; [|done].
  rewrite (at_rest_logged g told Hg). destruct previous as [previous|].
  - destruct Hr as (Hd & alogs & flogs & Hh1). apply (drop_log_standing _ _ _ _ _ _ _ Hh1 Hd) in Hs as (-> & E & Hh2). cbn [fst] in *. rewrite <- E in Hh2.
    split; [done|]. eexists. by split; [|exact Hh2].
  - injection Hr as -> ->. injection Hs as <- <-. split; [done|]. by exists g.
Qed.

(** [set] and [delete]. *)
Lemma write_holds key value e w r s' told : holds e told (disk w) ->
  cf_sync config = Always \/ cf_sync config = Group ->
  has_room (st_active (en_state e)) (last_seq e + 1) -> last_seq e < u64_max ->
  numbers_left e -> typed (fst s') -> engine_write key value (e, w) = (r, s') ->
  keeps dir (disk (snd s')) (fun t => t = and_told e key value told \/ (t = told /\ r <> Ok tt)) /\
  (r = Ok tt -> holds (fst s') (and_told e key value told) (disk (snd s'))).
Proof.
  intros Hh Hpol Hroom Hlt Hleft Hty Hs. unfold engine_write in Hs.
  apply stm_bind_cases in Hs as [(berr & s1 & Hb & Hs)|(err & (e1 & ? & _)%take_background_eq & _)]; [|done].
  apply take_background_same in Hb as (e1 & [= ->] & -> & Hsame). pose proof (holds_same _ _ _ _ Hsame Hh) as Hh1.
  assert (and_told e key value told = and_told e1 key value told) as -> by (unfold and_told; by rewrite (sst_wal _ _ Hsame)).
  rewrite <- (sst_wal _ _ Hsame) in Hlt, Hroom. rewrite <- (sst_state _ _ Hsame) in Hroom.
  assert (numbers_left e1) as Hleft1.
  { revert Hleft. unfold numbers_left, all_entries. by rewrite (sst_state _ _ Hsame), (sst_next _ _ Hsame). }
  destruct (en_background_error e) as [err|].
  { injection Hs as <- <-. split; [|done]. eapply keeps_mono; [by eapply holds_keeps|]. intros ? <-. by right. }
  destruct Hh1 as (Hinv & g & Hg & Hh1). pose proof (at_rest_logged g told Hg) as Elog. pose proof Hg as (Gs & Gp & Gf). pose proof (ei_seq _ _ Hinv) as Hseq.
  apply stm_bind_cases in Hs as [(seq & [e2 w2] & Hl & Hs)|(err & Hl & ->)];
    pose proof (log_append_spec _ _ _ _ _ _ (ei_tidy _ _ Hinv) ltac:(lia) Hl) as ((L1 & L2 & L3 & L4) & Lt & Ll & Lok);
    apply (log_append_standing _ _ _ _ _ _ _ _ Hh1 (ei_tidy _ _ Hinv) Hpol ltac:(lia)) in Hl; rewrite ?Elog in Hl; cbn [fst snd] in *.
  2:{ split; [|done]. eapply keeps_mono; [exact Hl|]. intros t [->| ->]; [by right|by left]. }
  destruct Hl as (-> & alogs & Hh2). rewrite Gf in Hh2. cbn [app] in Hh2. destruct (Lok _ eq_refl) as [_ Els].
  rewrite insert_split in Hs. apply stm_bind_cases in Hs as [(full & [e3 w3] & Hi & Hs)|(err & Hi & _)]; pose proof (insert_active_eq _ _ _ _ _ _ _ Hi) as (Hgo & I1 & I2 & I3 & I4).
  2:{ cbn [fst] in *. rewrite L1 in Hgo. by destruct (Hgo (insert_returns e1 told key _ value Hinv Hroom ltac:(lia))). }
  cbn [fst] in *. clear Hgo.
  assert (forall A, represents (st_active (en_state e2)) A -> fresh_for A key (last_seq e1 + 1)) as Hfresh.
  { rewrite L1. intros A HA v Hv. destruct (ei_holds _ _ Hinv) as (A' & Fs & [Ha _ _] & _ & _ & Hwi). rewrite (represents_unique _ _ _ HA Ha) in Hv.
    destruct (Hwi A' key _ ltac:(left) Hv) as [_ Hx]. cbn in Hx. lia. }
  destruct (insert_standing key value (last_seq e1 + 1) [] _ _ _ _ _ _ Hh2 (Permutation_refl _) ltac:(by rewrite L1) Hfresh Hi) as [Ew Hh3]. cbn [fst snd] in *. subst w3.
  assert (spec_insert told key (last_seq e1 + 1) value = and_told e1 key value told) as Et.
  { apply spec_insert_above. intros v Hv. destruct (ei_told _ _ Hinv told key v ltac:(left) Hv). lia. }
  rewrite Et in Hh3. assert (engine_inv e3 (and_told e1 key value told)) as Hinv3.
  { apply (insert_told e1 e3 told key value (last_seq e1 + 1)); rewrite ?I1, ?I2, ?I3, ?I4; cbn [st_active st_frozen st_levels]; rewrite ?L1; try done; lia. }
  assert (holds e3 (and_told e1 key value told) (disk w2)) as Hh4 by (split; [done|eexists; by split; [|exact Hh3]]).
  destruct full.
  2:{ injection Hs as <- <-. split; [|done]. eapply keeps_mono; [by eapply holds_keeps|]. intros ? <-. by left. }
  assert (numbers_left e3) as Hleft3.
  { revert Hleft1. unfold numbers_left, all_entries. rewrite I4, I3, L3. cbn [st_levels]. by rewrite L1. }
  apply stm_bind_cases in Hs as [(cfg & s1 & [_ ->]%gete_eq & Hs)|(err & [? _]%gete_eq & _)]; [|done].
  pose proof (rotate_holds _ e3 w2 r s' _ Hh4 Hleft3 Hty Hs) as Hr. destruct r as [[]|err].
  - split; [|done]. eapply keeps_mono; [by eapply holds_keeps|]. intros ? <-. by left.
  - split; [|done]. eapply keeps_mono; [exact Hr|]. intros ? <-. by left.
Qed.

(** [sync]. *)
Lemma sync_holds e w r s' told : holds e told (disk w) -> engine_sync (e, w) = (r, s') -> holds (fst s') told (disk (snd s')).
Proof.
  intros (Hinv & g & Hg & Hh) Hs. split; [by eapply sync_inv|]. exists g. split; [done|]. by eapply sync_standing; [|apply Hinv|].
Qed.
End Pieces.
