(* ===== verification/Commits.v ===== *)
(** * Flushing survives a crash

    The pieces of a flush, and the commit a compaction has in common with it: cut off
    at any of its calls, each leaves a directory that keeps what the logs say; done,
    it leaves one that [standing] describes again, with a table more in the levels and
    the logs it replaces first spent and then gone. *)

From stdpp Require Import sorting.
From S2P Require Import Prelude Checksum Coding WalRecord WalReplay Wal WalAlone Memtable SsTable Disk Manifest Naming.
From S2P Require Import Compaction Layers Engine Store Shape EngineSpec Runs Callers Crashes Triples Layout Tells Reopen Recovery Opened Making Survive.

Lemma zlen_slice_le {A} (l : list A) i j : 0 <= i <= j -> zlen (slice l i j) <= j - i.
Proof. intros Hij. unfold slice, zlen. rewrite length_take. lia. Qed.

(** What a table's metadata say fits the manifest. *)
Lemma sst_opened_entries path bs t : sst_opened path bs = Ok t -> u64_ok (st_entries t).
Proof.
  unfold sst_opened. intros H. destruct (zlen bs <? FOOTER_LEN); [done|].
  apply result_bind_Ok in H as (footer & _ & H). apply result_bind_Ok in H as ([[[[io il] fo] fl] n] & Hf & H).
  apply result_bind_Ok in H as (index & _ & H). apply result_bind_Ok in H as ([[mn mx] blocks] & _ & H).
  apply result_bind_Ok in H as (filter & _ & H). apply result_bind_Ok in H as (bloom & _ & H). injection H as <-.
  unfold parse_footer in Hf. destruct (negb _) in Hf; [done|]. destruct (negb _) in Hf; [done|]. destruct (negb _) in Hf; [done|].
  destruct (_ || _) in Hf; [done|]. injection Hf as <- <- <- <- <-.
  unfold st_entries, u64_at, u64_ok. pose proof (from_le_bound (slice footer 24 (24 + 8))) as [H0 H1].
  pose proof (zlen_slice_le footer 24 (24 + 8) ltac:(lia)).
  assert (2 ^ (8 * zlen (slice footer 24 (24 + 8))) <= 2 ^ 64) by (apply Z.pow_le_mono_r; lia). unfold u64_max. lia.
Qed.

Lemma meta_typed number level path bs t : sst_opened path bs = Ok t -> st_bytes t <= u64_max -> u64_ok number -> 0 <= level ->
  let f := meta_of number level t in
  u64_ok (fm_number f) /\ 0 <= fm_level f /\ u64_ok (fm_bytes f) /\ u64_ok (fm_entries f).
Proof.
  intros Ho Hb Hn Hl. cbn. split_and!; [done|done| |by eapply sst_opened_entries].
  split; [|done]. rewrite (sst_opened_bytes _ _ _ Ho). apply zlen_nonneg.
Qed.

(** ** What a commit leaves *)

(** The old manifest or the new one, over the same logs. *)
Lemma either_keeps dir man sn ts gone logs next d levels levels' told :
  either dir man sn ts gone logs next d -> alt_ok man levels -> saved sn levels' ->
  (forall t, t ∈ concat levels \/ t ∈ concat levels' -> t ∈ ts) -> Forall (fun l => lf_pending l = []) (gone ++ logs) ->
  (forall j, tells (sn_last_seq (sn_of man)) levels (records_of (drop j gone ++ logs)) told) ->
  (forall j, tells (sn_last_seq sn) levels' (records_of (drop j gone ++ logs)) told) -> keeps dir d (eq told).
Proof.
  intros Hl Ha Hs Hts Hp Ht Ht'. exists [(man, levels); (Some sn, levels')], gone, logs, [], next. split.
  - eapply layout_weaken; [exact Hl| |].
    + intros s [<-| ->]; [left|right; left].
    + intros t. unfold alt_tables. cbn. rewrite app_nil_r, elem_of_app. apply Hts.
  - assert (forall j (born' : list LogFile) ls, born' = [] \/ born' = [] -> Forall2 left_of (drop j gone ++ logs ++ born') ls ->
      records_of ls = records_of (drop j gone ++ logs)) as Hrec.
    { intros j born' ls Hb Hleft. assert (born' = []) as -> by by destruct Hb. rewrite app_nil_r in Hleft.
      apply (left_of_settled _ _ Hleft). rewrite Forall_app in *. split; [apply Forall_drop|]; tauto. }
    intros s levs [[= -> ->]|[= -> ->]%list_elem_of_singleton]%elem_of_cons; (split; [done|]); intros j born' ls Hb Hleft;
      exists told; (split; [done|]); by rewrite (Hrec j born' ls Hb Hleft).
Qed.

Section Committing.
Context {T : Type} `{MemtableLaws T} (dir : string) (config : Config).
Implicit Types (e : Engine T) (w : World) (told : layer) (g : Ledger).

#[local] Abbreviation standing := (standing dir config).
#[local] Abbreviation levels e := (st_levels (en_state e)).
#[local] Abbreviation last_seq e := (wl_last_seq (en_wal e)).

Definition next_snapshot (added : list FileMeta) (removed : list Z) e : Snapshot :=
  mkSnapshot (filter (fun file => fm_number file ∉ removed) (sn_files (en_snapshot e)) ++ added)
    (Z.max (sn_last_seq (en_snapshot e)) (last_seq e)) (en_next_number e).

Definition same_places e e' : Prop := en_dir e' = en_dir e /\ en_config e' = en_config e /\ en_manifest e' = en_manifest e.

(** [e'] is [e] with another snapshot and state. *)
Record committed e e' (sn : Snapshot) (st : State T) : Prop := {
  cm_wal : en_wal e' = en_wal e;
  cm_snapshot : en_snapshot e' = sn;
  cm_state : en_state e' = st;
  cm_next : en_next_number e' = en_next_number e;
  cm_places : same_places e e';
}.

Lemma commit_runs added removed publish e w r s' : commit added removed publish (e, w) = (r, s') ->
  exists rm, manifest_store (en_manifest e) (next_snapshot added removed e) w = (rm, snd s') /\
    match rm with
    | Ok _ => r = Ok tt /\ committed e (fst s') (next_snapshot added removed e) (publish (en_state e))
    | Err err => r = Err err /\ fst s' = e
    end.
Proof.
  unfold commit, gete, gets, set_snapshot, set_state, modify, on_disk. intros Hs.
  unfold mbind at 1 2 3 4, stm_bind in Hs. cbn [fst] in Hs. unfold mbind, stm_bind in Hs. cbn [fst] in Hs.
  fold (next_snapshot added removed e) in Hs.
  destruct (manifest_store _ _ w) as [[[]|err] w1] eqn:E; injection Hs as <- <-; cbn [fst snd]; by eexists.
Qed.

(** Between the commit and the end only the queue changes. *)
Lemma mark_progress_same e w r s' : mark_progress (e, w) = (r, s') -> r = Ok tt /\ snd s' = w /\ same_store e (fst s').
Proof. unfold mark_progress, gete, gets, set_queue, modify. unfold mbind, stm_bind. by intros [= <- <-]. Qed.

Lemma add_bytes_same n e w r s' : add_bytes_written n (e, w) = (r, s') -> r = Ok tt /\ snd s' = w /\ same_store e (fst s').
Proof. unfold add_bytes_written, modify. by intros [= <- <-]. Qed.

(** The newest log is whole, and the spent ones stay until they are removed. *)
Lemma standing_steady e told g d : standing e told g d ->
  exists pre l, lg_active g = pre ++ [l] /\ l ∈ lg_spent g ++ lg_logs g /\ wl_file (en_wal e) = lf_inode l /\ steady l (lg_spent g) d.
Proof.
  intros Hh. destruct (sd_newest _ _ _ _ _ _ Hh) as (pre & l & Ea & Hw & Hc & Hf). exists pre, l.
  split_and!; [done| |done|split; [done|apply Hh]]. unfold lg_logs, logs_of. rewrite Ea, !elem_of_app. right. right. right. left.
Qed.

(** What the manifest says is fit to be read back. *)
Lemma saved_next added removed e told g d levels' : standing e told g d -> 0 <= last_seq e <= u64_max -> 0 <= en_next_number e <= u64_max ->
  (forall f, f ∈ added -> u64_ok (fm_number f) /\ 0 <= fm_level f /\ u64_ok (fm_bytes f) /\ u64_ok (fm_entries f)) ->
  shape_ok (next_snapshot added removed e) (en_next_number e) levels' -> StronglySorted newer (default [] (head levels')) ->
  saved (next_snapshot added removed e) levels'.
Proof.
  intros Hh Hl Hn Hadd Hshape Hnew. destruct (alt_shape _ _ (sd_alt _ _ _ _ _ _ Hh)) as (_ & _ & (T1 & T2 & T3)).
  rewrite <- (sd_snapshot _ _ _ _ _ _ Hh) in T1, T2, T3. split; [|eapply shape_later; [exact Hshape|lia]|done].
  split_and!; cbn [next_snapshot sn_last_seq sn_next_number sn_files]; [unfold u64_ok in *; lia..|]. apply Forall_app. split.
  - apply Forall_forall. intros f [_ Hf]%list_elem_of_filter. rewrite Forall_forall in T3. by apply T3.
  - apply Forall_forall. exact Hadd.
Qed.

Lemma drop_sub {A} j (a b c : list A) x : x ∈ drop j (a ++ b) ++ c -> x ∈ a ++ b ++ c.
Proof.
  rewrite app_assoc. intros [Hx|Hx]%elem_of_app; apply elem_of_app; [left|by right]. rewrite <- (take_drop j (a ++ b)). apply elem_of_app. by right.
Qed.

(** A commit: of other levels, over the same logs, some of them spent by it. *)
Lemma commit_standing added removed publish e w r s' told g spent rest flogs levels' : standing e told g (disk w) ->
  commit added removed publish (e, w) = (r, s') ->
  publish (en_state e) = mkState (st_active (en_state e)) (st_active_logs (en_state e)) rest levels' ->
  saved (next_snapshot added removed e) levels' -> (forall u, u ∈ concat levels' -> u ∈ concat (levels e) ++ lg_pending g) ->
  lg_spent g ++ lg_logs g = spent ++ logs_of flogs (lg_active g) ->
  Forall2 (fun f ls => represents (fz_memtable f) (memory_of (records_of ls)) /\ fz_logs f = log_names ls) rest flogs ->
  (forall j, tells (Z.max (sn_last_seq (en_snapshot e)) (last_seq e)) levels'
    (records_of (drop j (lg_gone g ++ spent) ++ logs_of flogs (lg_active g))) (logged g told)) ->
  match r with
  | Ok _ => standing (fst s') told
      (mkLedger (Some (next_snapshot added removed e)) [] spent (lg_active g) flogs (lg_pending g) (lg_flying g)) (disk (snd s')) /\
      levels (fst s') = levels'
  | Err _ => keeps dir (disk (snd s')) (eq (logged g told))
  end.
Proof.
  intros Hh Hc Hpub Hsv Hts Elogs Hrest Htells. set (sn := next_snapshot added removed e) in *.
  destruct (standing_steady _ _ _ _ Hh) as (pre & l & Ea & Hin & Ew & Hst). pose proof (sd_settled _ _ _ _ _ _ Hh) as Hp.
  apply commit_runs in Hc as (rm & Hm & Hc). fold sn in Hm, Hc.
  apply (dtriple_run _ _ _ _ _ _ _ (dtriple_manifest_store dir (lg_man g) sn _ (lg_gone g) _ _ l Hin (lg_spent g) (sv_typed _ _ Hsv) _)
    (conj (sd_layout _ _ _ _ _ _ Hh) Hst)) in Hm.
  assert (forall n, drop n (lg_gone g) ++ lg_spent g ++ lg_logs g = drop n (lg_gone g) ++ spent ++ logs_of flogs (lg_active g)) as En by (intros n; by rewrite Elogs).
  destruct rm as [[]|err]; destruct Hc as [-> Hc]; cbn [fst snd] in *.
  2:{ eapply (either_keeps dir (lg_man g) sn _ (lg_gone g) _ _ _ (levels e)); [exact Hm|apply Hh|exact Hsv| |exact Hp|..].
      - intros t [Ht|Ht]; [apply elem_of_app; by left|by apply Hts].
      - intros j. destruct (drop_some j (lg_gone g) (lg_spent g) (lg_logs g)) as [m ->]. rewrite <- (sd_snapshot _ _ _ _ _ _ Hh). apply Hh.
      - intros j. rewrite En. destruct (drop_some j (lg_gone g) spent (logs_of flogs (lg_active g))) as [m ->]. apply Htells. }
  destruct Hm as (Hl & [Hw _] & Hpin). destruct Hc as [C1 C2 C3 C4 (C5 & C6 & C7)]. rewrite Elogs in Hl, Hpin, Hp.
  assert (forall j, drop j spent = drop (length (lg_gone g) + j) (lg_gone g ++ spent)) as Edrop.
  { intros j. rewrite drop_app_ge by lia. f_equal. lia. }
  rewrite Hpub in C3. split; [|by rewrite C3].
  split; rewrite ?C1, ?C2, ?C3, ?C4; cbn [st_levels st_active st_active_logs st_frozen lg_man lg_gone lg_spent lg_active lg_frozen lg_pending lg_flying app];
    unfold lg_logs, logged; cbn [lg_man lg_gone lg_spent lg_active lg_frozen lg_pending lg_flying app]; try done; try apply Hh.
  - eapply layout_weaken; [exact Hl|done|]. intros u [Hu|Hu]%elem_of_app; [by apply Hts|apply elem_of_app; by right].
  - by apply Forall_app in Hp as [_ ?].
  - intros c x Hcc Hx. apply Hpin; [done|]. apply elem_of_app. by left.
  - exists pre, l. by destruct Hw.
  - intros j. rewrite Edrop. apply Htells.
  - intros j. rewrite Edrop. set (X := records_of _). pose proof (highest_seq_spec X (Z.max (sn_last_seq (en_snapshot e)) (last_seq e))) as [Hge _].
    set (Y := records_of (drop 0 (lg_gone g ++ lg_spent g) ++ lg_logs g)).
    pose proof (highest_seq_spec Y (sn_last_seq (en_snapshot e))) as [Hge' Hle']. unfold Y in Hge', Hle'. rewrite <- (sd_last _ _ _ _ _ _ Hh 0) in Hge', Hle'.
    fold Y in Hle'. change (sn_last_seq sn) with (Z.max (sn_last_seq (en_snapshot e)) (last_seq e)). apply Z.le_antisymm; [lia|]. apply highest_seq_le; [lia|]. intros x Hx. apply Hle'.
    unfold X, Y, records_of in *. apply elem_of_concat in Hx as (recs & (lf & -> & Hlf)%list_elem_of_fmap & Hx).
    apply elem_of_concat. exists (lf_records lf). split; [|done]. apply list_elem_of_fmap_2. apply drop_sub in Hlf. rewrite drop_0, <- app_assoc, Elogs. exact Hlf.
  - rewrite C5, C6, C7. apply Hh.
Qed.

(** Tables on the device for good, in a directory that has been flushed. *)
Lemma standing_made e e' told g d d' pending : standing e told g d ->
  en_wal e' = en_wal e -> en_state e' = en_state e -> en_snapshot e' = en_snapshot e -> same_places e e' ->
  layout dir d' (eq (lg_man g)) (concat (levels e) ++ pending) [] (lg_spent g ++ lg_logs g) [] (en_next_number e') ->
  (forall pre l, lg_active g = pre ++ [l] -> steady l (lg_spent g) d') ->
  standing e' told (mkLedger (lg_man g) [] (lg_spent g) (lg_active g) (lg_frozen g) pending (lg_flying g)) d'.
Proof.
  intros Hh Ew Est Esn (Ed & Ec & Em) Hl Hst. destruct (standing_steady _ _ _ _ Hh) as (pre & l & Ea & _ & Ef & _).
  destruct (Hst pre l Ea) as [[Hc Hf] Hpin].
  assert (forall j, drop j ([] ++ lg_spent g) = drop (length (lg_gone g) + j) (lg_gone g ++ lg_spent g)) as Edrop.
  { intros j. cbn [app]. rewrite drop_app_ge by lia. f_equal. lia. }
  split; rewrite ?Ew, ?Est, ?Esn; cbn [lg_man lg_gone lg_spent lg_active lg_frozen lg_pending lg_flying]; unfold lg_logs, logged;
    cbn [lg_man lg_gone lg_spent lg_active lg_frozen lg_pending lg_flying]; try done; try apply Hh.
  - pose proof (sd_settled _ _ _ _ _ _ Hh) as Hp. by apply Forall_app in Hp as [_ ?].
  - by exists pre, l.
  - intros j. rewrite Edrop. apply Hh.
  - intros j. rewrite Edrop. apply Hh.
  - rewrite Ed, Ec, Em. apply Hh.
Qed.

(** While tables are being written, nothing else changes. *)
Lemma making_keeps e told g d l outs next d' : standing e told g d ->
  making dir (lg_man g) (concat (levels e) ++ lg_pending g) (lg_spent g ++ lg_logs g) l (lg_spent g) (lg_gone g) outs next d' ->
  keeps dir d' (eq (logged g told)).
Proof.
  intros Hh [Hl _]. change (lg_gone g) with (drop 0 (lg_gone g)) in Hl. eapply (standing_left dir config e told g); [exact Hh|exact Hl| |constructor].
  intros t Ht. apply elem_of_app. by left.
Qed.

(** The directory flushed, the outputs are in it for good. *)
Lemma outputs_synced man ts logs l ps gone outs next d : making dir man ts logs l ps gone outs next d ->
  layout dir (dir_synced d) (eq man) (outs ++ ts) [] logs [] next /\ steady l ps (dir_synced d).
Proof.
  intros (Hl & Hw & Hs). split; [|by apply steady_dir_synced].
  destruct (ms_in _ _ (ly_manifest _ _ _ _ _ _ _ _ Hl) _ (candidates_names d)) as (? & <- & Hm).
  apply (layout_sync_dir dir d _ _ gone _ [] next man) in Hl as [L1 L2 L3 L4]; [|done]. split; [done|done| |done].
  apply Forall_app. split; [|done]. apply Forall_forall. intros t Ht. destruct (Hs t Ht) as (i & H1 & H2 & H3). by apply (table_in_synced dir d t i).
Qed.
End Committing.

(** ** Flushing *)

Section Flushing.
Context {T : Type} `{MemtableLaws T} (dir : string) (config : Config).
Implicit Types (e : Engine T) (w : World) (told : layer) (g : Ledger).

#[local] Abbreviation standing := (standing dir config).
#[local] Abbreviation holds := (holds dir config).
#[local] Abbreviation levels e := (st_levels (en_state e)).
#[local] Abbreviation last_seq e := (wl_last_seq (en_wal e)).

(** What the metadata of a table that has been written say of it. *)
Definition described (level : Z) (t : Table) : Prop :=
  exists path bs, sst_opened path bs = Ok (tb_table t) /\ tb_meta t = meta_of (number_of t) level (tb_table t).

Lemma described_typed level t : described level t -> st_bytes (tb_table t) <= u64_max -> u64_ok (number_of t) -> 0 <= level ->
  u64_ok (fm_number (tb_meta t)) /\ 0 <= fm_level (tb_meta t) /\ u64_ok (fm_bytes (tb_meta t)) /\ u64_ok (fm_entries (tb_meta t)).
Proof. intros (path & bs & Ho & ->) Hb Hn Hl. by eapply meta_typed. Qed.

(** Handing out a number leaves the rest alone. *)
Lemma fetch_number_runs e w : 0 <= en_next_number e < u64_max ->
  exists e1, fetch_number (e, w) = (Ok (en_next_number e), (e1, w)) /\ quiet 1 e e1 /\ en_next_number e1 = en_next_number e + 1 /\
    same_places e e1.
Proof.
  intros Hn. destruct (fetch_number (e, w)) as [r s'] eqn:E. pose proof E as E'.
  apply fetch_number_eq in E as (e1 & -> & -> & Hq & Hx); [|done]. exists e1. split_and!; [done..|].
  unfold fetch_number in E'. by injection E' as <-.
Qed.

(** The table, in its file. *)
Lemma flush_file_standing frozen e w r s' told g : standing e told g (disk w) -> 0 <= en_next_number e < u64_max ->
  flush_file frozen (e, w) = (r, s') ->
  match r with
  | Ok t => standing (fst s') told
      (mkLedger (lg_man g) [] (lg_spent g) (lg_active g) (lg_frozen g) (t :: lg_pending g) (lg_flying g)) (disk (snd s')) /\
      described 0 t /\ number_of t = en_next_number e
  | Err _ => keeps dir (disk (snd s')) (eq (logged g told))
  end.
Proof.
  intros Hh Hn0 Hs. set (k := en_next_number e) in *. assert (u64_ok k) as Hu by (unfold u64_ok; lia).
  destruct (sd_places _ _ _ _ _ _ Hh) as (Edir & Ecf & Eman). destruct (standing_steady _ _ _ _ _ _ Hh) as (pre & l & Ea & Hin & Ew & Hst).
  set (ts := concat (levels e) ++ lg_pending g) in *. set (logs := lg_spent g ++ lg_logs g) in *.
  set (M := fun next d => making dir (lg_man g) ts logs l (lg_spent g) (lg_gone g) [] next d).
  assert (forall next d, M next d -> keeps dir d (eq (logged g told))) as Hkeep by (intros next d Hm; by eapply making_keeps).
  assert (M k (disk w)) as Hm0.
  { split; [apply Hh|]. split; [done|]. by intros t ?%elem_of_nil. }
  unfold flush_file in Hs. destruct (fetch_number_runs e w ltac:(fold k; lia)) as (e1 & Ef & [Q1 Q2 Q3 _ _] & En1 & (Ed1 & Ec1 & Em1)). fold k in Ef, En1.
  apply stm_bind_cases in Hs as [(number & s1 & Hf & Hs)|(err & Hf & _)]; rewrite Ef in Hf; [|done]. injection Hf as <- <-.
  apply stm_bind_cases in Hs as [(dir' & s1 & [[= ->] ->]%gete_eq & Hs)|(err & [? _]%gete_eq & _)]; [|done]. cbn [fst] in Hs.
  rewrite Ed1, Edir in Hs. change (file_name k TABLE_EXT) with (table_name k) in Hs.
  apply stm_bind_cases in Hs as [(i & s1 & (w1 & H1 & ->)%on_disk_eq & Hs)|(err & (w1 & H1 & ->)%on_disk_eq & ->)];
    apply (dtriple_run _ _ _ _ _ _ _ (dtriple_create_partial dir (lg_man g) _ _ l Hin (lg_spent g) (lg_gone g) [] k (k + 1) k Hu ltac:(lia)) Hm0) in H1;
    cbn [fst snd] in *; [|by eapply Hkeep].
  destruct (mt_for_each (fz_memtable frozen) writer_add _) as [added wr].
  apply stm_bind_cases in Hs as [([] & s1 & Hl & Hs)|(err & Hl & ->)]; unfold lift in Hl; injection Hl as ? <-; cbn [fst snd];
    [|destruct H1 as [H1 _]; by eapply Hkeep].
  apply stm_bind_cases in Hs as [([] & s1 & (w2 & H2 & ->)%on_disk_eq & Hs)|(err & (w2 & H2 & ->)%on_disk_eq & ->)];
    apply (dtriple_run _ _ _ _ _ _ _ (dtriple_writer_close dir (lg_man g) _ _ l Hin (lg_spent g) (lg_gone g) [] (k + 1) k i _ wr) H1) in H2; cbn [fst snd] in *;
    [|by eapply Hkeep].
  apply stm_bind_cases in Hs as [([] & s1 & (w3 & H3 & ->)%on_disk_eq & Hs)|(err & (w3 & H3 & ->)%on_disk_eq & ->)];
    apply (dtriple_run _ _ _ _ _ _ _ (dtriple_rename_table dir (lg_man g) _ _ l (lg_spent g) (lg_gone g) [] (k + 1) k i _ _ Hu ltac:(lia)) H2) in H3; cbn [fst snd] in *;
    [|by eapply Hkeep].
  apply stm_bind_cases in Hs as [([] & s1 & (w4 & H4 & ->)%on_disk_eq & Hs)|(err & (w4 & H4 & ->)%on_disk_eq & ->)];
    apply (dtriple_run _ _ _ _ _ _ _ (dtriple_sync_dir (fun d => M (k + 1) d /\ placed k (w_file (writer_finish wr).2) d) _) H3) in H4;
    cbn [fst snd] in *; [|destruct H4 as [H4 _]; by eapply Hkeep].
  destruct H4 as (d0 & [Hm4 Hp4] & Hd4).
  apply stm_bind_cases in Hs as [(tbl & s1 & (w5 & H5 & ->)%on_disk_eq & Hs)|(err & (w5 & H5 & ->)%on_disk_eq & ->)];
    apply (dtriple_run _ _ _ _ _ _ _ (dtriple_table_open_any (eq (disk w4)) _ _) eq_refl) in H5; cbn [fst snd] in *.
  2:{ rewrite <- H5, Hd4. destruct (outputs_synced _ _ _ _ _ _ _ _ _ _ Hm4) as [Hl _].
      eapply (standing_left dir config e told g _ _ _ (length (lg_gone g))); [exact Hh|rewrite drop_all; exact Hl| |constructor].
      intros u Hu'. unfold ts. rewrite !elem_of_app. auto. }
  destruct H5 as (E5 & j & Hj & Ho). rewrite <- E5 in *.
  apply stm_bind_cases in Hs as [([] & [e6 w6] & (_ & E6 & [A1 A2 A3 A4 (A5 & A6 & A7)])%add_bytes_same & Hs)|(err & (? & _)%add_bytes_same & _)]; [|done].
  injection Hs as <- <-. cbn [fst snd] in *. subst w6. rewrite <- E5. set (t := mkTable (meta_of k 0 tbl) tbl) in *.
  assert (making dir (lg_man g) ts logs l (lg_spent g) (lg_gone g) [t] (k + 1) d0) as Hmade.
  { destruct Hm4 as (Hl4 & Hw4 & _). split; [done|]. split; [done|]. intros u ->%list_elem_of_singleton. destruct Hp4 as (j' & Hj' & Hcl & Hct).
    exists j'. change (number_of t) with k. split_and!; [done|done|]. rewrite Hd4 in Hj, Ho. cbn in Hj. assert (j' = j) as -> by congruence. exact Ho. }
  split; [|split; [eexists _, _; by split; [exact Ho|]|done]]. destruct (outputs_synced _ _ _ _ _ _ _ _ _ _ Hmade) as [Hl Hw]. rewrite <- Hd4 in Hl, Hw.
  eapply standing_made; [exact Hh|congruence|congruence|congruence|split_and!; congruence| |].
  - rewrite A4, En1. eapply layout_weaken; [exact Hl|done|]. intros u. unfold ts. rewrite !elem_of_app, elem_of_cons, list_elem_of_singleton. tauto.
  - intros pre' l' E. rewrite Ea in E. by apply app_inj_2 in E as [_ [= <-]].
Qed.

(** The oldest frozen table and its logs. *)
Lemma standing_oldest frozen e told g d : standing e told g d -> engine_inv e told ->
  last (st_frozen (en_state e)) = Some frozen ->
  exists rest flogs ls, st_frozen (en_state e) = rest ++ [frozen] /\ lg_frozen g = flogs ++ [ls] /\
    Forall2 (fun f ls => represents (fz_memtable f) (memory_of (records_of ls)) /\ fz_logs f = log_names ls) rest flogs /\
    represents (fz_memtable frozen) (memory_of (records_of ls)) /\ fz_logs frozen = log_names ls /\
    lg_logs g = ls ++ logs_of flogs (lg_active g) /\
    Forall (above (memory_of (records_of ls))) (file_layers (levels e)).
Proof.
  intros Hh Hinv Hlast. pose proof Hlast as Hl. apply last_Some in Hl as [rest Erest]. pose proof (sd_frozen _ _ _ _ _ _ Hh) as Hf.
  rewrite Erest in Hf. apply Forall2_app_inv_l in Hf as (flogs & last' & Hrest & Hls & Ef).
  apply Forall2_cons_inv_l in Hls as (ls & ? & [Hr Hn] & Hnil & ->). apply Forall2_nil_inv_l in Hnil as ->.
  exists rest, flogs, ls. set (m := memory_of (records_of ls)) in *.
  destruct (ei_holds _ _ Hinv) as (A & Fs & Hst & Hord & _ & Hwi).
  destruct (frozen_last _ _ _ _ Hst Hlast) as (rest' & m' & Gs & _ & -> & Hr' & Hne & _).
  rewrite (represents_unique _ _ _ Hr' Hr) in *. split_and!; [done..| |].
  - unfold lg_logs, logs_of. rewrite Ef, reverse_app, concat_app, <- app_assoc. cbn. by rewrite app_nil_r.
  - unfold layers_of in Hord. cbn in Hord. destruct Hord as [_ Hord]. apply layers_ordered_app in Hord as (_ & _ & Hord).
    apply Forall_forall. intros f Hin. apply Hord; [|done]. apply elem_of_app. right. left.
Qed.

(** The commit that counts the table in. *)
Lemma flush_commit_standing frozen t e w r s' told g : standing e told g (disk w) -> engine_inv e told ->
  lg_gone g = [] -> lg_spent g = [] -> t ∈ lg_pending g -> described 0 t -> made_of frozen t -> last (st_frozen (en_state e)) = Some frozen ->
  0 <= number_of t < en_next_number e -> en_next_number e <= u64_max -> last_seq e <= u64_max ->
  (forall u, u ∈ concat (levels e) -> number_of t <> number_of u) ->
  (forall u, u ∈ default [] (head (levels e)) -> number_of u < number_of t) -> st_bytes (tb_table t) <= u64_max ->
  commit [tb_meta t] [] (publish_flush t) (e, w) = (r, s') ->
  match r with
  | Ok _ => exists man spent flogs, fz_logs frozen = log_names spent /\ standing (fst s') told
      (mkLedger man [] spent (lg_active g) flogs (lg_pending g) (lg_flying g)) (disk (snd s'))
  | Err _ => keeps dir (disk (snd s')) (eq (logged g told))
  end.
Proof.
  intros Hh Hinv Hg Hsp Hpt Hde (es & (Hlv & _ & Hgood) & Hso & Hq & Hrep') Hlast Hnum Hn Hl Hap Hnew Hb Hc.
  destruct (Hgood Hb Hso Hq) as [Hok Hent]. pose proof (ei_shape _ _ Hinv) as Hshape. pose proof (ei_seq _ _ Hinv) as Hseq.
  destruct (standing_oldest _ _ _ _ _ Hh Hinv Hlast) as (rest & flogs & ls & Erest & Eflogs & Hrest & Hrep & Hnames & Elogs & Habove).
  assert (table_map t = memory_of (records_of ls)) as Htm by (unfold table_map; rewrite Hent; by apply (represents_unique _ _ _ Hrep' Hrep)).
  pose proof (lk_some _ (so_levels _ _ _ Hshape)) as Hne.
  destruct (tables_published (en_snapshot e) (next_snapshot [tb_meta t] [] e) (en_next_number e) (levels e) [t] Hshape) as [Hshape' _].
  { by constructor. }
  { by constructor. }
  { apply NoDup_singleton. }
  { by intros u ->%list_elem_of_singleton. }
  { intros u v ->%list_elem_of_singleton. apply Hap. }
  { cbn [next_snapshot sn_files]. rewrite filter_nothing_removed. by rewrite Permutation_app_comm. }
  change (app [t]) with (cons t) in *.
  assert (saved (next_snapshot [tb_meta t] [] e) (alter (cons t) 0%nat (levels e))) as Hsv.
  { destruct (alt_shape _ _ (sd_alt _ _ _ _ _ _ Hh)) as (_ & Hnewest & _). eapply saved_next; [exact Hh|lia|lia| |exact Hshape'|].
    - intros f ->%list_elem_of_singleton. eapply described_typed; [exact Hde|done|unfold u64_ok; lia|done].
    - destruct (levels e) as [|l0 deeper]; [done|]. cbn in Hnewest, Hnew |- *. constructor; [done|]. by apply Forall_forall. }
  assert (forall u, u ∈ concat (alter (cons t) 0%nat (levels e)) -> u ∈ concat (levels e) ++ lg_pending g) as Hts.
  { intros u. destruct (levels e) as [|l0 deeper]; [done|]. cbn. rewrite elem_of_cons. intros [->|?]; apply elem_of_app; auto. }
  pose proof (sd_tells _ _ _ _ _ _ Hh 0) as Hold. pose proof (sd_last _ _ _ _ _ _ Hh 0) as Hlst. rewrite Hg, Hsp, Elogs in Hold, Hlst. cbn [app drop] in Hold, Hlst.
  assert (publish_flush t (en_state e) = mkState (st_active (en_state e)) (st_active_logs (en_state e)) rest (alter (cons t) 0%nat (levels e))) as Hpub.
  { unfold publish_flush. by rewrite Erest, length_app, Nat.add_sub, take_app_length. }
  pose proof (commit_standing dir config _ _ _ _ _ _ _ _ _ ls rest flogs _ Hh Hc Hpub Hsv Hts ltac:(by rewrite Hsp, Elogs) Hrest) as Hr.
  assert (forall j, tells (Z.max (sn_last_seq (en_snapshot e)) (last_seq e)) (alter (cons t) 0%nat (levels e))
    (records_of (drop j (lg_gone g ++ ls) ++ logs_of flogs (lg_active g))) (logged g told)) as Htells.
  { intros j. rewrite Hg. cbn [app]. rewrite records_of_app in Hold, Hlst |- *. rewrite <- (take_drop j ls), records_of_app in Hold, Htm, Habove, Hlst.
    eapply tells_flush; [exact Hold|exact Htm|exact Habove|done|lia]. }
  specialize (Hr Htells). destruct r as [[]|err]; [|done]. destruct Hr as [Hr _]. by eexists _, ls, flogs.
Qed.

(** The logs it replaces. *)
Lemma remove_logs_standing frozen e w r s' told g : standing e told g (disk w) -> fz_logs frozen = log_names (lg_spent g) ->
  remove_logs frozen (e, w) = (r, s') ->
  match r with
  | Ok _ => fst s' = e /\ standing e told
      (mkLedger (lg_man g) (lg_gone g ++ lg_spent g) [] (lg_active g) (lg_frozen g) (lg_pending g) (lg_flying g)) (disk (snd s'))
  | Err _ => keeps dir (disk (snd s')) (eq (logged g told))
  end.
Proof.
  intros Hh Hnames Hs. unfold remove_logs in Hs.
  apply stm_bind_cases in Hs as [(dir' & s1 & [[= ->] ->]%gete_eq & Hs)|(err & [? _]%gete_eq & _)]; [|done]. cbn [fst] in Hs.
  destruct (sd_places _ _ _ _ _ _ Hh) as (Edir & _). rewrite Edir, Hnames in Hs.
  destruct (standing_steady _ _ _ _ _ _ Hh) as (pre & l & Ea & _ & Ew & [Hw Hpin]).
  apply on_disk_eq in Hs as (w1 & Hr & ->). cbn [fst snd].
  apply (dtriple_run _ _ _ _ _ _ _ (dtriple_remove_logs dir (lg_man g) _ _ l (lg_logs g) (lg_spent g) (lg_gone g))
    (conj (sd_layout _ _ _ _ _ _ Hh) (conj Hw Hpin))) in Hr.
  pose proof (sd_settled _ _ _ _ _ _ Hh) as Hp. destruct r as [[]|err].
  - destruct Hr as [Hl [Hc Hf]]. split; [done|]. destruct Hh as [H1 H2 H3 H4 H5 H6 H7 H8 H9 H10 H11 H12 H13 H14].
    split; cbn [lg_man lg_gone lg_spent lg_active lg_frozen lg_pending lg_flying app]; unfold lg_logs, logged;
      cbn [lg_man lg_gone lg_spent lg_active lg_frozen lg_pending lg_flying app]; try done.
    + by rewrite <- app_assoc.
    + by intros c x _ ?%elem_of_nil.
    + by exists pre, l.
    + intros j. rewrite app_nil_r. apply H11.
    + intros j. rewrite app_nil_r. apply H12.
  - destruct Hr as (a & b & Eab & Hl).
    apply (keeps_one dir _ (lg_man g) (levels e) (lg_gone g ++ a) (b ++ lg_logs g) [] (en_next_number e)); [|apply Hh| |constructor|].
    + eapply layout_weaken; [exact Hl|done|]. intros u Hu. apply elem_of_app. by left.
    + rewrite app_nil_r. rewrite Eab, <- !app_assoc in Hp. by rewrite <- app_assoc.
    + intros j. exists (logged g told). split; [done|]. rewrite <- (sd_snapshot _ _ _ _ _ _ Hh).
      destruct (drop_some j (lg_gone g ++ a) b (lg_logs g)) as [m ->]. rewrite <- app_assoc, <- Eab. apply Hh.
Qed.

(** [flush]. *)
Lemma flush_holds frozen e w r s' told : holds e told (disk w) ->
  last (st_frozen (en_state e)) = Some frozen -> numbers_left e -> typed (fst s') ->
  (forall t s1, flush_file frozen (e, w) = (Ok t, s1) -> st_bytes (tb_table t) <= u64_max) ->
  flush frozen (e, w) = (r, s') ->
  match r with
  | Ok _ => holds (fst s') told (disk (snd s'))
  | Err _ => keeps dir (disk (snd s')) (eq told)
  end.
Proof.
  intros (Hinv & g & Hg & Hh) Hlast Hleft Hty Hlen Hs.
  pose proof (flush_inv _ _ _ _ _ _ Hinv Hlast Hleft Hty Hs) as Hinv'. unfold numbers_left in Hleft. pose proof (zlen_nonneg (all_entries e)).
  pose proof (ei_shape _ _ Hinv) as Hshape. pose proof (ei_seq _ _ Hinv) as Hseq. pose proof (ei_next _ _ Hinv) as Hn0.
  assert (frozen ∈ st_frozen (en_state e)) as Hin by (apply last_Some in Hlast as [rest ->]; apply elem_of_app; right; left).
  rewrite <- (at_rest_logged g told Hg). pose proof Hg as (Gs & Gp & Gf). unfold flush in Hs.
  apply stm_bind_cases in Hs as [(t & [e1 w1] & Hf & Hs)|(err & Hf & ->)];
    pose proof (flush_file_standing _ _ _ _ _ _ _ Hh ltac:(lia) Hf) as Hh1; cbn [fst snd] in *; [|exact Hh1].
  destruct Hh1 as (Hh1 & Hde & Hnum). apply Hlen in Hf as Hb.
  apply (flush_file_made _ _ _ _ _ _ Hinv Hin) in Hf as [Hq1 Hf]; [|lia]. cbn [fst] in *.
  destruct (Hf t eq_refl) as [Hmade Hrg]. pose proof (quiet_inv _ _ _ _ Hinv Hq1) as Hinv1. pose proof Hq1 as [Q1 Q2 Q3 Q4 Q5].
  assert (forall u, u ∈ concat (levels e1) -> number_of u < number_of t) as Hnew.
  { rewrite Q3, Hnum. intros u Hu. apply (so_next _ _ _ Hshape u Hu). }
  change ((_ ← commit [tb_meta t] [] (publish_flush t); dir ← gete en_dir; _ ← on_disk (remove_files dir (fz_logs frozen)); mark_progress) (e1, w1))
    with ((_ ← commit [tb_meta t] [] (publish_flush t); _ ← remove_logs frozen; mark_progress) (e1, w1)) in Hs.
  apply stm_bind_cases in Hs as [([] & [e2 w2] & Hc & Hs)|(err & Hc & ->)];
    apply (flush_commit_standing frozen t _ _ _ _ _ _ Hh1 Hinv1) in Hc; cbn [fst snd lg_gone lg_spent lg_pending] in *; try done; try lia;
    try (by left); try (by rewrite Q3); try (by rewrite Q1; lia); try (by intros u Hu; specialize (Hnew u Hu); lia);
    try (by intros u Hu; apply Hnew; destruct (levels e1); [done|apply elem_of_app; by left]).
  destruct Hc as (man & spent & flogs & Hnames & Hh2).
  apply stm_bind_cases in Hs as [([] & [e3 w3] & Hr & Hs)|(err & Hr & ->)]; apply (remove_logs_standing _ _ _ _ _ _ _ Hh2 Hnames) in Hr; cbn [fst snd] in *; [|exact Hr].
  destruct Hr as [-> Hh3]. apply mark_progress_same in Hs as (-> & -> & Hsame). split; [by rewrite (at_rest_logged g told Hg) in *|].
  eexists. split; [|eapply standing_same; [exact Hsame|]; eapply (standing_perm _ _ _ _ _ _ [] []); [rewrite (at_rest_logged g told Hg); exact Hh3|cbn; by rewrite Gf|by intros u ?%elem_of_nil]].
  done.
Qed.
End Flushing.
