(* ===== verification/Merging.v ===== *)
(** * Compacting survives a crash

    [compact_once], cut off anywhere: the files a merge is writing are nothing to the
    store until the manifest counts them in, and the files it replaces are removed
    only after that. *)

From stdpp Require Import sorting.
From S2P Require Import Prelude Checksum Coding WalRecord WalReplay Wal WalAlone Memtable SsTable Disk Manifest Naming.
From S2P Require Import Compaction Layers Engine Store Shape EngineSpec Runs Callers Crashes Triples Layout Tells Reopen Recovery Opened Making Survive Commits.

Section Merging.
Context {T : Type} `{MemtableLaws T} (dir : string) (man : option Snapshot) (ts : list Table) (logs : list LogFile) (l : LogFile).
Context (Hin : l ∈ logs) (ps gone : list LogFile) (level : Z) (e0 : Engine T) (Hdir : en_dir e0 = dir).
Implicit Types (e : Engine T) (w : World) (outs : list Table) (k : Z) (i : nat) (wr : Writer).

(** Where the merge stands on the disk. *)
Record merging outs (opened : option (Z * nat * Writer)) e d : Prop := {
  mg_making : making dir man ts logs l ps gone outs (en_next_number e) d;
  mg_places : same_places e0 e;
  mg_next : 0 <= en_next_number e;
  mg_outs : Forall (described level) outs;
  mg_opened : match opened with
    | Some (k, i, _) => partial k i d /\ contents d i = [] /\ u64_ok k /\ k < en_next_number e
    | None => True
    end;
}.

(** Wherever it stops. *)
Definition halted d : Prop := exists next, making dir man ts logs l ps gone [] next d.

Lemma making_halted outs next d : making dir man ts logs l ps gone outs next d -> halted d.
Proof. intros (Hl & Hw & _). exists next. split; [done|]. split; [done|]. by intros t ?%elem_of_nil. Qed.

Lemma merging_halted outs opened e d : merging outs opened e d -> halted d.
Proof. intros [Hm _ _ _ _]. by eapply making_halted. Qed.

Lemma open_for_disk outs opened e w r s' : merging outs opened e (disk w) -> en_next_number e < u64_max ->
  open_for opened (e, w) = (r, s') ->
  match r with
  | Ok out => merging outs (Some out) (fst s') (disk (snd s')) /\ en_next_number (fst s') <= en_next_number e + 1
  | Err _ => halted (disk (snd s'))
  end.
Proof.
  intros Hmg Hlt Hs. unfold open_for in Hs. destruct opened as [[[k i] wr]|].
  { injection Hs as <- <-. split; [done|]. cbn. lia. }
  destruct Hmg as [Hm (P1 & P2 & P3) Hn Ho _]. set (k := en_next_number e) in *. assert (u64_ok k) as Hu by (unfold u64_ok; lia).
  destruct (fetch_number_runs e w ltac:(fold k; lia)) as (e1 & Ef & _ & En1 & (Ed1 & Ec1 & Em1)). fold k in Ef, En1.
  apply stm_bind_cases in Hs as [(number & s1 & Hf & Hs)|(err & Hf & _)]; rewrite Ef in Hf; [|done]. injection Hf as <- <-.
  apply stm_bind_cases in Hs as [(dir' & s1 & [[= ->] ->]%gete_eq & Hs)|(err & [? _]%gete_eq & _)]; [|done]. cbn [fst] in Hs.
  rewrite Ed1, P1, Hdir in Hs.
  apply stm_bind_cases in Hs as [(i & s1 & (w1 & H1 & ->)%on_disk_eq & Hs)|(err & (w1 & H1 & ->)%on_disk_eq & ->)];
    apply (dtriple_run _ _ _ _ _ _ _ (dtriple_create_partial dir man _ _ l Hin ps gone outs k (k + 1) k Hu ltac:(lia)) Hm) in H1;
    cbn [fst snd] in *; [|by eapply making_halted].
  injection Hs as <- <-. destruct H1 as (H1 & H2 & H3). cbn [fst snd]. split; [|lia]. split; rewrite ?En1; try done; [split_and!; congruence|lia|].
  split; [exact H2|]. split; [done|]. split; [exact Hu|lia].
Qed.

Lemma seal_disk outs k i wr0 wr e w r s' : merging outs (Some (k, i, wr0)) e (disk w) -> seal k level i wr (e, w) = (r, s') ->
  match r with
  | Ok t => merging (outs ++ [t]) None (fst s') (disk (snd s')) /\ en_next_number (fst s') = en_next_number e
  | Err _ => halted (disk (snd s'))
  end.
Proof.
  intros [Hm (P1 & P2 & P3) Hn Ho (Hp & Hc & Hu & Hk)] Hs. unfold seal in Hs.
  apply stm_bind_cases in Hs as [(dir' & s1 & [[= ->] ->]%gete_eq & Hs)|(err & [? _]%gete_eq & _)]; [|done]. cbn [fst] in Hs.
  rewrite P1, Hdir in Hs. change (file_name k TABLE_EXT) with (table_name k) in Hs.
  apply stm_bind_cases in Hs as [([] & s1 & (w2 & H2 & ->)%on_disk_eq & Hs)|(err & (w2 & H2 & ->)%on_disk_eq & ->)];
    apply (dtriple_run _ _ _ _ _ _ _ (dtriple_writer_close dir man _ _ l Hin ps gone outs _ k i _ wr) (conj Hm (conj Hp Hc))) in H2; cbn [fst snd] in *;
    [|by eapply making_halted].
  apply stm_bind_cases in Hs as [([] & s1 & (w3 & H3 & ->)%on_disk_eq & Hs)|(err & (w3 & H3 & ->)%on_disk_eq & ->)];
    apply (dtriple_run _ _ _ _ _ _ _ (dtriple_rename_table dir man _ _ l ps gone outs _ k i _ _ Hu Hk) H2) in H3; cbn [fst snd] in *;
    [|by eapply making_halted].
  apply stm_bind_cases in Hs as [(tbl & s1 & (w5 & H5 & ->)%on_disk_eq & Hs)|(err & (w5 & H5 & ->)%on_disk_eq & ->)];
    apply (dtriple_run _ _ _ _ _ _ _ (dtriple_table_open_any (eq (disk w3)) _ _) eq_refl) in H5; cbn [fst snd] in *.
  2:{ rewrite <- H5. destruct H3 as [H3 _]. by eapply making_halted. }
  destruct H5 as (E5 & j & Hj & Hopen). rewrite <- E5 in *.
  apply stm_bind_cases in Hs as [([] & [e6 w6] & (_ & E6 & Hc6)%add_bytes_same & Hs)|(err & (? & _)%add_bytes_same & _)]; [|done].
  injection Hs as <- <-. cbn [fst snd] in *. subst w6. destruct Hc6 as [C1 C2 C3 C4 (C5 & C6 & C7)]. rewrite <- E5.
  destruct H3 as [(Hl3 & Hw3 & Hs3) (j' & Hj' & Hcl & Hct)]. assert (j' = j) as -> by congruence.
  split; [|done]. split; rewrite ?C4; try done.
  - split; [done|]. split; [done|]. intros t [Ht| ->%list_elem_of_singleton]%elem_of_app; [by apply Hs3|]. by exists j.
  - split_and!; congruence.
  - apply Forall_app. split; [done|]. constructor; [|done]. by eexists _, _.
Qed.

Lemma write_entry_disk sn target en outs opened e w r s' : merging outs opened e (disk w) -> en_next_number e < u64_max ->
  write_entry sn level target en outs opened (e, w) = (r, s') ->
  match r with
  | Ok (outs', opened') => merging outs' opened' (fst s') (disk (snd s')) /\ en_next_number (fst s') <= en_next_number e + 1
  | Err _ => halted (disk (snd s'))
  end.
Proof.
  intros Hmg Hlt Hs. destruct (decide (entry_kept sn level en)) as [Hk|Hk].
  2:{ rewrite write_entry_dropped in Hs by done. injection Hs as <- <-. split; [done|]. cbn. lia. }
  destruct en as [key [seq value]]. rewrite write_entry_kept in Hs by done.
  apply stm_bind_cases in Hs as [([[k i] wr] & [e1 w1] & Ho & Hs)|(err & Ho & ->)]; apply (open_for_disk _ _ _ _ _ _ Hmg Hlt) in Ho; [|done].
  destruct Ho as [Hmg1 Hle1]. cbn [fst snd] in *. destruct (writer_add key seq value wr) as [added wr'].
  apply stm_bind_cases in Hs as [([] & s1 & Hl & Hs)|(err & Hl & ->)]; unfold lift in Hl; injection Hl as ? <-;
    [|by eapply merging_halted].
  destruct (target <=? bytes_written wr').
  - apply stm_bind_cases in Hs as [(t & [e2 w2] & Hse & Hs)|(err & Hse & ->)]; apply (seal_disk _ _ _ _ _ _ _ _ _ Hmg1) in Hse; [|done].
    destruct Hse as [Hmg2 En2]. injection Hs as <- <-. cbn [fst snd] in *. split; [done|lia].
  - injection Hs as <- <-. cbn [fst snd]. split; [|done]. by destruct Hmg1.
Qed.

Lemma writes_disk sn target es outs opened s r s' : writes sn level target es outs opened s r s' ->
  merging outs opened (fst s) (disk (snd s)) -> en_next_number (fst s) + zlen es <= u64_max ->
  match r with
  | Ok (outs', opened') => merging outs' opened' (fst s') (disk (snd s'))
  | Err _ => halted (disk (snd s'))
  end.
Proof.
  induction 1 as [outputs opened e w w' Hr|outputs opened e w w' err Hr|en es outputs opened e w w1 outs1 op1 [e1 w2] r s' Hr Hw _ IH
    |en es outputs opened e w w1 err s' Hr Hw]; intros Hmg Hlen; cbn [fst snd] in *; apply read_through_disk in Hr; rewrite <- Hr in Hmg.
  - done.
  - by eapply merging_halted.
  - rewrite zlen_cons in Hlen. pose proof (zlen_nonneg es). apply (write_entry_disk _ _ _ _ _ _ _ _ _ Hmg ltac:(lia)) in Hw as [Hmg1 Hle].
    cbn [fst snd] in *. apply IH; [done|lia].
  - rewrite zlen_cons in Hlen. pose proof (zlen_nonneg es). by apply (write_entry_disk _ _ _ _ _ _ _ _ _ Hmg ltac:(lia)) in Hw.
Qed.

Lemma write_merged_disk p sn inputs iess (all : list entry) w r s' :
  level = output_level p -> Forall2 sst_holds inputs iess -> (forall en, en ∈ concat iess -> en ∈ all) ->
  merging [] None e0 (disk w) -> en_next_number e0 + zlen all <= u64_max -> write_merged p sn inputs (e0, w) = (r, s') ->
  match r with
  | Ok (Some outs) => merging outs None (fst s') (disk (snd s'))
  | Ok None => True
  | Err _ => halted (disk (snd s'))
  end.
Proof.
  intros Hlv Hholds Hsub Hmg Hroom Hs. unfold write_merged in Hs. rewrite <- Hlv in Hs.
  apply stm_bind_cases in Hs as [(target & s1 & [_ ->]%gete_eq & Hs)|(err & [? _]%gete_eq & _)]; [|done]. rewrite stm_bind_assoc in Hs.
  apply stm_bind_cases in Hs as [(res & [e1 w1] & Hl & Hs)|(err & Hl & ->)];
    destruct (merged_list (T := T) inputs iess all _ _ _ _ _ _ _ Hholds Hsub Hl) as (es & r' & _ & _ & _ & Hz & Hws & E);
    pose proof (writes_disk _ _ _ _ _ _ _ _ Hws Hmg ltac:(cbn; lia)) as Hd; destruct r' as [[outs1 op1]|err']; try done.
  injection E as ->. cbn [fst snd] in *.
  destruct op1 as [[[k i] wr]|]; [|by injection Hs as <- <-].
  apply stm_bind_cases in Hs as [(t & [e3 w3] & Hse & Hs)|(err & Hse & ->)]; apply (seal_disk _ _ _ _ _ _ _ _ _ Hd) in Hse; [|done].
  destruct Hse as [Hmg3 _]. by injection Hs as <- <-.
Qed.
End Merging.

(** ** What a compaction makes of the levels *)

Lemma newer_filter (P : Table -> Prop) `{!forall t, Decision (P t)} level :
  StronglySorted newer level -> StronglySorted newer (filter P level).
Proof.
  induction 1 as [|t level Hs IH Hlt]; [constructor|]. rewrite filter_cons. destruct (decide (P t)); [|done].
  constructor; [done|]. rewrite Forall_forall in *. intros u [_ Hu]%list_elem_of_filter. auto.
Qed.

Lemma compacted_head n outs removed levels : levels <> [] -> (0 < n)%nat ->
  default [] (head (levels_insert n outs (levels_remove removed levels))) = remove_tables removed (default [] (head levels)).
Proof. intros Hne Hn. destruct levels as [|l0 deeper]; [done|]. unfold levels_insert. cbn. by destruct n; [lia|]. Qed.

Section Compacting.
Context {T : Type} `{MemtableLaws T} (dir : string) (config : Config).
Implicit Types (e : Engine T) (w : World) (told : layer) (g : Ledger).

#[local] Abbreviation standing := (standing dir config).
#[local] Abbreviation holds := (holds dir config).
#[local] Abbreviation levels e := (st_levels (en_state e)).
#[local] Abbreviation last_seq e := (wl_last_seq (en_wal e)).

(** The levels after a compaction. *)
Definition compacted_levels (p : Plan) (outs : list Table) e : list (list Table) :=
  levels_insert (Z.to_nat (output_level p)) outs (levels_remove (input_numbers p) (levels e)).

(** The merge, and its outputs in the directory for good. *)
Lemma write_outputs_standing p sn0 n0 L fresh ts e w r s' told g : standing e told g (disk w) -> engine_inv e told ->
  planned e p sn0 n0 L fresh -> numbers_left e -> tb_meta <$> ts = pl_inputs p -> (forall t, t ∈ ts -> t ∈ concat L) ->
  write_outputs p sn0 (tb_table <$> ts) (e, w) = (r, s') ->
  match r with
  | Ok (Some outs) => standing (fst s') told
      (mkLedger (lg_man g) [] (lg_spent g) (lg_active g) (lg_frozen g) (outs ++ lg_pending g) (lg_flying g)) (disk (snd s')) /\
      Forall (described (output_level p)) outs /\ quiet (zlen (all_entries e)) e (fst s') /\
      (forall t, t ∈ outs -> en_next_number e <= number_of t < en_next_number (fst s')) /\
      ((forall t, t ∈ outs -> st_bytes (tb_table t) <= u64_max) -> outputs_ok sn0 n0 (concat L) p outs (en_next_number (fst s')))
  | Ok None => False
  | Err _ => keeps dir (disk (snd s')) (eq (logged g told))
  end.
Proof.
  intros Hh Hinv Hpd Hleft Ets Hts Hs. pose proof Hpd as [P1 P2 P3 P4 P5]. pose proof (ei_next _ _ Hinv) as Hn0.
  destruct (standing_steady _ _ _ _ _ _ Hh) as (pre & l & Ea & Hin & Ew & Hst). destruct (sd_places _ _ _ _ _ _ Hh) as (Edir & _).
  assert (forall en, en ∈ concat (file_entries <$> ts) -> en ∈ all_entries e) as Hsub.
  { intros [k v] Hen. apply elem_of_level in Hen as (t & Ht & Hv). apply elem_of_level. exists t. split; [|done].
    rewrite P5, (concat_fresh sn0 n0 L fresh P1). apply elem_of_app. right. by apply Hts. }
  assert (merging dir (lg_man g) (concat (levels e) ++ lg_pending g) (lg_spent g ++ lg_logs g) l (lg_spent g) (lg_gone g) (output_level p) e [] None e (disk w)) as Hmg.
  { split; [|done..]. split; [apply Hh|]. split; [done|]. by intros t ?%elem_of_nil. }
  pose proof (zlen_nonneg (all_entries e)). assert (en_next_number e + zlen (all_entries e) + 1 <= u64_max) as Hleft' by done.
  unfold write_outputs in Hs. apply stm_bind_cases in Hs as [(merged & [e1 w1] & Hm & Hs)|(err & Hm & ->)];
    pose proof (write_merged_disk dir _ _ _ l Hin _ _ _ e Edir p _ _ _ (all_entries e) _ _ _ eq_refl (inputs_hold _ _ _ _ P1 Hts) Hsub Hmg
      ltac:(lia) Hm) as Hd; cbn [fst snd] in *; [|destruct Hd as [next Hd]; by eapply making_keeps].
  apply (write_merged_planned _ _ _ _ _ _ _ _ _ _ _ Hinv Hpd Hleft Ets Hts) in Hm as (Hq & Hnone & Hm); cbn [fst] in *.
  destruct merged as [outs|]; [|done]. destruct (Hm outs eq_refl) as [Hrg Houts]. destruct Hd as [Hmk (Ed1 & Ec1 & Em1) Hn1 Hdesc _].
  apply stm_bind_cases in Hs as [(dir' & s1 & [[= ->] ->]%gete_eq & Hs)|(err & [? _]%gete_eq & _)]; [|done]. cbn [fst] in Hs. rewrite Ed1, Edir in Hs.
  apply stm_bind_cases in Hs as [([] & s1 & (w2 & H2 & ->)%on_disk_eq & Hs)|(err & (w2 & H2 & ->)%on_disk_eq & ->)];
    apply (dtriple_run _ _ _ _ _ _ _ (dtriple_sync_dir _ _) Hmk) in H2; cbn [fst snd] in *; [|by eapply making_keeps].
  injection Hs as <- <-. cbn [fst snd]. destruct H2 as (d0 & Hmk2 & Hd2). destruct (outputs_synced _ _ _ _ _ _ _ _ _ _ Hmk2) as [Hl Hw]. rewrite <- Hd2 in Hl, Hw.
  pose proof Hq as [Q1 Q2 Q3 Q4 Q5]. split; [|done]. eapply standing_made; [exact Hh|done..| |].
  - eapply layout_weaken; [exact Hl|done|]. intros u. rewrite !elem_of_app. tauto.
  - intros pre' l' E. rewrite Ea in E. by apply app_inj_2 in E as [_ [= <-]].
Qed.

(** The commit that puts the outputs where the inputs were. *)
Lemma commit_outputs_standing p sn0 n0 L fresh outs n1 e w r s' told g : standing e told g (disk w) -> engine_inv e told ->
  planned e p sn0 n0 L fresh -> outputs_ok sn0 n0 (concat L) p outs n1 -> n0 <= n1 <= en_next_number e -> en_next_number e <= u64_max ->
  last_seq e <= u64_max -> (forall t u, t ∈ fresh -> u ∈ outs -> number_of t <> number_of u) -> (forall t, t ∈ outs -> t ∈ lg_pending g) ->
  Forall (described (output_level p)) outs -> (forall t, t ∈ outs -> st_bytes (tb_table t) <= u64_max) ->
  commit_outputs p outs (e, w) = (r, s') ->
  match r with
  | Ok _ => (exists man, standing (fst s') told (mkLedger man [] (lg_spent g) (lg_active g) (lg_frozen g) (lg_pending g) (lg_flying g)) (disk (snd s'))) /\
      forall k, k ∈ input_numbers p -> 0 <= k < n0 /\ k ∈ number_of <$> concat (levels e) /\ k ∉ number_of <$> concat (levels (fst s'))
  | Err _ => keeps dir (disk (snd s')) (eq (logged g told))
  end.
Proof.
  intros Hh Hinv [P1 P2 P3 P4 P5] Houts Hn1 Hnu Hlu Hap Hpd Hde Hb Hc. pose proof (ei_shape _ _ Hinv) as Hshape. pose proof (ei_seq _ _ Hinv) as Hseq.
  pose proof (ei_next _ _ Hinv) as Hn0. unfold commit_outputs in Hc. rewrite P5 in Hshape.
  pose proof (fun X => compaction_published_since sn0 n0 L fresh _ _ P1 Hshape p P3 P4 n1 outs (Z.max (sn_last_seq (en_snapshot e)) (last_seq e))
    (en_next_number e) X ltac:(lia) Houts ltac:(lia) Hap) as Hpub. rewrite <- P5 in Hpub. cbv zeta in Hpub. fold (compacted_levels p outs e) in Hpub.
  destruct (alt_shape _ _ (sd_alt _ _ _ _ _ _ Hh)) as (_ & Hnewest & _).
  assert (saved (next_snapshot (tb_meta <$> outs) (input_numbers p) e) (compacted_levels p outs e)) as Hsv.
  { eapply saved_next; [exact Hh|lia|lia| |apply (Hpub [])|].
    - intros f (t & -> & Ht)%list_elem_of_fmap. rewrite Forall_forall in Hde. pose proof (oo_next _ _ _ _ _ _ Houts t Ht).
      apply (described_typed (output_level p)); [by apply Hde|by apply Hb|unfold u64_ok; lia|unfold output_level; lia].
    - unfold compacted_levels. rewrite compacted_head; [by apply newer_filter|apply (lk_some _ (so_levels _ _ _ (ei_shape _ _ Hinv)))|unfold output_level; lia]. }
  assert (forall u, u ∈ concat (compacted_levels p outs e) -> u ∈ concat (levels e) ++ lg_pending g) as Hts.
  { intros u [Hu|Hu]%compacted_tables; apply elem_of_app; auto. }
  pose proof (commit_standing dir config _ _ _ _ _ _ _ _ _ (lg_spent g) _ (lg_frozen g) _ Hh Hc eq_refl Hsv Hts eq_refl (sd_frozen _ _ _ _ _ _ Hh)) as Hr.
  assert (forall j, tells (Z.max (sn_last_seq (en_snapshot e)) (last_seq e)) (compacted_levels p outs e)
    (records_of (drop j (lg_gone g ++ lg_spent g) ++ logs_of (lg_frozen g) (lg_active g))) (logged g told)) as Htells.
  { intros j. eapply tells_kept; [apply (sd_tells _ _ _ _ _ _ Hh j)|intros X; apply Hpub|lia]. }
  specialize (Hr Htells). destruct r as [[]|err]; [|done]. destruct Hr as [Hr El]. split; [by eexists|]. rewrite El.
  intros k Hk. destruct (Hpub []) as [_ Hshape']. apply list_elem_of_fmap in Hk as Hf. destruct Hf as (f & -> & Hf).
  apply (inputs_in_files _ _ _ _ _ P1 P4) in Hf. rewrite (so_files _ _ _ P1) in Hf. apply list_elem_of_fmap in Hf as (u & -> & Hu).
  pose proof (so_next _ _ _ P1 u Hu) as Hun. unfold number_of in Hun. split; [done|]. split.
  - rewrite P5, (concat_fresh sn0 n0 L fresh P1). apply (list_elem_of_fmap_2 number_of). apply elem_of_app. by right.
  - intros (t & E & Ht)%list_elem_of_fmap.
    assert (tb_meta t ∈ filter (fun file => fm_number file ∉ input_numbers p) (sn_files (en_snapshot e)) ++ (tb_meta <$> outs)) as Hmt.
    { rewrite (so_files _ _ _ Hshape'). by apply list_elem_of_fmap_2. }
    apply elem_of_app in Hmt as [[Hno _]%list_elem_of_filter|(v & Ev & Hv)%list_elem_of_fmap].
    + apply Hno. unfold number_of in E. by rewrite <- E.
    + pose proof (oo_next _ _ _ _ _ _ Houts v Hv) as Hov. unfold number_of in *. rewrite Ev in E. lia.
Qed.

(** The inputs' files go: they are nobody's. *)
Lemma remove_inputs_standing p e w r s' told g : standing e told g (disk w) -> en_next_number e <= u64_max ->
  (forall k, k ∈ input_numbers p -> 0 <= k < en_next_number e) ->
  (forall t, t ∈ concat (levels e) ++ lg_pending g -> 0 <= number_of t < en_next_number e /\ number_of t ∉ input_numbers p) ->
  remove_inputs p (e, w) = (r, s') ->
  match r with
  | Ok _ => fst s' = e /\ standing e told g (disk (snd s'))
  | Err _ => keeps dir (disk (snd s')) (eq (logged g told))
  end.
Proof.
  intros Hh Hnu Hk Ht Hs. destruct (standing_steady _ _ _ _ _ _ Hh) as (pre & l & Ea & Hin & Ew & Hst). destruct (sd_places _ _ _ _ _ _ Hh) as (Edir & _).
  unfold remove_inputs in Hs. apply stm_bind_cases in Hs as [(dir' & s1 & [[= ->] ->]%gete_eq & Hs)|(err & [? _]%gete_eq & _)]; [|done]. cbn [fst] in Hs.
  rewrite Edir in Hs. apply on_disk_eq in Hs as (w1 & Hr & ->). cbn [fst snd].
  change ((fun number => file_name number TABLE_EXT) <$> input_numbers p) with (table_name <$> input_numbers p) in Hr.
  apply (dtriple_run _ _ _ _ _ _ _ (dtriple_remove_tables dir (lg_man g) (concat (levels e) ++ lg_pending g) _ l (lg_spent g) _ _ (table_name <$> input_numbers p) ltac:(
    intros n (k & -> & Hin')%list_elem_of_fmap; split_and!; [intros k'; auto with names|auto with names|]; intros t Hin2 E;
    specialize (Hk k Hin'); destruct (Ht t Hin2) as [? Hno]; apply table_name_inj in E; [by subst|unfold u64_ok; lia..]))
    (conj (sd_layout _ _ _ _ _ _ Hh) Hst)) in Hr.
  destruct r as [[]|err].
  - destruct Hr as [Hl [[Hc Hf] Hpin]]. split; [done|]. destruct Hh as [H1 H2 H3 H4 H5 H6 H7 H8 H9 H10 H11 H12 H13 H14]. split; try done. by exists pre, l.
  - eapply (standing_left dir config e told g _ _ _ 0); [exact Hh|exact Hr| |constructor]. intros u Hu. apply elem_of_app. by left.
Qed.

(** The tables a compaction is about to write. *)
Definition compaction_outputs (s : Engine T * World) : list Table :=
  match plan_of (fst s) with
  | None => []
  | Some p =>
      let inputs := omap (fun meta => find_table (levels (fst s)) (fm_number meta)) (pl_inputs p) in
      match fst (write_merged p (en_snapshot (fst s)) inputs s) with
      | Ok (Some outs) => outs
      | _ => []
      end
  end.

Lemma compact_once_holds e w r s' told : holds e told (disk w) ->
  numbers_left e -> typed (fst s') -> (forall t, t ∈ compaction_outputs (e, w) -> st_bytes (tb_table t) <= u64_max) ->
  compact_once (e, w) = (r, s') ->
  match r with
  | Ok _ => holds (fst s') told (disk (snd s'))
  | Err _ => keeps dir (disk (snd s')) (eq told)
  end.
Proof.
  intros (Hinv & g & Hg & Hh) Hleft Hty Hlen Hs. destruct (compact_once_inv _ _ _ _ _ Hinv Hleft Hty Hs) as (Hinv' & _).
  pose proof (ei_shape _ _ Hinv) as Hshape. pose proof (ei_next _ _ Hinv) as Hn0. pose proof (ei_seq _ _ Hinv) as Hseq.
  pose proof (at_rest_logged g told Hg) as Elog. unfold logged in Elog. pose proof Hg as (Gs & Gp & Gf). rewrite compact_split in Hs. unfold compaction_outputs in Hlen. cbn [fst] in Hlen.
  assert (plan_compaction (e, w) = (Ok (match plan_of e with Some p => Some (p, en_snapshot e) | None => None end), (e, w))) as Epc by done.
  apply stm_bind_cases in Hs as [(planned & s1 & Hp & Hs)|(err & Hp & _)]; rewrite Epc in Hp; [|done]. injection Hp as <- <-. cbn [fst] in Hs.
  destruct (plan_of e) as [p|] eqn:Ep; [|injection Hs as <- <-; by split; [|exists g]].
  pose proof (planned_now _ _ _ Hinv Ep) as Hpd.
  apply stm_bind_cases in Hs as [(inputs & s1 & Hf & Hs)|(err & Hf & _)]; unfold find_inputs_of in Hf;
    (apply stm_bind_cases in Hf as [(st & s2 & [[= ->] ->]%gete_eq & Hf)|(err' & [? _]%gete_eq & _)]; [|done]); [|done]. cbn [fst] in Hf. injection Hf as <- <-.
  destruct (planned_inputs _ _ _ _ _ _ _ Hinv Hpd) as (ts & Efind & Ets & Hts).
  rewrite Efind in Hs, Hlen. assert (length (tb_table <$> ts) = length (pl_inputs p)) as Elen by (rewrite <- Ets; by rewrite !length_fmap).
  rewrite Elen, Nat.eqb_refl in Hs. cbn [negb] in Hs. unfold numbers_left in Hleft. pose proof (zlen_nonneg (all_entries e)).
  apply stm_bind_cases in Hs as [(merged & [e1 w1] & Hm & Hs)|(err & Hm & ->)]; pose proof Hm as Hm';
    apply (write_outputs_standing _ _ _ _ _ _ _ _ _ _ _ _ Hh Hinv Hpd Hleft Ets Hts) in Hm; cbn [fst snd] in *; unfold logged in Hm; rewrite ?Elog in Hm; [|exact Hm].
  destruct merged as [outs|]; [|done]. destruct Hm as (Hh1 & Hde & Hq & Hrg & Houts). pose proof Hq as [Q1 Q2 Q3 Q4 Q5].
  assert (forall t, t ∈ outs -> st_bytes (tb_table t) <= u64_max) as Hb.
  { unfold write_outputs in Hm'. apply stm_bind_cases in Hm' as [([outs'|] & s2 & Ew & Hm')|(err & _ & ?)]; [|done..]. rewrite Ew in Hlen. cbn [fst] in Hlen.
    apply stm_bind_cases in Hm' as [(? & s3 & _ & Hm')|(err & _ & ?)]; [|done]. apply stm_bind_cases in Hm' as [(? & s4 & _ & Hm')|(err & _ & ?)]; [|done].
    by injection Hm' as -> _. }
  pose proof (quiet_inv _ _ _ _ Hinv Hq) as Hinv1. assert (planned e1 p (en_snapshot e) (en_next_number e) (levels e) []) as Hpd1.
  { destruct Hpd as [P1 P2 P3 P4 P5]. split; [done|lia|done|done|by rewrite Q3]. }
  assert (en_next_number e1 <= u64_max) as Hnu by lia.
  pose proof (fun r s' => commit_outputs_standing p _ _ _ _ outs (en_next_number e1) e1 w1 r s' told _ Hh1 Hinv1 Hpd1 (Houts Hb) ltac:(lia) Hnu
    ltac:(rewrite Q1; lia) ltac:(by intros t u ?%elem_of_nil) ltac:(intros t Ht; apply elem_of_app; by left) Hde Hb) as Hco.
  apply stm_bind_cases in Hs as [([] & [e2 w2] & Hc & Hs)|(err & Hc & ->)]; pose proof (Hco _ _ Hc) as Hr; clear Hco;
    unfold logged in Hr; cbn [fst snd lg_man lg_gone lg_spent lg_active lg_frozen lg_pending lg_flying] in *; rewrite ?Elog in Hr; [|exact Hr].
  apply (compaction_committed _ _ _ _ _ _ _ _ _ _ _ _ Hinv1 Hpd1 (Houts Hb) ltac:(lia) ltac:(by intros t u ?%elem_of_nil)) in Hc as (Hinv2 & _ & _ & En2 & _).
  cbn [fst snd] in *. destruct Hr as [[man Hh2] Hk].
  apply (standing_perm _ _ _ _ _ _ [] []) in Hh2; [|cbn; by rewrite Gf|by intros u ?%elem_of_nil].
  apply stm_bind_cases in Hs as [([] & [e3 w3] & Hr & Hs)|(err & Hr & ->)];
    apply (remove_inputs_standing _ _ _ _ _ _ _ Hh2) in Hr; cbn [fst snd lg_pending] in *; try lia;
    try (by intros k Hin; destruct (Hk k Hin); lia);
    try (intros t Hin; rewrite app_nil_r in Hin; split; [by apply (so_next _ _ _ (ei_shape _ _ Hinv2))|];
      intros Hk'; destruct (Hk _ Hk') as (_ & _ & Hno); by apply Hno, list_elem_of_fmap_2); [|exact Hr].
  destruct Hr as [-> Hh3]. apply stm_bind_cases in Hs as [([] & [e4 w4] & Hmp & Hs)|(err & Hmp & _)]; apply mark_progress_same in Hmp as (Eok & Ew & Hsame); [|done].
  injection Hs as <- <-. cbn [fst snd] in *. subst w4. split; [done|]. eexists. split; [|by eapply standing_same]. done.
Qed.
End Compacting.
