(* ===== verification/Lives.v ===== *)
(** * The store survives crashes

    A store's whole history: the directory is opened, used, and lost in a crash, again
    and again, and an opening may itself be cut off. All its calls together are one
    run of a map: nothing that was acknowledged is ever lost, and nothing that was
    not asked for ever appears. *)

From S2P Require Import Prelude WalRecord WalReplay Wal WalAlone Memtable SsTable Disk Manifest Naming.
From S2P Require Import Compaction Layers Engine Store Shape EngineSpec Runs Crashes Triples Layout Tells Listings Reopen Recovery Opened Survive Commits Merging Btree.

(** ** The empty directory *)

Lemma empty_candidates c : c ∈ candidates empty_disk -> c = ∅.
Proof. by intros ->%list_elem_of_singleton. Qed.

Lemma empty_opening dir : opening dir None [[]] [] ∅ (u64_max + 1) empty_disk.
Proof.
  split.
  - split; [|apply empty_disk_safe|constructor|].
    + split; [apply (ms_ok _ _ empty_disk_safe)| | | |done|done].
      * by intros c name i ->%empty_candidates.
      * by intros c name i name' ->%empty_candidates.
      * by intros c c' name k i ->%empty_candidates.
    + assert (forall c, c = ∅ -> logs_are c []) as Hno.
      { intros c -> k i _. rewrite lookup_empty. split; [done|]. by intros (l & ?%elem_of_nil & _). }
      split; [constructor|constructor|by apply Hno| |by intros c l _ ?%elem_of_nil].
      intros c [Hc _]. exists 0%nat, []. split; [by left|]. apply Hno, empty_candidates, Hc.
  - intros c ->%empty_candidates. exists 0%nat. intros k i _. cbn. split; [done|]. by intros (l & ?%elem_of_nil & _).
  - done.
  - by intros _ c k ->%empty_candidates.
  - apply tells_empty.
  - constructor.
Qed.

Section Lives.
Context {T : Type} `{MemtableLaws T} (dir : string) (config : Config).
Implicit Types (e : Engine T) (w : World) (s : Engine T * World) (told : layer).

#[local] Abbreviation holds := (holds dir config).

(** ** Each operation *)

(** The files it writes are no longer than their lengths can say. *)
Fixpoint merges_in_limits (fuel : nat) s : Prop :=
  match fuel with
  | O => True
  | S fuel => (forall t, t ∈ compaction_outputs s -> st_bytes (tb_table t) <= u64_max) /\ merges_in_limits fuel (snd (compact_once s))
  end.

Definition files_in_limits (op : Op) s : Prop :=
  match op with
  | OpTurn fuel =>
      (forall frozen t s1, last (st_frozen (en_state (fst s))) = Some frozen -> flush_file frozen s = (Ok t, s1) -> st_bytes (tb_table t) <= u64_max) /\
      merges_in_limits fuel (snd (next_task s))
  | _ => True
  end.

(** The call returned no error, unless it was a read, nor has one been kept for a
    later call. *)
Definition succeeded (a : Answer) e : Prop :=
  match a with
  | Done r => r = Ok tt
  | Value _ => True
  end /\ en_background_error e = None.

Lemma compact_all_holds told : forall fuel e w r s', holds e told (disk w) ->
  compactions_in_limits fuel (e, w) -> merges_in_limits fuel (e, w) -> compact_all fuel (e, w) = (r, s') ->
  match r with
  | Ok _ => holds (fst s') told (disk (snd s'))
  | Err _ => keeps dir (disk (snd s')) (eq told)
  end.
Proof.
  induction fuel as [|fuel IH]; intros e w r s' Hh Hlim Hfiles Hs; cbn [compact_all] in Hs; [by injection Hs as <- <-|].
  destruct Hlim as [(_ & _ & Hleft & _) [(_ & _ & _ & Hty) Hlim]], Hfiles as [Hlen Hfiles].
  apply stm_bind_cases in Hs as [(more & [e1 w1] & E & Hs)|(err & E & ->)]; rewrite E in *; cbn [fst snd] in *;
    [|by apply (compact_once_holds dir config e w _ s' _ Hh Hleft Hty Hlen) in E].
  apply (compact_once_holds dir config e w _ (e1, w1) _ Hh Hleft Hty Hlen) in E as Hh1; cbn [fst snd] in *.
  destruct more as [[|]|]; [by eapply IH|by injection Hs as <- <-..].
Qed.

Lemma next_task_same e w r s' : next_task (e, w) = (r, s') -> exists e1, s' = (e1, w) /\ same_store e e1.
Proof.
  unfold next_task, gete, gets, set_queue, modify. unfold mbind, stm_bind. cbn [fst].
  destruct (en_shutdown e); [intros [= <- <-]; by exists e|].
  destruct (if 0 <? en_pending e then _ else _); [|destruct (en_shape_changed e)]; intros [= <- <-]; by eexists.
Qed.

Lemma keep_error_kept err e w r s' : keep_background_error err (e, w) = (r, s') ->
  snd s' = w /\ en_background_error (fst s') <> None /\ (typed (fst s') -> typed e).
Proof.
  unfold keep_background_error, gete, gets, set_background_error, modify. unfold mbind, stm_bind. cbn [fst].
  by destruct (en_background_error e) eqn:E; intros [= <- <-]; cbn [fst snd]; rewrite ?E.
Qed.

(** A turn of the background thread. *)
Lemma turn_holds fuel e w r s' told : holds e told (disk w) -> op_in_limits (OpTurn fuel) (e, w) -> files_in_limits (OpTurn fuel) (e, w) ->
  flusher_turn fuel (e, w) = (r, s') ->
  keeps dir (disk (snd s')) (eq told) /\ (en_background_error (fst s') = None -> holds (fst s') told (disk (snd s'))).
Proof.
  intros Hh ((_ & _ & Hleft & _) & (_ & _ & _ & Hty) & Hlim) [Hfl Hmg] Hs. cbn [run_op] in Hty. rewrite Hs in Hty. cbn [fst snd] in *.
  unfold flusher_turn in Hs. destruct (next_task (e, w)) as [r1 [e1 w1]] eqn:E. cbn [fst snd] in *.
  pose proof E as E'. apply next_task_eq in E' as (e1' & [= <- ->] & _ & Hlast). apply next_task_same in E as (e1' & [= <-] & Hsame).
  assert (holds e1 told (disk w)) as Hh1 by by apply (holds_same dir config e e1).
  destruct r1 as [[[frozen|]|]|err]; [| |by injection Hs as <- <-; split; [by eapply holds_keeps|]..].
  - destruct (Hlast frozen eq_refl) as [Hl ->].
    destruct (flush frozen (e, w)) as [[u|err] [e2 w2]] eqn:Ef.
    + injection Hs as <- <-. cbn [fst snd] in *.
      apply (flush_holds dir config frozen e w _ (e2, w2) _ Hh Hl Hleft Hty (fun t s1 => Hfl frozen t s1 Hl)) in Ef as Hh2. cbn [fst snd] in Hh2.
      split; [by eapply holds_keeps|done].
    + apply keep_error_kept in Hs as (-> & ? & Hte). apply Hte in Hty.
      apply (flush_holds dir config frozen e w _ (e2, w2) _ Hh Hl Hleft Hty (fun t s1 => Hfl frozen t s1 Hl)) in Ef. by split.
  - unfold mbind, stm_bind in Hs. destruct (compact_all fuel (e1, w)) as [[u|err] [e2 w2]] eqn:Ec;
      apply (compact_all_holds told _ _ _ _ _ Hh1 Hlim Hmg) in Ec; cbn [fst snd] in *.
    + injection Hs as <- <-. split; [by eapply holds_keeps|done].
    + apply keep_error_kept in Hs as (-> & ? & _). by split.
Qed.
(** What can happen to the map is all that can happen to the store, wherever the
    operation stops; and if it succeeds the store goes on. *)
Definition steps (op : Op) told (a : Answer) s : Prop :=
  keeps dir (disk (snd s)) (fun t => map_step op a (map_of told) (map_of t)) /\
  (succeeded a (fst s) -> exists t, holds (fst s) t (disk (snd s)) /\ map_step op a (map_of told) (map_of t)).

(** An operation that leaves the map as it is. *)
Lemma steps_same op told a s : map_step op a (map_of told) (map_of told) -> keeps dir (disk (snd s)) (eq told) ->
  (succeeded a (fst s) -> holds (fst s) told (disk (snd s))) -> steps op told a s.
Proof.
  intros Hst Hk Hok. split; [eapply keeps_mono; [exact Hk|by intros t <-]|]. intros Ha. exists told. auto.
Qed.

Lemma write_steps key value e w r s' told : holds e told (disk w) -> cf_sync config = Always \/ cf_sync config = Group ->
  in_limits e -> typed (fst s') -> engine_write key value (e, w) = (r, s') -> steps (OpWrite key value) told (Done r) s'.
Proof.
  intros Ho Hpol (Hroom & Hseq & Hleft & _) Hty E.
  apply (write_holds dir config key value e w r s' _ Ho Hpol Hroom Hseq Hleft Hty) in E as [Hk Hok]. split.
  - eapply keeps_mono; [exact Hk|]. intros t [->|[-> Hr]]; [left; apply map_of_insert|by right].
  - intros [-> _]. eexists. split; [by apply Hok|].
    left. apply map_of_insert.
Qed.

Lemma get_steps key e w told : holds e told (disk w) -> steps (OpGet key) told (Value (fst (engine_get key (e, w)))) (snd (engine_get key (e, w))).
Proof.
  intros Hh. destruct (engine_get key (e, w)) as [r s'] eqn:E. cbn [fst snd].
  destruct (read_ran _ _ _ _ _ _ (proj1 Hh) E) as (e' & w' & -> & Hc%counted_same & _ & Ed & _ & Hr).
  assert (holds e' told (disk w')) as Hh' by (rewrite Ed; by eapply holds_same).
  apply steps_same; [cbn; by rewrite map_of_lookup|by eapply holds_keeps|done].
Qed.

Lemma sync_steps e w r s' told : holds e told (disk w) -> engine_sync (e, w) = (r, s') -> steps OpSync told (Done r) s'.
Proof.
  intros Ho E. apply (sync_holds dir config e w r s' _ Ho) in E. apply steps_same; [done|by eapply holds_keeps|done].
Qed.

Lemma rotate_steps min_bytes e w r s' told : holds e told (disk w) -> in_limits e -> typed (fst s') ->
  rotate min_bytes (e, w) = (r, s') -> steps (OpRotate min_bytes) told (Done r) s'.
Proof.
  intros Ho (_ & _ & Hleft & _) Hty E.
  apply (rotate_holds dir config min_bytes e w r s' _ Ho Hleft Hty) in E. destruct r as [u|err].
  - apply steps_same; [done|by eapply holds_keeps|done].
  - apply steps_same; [done|done|]. by intros [[=] _].
Qed.

Lemma turn_steps fuel e w r s' told : holds e told (disk w) -> op_in_limits (OpTurn fuel) (e, w) -> files_in_limits (OpTurn fuel) (e, w) ->
  flusher_turn fuel (e, w) = (r, s') -> steps (OpTurn fuel) told (Done r) s'.
Proof.
  intros Hh Hlim Hfiles E. apply (turn_holds fuel e w r s' told Hh Hlim Hfiles) in E as [Hk Hok].
  apply steps_same; [done|done|]. intros [_ Hn]. by apply Hok.
Qed.

(** The call an operation makes. *)
Lemma run_op_calls op s a s' : run_op op s = (a, s') ->
  match op with
  | OpWrite key value => exists r, a = Done r /\ engine_write key value s = (r, s')
  | OpGet key => exists r, a = Value r /\ engine_get key s = (r, s')
  | OpSync => exists r, a = Done r /\ engine_sync s = (r, s')
  | OpRotate min_bytes => exists r, a = Done r /\ rotate min_bytes s = (r, s')
  | OpTurn fuel => exists r, a = Done r /\ flusher_turn fuel s = (r, s')
  end.
Proof. unfold run_op. destruct op; case_match; intros [= <- <-]; by eexists. Qed.

(** Every operation. *)
Lemma op_steps op e w a s' told : holds e told (disk w) -> cf_sync config = Always \/ cf_sync config = Group ->
  op_in_limits op (e, w) -> files_in_limits op (e, w) -> run_op op (e, w) = (a, s') -> steps op told a s'.
Proof.
  intros Hh Hpol Hlim Hfiles E. destruct op as [key value|key| |min_bytes|fuel]; cbn [op_in_limits] in Hlim; cbn [fst] in *.
  - destruct Hlim as [He (_ & _ & _ & Hty)]. rewrite E in Hty. apply run_op_calls in E as (r & -> & E). by eapply write_steps.
  - apply run_op_calls in E as (r & -> & E). pose proof (get_steps key e w told Hh) as Hg. rewrite E in Hg. exact Hg.
  - apply run_op_calls in E as (r & -> & E). by eapply sync_steps.
  - destruct Hlim as [He (_ & _ & _ & Hty)]. rewrite E in Hty. apply run_op_calls in E as (r & -> & E). by eapply rotate_steps.
  - apply run_op_calls in E as (r & -> & E). by eapply turn_steps.
Qed.

Fixpoint calls_in_limits (ops : list Op) s : Prop :=
  match ops with
  | [] => True
  | op :: ops => op_in_limits op s /\ files_in_limits op s /\ calls_in_limits ops (snd (run_op op s))
  end.

(** Every call but the last, which may be cut off. *)
Fixpoint others_succeed (ops : list Op) s : Prop :=
  match ops with
  | [] | [_] => True
  | op :: ops => succeeded (fst (run_op op s)) (fst (snd (run_op op s))) /\ others_succeed ops (snd (run_op op s))
  end.

(** What is left of a run is left of a run of the map. *)
Lemma calls_keep ops : cf_sync config = Always \/ cf_sync config = Group -> forall s told, holds (fst s) told (disk (snd s)) ->
  calls_in_limits ops s -> others_succeed ops s ->
  keeps dir (disk (snd (snd (run_ops ops s)))) (fun t => map_run ops (fst (run_ops ops s)) (map_of told) (map_of t)).
Proof.
  intros Hpol. induction ops as [|op ops IH]; intros [e w] told Hh Hlim Hok.
  { cbn. eapply keeps_mono; [by eapply holds_keeps|]. by intros t <-. }
  destruct Hlim as (Hl1 & Hl2 & Hlim). cbn [run_ops]. destruct (run_op op (e, w)) as [a s1] eqn:E.
  destruct (op_steps op e w a s1 told Hh Hpol Hl1 Hl2 E) as [Hk Hnext]. cbn [fst snd] in *. destruct ops as [|op' ops].
  { cbn [run_ops fst snd]. eapply keeps_mono; [exact Hk|]. intros t Ht. by exists (map_of t). }
  change (succeeded (fst (run_op op (e, w))) (fst (snd (run_op op (e, w)))) /\ others_succeed (op' :: ops) (snd (run_op op (e, w)))) in Hok.
  rewrite E in Hok. destruct Hok as [Ha Hok]. destruct (Hnext Ha) as (t1 & Hh1 & Hst).
  specialize (IH s1 t1 Hh1 Hlim Hok). destruct (run_ops (op' :: ops) s1) as [answers s2]. cbn [fst snd] in *.
  eapply keeps_mono; [exact IH|]. intros t Ht. by exists (map_of t1).
Qed.

(** ** A history *)

(** An error says that something is not there only when it is not. *)
Definition honest (o : outcome) : Prop :=
  match o with
  | Some (err, _) => io_kind err <> NotFound
  | None => True
  end.

(** The directory after the calls [ops], which got [answers], and a crash. It starts
    empty. An opening is cut off, or it returns and calls are made until one of them
    is, or fails; then the machine goes down. *)
Inductive history : list Op -> list Answer -> Disk -> Prop :=
  | history_new : history [] [] empty_disk
  | history_cut ops answers d os err w d' :
      history ops answers d -> open_in_limits (T := T) config d -> Forall honest os ->
      engine_open (T := T) dir config (mkWorld d os) = (Err err, w) ->
      ordered_crash (disk w) d' -> complete d' -> history ops answers d'
  | history_life ops answers d os e w os' calls d' :
      history ops answers d -> open_in_limits (T := T) config d -> Forall honest os ->
      engine_open dir config (mkWorld d os) = (Ok e, w) ->
      calls_in_limits calls (e, mkWorld (disk w) os') -> others_succeed calls (e, mkWorld (disk w) os') ->
      ordered_crash (disk (snd (snd (run_ops calls (e, mkWorld (disk w) os'))))) d' -> complete d' ->
      history (ops ++ calls) (answers ++ fst (run_ops calls (e, mkWorld (disk w) os'))) d'.

Lemma map_run_app ops answers m1 m2 : forall ops0 answers0 m0, map_run ops0 answers0 m0 m1 -> map_run ops answers m1 m2 ->
  map_run (ops0 ++ ops) (answers0 ++ answers) m0 m2.
Proof.
  induction ops0 as [|op ops0 IH]; intros [|a answers0] m0 H0 H1; cbn in *; [by subst|done|done|].
  destruct H0 as (m & Hst & H0). exists m. split; [done|]. by apply IH.
Qed.

Lemma open_cut d os man levels logs told : opening dir man levels logs told (u64_max + 1) d -> (forall i, flushed d i) ->
  open_in_limits (T := T) config d -> Forall honest os ->
  match engine_open (T := T) dir config (mkWorld d os) with
  | (Ok e, w) => holds e told (disk w)
  | (Err _, w) => keeps dir (disk w) (eq told)
  end.
Proof.
  intros Ho Hf Hlim Hos.
  pose proof (dtriple_engine_open dir config honest (fun err n Hh => Hh) man levels logs told (mkWorld d os) (conj Hos (conj Ho (conj Hf Hlim)))) as Hopen.
  destruct (engine_open dir config (mkWorld d os)) as [[e|err] w]; by destruct Hopen.
Qed.

(** Whatever the history, the directory can be opened, and says what a run of the map
    with the same answers ends in. *)
Lemma history_opening ops answers d : cf_sync config = Always \/ cf_sync config = Group -> history ops answers d ->
  exists man levels logs told, map_run ops answers ∅ (map_of told) /\
    opening dir man levels logs told (u64_max + 1) d /\ forall i, flushed d i.
Proof.
  intros Hpol. induction 1 as [|ops answers d os err w d' _ IH Hlim Hos Hs Hc Hd|ops answers d os e w os' calls d' _ IH Hlim Hos Hs Hcalls Hok Hc Hd].
  - exists None, [[]], [], ∅. split_and!; [done|apply empty_opening|done].
  - destruct IH as (s & levels & logs & told & Hrun & Ho & Hf). pose proof (open_cut _ _ _ _ _ _ Ho Hf Hlim Hos) as Hk. rewrite Hs in Hk.
    destruct (keeps_crash dir _ _ _ Hk Hc Hd) as (s' & levels' & logs' & t & <- & Ho' & Hf'). by exists s', levels', logs', told.
  - destruct IH as (s & levels & logs & told & Hrun & Ho & Hf). pose proof (open_cut _ _ _ _ _ _ Ho Hf Hlim Hos) as Hh. rewrite Hs in Hh.
    pose proof (calls_keep calls Hpol (e, mkWorld (disk w) os') told Hh Hcalls Hok) as Hk.
    destruct (keeps_crash dir _ _ _ Hk Hc Hd) as (s' & levels' & logs' & t & Ht & Ho' & Hf').
    exists s', levels', logs', t. split; [by eapply map_run_app|done].
Qed.

Lemma history_reopens ops answers d : cf_sync config = Always \/ cf_sync config = Group -> history ops answers d ->
  open_in_limits (T := T) config d ->
  exists e w told, engine_open (T := T) dir config (mkWorld d []) = (Ok e, w) /\ no_failures w /\
    map_run ops answers ∅ (map_of told) /\ engine_inv e told.
Proof.
  intros Hpol Hh Hlim. destruct (history_opening ops answers d Hpol Hh) as (s & levels & logs & told & Hrun & Ho & Hf).
  destruct (dtriple_calm (eq None) _ _ _ _ d [] (dtriple_engine_open dir config (eq None) ltac:(done) s levels logs told) calm_none
    ltac:(constructor) (conj Ho (conj Hf Hlim))) as (e & w & E & Hh' & Hn).
  exists e, w, told. split_and!; [done|done|done|]. apply Hh'.
Qed.
End Lives.

(** C2: The store is a map that survives crashes, for the sync policies that flush
    before they answer ([Always] and [Group]), and for the crashes and the lives
    [history] admits. The directory starts empty, is opened, used, and lost in a
    crash, again and again; an opening may itself be cut off by one. What is assumed
    of a life: it ends with the first call that fails, be it a write, a sync, a
    rotation or a background turn, or with its last call, which may stop anywhere (a
    read may fail and the life go on); while the store is opened no file that is
    there is reported missing; and the numbers and lengths the limits speak of
    ([open_in_limits], [calls_in_limits]) are not used up. What is assumed of a crash
    ([ordered_crash], [complete]): the directory comes back as it stood at some moment
    since its last flush, what was flushed is there, a file cut short is a prefix of
    what was written, a log that has been flushed once keeps its name; and it does not
    come in the middle of the very first flush, leaving tables and no manifest, which
    [open] refuses. Then all the answers the calls got, over all those lives, are
    answers of one run of a single map; and opening the directory once more, with no
    call failing, returns a store in which, where no call fails, every key reads as
    that map has it. So a write that returned [Ok] is not lost, one that was cut off is
    either there entirely or not at all, and flushing, compacting and recovering change
    nothing. *)
Theorem store_survives_crashes {T : Type} `{MemtableLaws T} (dir : string) (config : Config) (ops : list Op)
  (answers : list Answer) (d : Disk) (Hpolicy : cf_sync config = Always \/ cf_sync config = Group)
  (Hhistory : history (T := T) dir config ops answers d) (Hlimits : open_in_limits (T := T) config d) :
  exists (e : Engine T) (w : World) (m : gmap bytes bytes),
    engine_open dir config (mkWorld d []) = (Ok e, w) /\ no_failures w /\ map_run ops answers ∅ m /\
    forall key w', no_failures w' -> fst (engine_get key (e, w')) = Ok (m !! key).
Proof.
  destruct (history_reopens dir config ops answers d Hpolicy Hhistory Hlimits) as (e & w & told & E & Hn & Hrun & Hinv).
  exists e, w, (map_of told). split_and!; [done|done|done|]. intros key w' Hn'. rewrite map_of_lookup. by apply read_calm.
Qed.

(** ** A history that computes *)

(** The names of the files of a small store. *)
Definition few : list Z := seqZ 0 64.

Definition names_checked (d : Disk) : bool :=
  bool_decide (Forall (fun name => name ∈ FILE_NAME :: (log_name <$> few) ++ (table_name <$> few)) (map_to_list (names d)).*1).

Definition tables_checked (d : Disk) : bool :=
  match names d !! FILE_NAME with
  | Some _ => true
  | None => bool_decide (Forall (fun name => name ∈ log_name <$> few) (map_to_list (names d)).*1)
  end.

Lemma few_small k : k ∈ few -> u64_ok k /\ k + 1 < u64_max.
Proof. unfold few. rewrite elem_of_seqZ. unfold u64_ok, u64_max. lia. Qed.

Lemma names_checked_ok d k : names_checked d = true -> u64_ok k ->
  is_Some (names d !! log_name k) \/ is_Some (names d !! table_name k) -> k + 1 < u64_max.
Proof.
  unfold names_checked. rewrite bool_decide_eq_true, Forall_forall. intros Hn Hk Hs.
  assert (exists k', k' ∈ few /\ (log_name k = log_name k' \/ table_name k = table_name k')) as (k' & Hk' & Heq).
  { destruct Hs as [Hs|Hs]; apply elem_of_names, Hn in Hs; apply elem_of_cons in Hs as [Hs|Hs].
    - by destruct (manifest_not_log k).
    - apply elem_of_app in Hs as [(k' & E & Hk')%list_elem_of_fmap|(k' & E & _)%list_elem_of_fmap]; [exists k'; auto|].
      by destruct (log_not_table k k').
    - by destruct (manifest_not_table k).
    - apply elem_of_app in Hs as [(k' & E & _)%list_elem_of_fmap|(k' & E & Hk')%list_elem_of_fmap]; [|exists k'; auto].
      by destruct (log_not_table k' k). }
  destruct (few_small k' Hk') as [Hu Hlt]. destruct Heq as [E|E]; [apply log_name_inj in E|apply table_name_inj in E]; try done; by subst.
Qed.

Lemma tables_checked_ok d : tables_checked d = true -> complete d.
Proof.
  unfold tables_checked, complete. intros Hc E k. rewrite E, bool_decide_eq_true, Forall_forall in Hc.
  destruct (names d !! table_name k) as [i|] eqn:Ek; [|done]. exfalso.
  assert (table_name k ∈ log_name <$> few) as (k' & E' & _)%list_elem_of_fmap by (apply Hc, elem_of_names; by eexists).
  by destruct (log_not_table k' k).
Qed.

Section Checked.
Context (dir : string) (config : Config).
Implicit Types (s : Engine BTreeMemtable * World) (d : Disk).

Definition manifest_checked d : bool :=
  match names d !! FILE_NAME with
  | None => true
  | Some i =>
      match decode_snapshot (contents d i) with
      | Some sn => sn_next_number sn <? u64_max
      | None => true
      end
  end.

Lemma roomy_btree muts : forall t : BTreeMemtable, roomy t muts.
Proof. induction muts as [|[k [q v]] muts IH]; intros t; cbn [roomy]; [done|]. split; [done|apply IH]. Qed.

Lemma open_checked_ok d : names_checked d && manifest_checked d = true -> open_in_limits (T := BTreeMemtable) config d.
Proof.
  intros [Hn Hm]%andb_true_iff. split.
  - intros k. by apply names_checked_ok.
  - intros i sn Hi Hsn. unfold manifest_checked in Hm. rewrite Hi, Hsn in Hm. by apply Z.ltb_lt.
  - apply roomy_btree.
Qed.

Fixpoint merges_checked (fuel : nat) s : bool :=
  match fuel with
  | O => true
  | S fuel => forallb (fun t => st_bytes (tb_table t) <=? u64_max) (compaction_outputs s) && merges_checked fuel (snd (compact_once s))
  end.

Definition files_checked (op : Op) s : bool :=
  match op with
  | OpTurn fuel =>
      match last (st_frozen (en_state (fst s))) with
      | Some frozen => match fst (flush_file frozen s) with Ok t => st_bytes (tb_table t) <=? u64_max | Err _ => true end
      | None => true
      end && merges_checked fuel (snd (next_task s))
  | _ => true
  end.

Definition calls_checked (ops : list Op) s : bool :=
  run_checked ops s &&
  (fix go ops s := match ops with [] => true | op :: ops => files_checked op s && go ops (snd (run_op op s)) end) ops s.

Lemma merges_checked_ok fuel : forall s, merges_checked fuel s = true -> merges_in_limits fuel s.
Proof.
  induction fuel as [|fuel IH]; intros s; cbn -[compact_once compaction_outputs]; [done|]. intros [Hf Hm]%andb_true_iff. split; [|by apply IH].
  intros t Ht. rewrite forallb_forall in Hf. apply Z.leb_le, Hf. by apply list_elem_of_In.
Qed.

Lemma files_checked_ok op s : files_checked op s = true -> files_in_limits op s.
Proof.
  destruct op; try done. cbn -[next_task flush_file]. intros [Hf Hm]%andb_true_iff. split; [|by apply merges_checked_ok].
  intros frozen t s1 El Ef. rewrite El, Ef in Hf. by apply Z.leb_le.
Qed.

Lemma calls_checked_ok ops s : calls_checked ops s = true -> calls_in_limits ops s.
Proof.
  unfold calls_checked. intros [Hr Hf]%andb_true_iff. apply run_checked_ok in Hr. revert s Hr Hf.
  induction ops as [|op ops IH]; intros s; [done|]. intros [Ho Hr] [Hf Hfs]%andb_true_iff.
  split; [done|]. split; [by apply files_checked_ok|]. by apply IH.
Qed.

Definition succeeded_checked (a : Answer) (e : Engine BTreeMemtable) : bool :=
  match a, en_background_error e with
  | Done (Ok _), None | Value _, None => true
  | _, _ => false
  end.

Fixpoint others_checked (ops : list Op) s : bool :=
  match ops with
  | [] | [_] => true
  | op :: ops => let '(a, s') := run_op op s in succeeded_checked a (fst s') && others_checked ops s'
  end.

Lemma others_checked_ok ops : forall s, others_checked ops s = true -> others_succeed ops s.
Proof.
  induction ops as [|op [|op' ops] IH]; intros s; [done..|].
  change (others_checked (op :: op' :: ops) s) with (let '(a, s') := run_op op s in succeeded_checked a (fst s') && others_checked (op' :: ops) s').
  change (others_succeed (op :: op' :: ops) s) with
    (succeeded (fst (run_op op s)) (fst (snd (run_op op s))) /\ others_succeed (op' :: ops) (snd (run_op op s))).
  destruct (run_op op s) as [a s1]. intros [Ha Ho]%andb_true_iff. split; [|by apply IH]. cbn [fst snd].
  unfold succeeded_checked in Ha. by destruct a as [[[]|]|], (en_background_error (fst s1)) eqn:Eb.
Qed.

Definition honest_checked (o : outcome) : bool :=
  match o with
  | Some (err, _) => match io_kind err with NotFound => false | _ => true end
  | None => true
  end.

Lemma honest_checked_ok os : forallb honest_checked os = true -> Forall honest os.
Proof.
  rewrite forallb_forall. intros Hos. apply Forall_forall. intros [[err n]|] Ho; [|done].
  apply list_elem_of_In, Hos in Ho. cbn in *. by destruct (io_kind err).
Qed.

(** What happens in one life: the outcomes of the opening, those of the calls after
    it, and the calls; and the directory a power cut leaves at its end. *)
Definition live (life : list outcome * list outcome * list Op) d : option (list Op * list Answer * Disk) :=
  let '(os, os', calls) := life in
  if names_checked d && manifest_checked d && forallb honest_checked os then
    match engine_open (T := BTreeMemtable) dir config (mkWorld d os) with
    | (Err _, w) => let d' := power_cut (disk w) in if tables_checked d' then Some ([], [], d') else None
    | (Ok e, w) =>
        let s := (e, mkWorld (disk w) os') in
        if calls_checked calls s && others_checked calls s then
          let '(answers, s') := run_ops calls s in
          let d' := power_cut (disk (snd s')) in if tables_checked d' then Some (calls, answers, d') else None
        else None
    end
  else None.

(** What the check of a life has found. *)
Lemma live_cases os os' calls d ops' answers' d' : live (os, os', calls) d = Some (ops', answers', d') ->
  open_in_limits (T := BTreeMemtable) config d /\ Forall honest os /\ complete d' /\
  match engine_open (T := BTreeMemtable) dir config (mkWorld d os) with
  | (Err _, w) => ops' = [] /\ answers' = [] /\ ordered_crash (disk w) d'
  | (Ok e, w) =>
      let s := (e, mkWorld (disk w) os') in
      ops' = calls /\ answers' = fst (run_ops calls s) /\ calls_in_limits calls s /\ others_succeed calls s /\
      ordered_crash (disk (snd (snd (run_ops calls s)))) d'
  end.
Proof.
  unfold live. destruct (_ && _ && _) eqn:Ec; [|done]. apply andb_true_iff in Ec as [Hl%open_checked_ok Hhon%honest_checked_ok].
  destruct (engine_open dir config (mkWorld d os)) as [[e|err] w].
  - destruct (calls_checked _ _ && _) eqn:Ecalls; [|done]. apply andb_true_iff in Ecalls as [Hc%calls_checked_ok Hs%others_checked_ok].
    destruct (run_ops calls (e, mkWorld (disk w) os')) as [as' s'] eqn:Er.
    destruct (tables_checked (power_cut (disk (snd s')))) eqn:Et; [|done]. intros [= <- <- <-].
    do 2 (split; [done|]). split; [by apply tables_checked_ok|]. cbv zeta. rewrite ?Er. do 4 (split; [done|]). apply power_cut_crash.
  - destruct (tables_checked (power_cut (disk w))) eqn:Et; [|done]. intros [= <- <- <-].
    do 2 (split; [done|]). split; [by apply tables_checked_ok|]. do 2 (split; [done|]). apply power_cut_crash.
Qed.

Lemma live_history life ops answers d ops' answers' d' : history (T := BTreeMemtable) dir config ops answers d ->
  live life d = Some (ops', answers', d') -> history (T := BTreeMemtable) dir config (ops ++ ops') (answers ++ answers') d'.
Proof.
  destruct life as [[os os'] calls]. intros Hh (Hl & Hhon & Hd & Hc)%live_cases.
  destruct (engine_open (T := BTreeMemtable) dir config (mkWorld d os)) as [[e|err] w] eqn:Eo.
  - destruct Hc as (-> & -> & Hcalls & Hs & Hcut). by eapply history_life.
  - destruct Hc as (-> & -> & Hcut). rewrite !app_nil_r. by eapply history_cut.
Qed.

Fixpoint lives (ls : list (list outcome * list outcome * list Op)) d : option (list Op * list Answer * Disk) :=
  match ls with
  | [] => Some ([], [], d)
  | life :: ls =>
      '(ops, answers, d) ← live life d;
      '(ops', answers', d) ← lives ls d;
      Some (ops ++ ops', answers ++ answers', d)
  end.

Lemma lives_history ls : forall ops answers d ops' answers' d', history (T := BTreeMemtable) dir config ops answers d ->
  lives ls d = Some (ops', answers', d') -> history (T := BTreeMemtable) dir config (ops ++ ops') (answers ++ answers') d'.
Proof.
  induction ls as [|life ls IH]; intros ops answers d ops' answers' d' Hh; cbn [lives].
  - intros [= <- <- <-]. by rewrite !app_nil_r.
  - destruct (live life d) as [[[ops1 as1] d1]|] eqn:E1; [|done]. cbn. destruct (lives ls d1) as [[[ops2 as2] d2]|] eqn:E2; [|done].
    cbn. intros [= <- <- <-]. rewrite !app_assoc. eapply IH; [|exact E2]. by eapply live_history.
Qed.
End Checked.

(** The machine goes down at the [n]th call. *)
Definition down_after (n : nat) : list outcome :=
  replicate n None ++ [Some (IoError OtherKind "the machine is down", 5%nat)] ++ replicate 40 (Some (IoError OtherKind "the machine is down", 0%nat)).

Definition demo_config : Config := mkConfig Always 4096 2 10.

(** A write lost with the machine after a flush; an opening cut off; a deletion, and
    a compaction cut off while it removes the tables it replaced. *)
Definition demo_lives : list (list outcome * list outcome * list Op) :=
  [([], down_after 28, [OpWrite (bstr "k") (Some (bstr "1")); OpRotate 0; OpTurn 3; OpWrite (bstr "k") (Some (bstr "2"))]);
   (down_after 5, [], []);
   ([], down_after 51, [OpGet (bstr "k"); OpWrite (bstr "j") (Some (bstr "3")); OpWrite (bstr "k") None; OpRotate 0; OpTurn 3; OpGet (bstr "k"); OpTurn 3])].

Lemma store_survives_crashes_witness : exists ops answers d,
  lives "db" demo_config demo_lives empty_disk = Some (ops, answers, d) /\ length ops = 11%nat /\
  exists (e : Engine BTreeMemtable) (w : World) (m : gmap bytes bytes),
    engine_open "db" demo_config (mkWorld d []) = (Ok e, w) /\ no_failures w /\ map_run ops answers ∅ m /\
    forall key w', no_failures w' -> fst (engine_get key (e, w')) = Ok (m !! key).
Proof.
  assert (match lives "db" demo_config demo_lives empty_disk with
    | Some (ops, _, d) => (length ops =? 11)%nat && (names_checked d && manifest_checked d) | None => false end = true) as Hc by (vm_compute; reflexivity).
  destruct (lives "db" demo_config demo_lives empty_disk) as [[[ops answers] d]|] eqn:E; [|discriminate Hc].
  apply andb_true_iff in Hc as [Hlen Hc]. exists ops, answers, d. split; [done|]. split; [by apply Nat.eqb_eq|].
  apply (store_survives_crashes "db" demo_config ops answers d); [by left| |by apply open_checked_ok].
  apply (lives_history "db" demo_config demo_lives [] [] empty_disk ops answers d (history_new "db" demo_config) E).
Defined.
