(* ===== verification/Outages.v ===== *)
(** * Callers sharing a store, on a disk that can fail

    [Sharing] interleaves any number of callers and the background thread over one
    store in memory; [standing] relates a store at any such moment to its directory,
    with the tables and the records each thread has on the way. Here each step of
    each thread keeps that, or is cut off and leaves a directory that still keeps all
    that had happened; so the map the callers share goes on over crashes. *)

From S2P Require Import Prelude WalRecord WalReplay Wal WalAlone Memtable SsTable Disk Manifest Naming.
From S2P Require Import Compaction Layers Engine Store Shape EngineSpec Runs Callers Sharing Crashes Triples Layout Tells Recovery Opened.
From S2P Require Import Logging Making Survive Commits Merging Lives Btree.

Section Outages.
Context {T : Type} `{MemtableLaws T} (dir : string) (config : Config).
Implicit Types (e : Engine T) (w : World) (told : layer) (g : Ledger) (p q : Stage T) (b : Z) (d : Disk).

#[local] Abbreviation standing := (standing dir config).
#[local] Abbreviation levels e := (st_levels (en_state e)).
#[local] Abbreviation last_seq e := (wl_last_seq (en_wal e)).
#[local] Abbreviation top e := (default [] (head (levels e))).

(** ** What a thread has on the disk *)

(** Tables that are in the directory, and in no level yet. *)
Definition tables p : list Table :=
  match p with FlushCommit _ t => [t] | CompactCommit _ _ outs => outs | _ => [] end.

(** Records that are in the log, and not yet in memory. *)
Definition unsaved p : list LogRecord := match p with WriteInsert key value seq => [make_record seq key value] | _ => [] end.

(** Between two steps of the thread. The logs a flush has replaced are spent until it
    has removed them. *)
Definition kept_ok g e p : Prop :=
  (background p = true -> match p with FlushRemove frozen => fz_logs frozen = log_names (lg_spent g) | _ => lg_spent g = [] end) /\
  match p with
  | DropLog previous _ => drained previous previous
  | FlushCommit _ t => lg_gone g = [] /\ described 0 t /\ (forall u, u ∈ top e -> number_of u < number_of t) /\ st_bytes (tb_table t) <= u64_max
  | CompactCommit _ pl outs => Forall (described (output_level pl)) outs /\ forall t, t ∈ outs -> st_bytes (tb_table t) <= u64_max
  | CompactRemove _ pl => forall k, k ∈ input_numbers pl ->
      0 <= k < en_next_number e /\ (k ∉ number_of <$> concat (levels e)) /\ (k ∉ number_of <$> lg_pending g)
  | _ => True
  end.

(** The call has failed, or the background thread's task. A read that fails ends
    nothing. *)
Definition ended p : bool :=
  match p with TaskFailed _ | Returned (Done (Err _)) => true | _ => false end.

(** What a step at [p] may do to what the others rely on. *)
Record drift p e g e' g' : Prop := {
  dt_background : background p = false -> (lg_gone g' = [] \/ lg_gone g' = lg_gone g) /\ lg_spent g' = lg_spent g /\
    forall u, u ∈ top e' -> u ∈ top e;
  dt_pending : forall t, t ∈ lg_pending g' -> t ∈ lg_pending g \/ en_next_number e <= number_of t;
}.

(** A step that goes on: the directory stands for the store again. *)
Definition carried p e told g p' e' d : Prop := exists g',
  standing e' (told_after p told) g' d /\ kept_ok g' e' p' /\ drift p e g e' g' /\
  (forall rest, lg_flying g ≡ₚ unsaved p ++ rest -> lg_flying g' ≡ₚ unsaved p' ++ rest) /\
  (forall t, t ∈ tables p' \/ t ∈ lg_pending g -> t ∈ lg_pending g').

(** A step that is cut off: an append may have reached the disk. *)
Definition cut_off p e told g : layer -> Prop := fun t =>
  t = logged g told \/ exists key value, p = WriteLog key value /\ t = and_told e key value (logged g told).

(** What is true before a step of the thread at [p]. *)
Record ready b p e told g d : Prop := {
  rd_standing : standing e told g d;
  rd_shared : shared b e told;
  rd_thread : thread_ok b e p;
  rd_disk : kept_ok g e p;
  rd_unsaved : forall x, x ∈ unsaved p -> x ∈ lg_flying g;
  rd_tables : forall t, t ∈ tables p -> t ∈ lg_pending g;
  rd_log : takes_log p = true -> lg_flying g = [];
  rd_pending : forall t, t ∈ lg_pending g -> 0 <= number_of t < en_next_number e /\ number_of t ∉ number_of <$> concat (levels e);
}.

(** Where a step leaves the thread and the disk. *)
Definition outcome_ok p e told g p' e' d : Prop :=
  if ended p' then keeps dir d (cut_off p e told g) else carried p e told g p' e' d.

Lemma drift_same p e g e' : (forall u, u ∈ top e' -> u ∈ top e) -> drift p e g e' g.
Proof. intros Ht. split; [by intros _; split_and!; [right|..]|by left]. Qed.

Lemma kept_cut p e told g d : keeps dir d (eq (logged g told)) -> keeps dir d (cut_off p e told g).
Proof. intros Hk. eapply keeps_mono; [exact Hk|]. intros t <-. by left. Qed.

(** A step that does nothing to the disk or to what stands for it. *)
Lemma quiet_outcome p e told g p' e' d : standing e' told g d -> unsaved p = [] -> unsaved p' = [] -> tables p' = [] ->
  levels e' = levels e -> kept_ok g e' p' -> outcome_ok p e told g p' e' d.
Proof.
  intros Hh Hu Hu' Ht El Hd. unfold outcome_ok. destruct (ended p'); [apply kept_cut; by eapply standing_keeps|].
  exists g. assert (told_after p told = told) as -> by by destruct p. split_and!; [done|done|apply drift_same; by rewrite El| |].
  - intros rest. by rewrite Hu, Hu'.
  - intros t. rewrite Ht. by intros [?%elem_of_nil|].
Qed.

Lemma same_outcome p e told g p' e' d : standing e told g d -> same_store e e' -> unsaved p = [] -> unsaved p' = [] -> tables p' = [] ->
  kept_ok g e p' -> outcome_ok p e told g p' e' d.
Proof.
  intros Hh Hs Hu Hu' Ht Hd. apply quiet_outcome; [by eapply standing_same|done..|by rewrite (sst_state _ _ Hs)|].
  destruct Hd as [Hb Hd]. split; [done|]. destruct p'; cbn in *; try done.
  intros k. rewrite (sst_state _ _ Hs), (sst_next _ _ Hs). apply Hd.
Qed.

(** A step of one of the calls: nothing of it is on the disk. *)
Lemma kept_ok_call g e p : background p = false -> match p with DropLog _ _ | CompactCommit _ _ _ | CompactRemove _ _ => False | _ => True end ->
  kept_ok g e p.
Proof. intros Hb Hp. split; [by rewrite Hb|]. by destruct p. Qed.

(** ** Each step *)

Section Steps.
Context (b : Z) (e : Engine T) (w : World) (told : layer) (g : Ledger).

#[local] Abbreviation ready p := (ready b p e told g (disk w)).
#[local] Abbreviation outcome_ok p p' s' := (outcome_ok p e told g p' (fst s') (disk (snd s'))).

Lemma rd_inv p : ready p -> engine_inv e told.
Proof. intros Hr. apply (rd_shared _ _ _ _ _ _ Hr). Qed.

(** The log's part of a write. *)
Lemma append_disk key value r s' : ready (WriteLog key value) -> cf_sync config = Always \/ cf_sync config = Group -> last_seq e < u64_max ->
  log_append key value (e, w) = (r, s') ->
  outcome_ok (WriteLog key value) (match r with Ok seq => WriteInsert key value seq | Err err => return_error err end) s'.
Proof.
  intros Hr Hpol Hlt Hs. pose proof (rd_inv _ Hr) as Hinv. pose proof (ei_seq _ _ Hinv) as Hseq. pose proof (rd_standing _ _ _ _ _ _ Hr) as Hh.
  pose proof (log_append_spec _ _ _ _ _ _ (ei_tidy _ _ Hinv) ltac:(lia) Hs) as ((L1 & _) & _).
  apply (log_append_standing _ _ _ _ _ _ _ _ _ _ Hh (ei_tidy _ _ Hinv) Hpol ltac:(lia)) in Hs. destruct r as [seq|err]; cbn.
  - destruct Hs as (-> & alogs & Hh'). eexists. split; [exact Hh'|]. split; [by apply kept_ok_call|]. split_and!.
    + split; [intros _; split_and!; [by right|done|by rewrite L1]|by left].
    + intros rest. cbn [relogged lg_flying unsaved app]. intros ->. by rewrite (Permutation_app_comm rest).
    + by intros t [?%elem_of_nil|].
  - eapply keeps_mono; [exact Hs|]. intros t [->| ->]; [by left|right; by exists key, value].
Qed.

(** The record reaches the table in memory. *)
Lemma insert_disk key value seq r s' : ready (WriteInsert key value seq) -> has_room (st_active (en_state e)) seq ->
  insert_active key value seq (e, w) = (r, s') ->
  outcome_ok (WriteInsert key value seq)
    (match r with Ok full => if (full : bool) then WriteRotate else return_unit (Ok tt) | Err err => return_error err end) s'.
Proof.
  intros Hr Hroom Hs. pose proof (insert_active_eq _ _ _ _ _ _ _ Hs) as (Hgo & _ & _ & _ & E4).
  destruct (Hgo (insert_goes _ _ _ _ _ _ (rd_shared _ _ _ _ _ _ Hr) (rd_thread _ _ _ _ _ _ Hr) Hroom)) as [full ->].
  destruct Hr as [Hh _ [_ Hth] _ Hu _ _ _]. specialize (Hu _ (list_elem_of_here _ _)). apply elem_of_Permutation in Hu as [rest Hrest].
  assert (forall A, represents (st_active (en_state e)) A -> fresh_for A key seq) as Hfresh by (intros A HA v Hv; by apply (Hth A HA _ _ Hv)).
  destruct (insert_standing dir config key value seq rest _ _ _ _ _ _ Hh Hrest Hroom Hfresh Hs) as [Ew Hh']. rewrite Ew.
  assert (carried (WriteInsert key value seq) e told g (if full then WriteRotate else return_unit (Ok tt)) (fst s') (disk w)) as Hc; [|by destruct full].
  eexists. split; [exact Hh'|]. split_and!; [destruct full; by apply kept_ok_call| |..].
  - split; [intros _; split_and!; [by right|done|by rewrite E4]|by left].
  - intros rest'. cbn [relogged lg_flying unsaved app]. rewrite Hrest. intros Hp%Permutation_cons_inv. by destruct full.
  - intros t. destruct full; by intros [?%elem_of_nil|].
Qed.

(** A rotation, and the flush of the log it replaced. *)
Lemma rotate_disk min_bytes p p' r s' : ready p -> takes_log p = true -> unsaved p' = [] -> tables p' = [] -> background p' = false ->
  match r with Ok (Some previous) => exists waits, p' = DropLog previous waits | Ok None => p' = FlushWait \/ p' = return_unit (Ok tt) | Err _ => ended p' = true end ->
  0 <= en_next_number e < u64_max -> rotate_locked min_bytes (e, w) = (r, s') -> outcome_ok p p' s'.
Proof.
  intros Hr Hlog Hu Ht Hb Hp' Hn Hs. pose proof (rd_inv _ Hr) as Hinv. pose proof (rd_standing _ _ _ _ _ _ Hr) as Hh.
  pose proof (rd_log _ _ _ _ _ _ Hr Hlog) as Hfl. pose proof (rotate_locked_eq _ _ _ _ _ Hs Hn) as He.
  apply (rotate_locked_standing _ _ _ _ _ _ _ _ _ Hh Hfl (ei_tidy _ _ Hinv) Hn) in Hs. destruct r as [[previous|]|err].
  - destruct Hs as (Hd & alogs & flogs & Hh'), Hp' as [waits ->]. destruct He as [[_ [?|[? ?]]]|(prev & logs & budget & name & _ & _ & _ & _ & Est)]; [done..|].
    eexists. assert (told_after p told = told) as -> by by destruct p. split; [exact Hh'|]. split_and!; [split; [done|exact Hd]| |..].
    + split; [intros _; split_and!; [by right|done|by rewrite Est]|by left].
    + intros rest. rewrite Hfl. assert (unsaved p = []) as -> by by destruct p. done.
    + by intros t [?%elem_of_nil|].
  - rewrite Hs. apply quiet_outcome; [done|by destruct p|done..|]. by destruct Hp' as [-> | ->]; apply kept_ok_call.
  - unfold outcome_ok, Outages.outcome_ok. rewrite Hp'. by apply kept_cut.
Qed.

(** The background thread's flush: the table in its file. *)
Lemma flush_file_outcome frozen r s' : ready (FlushFile frozen) -> 0 <= en_next_number e < u64_max -> flush_file frozen (e, w) = (r, s') ->
  (forall t, r = Ok t -> st_bytes (tb_table t) <= u64_max) ->
  outcome_ok (FlushFile frozen) (match r with Ok t => FlushCommit frozen t | Err err => TaskFailed err end) s'.
Proof.
  intros Hr Hn Hs Hb. pose proof (rd_inv _ Hr) as Hinv. pose proof (rd_standing _ _ _ _ _ _ Hr) as Hh. destruct (rd_disk _ _ _ _ _ _ Hr) as [Hsp _].
  specialize (Hsp eq_refl). cbn in Hsp. pose proof (rd_thread _ _ _ _ _ _ Hr) as Hl. cbn in Hl.
  assert (frozen ∈ st_frozen (en_state e)) as Hin by (apply last_Some in Hl as [rest ->]; apply elem_of_app; right; left).
  pose proof (flush_file_made _ _ _ _ _ _ Hinv Hin (proj2 Hn) Hs) as [[Q1 Q2 Q3 Q4 Q5] _].
  apply (flush_file_standing _ _ _ _ _ _ _ _ _ Hh Hn) in Hs. destruct r as [t|err]; [|by apply kept_cut]. destruct Hs as (Hh' & Hde & Hnum).
  eexists. split; [exact Hh'|]. split_and!; [split; [by intros _|]| |..]; cbn [lg_gone lg_spent lg_pending lg_flying].
  - split_and!; [done|done| |by apply Hb]. rewrite Q3, Hnum. intros u Hu. apply (so_next _ _ _ (ei_shape _ _ Hinv)).
    destruct (levels e); [by apply elem_of_nil in Hu|apply elem_of_app; by left].
  - split; [done|]. intros u [->|Hu]%elem_of_cons; [right; lia|by left].
  - done.
  - intros u [->%list_elem_of_singleton|Hu]; [left|by right].
Qed.

(** The commit that counts it in. *)
Lemma flush_commit_outcome frozen t r s' : ready (FlushCommit frozen t) -> en_next_number e <= u64_max -> numbers_ok e (FlushCommit frozen t) ->
  commit [tb_meta t] [] (publish_flush t) (e, w) = (r, s') ->
  outcome_ok (FlushCommit frozen t) (match r with Ok _ => FlushRemove frozen | Err err => TaskFailed err end) s'.
Proof.
  intros Hr Hn Hnum Hs. pose proof (rd_inv _ Hr) as Hinv. pose proof (ei_seq _ _ Hinv). destruct Hr as [Hh _ [Hl Hmade] [Hsp (Hg & Hde & Hnew & Hb)] _ Htb _ _].
  specialize (Hsp eq_refl). cbn in Hsp. destruct (Hnum (number_of t) ltac:(left)) as [Hrg Hno].
  apply (flush_commit_standing dir config frozen t e w r s' told g) in Hs; try done; [|apply Htb; left|lia|intros u Hu E; apply Hno; rewrite E; by apply list_elem_of_fmap_2].
  destruct r as [[]|err]; [|by apply kept_cut]. destruct Hs as (man & spent & flogs & Hnames & Hh').
  eexists. split; [exact Hh'|]. split_and!; cbn [lg_gone lg_spent lg_pending lg_flying].
  - by split; [intros _|].
  - by split; [|left].
  - done.
  - by intros u [?%elem_of_nil|].
Qed.

(** The logs it replaces. *)
Lemma remove_logs_outcome frozen r s' : ready (FlushRemove frozen) -> remove_logs frozen (e, w) = (r, s') ->
  outcome_ok (FlushRemove frozen) (match r with Ok _ => FlushMark | Err err => TaskFailed err end) s'.
Proof.
  intros Hr Hs. destruct Hr as [Hh _ _ [Hnames _] _ _ _ _]. specialize (Hnames eq_refl). cbn in Hnames.
  apply (remove_logs_standing _ _ _ _ _ _ _ _ _ Hh Hnames) in Hs. destruct r as [[]|err]; [|by apply kept_cut]. destruct Hs as [-> Hh'].
  eexists. split; [exact Hh'|]. split_and!; cbn [lg_gone lg_spent lg_pending lg_flying].
  - by split; [intros _|].
  - by split; [|left].
  - done.
  - by intros u [?%elem_of_nil|].
Qed.

Lemma ended_gave_up owner err : ended (gave_up (T := T) owner err) = true.
Proof. by destruct owner. Qed.

(** A compaction's merge. *)
Lemma merge_outcome owner pl sn inputs r s' : ready (CompactMerge owner pl sn inputs) -> numbers_left e ->
  write_outputs pl sn inputs (e, w) = (r, s') -> (forall outs t, r = Ok (Some outs) -> t ∈ outs -> st_bytes (tb_table t) <= u64_max) ->
  outcome_ok (CompactMerge owner pl sn inputs)
    (match r with Ok (Some outs) => CompactCommit owner pl outs | Ok None => settled owner | Err err => gave_up owner err end) s'.
Proof.
  intros Hr Hleft Hs Hb. pose proof (rd_inv _ Hr) as Hinv. destruct Hr as [Hh _ (n0 & L & fresh & ts & Hp & -> & Ets & Hts) [Hsp _] _ _ _ _].
  apply (write_outputs_standing _ _ _ _ _ _ _ _ _ _ _ _ _ _ Hh Hinv Hp Hleft Ets Hts) in Hs. destruct r as [[outs|]|err].
  - destruct Hs as (Hh' & Hde & [Q1 Q2 Q3 Q4 Q5] & Hrg & _). assert (ended (CompactCommit owner pl outs) = false) as Hf by done.
    eexists. split; [exact Hh'|]. split_and!; cbn [lg_gone lg_spent lg_pending lg_flying].
    + split; [|split; [done|intros t Ht; by eapply Hb]]. destruct owner; [done|exact Hsp].
    + split; [|intros t [Ht|Ht]%elem_of_app; [right; by apply Hrg|by left]]. intros _. split_and!; [by left|done|by rewrite Q3].
    + done.
    + intros t Ht. by apply elem_of_app.
  - done.
  - unfold outcome_ok, Outages.outcome_ok. rewrite ended_gave_up. by apply kept_cut.
Qed.

(** Its commit. *)
Lemma commit_outputs_outcome owner pl outs r s' : ready (CompactCommit owner pl outs) -> en_next_number e <= u64_max ->
  numbers_ok e (CompactCommit owner pl outs) -> commit_outputs pl outs (e, w) = (r, s') ->
  outcome_ok (CompactCommit owner pl outs) (match r with Ok _ => CompactRemove owner pl | Err err => gave_up owner err end) s'.
Proof.
  intros Hr Hn Hnum Hs. pose proof (rd_inv _ Hr) as Hinv. pose proof (ei_seq _ _ Hinv).
  destruct Hr as [Hh _ (sn & n0 & L & fresh & n1 & Hp & Hn1 & Ho) [Hsp [Hde Hb]] _ Htb _ Hpe]. specialize (Ho Hb).
  assert (forall t u, t ∈ fresh -> u ∈ outs -> number_of t <> number_of u) as Hap.
  { intros t u Ht Hu E. destruct (Hnum (number_of u)) as [_ Hno]; [by apply list_elem_of_fmap_2|]. apply Hno. rewrite <- E.
    apply list_elem_of_fmap_2. destruct Hp as [P1 _ _ _ P5]. rewrite P5, (concat_fresh sn n0 L fresh P1). apply elem_of_app. by left. }
  pose proof Hs as Hc. unfold commit_outputs in Hc. apply commit_cases in Hc.
  apply (commit_outputs_standing dir config pl sn n0 L fresh outs n1 e w r s' told g Hh Hinv Hp Ho Hn1 Hn ltac:(lia) Hap Htb Hde Hb) in Hs.
  destruct r as [[]|err]; [|unfold outcome_ok, Outages.outcome_ok; rewrite ended_gave_up; by apply kept_cut].
  destruct Hc as [[[? ?] _]|(_ & _ & En & _ & Est & _)]; [done|]. destruct Hs as [[man Hh'] Hk].
  eexists. split; [exact Hh'|]. split_and!; cbn [lg_gone lg_spent lg_pending lg_flying].
  - split; [by destruct owner|]. intros k Hin. destruct (Hk k Hin) as (Hk1 & Hk2 & Hk3). destruct Hp as [_ ? _ _ _]. split_and!; [lia|lia|done|].
    intros (t & -> & Ht)%list_elem_of_fmap. by destruct (Hpe t Ht) as [_ []].
  - split; [|by left]. intros _. split_and!; [by left|done|]. rewrite Est. cbn [publish_compaction st_levels].
    destruct Hp as [P1 _ P3 _ _]. rewrite compacted_head; [|apply (lk_some _ (so_levels _ _ _ (ei_shape _ _ Hinv)))|unfold output_level; lia].
    by intros u [_ Hu]%list_elem_of_filter.
  - done.
  - by intros t [?%elem_of_nil|].
Qed.

(** The files of its inputs. *)
Lemma remove_inputs_outcome owner pl r s' : ready (CompactRemove owner pl) -> en_next_number e <= u64_max ->
  remove_inputs pl (e, w) = (r, s') ->
  outcome_ok (CompactRemove owner pl) (match r with Ok _ => CompactMark owner | Err err => gave_up owner err end) s'.
Proof.
  intros Hr Hn Hs. pose proof (rd_inv _ Hr) as Hinv. destruct Hr as [Hh _ _ [Hsp Hk] _ _ _ Hpe].
  apply (remove_inputs_standing dir config pl e w r s' told g Hh Hn) in Hs; [|intros k Hin; by destruct (Hk k Hin)|].
  2:{ intros t [Ht|Ht]%elem_of_app.
      - split; [by apply (so_next _ _ _ (ei_shape _ _ Hinv))|]. intros Hin. destruct (Hk _ Hin) as (_ & Hno & _). by apply Hno, list_elem_of_fmap_2.
      - split; [by apply Hpe|]. intros Hin. destruct (Hk _ Hin) as (_ & _ & Hno). by apply Hno, list_elem_of_fmap_2. }
  destruct r as [[]|err]; [|unfold outcome_ok, Outages.outcome_ok; rewrite ended_gave_up; by apply kept_cut]. destruct Hs as [-> Hh'].
  apply quiet_outcome; [done..|]. split; [by destruct owner|done].
Qed.
End Steps.

(** ** Any step *)

Lemma same_store_refl e : same_store e e.
Proof. done. Qed.

Lemma wait_turn_same e w r s' : wait_turn (e, w) = (r, s') -> snd s' = w /\ same_store e (fst s').
Proof.
  unfold wait_turn. intros [(err & s1 & (e1 & _ & -> & Hq)%take_background_same & Hs)|(err & (e1 & ? & _)%take_background_same & _)]%stm_bind_cases; [|done].
  destruct err as [err|]; [by injection Hs as _ <-|].
  apply stm_bind_cases in Hs as [(pending & s1 & [_ ->]%gete_eq & Hs)|(err & [? _]%gete_eq & _)]; [|done].
  destruct (pending =? 0); by injection Hs as _ <-.
Qed.

Lemma keep_error_same err e w r s' : keep_background_error err (e, w) = (r, s') -> snd s' = w /\ same_store e (fst s').
Proof.
  unfold keep_background_error, gete, gets, set_background_error, modify, mbind, stm_bind. cbn [fst].
  destruct (en_background_error e); by intros [= _ <-].
Qed.

(** Steps that are nothing to the disk. *)
Lemma stage_quiet b p e w told g p' s' : ready b p e told g (disk w) -> stage_step p (e, w) = (p', s') ->
  match p with
  | WriteBegin _ _ | FlushWait | NextTask | FlushMark | TaskFailed _ | CompactPlan _ | CompactFind _ _ _ | CompactMark _ | ReadBegin _ | Returned _ => True
  | _ => False
  end -> outcome_ok p e told g p' (fst s') (disk (snd s')).
Proof.
  intros Hr Hst Hp. pose proof (rd_inv b e w told g p Hr) as Hinv. destruct Hr as [Hh _ _ [Hsp _] _ _ _ _].
  destruct p as [key value| | | | |key| | | | | | | | |err|owner|owner pl sn| | | |owner|a]; try done; cbn [stage_step] in Hst; cbn [background] in Hsp.
  - apply after_eq in Hst as (r & Hm & ->). apply take_background_same in Hm as (e1 & -> & -> & Hs). cbn [fst snd].
    by apply same_outcome; [..|destruct (en_background_error e)|destruct (en_background_error e)|destruct (en_background_error e); apply kept_ok_call].
  - destruct (engine_get key (e, w)) as [r s1] eqn:E. injection Hst as <- <-.
    destruct (read_ran _ _ _ _ _ _ Hinv E) as (e1 & w1 & -> & Hs%counted_same & _ & Ed & _). cbn [fst snd]. rewrite Ed.
    by apply same_outcome; [..|apply kept_ok_call].
  - apply after_eq in Hst as (r & Hm & ->). apply wait_turn_same in Hm as [-> Hs].
    by apply same_outcome; [..|destruct r as [[]|]|destruct r as [[]|]|destruct r as [[]|]; apply kept_ok_call].
  - specialize (Hsp eq_refl). apply after_eq in Hst as (r & Hm & ->). apply next_task_same in Hm as (e1 & -> & Hs). cbn [fst snd].
    by apply same_outcome; [..|destruct r as [[[]|]|]|destruct r as [[[]|]|]|destruct r as [[[]|]|]; (split; [intros _|])].
  - specialize (Hsp eq_refl). apply after_eq in Hst as (r & Hm & ->). apply mark_progress_same in Hm as (-> & -> & Hs).
    by apply same_outcome; [..|split; [intros _|]].
  - specialize (Hsp eq_refl). apply after_eq in Hst as (r & Hm & ->). apply keep_error_same in Hm as [-> Hs].
    by apply same_outcome; [..|destruct r|destruct r|destruct r; (split; [intros _|])].
  - apply after_eq in Hst as (r & Hm & ->). rewrite plan_compaction_eq in Hm. injection Hm as <- <-. cbn [fst snd].
    apply same_outcome; [done..| | |]; destruct (plan_of e); destruct owner; try done; (split; [exact Hsp|done]).
  - apply after_eq in Hst as (r & Hm & ->). unfold find_inputs_of in Hm.
    apply stm_bind_cases in Hm as [(st & s1 & [[= ->] ->]%gete_eq & Hm)|(err & [? _]%gete_eq & _)]; [|done]. injection Hm as <- <-. cbn [fst snd].
    apply same_outcome; [done..| | |]; destruct (negb _); destruct owner; try done; (split; [exact Hsp|done]).
  - apply after_eq in Hst as (r & Hm & ->). apply mark_progress_same in Hm as (-> & -> & Hs).
    by apply same_outcome; [..|split; [exact Hsp|]].
  - injection Hst as <- <-. by apply same_outcome; [..|apply kept_ok_call].
Qed.

Lemma write_log_step key value (s : Engine T * World) p' s' : stage_step (WriteLog key value) s = (p', s') ->
  exists r, log_append key value s = (r, s') /\ p' = match r with Ok seq => WriteInsert key value seq | Err err => return_error err end.
Proof. apply after_eq. Qed.

Lemma sync_step (s : Engine T * World) p' s' : stage_step SyncBegin s = (p', s') -> exists r, engine_sync s = (r, s') /\ p' = return_unit r.
Proof. cbn. destruct (engine_sync s) as [r s1]. intros [= <- <-]. by exists r. Qed.

(** The limits of the files' lengths. *)
Definition lengths_ok p : Prop := forall t, t ∈ tables p -> st_bytes (tb_table t) <= u64_max.

(** Any step of any thread. *)
Lemma stage_disk b p e w told g p' s' : ready b p e told g (disk w) -> numbers_ok e p -> cf_sync config = Always \/ cf_sync config = Group ->
  stage_step p (e, w) = (p', s') -> step_in_limits p e (fst s') -> lengths_ok p' -> outcome_ok p e told g p' (fst s') (disk (snd s')).
Proof.
  intros Hr Hn Hpol Hst (Hlast & Hleft & _ & Hroom) Hlen. pose proof (rd_inv b e w told g p Hr) as Hinv. pose proof (ei_next _ _ Hinv).
  unfold numbers_left in Hleft. pose proof (zlen_nonneg (all_entries e)). assert (en_next_number e < u64_max) as Hlt by lia.
  destruct p as [key value|key value|key value seq| |previous waits|key| | | | |frozen|frozen t|frozen| |err|
    owner|owner pl sn|owner pl sn inputs|owner pl outs|owner pl|owner|a]; try (by eapply stage_quiet).
  { apply write_log_step in Hst as (r & Hm & ->). by eapply append_disk. }
  4: { apply sync_step in Hst as (r & E & ->). pose proof (sync_log _ _ _ _ (ei_tidy _ _ Hinv) E) as [(L1 & _) _].
    apply (sync_standing _ _ _ _ _ _ _ _ (rd_standing _ _ _ _ _ _ Hr) (ei_tidy _ _ Hinv)) in E.
    by apply quiet_outcome; [..|rewrite L1|apply kept_ok_call]. }
  all: cbn [stage_step] in Hst; apply after_eq in Hst as (r & Hm & ->).
  - by eapply insert_disk.
  - apply stm_bind_cases in Hm as [(cfg & s1 & [_ ->]%gete_eq & Hm)|(err & [? _]%gete_eq & _)]; [|done].
    eapply rotate_disk; [exact Hr|done| | | | |lia|exact Hm]; destruct r as [[]|]; try done; [by exists false|by right].
  - destruct Hr as [Hh _ _ [_ Hd] _ _ _ _]. apply (drop_log_standing _ _ _ _ _ _ _ _ _ Hh Hd) in Hm as (-> & -> & Hh').
    destruct waits; by apply quiet_outcome; [..|apply kept_ok_call].
  - eapply rotate_disk; [exact Hr|done| | | | |lia|exact Hm]; destruct r as [[]|]; try done; [by exists true|by left].
  - eapply flush_file_outcome; [exact Hr|lia|exact Hm|]. intros t ->. apply Hlen. left.
  - eapply flush_commit_outcome; [exact Hr|lia|done|exact Hm].
  - by eapply remove_logs_outcome.
  - eapply merge_outcome; [exact Hr|done|exact Hm|]. intros outs t ->. apply Hlen.
  - eapply commit_outputs_outcome; [exact Hr|lia|done|exact Hm].
  - eapply remove_inputs_outcome; [exact Hr|lia|exact Hm].
Qed.

(** ** The store and its directory *)

#[local] Abbreviation engine_of s := (fst (so_engine s)).
#[local] Abbreviation disk_of s := (disk (snd (so_engine s))).

(** What all the threads have on the disk. *)
Definition gathered {A} (f : Stage T -> list A) (calls : list (Request * Stage T)) : list A := concat ((fun c => f (snd c)) <$> calls).

Record disk_inv (s : Store) told g : Prop := {
  di_standing : standing (engine_of s) told g (disk_of s);
  di_threads : forall i r p, so_calls s !! i = Some (r, p) -> kept_ok g (engine_of s) p;
  di_tables : lg_pending g = gathered tables (so_calls s);
  di_unsaved : lg_flying g = gathered unsaved (so_calls s);
}.

Lemma elem_of_gathered {A} (f : Stage T -> list A) calls x : x ∈ gathered f calls <-> exists i r p, calls !! i = Some (r, p) /\ x ∈ f p.
Proof.
  unfold gathered. rewrite elem_of_concat. split.
  - intros (xs & ([r p] & -> & [i Hi]%list_elem_of_lookup)%list_elem_of_fmap & Hx). by exists i, r, p.
  - intros (i & r & p & Hi & Hx). exists (f p). split; [|done]. apply list_elem_of_fmap. exists (r, p). split; [done|]. by eapply list_elem_of_lookup_2.
Qed.

Lemma gathered_step {A} (f : Stage T -> list A) calls i r p p' : calls !! i = Some (r, p) -> exists rest,
  gathered f calls ≡ₚ f p ++ rest /\ gathered f (<[i := (r, p')]> calls) ≡ₚ f p' ++ rest.
Proof. apply (concat_insert (fun c => f (snd c))). Qed.

Lemma tables_numbers p : numbers p = number_of <$> tables p.
Proof. by destruct p. Qed.

Section Whole.
Context (init : layer) (Hpolicy : cf_sync config = Always \/ cf_sync config = Group).
#[local] Abbreviation store_inv := (store_inv init).

(** Any thread that may go on can. *)
Lemma thread_ready s told b g i r p : store_inv s told b -> disk_inv s told g -> so_calls s !! i = Some (r, p) ->
  admitted (snd <$> so_calls s) p = true -> ready b p (engine_of s) told g (disk_of s).
Proof.
  intros Hinv [D1 D2 D3 D4] Hi Had. destruct (si_threads _ _ _ _ Hinv i r p Hi) as (Hth & Hn & _). split; try done.
  - apply Hinv.
  - by eapply D2.
  - intros x Hx. rewrite D4. apply elem_of_gathered. eauto.
  - intros t Ht. rewrite D3. apply elem_of_gathered. eauto.
  - intros Hlog. rewrite D4. apply elem_of_nil_inv. intros x (j & r' & q & Hj & Hx)%elem_of_gathered.
    assert (flying q = []) as Hq.
    { eapply admitted_log; [exact Had| |exact Hlog]. apply list_elem_of_fmap. exists (r', q). split; [done|]. by eapply list_elem_of_lookup_2. }
    destruct q; try by apply elem_of_nil in Hx. done.
  - intros t Ht. rewrite D3 in Ht. apply elem_of_gathered in Ht as (j & r' & q & Hj & Ht). destruct (si_threads _ _ _ _ Hinv j r' q Hj) as (_ & Hq & _).
    apply Hq. rewrite tables_numbers. by apply list_elem_of_fmap_2.
Qed.

(** What the other threads rely on. *)
Lemma kept_ok_others p q b e told g b' e' told' g' pending flying : change p b e told b' e' told' -> stages_apart p q -> drift p e g e' g' ->
  (forall t, t ∈ tables p -> t ∈ lg_pending g) -> (forall t, t ∈ pending -> t ∈ lg_pending g') -> kept_ok g e q ->
  kept_ok (mkLedger (lg_man g') (lg_gone g') (lg_spent g') (lg_active g') (lg_frozen g') pending flying) e' q.
Proof.
  intros Hc [_ _ _ A4] [Hb Hp] Htb Hpe [Q1 Q2]. split; cbn [lg_gone lg_spent lg_pending].
  - intros Eq. rewrite Eq, andb_true_r in A4. destruct (Hb A4) as (_ & -> & _). by apply Q1.
  - destruct q as [| | | | | | | | | | |frozen t| | | | | | |o pl outs|o pl| |]; try done.
    + rewrite andb_true_r in A4. destruct (Hb A4) as (Hg & _ & Htop), Q2 as (Hg' & Hde & Hnew & Hlen). split_and!; [by destruct Hg as [-> | ->]|done| |done].
      intros u Hu. by apply Hnew, Htop.
    + intros k Hk. destruct (Q2 k Hk) as (Hr & Hl & Hno). pose proof (change_next _ _ _ _ _ _ _ Hc). split_and!; [lia|lia|..].
      * intros (t & -> & Ht)%list_elem_of_fmap. destruct (change_levels _ _ _ _ _ _ _ _ Hc Ht) as [Hold|Hnew]; [by apply Hl, list_elem_of_fmap_2|].
        rewrite tables_numbers in Hnew. apply list_elem_of_fmap in Hnew as (u & E & Hu). apply Hno. rewrite E. by apply list_elem_of_fmap_2, Htb.
      * intros (t & -> & Ht)%list_elem_of_fmap. destruct (Hp t (Hpe t Ht)) as [Hold|?]; [by apply Hno, list_elem_of_fmap_2|lia].
Qed.

Lemma kept_ok_less g e p pending flying : (forall t, t ∈ pending -> t ∈ lg_pending g) -> kept_ok g e p ->
  kept_ok (mkLedger (lg_man g) (lg_gone g) (lg_spent g) (lg_active g) (lg_frozen g) pending flying) e p.
Proof.
  intros Hsub [H1 H2]. split; [exact H1|]. destruct p; try exact H2. intros k Hk. destruct (H2 k Hk) as (? & ? & Hno). split_and!; [lia|lia|done|].
  intros (t & -> & Ht)%list_elem_of_fmap. by apply Hno, list_elem_of_fmap_2, Hsub.
Qed.

(** A step of one thread. *)
Lemma disk_step s told b g i r p p' s' effects : store_inv s told b -> disk_inv s told g -> so_calls s !! i = Some (r, p) ->
  admitted (snd <$> so_calls s) p = true -> stage_step p (so_engine s) = (p', s') -> step_in_limits p (engine_of s) (fst s') -> lengths_ok p' ->
  if ended p' then keeps dir (disk (snd s')) (cut_off p (engine_of s) told g)
  else exists g', disk_inv (mkStore s' (<[i := (r, p')]> (so_calls s)) effects) (told_after p told) g'.
Proof.
  intros Hinv Hd Hi Had Hst Hlim Hlen. pose proof (thread_ready _ _ _ _ _ _ _ Hinv Hd Hi Had) as Hready.
  destruct (si_threads _ _ _ _ Hinv i r p Hi) as (Hth & Hn & _).
  destruct (stage_advanced _ _ _ _ _ _ (si_shared _ _ _ _ Hinv) Hth Hn Hst Hlim) as (b' & told' & Hch & _).
  destruct (so_engine s) as [e w] eqn:Es. cbn [fst snd] in *.
  pose proof (stage_disk b p e w told g p' s' Hready Hn Hpolicy Hst Hlim Hlen) as Ho. unfold outcome_ok in Ho. destruct (ended p'); [done|].
  destruct Ho as (g' & Hh & Hok & Hdr & Hfl & Htb). pose proof Hd as [D1 D2 D3 D4]. rewrite Es in *. cbn [fst snd] in *.
  destruct (gathered_step unsaved _ _ _ _ p' Hi) as (rest & U1 & U2). rewrite <- D4 in U1.
  destruct (gathered_step tables _ _ _ _ p' Hi) as (others & T1 & T2). rewrite <- D3 in T1.
  assert (forall t, t ∈ gathered tables (<[i := (r, p')]> (so_calls s)) -> t ∈ lg_pending g') as Hpe.
  { intros t. rewrite T2. intros [Ht|Ht]%elem_of_app; apply Htb; [by left|right]. rewrite T1. apply elem_of_app. by right. }
  eexists. split; cbn [so_engine so_calls].
  - apply (standing_perm dir config _ _ g' _ (gathered unsaved (<[i := (r, p')]> (so_calls s))) (gathered tables (<[i := (r, p')]> (so_calls s))) Hh); [|done].
    rewrite U2. by apply Hfl.
  - intros j r' q Hj. destruct (decide (j = i)) as [->|Hne].
    + rewrite list_lookup_insert_eq in Hj by (by eapply lookup_lt_Some). injection Hj as <- <-. by apply kept_ok_less.
    + rewrite list_lookup_insert_ne in Hj by done. eapply kept_ok_others; [exact Hch| |exact Hdr|apply Hready|exact Hpe|by eapply D2].
      by eapply (si_apart _ _ _ _ Hinv i j).
  - done.
  - done.
Qed.

Lemma disk_call s told g r : r <> RBackground -> disk_inv s told g ->
  disk_inv (mkStore (so_engine s) (so_calls s ++ [(r, start r)]) (so_effects s)) told g.
Proof.
  intros Hr [D1 D2 D3 D4]. split; cbn [so_engine so_calls].
  - done.
  - intros i r' p [Hi|[_ [_ [= <- <-]]%list_lookup_singleton_Some]]%lookup_app_Some; [by eapply D2|]. by destruct r; apply kept_ok_call.
  - unfold gathered in *. rewrite fmap_app, concat_app, D3. by destruct r; rewrite app_nil_r.
  - unfold gathered in *. rewrite fmap_app, concat_app, D4. by destruct r; rewrite app_nil_r.
Qed.

Lemma fresh_disk_inv e w told : holds dir config e told (disk w) -> exists g, disk_inv (fresh_store (e, w)) told g.
Proof.
  intros (_ & g & (Gs & Gp & Gf) & Hh). exists g. split; cbn; [done|..|done|done].
  intros i r p [-> [= <- <-]]%list_lookup_singleton_Some. by split; [intros _|].
Qed.

(** ** A life *)

Definition sound (s : Store) : Prop := forall i r p, so_calls s !! i = Some (r, p) -> ended p = false /\ lengths_ok p.

(** A step after which no call but a read has failed. *)
Definition life_step (s s' : Store) : Prop := store_step s s' /\ sound s'.
Definition life_steps : Store -> Store -> Prop := rtc life_step.

(** How it ends: between two steps, or in one that is cut off. *)
Definition over (s s' : Store) : Prop :=
  s' = s \/ (store_step s s' /\ exists i r p, so_calls s' !! i = Some (r, p) /\ ended p = true).

Lemma life_steps_store s s' : life_steps s s' -> store_steps s s'.
Proof. intros Hst. induction Hst as [s|s s1 s2 [Hst _] _ IH]; [apply rtc_refl|by eapply rtc_l]. Qed.

Lemma life_step_keeps s s' told b g : store_inv s told b -> disk_inv s told g -> life_step s s' ->
  exists told' b' g', store_inv s' told' b' /\ disk_inv s' told' g'.
Proof.
  intros Hinv Hd [Hst Hs]. destruct Hst as [s r Hr|s i r p p' s' Hi Had Hst Hlim].
  - exists told, b, g. split; [by apply start_keeps|by apply disk_call].
  - destruct (Hs i r p') as [Hf Hl]; [apply list_lookup_insert_eq; by eapply lookup_lt_Some|].
    destruct (step_keeps _ _ _ _ _ _ _ _ _ Hi Had Hst Hlim Hinv) as [b' Hinv'].
    pose proof (disk_step _ _ _ _ _ _ _ _ _ (record i p p' (so_effects s)) Hinv Hd Hi Had Hst Hlim Hl) as Hd'. rewrite Hf in Hd'.
    destruct Hd' as [g' Hd']. by exists (told_after p told), b', g'.
Qed.

Lemma life_steps_keep s s' told b g : store_inv s told b -> disk_inv s told g -> life_steps s s' ->
  exists told' b' g', store_inv s' told' b' /\ disk_inv s' told' g'.
Proof.
  intros Hinv Hd Hst. revert told b g Hinv Hd. induction Hst as [s|s s1 s2 Hst _ IH]; intros told b g Hinv Hd; [by exists told, b, g|].
  destruct (life_step_keeps _ _ _ _ _ Hinv Hd Hst) as (told1 & b1 & g1 & Hinv1 & Hd1). by eapply IH.
Qed.

(** The call that fails has had no effect. *)
Lemma ended_no_effect b told p p' (s s' : Engine T * World) : shared b (fst s) told -> thread_ok b (fst s) p ->
  step_in_limits p (fst s) (fst s') -> stage_step p s = (p', s') -> ended p' = true -> effect_of p p' = None.
Proof.
  intros Hsh Hth (_ & _ & _ & Hroom). destruct p; try done; cbn [stage_step effect_of].
  - intros (r & Hm & ->)%after_eq. destruct s as [e w]. apply insert_active_eq in Hm as (Hgo & _).
    destruct (Hgo (insert_goes _ _ _ _ _ _ Hsh Hth Hroom)) as [full ->]. by destruct full.
  - intros _ Hf. by destruct p' as [| | | | | | | | | | | | | | | | | | | | |[?|[?|?]]].
Qed.
(** ** What the directory has that memory had not *)

Definition write_of (x : LogRecord) : Effect := EWrite (record_key x) (record_seq x) (record_value x).

(** The writes whose record is in the log. *)
Fixpoint late (n : nat) (calls : list (Request * Stage T)) : list (nat * Effect) :=
  match calls with
  | [] => []
  | (_, p) :: calls => ((fun x => (n, write_of x)) <$> unsaved p) ++ late (S n) calls
  end.

Definition place_all (xs effects : list (nat * Effect)) : list (nat * Effect) := fold_left (fun effects x => place x effects) xs effects.

Lemma late_writes calls : forall n, snd <$> late n calls = write_of <$> gathered unsaved calls.
Proof.
  unfold gathered. induction calls as [|[r p] calls IH]; intros n; [done|]. cbn [late]. rewrite fmap_cons. cbn [concat snd].
  rewrite !fmap_app, IH. f_equal. by rewrite <- list_fmap_compose.
Qed.

Lemma elem_of_late calls j f : forall n, (j, f) ∈ late n calls -> exists i r p x, j = (n + i)%nat /\ calls !! i = Some (r, p) /\ x ∈ unsaved p /\ f = write_of x.
Proof.
  induction calls as [|[r p] calls IH]; intros n; cbn [late]; [by intros ?%elem_of_nil|].
  intros [(x & [= -> ->] & Hx)%list_elem_of_fmap|(i & r' & q & x & -> & Hi & Hx)%IH]%elem_of_app.
  - exists 0%nat, r, p, x. split; [lia|done].
  - exists (S i), r', q, x. split; [lia|done].
Qed.

Lemma late_once calls : forall n, NoDup (late n calls).*1.
Proof.
  induction calls as [|[r p] calls IH]; intros n; cbn [late]; [constructor|]. rewrite fmap_app. apply NoDup_app. split_and!; [| |apply IH].
  - destruct p; cbn; try constructor; [by intros ?%elem_of_nil|constructor].
  - intros j ([j1 f] & -> & (x & [= -> ->] & _)%list_elem_of_fmap)%list_elem_of_fmap ([j2 f2] & E & (i & r' & q & y & -> & _)%elem_of_late)%list_elem_of_fmap.
    cbn in E. lia.
Qed.

Lemma place_all_perm xs : forall effects, place_all xs effects ≡ₚ xs ++ effects.
Proof. induction xs as [|x xs IH]; intros effects; [done|]. cbn [place_all fold_left]. rewrite (IH (place x effects)), place_perm. cbn. by rewrite Permutation_middle. Qed.

Lemma elem_of_place_all xs effects y : y ∈ place_all xs effects <-> y ∈ xs \/ y ∈ effects.
Proof. rewrite place_all_perm. apply elem_of_app. Qed.

(** They are placed like any write that reaches memory late. *)
Lemma place_all_run recs : forall xs effects m told, snd <$> xs = write_of <$> recs -> layer_effects effects m told ->
  NoDup (numbering (mutation <$> recs)) ->
  (forall x v, x ∈ recs -> told !! record_key x = Some v -> fst v <> record_seq x) ->
  (forall x v, x ∈ recs -> m !! record_key x = Some v -> fst v <= record_seq x) ->
  layer_effects (place_all xs effects) m (spec_apply told (mutation <$> recs)).
Proof.
  induction recs as [|x recs IH]; intros [|[i f] xs] effects m told E Hrun Hnd Hne Hle; [done..|].
  injection E as -> E. cbn [place_all fold_left]. inversion_clear Hnd as [|? ? Hnot Hnd'].
  apply (IH xs (place (i, write_of x) effects) m (spec_insert told (record_key x) (record_seq x) (record_value x)) E); [|done| |].
  - apply place_write; [done|..]; intros v; [apply Hne|apply Hle]; left.
  - intros y v Hy. rewrite spec_insert_lookup.
    assert (told !! record_key y = Some v -> fst v <> record_seq y) as Hold by (apply Hne; by right).
    destruct (decide (record_key y = record_key x)) as [Ek|]; [|done]. destruct (spec_newest _ _ _); [|done]. intros [= <-] Eq. cbn in Eq.
    apply Hnot. apply list_elem_of_fmap. exists (mutation y). split; [|by apply list_elem_of_fmap_2]. cbn. by rewrite Ek, Eq.
  - intros y v Hy. apply Hle. by right.
Qed.

(** None of them comes among the effects a later call could see. *)
Lemma place_all_dated n z xs : forall old new, dated n z old ->
  (forall j f, (j, f) ∈ xs -> match f with EWrite _ seq _ => (j < n)%nat \/ z < seq | ERead _ _ => True end) ->
  exists old' new', place_all xs (old ++ new) = old' ++ new' /\ dated n z old' /\ forall x, x ∈ old -> x ∈ old'.
Proof.
  induction xs as [|[j f] xs IH]; intros old new Hd Hxs; [by exists old, new|]. cbn [place_all fold_left].
  destruct (place_dated n z j f old new Hd) as (old1 & new1 & E & Hd1 & Hsub); [apply Hxs; left|].
  destruct (IH old1 new1 Hd1) as (old2 & new2 & E2 & Hd2 & Hsub2); [intros k h Hk; apply Hxs; by right|].
  exists old2, new2. rewrite E. split; [exact E2|]. auto.
Qed.

(** ** What a life is to its callers *)

Record Life := mkLife { lf_start : Store (T := T); lf_last : Store (T := T); lf_end : Store (T := T) }.

(** The life's calls, as one run: each with one effect at most, those that returned
    with theirs, and what takes effect in a call begun after a moment [s] comes after
    everything that had taken effect by [s]. *)
Record explains (life : Life) (effects : list (nat * Effect)) : Prop := {
  ex_once : NoDup effects.*1;
  ex_known : forall i f, (i, f) ∈ effects -> exists r p, so_calls (lf_end life) !! i = Some (r, p) /\ effect_for f r;
  ex_reads : forall i key answer, so_calls (lf_end life) !! i = Some (RGet key, Returned answer) ->
    (exists v, answer = Value (Ok v) /\ (i, ERead key v) ∈ effects) \/ (exists r, answer = Value r /\ io_failed r);
  ex_kinds : forall i r v, so_calls (lf_end life) !! i = Some (r, Returned (Value v)) -> exists key, r = RGet key;
  ex_writes : forall i key value, so_calls (lf_end life) !! i = Some (RWrite key value, Returned (Done (Ok tt))) ->
    exists seq, (i, EWrite key seq value) ∈ effects;
  ex_order : forall s, life_steps (lf_start life) s -> life_steps s (lf_last life) -> exists earlier after,
    effects = earlier ++ after /\ (forall x, x ∈ so_effects s -> x ∈ earlier) /\
    forall j f, (j, f) ∈ earlier -> (j < length (so_calls s))%nat;
}.

(** A write that memory never saw. *)
Definition unseen (s : Store) (x : nat * Effect) : Prop :=
  exists key seq value p, snd x = EWrite key seq value /\ so_calls s !! fst x = Some (RWrite key value, p) /\ before p = true /\
    (seq ∈ flying p \/ last_seq (engine_of s) < seq).

(** The effects there were, with such writes placed among them. *)
Lemma placed_explains start s s' told b told' b' xs : store_inv start init (last_seq (engine_of start)) ->
  store_inv s told b -> store_inv s' told' b' -> so_effects s' = so_effects s ->
  (forall i r p, so_calls s !! i = Some (r, p) -> exists p', so_calls s' !! i = Some (r, p')) ->
  NoDup xs.*1 -> (forall x, x ∈ xs -> unseen s x) -> explains (mkLife start s s') (place_all xs (so_effects s)).
Proof.
  intros Hstart Hinv Hinv' Eef Hcalls Hnd Hxs. split; cbn [lf_start lf_last lf_end].
  - rewrite (fmap_Permutation fst _ _ (place_all_perm xs (so_effects s))). rewrite fmap_app. apply NoDup_app. split_and!; [done| |apply Hinv].
    intros j ([j1 f] & -> & Hf)%list_elem_of_fmap ([j2 f2] & E & Hf2)%list_elem_of_fmap. cbn in E. subst j2.
    destruct (Hxs _ Hf) as (key & seq & value & p & _ & Hi & Hb & _). destruct (si_known _ _ _ _ Hinv _ _ Hf2) as (r & q & Hq & Hbq & _).
    cbn in Hi. rewrite Hi in Hq. injection Hq as <- <-. congruence.
  - intros i f [Hf|Hf]%elem_of_place_all.
    + destruct (Hxs _ Hf) as (key & seq & value & p & Ef & Hi & _). cbn in Ef, Hi. destruct (Hcalls _ _ _ Hi) as [p' Hi']. subst f. by exists (RWrite key value), p'.
    + rewrite <- Eef in Hf. destruct (si_known _ _ _ _ Hinv' _ _ Hf) as (r & p & Hi & _ & Hr). by exists r, p.
  - intros i key answer Hi. destruct (si_owed _ _ _ _ Hinv' _ _ _ Hi) as [(v & -> & Hin)|Hfail]; [left|by right]. exists v. split; [done|].
    apply elem_of_place_all. right. by rewrite <- Eef.
  - intros i r v Hi. by destruct (si_threads _ _ _ _ Hinv' _ _ _ Hi) as (_ & _ & Hr).
  - intros i key value Hi. destruct (si_owed _ _ _ _ Hinv' _ _ _ Hi) as (seq & Hin). exists seq. apply elem_of_place_all. right. by rewrite <- Eef.
  - intros s0 Hs0 Hs. apply life_steps_store in Hs0, Hs. destruct (store_steps_keep _ _ _ _ _ Hstart Hs0) as (told0 & b0 & Hinv0).
    destruct (later_steps _ _ _ _ [] _ _ _ _ Hinv0 (later_now _ _ _ _ Hinv0) (symmetry (app_nil_r _)) Hs) as (old & new & E & Hl & Hsub).
    destruct (place_all_dated (length (so_calls s0)) (last_seq (engine_of s0)) xs old new (la_old _ _ _ _ Hl)) as (old' & new' & E' & Hd' & Hsub').
    { intros j f Hf. destruct (Hxs _ Hf) as (key & seq & value & p & Ef & Hi & _ & Hseq). cbn in Ef, Hi. subst f.
      destruct Hseq as [Hfl|Hlt]; [by eapply (la_flying _ _ _ _ Hl)|]. right. pose proof (la_last _ _ _ _ Hl). lia. }
    exists old', new'. rewrite E, E'. split; [done|]. split; [auto|]. intros j f Hf. by destruct (Hd' j f Hf).
Qed.

(** The writes whose record is in the log, and memory. *)
Lemma late_unseen s told b x : store_inv s told b -> x ∈ late 0 (so_calls s) -> unseen s x.
Proof.
  intros Hinv Hx. destruct x as [j f]. apply elem_of_late in Hx as (i & r & p & y & -> & Hi & Hy & ->).
  destruct p; try by apply elem_of_nil in Hy. apply list_elem_of_singleton in Hy as ->.
  destruct (si_threads _ _ _ _ Hinv _ _ _ Hi) as (_ & _ & Hr). cbn in Hr. subst r.
  exists key, seq, value, (WriteInsert key value seq). destruct value; (split_and!; [done|done|done|left; left]).
Qed.

Lemma late_run s told b g : store_inv s told b -> disk_inv s told g ->
  layer_effects (place_all (late 0 (so_calls s)) (so_effects s)) init (logged g told).
Proof.
  intros Hinv [D1 D2 D3 D4]. unfold logged. rewrite D4.
  assert (forall x, x ∈ gathered unsaved (so_calls s) -> exists i r key value seq, so_calls s !! i = Some (r, WriteInsert key value seq) /\
    record_key x = key /\ record_seq x = seq /\ thread_ok b (engine_of s) (WriteInsert key value seq)) as Hall.
  { intros x (i & r & p & Hi & Hx)%elem_of_gathered. destruct p; try by apply elem_of_nil in Hx. apply list_elem_of_singleton in Hx as ->.
    exists i, r, key, value, seq. destruct (si_threads _ _ _ _ Hinv _ _ _ Hi) as (Hth & _). by destruct value. }
  apply place_all_run; [apply late_writes|apply Hinv|rewrite <- D4; apply D1|..].
  - intros x v Hx. destruct (Hall x Hx) as (i & r & key & value & seq & Hi & -> & -> & Hb & Hf). intros Hv.
    destruct (ei_holds _ _ (sh_inv _ _ _ (si_shared _ _ _ _ Hinv))) as (A & Fs & [HA _ _] & _).
    destruct (sh_settled _ _ _ (si_shared _ _ _ _ Hinv) A HA _ _ Hv) as [HAv|]; [by eapply Hf|lia].
  - intros x v Hx. destruct (Hall x Hx) as (i & r & key & value & seq & Hi & -> & -> & Hb & Hf). intros Hv.
    pose proof (si_init _ _ _ _ Hinv _ _ Hv). lia.
Qed.

(** With the append that was cut off, if its record got to the disk. *)
Lemma cut_run s told b g effects i key value : store_inv s told b -> disk_inv s told g ->
  layer_effects effects init (logged g told) ->
  layer_effects (place (i, EWrite key (last_seq (engine_of s) + 1) value) effects) init (and_told (engine_of s) key value (logged g told)).
Proof.
  intros Hinv [D1 D2 D3 D4] Hrun. pose proof (sh_inv _ _ _ (si_shared _ _ _ _ Hinv)) as He.
  assert (forall v, logged g told !! key = Some v -> fst v <= last_seq (engine_of s)) as Hle.
  { intros v [Hv|Hv]%spec_apply_lookup; [by apply (ei_told _ _ He told key v ltac:(left))|].
    apply list_elem_of_fmap in Hv as (x & E & Hx). rewrite D4 in Hx. apply elem_of_gathered in Hx as (j & r & p & Hj & Hx).
    destruct p; try by apply elem_of_nil in Hx. apply list_elem_of_singleton in Hx as ->.
    destruct (si_threads _ _ _ _ Hinv _ _ _ Hj) as ([[_ ?] _] & _). injection E as _ ->. by destruct value0. }
  assert (and_told (engine_of s) key value (logged g told) = spec_insert (logged g told) key (last_seq (engine_of s) + 1) value) as ->.
  { unfold and_told, spec_insert, spec_newest. destruct (logged g told !! key) as [[q v]|] eqn:E; [|done]. specialize (Hle _ eq_refl). cbn in Hle.
    by rewrite (proj2 (Z.ltb_lt _ _)) by lia. }
  apply place_write; [done|intros v Hv; specialize (Hle v Hv); lia|].
  intros v Hv. pose proof (si_init _ _ _ _ Hinv _ _ Hv). pose proof (sh_bound _ _ _ (si_shared _ _ _ _ Hinv)). lia.
Qed.

(** Whatever a life's end leaves in the directory, it has explained. *)
Lemma life_keeps start s s' told b g : store_inv start init (last_seq (engine_of start)) -> store_inv s told b -> disk_inv s told g ->
  over s s' -> sound s ->
  keeps dir (disk_of s') (fun t => exists effects, layer_effects effects init t /\ explains (mkLife start s s') effects).
Proof.
  intros Hstart Hinv Hd Hover Hsound. pose proof (late_run _ _ _ _ Hinv Hd) as Hrun.
  assert (forall s' told' b', store_inv s' told' b' -> so_effects s' = so_effects s ->
    (forall i r p, so_calls s !! i = Some (r, p) -> exists p', so_calls s' !! i = Some (r, p')) ->
    explains (mkLife start s s') (place_all (late 0 (so_calls s)) (so_effects s))) as Hlate.
  { intros s1 told1 b1 Hinv1 E1 Hc1. eapply placed_explains; [done|exact Hinv|exact Hinv1|done|done|apply late_once|].
    intros x Hx. by eapply late_unseen. }
  destruct Hover as [->|[Hst (j & r' & q & Hj & Hf)]].
  { eapply keeps_mono; [eapply standing_keeps, Hd|]. intros t <-. eexists. split; [exact Hrun|]. eapply Hlate; [exact Hinv|done|]. intros i r p Hi. by exists p. }
  destruct (store_step_keeps _ _ _ _ _ Hinv Hst) as (told' & b' & Hinv').
  destruct Hst as [s r Hr|s i r p p' s' Hi Had Hst Hlim]; cbn [so_calls] in Hj.
  { apply lookup_app_Some in Hj as [Hj|[_ [_ [= <- <-]]%list_lookup_singleton_Some]]; [|by destruct r].
    destruct (Hsound _ _ _ Hj) as [? _]. congruence. }
  assert (ended p' = true) as Hp'.
  { destruct (decide (j = i)) as [->|Hne]; [rewrite list_lookup_insert_eq in Hj by (by eapply lookup_lt_Some); by injection Hj as _ <-|].
    rewrite list_lookup_insert_ne in Hj by done. destruct (Hsound _ _ _ Hj) as [? _]. congruence. }
  assert (lengths_ok p') as Hlen by (destruct p'; try done; intros t ?%elem_of_nil; done).
  pose proof (disk_step _ _ _ _ _ _ _ _ _ [] Hinv Hd Hi Had Hst Hlim Hlen) as Hk. rewrite Hp' in Hk. cbn [so_engine].
  pose proof (ended_no_effect _ _ _ _ _ _ (si_shared _ _ _ _ Hinv) (proj1 (si_threads _ _ _ _ Hinv _ _ _ Hi)) Hlim Hst Hp') as Ef. unfold record in *. rewrite Ef in *.
  assert (forall i0 r0 p0, so_calls s !! i0 = Some (r0, p0) -> exists p1, <[i := (r, p')]> (so_calls s) !! i0 = Some (r0, p1)) as Hcalls.
  { intros i0 r0 p0 Hi0. destruct (decide (i0 = i)) as [->|Hne]; [|exists p0; by rewrite list_lookup_insert_ne].
    rewrite Hi in Hi0. injection Hi0 as <- <-. exists p'. apply list_lookup_insert_eq. by eapply lookup_lt_Some. }
  eapply keeps_mono; [exact Hk|]. intros t [->|(key & value & -> & ->)]; [by eexists; split; [exact Hrun|eapply Hlate]|].
  destruct (si_threads _ _ _ _ Hinv _ _ _ Hi) as (_ & _ & Hr). cbn in Hr. subst r.
  eexists. split; [by eapply (cut_run s told b g _ i key value)|].
  change (place (i, EWrite key (last_seq (engine_of s) + 1) value) (place_all (late 0 (so_calls s)) (so_effects s)))
    with (fold_left (fun effects x => place x effects) [(i, EWrite key (last_seq (engine_of s) + 1) value)] (place_all (late 0 (so_calls s)) (so_effects s))).
  unfold place_all. rewrite <- fold_left_app. eapply placed_explains; [done|exact Hinv|exact Hinv'|done|exact Hcalls|..].
  - rewrite fmap_app. apply NoDup_app. split_and!; [apply late_once| |apply NoDup_singleton].
    intros k ([k1 f] & -> & Hin)%list_elem_of_fmap Ek%list_elem_of_singleton. cbn in Ek. subst k1.
    apply elem_of_late in Hin as (i0 & r & p & x & -> & Hi0 & Hx & _). cbn in Hi. rewrite Hi in Hi0. injection Hi0 as <- <-. by apply elem_of_nil in Hx.
  - intros x [Hx| ->%list_elem_of_singleton]%elem_of_app; [by eapply late_unseen|].
    exists key, (last_seq (engine_of s) + 1), value, (WriteLog key value). split_and!; [done|done|done|right; lia].
Qed.

End Whole.

(** ** Outages *)

(** The lives of a directory, and what is in it after the last of them and a crash.
    It starts empty. An opening is cut off, or it returns and callers share the store
    until it is over; then the machine goes down. *)
Inductive outages : list Life -> Disk -> Prop :=
  | outages_new : outages [] empty_disk
  | outages_cut lives d os err w d' :
      outages lives d -> open_in_limits (T := T) config d -> Forall honest os ->
      engine_open (T := T) dir config (mkWorld d os) = (Err err, w) ->
      ordered_crash (disk w) d' -> complete d' -> outages lives d'
  | outages_life lives d os e w os' s s' d' :
      outages lives d -> open_in_limits (T := T) config d -> Forall honest os ->
      engine_open dir config (mkWorld d os) = (Ok e, w) ->
      life_steps (fresh_store (e, mkWorld (disk w) os')) s -> over s s' ->
      ordered_crash (disk_of s') d' -> complete d' ->
      outages (lives ++ [mkLife (fresh_store (e, mkWorld (disk w) os')) s s']) d'.

Lemma life_steps_sound s s' : sound s -> life_steps s s' -> sound s'.
Proof. intros Hs Hst. revert Hs. induction Hst as [s|s s1 s2 [_ Hs1] _ IH]; auto. Qed.

Lemma fresh_sound (s : Engine T * World) : sound (fresh_store s).
Proof. intros i r p [_ [= <- <-]]%list_lookup_singleton_Some. split; [done|]. by intros t ?%elem_of_nil. Qed.

(** Whatever the outages, the directory can be opened, and says what a run of effects
    that explains every life ends in. *)
Lemma outages_opening lives d : cf_sync config = Always \/ cf_sync config = Group -> outages lives d ->
  exists man levels logs told effects, Forall2 explains lives effects /\ layer_effects (concat effects) ∅ told /\
    opening dir man levels logs told (u64_max + 1) d /\ forall i, flushed d i.
Proof.
  intros Hpol. induction 1 as [|lives d os err w d' _ IH Hlim Hos Hs Hc Hd|lives d os e w os' s s' d' _ IH Hlim Hos Hs Hsteps Hover Hc Hd].
  - exists None, [[]], [], ∅, []. split_and!; [constructor|done|apply empty_opening|done].
  - destruct IH as (sn & levels & logs & told & effects & Hex & Hrun & Ho & Hf). pose proof (open_cut dir config _ _ _ _ _ _ Ho Hf Hlim Hos) as Hk. rewrite Hs in Hk.
    destruct (keeps_crash dir _ _ _ Hk Hc Hd) as (sn' & levels' & logs' & t & <- & Ho' & Hf'). by exists sn', levels', logs', told, effects.
  - destruct IH as (sn & levels & logs & told & effects & Hex & Hrun & Ho & Hf). pose proof (open_cut dir config _ _ _ _ _ _ Ho Hf Hlim Hos) as Hh. rewrite Hs in Hh.
    pose proof (fresh_store_inv told e (mkWorld (disk w) os') (proj1 Hh)) as Hstart.
    destruct (fresh_disk_inv e (mkWorld (disk w) os') told Hh) as [g Hd0].
    destruct (life_steps_keep told Hpol _ _ _ _ _ Hstart Hd0 Hsteps) as (told1 & b1 & g1 & Hinv & Hd1).
    pose proof (life_keeps told Hpol _ _ _ _ _ _ Hstart Hinv Hd1 Hover (life_steps_sound _ _ (fresh_sound _) Hsteps)) as Hk.
    destruct (keeps_crash dir _ _ _ Hk Hc Hd) as (sn' & levels' & logs' & t & (more & Hmore & Hlife) & Ho' & Hf').
    exists sn', levels', logs', t, (effects ++ [more]). split_and!; [by apply Forall2_app; [|constructor]| |done|done].
    rewrite concat_app. cbn. rewrite app_nil_r. by eapply layer_effects_app.
Qed.

Lemma outages_reopens lives d : cf_sync config = Always \/ cf_sync config = Group -> outages lives d -> open_in_limits (T := T) config d ->
  exists e w effects told, engine_open (T := T) dir config (mkWorld d []) = (Ok e, w) /\ no_failures w /\ Forall2 explains lives effects /\
    layer_effects (concat effects) ∅ told /\ engine_inv e told.
Proof.
  intros Hpol Houtages Hlim. destruct (outages_opening lives d Hpol Houtages) as (sn & levels & logs & told & effects & Hex & Hrun & Ho & Hf).
  destruct (dtriple_calm (eq None) _ _ _ _ d [] (dtriple_engine_open dir config (eq None) ltac:(done) sn levels logs told) calm_none
    ltac:(constructor) (conj Ho (conj Hf Hlim))) as (e & w & E & Hh & Hn).
  exists e, w, effects, told. split_and!; [done|done|done|done|]. apply Hh.
Qed.

End Outages.

(** C4: Callers sharing a store see one map, over crashes, for the sync policies
    [Always] and [Group] and for the lives and crashes [outages] admits. The directory
    starts empty, and is opened and lost in a crash again and again; an opening may
    itself be cut off. In each life any number of callers write, delete, read, sync,
    flush and compact while the background thread flushes and compacts, one of them
    moving at a time between two of its lock operations. What is assumed of a life
    ([life_steps], [over]): it is over when a write, a sync, a flush or a compaction
    fails, so the machine goes down with that step, which may stop anywhere, or between
    two steps, with any number of calls still under way (reads may fail and the life go
    on); while the store is opened no file that is there is reported missing; and
    sequence numbers, file numbers and lengths stay in their limits
    ([open_in_limits], [step_in_limits], [sound]). What is assumed of a crash
    ([ordered_crash], [complete]): the directory comes back as it stood at some moment
    since its last flush, what was flushed is there, a file cut short is a prefix of
    what was written, a log that has been flushed once keeps its name; and it does not
    come in the middle of the very first flush, leaving tables and no manifest. Then
    opening the directory once more, with no call failing, returns a store that reads,
    where no call fails, as a map that all the lives explain: each life has effects of
    its calls, at most one each, that respect the order the calls came in; a write that
    returned [Ok] has its effect, a read that returned answered its effect's value, or
    the error of a system call, a call cut off has one effect or none; and the effects
    of one life after those of another are a run of that map. *)
Theorem callers_survive_crashes {T : Type} `{MemtableLaws T} (dir : string) (config : Config) (lives : list (Life (T := T))) (d : Disk)
  (Hpolicy : cf_sync config = Always \/ cf_sync config = Group)
  (Houtages : outages dir config lives d) (Hlimits : open_in_limits (T := T) config d) :
  exists (e : Engine T) (w : World) (effects : list (list (nat * Effect))) (m : gmap bytes bytes),
    engine_open dir config (mkWorld d []) = (Ok e, w) /\ no_failures w /\
    Forall2 explains lives effects /\ map_effects (concat effects) ∅ m /\
    forall key w', no_failures w' -> fst (engine_get key (e, w')) = Ok (m !! key).
Proof.
  destruct (outages_reopens dir config lives d Hpolicy Houtages Hlimits) as (e & w & effects & told & E & Hn & Hex & Hrun & Hinv).
  exists e, w, effects, (map_of told). split_and!; [done|done|done|by apply layer_effects_map in Hrun|].
  intros key w' Hn'. rewrite map_of_lookup. by apply read_calm.
Qed.

(** ** Outages that compute *)

Section Checked.
Context (dir : string) (config : Config).
Implicit Types (s : Store (T := BTreeMemtable)) (d : Disk).

Definition sound_checked s : bool :=
  forallb (fun c => negb (ended (snd c)) && forallb (fun t => st_bytes (tb_table t) <=? u64_max) (tables (snd c))) (so_calls s).

(** Moves after which no call but a read has failed. *)
Fixpoint life_moves (ms : list Move) s : option (Store (T := BTreeMemtable)) :=
  match ms with
  | [] => Some s
  | m :: ms => match move m s with Some s' => if sound_checked s' then life_moves ms s' else None | None => None end
  end.

(** The move it is cut off in, if any. *)
Definition last_move (last : option Move) s : option (Store (T := BTreeMemtable)) :=
  match last with
  | None => Some s
  | Some m => match move m s with Some s' => if existsb (fun c => ended (snd c)) (so_calls s') then Some s' else None | None => None end
  end.

Lemma sound_checked_ok s : sound_checked s = true -> sound s.
Proof.
  unfold sound_checked. rewrite forallb_forall. intros Hs i r p Hi.
  specialize (Hs (r, p) ltac:(apply list_elem_of_In; by eapply list_elem_of_lookup_2)). apply andb_true_iff in Hs as [Hf%negb_true_iff Ht].
  split; [done|]. rewrite forallb_forall in Ht. intros t Hin. by apply Z.leb_le, Ht, list_elem_of_In.
Qed.

Lemma life_moves_ok ms : forall s s', life_moves ms s = Some s' -> life_steps s s'.
Proof.
  induction ms as [|m ms IH]; intros s s'; cbn [life_moves]; [intros [= <-]; apply rtc_refl|].
  destruct (move m s) as [s1|] eqn:Em; [|done]. destruct (sound_checked s1) eqn:Es; [|done]. intros Hm.
  eapply rtc_l; [|by apply IH]. split; [by eapply move_step|by apply sound_checked_ok].
Qed.

Lemma last_move_ok last s s' : last_move last s = Some s' -> over s s'.
Proof.
  destruct last as [m|]; cbn [last_move]; [|intros [= <-]; by left].
  destruct (move m s) as [s1|] eqn:Em; [|done]. destruct (existsb _ _) eqn:Ef; [|done]. intros [= <-]. right. split; [by eapply move_step|].
  apply existsb_exists in Ef as ([r p] & [i Hi]%list_elem_of_In%list_elem_of_lookup & Hf). by exists i, r, p.
Qed.

(** One life: what the system calls of the opening return and those after it, the
    moves, and the one it is cut off in; and what a power cut leaves. *)
Definition shared_life (script : list outcome * list outcome * list Move * option Move) d : option (list (Life (T := BTreeMemtable)) * Disk) :=
  let '(os, os', ms, last) := script in
  if names_checked d && manifest_checked d && forallb honest_checked os then
    match engine_open (T := BTreeMemtable) dir config (mkWorld d os) with
    | (Err _, w) => let d' := power_cut (disk w) in if tables_checked d' then Some ([], d') else None
    | (Ok e, w) =>
        let start := fresh_store (e, mkWorld (disk w) os') in
        s ← life_moves ms start;
        s' ← last_move last s;
        let d' := power_cut (disk (snd (so_engine s'))) in
        if tables_checked d' then Some ([mkLife start s s'], d') else None
    end
  else None.

Lemma shared_life_outages script lives d more d' : outages dir config lives d -> shared_life script d = Some (more, d') ->
  outages dir config (lives ++ more) d'.
Proof.
  destruct script as [[[os os'] ms] last]. intros Ho. unfold shared_life.
  destruct (_ && _ && _) eqn:Ec; [|done]. apply andb_true_iff in Ec as [Hl%(open_checked_ok config) Hhon%honest_checked_ok].
  destruct (engine_open dir config (mkWorld d os)) as [[e|err] w] eqn:Eo.
  - destruct (life_moves ms _) as [s|] eqn:Em; [|done]. cbn [mbind option_bind]. destruct (last_move last s) as [s'|] eqn:El; [|done]. cbn [mbind option_bind].
    destruct (tables_checked _) eqn:Et; [|done]. intros [= <- <-].
    eapply outages_life; [exact Ho|exact Hl|exact Hhon|exact Eo|by eapply life_moves_ok|by eapply last_move_ok|apply power_cut_crash|by apply tables_checked_ok].
  - destruct (tables_checked _) eqn:Et; [|done]. intros [= <- <-]. rewrite app_nil_r.
    eapply outages_cut; [exact Ho|exact Hl|exact Hhon|exact Eo|apply power_cut_crash|by apply tables_checked_ok].
Qed.

Fixpoint shared_lives (scripts : list (list outcome * list outcome * list Move * option Move)) d : option (list (Life (T := BTreeMemtable)) * Disk) :=
  match scripts with
  | [] => Some ([], d)
  | script :: scripts =>
      '(lives, d) ← shared_life script d;
      '(more, d) ← shared_lives scripts d;
      Some (lives ++ more, d)
  end.

Lemma shared_lives_outages scripts : forall lives d more d', outages dir config lives d -> shared_lives scripts d = Some (more, d') ->
  outages dir config (lives ++ more) d'.
Proof.
  induction scripts as [|script scripts IH]; intros lives d more d' Ho; cbn [shared_lives]; [intros [= <- <-]; by rewrite app_nil_r|].
  destruct (shared_life script d) as [[lives1 d1]|] eqn:E1; [|done]. cbn [mbind option_bind].
  destruct (shared_lives scripts d1) as [[lives2 d2]|] eqn:E2; [|done]. intros [= <- <-].
  rewrite app_assoc. eapply IH; [by eapply shared_life_outages|exact E2].
Qed.
End Checked.

(** Two writers, one of them cut off between the log and memory, a third while it
    appends; an opening cut off; and a life that ends while the background thread
    removes the tables it has compacted, with one more write between the log and
    memory. *)
Definition demo_scripts : list (list outcome * list outcome * list Move * option Move) :=
  [([], down_after 5,
    [MCall (RWrite (bstr "k") (Some (bstr "1"))); MCall (RWrite (bstr "k") (Some (bstr "2"))); MStep 1; MStep 2; MStep 1; MStep 2; MStep 2;
     MCall (RGet (bstr "k")); MStep 3; MCall (RWrite (bstr "j") (Some (bstr "3"))); MStep 4], Some (MStep 4));
   (down_after 3, [], [], None);
   ([], down_after 76,
    [MCall (RGet (bstr "k")); MStep 1; MCall (RWrite (bstr "k") None); MStep 2; MStep 2; MStep 2; MStep 2; MStep 2; MStep 0; MStep 0; MStep 0;
     MStep 0; MStep 0; MCall (RWrite (bstr "j") (Some (bstr "4"))); MStep 3; MStep 3; MStep 3; MStep 3; MStep 3; MStep 0; MStep 0; MStep 0;
     MStep 0; MStep 0; MCall (RWrite (bstr "k") (Some (bstr "5"))); MStep 4; MStep 4; MStep 0; MStep 0; MStep 0; MStep 0; MStep 0], Some (MStep 0))].

Lemma callers_survive_crashes_witness : exists (lives : list (Life (T := BTreeMemtable))) (d : Disk),
  shared_lives "db" small_config demo_scripts empty_disk = Some (lives, d) /\ length lives = 2%nat /\
  exists (e : Engine BTreeMemtable) (w : World) (effects : list (list (nat * Effect))) (m : gmap bytes bytes),
    engine_open "db" small_config (mkWorld d []) = (Ok e, w) /\ no_failures w /\
    Forall2 explains lives effects /\ map_effects (concat effects) ∅ m /\
    forall key w', no_failures w' -> fst (engine_get key (e, w')) = Ok (m !! key).
Proof.
  assert (match shared_lives "db" small_config demo_scripts empty_disk with
    | Some (lives, d) => (length lives =? 2)%nat && (names_checked d && manifest_checked d) | None => false end = true) as Hc by (vm_compute; reflexivity).
  destruct (shared_lives "db" small_config demo_scripts empty_disk) as [[lives d]|] eqn:E; [|discriminate Hc].
  apply andb_true_iff in Hc as [Hlen Hc]. exists lives, d. split; [done|]. split; [by apply Nat.eqb_eq|].
  apply (callers_survive_crashes "db" small_config lives d); [by left| |by apply open_checked_ok].
  apply (shared_lives_outages "db" small_config demo_scripts [] empty_disk lives d (outages_new "db" small_config) E).
Defined.
