(* ===== verification/Stale.v ===== *)
(** * Failures the store does not recover from

    What becomes of a store when removing a flushed log fails, when the machine goes
    down in the middle of the first flush, or when a [sync] meets a record that was
    only recovered or a log that is being closed: scripts of calls with chosen
    failures, run on the engine's own definitions. *)

From S2P Require Import Prelude Memtable Btree Disk Manifest Wal Engine Runs Callers Sharing Crashes.

(** Each call with the outcomes of the system calls it makes; [[]] is no failure. *)
Definition play (script : list (list outcome * Op)) (s : Engine BTreeMemtable * World)
  : list Answer * (Engine BTreeMemtable * World) :=
  fold_left (fun '(answers, (e, w)) '(os, op) =>
    let '(a, s) := run_op op (e, mkWorld (disk w) os) in (answers ++ [a], s)) script ([], s).

Definition stale_config : Config := mkConfig Always 1000000 4 10.

Definition open_at (d : Disk) : result (Engine BTreeMemtable) * World := engine_open "db" stale_config (mkWorld d []).

(** Seventeen calls of the flush go through; the next one, the removal of the log,
    does not. *)
Definition removal_fails : list outcome := replicate 17 None ++ [Some (IoError OtherKind "EIO", 0%nat)].

Definition stale_script : list (list outcome * Op) :=
  [([], OpWrite (bstr "k") (Some (bstr "1"))); ([], OpRotate 0); (removal_fails, OpTurn 1);
   ([], OpWrite (bstr "k") (Some (bstr "2")));   (* reports the failed flush *)
   ([], OpWrite (bstr "k") (Some (bstr "2"))); ([], OpRotate 0); ([], OpTurn 1); ([], OpSync); ([], OpGet (bstr "k"))].

(** Closed and opened again, with nothing failing. *)
Definition reopened (s : Engine BTreeMemtable * World) : result (option bytes) :=
  let w := engine_drop s in
  match open_at (disk w) with
  | (Ok e, w) => fst (engine_get (bstr "k") (e, w))
  | (Err err, _) => Err err
  end.

(** C36: A stale log brings an old value back. [flush] commits its table and then
    removes the frozen table's logs; when that removal fails, nothing ever removes
    the log again. With one such failure and no crash: the value ["2"] is written
    over ["1"], acknowledged, flushed to a file and synced, and reads say ["2"]; the
    store is closed and opened again without any failure, the stale log is replayed
    into the active table, in front of the files, and the same read says ["1"]. *)
Theorem failed_log_removal_resurrects :
  match open_at empty_disk with
  | (Ok e, w) =>
      let '(answers, s) := play stale_script (e, w) in
      drop 4 answers = [Done (Ok tt); Done (Ok tt); Done (Ok tt); Done (Ok tt); Value (Ok (Some (bstr "2")))] /\
      reopened s = Ok (Some (bstr "1"))
  | _ => False
  end.
Proof. vm_compute. split; reflexivity. Qed.

(** A failed log removal strands whoever waits. After the failure the frozen
    table is a file and nothing is left to flush, but [mark_progress] was skipped:
    [pending] stays above zero with no frozen table behind it. Once the error has
    been reported, a turn of [wait_for_flush] finds neither an error nor zero and
    waits, and the background thread finds nothing to do and waits too; both stay
    as they are until some other write happens to fill and rotate a table. *)
Theorem failed_log_removal_strands_waiters :
  match open_at empty_disk with
  | (Ok e, w) =>
      let '(_, (e, w)) := play (take 4 stale_script) (e, w) in
      st_frozen (en_state e) = [] /\ en_pending e = 1 /\
      fst (next_task (e, w)) = Ok None /\ en_pending (fst (snd (next_task (e, w)))) = 1 /\
      fst (wait_turn (e, w)) = Ok None /\ en_pending (fst (snd (wait_turn (e, w)))) = 1
  | _ => False
  end.
Proof. vm_compute. repeat split. Qed.

(** The machine goes down: eleven calls of the flush go through, up to opening the new
    table, and the next one is never made. *)
Definition goes_down : list outcome := replicate 11 None ++ replicate 8 (Some (IoError OtherKind "EIO", 0%nat)).

(** C34: The first flush has a window in which a crash loses the store. The table is
    renamed into place and the manifest that names it is written after that; before
    the first flush there is no manifest, and [open] refuses a directory with tables
    and no manifest. With the default order of calls and no failure but the crash: a
    write is acknowledged under [Always], the table is rotated and flushed, and the
    machine goes down between the two steps; everything is on the device, the log
    included, and the directory cannot be opened again. *)
Theorem first_flush_crash_refuses_open :
  match open_at empty_disk with
  | (Ok e, w) =>
      let '(answers, (e, w)) := play [([], OpWrite (bstr "k") (Some (bstr "1"))); ([], OpRotate 0)] (e, w) in
      let '(_, s) := run_op (OpTurn 1) (e, mkWorld (disk w) goes_down) in
      answers = [Done (Ok tt); Done (Ok tt)] /\
      crash (disk (snd s)) (Wal.settled (disk (snd s))) /\
      fst (open_at (Wal.settled (disk (snd s)))) =
        Err (Corrupt "db" "tables are present but the manifest naming them is gone")
  | _ => False
  end.
Proof.
  destruct (open_at empty_disk) as [[e|err] w] eqn:E; [|vm_compute in E; discriminate].
  destruct (play _ (e, w)) as [answers [e1 w1]] eqn:E1. destruct (run_op _ _) as [a s] eqn:E2.
  split; [|split; [apply settled_crash|]].
  - vm_compute in E. injection E as <- <-. vm_compute in E1. by injection E1 as <- _ _.
  - vm_compute in E. injection E as <- <-. vm_compute in E1. injection E1 as _ <- <-. vm_compute in E2. injection E2 as _ <-.
    by vm_compute.
Qed.

(** Killed after a record has been written to the log and before it is flushed. *)
Definition killed_before_flush : list outcome := [None; Some (IoError OtherKind "killed", 0%nat)].

(** Opened, killed in the middle of a write, opened again, read and synced: the
    answers of the last two calls, and the disk. *)
Definition killed_and_synced : list Answer * Disk :=
  match open_at empty_disk with
  | (Ok e, w) =>
      let '(_, (_, w)) := run_op (OpWrite (bstr "k") (Some (bstr "1"))) (e, mkWorld (disk w) killed_before_flush) in
      match open_at (disk w) with
      | (Ok e, w) =>
          let '(answers, (_, w)) := play [([], OpGet (bstr "k")); ([], OpSync)] (e, w) in (answers, disk w)
      | (Err _, w) => ([], disk w)
      end
  | (Err _, w) => ([], disk w)
  end.

(** C37: [sync] can return without having flushed what is there. [Wal::recover] takes
    every record it reads back for durable, and flushes none of them. A process is
    killed between writing a record and flushing it, and the store is opened again:
    a read finds the value, and [sync] answers [Ok] without a single call to the
    device, under [Always] too. The power goes: opened once more, the store does not
    have the value that had been read and synced. *)
Theorem synced_value_lost :
  fst killed_and_synced = [Value (Ok (Some (bstr "1"))); Done (Ok tt)] /\
  exists d', ordered_crash (snd killed_and_synced) d' /\
    match open_at d' with
    | (Ok e, w) => fst (engine_get (bstr "k") (e, w)) = Ok None
    | _ => False
    end.
Proof.
  split; [vm_compute; reflexivity|]. exists (power_cut (snd killed_and_synced)).
  split; [apply power_cut_crash|vm_compute; reflexivity].
Qed.

(** ** A log that is being closed *)

Definition lazy_config : Config := mkConfig (Interval 1000) 100 4 10.

Definition lazy_store : option (Store (T := BTreeMemtable)) :=
  match engine_open "db" lazy_config (mkWorld empty_disk []) with
  | (Ok e, w) => Some (fresh_store (e, w))
  | _ => None
  end.

(** A small write, from start to end. *)
Definition small_write : list Move := [MCall (RWrite (bstr "j") (Some (bstr "1"))); MStep 1; MStep 1; MStep 1].

(** A large one that fills the table, up to the moment its rotation has let go of the
    locks and not yet closed the old log; and a [sync] by another caller. *)
Definition racing_sync : list Move :=
  [MCall (RWrite (bstr "k") (Some (replicate 100 (z2b 97)))); MStep 2; MStep 2; MStep 2; MStep 2; MCall RSync; MStep 3].

Definition call_at (i : nat) (s : Store (T := BTreeMemtable)) : option (Request * option Answer) :=
  (fun '(r, p) => (r, match p with Returned a => Some a | _ => None end)) <$> so_calls s !! i.

(** C38: [sync] does not cover a log that is being closed. Under [Interval], a rotation
    puts the new log in place, lets go of its locks, and only then closes the old
    one, which is what flushes it; a [sync] in between flushes the new log and
    answers [Ok]. With no call failing: a write returns [Ok], another caller's write
    fills the table and gets that far, and a third calls [sync], which returns [Ok].
    The process dies there: opened again, from all the files hold or from what a
    power cut leaves of it, the store does not have the first write. *)
Theorem sync_misses_rotated_log : exists s0 s1 s2 : Store (T := BTreeMemtable),
  lazy_store = Some s0 /\ store_steps s0 s1 /\ store_steps s1 s2 /\
  so_calls s1 = [(RBackground, NextTask); (RWrite (bstr "j") (Some (bstr "1")), Returned (Done (Ok tt)))] /\
  call_at 1 s2 = Some (RWrite (bstr "j") (Some (bstr "1")), Some (Done (Ok tt))) /\
  call_at 3 s2 = Some (RSync, Some (Done (Ok tt))) /\
  forall d, d = disk (snd (so_engine s2)) \/ d = power_cut (disk (snd (so_engine s2))) ->
    exists (e : Engine BTreeMemtable) (w : World), engine_open "db" lazy_config (mkWorld d []) = (Ok e, w) /\ fst (engine_get (bstr "j") (e, w)) = Ok None.
Proof.
  destruct lazy_store as [s0|] eqn:E0; [|vm_compute in E0; discriminate].
  destruct (moves small_write s0) as [s1|] eqn:E1; [|vm_compute in E0; injection E0 as <-; vm_compute in E1; discriminate].
  destruct (moves racing_sync s1) as [s2|] eqn:E2.
  2: { vm_compute in E0. injection E0 as <-. vm_compute in E1. injection E1 as <-. vm_compute in E2. discriminate. }
  exists s0, s1, s2. split; [done|]. split; [by eapply moves_steps|]. split; [by eapply moves_steps|].
  vm_compute in E0. injection E0 as <-. vm_compute in E1. injection E1 as <-. vm_compute in E2. injection E2 as <-.
  do 3 (split; [vm_compute; reflexivity|]).
  intros d [-> | ->]; destruct (engine_open "db" lazy_config _) as [[e|err] w] eqn:E; vm_compute in E; try discriminate;
    injection E as <- <-; eexists _, _; (split; [reflexivity|vm_compute; reflexivity]).
Qed.
