(* ===== verification/Resp.v ===== *)
(** * The Redis wire protocol ([resp.rs])

    Requests parsed off the front of whatever bytes have arrived, replies encoded.
    A Rust [String] is its UTF-8 bytes. [Result<Option<(_, usize)>, ProtocolError>]
    is a sum of the error and an option: [inr None] asks for more bytes.

    The theorems: a command encoded as a client encodes it parses back, whatever
    follows it; every strict prefix of it asks for more; and what has been parsed
    does not depend on what arrives later. *)

From S2P Require Import Prelude Decimal.

Definition MAX_ARGS : Z := 1024 * 1024.
Definition MAX_BULK : Z := 512 * 1024 * 1024.
Definition MAX_INLINE : Z := 64 * 1024.

Record ProtocolError := mkProtocolError { pe_message : bytes }.

Definition protocol_error (detail : string) : ProtocolError :=
  mkProtocolError (bstr "Protocol error: " ++ bstr detail).

Record Command := mkCommand { cm_name : bytes; cm_args : list bytes }.

(** [Command::arg]. *)
Definition arg (self : Command) (index : nat) : option bytes := cm_args self !! index.

Inductive Request :=
  | RCommand (command : Command)
  | REmpty.

#[warnings="-register-all"]
Inductive Reply :=
  | Simple (text : bytes)
  | RError (text : bytes)
  | Integer (value : Z)
  | Bulk (bs : bytes)
  | Nil
  | RArray (items : list Reply).

Definition CR : byte := z2b 13.
Definition LF : byte := z2b 10.
Definition CRLF : bytes := [CR; LF].

(** [Reply::encode], the bytes it appends. *)
Fixpoint reply_encode (self : Reply) : bytes :=
  match self with
  | Simple text => bstr "+" ++ text ++ CRLF
  | RError text => bstr "-" ++ text ++ CRLF
  | Integer value => bstr ":" ++ bstr (decimal_i64 value) ++ CRLF
  | Bulk bs => bstr "$" ++ bstr (decimal (zlen bs)) ++ CRLF ++ bs ++ CRLF
  | Nil => bstr "$-1" ++ CRLF
  | RArray items => bstr "*" ++ bstr (decimal (zlen items)) ++ CRLF ++ concat (reply_encode <$> items)
  end.

(** [windows(2).position(..)] on the line terminator, and [position] of a byte. *)
Fixpoint position_crlf (bs : bytes) : option nat :=
  match bs with
  | a :: ((b :: _) as bs') =>
      if bool_decide (a = CR) && bool_decide (b = LF) then Some 0%nat else S <$> position_crlf bs'
  | _ => None
  end.

Fixpoint position_byte (x : byte) (bs : bytes) : option nat :=
  match bs with
  | [] => None
  | b :: bs => if bool_decide (b = x) then Some 0%nat else S <$> position_byte x bs
  end.

(** The line starting at [from], and the offset past it. *)
Definition line (input : bytes) (from : Z) : option (bytes * Z) :=
  if zlen input <? from then None
  else
    let rest := drop (Z.to_nat from) input in
    at_ ← position_crlf rest;
    Some (take at_ rest, from + Z.of_nat at_ + 2).

(** [from_utf8] then [parse]: bytes that are not UTF-8 are no digits either. *)
Definition integer (bs : bytes) : option Z := parse_i64 (String.string_of_list_byte bs).

(** [usize::try_from(n).ok().filter(|n| *n <= max)]. *)
Definition usize_upto (max n : Z) : option Z := if (0 <=? n) && (n <=? max) then Some n else None.

(** Reads one bulk string at [from]. *)
Definition bulk (input : bytes) (from : Z) : ProtocolError + option (bytes * Z) :=
  match input !! Z.to_nat from with
  | None => inr None
  | Some b =>
      if bool_decide (b = z2b 36) then
        match line input (from + 1) with
        | None => inr None
        | Some (head, at_) =>
            match integer head with
            | None => inl (protocol_error "invalid bulk length")
            | Some len =>
                match usize_upto MAX_BULK len with
                | None => inl (protocol_error "invalid bulk length")
                | Some len =>
                    if zlen input <? at_ + len + 2 then inr None
                    else if bool_decide (slice input (at_ + len) (at_ + len + 2) = CRLF) then
                      inr (Some (slice input at_ (at_ + len), at_ + len + 2))
                    else inl (protocol_error "unbalanced bulk string")
                end
            end
        end
      else inl (protocol_error "expected '$', got something else")
  end.

(** The [for] loop of [parse_array]. *)
Fixpoint bulks (count : nat) (input : bytes) (at_ : Z) (args : list bytes)
  : ProtocolError + option (list bytes * Z) :=
  match count with
  | O => inr (Some (args, at_))
  | S count =>
      match bulk input at_ with
      | inl e => inl e
      | inr None => inr None
      | inr (Some (bs, next)) => bulks count input next (args ++ [bs])
      end
  end.

(** What the Unicode tables of [std] do to a name that is not ASCII:
    [String::from_utf8_lossy(name).to_uppercase()]. *)
Class Unicode := unicode_upper : bytes -> bytes.

Definition ascii_upper (b : byte) : byte :=
  if (97 <=? b2z b) && (b2z b <=? 122) then z2b (b2z b - 32) else b.

Definition is_ascii (b : byte) : bool := b2z b <? 128.

Section Parsing.
Context `{Unicode}.

Definition upper_name (name : bytes) : bytes :=
  if forallb is_ascii name then ascii_upper <$> name else unicode_upper name.

(** [args.remove(0)]: the count is positive, so there is a first argument. *)
Definition command_of (args : list bytes) : Command :=
  mkCommand (upper_name (default [] (head args))) (tail args).

Definition parse_array (input : bytes) : ProtocolError + option (Request * Z) :=
  match line input 1 with
  | None => inr None
  | Some (head, at_) =>
      match integer head with
      | None => inl (protocol_error "invalid multibulk length")
      | Some count =>
          if count <=? 0 then inr (Some (REmpty, at_))
          else
            match usize_upto MAX_ARGS count with
            | None => inl (protocol_error "invalid multibulk length")
            | Some count =>
                match bulks (Z.to_nat count) input at_ [] with
                | inl e => inl e
                | inr None => inr None
                | inr (Some (args, at_)) => inr (Some (RCommand (command_of args), at_))
                end
            end
      end
  end.

(** [u8::is_ascii_whitespace]. *)
Definition is_whitespace (b : byte) : bool :=
  let b := b2z b in (b =? 32) || (b =? 9) || (b =? 10) || (b =? 12) || (b =? 13).

(** [split(u8::is_ascii_whitespace).filter(|word| !word.is_empty())]; [word] is
    what the current piece has so far. *)
Fixpoint split_words (word : bytes) (bs : bytes) : list bytes :=
  let here := match word with [] => [] | _ => [word] end in
  match bs with
  | [] => here
  | b :: bs => if is_whitespace b then here ++ split_words [] bs else split_words (word ++ [b]) bs
  end.

(** [strip_suffix(b"\r").unwrap_or(..)]. *)
Definition strip_cr (bs : bytes) : bytes :=
  match last bs with
  | Some b => if bool_decide (b = CR) then take (length bs - 1) bs else bs
  | None => bs
  end.

Definition parse_inline (input : bytes) : ProtocolError + option (Request * Z) :=
  match position_byte LF input with
  | None => if MAX_INLINE <? zlen input then inl (protocol_error "too big inline request") else inr None
  | Some end_ =>
      match split_words [] (strip_cr (take end_ input)) with
      | [] => inr (Some (REmpty, Z.of_nat end_ + 1))
      | name :: args => inr (Some (RCommand (mkCommand (upper_name name) args), Z.of_nat end_ + 1))
      end
  end.

(** Reads one request off the front of [input]. *)
Definition parse (input : bytes) : ProtocolError + option (Request * Z) :=
  match input with
  | [] => inr None
  | first :: _ => if bool_decide (first = z2b 42) then parse_array input else parse_inline input
  end.
End Parsing.

(** ** What arrives later changes nothing *)

Lemma position_crlf_app a b n :
  position_crlf a = Some n -> position_crlf (a ++ b) = Some n /\ (n + 2 <= length a)%nat.
Proof.
  revert n. induction a as [|x [|y a] IH]; intros n H; [done..|]. cbn in H |- *.
  destruct (bool_decide (x = CR) && bool_decide (y = LF)).
  - injection H as <-. split; [done|lia].
  - apply fmap_Some in H as (m & Hm & ->). destruct (IH m Hm) as [E Hl]. cbn in E, Hl. rewrite E. split; [done|lia].
Qed.

Lemma position_byte_app x a b n :
  position_byte x a = Some n -> position_byte x (a ++ b) = Some n /\ (n < length a)%nat.
Proof.
  revert n. induction a as [|y a IH]; intros n H; [done|]. cbn in H |- *.
  destruct (bool_decide (y = x)).
  - injection H as <-. split; [done|lia].
  - apply fmap_Some in H as (m & Hm & ->). destruct (IH m Hm) as [E Hl]. rewrite E. split; [done|lia].
Qed.

Lemma line_app input more from l next :
  0 <= from -> line input from = Some (l, next) ->
  line (input ++ more) from = Some (l, next) /\ from + 2 <= next <= zlen input.
Proof.
  intros Hf. unfold line. rewrite zlen_app. pose proof (zlen_nonneg more).
  destruct (Z.ltb_spec (zlen input) from) as [|Hle]; [done|].
  destruct (Z.ltb_spec (zlen input + zlen more) from); [lia|].
  unfold zlen in *. rewrite drop_app_le by lia. intros (n & Hn & [= <- <-])%bind_Some.
  destruct (position_crlf_app _ more _ Hn) as [E Hl]. rewrite E. cbn. rewrite length_drop in Hl.
  rewrite take_app_le by (rewrite length_drop; lia). split; [done|lia].
Qed.

Lemma slice_app_le {A} (l k : list A) i j : 0 <= i -> j <= zlen l -> slice (l ++ k) i j = slice l i j.
Proof.
  intros Hi Hj. unfold slice, zlen in *. destruct (decide (i <= j)).
  - rewrite drop_app_le, take_app_le; [done|rewrite length_drop; lia|lia].
  - by replace (Z.to_nat (j - i)) with 0%nat by lia.
Qed.

Lemma usize_upto_Some max n m : usize_upto max n = Some m <-> m = n /\ 0 <= n <= max.
Proof.
  unfold usize_upto. destruct (Z.leb_spec 0 n), (Z.leb_spec n max); cbn; split; try (intros [= <-]); try done; try lia.
  by intros [-> _].
Qed.

(** A bulk string that has been read, or found broken, stays what it is. *)
Lemma bulk_app input more from :
  0 <= from ->
  match bulk input from with
  | inl e => bulk (input ++ more) from = inl e
  | inr (Some (bs, next)) =>
      bulk (input ++ more) from = inr (Some (bs, next)) /\ from + 5 <= next <= zlen input
  | inr None => True
  end.
Proof.
  intros Hf. unfold bulk. destruct (input !! Z.to_nat from) as [b|] eqn:Eb; [|done].
  rewrite (lookup_app_l_Some _ _ _ _ Eb). destruct (bool_decide (b = z2b 36)); [|done].
  destruct (line input (from + 1)) as [[head at_]|] eqn:El; [|done].
  apply (line_app _ more) in El as [-> Hat]; [|lia].
  destruct (integer head) as [n|]; [|done]. destruct (usize_upto MAX_BULK n) as [len|] eqn:Eu; [|done].
  apply usize_upto_Some in Eu as [-> Hn]. rewrite zlen_app. pose proof (zlen_nonneg more).
  destruct (Z.ltb_spec (zlen input) (at_ + n + 2)); [done|].
  destruct (Z.ltb_spec (zlen input + zlen more) (at_ + n + 2)); [lia|].
  rewrite !slice_app_le by lia. destruct (bool_decide _); [|done]. split; [done|lia].
Qed.

Lemma bulks_app count : forall input more at_ args,
  0 <= at_ <= zlen input ->
  match bulks count input at_ args with
  | inl e => bulks count (input ++ more) at_ args = inl e
  | inr (Some (args', next)) =>
      bulks count (input ++ more) at_ args = inr (Some (args', next)) /\ at_ <= next <= zlen input
  | inr None => True
  end.
Proof.
  induction count as [|count IH]; intros input more at_ args Hat; cbn [bulks]; [split; [done|lia]|].
  pose proof (bulk_app input more at_ ltac:(lia)) as Hb.
  destruct (bulk input at_) as [e|[[bs next]|]]; [by rewrite Hb| |done].
  destruct Hb as [-> Hn]. specialize (IH input more next (args ++ [bs]) ltac:(lia)).
  destruct (bulks count input next (args ++ [bs])) as [e|[[args' next']|]]; [done| |done].
  split; [by apply IH|lia].
Qed.

Lemma last_length {A} (l : list A) x : last l = Some x -> (0 < length l)%nat.
Proof. destruct l; [done|]. cbn. lia. Qed.

Section Stable.
Context `{Unicode}.

(** A request that has been read takes at least a byte, stays within the input,
    and is the same whatever comes after it. *)
Lemma parse_app input more r used :
  parse input = inr (Some (r, used)) ->
  parse (input ++ more) = inr (Some (r, used)) /\ 0 < used <= zlen input.
Proof.
  unfold parse. destruct input as [|first input']; [done|]. cbn [app]. set (input := first :: input').
  change (first :: input' ++ more) with (input ++ more). destruct (bool_decide (first = z2b 42)).
  - unfold parse_array. destruct (line input 1) as [[head at_]|] eqn:El; [|done].
    apply (line_app _ more) in El as [-> Hat]; [|lia]. destruct (integer head) as [n|]; [|done].
    destruct (n <=? 0); [intros [= <- <-]; split; [done|lia]|].
    destruct (usize_upto MAX_ARGS n) as [count|]; [|done].
    pose proof (bulks_app (Z.to_nat count) input more at_ [] ltac:(lia)) as Hb.
    destruct (bulks (Z.to_nat count) input at_ []) as [e|[[args next]|]]; [done| |done].
    destruct Hb as [-> Hn]. intros [= <- <-]. split; [done|lia].
  - unfold parse_inline. destruct (position_byte LF input) as [n|] eqn:Ep; [|by destruct (_ <? _)].
    destruct (position_byte_app _ _ more _ Ep) as [-> Hn]. rewrite take_app_le by lia. intros Hr. split; [done|].
    destruct (split_words [] (strip_cr (take n input))); injection Hr as _ <-; unfold zlen; lia.
Qed.

(** A broken array stays broken; only an inline request that is merely too long so
    far can still be completed. *)
Lemma parse_broken_app first input more e :
  first = z2b 42 -> parse (first :: input) = inl e -> parse (first :: input ++ more) = inl e.
Proof.
  intros Hf. unfold parse. rewrite !bool_decide_true by done. change (first :: input ++ more) with ((first :: input) ++ more).
  generalize (first :: input). clear. intros input. unfold parse_array.
  destruct (line input 1) as [[head at_]|] eqn:El; [|done].
  apply (line_app _ more) in El as [-> Hat]; [|lia]. destruct (integer head) as [n|]; [|done].
  destruct (n <=? 0); [done|]. destruct (usize_upto MAX_ARGS n) as [count|]; [|done].
  pose proof (bulks_app (Z.to_nat count) input more at_ [] ltac:(lia)) as Hb.
  destruct (bulks (Z.to_nat count) input at_ []) as [?|[[args next]|]]; [by rewrite Hb|done|done].
Qed.
End Stable.

(** ** Reading back what was encoded *)

Lemma string_of_bstr s : String.string_of_list_byte (bstr s) = s.
Proof. apply String.string_of_list_byte_of_string. Qed.

Lemma position_crlf_cons x y k :
  position_crlf (x :: y :: k) =
  if bool_decide (x = CR) && bool_decide (y = LF) then Some 0%nat else S <$> position_crlf (y :: k).
Proof. reflexivity. Qed.

Lemma position_crlf_first l rest : CR ∉ l -> position_crlf (l ++ CRLF ++ rest) = Some (length l).
Proof.
  induction l as [|x l IH]; intros Hn; [done|]. apply not_elem_of_cons in Hn as [Hx Hn].
  change ((x :: l) ++ CRLF ++ rest) with (x :: (l ++ CRLF ++ rest)). specialize (IH Hn).
  destruct (l ++ CRLF ++ rest) as [|y k] eqn:E; [by destruct l|].
  rewrite position_crlf_cons, bool_decide_false by done. cbn [andb]. by rewrite IH.
Qed.

(** A terminated line, in the middle of anything. *)
Lemma line_mid pre l rest :
  CR ∉ l -> line (pre ++ l ++ CRLF ++ rest) (zlen pre) = Some (l, zlen pre + zlen l + 2).
Proof.
  intros Hn. unfold line. rewrite zlen_app. pose proof (zlen_nonneg (l ++ CRLF ++ rest)).
  destruct (Z.ltb_spec (zlen pre + zlen (l ++ CRLF ++ rest)) (zlen pre)); [lia|].
  replace (Z.to_nat (zlen pre)) with (length pre) by (unfold zlen; lia).
  rewrite drop_app_length, position_crlf_first by done. cbn.
  by rewrite take_app_length.
Qed.

Lemma digit_not_cr n : 0 <= n < 10 -> Ascii.byte_of_ascii (digit n) <> CR.
Proof.
  intros Hn E. assert (n ∈ seqZ 0 10) as Hin by (apply elem_of_seqZ; lia). vm_compute in Hin.
  repeat (apply elem_of_cons in Hin as [->|Hin]; [by vm_compute in E|]). by apply elem_of_nil in Hin.
Qed.

Lemma bstr_app a b : bstr (a +:+ b)%string = bstr a ++ bstr b.
Proof.
  induction a as [|c a IH]; [done|]. rewrite app_string_cons.
  change (Ascii.byte_of_ascii c :: bstr (a +:+ b)%string = Ascii.byte_of_ascii c :: (bstr a ++ bstr b)). by rewrite IH.
Qed.

Lemma digits_no_cr width : forall n, CR ∉ bstr (digits width n).
Proof.
  induction width as [|width IH]; intros n; cbn [digits]; [apply not_elem_of_nil|].
  rewrite bstr_app, not_elem_of_app. split; [apply IH|]. cbn. rewrite not_elem_of_cons. split; [|apply not_elem_of_nil].
  intros E. symmetry in E. eapply digit_not_cr, E. apply Z.mod_pos_bound. lia.
Qed.

Lemma integer_decimal n : 0 <= n <= i64_max -> integer (bstr (decimal n)) = Some n.
Proof.
  intros Hn. unfold integer. rewrite string_of_bstr.
  replace (decimal n) with (decimal_i64 n) by (unfold decimal_i64; by destruct (Z.ltb_spec n 0); [lia|]).
  apply parse_decimal_i64. unfold i64_ok. lia.
Qed.

Lemma drop_zlen {A} (l k : list A) : drop (Z.to_nat (zlen l)) (l ++ k) = k.
Proof. unfold zlen. by rewrite Nat2Z.id, drop_app_length. Qed.

Lemma bulk_mid pre bs rest :
  zlen bs <= MAX_BULK ->
  bulk (pre ++ reply_encode (Bulk bs) ++ rest) (zlen pre) =
  inr (Some (bs, zlen pre + zlen (reply_encode (Bulk bs)))).
Proof.
  intros Hlen. cbn [reply_encode]. set (d := bstr (decimal (zlen bs))). pose proof (zlen_nonneg bs).
  set (input := pre ++ _ ++ rest).
  assert (input !! Z.to_nat (zlen pre) = Some (z2b 36)) as Hl.
  { unfold input, zlen. by rewrite Nat2Z.id, lookup_app_r, Nat.sub_diag by lia. }
  assert (line input (zlen pre + 1) = Some (d, zlen pre + 1 + zlen d + 2)) as Hline.
  { unfold input. rewrite <- !app_assoc, (app_assoc pre). change 1 with (zlen (bstr "$")). rewrite <- zlen_app.
    apply line_mid, digits_no_cr. }
  unfold bulk. rewrite Hl, bool_decide_true by done. rewrite Hline. unfold d at 1.
  rewrite integer_decimal by (unfold MAX_BULK, i64_max in *; lia).
  assert (usize_upto MAX_BULK (zlen bs) = Some (zlen bs)) as -> by (apply usize_upto_Some; lia).
  assert (zlen input = zlen pre + (1 + zlen d + 2 + zlen bs + 2) + zlen rest) as Hz.
  { unfold input. rewrite !zlen_app. change (zlen (bstr "$")) with 1. change (zlen CRLF) with 2. lia. }
  pose proof (zlen_nonneg rest). destruct (Z.ltb_spec (zlen input) (zlen pre + 1 + zlen d + 2 + zlen bs + 2)); [lia|].
  assert (forall m k r i j, input = ((pre ++ bstr "$" ++ d ++ CRLF) ++ m) ++ k ++ r ->
    i = zlen pre + 1 + zlen d + 2 + zlen m -> j = i + zlen k -> slice input i j = k) as Hs.
  { intros m k r i j -> -> ->. apply slice_mid; rewrite !zlen_app; change (zlen (bstr "$")) with 1; change (zlen CRLF) with 2; lia. }
  assert (slice input (zlen pre + 1 + zlen d + 2) (zlen pre + 1 + zlen d + 2 + zlen bs) = bs) as ->.
  { apply (Hs [] bs (CRLF ++ rest)); [unfold input; by rewrite app_nil_r, <- !app_assoc|rewrite zlen_nil; lia|lia]. }
  rewrite (Hs bs CRLF rest), bool_decide_true; [|done|unfold input; by rewrite <- !app_assoc|lia|change (zlen CRLF) with 2; lia].
  do 3 f_equal. rewrite !zlen_app. change (zlen (bstr "$")) with 1. change (zlen CRLF) with 2. lia.
Qed.

Lemma bulks_mid items : forall pre rest acc,
  Forall (fun bs => zlen bs <= MAX_BULK) items ->
  let body := concat (reply_encode <$> (Bulk <$> items)) in
  bulks (length items) (pre ++ body ++ rest) (zlen pre) acc = inr (Some (acc ++ items, zlen pre + zlen body)).
Proof.
  induction items as [|bs items IH]; intros pre rest acc Hok; cbn zeta.
  - cbn [bulks length fmap list_fmap concat]. rewrite app_nil_r. do 3 f_equal. rewrite zlen_nil. lia.
  - apply Forall_cons in Hok as [Hbs Hok]. cbn [bulks length fmap list_fmap concat]. rewrite <- app_assoc.
    rewrite bulk_mid by done. rewrite app_assoc, <- zlen_app. rewrite IH by done. rewrite <- app_assoc. cbn [app].
    do 3 f_equal. rewrite !zlen_app. lia.
Qed.

(** A command as a client sends it: an array of bulk strings. *)
Definition request_of (name : bytes) (args : list bytes) : Reply := RArray (Bulk <$> name :: args).

Definition request_fits (name : bytes) (args : list bytes) : Prop :=
  Forall (fun bs => zlen bs <= MAX_BULK) (name :: args) /\ 1 + zlen args <= MAX_ARGS.

#[export] Instance request_fits_dec name args : Decision (request_fits name args).
Proof. unfold request_fits. apply _. Defined.

Lemma parse_request `{Unicode} name args rest :
  request_fits name args ->
  parse (reply_encode (request_of name args) ++ rest) =
  inr (Some (RCommand (mkCommand (upper_name name) args), zlen (reply_encode (request_of name args)))).
Proof.
  intros [Hok Hcount]. unfold request_of. cbn [reply_encode]. set (items := name :: args) in *.
  set (body := concat (reply_encode <$> (Bulk <$> items))). rewrite <- !app_assoc.
  assert (zlen (Bulk <$> items) = 1 + zlen args) as -> by (unfold zlen; rewrite length_fmap; cbn [items length]; lia).
  pose proof (zlen_nonneg args). set (d := bstr (decimal (1 + zlen args))).
  change (parse (bstr "*" ++ d ++ CRLF ++ body ++ rest)) with (parse_array (bstr "*" ++ d ++ CRLF ++ body ++ rest)).
  unfold parse_array. change 1 with (zlen (bstr "*")) at 1. rewrite line_mid by apply digits_no_cr. unfold d at 1.
  change (zlen (bstr "*")) with 1. rewrite integer_decimal by (unfold MAX_ARGS, i64_max in *; lia).
  destruct (Z.leb_spec (1 + zlen args) 0); [lia|].
  assert (usize_upto MAX_ARGS (1 + zlen args) = Some (1 + zlen args)) as -> by (apply usize_upto_Some; lia).
  assert (Z.to_nat (1 + zlen args) = length items) as -> by (unfold zlen; cbn [items length]; lia).
  assert (1 + zlen d + 2 = zlen (bstr "*" ++ d ++ CRLF)) as -> by (rewrite !zlen_app; change (zlen (bstr "*")) with 1; change (zlen CRLF) with 2; lia).
  replace (bstr "*" ++ d ++ CRLF ++ body ++ rest) with ((bstr "*" ++ d ++ CRLF) ++ body ++ rest) by (by rewrite <- !app_assoc).
  unfold body at 1. rewrite bulks_mid by done. cbn [app]. fold body.
  do 3 f_equal. rewrite !zlen_app. lia.
Qed.

(** No strict prefix of a request parses, or is taken for a broken one. *)
Lemma parse_request_prefix `{Unicode} name args n :
  request_fits name args -> (n < length (reply_encode (request_of name args)))%nat ->
  parse (take n (reply_encode (request_of name args))) = inr None.
Proof.
  intros Hfits Hn. pose proof (parse_request name args [] Hfits) as Hwhole. rewrite app_nil_r in Hwhole.
  set (wire := reply_encode (request_of name args)) in *. destruct (parse (take n wire)) as [e|[[r used]|]] eqn:E; [..|done].
  - destruct n as [|n]; [done|]. change wire with (z2b 42 :: tail wire) in E. cbn [firstn] in E.
    eapply (parse_broken_app _ _ (drop n (tail wire))) in E; [|done]. rewrite take_drop in E.
    change (z2b 42 :: tail wire) with wire in E. congruence.
  - apply (parse_app _ (drop n wire)) in E as [E Hused]. rewrite take_drop in E. rewrite Hwhole in E.
    injection E as _ <-. unfold zlen in Hused. rewrite length_take in Hused. lia.
Qed.

(** ** Claims *)

(** C26: A request is read back exactly when it has arrived. What a client sends for
    a command within the protocol's limits, whatever its bytes, parses to that
    command (its name upper-cased, its arguments as they are) and to its length,
    whatever follows it; and after any strict prefix of it the parser asks for
    more, never for a protocol error. *)
Theorem request_read_back `{Unicode} (name : bytes) (args : list bytes) (Hfits : request_fits name args) :
  let wire := reply_encode (request_of name args) in
  (forall rest, parse (wire ++ rest) = inr (Some (RCommand (mkCommand (upper_name name) args), zlen wire))) /\
  (forall n, (n < length wire)%nat -> parse (take n wire) = inr None).
Proof. split; intros; [by apply parse_request|by apply parse_request_prefix]. Qed.

(** Names with a byte outside ASCII left as they are. *)
Definition ascii_unicode : Unicode := fun name => name.

Lemma request_read_back_witness :
  parse (H := ascii_unicode) (reply_encode (request_of (bstr "set") [bstr "user1"; CRLF; []]) ++ bstr "*1") =
    inr (Some (RCommand (mkCommand (bstr "SET") [bstr "user1"; CRLF; []]), 38)) /\
  parse (H := ascii_unicode) (take 17 (reply_encode (request_of (bstr "set") [bstr "user1"; CRLF; []]))) = inr None.
Proof.
  destruct (request_read_back (H := ascii_unicode) (bstr "set") [bstr "user1"; CRLF; []]) as [Hwhole Hprefix].
  - split; [repeat constructor; vm_compute; discriminate|vm_compute; discriminate].
  - split; [exact (Hwhole (bstr "*1"))|]. apply Hprefix. vm_compute. lia.
Defined.
