(* ===== verification/Commands.v ===== *)
(** * The command set ([command.rs])

    Every command the server knows, as a function on the store: its arity checks,
    its calls to the engine, its reply. The specification is a map of keys to
    values; the refinement shows that [GET], [SET] and [DEL] act on the store as
    they would on that map, and that nothing else changes it. *)

From S2P Require Import Prelude Decimal Wal Memtable Disk Manifest Layers Engine Store.
From S2P Require Import EngineSpec Runs Btree Resp.

(** [Display] of [Error]; what the operating system says of an [io::Error] is its
    message. A panic displays nothing: it ends the task it is in. *)
Definition error_display (self : Error) : string :=
  match self with
  | Io path source => (path +:+ ": " +:+ io_message source)%string
  | Corrupt path detail => (path +:+ ": corrupt: " +:+ detail)%string
  | TooLarge len => (decimal len +:+ " bytes exceeds the 4 GiB limit for one key or value")%string
  | Panic => ""
  end.

Definition SERVER_NAME : string := "lsmkv".

(** [CARGO_PKG_VERSION], from the workspace's manifest. *)
Definition SERVER_VERSION : string := "0.1.0".

Definition arity (name : string) : Reply :=
  RError (bstr ("ERR wrong number of arguments for '" +:+ name +:+ "' command")).

Definition failed (err : Error) : Reply := RError (bstr "ERR the store failed: " ++ bstr (error_display err)).

Definition ok : Reply := Simple (bstr "OK").

Definition ping (command : Command) : Reply :=
  match cm_args command with
  | [] => Simple (bstr "PONG")
  | [message] => Bulk message
  | _ => arity "ping"
  end.

(** [<[u8]>::to_ascii_uppercase]. *)
Definition ascii_uppercase (bs : bytes) : bytes := ascii_upper <$> bs.

Definition config (command : Command) : Reply :=
  if bool_decide (ascii_uppercase <$> arg command 0 = Some (bstr "GET")) then RArray []
  else RError (bstr "ERR only CONFIG GET is supported").

Definition hello (command : Command) : Reply :=
  let refused := match arg command 0 with Some version => negb (bool_decide (version = bstr "2")) | None => false end in
  if refused then RError (bstr "NOPROTO unsupported protocol version, this server speaks RESP2")
  else
    RArray [Bulk (bstr "server"); Bulk (bstr SERVER_NAME); Bulk (bstr "version"); Bulk (bstr SERVER_VERSION);
            Bulk (bstr "proto"); Integer 2; Bulk (bstr "mode"); Bulk (bstr "standalone");
            Bulk (bstr "role"); Bulk (bstr "master"); Bulk (bstr "modules"); RArray []].

Definition select (command : Command) : Reply :=
  match arg command 0 with
  | Some db => if bool_decide (db = bstr "0") then ok else RError (bstr "ERR DB index is out of range")
  | None => arity "select"
  end.

Definition unknown (command : Command) : Reply :=
  RError (bstr "ERR unknown command '" ++ cm_name command ++ bstr "', with args beginning with:").

(** A line of [INFO]. *)
Definition info_line (text : string) : bytes := bstr text ++ CRLF.

Section Execute.
Context {T : Type} `{!Memtable T}.
Implicit Types (s : Engine T * World).

Definition info (engine : Engine T) : bytes :=
  let levels := decimal <$> level_sizes engine in
  info_line "# Server" ++ info_line ("server:" +:+ SERVER_NAME) ++ info_line ("version:" +:+ SERVER_VERSION) ++
  info_line "proto:2" ++ info_line "mode:standalone" ++ info_line "role:master" ++ info_line "" ++
  info_line "# Engine" ++ info_line ("files:" +:+ decimal (table_count engine)) ++
  info_line ("files_per_level:" +:+ String.concat "," levels) ++
  info_line ("last_sequence:" +:+ decimal (last_sequence engine)) ++
  info_line ("block_reads:" +:+ decimal (engine_block_reads engine)) ++
  info_line ("bytes_written:" +:+ decimal (en_bytes_written engine)).

Definition get (command : Command) s : Reply * (Engine T * World) :=
  match cm_args command with
  | [key] =>
      let '(r, s) := engine_get key s in
      (match r with Ok (Some value) => Bulk value | Ok None => Nil | Err err => failed err end, s)
  | _ => (arity "get", s)
  end.

Definition set (command : Command) s : Reply * (Engine T * World) :=
  if (2 <? length (cm_args command))%nat then (RError (bstr "ERR syntax error"), s)
  else
    match arg command 0, arg command 1 with
    | Some key, Some value =>
        let '(r, s) := engine_set key value s in
        (match r with Ok _ => ok | Err err => failed err end, s)
    | _, _ => (arity "set", s)
    end.

(** The loop of [del]. *)
Fixpoint del_keys (keys : list bytes) (removed : Z) s : Reply * (Engine T * World) :=
  match keys with
  | [] => (Integer removed, s)
  | key :: keys =>
      let '(found, s) := engine_get key s in
      match found with
      | Err err => (failed err, s)
      | Ok None => del_keys keys removed s
      | Ok (Some _) =>
          let '(r, s) := engine_delete key s in
          match r with
          | Err err => (failed err, s)
          | Ok _ => del_keys keys (removed + 1) s
          end
      end
  end.

Definition del (command : Command) s : Reply * (Engine T * World) :=
  match cm_args command with
  | [] => (arity "del", s)
  | keys => del_keys keys 0 s
  end.

(** Runs one command against the store. *)
Definition execute (command : Command) s : Reply * (Engine T * World) :=
  let name := cm_name command in
  if bool_decide (name = bstr "PING") then (ping command, s)
  else if bool_decide (name = bstr "GET") then get command s
  else if bool_decide (name = bstr "SET") then set command s
  else if bool_decide (name = bstr "DEL") then del command s
  else if bool_decide (name = bstr "COMMAND") then (RArray [], s)
  else if bool_decide (name = bstr "CONFIG") then (config command, s)
  else if bool_decide (name = bstr "HELLO") then (hello command, s)
  else if bool_decide (name = bstr "INFO") then (Bulk (info (fst s)), s)
  else if bool_decide (name = bstr "SELECT") then (select command, s)
  else if bool_decide (name = bstr "QUIT") then (ok, s)
  else (unknown command, s).

Lemma execute_get key s : execute (mkCommand (bstr "GET") [key]) s =
  (match fst (engine_get key s) with Ok (Some value) => Bulk value | Ok None => Nil | Err err => failed err end, snd (engine_get key s)).
Proof.
  unfold execute. cbn [cm_name]. rewrite bool_decide_false, bool_decide_true by done. unfold get. cbn [cm_args]. by destruct (engine_get key s).
Qed.
End Execute.

(** ** What a command does to a map *)

Definition without (keys : list bytes) (m : gmap bytes bytes) : gmap bytes bytes :=
  filter (fun kv => fst kv ∉ keys) m.

(** The reply to a read the device failed. *)
Definition read_error (reply : Reply) : Prop := exists path e, reply = failed (Io path e).

(** What a map allows a command to be answered, and to become. A [GET] whose reading
    fails says so and changes nothing; any other failed command may have been carried
    out, up to some key of a [DEL]. *)
Definition map_execute (command : Command) (reply : Reply) (m m' : gmap bytes bytes) : Prop :=
  if bool_decide (cm_name command = bstr "GET") then
    match cm_args command with
    | [key] => reply = match m !! key with Some value => Bulk value | None => Nil end \/ read_error reply
    | _ => reply = arity "get"
    end /\ m' = m
  else if bool_decide (cm_name command = bstr "SET") then
    match cm_args command with
    | [key; value] =>
        (reply = ok /\ m' = <[key := value]> m) \/
        ((exists err, reply = failed err) /\ (m' = m \/ m' = <[key := value]> m))
    | [] | [_] => reply = arity "set" /\ m' = m
    | _ => reply = RError (bstr "ERR syntax error") /\ m' = m
    end
  else if bool_decide (cm_name command = bstr "DEL") then
    match cm_args command with
    | [] => reply = arity "del" /\ m' = m
    | keys =>
        (reply = Integer (Z.of_nat (size m) - Z.of_nat (size m')) /\ m' = without keys m) \/
        ((exists err, reply = failed err) /\ exists n, m' = without (take n keys) m)
    end
  else m' = m.

Lemma without_nil m : without [] m = m.
Proof. apply map_filter_id. intros k v _ H%elem_of_nil. done. Qed.

Lemma without_cons_present key keys m : without (key :: keys) m = without keys (delete key m).
Proof.
  apply map_eq. intros k. apply option_eq. intros v. unfold without.
  rewrite !map_lookup_filter_Some, lookup_delete_Some. cbn. rewrite not_elem_of_cons. intuition congruence.
Qed.

Lemma without_cons_absent key keys m : m !! key = None -> without (key :: keys) m = without keys m.
Proof. intros H. by rewrite without_cons_present, delete_id. Qed.

(** ** The calls a command makes to the store *)

Section Calls.
Context {T : Type} `{!Memtable T}.
Implicit Types (s : Engine T * World).

Fixpoint del_ops (keys : list bytes) s : list Op :=
  match keys with
  | [] => []
  | key :: keys =>
      let '(found, s) := engine_get key s in
      OpGet key ::
      match found with
      | Err _ => []
      | Ok None => del_ops keys s
      | Ok (Some _) =>
          let '(r, s) := engine_write key None s in
          OpWrite key None :: match r with Ok _ => del_ops keys s | Err _ => [] end
      end
  end.

Definition command_ops (command : Command) s : list Op :=
  if bool_decide (cm_name command = bstr "GET") then match cm_args command with [key] => [OpGet key] | _ => [] end
  else if bool_decide (cm_name command = bstr "SET") then
    match cm_args command with [key; value] => [OpWrite key (Some value)] | _ => [] end
  else if bool_decide (cm_name command = bstr "DEL") then del_ops (cm_args command) s
  else [].

(** One call after another. *)
Lemma run_ops_cons op ops s : run_ops (op :: ops) s =
  (fst (run_op op s) :: fst (run_ops ops (snd (run_op op s))), snd (run_ops ops (snd (run_op op s)))).
Proof. cbn [run_ops]. destruct (run_op op s) as [a s1]. cbn [fst snd]. by destruct (run_ops ops s1). Qed.

Lemma run_get key s : run_op (OpGet key) s = (Value (fst (engine_get key s)), snd (engine_get key s)).
Proof. cbn. by destruct (engine_get key s). Qed.

Lemma run_write key value s : run_op (OpWrite key value) s = (Done (fst (engine_write key value s)), snd (engine_write key value s)).
Proof. cbn. by destruct (engine_write key value s). Qed.

Lemma del_runs keys : forall removed s, snd (del_keys keys removed s) = snd (run_ops (del_ops keys s) s).
Proof.
  induction keys as [|key keys IH]; intros removed s; [done|]. cbn [del_keys del_ops].
  destruct (engine_get key s) as [found s1] eqn:Eg. rewrite run_ops_cons, run_get, Eg. cbn [fst snd].
  destruct found as [[old|]|err]; [|apply IH|done]. unfold engine_delete.
  destruct (engine_write key None s1) as [r s2] eqn:Ew. rewrite run_ops_cons, run_write, Ew. cbn [fst snd]. by destruct r.
Qed.

(** A command leaves the store as its calls do. *)
Lemma command_runs command s : snd (execute command s) = snd (run_ops (command_ops command s) s).
Proof.
  destruct command as [name args]. unfold execute, command_ops. cbn [cm_name cm_args].
  destruct (bool_decide_reflect (name = bstr "PING")) as [->|_]; [done|].
  destruct (bool_decide_reflect (name = bstr "GET")) as [->|_].
  { unfold get. cbn [cm_args]. destruct args as [|key [|? ?]]; [done| |done]. rewrite run_ops_cons, run_get. by destruct (engine_get key s). }
  destruct (bool_decide_reflect (name = bstr "SET")) as [->|_].
  { unfold set, arg. cbn [cm_args]. destruct args as [|key [|value [|? ?]]]; [done..| |done]. cbn [length Nat.ltb Nat.leb lookup list_lookup].
    rewrite run_ops_cons, run_write. unfold engine_set. by destruct (engine_write key (Some value) s). }
  destruct (bool_decide_reflect (name = bstr "DEL")) as [->|_].
  { unfold del. cbn [cm_args]. destruct args as [|key keys]; [done|]. apply del_runs. }
  by repeat case_bool_decide.
Qed.

(** What [DEL] answers, its calls being answered as a map would. *)
Lemma del_session keys : forall removed s m m', map_run (del_ops keys s) (fst (run_ops (del_ops keys s) s)) m m' ->
  (fst (del_keys keys removed s) = Integer (removed + (Z.of_nat (size m) - Z.of_nat (size m'))) /\ m' = without keys m) \/
  ((exists err, fst (del_keys keys removed s) = failed err) /\ exists n, m' = without (take n keys) m).
Proof.
  induction keys as [|key keys IH]; intros removed s m m'; cbn [del_keys del_ops].
  { cbn. intros ->. left. rewrite without_nil. split; [f_equal; lia|done]. }
  destruct (engine_get key s) as [found s1] eqn:Eg. rewrite run_ops_cons, run_get, Eg. cbn [fst snd map_run map_step].
  intros (m0 & [[->|(path & err & ->)] ->] & Hrun).
  2:{ cbn in Hrun. subst m'. right. split; [by eexists|]. exists 0%nat. by rewrite firstn_O, without_nil. }
  destruct (m !! key) as [old|] eqn:Ek.
  2:{ destruct (IH removed s1 m m' Hrun) as [[-> Hm]|[He (n & Hm)]]; [left; by rewrite without_cons_absent|].
      right. split; [done|]. exists (S n). cbn [firstn]. by rewrite without_cons_absent. }
  unfold engine_delete. destruct (engine_write key None s1) as [r s2] eqn:Ew. rewrite run_ops_cons, run_write, Ew in Hrun.
  cbn [fst snd map_run map_step map_write] in Hrun. destruct Hrun as (m1 & Hw & Hrun). destruct r as [[]|err].
  - destruct Hw as [->|[_ Hr]]; [|done]. specialize (IH (removed + 1) s2 _ _ Hrun). rewrite <- without_cons_present in IH.
    destruct IH as [[-> Hm]|[He (n & Hm)]].
    + left. split; [|done]. f_equal. pose proof (map_size_delete key m) as Hs. rewrite Ek in Hs.
      assert (size m <> 0%nat) by (intros E; apply map_size_empty_inv in E; by rewrite E, lookup_empty in Ek). lia.
    + right. split; [done|]. exists (S n). by rewrite Hm, <- without_cons_present.
  - cbn in Hrun. subst m1. right. split; [by eexists|]. destruct Hw as [->|[-> _]].
    + exists 1%nat. cbn [firstn]. by rewrite without_cons_present, firstn_O, without_nil.
    + exists 0%nat. by rewrite firstn_O, without_nil.
Qed.

(** If the calls are answered as a map would, so is the command. *)
Lemma command_session command s m m' : map_run (command_ops command s) (fst (run_ops (command_ops command s) s)) m m' ->
  map_execute command (fst (execute command s)) m m'.
Proof.
  destruct command as [name args]. unfold execute, map_execute, command_ops. cbn [cm_name cm_args].
  destruct (bool_decide_reflect (name = bstr "PING")) as [->|_]; [done|].
  destruct (bool_decide_reflect (name = bstr "GET")) as [->|_].
  { unfold get. cbn [cm_args]. destruct args as [|key [|? ?]]; [done| |done]. rewrite run_ops_cons, run_get. cbn [fst snd map_run map_step].
    destruct (engine_get key s) as [r s1]. cbn [fst]. intros (m1 & [[->|(path & err & ->)] ->] & ->); (split; [|done]); [left|right; by eexists _, _]. by destruct (m !! key). }
  destruct (bool_decide_reflect (name = bstr "SET")) as [->|_].
  { unfold set, arg. cbn [cm_args]. destruct args as [|key [|value [|? ?]]]; [done..| |done]. cbn [length Nat.ltb Nat.leb lookup list_lookup].
    rewrite run_ops_cons, run_write. unfold engine_set. destruct (engine_write key (Some value) s) as [r s1].
    cbn [fst snd map_run map_step map_write]. intros (m1 & Hw & ->). destruct r as [[]|err].
    - left. destruct Hw as [->|[_ Hr]]; done.
    - right. split; [by eexists|]. destruct Hw as [->|[-> _]]; [by right|by left]. }
  destruct (bool_decide_reflect (name = bstr "DEL")) as [->|_].
  { unfold del. cbn [cm_args]. destruct args as [|key keys]; [done|]. intros Hrun%(del_session (key :: keys) 0). exact Hrun. }
  by repeat case_bool_decide.
Qed.
End Calls.

Section Refinement.
Context {T : Type} `{MemtableLaws T}.
Implicit Types (s : Engine T * World).

(** The machine's limits at every write a command makes. *)
Definition command_in_limits (command : Command) s : Prop := run_in_limits (command_ops command s) s.

(** Every command acts on the store as it may on the map. *)
Lemma execute_told command s told :
  engine_inv (fst s) told -> command_in_limits command s ->
  let '(reply, s') := execute command s in
  exists told', engine_inv (fst s') told' /\ map_execute command reply (map_of told) (map_of told').
Proof.
  intros Hinv Hlim. destruct (run_refines _ s told Hinv Hlim) as (told' & Hinv' & Hrun%command_session).
  rewrite <- command_runs in Hinv'. destruct (execute command s) as [reply s']. by exists told'.
Qed.
End Refinement.

(** ** Two replies for one command *)

(** One command can be answered with two replies. The name of an unknown command
    is copied into the error line as it is, and a bulk string may hold a line break:
    for the one-argument request whose name is ["X\r\n+OK"], a well-formed request
    within every limit, what goes out is a complete error reply followed by a
    complete status reply, so the client reads the second one as the answer to its
    next command. *)
Theorem unknown_command_splits_reply `{Unicode} {T : Type} `{!Memtable T} (s : Engine T * World) :
  let name := bstr "x" ++ CRLF ++ bstr "+ok" in
  parse (reply_encode (request_of name [])) =
    inr (Some (RCommand (mkCommand (upper_name name) []), zlen (reply_encode (request_of name [])))) /\
  reply_encode (fst (execute (mkCommand (upper_name name) []) s)) =
    reply_encode (RError (bstr "ERR unknown command 'X")) ++
    reply_encode (Simple (bstr "OK', with args beginning with:")).
Proof. by split. Qed.
