(* ===== verification/Server.v ===== *)
(** * One connection ([server.rs])

    What a connection does with the bytes it reads: [take_batch] cuts every
    complete request off the front of the buffer, the batch runs against the store,
    the replies go out in one write. The socket is outside: a turn of the loop is
    given the bytes its read returned and whether its write went through. A blocking
    task that panics is not modelled.

    The theorem: whatever the cuts the network makes in a stream of requests, the
    connection answers every request, in order, as a map would. *)

From S2P Require Import Prelude Wal Memtable Disk Manifest Layers Engine Store EngineSpec Runs Btree.
From S2P Require Import Resp Commands.

Record Batch := mkBatch { ba_commands : list Command; ba_protocol_error : option bytes }.

(** How the loop of [serve] ended, or that it waits for the next read with what is
    in its buffer. *)
Inductive ended :=
  | Waiting (input : bytes)
  | Closed
  | Quit
  | Broken
  | Lost.

Section Serving.
Context `{Unicode} {T : Type} `{!Memtable T}.
Implicit Types (s : Engine T * World).

(** The loop of [take_batch]. *)
Fixpoint batch_loop (fuel : nat) (input : bytes) (consumed : Z) (commands : list Command) : option (Batch * Z) :=
  match fuel with
  | O => None
  | S fuel =>
      match parse (drop (Z.to_nat consumed) input) with
      | inr (Some (RCommand command, used)) => batch_loop fuel input (consumed + used) (commands ++ [command])
      | inr (Some (REmpty, used)) => batch_loop fuel input (consumed + used) commands
      | inr None => Some (mkBatch commands None, consumed)
      | inl err => Some (mkBatch commands (Some (pe_message err)), consumed)
      end
  end.

(** [take_batch]: the batch, and the buffer without what it was cut from. Every
    request takes a byte at least, so the loop ends within its fuel. *)
Definition take_batch (input : bytes) : option (Batch * bytes) :=
  '(batch, consumed) ← batch_loop (S (length input)) input 0 [];
  Some (batch, drop (Z.to_nat consumed) input).

Fixpoint run_batch (commands : list Command) s : list Reply * (Engine T * World) :=
  match commands with
  | [] => ([], s)
  | command :: commands =>
      let '(reply, s) := execute command s in
      let '(replies, s) := run_batch commands s in
      (reply :: replies, s)
  end.

Definition is_quit (command : Command) : bool := bool_decide (cm_name command = bstr "QUIT").

(** The loop of [serve], one turn per read: the bytes that came, and whether the
    write of the replies went through. The writes made, how it ended, the store. *)
Fixpoint serve (turns : list (bytes * bool)) (input : bytes) s : option (list bytes * ended * (Engine T * World)) :=
  match turns with
  | [] => Some ([], Waiting input, s)
  | (chunk, sent) :: turns =>
      if zlen chunk =? 0 then Some ([], Closed, s)
      else
        '(batch, input) ← take_batch (input ++ chunk);
        let closing := existsb is_quit (ba_commands batch) in
        let '(replies, s) := run_batch (ba_commands batch) s in
        let output := concat (reply_encode <$> replies) ++
          match ba_protocol_error batch with Some message => reply_encode (RError message) | None => [] end in
        let written := match output with [] => [] | _ => [output] end in
        if negb (zlen output =? 0) && negb sent then Some ([], Lost, s)
        else if closing then Some (written, Quit, s)
        else if bool_decide (is_Some (ba_protocol_error batch)) then Some (written, Broken, s)
        else
          '(rest, e, s) ← serve turns input s;
          Some (written ++ rest, e, s)
  end.
End Serving.

(** ** Cutting a buffer into requests *)

Section Cutting.
Context `{Unicode}.

(** The same loop on what is left of the buffer. *)
Fixpoint cut (fuel : nat) (input : bytes) : option (Batch * bytes) :=
  match fuel with
  | O => None
  | S fuel =>
      match parse input with
      | inr (Some (r, used)) =>
          '(batch, rest) ← cut fuel (drop (Z.to_nat used) input);
          Some (mkBatch (match r with RCommand command => [command] | REmpty => [] end ++ ba_commands batch)
                        (ba_protocol_error batch), rest)
      | inr None => Some (mkBatch [] None, input)
      | inl err => Some (mkBatch [] (Some (pe_message err)), input)
      end
  end.

Lemma batch_loop_cut fuel : forall input consumed commands,
  0 <= consumed ->
  ('(batch, consumed) ← batch_loop fuel input consumed commands; Some (batch, drop (Z.to_nat consumed) input)) =
  ('(batch, rest) ← cut fuel (drop (Z.to_nat consumed) input);
   Some (mkBatch (commands ++ ba_commands batch) (ba_protocol_error batch), rest)).
Proof.
  induction fuel as [|fuel IH]; intros input consumed commands Hc; cbn [batch_loop cut]; [done|].
  destruct (parse (drop (Z.to_nat consumed) input)) as [err|[[r used]|]] eqn:E.
  - cbn. by rewrite app_nil_r.
  - pose proof (parse_app _ [] _ _ E) as [_ Hu]. rewrite drop_drop.
    replace (Z.to_nat consumed + Z.to_nat used)%nat with (Z.to_nat (consumed + used)) by lia.
    destruct r as [command|]; rewrite IH by lia;
      destruct (cut fuel (drop (Z.to_nat (consumed + used)) input)) as [[batch rest]|]; cbn; [|done| |done].
    + by rewrite <- app_assoc.
    + done.
  - cbn. by rewrite app_nil_r.
Qed.

Lemma take_batch_cut input : take_batch input = cut (S (length input)) input.
Proof.
  unfold take_batch. rewrite (batch_loop_cut _ input 0 []) by lia. rewrite drop_0.
  by destruct (cut (S (length input)) input) as [[[] ]|].
Qed.

(** Enough fuel is any fuel above the length. *)
Lemma cut_fuel fuel : forall input, (length input < fuel)%nat -> cut fuel input = cut (S (length input)) input.
Proof.
  induction fuel as [fuel IH] using lt_wf_ind. intros input Hf. destruct fuel as [|fuel]; [lia|]. cbn [cut].
  destruct (parse input) as [err|[[r used]|]] eqn:E; try done.
  pose proof (parse_app _ [] _ _ E) as [_ Hu]. unfold zlen in Hu.
  assert (length (drop (Z.to_nat used) input) < length input)%nat as Hlt by (rewrite length_drop; lia).
  rewrite (IH fuel), (IH (length input)) by lia. done.
Qed.

Lemma take_batch_step input :
  take_batch input =
  match parse input with
  | inr (Some (r, used)) =>
      '(batch, rest) ← take_batch (drop (Z.to_nat used) input);
      Some (mkBatch (match r with RCommand command => [command] | REmpty => [] end ++ ba_commands batch)
                    (ba_protocol_error batch), rest)
  | inr None => Some (mkBatch [] None, input)
  | inl err => Some (mkBatch [] (Some (pe_message err)), input)
  end.
Proof.
  rewrite take_batch_cut. cbn [cut]. destruct (parse input) as [err|[[r used]|]] eqn:E; try done.
  pose proof (parse_app _ [] _ _ E) as [_ Hu]. unfold zlen in Hu.
  rewrite take_batch_cut, cut_fuel; [done|]. rewrite length_drop. lia.
Qed.

(** A buffer can always be cut; what is left is its end. *)
Lemma take_batch_total input : exists batch rest pre, take_batch input = Some (batch, rest) /\ input = pre ++ rest.
Proof.
  remember (length input) as n eqn:En. revert input En. induction n as [n IH] using lt_wf_ind. intros input ->.
  rewrite take_batch_step. destruct (parse input) as [err|[[r used]|]] eqn:E; try (by eexists _, _, []).
  pose proof (parse_app _ [] _ _ E) as [_ Hu]. unfold zlen in Hu.
  destruct (IH (length (drop (Z.to_nat used) input)) ltac:(rewrite length_drop; lia) _ eq_refl) as (batch & rest & pre & -> & Ep).
  eexists _, _, (take (Z.to_nat used) input ++ pre). split; [done|]. by rewrite <- app_assoc, <- Ep, take_drop.
Qed.

(** Bytes that come later are cut as if they had been there from the start. *)
Lemma take_batch_app a : forall b cs rest,
  take_batch a = Some (mkBatch cs None, rest) ->
  take_batch (a ++ b) =
  ('(batch, rest') ← take_batch (rest ++ b); Some (mkBatch (cs ++ ba_commands batch) (ba_protocol_error batch), rest')).
Proof.
  remember (length a) as n eqn:En. revert a En. induction n as [n IH] using lt_wf_ind. intros a -> b cs rest Ha.
  rewrite take_batch_step in Ha. destruct (parse a) as [err|[[r used]|]] eqn:E; [done| |].
  - pose proof (parse_app _ b _ _ E) as [E' Hu]. unfold zlen in Hu.
    destruct (take_batch (drop (Z.to_nat used) a)) as [[[cs1 e1] rest1]|] eqn:E1; [|done].
    cbn in Ha. injection Ha as <- -> ->.
    rewrite take_batch_step, E', drop_app_le by lia.
    rewrite (IH (length (drop (Z.to_nat used) a)) ltac:(rewrite length_drop; lia) _ eq_refl b _ _ E1).
    destruct (take_batch (rest ++ b)) as [[batch rest']|]; cbn; [|done]. by rewrite app_assoc.
  - injection Ha as <- <-. destruct (take_batch (a ++ b)) as [[[cs1 e1] rest1]|]; done.
Qed.
End Cutting.

(** ** A stream of requests *)

Section Streams.
Context `{Unicode}.
Implicit Types (reqs : list (bytes * list bytes)).

Definition wire_of (req : bytes * list bytes) : bytes := reply_encode (request_of (fst req) (snd req)).

(** What a client sends for a list of commands. *)
Definition stream reqs : bytes := concat (wire_of <$> reqs).

Definition command_read (req : bytes * list bytes) : Command := mkCommand (upper_name (fst req)) (snd req).

Definition requests_fit reqs : Prop := Forall (fun req => request_fits (fst req) (snd req)) reqs.

(** Wherever the stream is cut, what has arrived holds a number of whole requests
    and the beginning of the next. *)
Lemma take_batch_stream reqs : forall n, requests_fit reqs ->
  exists j rest, take_batch (take n (stream reqs)) = Some (mkBatch (command_read <$> take j reqs) None, rest) /\
    ((length (stream reqs) <= n)%nat -> take j reqs = reqs /\ rest = []).
Proof.
  induction reqs as [|req reqs IH]; intros n Hfit.
  - exists 0%nat, []. change (stream []) with (@nil byte). rewrite take_nil. split; [by rewrite take_batch_step|done].
  - apply Forall_cons in Hfit as [Hreq Hfit]. unfold stream. cbn [fmap list_fmap concat]. fold (stream reqs).
    assert (wire_of req <> []) as Hne by done.
    destruct (decide (n < length (wire_of req))%nat) as [Hlt|Hge].
    + exists 0%nat. rewrite take_app_le by lia. rewrite take_batch_step. unfold wire_of.
      rewrite parse_request_prefix by done. eexists. split; [reflexivity|]. rewrite length_app. unfold wire_of in *. lia.
    + rewrite take_app_ge by lia. destruct (IH (n - length (wire_of req))%nat Hfit) as (j & rest & E & Hall).
      exists (S j), rest. rewrite take_batch_step. unfold wire_of at 1. rewrite parse_request by done.
      rewrite drop_zlen, E. split; [done|]. rewrite length_app. intros Hn. cbn [firstn].
      destruct Hall as [-> ->]; [lia|done].
Qed.

Lemma run_batch_app {T} `{!Memtable T} a : forall b (s : Engine T * World),
  run_batch (a ++ b) s =
  let '(r1, s1) := run_batch a s in let '(r2, s2) := run_batch b s1 in (r1 ++ r2, s2).
Proof.
  induction a as [|command a IH]; intros b s; cbn [app run_batch].
  - by destruct (run_batch b s).
  - destruct (execute command s) as [reply s1]. rewrite IH. destruct (run_batch a s1) as [r1 s2].
    by destruct (run_batch b s2).
Qed.

Lemma serve_stream {T} `{!Memtable T} reqs chunks : forall p cs input (s : Engine T * World),
  requests_fit reqs -> forallb (fun req => negb (is_quit (command_read req))) reqs = true ->
  Forall (fun chunk => chunk <> []) chunks -> p ++ concat chunks = stream reqs ->
  take_batch p = Some (mkBatch cs None, input) ->
  exists cs' rest outs s', take_batch (stream reqs) = Some (mkBatch (cs ++ cs') None, rest) /\
    serve ((fun chunk => (chunk, true)) <$> chunks) input s = Some (outs, Waiting rest, s') /\
    snd (run_batch cs' s) = s' /\ concat outs = concat (reply_encode <$> fst (run_batch cs' s)).
Proof.
  induction chunks as [|chunk chunks IH]; intros p cs input s Hfit Hquit Hne Hp Hcut.
  - cbn [concat] in Hp. rewrite app_nil_r in Hp. subst p. exists [], input, [], s. rewrite app_nil_r. by split_and!.
  - apply Forall_cons in Hne as [Hchunk Hne]. cbn [concat] in Hp. rewrite app_assoc in Hp.
    destruct (take_batch_stream reqs (length (p ++ chunk)) Hfit) as (j & rest & E & _).
    rewrite <- Hp, take_app_length in E. pose proof E as E2. rewrite (take_batch_app _ _ _ _ Hcut) in E2.
    destruct (take_batch (input ++ chunk)) as [[[cs1 e1] input1]|] eqn:E1; [|done]. cbn in E2. injection E2 as Ecs -> ->.
    rewrite <- Ecs in E.
    assert (existsb is_quit cs1 = false) as Hq.
    { apply not_true_iff_false. intros (c & Hc & Hq)%existsb_exists. apply list_elem_of_In in Hc.
      assert (c ∈ command_read <$> take j reqs) as Hin by (rewrite <- Ecs; apply elem_of_app; by right).
      apply list_elem_of_fmap in Hin as (req & -> & Hreq). apply elem_of_take in Hreq as (i & Hreq & _).
      rewrite forallb_forall in Hquit. apply list_elem_of_lookup_2, list_elem_of_In, Hquit in Hreq. by rewrite Hq in Hreq. }
    cbn [fmap list_fmap serve]. destruct (Z.eqb_spec (zlen chunk) 0) as [Hz|_]; [by apply zlen_nil_inv in Hz|].
    rewrite E1. cbn [mbind option_bind ba_commands ba_protocol_error]. rewrite Hq.
    destruct (run_batch cs1 s) as [replies s1] eqn:Er. rewrite app_nil_r, andb_false_r.
    rewrite bool_decide_false by (intros [? ?]; done).
    destruct (IH (p ++ chunk) _ rest s1 Hfit Hquit Hne Hp E) as (cs' & rest' & outs & s' & Hall & Hserve & Hs & Houts).
    rewrite Hserve. exists (cs1 ++ cs'), rest'. eexists _, s'. rewrite app_assoc. split; [done|]. split; [done|].
    rewrite run_batch_app, Er. destruct (run_batch cs' s1) as [replies' s2]. cbn [fst snd] in *. split; [done|].
    rewrite concat_app, Houts, fmap_app, concat_app. f_equal.
    destruct (concat (reply_encode <$> replies)); [done|]. cbn. by rewrite app_nil_r.
Qed.
End Streams.

(** ** A session *)

(** The replies a map may give to commands in order, and what it becomes. *)
Fixpoint map_session (commands : list Command) (replies : list Reply) (m m' : gmap bytes bytes) : Prop :=
  match commands, replies with
  | [], [] => m' = m
  | command :: commands, reply :: replies =>
      exists m1, map_execute command reply m m1 /\ map_session commands replies m1 m'
  | _, _ => False
  end.

Section Sessions.
Context `{Unicode} {T : Type} `{MemtableLaws T}.

(** The machine's limits at every command of a batch. *)
Fixpoint batch_in_limits (commands : list Command) (s : Engine T * World) : Prop :=
  match commands with
  | [] => True
  | command :: commands => command_in_limits command s /\ batch_in_limits commands (snd (execute command s))
  end.

Lemma run_batch_told commands : forall s told,
  engine_inv (fst s) told -> batch_in_limits commands s ->
  exists told', engine_inv (fst (snd (run_batch commands s))) told' /\
    map_session commands (fst (run_batch commands s)) (map_of told) (map_of told').
Proof.
  induction commands as [|command commands IH]; intros s told Hinv Hlim; cbn [run_batch].
  - by exists told.
  - destruct Hlim as [Hc Hlim]. pose proof (execute_told command s told Hinv Hc) as He.
    destruct (execute command s) as [reply s1]. destruct He as (told1 & Hinv1 & Hm). cbn [snd] in Hlim.
    destruct (IH s1 told1 Hinv1 Hlim) as (told2 & Hinv2 & Hs). destruct (run_batch commands s1) as [replies s2].
    cbn [fst snd] in *. exists told2. split; [done|]. by exists (map_of told1).
Qed.
End Sessions.

(** A check of the limits that computes. *)
Definition command_checked (command : Command) (s : Engine BTreeMemtable * World) : bool := run_checked (command_ops command s) s.

Fixpoint batch_checked (commands : list Command) (s : Engine BTreeMemtable * World) : bool :=
  match commands with
  | [] => true
  | command :: commands => command_checked command s && batch_checked commands (snd (execute command s))
  end.

Lemma batch_checked_ok commands : forall s, batch_checked commands s = true -> batch_in_limits commands s.
Proof.
  induction commands as [|command commands IH]; intros s; cbn [batch_checked batch_in_limits]; [done|].
  intros [Hc%run_checked_ok Hb%IH]%andb_true_iff. by split.
Qed.

Definition demo_requests : list (bytes * list bytes) :=
  [(bstr "set", [bstr "k"; CRLF]); (bstr "PING", []); (bstr "get", [bstr "k"]); (bstr "Del", [bstr "k"; bstr "x"; bstr "k"]);
   (bstr "GET", [bstr "k"])].

(** Cut in the middle of a length, of a terminator and of a value. *)
Definition demo_chunks : list bytes :=
  let all := stream demo_requests in
  [take 5 all; take 23 (drop 5 all); take 3 (drop 28 all); drop 31 all].

Definition demo_session : list bytes :=
  match engine_open (T := BTreeMemtable) "db" (mkConfig Always 4096 2 10) (mkWorld empty_disk []) with
  | (Ok e, w) =>
      match serve (H := ascii_unicode) ((fun chunk => (chunk, true)) <$> demo_chunks) [] (e, mkWorld (disk w) []) with
      | Some (outs, _, _) => outs
      | None => []
      end
  | _ => []
  end.

Example demo_session_replies :
  concat demo_session = concat (reply_encode <$> [ok; Simple (bstr "PONG"); Bulk CRLF; Integer 1; Nil]).
Proof. vm_compute. reflexivity. Qed.

(** ** Claims *)

(** C11: A connection serves a map, however its bytes arrive. A client sends any
    commands within the protocol's limits, none of them [QUIT], to a store opened
    on an empty directory; the network delivers the stream in any pieces. The
    connection reads everything, reports no protocol error, and waits with an empty
    buffer; what it has written is one reply per command, in order, and the replies
    are those of a map, whichever system calls of the store fail on the way: a [GET]
    is answered the value last set, or the error of a system call that failed, and
    changes nothing; [DEL] counts the keys that were there; an error may leave the
    command it answers done or undone. In the store the connection leaves behind,
    where no call fails, every key reads as the map has it. The limits assumed
    ([batch_in_limits]) are those of a run of the store ([run_in_limits]) over the
    calls of each command: before and after every write, sequence numbers and file
    numbers are not used up, the length of an open file fits a [u64], and a memtable
    of fixed size has room for one more key. *)
Theorem connection_serves_a_map `{Unicode} {T : Type} `{MemtableLaws T} (dir : string) (cfg : Config) (d : Disk)
  (e : Engine T) (w : World) (os : list outcome) (reqs : list (bytes * list bytes)) (chunks : list bytes)
  (Hempty : names d = ∅) (Hopen : engine_open dir cfg (mkWorld d []) = (Ok e, w))
  (Hfit : requests_fit reqs) (Hquit : forallb (fun req => negb (is_quit (command_read req))) reqs = true)
  (Hchunks : Forall (fun chunk => chunk <> []) chunks) (Hstream : concat chunks = stream reqs)
  (Hlimits : batch_in_limits (command_read <$> reqs) (e, mkWorld (disk w) os)) :
  exists outs replies s' m,
    serve ((fun chunk => (chunk, true)) <$> chunks) [] (e, mkWorld (disk w) os) = Some (outs, Waiting [], s') /\
    concat outs = concat (reply_encode <$> replies) /\
    map_session (command_read <$> reqs) replies ∅ m /\
    forall key w', no_failures w' -> fst (engine_get key (fst s', w')) = Ok (m !! key).
Proof.
  destruct (open_empty dir cfg d Hempty) as (e' & w' & E & Hinv & _). rewrite Hopen in E. injection E as <- <-.
  destruct (serve_stream reqs chunks [] [] [] (e, mkWorld (disk w) os) Hfit Hquit Hchunks Hstream (take_batch_step []))
    as (cs & rest & outs & s' & Hall & Hserve & Hs & Houts).
  destruct (take_batch_stream reqs (length (stream reqs)) Hfit) as (j & rest' & Hj & Hend).
  destruct (Hend (le_n _)) as [Ej ->]. rewrite firstn_all, Hall in Hj. injection Hj as -> ->. rewrite Ej in *.
  destruct (run_batch_told (command_read <$> reqs) (e, mkWorld (disk w) os) ∅ Hinv Hlimits) as (told & Hi & Hm).
  rewrite Hs in Hi. eexists outs, _, s', (map_of told). split_and!; [exact Hserve|exact Houts|exact Hm|].
  intros key w' Hn. rewrite map_of_lookup. by apply read_calm.
Qed.

Lemma connection_serves_a_map_witness : exists e w,
  engine_open (T := BTreeMemtable) "db" (mkConfig Always 4096 2 10) (mkWorld empty_disk []) = (Ok e, w) /\
  exists outs replies s' m,
    serve (H := ascii_unicode) ((fun chunk => (chunk, true)) <$> demo_chunks) [] (e, mkWorld (disk w) []) =
      Some (outs, Waiting [], s') /\
    concat outs = concat (reply_encode <$> replies) /\
    map_session (command_read (H := ascii_unicode) <$> demo_requests) replies ∅ m /\
    forall key w', no_failures w' -> fst (engine_get key (fst s', w')) = Ok (m !! key).
Proof.
  destruct (engine_open (T := BTreeMemtable) "db" (mkConfig Always 4096 2 10) (mkWorld empty_disk [])) as [[e|err] w] eqn:E;
    [|vm_compute in E; discriminate].
  exists e, w. split; [reflexivity|].
  apply (connection_serves_a_map (H := ascii_unicode) "db" (mkConfig Always 4096 2 10) empty_disk e w [] demo_requests demo_chunks
    eq_refl E).
  - repeat constructor; vm_compute; discriminate.
  - vm_compute. reflexivity.
  - repeat constructor; vm_compute; discriminate.
  - vm_compute. reflexivity.
  - apply batch_checked_ok.
    assert (match engine_open (T := BTreeMemtable) "db" (mkConfig Always 4096 2 10) (mkWorld empty_disk []) with
      | (Ok e, w) => batch_checked (command_read (H := ascii_unicode) <$> demo_requests) (e, mkWorld (disk w) [])
      | _ => false end = true) as Hc by (vm_compute; reflexivity).
    rewrite E in Hc. exact Hc.
Defined.
