(* ===== verification/Sessions.v ===== *)
(** * The server survives crashes

    The server over its lives: it opens the directory, runs the commands of its
    connections in some order while the background thread takes its turns, and goes
    down with the machine in the middle of a call. What the clients were answered,
    over all lives, is one session with a map; the next life starts from it. *)

From S2P Require Import Prelude WalRecord WalReplay Wal Memtable SsTable Disk Manifest Naming Compaction Layers Engine Store Shape EngineSpec Runs Btree.
From S2P Require Import Crashes Triples Layout Tells Recovery Opened Lives Resp Commands Server.

(** A command of some connection, or a turn of the background thread. *)
Inductive Turn := TCommand (command : Command) | TBackground (fuel : nat).

Section Turns.
Context {T : Type} `{!Memtable T}.
Implicit Types (s : Engine T * World) (turns : list Turn).

(** What was said: the commands and their replies. *)
Definition run_turn (turn : Turn) s : list (Command * Reply) * (Engine T * World) :=
  match turn with
  | TCommand command => let '(reply, s) := execute command s in ([(command, reply)], s)
  | TBackground fuel => ([], snd (flusher_turn fuel s))
  end.

Fixpoint run_turns turns s : list (Command * Reply) * (Engine T * World) :=
  match turns with
  | [] => ([], s)
  | turn :: turns =>
      let '(said, s) := run_turn turn s in
      let '(rest, s) := run_turns turns s in
      (said ++ rest, s)
  end.

(** The calls made on the store. *)
Definition turn_ops (turn : Turn) s : list Op :=
  match turn with TCommand command => command_ops command s | TBackground fuel => [OpTurn fuel] end.

Fixpoint turns_ops turns s : list Op :=
  match turns with
  | [] => []
  | turn :: turns => turn_ops turn s ++ turns_ops turns (snd (run_turn turn s))
  end.

Lemma run_ops_app a b : forall s, run_ops (a ++ b) s =
  (fst (run_ops a s) ++ fst (run_ops b (snd (run_ops a s))), snd (run_ops b (snd (run_ops a s)))).
Proof.
  induction a as [|op a IH]; intros s; cbn [app]; [cbn; by destruct (run_ops b s)|]. rewrite !run_ops_cons. cbn [fst snd]. by rewrite IH.
Qed.

Lemma turn_runs turn s : snd (run_turn turn s) = snd (run_ops (turn_ops turn s) s).
Proof.
  destruct turn as [command|fuel]; cbn [run_turn turn_ops].
  - rewrite <- command_runs. by destruct (execute command s).
  - cbn. by destruct (flusher_turn fuel s).
Qed.

(** The turns leave the store as their calls do. *)
Lemma turns_run turns : forall s, snd (run_turns turns s) = snd (run_ops (turns_ops turns s) s).
Proof.
  induction turns as [|turn turns IH]; intros s; [done|]. cbn [run_turns turns_ops]. rewrite run_ops_app. cbn [snd]. rewrite <- turn_runs, <- IH.
  destruct (run_turn turn s) as [said s1]. cbn [snd]. by destruct (run_turns turns s1).
Qed.

Lemma map_session_app a b : forall m m1 m', map_session a.*1 a.*2 m m1 -> map_session b.*1 b.*2 m1 m' ->
  map_session (a ++ b).*1 (a ++ b).*2 m m'.
Proof.
  induction a as [|[c r] a IH]; intros m m1 m'; cbn; [by intros ->|]. intros (m2 & Hc & Ha) Hb. exists m2. split; [done|]. by eapply IH.
Qed.

Lemma map_run_app_inv ops ops' : forall answers answers' m m', length answers = length ops ->
  map_run (ops ++ ops') (answers ++ answers') m m' -> exists m1, map_run ops answers m m1 /\ map_run ops' answers' m1 m'.
Proof.
  induction ops as [|op ops IH]; intros [|a answers] answers' m m' Hlen; cbn; try done; [by exists m|].
  intros (m1 & Hs & Hrun). destruct (IH answers answers' m1 m' ltac:(by injection Hlen) Hrun) as (m2 & Hr1 & Hr2). exists m2. split; [|done]. by exists m1.
Qed.

Lemma run_ops_length ops : forall s, length (fst (run_ops ops s)) = length ops.
Proof. induction ops as [|op ops IH]; intros s; [done|]. rewrite run_ops_cons. cbn. by rewrite IH. Qed.

(** If the calls are answered as a map would, so are the commands. *)
Lemma turns_session turns : forall s m m', map_run (turns_ops turns s) (fst (run_ops (turns_ops turns s) s)) m m' ->
  map_session (fst (run_turns turns s)).*1 (fst (run_turns turns s)).*2 m m'.
Proof.
  induction turns as [|turn turns IH]; intros s m m'; cbn [run_turns turns_ops]; [done|]. rewrite run_ops_app, <- turn_runs. cbn [fst].
  intros (m1 & H1 & H2%IH)%map_run_app_inv; [|apply run_ops_length].
  assert (map_session (fst (run_turn turn s)).*1 (fst (run_turn turn s)).*2 m m1) as Hturn.
  { destruct turn as [command|fuel]; cbn [run_turn turn_ops] in *.
    - apply command_session in H1. destruct (execute command s) as [reply s1]. cbn in *. by exists m1.
    - cbn in *. destruct (flusher_turn fuel s) as [r s1]. destruct H1 as (m2 & -> & ->). done. }
  destruct (run_turn turn s) as [said s1]. cbn [fst snd] in *. destruct (run_turns turns s1) as [rest s2]. by eapply map_session_app.
Qed.
End Turns.

Section Lives.
Context {T : Type} `{MemtableLaws T} (dir : string) (config : Config).
Implicit Types (d : Disk) (said : list (Command * Reply)).

(** What clients have been told, and the directory after the last crash. *)
Inductive server_history : list (Command * Reply) -> Disk -> Prop :=
  | server_new : server_history [] empty_disk
  | server_cut said d os err w d' :
      server_history said d -> open_in_limits (T := T) config d -> Forall honest os ->
      engine_open (T := T) dir config (mkWorld d os) = (Err err, w) ->
      ordered_crash (disk w) d' -> complete d' -> server_history said d'
  | server_life said d os e w os' turns d' :
      let s := (e, mkWorld (disk w) os') in
      server_history said d -> open_in_limits (T := T) config d -> Forall honest os ->
      engine_open dir config (mkWorld d os) = (Ok e, w) ->
      calls_in_limits (turns_ops turns s) s -> others_succeed (turns_ops turns s) s ->
      ordered_crash (disk (snd (snd (run_turns turns s)))) d' -> complete d' ->
      server_history (said ++ fst (run_turns turns s)) d'.

(** Underneath is a history of calls. *)
Lemma server_history_calls said d : server_history said d ->
  exists ops answers, history (T := T) dir config ops answers d /\ length answers = length ops /\
    forall m m', map_run ops answers m m' -> map_session said.*1 said.*2 m m'.
Proof.
  induction 1 as [|said d os err w d' _ IH Hlim Hos Hs Hc Hd|said d os e w os' turns d' s _ IH Hlim Hos Hs Hcalls Hok Hc Hd].
  - exists [], []. split; [constructor|done].
  - destruct IH as (ops & answers & Hh & Hl & Hm). exists ops, answers. split; [by eapply history_cut|done].
  - destruct IH as (ops & answers & Hh & Hl & Hm). exists (ops ++ turns_ops turns s), (answers ++ fst (run_ops (turns_ops turns s) s)).
    rewrite turns_run in Hc. split; [by eapply history_life|]. split; [by rewrite !length_app, run_ops_length, Hl|].
    intros m m' (m1 & H1%Hm & H2%turns_session)%map_run_app_inv; [|done]. by eapply map_session_app.
Qed.
End Lives.

(** ** Claims *)

(** C3: What clients were told survives crashes, for the sync policies that flush
    before they answer ([Always] and [Group]), and for the crashes and the lives
    [server_history] admits. The server starts on an empty directory: it opens it,
    runs commands of its connections with flushes and compactions in between, goes
    down with the machine, and starts again; an opening may itself be cut off. What is
    assumed of a life: of the calls its commands and background turns make on the
    store, one that fails, unless it is a read, is the last, and that one may stop
    anywhere; while the store is opened no file that is there is reported missing; and
    the numbers and lengths the limits speak of ([open_in_limits], [calls_in_limits])
    are not used up. What is assumed of a crash ([ordered_crash], [complete]): the
    directory comes back as it stood at some moment since its last flush, what was
    flushed is there, a file cut short is a prefix of what was written, a log that has
    been flushed once keeps its name; and it does not come in the middle of the very
    first flush, leaving tables and no manifest, which [open] refuses. Then all the
    replies the server ever gave, over all those lives, are the replies of one session
    with one map; and opening the directory once more, with no call failing, returns a
    store in which, where no call fails, a [GET] answers what that map holds. So a
    [SET] answered [OK] is not lost, a [DEL] answered with a count is not undone, and
    a command that was cut off has been carried out, or not, or for a [DEL] up to one
    of its keys. *)
Theorem replies_survive_crashes {T : Type} `{MemtableLaws T} (dir : string) (config : Config) (said : list (Command * Reply)) (d : Disk)
  (Hpolicy : cf_sync config = Always \/ cf_sync config = Group)
  (Hhistory : server_history (T := T) dir config said d) (Hlimits : open_in_limits (T := T) config d) :
  exists (e : Engine T) (w : World) (m : gmap bytes bytes),
    engine_open dir config (mkWorld d []) = (Ok e, w) /\ no_failures w /\ map_session said.*1 said.*2 ∅ m /\
    forall key w', no_failures w' -> fst (execute (mkCommand (bstr "GET") [key]) (e, w')) =
      match m !! key with Some value => Bulk value | None => Nil end.
Proof.
  destruct (server_history_calls dir config said d Hhistory) as (ops & answers & Hcalls & _ & Hsession).
  destruct (history_reopens dir config ops answers d Hpolicy Hcalls Hlimits) as (e & w & told & E & Hn & Hrun & Hinv).
  exists e, w, (map_of told). split_and!; [done|done|by apply Hsession|]. intros key w' Hn'.
  rewrite execute_get. cbn [fst]. rewrite (read_calm e told key w' Hinv Hn'), map_of_lookup. by destruct (value_of (told !! key)).
Qed.

(** A life of the server over a B-tree, checked. *)
Definition serve_life (dir : string) (config : Config) (life : list outcome * list outcome * list Turn) (d : Disk) :
  option (list (Command * Reply) * Disk) :=
  let '(os, os', turns) := life in
  match engine_open (T := BTreeMemtable) dir config (mkWorld d os) with
  | (Ok e, w) =>
      let s := (e, mkWorld (disk w) os') in
      match live dir config (os, os', turns_ops turns s) d with Some (_, _, d') => Some (fst (run_turns turns s), d') | None => None end
  | (Err _, w) => match live dir config (os, os', []) d with Some (_, _, d') => Some ([], d') | None => None end
  end.

Fixpoint serve_lives (dir : string) (config : Config) (ls : list (list outcome * list outcome * list Turn)) (d : Disk) :
  option (list (Command * Reply) * Disk) :=
  match ls with
  | [] => Some ([], d)
  | life :: ls => '(said, d) ← serve_life dir config life d; '(rest, d) ← serve_lives dir config ls d; Some (said ++ rest, d)
  end.

Lemma serve_life_history dir config life said d said' d' : server_history (T := BTreeMemtable) dir config said d ->
  serve_life dir config life d = Some (said', d') -> server_history (T := BTreeMemtable) dir config (said ++ said') d'.
Proof.
  destruct life as [[os os'] turns]. intros Hh. unfold serve_life.
  destruct (engine_open dir config (mkWorld d os)) as [[e|err] w] eqn:Eo; (destruct (live _ _ _ _) as [[[ops answers] d1]|] eqn:El; [|done]);
    intros [= <- <-]; apply live_cases in El as (Hl & Hhon & Hd & Hc); rewrite Eo in Hc.
  - destruct Hc as (_ & _ & Hcalls & Hs & Hcut). rewrite <- turns_run in Hcut. by eapply server_life.
  - destruct Hc as (_ & _ & Hcut). rewrite app_nil_r. by eapply server_cut.
Qed.

Lemma serve_lives_history dir config ls : forall said d said' d', server_history (T := BTreeMemtable) dir config said d ->
  serve_lives dir config ls d = Some (said', d') -> server_history (T := BTreeMemtable) dir config (said ++ said') d'.
Proof.
  induction ls as [|life ls IH]; intros said d said' d' Hh; cbn [serve_lives]; [intros [= <- <-]; by rewrite app_nil_r|].
  destruct (serve_life dir config life d) as [[said1 d1]|] eqn:E1; [|done]. cbn [mbind option_bind].
  destruct (serve_lives dir config ls d1) as [[said2 d2]|] eqn:E2; [|done]. intros [= <- <-]. rewrite app_assoc.
  eapply IH; [by eapply serve_life_history|exact E2].
Qed.

Definition asked (name : string) (args : list string) : Turn := TCommand (mkCommand (bstr name) (bstr <$> args)).

Definition server_config : Config := mkConfig Always 2 2 10.

(** The machine goes down between the two removals of a [DEL]; the next life answers
    as after half of it. *)
Definition demo_server_lives : list (list outcome * list outcome * list Turn) :=
  [([], down_after 59, [asked "SET" ["k"; "1"]; TBackground 3; asked "SET" ["j"; "2"]; TBackground 3; asked "GET" ["k"]; asked "DEL" ["k"; "j"; "x"]]);
   ([], [], [asked "GET" ["k"]; asked "GET" ["j"]; TBackground 3; asked "SET" ["j"; "3"]; asked "DEL" ["j"; "k"]])].

Lemma replies_survive_crashes_witness : exists said d,
  serve_lives "db" server_config demo_server_lives empty_disk = Some (said, d) /\ drop 4 said.*2 = [Nil; Bulk (bstr "2"); ok; Integer 1] /\
  exists (e : Engine BTreeMemtable) (w : World) (m : gmap bytes bytes),
    engine_open "db" server_config (mkWorld d []) = (Ok e, w) /\ no_failures w /\ map_session said.*1 said.*2 ∅ m /\
    forall key w', no_failures w' -> fst (execute (mkCommand (bstr "GET") [key]) (e, w')) =
      match m !! key with Some value => Bulk value | None => Nil end.
Proof.
  assert (match serve_lives "db" server_config demo_server_lives empty_disk with
    | Some (said, d) => if names_checked d && manifest_checked d then Some (drop 4 said.*2) else None | None => None end =
    Some [Nil; Bulk (bstr "2"); ok; Integer 1]) as Hc by (vm_compute; reflexivity).
  destruct (serve_lives "db" server_config demo_server_lives empty_disk) as [[said d]|] eqn:E; [|discriminate Hc].
  destruct (names_checked d && manifest_checked d) eqn:Ed; [|discriminate Hc]. injection Hc as Hc.
  exists said, d. split; [reflexivity|]. split; [exact Hc|].
  apply (replies_survive_crashes "db" server_config said d); [by left| |by apply open_checked_ok].
  apply (serve_lives_history "db" server_config demo_server_lives [] empty_disk said d (server_new "db" server_config) E).
Defined.
