(* ===== verification/Clients.v ===== *)
(** * Connections served at once, over crashes

    The server runs the batches of its connections on threads of their own, so the
    calls their commands make interleave. A command is here the tree of calls it makes
    ([Work]), which run alone is [execute]; any number of connections, each with a
    command on its way, make their calls on the store of [Outages]. What they were
    answered is what those calls did to the one map. *)

From S2P Require Import Prelude WalRecord WalReplay Wal Memtable SsTable Disk Manifest Naming Compaction Layers Engine Store Shape EngineSpec Runs Btree.
From S2P Require Import Resp Commands Callers Sharing Crashes Triples Layout Tells Recovery Opened Lives Outages.

(** ** A command as the calls it makes *)

(** What a command asks of the store. *)
Inductive Ask := AGet (key : bytes) | APut (key : bytes) (value : option bytes).

Definition call_for (ask : Ask) : Callers.Request := match ask with AGet key => RGet key | APut key value => RWrite key value end.

(** The answer, read as the one the call has. *)
Definition found (a : Answer) : result (option bytes) := match a with Value r => r | Done (Err err) => Err err | Done (Ok _) => Ok None end.
Definition did (a : Answer) : result unit := match a with Done r => r | Value (Err err) => Err err | Value (Ok _) => Ok tt end.

Section Work.
Context {T : Type} `{!Memtable T}.
Implicit Types (s : Engine T * World).

(** Where a command is: it has its reply, it makes a call and goes on with the answer,
    or it looks at the numbers of the store. *)
Inductive Work :=
  | Replied (reply : Reply)
  | Calls (ask : Ask) (next : Answer -> Work)
  | Looks (reply : Engine T -> Reply).

Definition get_work (command : Command) : Work :=
  match cm_args command with
  | [key] =>
      Calls (AGet key) (fun a => Replied (match found a with Ok (Some value) => Bulk value | Ok None => Nil | Err err => failed err end))
  | _ => Replied (arity "get")
  end.

Definition set_work (command : Command) : Work :=
  if (2 <? length (cm_args command))%nat then Replied (RError (bstr "ERR syntax error"))
  else
    match arg command 0, arg command 1 with
    | Some key, Some value =>
        Calls (APut key (Some value)) (fun a => Replied (match did a with Ok _ => ok | Err err => failed err end))
    | _, _ => Replied (arity "set")
    end.

Fixpoint del_work (keys : list bytes) (removed : Z) : Work :=
  match keys with
  | [] => Replied (Integer removed)
  | key :: keys =>
      Calls (AGet key) (fun a =>
        match found a with
        | Err err => Replied (failed err)
        | Ok None => del_work keys removed
        | Ok (Some _) =>
            Calls (APut key None) (fun a => match did a with Err err => Replied (failed err) | Ok _ => del_work keys (removed + 1) end)
        end)
  end.

Definition work_of (command : Command) : Work :=
  let name := cm_name command in
  if bool_decide (name = bstr "PING") then Replied (ping command)
  else if bool_decide (name = bstr "GET") then get_work command
  else if bool_decide (name = bstr "SET") then set_work command
  else if bool_decide (name = bstr "DEL") then match cm_args command with [] => Replied (arity "del") | keys => del_work keys 0 end
  else if bool_decide (name = bstr "COMMAND") then Replied (RArray [])
  else if bool_decide (name = bstr "CONFIG") then Replied (Commands.config command)
  else if bool_decide (name = bstr "HELLO") then Replied (hello command)
  else if bool_decide (name = bstr "INFO") then Looks (fun e => Bulk (info e))
  else if bool_decide (name = bstr "SELECT") then Replied (select command)
  else if bool_decide (name = bstr "QUIT") then Replied ok
  else Replied (unknown command).

(** Nobody else moving. *)
Definition perform (ask : Ask) s : Answer * (Engine T * World) :=
  match ask with
  | AGet key => let '(r, s) := engine_get key s in (Value r, s)
  | APut key value => let '(r, s) := engine_write key value s in (Done r, s)
  end.

Fixpoint work_alone (work : Work) s : Reply * (Engine T * World) :=
  match work with
  | Replied reply => (reply, s)
  | Calls ask next => let '(a, s) := perform ask s in work_alone (next a) s
  | Looks reply => (reply (fst s), s)
  end.

Lemma del_work_alone keys : forall removed s, work_alone (del_work keys removed) s = del_keys keys removed s.
Proof.
  induction keys as [|key keys IH]; intros removed s; [done|]. cbn [del_work work_alone perform del_keys].
  destruct (engine_get key s) as [[[value|]|err] s1]; cbn [found]; [|apply IH|done]. cbn [work_alone perform]. unfold engine_delete.
  destruct (engine_write key None s1) as [[u|err] s2]; cbn [did]; [apply IH|done].
Qed.

(** The calls are the command's. *)
Lemma work_is_execute command s : work_alone (work_of command) s = execute command s.
Proof.
  unfold work_of, execute. repeat case_bool_decide; try done.
  - unfold get_work, get. destruct (cm_args command) as [|key [|? ?]]; [done| |done]. cbn [work_alone perform].
    by destruct (engine_get key s) as [[[value|]|err] s1].
  - unfold set_work, set. destruct (2 <? _)%nat; [done|]. destruct (arg command 0) as [key|], (arg command 1) as [value|]; try done.
    cbn [work_alone perform]. unfold engine_set. by destruct (engine_write key (Some value) s) as [[u|err] s1].
  - unfold del. destruct (cm_args command) as [|key keys]; [done|]. apply del_work_alone.
Qed.
End Work.

(** ** Connections *)

Section Connections.
Context {T : Type} `{MemtableLaws T}.
Implicit Types (e : Engine T) (store : Store (T := T)) (work : Work (T := T)).

(** What was said on a connection: a command, its reply, and the calls it took. *)
Record Exchange := mkExchange { xc_command : Command; xc_reply : Reply; xc_calls : list nat }.

(** What a connection is about: the command, where it is, the calls it has made, and
    the one it waits for. *)
Inductive Doing :=
  | Idle
  | Busy (command : Command) (work : Work (T := T)) (calls : list nat) (pending : option nat).

Record Connection := mkConnection { cn_doing : Doing; cn_said : list Exchange }.

(** A new connection, a command received, a call made, any step of the store, the
    answer to a call, a look at the store's numbers, and a reply. *)
Inductive server_step : Store * list Connection -> Store * list Connection -> Prop :=
  | server_connect store cs : server_step (store, cs) (store, cs ++ [mkConnection Idle []])
  | server_receive store cs k said command : cs !! k = Some (mkConnection Idle said) ->
      server_step (store, cs) (store, <[k := mkConnection (Busy command (work_of command) [] None) said]> cs)
  | server_ask store cs k said command ask next calls : let r := call_for ask in
      cs !! k = Some (mkConnection (Busy command (Calls ask next) calls None) said) ->
      server_step (store, cs) (mkStore (so_engine store) (so_calls store ++ [(r, start r)]) (so_effects store),
        <[k := mkConnection (Busy command (Calls ask next) calls (Some (length (so_calls store)))) said]> cs)
  | server_store store store' cs : life_step store store' -> server_step (store, cs) (store', cs)
  | server_hear store cs k said command ask next calls i a :
      cs !! k = Some (mkConnection (Busy command (Calls ask next) calls (Some i)) said) ->
      so_calls store !! i = Some (call_for ask, Returned a) ->
      server_step (store, cs) (store, <[k := mkConnection (Busy command (next a) (calls ++ [i]) None) said]> cs)
  | server_look store cs k said command reply calls :
      cs !! k = Some (mkConnection (Busy command (Looks reply) calls None) said) ->
      server_step (store, cs) (store, <[k := mkConnection (Busy command (Replied (reply (fst (so_engine store)))) calls None) said]> cs)
  | server_reply store cs k said command reply calls :
      cs !! k = Some (mkConnection (Busy command (Replied reply) calls None) said) ->
      server_step (store, cs) (store, <[k := mkConnection Idle (said ++ [mkExchange command reply calls])]> cs).

Definition server_steps : Store * list Connection -> Store * list Connection -> Prop := rtc server_step.

(** ** What is true of a connection *)

(** A command has got from [work] to another place by the answers to [calls]. *)
Inductive heard store : Work (T := T) -> list nat -> Work (T := T) -> Prop :=
  | heard_none work : heard store work [] work
  | heard_call work calls ask next i a : heard store work calls (Calls ask next) ->
      so_calls store !! i = Some (call_for ask, Returned a) -> heard store work (calls ++ [i]) (next a)
  | heard_look work calls reply e : heard store work calls (Looks reply) -> heard store work calls (Replied (reply e)).

Definition doing_calls (d : Doing) : list nat := match d with Idle => [] | Busy _ _ calls pending => calls ++ option_list pending end.

(** All the calls a connection has made, in order. *)
Definition calls_of (c : Connection) : list nat := concat (xc_calls <$> cn_said c) ++ doing_calls (cn_doing c).

Definition doing_ok store (d : Doing) : Prop :=
  match d with
  | Idle => True
  | Busy command work calls pending => heard store (work_of command) calls work /\
      forall i, pending = Some i -> exists ask next p, work = Calls ask next /\ so_calls store !! i = Some (call_for ask, p)
  end.

Record connection_ok store (c : Connection) : Prop := {
  co_said : forall x, x ∈ cn_said c -> heard store (work_of (xc_command x)) (xc_calls x) (Replied (xc_reply x));
  co_doing : doing_ok store (cn_doing c);
  co_order : StronglySorted lt (calls_of c);
  co_made : forall i, i ∈ calls_of c -> (i < length (so_calls store))%nat;
}.

Record server_ok store (cs : list Connection) : Prop := {
  sv_each : forall c, c ∈ cs -> connection_ok store c;
  sv_apart : NoDup (concat (calls_of <$> cs));
}.

(** Calls stay, and so do their answers. *)
Definition calls_stay store store' : Prop :=
  (length (so_calls store) <= length (so_calls store'))%nat /\
  forall i r p, so_calls store !! i = Some (r, p) -> exists p', so_calls store' !! i = Some (r, p') /\ forall a, p = Returned a -> p' = Returned a.

Lemma calls_stay_refl store : calls_stay store store.
Proof. split; [done|]. intros i r p Hi. by exists p. Qed.

Lemma calls_stay_step store store' : store_step store store' -> calls_stay store store'.
Proof.
  destruct 1 as [s r Hr|s i r p p' s' Hi Had Hst Hlim]; split; cbn [so_calls]; [rewrite length_app; lia| |by rewrite length_insert|].
  - intros i r' p Hi. exists p. split; [by apply lookup_app_l_Some|done].
  - intros j r' q Hj. destruct (decide (j = i)) as [->|Hne]; [|exists q; by rewrite list_lookup_insert_ne].
    rewrite Hi in Hj. injection Hj as <- <-. exists p'. rewrite list_lookup_insert_eq by (by eapply lookup_lt_Some). split; [done|].
    intros a ->. cbn in Hst. by injection Hst as <- _.
Qed.

Lemma heard_stays store store' work calls work' : calls_stay store store' -> heard store work calls work' -> heard store' work calls work'.
Proof.
  intros [_ Hc]. induction 1 as [work|work calls ask next i a _ IH Hi|work calls reply e _ IH]; [constructor| |by apply heard_look].
  eapply heard_call; [exact IH|]. destruct (Hc _ _ _ Hi) as (p' & Hp' & E). by rewrite (E a eq_refl) in Hp'.
Qed.

Lemma connection_stays store store' c : calls_stay store store' -> connection_ok store c -> connection_ok store' c.
Proof.
  intros Hc [C1 C2 C3 C4]. split; [|..|done|].
  - intros x Hx. eapply heard_stays; [done|by apply C1].
  - destruct (cn_doing c) as [|command work calls pending]; [done|]. destruct C2 as [Hh Hp]. split; [by eapply heard_stays|].
    intros i Hi. destruct (Hp i Hi) as (ask & next & p & -> & Hl). destruct (proj2 Hc _ _ _ Hl) as (p' & Hl' & _). by exists ask, next, p'.
  - intros i Hi. specialize (C4 i Hi). destruct Hc as [Hle _]. lia.
Qed.

(** One connection moves on, its calls being those it had. *)
Lemma server_moves store cs k c c' : server_ok store cs -> cs !! k = Some c -> connection_ok store c' -> calls_of c' = calls_of c ->
  server_ok store (<[k := c']> cs).
Proof.
  intros [S1 S2] Hk Hc' E. split.
  - intros x [i Hi]%list_elem_of_lookup. destruct (decide (i = k)) as [->|Hne].
    + rewrite list_lookup_insert_eq in Hi by (by eapply lookup_lt_Some). by injection Hi as <-.
    + rewrite list_lookup_insert_ne in Hi by done. apply S1. by eapply list_elem_of_lookup_2.
  - rewrite list_fmap_insert, E, list_insert_id; [done|]. by rewrite list_lookup_fmap, Hk.
Qed.

Lemma calls_of_busy command work calls pending said :
  calls_of (mkConnection (Busy command work calls pending) said) = concat (xc_calls <$> said) ++ calls ++ option_list pending.
Proof. done. Qed.
(** ** Every step *)

Lemma connection_new store : connection_ok store (mkConnection Idle []).
Proof. split; [by intros x ?%elem_of_nil|done|constructor|by intros i ?%elem_of_nil]. Qed.

Lemma lt_snoc (xs : list nat) n : StronglySorted lt xs -> (forall x, x ∈ xs -> (x < n)%nat) -> StronglySorted lt (xs ++ [n]).
Proof.
  intros Hs. induction Hs as [|x xs Hs IH Hx]; intros Hn; cbn; [repeat constructor|]. constructor.
  - apply IH. intros y Hy. apply Hn. by right.
  - apply Forall_app. split; [done|]. constructor; [apply Hn; left|constructor].
Qed.

Lemma server_asks store cs k said command ask next calls : let r := call_for ask in
  server_ok store cs -> cs !! k = Some (mkConnection (Busy command (Calls ask next) calls None) said) ->
  server_ok (mkStore (so_engine store) (so_calls store ++ [(r, start r)]) (so_effects store))
    (<[k := mkConnection (Busy command (Calls ask next) calls (Some (length (so_calls store)))) said]> cs).
Proof.
  intros r [S1 S2] Hk. set (store' := mkStore _ _ _). set (n := length (so_calls store)). set (c := mkConnection _ _) in Hk. set (c' := mkConnection _ _).
  assert (calls_stay store store') as Hstay by (apply calls_stay_step, step_call; by destruct ask).
  assert (calls_of c' = calls_of c ++ [n]) as Ec by (unfold c, c'; rewrite !calls_of_busy; cbn [option_list]; by rewrite app_nil_r, app_assoc).
  assert (connection_ok store c) as [C1 C2 C3 C4] by (apply S1; by eapply list_elem_of_lookup_2).
  assert (connection_ok store' c') as Hc'.
  { destruct (connection_stays store store' c Hstay ltac:(by split)) as [D1 D2 D3 D4]. split.
    - exact D1.
    - destruct D2 as [Hh _]. split; [done|]. intros i [= <-]. exists ask, next, (start r). split; [done|]. unfold store', n. cbn [so_calls].
      by rewrite lookup_app_r, Nat.sub_diag.
    - rewrite Ec. by apply lt_snoc.
    - rewrite Ec. intros i [Hi| ->%list_elem_of_singleton]%elem_of_app; [by apply D4|]. unfold store', n. cbn [so_calls]. rewrite length_app. cbn. lia. }
  split.
  - intros x [i Hi]%list_elem_of_lookup. destruct (decide (i = k)) as [->|Hne].
    + rewrite list_lookup_insert_eq in Hi by (by eapply lookup_lt_Some). by injection Hi as <-.
    + rewrite list_lookup_insert_ne in Hi by done. eapply connection_stays; [exact Hstay|]. apply S1. by eapply list_elem_of_lookup_2.
  - destruct (concat_insert calls_of cs k c c' Hk) as (rest & P1 & P2). rewrite P2, Ec, <- app_assoc. cbn [app].
    rewrite <- Permutation_middle, <- P1. constructor; [|done].
    intros (xs & (x & -> & Hx)%list_elem_of_fmap & Hn)%elem_of_concat. specialize (S1 x Hx). pose proof (co_made _ _ S1 n Hn). unfold n in *. lia.
Qed.

Lemma server_step_ok store cs store' cs' : server_ok store cs -> server_step (store, cs) (store', cs') -> server_ok store' cs'.
Proof.
  intros Hok Hst. inversion Hst as [? ?|? ? k said command Hk|? ? k said command ask next calls r Hk|? ? ? Hl|
    ? ? k said command ask next calls i a Hk Hi|? ? k said command reply calls Hk|? ? k said command reply calls Hk]; subst.
  - destruct Hok as [S1 S2]. split; [intros c [Hc| ->%list_elem_of_singleton]%elem_of_app; [by apply S1|apply connection_new]|].
    rewrite fmap_app, concat_app. cbn. by rewrite app_nil_r.
  - assert (connection_ok store' (mkConnection Idle said)) as [C1 _ C3 C4] by (apply Hok; by eapply list_elem_of_lookup_2).
    eapply server_moves; [done|done| |done]. split; [done| |done|done]. split; [constructor|done].
  - by apply server_asks.
  - destruct Hok as [S1 S2]. split; [|done]. intros c Hc. eapply connection_stays; [apply calls_stay_step, Hl|by apply S1].
  - assert (connection_ok store' (mkConnection (Busy command (Calls ask next) calls (Some i)) said)) as [C1 [Hh _] C3 C4]
      by (apply Hok; by eapply list_elem_of_lookup_2).
    assert (calls_of (mkConnection (Busy command (next a) (calls ++ [i]) None) said) = calls_of (mkConnection (Busy command (Calls ask next) calls (Some i)) said)) as E.
    { rewrite !calls_of_busy. cbn [option_list]. by rewrite app_nil_r. }
    eapply server_moves; [done|done| |exact E]. split; [done| |by rewrite E|by rewrite E]. split; [by eapply heard_call|done].
  - assert (connection_ok store' (mkConnection (Busy command (Looks reply) calls None) said)) as [C1 [Hh _] C3 C4]
      by (apply Hok; by eapply list_elem_of_lookup_2).
    eapply server_moves; [done|done| |done]. split; [done| |done|done]. split; [by apply heard_look|done].
  - assert (connection_ok store' (mkConnection (Busy command (Replied reply) calls None) said)) as [C1 [Hh _] C3 C4]
      by (apply Hok; by eapply list_elem_of_lookup_2).
    assert (calls_of (mkConnection Idle (said ++ [mkExchange command reply calls])) = calls_of (mkConnection (Busy command (Replied reply) calls None) said)) as E.
    { rewrite calls_of_busy. unfold calls_of. cbn [cn_said cn_doing doing_calls option_list]. rewrite fmap_app, concat_app. cbn. by rewrite !app_nil_r. }
    eapply server_moves; [done|done| |exact E]. split; [|done|by rewrite E|by rewrite E].
    intros x [Hx| ->%list_elem_of_singleton]%elem_of_app; [by apply C1|done].
Qed.

Lemma ask_sound store ask : let r := call_for ask in sound store ->
  sound (mkStore (so_engine store) (so_calls store ++ [(r, start r)]) (so_effects store)).
Proof.
  intros r Hs i r' p [Hi|[_ [_ [= <- <-]]%list_lookup_singleton_Some]]%lookup_app_Some; [by apply (Hs i r')|].
  unfold r. destruct ask; (split; [done|by intros t ?%elem_of_nil]).
Qed.

(** From a store just opened on. *)
Lemma server_steps_ok x y : server_ok x.1 x.2 -> sound x.1 -> server_steps x y -> server_ok y.1 y.2 /\ life_steps x.1 y.1.
Proof.
  intros Hok Hs Hst. revert Hok Hs. induction Hst as [x|[s1 c1] [s2 c2] x Hst _ IH]; intros Hok Hs; [by split; [|apply rtc_refl]|]. cbn [fst snd] in *.
  assert (s2 = s1 \/ life_step s1 s2) as Hl.
  { inversion Hst as [| |? ? k said command ask next calls r Hk| | | |]; subst; auto. right. split; [apply step_call; by destruct ask|by apply ask_sound]. }
  assert (sound s2) as Hs2 by (by destruct Hl as [->|[_ ?]]).
  destruct (IH ltac:(by eapply server_step_ok) Hs2) as [Hok' Hl']. split; [done|]. destruct Hl as [->|Hl]; [done|by eapply rtc_l].
Qed.

(** ** What was said, and what happened *)

Section Meaning.
Context (effects : list (nat * Effect)).

(** The keys of a [DEL], one after another: each is read, and removed if it was
    there. *)
Inductive deleted : list bytes -> Z -> list nat -> Prop :=
  | deleted_none : deleted [] 0 []
  | deleted_absent key keys n i calls : (i, ERead key None) ∈ effects -> deleted keys n calls -> deleted (key :: keys) n (i :: calls)
  | deleted_present key keys n i old j seq calls : (i, ERead key (Some old)) ∈ effects -> (j, EWrite key seq None) ∈ effects ->
      deleted keys n calls -> deleted (key :: keys) (n + 1) (i :: j :: calls).

(** The reply is what the command's calls did; a read the device failed is the last
    call of its command, and the reply says so. *)
Definition borne_out (x : Exchange) : Prop :=
  let '(mkExchange command reply calls) := x in
  if bool_decide (cm_name command = bstr "GET") then
    match cm_args command with
    | [key] => exists i, calls = [i] /\
        ((exists v, (i, ERead key v) ∈ effects /\ reply = match v with Some value => Bulk value | None => Nil end) \/ read_error reply)
    | _ => calls = [] /\ reply = arity "get"
    end
  else if bool_decide (cm_name command = bstr "SET") then
    match cm_args command with
    | [key; value] => exists i seq, calls = [i] /\ (i, EWrite key seq (Some value)) ∈ effects /\ reply = ok
    | [] | [_] => calls = [] /\ reply = arity "set"
    | _ => calls = [] /\ reply = RError (bstr "ERR syntax error")
    end
  else if bool_decide (cm_name command = bstr "DEL") then
    match cm_args command with
    | [] => calls = [] /\ reply = arity "del"
    | keys => exists n, (deleted keys n calls /\ reply = Integer n) \/
        exists j done i, deleted (take j keys) n done /\ calls = done ++ [i] /\ read_error reply
    end
  else calls = [].

(** The calls that have returned have had their effect, or are reads the device
    failed. *)
Definition truthful store : Prop := forall i ask a, so_calls store !! i = Some (call_for ask, Returned a) ->
  match ask with
  | AGet key => (exists v, a = Value (Ok v) /\ (i, ERead key v) ∈ effects) \/ exists path err, a = Value (Err (Io path err))
  | APut key value => a = Done (Ok tt) /\ exists seq, (i, EWrite key seq value) ∈ effects
  end.

Lemma heard_inv store work calls work' : heard store work calls work' ->
  (calls = [] /\ work' = work) \/
  (exists ask next i a calls', work = Calls ask next /\ calls = i :: calls' /\ so_calls store !! i = Some (call_for ask, Returned a) /\
    heard store (next a) calls' work') \/
  (exists reply e, work = Looks reply /\ heard store (Replied (reply e)) calls work').
Proof.
  induction 1 as [work|work calls ask next i a Hh IH Hi|work calls reply e Hh IH]; [by left| |].
  - right. destruct IH as [[-> <-]|[(ask' & next' & i' & a' & calls' & -> & -> & Hi' & Hh')|(reply & e & -> & Hh')]].
    + left. exists ask, next, i, a, []. split_and!; [done|done|done|constructor].
    + left. exists ask', next', i', a', (calls' ++ [i]). split_and!; [done|done|done|by eapply heard_call].
    + right. exists reply, e. split; [done|by eapply heard_call].
  - right. destruct IH as [[-> <-]|[(ask & next & i & a & calls' & -> & -> & Hi & Hh')|(reply' & e' & -> & Hh')]].
    + right. exists reply, e. split; [done|constructor].
    + left. exists ask, next, i, a, calls'. split_and!; [done|done|done|by apply heard_look].
    + right. exists reply', e'. split; [done|by apply heard_look].
Qed.

Lemma heard_replied store reply calls reply' : heard store (Replied reply) calls (Replied reply') -> calls = [] /\ reply' = reply.
Proof. by intros [[-> [= ->]]|[(? & ? & ? & ? & ? & [=] & _)|(? & ? & [=] & _)]]%heard_inv. Qed.

Lemma heard_calls store ask next calls reply : heard store (Calls ask next) calls (Replied reply) -> exists i a calls',
  calls = i :: calls' /\ so_calls store !! i = Some (call_for ask, Returned a) /\ heard store (next a) calls' (Replied reply).
Proof.
  intros [[_ [=]]|[(ask' & next' & i & a & calls' & [= <- <-] & -> & Hi & Hh)|(? & ? & [=] & _)]]%heard_inv. by exists i, a, calls'.
Qed.

Lemma del_borne_out store keys : truthful store -> forall removed calls reply, heard store (del_work keys removed) calls (Replied reply) ->
  exists n, (deleted keys n calls /\ reply = Integer (removed + n)) \/
    exists j done i, deleted (take j keys) n done /\ calls = done ++ [i] /\ read_error reply.
Proof.
  intros Ht. induction keys as [|key keys IH]; intros removed calls reply; cbn [del_work].
  { intros [-> ->]%heard_replied. exists 0. left. split; [constructor|by rewrite Z.add_0_r]. }
  intros (i & a & calls' & -> & Hi & Hh)%heard_calls.
  destruct (Ht i (AGet key) a Hi) as [([old|] & -> & Hr)|(path & err & ->)]; cbn [found] in Hh.
  - apply heard_calls in Hh as (j & a & calls2 & -> & Hj & Hh). destruct (Ht j (APut key None) a Hj) as [-> (seq & Hw)]. cbn [did] in Hh.
    destruct (IH _ _ _ Hh) as (n & [[Hd ->]|(k & calls3 & l & Hd & -> & He)]); exists (n + 1).
    + left. split; [by eapply deleted_present|f_equal; lia].
    + right. exists (S k), (i :: j :: calls3), l. split_and!; [by eapply deleted_present|done|done].
  - destruct (IH _ _ _ Hh) as (n & [[Hd ->]|(k & calls3 & l & Hd & -> & He)]); exists n.
    + left. split; [by apply deleted_absent|done].
    + right. exists (S k), (i :: calls3), l. split_and!; [by apply deleted_absent|done|done].
  - apply heard_replied in Hh as [-> ->]. exists 0. right. exists 0%nat, [], i. split_and!; [constructor|done|by eexists _, _].
Qed.

Lemma heard_borne_out store x : truthful store -> heard store (work_of (xc_command x)) (xc_calls x) (Replied (xc_reply x)) -> borne_out x.
Proof.
  intros Ht. destruct x as [[name args] reply calls]. unfold work_of, borne_out. cbn [xc_command xc_calls xc_reply cm_name cm_args].
  destruct (bool_decide_reflect (name = bstr "PING")) as [->|_]; [by intros [-> _]%heard_replied|].
  destruct (bool_decide (name = bstr "GET")).
  { unfold get_work. cbn [cm_args]. destruct args as [|key [|? ?]]; try apply heard_replied.
    intros (i & a & calls' & -> & Hi & Hh)%heard_calls. exists i.
    destruct (Ht i (AGet key) a Hi) as [(v & -> & Hr)|(path & err & ->)]; apply heard_replied in Hh as [-> ->]; (split; [done|]).
    - left. exists v. split; [done|by destruct v].
    - right. by eexists _, _. }
  destruct (bool_decide (name = bstr "SET")).
  { unfold set_work, arg. cbn [cm_args]. destruct args as [|key [|value [|? ?]]]; cbn [length Nat.ltb Nat.leb lookup list_lookup]; try apply heard_replied.
    intros (i & a & calls' & -> & Hi & Hh)%heard_calls. destruct (Ht i (APut key (Some value)) a Hi) as [-> (seq & Hw)].
    apply heard_replied in Hh as [-> ->]. by exists i, seq. }
  destruct (bool_decide (name = bstr "DEL")).
  { cbn [cm_args]. destruct args as [|key keys]; [apply heard_replied|]. intros (n & Hn)%del_borne_out; [|done]. by exists n. }
  repeat case_bool_decide; try by intros [-> _]%heard_replied.
  intros [[_ [=]]|[(? & ? & ? & ? & ? & [=] & _)|(? & ? & [= <-] & [-> _]%heard_replied)]]%heard_inv. done.
Qed.
End Meaning.

(** What a life has explained is what its calls have done. *)
Lemma explains_truthful start store store' effects : sound store -> over store store' -> explains (mkLife start store store') effects ->
  truthful effects store.
Proof.
  intros Hs Hover Hex i ask a Hi. assert (calls_stay store store') as [_ Hstay].
  { destruct Hover as [->|[Hst _]]; [apply calls_stay_refl|by apply calls_stay_step]. }
  destruct (Hstay _ _ _ Hi) as (p' & Hi' & E). rewrite (E a eq_refl) in Hi'. destruct (Hs _ _ _ Hi) as [He _]. destruct ask as [key|key value].
  - destruct (ex_reads _ _ Hex i key a Hi') as [Hv|(r & -> & path & err & ->)]; [by left|right; by eexists _, _].
  - destruct a as [[[]|]|v]; [|done|by destruct (ex_kinds _ _ Hex i _ v Hi')]. split; [done|]. apply (ex_writes _ _ Hex i key value Hi').
Qed.
End Connections.

(** ** The server's lives *)

Section Services.
Context {T : Type} `{MemtableLaws T} (dir : string) (config : Config).

(** A life of the server: of its store, with what was said on each connection. *)
Record Service := mkService { sc_life : Life (T := T); sc_connections : list (Connection (T := T)) }.

(** As [outages], the callers being connections. *)
Inductive services : list Service -> Disk -> Prop :=
  | services_new : services [] empty_disk
  | services_cut ss d os err w d' :
      services ss d -> open_in_limits (T := T) config d -> Forall honest os ->
      engine_open (T := T) dir config (mkWorld d os) = (Err err, w) ->
      ordered_crash (disk w) d' -> complete d' -> services ss d'
  | services_life ss d os e w os' s cs s' d' :
      services ss d -> open_in_limits (T := T) config d -> Forall honest os ->
      engine_open dir config (mkWorld d os) = (Ok e, w) ->
      server_steps (fresh_store (e, mkWorld (disk w) os'), []) (s, cs) -> over s s' ->
      ordered_crash (disk (snd (so_engine s'))) d' -> complete d' ->
      services (ss ++ [mkService (mkLife (fresh_store (e, mkWorld (disk w) os')) s s') cs]) d'.

(** The effects account for all that was said: each reply is what the command's calls
    did, no call serves two commands, and a connection makes its calls in the order of
    its commands. *)
Record accounts (x : Service) (effects : list (nat * Effect)) : Prop := {
  ac_explains : explains (sc_life x) effects;
  ac_answered : forall c said, c ∈ sc_connections x -> said ∈ cn_said c -> borne_out effects said;
  ac_apart : NoDup (concat (calls_of <$> sc_connections x));
  ac_order : forall c, c ∈ sc_connections x -> StronglySorted lt (calls_of c);
}.

Lemma services_outages ss d : services ss d -> outages dir config (sc_life <$> ss) d /\
  forall x effects, x ∈ ss -> explains (sc_life x) effects -> accounts x effects.
Proof.
  induction 1 as [|ss d os err w d' _ [IH1 IH2] Hlim Hos Hs Hc Hd|ss d os e w os' s cs s' d' _ [IH1 IH2] Hlim Hos Hs Hsteps Hover Hc Hd].
  - split; [constructor|by intros x effects ?%elem_of_nil].
  - split; [by eapply outages_cut|done].
  - apply server_steps_ok in Hsteps as [[S1 S2] Hlife]; cbn [fst snd] in *; [|split; [by intros c ?%elem_of_nil|constructor]|apply fresh_sound].
    split; [rewrite fmap_app; by eapply outages_life|]. intros x effects [Hx| ->%list_elem_of_singleton]%elem_of_app; [by apply IH2|]. intros Hex.
    split; cbn [sc_life sc_connections]; [done| |done|intros c Hc'; apply (S1 c Hc')]. intros c said Hc' Hsaid. eapply heard_borne_out; [|by apply (S1 c Hc')].
    eapply explains_truthful; [eapply life_steps_sound; [apply fresh_sound|exact Hlife]|exact Hover|exact Hex].
Qed.

Lemma explained_accounts ss effects : (forall x es, x ∈ ss -> explains (sc_life x) es -> accounts x es) ->
  Forall2 explains (sc_life <$> ss) effects -> Forall2 accounts ss effects.
Proof.
  revert effects. induction ss as [|x ss IH]; intros effects Hac Hex; cbn in Hex; inversion_clear Hex; constructor.
  - apply Hac; [left|done].
  - apply IH; [|done]. intros x1 es Hx1. apply Hac. by right.
Qed.
End Services.

(** ** Claims *)

(** C5: Connections served at once see one map, over crashes, for the sync policies
    [Always] and [Group] and for the lives and crashes [services] admits. The server
    starts on an empty directory, opens it, and is lost in a crash, again and again;
    an opening may itself be cut off. In each life any number of connections have
    commands on their way, whose calls interleave with each other and with the
    background thread, one moving at a time between two of its lock operations. What
    is assumed of a life ([life_steps], [over]): it is over when a write, a sync, a
    flush or a compaction fails, so the machine goes down with that step, which may
    stop anywhere, or between two steps (reads may fail and the life go on); while the
    store is opened no file that is there is reported missing; and sequence numbers,
    file numbers and lengths stay in their limits ([open_in_limits],
    [step_in_limits], [sound]). What is assumed of a crash ([ordered_crash],
    [complete]): the directory comes back as it stood at some moment since its last
    flush, what was flushed is there, a file cut short is a prefix of what was written,
    a log that has been flushed once keeps its name; and it does not come in the middle
    of the very first flush, leaving tables and no manifest, which [open] refuses. Then
    opening the directory once more, with no call failing, gives a store where, as long
    as no call fails, a [GET] answers what a map holds, and all the lives' effects, in
    order, are a run of that map. Every reply ever given is what the command's own
    calls did to it: a [GET]'s bulk string is what its read found, a [SET] answered
    [OK] wrote its value, and a [DEL]'s count is the keys it read as present and
    removed, one after another; a reply that is a device's error to a read comes after
    the keys before it were dealt with; no call serves two commands, and those of a
    connection follow its commands. *)
Theorem clients_survive_crashes {T : Type} `{MemtableLaws T} (dir : string) (config : Config) (ss : list (Service (T := T))) (d : Disk)
  (Hpolicy : cf_sync config = Always \/ cf_sync config = Group)
  (Hservices : services dir config ss d) (Hlimits : open_in_limits (T := T) config d) :
  exists (e : Engine T) (w : World) (effects : list (list (nat * Effect))) (m : gmap bytes bytes),
    engine_open dir config (mkWorld d []) = (Ok e, w) /\ no_failures w /\
    Forall2 accounts ss effects /\ map_effects (concat effects) ∅ m /\
    forall key w', no_failures w' -> fst (execute (mkCommand (bstr "GET") [key]) (e, w')) =
      match m !! key with Some value => Bulk value | None => Nil end.
Proof.
  destruct (services_outages dir config ss d Hservices) as [Houtages Hac].
  destruct (outages_reopens dir config (sc_life <$> ss) d Hpolicy Houtages Hlimits) as (e & w & effects & told & E & Hn & Hex & Hrun & Hinv).
  exists e, w, effects, (map_of told). split; [done|]. split; [done|]. split; [|split; [by apply layer_effects_map in Hrun|]].
  - by apply explained_accounts.
  - intros key w' Hn'. rewrite execute_get. cbn [fst]. rewrite (read_calm e told key w' Hinv Hn'), map_of_lookup. by destruct (value_of (told !! key)).
Qed.

(** ** Lives that compute *)

Inductive Deed := DConnect | DReceive (k : nat) (command : Command) | DAsk (k : nat) | DStore (i : nat) | DHear (k : nat) | DReply (k : nat).

Definition deed (x : Store (T := BTreeMemtable) * list (Connection (T := BTreeMemtable))) (what : Deed) : option (Store (T := BTreeMemtable) * list (Connection (T := BTreeMemtable))) :=
  let '(store, cs) := x in
  match what with
  | DConnect => Some (store, cs ++ [mkConnection Idle []])
  | DReceive k command =>
      match cs !! k with
      | Some (mkConnection Idle said) => Some (store, <[k := mkConnection (Busy command (work_of command) [] None) said]> cs)
      | _ => None
      end
  | DAsk k =>
      match cs !! k with
      | Some (mkConnection (Busy command (Calls ask next) calls None) said) =>
          Some (mkStore (so_engine store) (so_calls store ++ [(call_for ask, start (call_for ask))]) (so_effects store),
            <[k := mkConnection (Busy command (Calls ask next) calls (Some (length (so_calls store)))) said]> cs)
      | _ => None
      end
  | DStore i => match move (MStep i) store with Some store' => if sound_checked store' then Some (store', cs) else None | None => None end
  | DHear k =>
      match cs !! k with
      | Some (mkConnection (Busy command (Calls ask next) calls (Some i)) said) =>
          match so_calls store !! i with
          | Some (r, Returned a) =>
              if decide (r = call_for ask) then Some (store, <[k := mkConnection (Busy command (next a) (calls ++ [i]) None) said]> cs) else None
          | _ => None
          end
      | _ => None
      end
  | DReply k =>
      match cs !! k with
      | Some (mkConnection (Busy command (Replied reply) calls None) said) =>
          Some (store, <[k := mkConnection Idle (said ++ [mkExchange command reply calls])]> cs)
      | _ => None
      end
  end.

Lemma deed_step x what y : deed x what = Some y -> server_step x y.
Proof.
  destruct x as [store cs], what as [|k command|k|i|k|k]; cbn [deed].
  - intros [= <-]. apply server_connect.
  - destruct (cs !! k) as [[[|] said]|] eqn:Ek; try done. intros [= <-]. by apply server_receive.
  - destruct (cs !! k) as [[[|command [|ask next|] calls [|]] said]|] eqn:Ek; try done. intros [= <-]. by apply server_ask.
  - destruct (move _ _) as [store'|] eqn:Em; [|done]. destruct (sound_checked store') eqn:Es; [|done]. intros [= <-].
    apply server_store. split; [by eapply move_step|by apply sound_checked_ok].
  - destruct (cs !! k) as [[[|command [|ask next|] calls [i|]] said]|] eqn:Ek; try done.
    destruct (so_calls store !! i) as [[r p]|] eqn:Ei; [|done]. destruct p; try done.
    destruct (decide (r = call_for ask)) as [->|]; [|done]. intros [= <-]. by eapply server_hear.
  - destruct (cs !! k) as [[[|command [reply| |] calls [|]] said]|] eqn:Ek; try done. intros [= <-]. by apply server_reply.
Qed.

Fixpoint deeds (whats : list Deed) (x : Store (T := BTreeMemtable) * list (Connection (T := BTreeMemtable))) : option (Store (T := BTreeMemtable) * list (Connection (T := BTreeMemtable))) :=
  match whats with
  | [] => Some x
  | what :: whats => match deed x what with Some x => deeds whats x | None => None end
  end.

Lemma deeds_steps whats : forall x y, deeds whats x = Some y -> server_steps x y.
Proof.
  induction whats as [|what whats IH]; intros x y; cbn [deeds]; [intros [= <-]; apply rtc_refl|].
  destruct (deed x what) as [x1|] eqn:E; [|done]. intros Hd. eapply rtc_l; [by eapply deed_step|by apply IH].
Qed.

(** One life: what the system calls of the opening return and those after it, the
    deeds, and the step it is cut off in; and what a power cut leaves. *)
Definition service_life (dir : string) (config : Config) (script : list outcome * list outcome * list Deed * option Move) (d : Disk) :
  option (list (Service (T := BTreeMemtable)) * Disk) :=
  let '(os, os', whats, last) := script in
  if names_checked d && manifest_checked d && forallb honest_checked os then
    match engine_open (T := BTreeMemtable) dir config (mkWorld d os) with
    | (Err _, w) => let d' := power_cut (disk w) in if tables_checked d' then Some ([], d') else None
    | (Ok e, w) =>
        let start := fresh_store (e, mkWorld (disk w) os') in
        '(s, cs) ← deeds whats (start, []);
        s' ← last_move last s;
        let d' := power_cut (disk (snd (so_engine s'))) in
        if tables_checked d' then Some ([mkService (mkLife start s s') cs], d') else None
    end
  else None.

Lemma service_life_services dir config script ss d more d' : services dir config ss d -> service_life dir config script d = Some (more, d') ->
  services dir config (ss ++ more) d'.
Proof.
  destruct script as [[[os os'] whats] last]. intros Ho. unfold service_life.
  destruct (_ && _ && _) eqn:Ec; [|done]. apply andb_true_iff in Ec as [Hl%(open_checked_ok config) Hhon%honest_checked_ok].
  destruct (engine_open dir config (mkWorld d os)) as [[e|err] w] eqn:Eo.
  - destruct (deeds whats _) as [[s cs]|] eqn:Em; [|done]. cbn [mbind option_bind]. destruct (last_move last s) as [s'|] eqn:El; [|done]. cbn [mbind option_bind].
    destruct (tables_checked _) eqn:Et; [|done]. intros [= <- <-].
    eapply services_life; [exact Ho|exact Hl|exact Hhon|exact Eo|by eapply deeds_steps|by eapply last_move_ok|apply power_cut_crash|by apply tables_checked_ok].
  - destruct (tables_checked _) eqn:Et; [|done]. intros [= <- <-]. rewrite app_nil_r.
    eapply services_cut; [exact Ho|exact Hl|exact Hhon|exact Eo|apply power_cut_crash|by apply tables_checked_ok].
Qed.

Fixpoint service_lives (dir : string) (config : Config) (scripts : list (list outcome * list outcome * list Deed * option Move)) (d : Disk) :
  option (list (Service (T := BTreeMemtable)) * Disk) :=
  match scripts with
  | [] => Some ([], d)
  | script :: scripts =>
      '(ss, d) ← service_life dir config script d;
      '(more, d) ← service_lives dir config scripts d;
      Some (ss ++ more, d)
  end.

Lemma service_lives_services dir config scripts : forall ss d more d', services dir config ss d ->
  service_lives dir config scripts d = Some (more, d') -> services dir config (ss ++ more) d'.
Proof.
  induction scripts as [|script scripts IH]; intros ss d more d' Ho; cbn [service_lives]; [intros [= <- <-]; by rewrite app_nil_r|].
  destruct (service_life dir config script d) as [[ss1 d1]|] eqn:E1; [|done]. cbn [mbind option_bind].
  destruct (service_lives dir config scripts d1) as [[ss2 d2]|] eqn:E2; [|done]. intros [= <- <-].
  rewrite app_assoc. eapply IH; [by eapply service_life_services|exact E2].
Qed.

Definition asking (name : string) (args : list string) : Command := mkCommand (bstr name) (bstr <$> args).

(** Two connections; one writes a key between the other's [DEL] reading and removing
    it, and the machine goes down before the [DEL] has removed its second key. *)
Definition demo_services : list (list outcome * list outcome * list Deed * option Move) :=
  [([], down_after 9,
    [DConnect; DConnect; DReceive 0 (asking "SET" ["k"; "1"]); DReceive 1 (asking "SET" ["j"; "2"]); DAsk 0; DAsk 1;
     DStore 1; DStore 2; DStore 1; DStore 2; DStore 2; DStore 1; DHear 1; DReply 1; DHear 0; DReply 0;
     DReceive 1 (asking "DEL" ["k"; "x"; "j"]); DAsk 1; DStore 3; DHear 1; DReceive 0 (asking "SET" ["k"; "5"]); DAsk 0;
     DStore 4; DStore 4; DStore 4; DAsk 1; DStore 5; DStore 5; DStore 5; DHear 0; DReply 0; DHear 1; DAsk 1; DStore 6; DHear 1;
     DAsk 1; DStore 7; DHear 1; DAsk 1; DStore 8], Some (MStep 8));
   ([], [],
    [DConnect; DReceive 0 (asking "GET" ["k"]); DAsk 0; DConnect; DReceive 1 (asking "DEL" ["k"; "j"]); DAsk 1; DStore 2; DStore 1; DHear 0; DReply 0;
     DHear 1; DAsk 1; DStore 3; DHear 1; DAsk 1; DStore 4; DStore 4; DStore 4; DHear 1; DReply 1], None)].

Definition replies_of (ss : list (Service (T := BTreeMemtable))) : list (list (list Reply)) :=
  (fun x => (fun c => xc_reply <$> cn_said c) <$> sc_connections x) <$> ss.

Lemma clients_survive_crashes_witness : exists (ss : list (Service (T := BTreeMemtable))) (d : Disk),
  service_lives "db" demo_config demo_services empty_disk = Some (ss, d) /\
  replies_of ss = [[[ok; ok]; [ok]]; [[Nil]; [Integer 1]]] /\
  exists (e : Engine BTreeMemtable) (w : World) (effects : list (list (nat * Effect))) (m : gmap bytes bytes),
    engine_open "db" demo_config (mkWorld d []) = (Ok e, w) /\ no_failures w /\
    Forall2 accounts ss effects /\ map_effects (concat effects) ∅ m /\
    forall key w', no_failures w' -> fst (execute (mkCommand (bstr "GET") [key]) (e, w')) =
      match m !! key with Some value => Bulk value | None => Nil end.
Proof.
  assert (match service_lives "db" demo_config demo_services empty_disk with
    | Some (ss, d) => if names_checked d && manifest_checked d then Some (replies_of ss) else None | None => None end =
    Some [[[ok; ok]; [ok]]; [[Nil]; [Integer 1]]]) as Hc by (vm_compute; reflexivity).
  destruct (service_lives "db" demo_config demo_services empty_disk) as [[ss d]|] eqn:E; [|discriminate Hc].
  destruct (names_checked d && manifest_checked d) eqn:Ed; [|discriminate Hc]. injection Hc as Hc.
  exists ss, d. split; [reflexivity|]. split; [exact Hc|].
  apply (clients_survive_crashes "db" demo_config ss d); [by left| |by apply open_checked_ok].
  apply (service_lives_services "db" demo_config demo_services [] empty_disk ss d (services_new "db" demo_config) E).
Defined.
