(* ===== verification/Options.v ===== *)
(** * The server's options ([main.rs])

    [parse_args] over the command line, with the values each flag takes. The
    theorem: a command line written from options reads back as those options,
    whatever was given before it; a later flag wins. *)

From S2P Require Import Prelude Decimal Wal Memtable Engine.

(** [struct Options]; [Config]'s choice of a memtable is a field of its own. *)
Record Options := mkOptions { op_dir : string; op_port : Z; op_config : Config; op_memtable : Kind }.

Definition options_default : Options := mkOptions "data" 6379 config_default KBTree.

Definition memtable_kind (text : string) : string + Kind :=
  if bool_decide (text = "btree") then inr KBTree
  else if bool_decide (text = "skiplist") then inr KSkiplist
  else inl "--memtable takes btree or skiplist".

Definition sync_policy (text : string) : string + SyncPolicy :=
  if bool_decide (text = "always") then inr Always
  else if bool_decide (text = "group") then inr Group
  else
    match parse_u64 text with
    | Some ms => inr (Interval ms)
    | None => inl "--sync takes always, group, or a number of milliseconds"
    end.

Definition u16_max : Z := 65535.

Definition set_dir (dir : string) (o : Options) : Options := mkOptions dir (op_port o) (op_config o) (op_memtable o).
Definition set_port (port : Z) (o : Options) : Options := mkOptions (op_dir o) port (op_config o) (op_memtable o).
Definition set_kind (kind : Kind) (o : Options) : Options := mkOptions (op_dir o) (op_port o) (op_config o) kind.
Definition set_memtable_bytes (n : Z) (o : Options) : Options :=
  let c := op_config o in
  mkOptions (op_dir o) (op_port o) (mkConfig (cf_sync c) n (cf_l0_trigger c) (cf_fanout c)) (op_memtable o).
Definition set_sync_policy (policy : SyncPolicy) (o : Options) : Options :=
  let c := op_config o in
  mkOptions (op_dir o) (op_port o) (mkConfig policy (cf_memtable_bytes c) (cf_l0_trigger c) (cf_fanout c)) (op_memtable o).

(** [value]'s error. *)
Definition no_value (flag : string) : string := (flag +:+ " takes a value")%string.

(** [parse_args]: [inr None] when help was asked for. *)
Fixpoint parse_args (args : list string) (options : Options) : string + option Options :=
  match args with
  | [] => inr (Some options)
  | flag :: args =>
      if bool_decide (flag = "--help") || bool_decide (flag = "-h") then inr None
      else if bool_decide (flag = "--dir") then
        match args with
        | [] => inl (no_value flag)
        | value :: args => parse_args args (set_dir value options)
        end
      else if bool_decide (flag = "--port") then
        match args with
        | [] => inl (no_value flag)
        | value :: args =>
            match parse_unsigned u16_max value with
            | Some port => parse_args args (set_port port options)
            | None => inl "--port takes a port number"
            end
        end
      else if bool_decide (flag = "--memtable-bytes") then
        match args with
        | [] => inl (no_value flag)
        | value :: args =>
            match parse_u64 value with
            | Some n => parse_args args (set_memtable_bytes n options)
            | None => inl "--memtable-bytes takes a number of bytes"
            end
        end
      else if bool_decide (flag = "--sync") then
        match args with
        | [] => inl (no_value flag)
        | value :: args =>
            match sync_policy value with
            | inr policy => parse_args args (set_sync_policy policy options)
            | inl message => inl message
            end
        end
      else if bool_decide (flag = "--memtable") then
        match args with
        | [] => inl (no_value flag)
        | value :: args =>
            match memtable_kind value with
            | inr kind => parse_args args (set_kind kind options)
            | inl message => inl message
            end
        end
      else inl ("unknown option " +:+ flag)%string
  end.

(** ** Writing options out *)

Definition sync_text (policy : SyncPolicy) : string :=
  match policy with Always => "always" | Group => "group" | Interval ms => decimal ms end.

Definition kind_text (kind : Kind) : string := match kind with KBTree => "btree" | KSkiplist => "skiplist" end.

(** A command line that asks for [o]; the trigger and the fan-out have no flag. *)
Definition arguments_of (o : Options) : list string :=
  ["--dir"; op_dir o; "--port"; decimal (op_port o); "--sync"; sync_text (cf_sync (op_config o));
   "--memtable-bytes"; decimal (cf_memtable_bytes (op_config o)); "--memtable"; kind_text (op_memtable o)].

Definition options_ok (o : Options) : Prop :=
  0 <= op_port o <= u16_max /\ u64_ok (cf_memtable_bytes (op_config o)) /\
  match cf_sync (op_config o) with Interval ms => u64_ok ms | _ => True end.

(** [o], with what no flag sets taken from [before]. *)
Definition given (o before : Options) : Options :=
  let c := op_config o in
  mkOptions (op_dir o) (op_port o)
    (mkConfig (cf_sync c) (cf_memtable_bytes c) (cf_l0_trigger (op_config before)) (cf_fanout (op_config before)))
    (op_memtable o).

Lemma decimal_first n : 0 <= n -> exists d s, decimal n = String d s /\ digit_value d <> None.
Proof.
  intros Hn. unfold decimal. generalize (digit_count_pos 20 n). generalize (digit_count 20 n) as width. intros width. revert n Hn.
  induction width as [|width IH]; intros n Hn Hw; [lia|]. cbn [digits]. destruct width as [|width].
  - eexists _, _. cbn [digits]. rewrite app_string_nil. split; [done|].
    rewrite digit_value_digit; [done|]. apply Z.mod_pos_bound. lia.
  - destruct (IH (n / 10)) as (d & s & -> & Hd); [apply Z.div_pos; lia|lia|]. rewrite app_string_cons. by eexists _, _.
Qed.

Lemma sync_text_parses policy :
  match policy with Interval ms => u64_ok ms | _ => True end -> sync_policy (sync_text policy) = inr policy.
Proof.
  destruct policy as [| |ms]; [done..|]. intros Hms. cbn [sync_text]. unfold sync_policy.
  destruct (decimal_first ms ltac:(apply Hms)) as (d & s & E & Hd).
  rewrite !bool_decide_false by (rewrite E; intros [= -> _]; by apply Hd).
  unfold parse_u64. rewrite parse_decimal; [done|done|lia].
Qed.

(** One flag at a time. *)
Lemma args_dir v args o : parse_args ("--dir" :: v :: args) o = parse_args args (set_dir v o).
Proof. reflexivity. Qed.

Lemma args_port v args o : parse_args ("--port" :: v :: args) o =
  match parse_unsigned u16_max v with
  | Some port => parse_args args (set_port port o) | None => inl "--port takes a port number"
  end.
Proof. reflexivity. Qed.

Lemma args_bytes v args o : parse_args ("--memtable-bytes" :: v :: args) o =
  match parse_u64 v with
  | Some n => parse_args args (set_memtable_bytes n o) | None => inl "--memtable-bytes takes a number of bytes"
  end.
Proof. reflexivity. Qed.

Lemma args_sync v args o : parse_args ("--sync" :: v :: args) o =
  match sync_policy v with inr policy => parse_args args (set_sync_policy policy o) | inl message => inl message end.
Proof. reflexivity. Qed.

Lemma args_kind v args o : parse_args ("--memtable" :: v :: args) o =
  match memtable_kind v with inr kind => parse_args args (set_kind kind o) | inl message => inl message end.
Proof. reflexivity. Qed.

Lemma parse_arguments o before rest :
  options_ok o -> parse_args (arguments_of o ++ rest) before = parse_args rest (given o before).
Proof.
  intros (Hport & Hbytes & Hsync). unfold arguments_of. cbn [app].
  rewrite args_dir, args_port, parse_decimal by (done || (unfold u16_max, u64_max; lia)).
  rewrite args_sync, sync_text_parses by done.
  rewrite args_bytes. unfold parse_u64. rewrite parse_decimal by (done || lia).
  rewrite args_kind. by destruct o as [? ? [] []].
Qed.

(** ** What is asked for is what is used *)

(** The options that are asked for are the options that are used. The command
    line written for any options (ports up to 65535, sizes and intervals in a
    [u64]) parses to exactly those options, whatever valid flags came before it, so
    the last value given for a flag is the one that counts; [--help] after it still
    asks for help. *)
Theorem options_read_back (earlier o : Options) (Hearlier : options_ok earlier) (Hok : options_ok o) :
  parse_args (arguments_of earlier ++ arguments_of o) options_default = inr (Some (given o options_default)) /\
  parse_args (arguments_of o ++ ["--help"]) options_default = inr None.
Proof.
  split; [|by rewrite parse_arguments by done].
  rewrite parse_arguments by done. rewrite <- (app_nil_r (arguments_of o)). by rewrite parse_arguments by done.
Qed.

Lemma options_read_back_witness :
  let o := mkOptions "/srv/db" 7000 (mkConfig (Interval 5) 1024 4 10) KSkiplist in
  parse_args (arguments_of options_default ++ arguments_of o) options_default = inr (Some (given o options_default)).
Proof.
  intros o. apply (options_read_back options_default o); subst o; unfold options_ok; cbn;
    unfold u16_max, u64_ok, u64_max; lia.
Defined.
