(* ===== verification/Skiplist.v ===== *)
(** * The lock-free skip list ([memtable/skiplist.rs])

    The arena, its links and counters, and the code of [insert] and [get] cut at
    every access to a shared atomic: [thread_step] runs one caller from one access
    to the next, and a system of callers interleaves them. Accesses are sequentially
    consistent here: the [Relaxed], [Acquire], [Release] and [AcqRel] the source asks
    of each one are not modelled, so nothing below speaks of what weaker orderings
    allow. A [compare_exchange_weak] may fail for no reason. A panic is a phase of its
    own, so that not panicking is a theorem, and the [Memtable] methods report it. *)

From S2P Require Import Prelude Memtable.

Definition MAX_HEIGHT : nat := 12.
Definition BRANCHING_SHIFT : Z := 2.
Definition NIL : Z := u32_max.
Definition HEAD : Z := 0.
Definition ASSUMED_ENTRY_BYTES : Z := 96.
Definition LINKS_PER_NODE : nat := 4.
Definition MARGIN : Z := 1024.

(** ** Tower heights *)

Definition mix (value : Z) : Z :=
  let z := wrap64 (value + 0x9E3779B97F4A7C15) in
  let z := wrap64 (Z.lxor z (Z.shiftr z 30) * 0xBF58476D1CE4E5B9) in
  let z := wrap64 (Z.lxor z (Z.shiftr z 27) * 0x94D049BB133111EB) in
  Z.lxor z (Z.shiftr z 31).

(** [u64::trailing_zeros], counting up to [width] bits. *)
Fixpoint trailing_zeros (width : nat) (bits : Z) : Z :=
  match width with
  | O => 0
  | S width => if Z.odd bits then 0 else 1 + trailing_zeros width (Z.shiftr bits 1)
  end.

(** The loop of [height_for]; it turns at most [MAX_HEIGHT] times. *)
Fixpoint height_loop (fuel : nat) (bits : Z) (height : nat) : nat :=
  match fuel with
  | O => height
  | S fuel =>
      if (height <? MAX_HEIGHT)%nat && (BRANCHING_SHIFT <=? trailing_zeros 64 bits) then
        height_loop fuel (Z.shiftr bits BRANCHING_SHIFT) (S height)
      else height
  end.

Definition height_for (index : Z) : nat := height_loop MAX_HEIGHT (mix index) 1.

(** ** The arena *)

Record Entry := mkEntry {
  en_key : bytes;
  en_seq : Z;
  en_value : option bytes;
  en_tower : nat;
  en_height : nat;
}.

(** A [Node] is its [OnceLock]: empty until its one writer sets it. *)
Record SkipMemtable := mkSkip {
  sk_nodes : list (option Entry);
  sk_links : list Z;
  sk_next_node : Z;
  sk_next_link : nat;
  sk_top : nat;
  sk_bytes : Z;
  sk_budget : Z;
  sk_pressure_at : Z;
}.

Definition head_entry : Entry := mkEntry [] 0 None 0 MAX_HEIGHT.

(** [with_capacity]; the head is set in the first node. *)
Definition with_capacity (budget capacity : Z) : SkipMemtable :=
  let nodes := replicate (Z.to_nat capacity) None in
  mkSkip (<[Z.to_nat HEAD := Some head_entry]> nodes)
    (replicate (Z.to_nat capacity * LINKS_PER_NODE) NIL)
    1 MAX_HEIGHT 1 0 budget (Z.max (Z.max 0 (capacity - MARGIN)) 1).

(** [new]; the budget is a [usize]. *)
Definition sk_new (budget : Z) : SkipMemtable :=
  with_capacity budget (Z.max 0 budget / ASSUMED_ENTRY_BYTES + MARGIN + 1).

Definition set_nodes (self : SkipMemtable) nodes : SkipMemtable :=
  mkSkip nodes (sk_links self) (sk_next_node self) (sk_next_link self) (sk_top self) (sk_bytes self)
    (sk_budget self) (sk_pressure_at self).
Definition set_links (self : SkipMemtable) links : SkipMemtable :=
  mkSkip (sk_nodes self) links (sk_next_node self) (sk_next_link self) (sk_top self) (sk_bytes self)
    (sk_budget self) (sk_pressure_at self).
Definition set_next_node (self : SkipMemtable) next_node : SkipMemtable :=
  mkSkip (sk_nodes self) (sk_links self) next_node (sk_next_link self) (sk_top self) (sk_bytes self)
    (sk_budget self) (sk_pressure_at self).
Definition set_next_link (self : SkipMemtable) next_link : SkipMemtable :=
  mkSkip (sk_nodes self) (sk_links self) (sk_next_node self) next_link (sk_top self) (sk_bytes self)
    (sk_budget self) (sk_pressure_at self).
Definition set_top (self : SkipMemtable) top : SkipMemtable :=
  mkSkip (sk_nodes self) (sk_links self) (sk_next_node self) (sk_next_link self) top (sk_bytes self)
    (sk_budget self) (sk_pressure_at self).
Definition set_bytes (self : SkipMemtable) bs : SkipMemtable :=
  mkSkip (sk_nodes self) (sk_links self) (sk_next_node self) (sk_next_link self) (sk_top self) bs
    (sk_budget self) (sk_pressure_at self).

(** [entry]: [None] is the panic of a node reached before it was published. *)
Definition entry_at (self : SkipMemtable) (index : Z) : option Entry := mjoin (sk_nodes self !! Z.to_nat index).

(** [next], with its assertion: [None] is a panic. *)
Definition next (self : SkipMemtable) (index : Z) (level : nat) : option Z :=
  e ← entry_at self index;
  if (level <? en_height e)%nat then sk_links self !! (en_tower e + level)%nat else None.

(** How an entry sorts against [(key, seq)]: by key, then the newest first. *)
Definition order_of (e : Entry) (key : bytes) (seq : Z) : comparison :=
  match bytes_cmp (en_key e) key with
  | Eq => seq ?= en_seq e
  | c => c
  end.

Definition order (self : SkipMemtable) (index : Z) (key : bytes) (seq : Z) : option comparison :=
  (fun e => order_of e key seq) <$> entry_at self index.

(** ** One caller *)

(** What [insert] is given. *)
Record Mutation := mkMutation { mu_key : bytes; mu_seq : Z; mu_value : option bytes }.

(** The node a writer has taken, with the tower reserved for it. *)
Record Taken := mkTaken { tk_mut : Mutation; tk_index : Z; tk_tower : nat; tk_height : nat }.

(** What a walk down the levels is for. *)
Inductive goal :=
  | ForBottom (n : Taken)
  | ForUpper (n : Taken) (level : nat) (newest : bool)
  | ForGet (key : bytes).

Definition goal_key (g : goal) : bytes :=
  match g with ForBottom n | ForUpper n _ _ => mu_key (tk_mut n) | ForGet key => key end.
Definition goal_seq (g : goal) : Z :=
  match g with ForBottom n | ForUpper n _ _ => mu_seq (tk_mut n) | ForGet _ => u64_max end.

(** Where a caller stands: the access it makes next, with its local variables. *)
Inductive phase :=
  | Take (m : Mutation)
  | Reserve (m : Mutation) (index : Z)
  | TowerCas (m : Mutation) (index : Z) (start : nat)
  | Count (n : Taken)
  | Publish (n : Taken)
  | LoadTop (n : Taken)
  | RaiseCas (n : Taken) (top : nat)
  | Descend (g : goal)
  | Walk (g : goal) (level : nat) (node : Z) (preds succs : list Z)
  | StoreLink (n : Taken) (level : nat) (preds succs : list Z) (newest : bool)
  | Splice (n : Taken) (level : nat) (preds succs : list Z) (newest : bool)
  | Inserted (newest : bool)
  | Answered (answer : Lookup)
  | Panicked.

Definition value_bytes (value : option bytes) : Z := match value with Some value => zlen value | None => 0 end.

(** What [get] makes of the node its walk landed on. *)
Definition get_answer (self : SkipMemtable) (key : bytes) (candidate : Z) : phase :=
  if candidate =? NIL then Answered Missing
  else
    match entry_at self candidate with
    | None => Panicked
    | Some e =>
        if negb (bool_decide (en_key e = key)) then Answered Missing
        else Answered (match en_value e with Some value => Found value | None => Deleted end)
    end.

(** [descend] has returned. *)
Definition descended (self : SkipMemtable) (g : goal) (preds succs : list Z) : phase :=
  match g with
  | ForBottom n => StoreLink n 0 preds succs false
  | ForUpper n level newest => StoreLink n level preds succs newest
  | ForGet key => get_answer self key (default NIL (succs !! 0%nat))
  end.

(** The tower is raised before anything is linked: what [raise_top] does with the
    height it finds. *)
Definition raise (n : Taken) (top : nat) : phase :=
  if (top <? tk_height n)%nat then RaiseCas n top else Descend (ForBottom n).

(** A level has been linked: the next one, or done. *)
Definition linked (n : Taken) (level : nat) (preds succs : list Z) (newest : bool) : phase :=
  if (S level <? tk_height n)%nat then StoreLink n (S level) preds succs newest else Inserted newest.

(** A level has been walked to its end: the next one down, or [descend] returns. *)
Definition walked (self : SkipMemtable) (g : goal) (level : nat) (node found : Z) (preds succs : list Z) : phase :=
  let preds := <[level := node]> preds in
  let succs := <[level := found]> succs in
  match level with
  | O => descended self g preds succs
  | S level => Walk g level node preds succs
  end.

(** A turn of the loop in [reserve_tower], for a tower at [start]. *)
Definition reserve_tower (weak : bool) (self : SkipMemtable) (m : Mutation) (index : Z) (start : nat) : SkipMemtable * phase :=
  let height := Nat.min (height_for index) (length (sk_links self) - start) in
  if (height =? 0)%nat then (self, Panicked)
  else if weak || negb (sk_next_link self =? start)%nat then (self, TowerCas m index (sk_next_link self))
  else (set_next_link self (start + height), Count (mkTaken m index start height)).

(** One access, in one order with everyone else's: sequential consistency is assumed
    of the atomics, which is more than the orderings in the source ask for. [weak]
    makes a [compare_exchange_weak] fail for no reason; the swaps of [Splice] are
    [compare_exchange], which does not. *)
Definition thread_step (weak : bool) (self : SkipMemtable) (p : phase) : SkipMemtable * phase :=
  match p with
  | Take m =>
      let index := sk_next_node self in
      (set_next_node self (wrap64 (index + 1)),
       if (index <? zlen (sk_nodes self)) && (index <=? u32_max) then Reserve m index else Panicked)
  | Reserve m index => (self, TowerCas m index (sk_next_link self))
  | TowerCas m index start => reserve_tower weak self m index start
  | Count n =>
      (set_bytes self (wrap64 (sk_bytes self + (zlen (mu_key (tk_mut n)) + value_bytes (mu_value (tk_mut n))))), Publish n)
  | Publish n =>
      match entry_at self (tk_index n) with
      | Some _ => (self, Panicked)
      | None =>
          let m := tk_mut n in
          let e := mkEntry (mu_key m) (mu_seq m) (mu_value m) (tk_tower n) (tk_height n) in
          (set_nodes self (<[Z.to_nat (tk_index n) := Some e]> (sk_nodes self)), LoadTop n)
      end
  | LoadTop n => (self, raise n (sk_top self))
  | RaiseCas n top =>
      if weak || negb (sk_top self =? top)%nat then (self, raise n (sk_top self))
      else (set_top self (tk_height n), Descend (ForBottom n))
  | Descend g =>
      let preds := replicate MAX_HEIGHT HEAD in
      let succs := replicate MAX_HEIGHT NIL in
      (self,
       match sk_top self with
       | O => descended self g preds succs
       | S level => if (level <? MAX_HEIGHT)%nat then Walk g level HEAD preds succs else Panicked
       end)
  | Walk g level node preds succs =>
      (self,
       match next self node level with
       | None => Panicked
       | Some found =>
           if found =? NIL then walked self g level node found preds succs
           else
             match order self found (goal_key g) (goal_seq g) with
             | None => Panicked
             | Some Lt => Walk g level found preds succs
             | Some _ => walked self g level node found preds succs
             end
       end)
  | StoreLink n level preds succs newest =>
      let slot := (tk_tower n + level)%nat in
      (set_links self (<[slot := default NIL (succs !! level)]> (sk_links self)), Splice n level preds succs newest)
  | Splice n level preds succs newest =>
      let pred := default HEAD (preds !! level) in
      match entry_at self pred with
      | None => (self, Panicked)
      | Some e =>
          let slot := (en_tower e + level)%nat in
          if bool_decide (sk_links self !! slot = Some (default NIL (succs !! level))) then
            let self := set_links self (<[slot := tk_index n]> (sk_links self)) in
            let newest :=
              match level with
              | O => (pred =? HEAD) || negb (bool_decide (en_key e = mu_key (tk_mut n)))
              | S _ => newest
              end in
            (self, linked n level preds succs newest)
          else (self, Descend (match level with O => ForBottom n | S _ => ForUpper n level newest end))
      end
  | Inserted _ | Answered _ | Panicked => (self, p)
  end.

Definition finished (p : phase) : bool := match p with Inserted _ | Answered _ | Panicked => true | _ => false end.

(** One caller with nobody else about, to its end, no swap failing for no reason. *)
Fixpoint run_alone (fuel : nat) (self : SkipMemtable) (p : phase) : SkipMemtable * phase :=
  match fuel with
  | O => (self, p)
  | S fuel =>
      if finished p then (self, p)
      else let '(self, p) := thread_step false self p in run_alone fuel self p
  end.

(** One that may see swaps fail for no reason: at each access, whether it would. *)
Fixpoint run_weakly (flags : list bool) (self : SkipMemtable) (p : phase) : SkipMemtable * phase :=
  match flags with
  | [] => (self, p)
  | weak :: flags =>
      if finished p then (self, p)
      else let '(self, p) := thread_step weak self p in run_weakly flags self p
  end.

(** A walk turns at most once per node and level; a caller left alone walks twice at
    most, the first time over links that may have changed under it. *)
Definition alone_fuel (self : SkipMemtable) : nat := (56 + 2 * MAX_HEIGHT * S (length (sk_nodes self)))%nat.

(** ** The [Memtable] methods

    Each by one caller with nobody else about. [None] is a panic: that the fuel is
    enough, and that swaps failing for no reason change nothing, is proved in
    [SkipTable]. *)

Definition sk_insert (self : SkipMemtable) (key : bytes) (seq : Z) (value : option bytes) : option bool * SkipMemtable :=
  let '(self, p) := run_alone (alone_fuel self) self (Take (mkMutation key seq value)) in
  (match p with Inserted newest => Some newest | _ => None end, self).

Definition sk_get (self : SkipMemtable) (key : bytes) : option Lookup :=
  match snd (run_alone (alone_fuel self) self (Descend (ForGet key))) with Answered answer => Some answer | _ => None end.

(** The walk along the bottom level that [len] and [for_each] make, at most one turn
    per node: what each entry does to [count], and whether it starts a new key. *)
Fixpoint len_loop (fuel : nat) (self : SkipMemtable) (count : Z) (previous : option bytes) (node : Z) : option Z :=
  match fuel with
  | O => None
  | S fuel =>
      if node =? NIL then Some count
      else
        match entry_at self node, next self node 0 with
        | Some e, Some node' =>
            if bool_decide (previous <> Some (en_key e)) then len_loop fuel self (count + 1) (Some (en_key e)) node'
            else len_loop fuel self count previous node'
        | _, _ => None
        end
  end.

Definition sk_len (self : SkipMemtable) : option Z :=
  node ← next self HEAD 0;
  len_loop (S (length (sk_nodes self))) self 0 None node.

(** The head is there from the start, so this one does not panic. *)
Definition sk_is_empty (self : SkipMemtable) : bool := default NIL (next self HEAD 0) =? NIL.

Fixpoint for_each_loop {S} (fuel : nat) (self : SkipMemtable) (visit : bytes -> Z -> option bytes -> stm S unit)
  (previous : option bytes) (node : Z) : stm S unit :=
  match fuel with
  | O => expect None
  | Datatypes.S fuel =>
      if node =? NIL then mret tt
      else
        e ← expect (entry_at self node);
        previous ←
          (if bool_decide (previous <> Some (en_key e)) then
             _ ← visit (en_key e) (en_seq e) (en_value e); mret (Some (en_key e))
           else mret previous);
        node ← expect (next self node 0);
        for_each_loop fuel self visit previous node
  end.

Definition sk_for_each {S} (self : SkipMemtable) (visit : bytes -> Z -> option bytes -> stm S unit) : stm S unit :=
  node ← expect (next self HEAD 0);
  for_each_loop (Datatypes.S (length (sk_nodes self))) self visit None node.

Definition sk_approx_bytes (self : SkipMemtable) : Z :=
  if sk_next_node self <? sk_pressure_at self then sk_bytes self else Z.max (sk_bytes self) (sk_budget self).

#[export] Instance skip_memtable : Memtable SkipMemtable := {
  mt_build := sk_new;
  mt_insert := sk_insert;
  mt_get := sk_get;
  mt_len := sk_len;
  mt_is_empty := sk_is_empty;
  mt_for_each := @sk_for_each;
  mt_approx_bytes := sk_approx_bytes;
}.
