(* ===== verification/SkipSpec.v ===== *)
(** * The skip list under concurrent callers

    The invariant of the arena and of every caller in the middle of an operation,
    kept by every access any of them makes: each level is a sorted list from the
    head, an upper level holds nodes of the one below, and no access reads or
    writes outside its node's tower. From it: the table is linearizable, an insert
    at the swap of its bottom link, a lookup at its last read. *)

From stdpp Require Import sorting.
From S2P Require Import Prelude Memtable Skiplist.

(** ** The order of versions *)

Definition vcmp (k1 : bytes) (s1 : Z) (k2 : bytes) (s2 : Z) : comparison :=
  match bytes_cmp k1 k2 with Eq => s2 ?= s1 | c => c end.

Lemma order_vcmp e key seq : order_of e key seq = vcmp (en_key e) (en_seq e) key seq.
Proof. reflexivity. Qed.

Lemma vcmp_antisym k1 s1 k2 s2 : vcmp k2 s2 k1 s1 = CompOpp (vcmp k1 s1 k2 s2).
Proof.
  unfold vcmp. rewrite (bytes_cmp_antisym k1 k2). destruct (bytes_cmp k1 k2); cbn; try done.
  by rewrite Z.compare_antisym.
Qed.

Lemma vcmp_lt k1 s1 k2 s2 : vcmp k1 s1 k2 s2 = Lt <-> key_lt k1 k2 \/ (k1 = k2 /\ s2 < s1).
Proof.
  unfold vcmp. destruct (bytes_cmp_spec k1 k2) as [->|H|H].
  - rewrite Z.compare_lt_iff. split; [by right|]. intros [H%key_lt_irrefl|[_ H]]; done.
  - split; [by left|done].
  - split; [done|]. intros [H'|[-> _]]; [|by apply key_lt_irrefl in H]. exfalso. key_order.
Qed.

Lemma vcmp_ge k1 s1 k2 s2 : vcmp k1 s1 k2 s2 <> Lt <-> key_lt k2 k1 \/ (k1 = k2 /\ s1 <= s2).
Proof.
  unfold vcmp. destruct (bytes_cmp_spec k1 k2) as [->|H|H].
  - destruct (Z.compare_spec s2 s1); split; try done; try (right; split; [done|lia]);
      intros [H'%key_lt_irrefl|[_ H']]; done || lia.
  - split; [done|]. intros [H'|[-> _]]; [|by apply key_lt_irrefl in H]. exfalso. key_order.
  - split; [by left|done].
Qed.

Definition cell : Type := Z * Entry.

Definition entry_le (a b : cell) : Prop := order_of (snd b) (en_key (snd a)) (en_seq (snd a)) <> Lt.

Lemma entry_le_trans a b c : entry_le a b -> entry_le b c -> entry_le a c.
Proof.
  unfold entry_le. rewrite !order_vcmp, !vcmp_ge. intros [H1|[E1 H1]] [H2|[E2 H2]].
  - left. key_order.
  - left. rewrite E2. done.
  - left. by rewrite <- E1.
  - right. split; [congruence|lia].
Qed.

Lemma before_entry_le a b key seq :
  order_of (snd a) key seq = Lt -> order_of (snd b) key seq <> Lt -> entry_le a b.
Proof.
  unfold entry_le. rewrite !order_vcmp, !vcmp_ge, vcmp_lt. intros [H1|[E1 H1]] [H2|[E2 H2]].
  - left. key_order.
  - left. by rewrite E2.
  - left. by rewrite E1.
  - right. split; [congruence|lia].
Qed.

Lemma entry_le_before a b key seq :
  entry_le a b -> order_of (snd b) key seq = Lt -> order_of (snd a) key seq = Lt.
Proof.
  unfold entry_le. rewrite !order_vcmp, !vcmp_ge, !vcmp_lt. intros [H1|[E1 H1]] [H2|[E2 H2]].
  - left. key_order.
  - left. by rewrite <- E2.
  - left. by rewrite <- E1.
  - right. split; [congruence|lia].
Qed.

Lemma entry_le_beyond a b key seq :
  entry_le a b -> order_of (snd a) key seq <> Lt -> order_of (snd b) key seq <> Lt.
Proof. intros Hle Ha Hb. apply Ha. by eapply entry_le_before. Qed.

(** ** Levels *)

(** Following a level from a node: the nodes met, to the end. *)
Fixpoint path (sk : SkipMemtable) (l : nat) (from : Z) (cs : list cell) : Prop :=
  match cs with
  | [] => next sk from l = Some NIL
  | c :: cs => next sk from l = Some (fst c) /\ path sk l (fst c) cs
  end.

Lemma path_ext sk sk' l cs : forall from,
  (forall j, j = from \/ j ∈ cs.*1 -> next sk' j l = next sk j l) -> path sk l from cs -> path sk' l from cs.
Proof.
  induction cs as [|c cs IH]; intros from Hn; cbn [path].
  - rewrite Hn by by left. done.
  - rewrite Hn by by left. intros [H1 H2]. split; [done|]. apply IH; [|done]. intros j [->|Hj]; apply Hn; right; cbn.
    + by left.
    + by right.
Qed.

(** What a link of the path points to. *)
Definition first_of (cs : list cell) : Z := match cs with [] => NIL | c :: _ => fst c end.

Lemma path_split sk l cs : forall from pred,
  path sk l from cs -> pred = from \/ pred ∈ cs.*1 ->
  exists pre post, cs = pre ++ post /\ last (from :: pre.*1) = Some pred /\ next sk pred l = Some (first_of post).
Proof.
  induction cs as [|c cs IH]; intros from pred Hp Hin; cbn [path] in Hp.
  - destruct Hin as [->|Hin]; [|by apply elem_of_nil in Hin]. by exists [], [].
  - destruct Hp as [H1 H2]. destruct (decide (pred = from)) as [->|Hne]; [by exists [], (c :: cs)|].
    destruct (IH (fst c) pred H2) as (pre & post & -> & Hl & Hn).
    { destruct Hin as [->|Hin]; [done|]. cbn in Hin. by apply elem_of_cons in Hin. }
    exists (c :: pre), post. split; [done|]. split; [|done]. cbn [fmap list_fmap]. by rewrite last_cons_cons.
Qed.

Lemma path_first sk l from cs : path sk l from cs -> next sk from l = Some (first_of cs).
Proof. destruct cs as [|c cs]; cbn; [done|]. by intros [? _]. Qed.

(** A new node between [pred] and what [pred] pointed to. *)
Lemma path_splice sk sk' l i e pre : forall from pred post,
  path sk l from (pre ++ post) -> last (from :: pre.*1) = Some pred ->
  NoDup (from :: (pre ++ post).*1) ->
  next sk' pred l = Some i -> next sk' i l = Some (first_of post) ->
  (forall j, j <> pred -> j = from \/ j ∈ (pre ++ post).*1 -> next sk' j l = next sk j l) ->
  path sk' l from (pre ++ (i, e) :: post).
Proof.
  induction pre as [|c pre IH]; intros from pred post Hp Hl Hnd Hpred Hi Hsame; cbn [app path].
  - injection Hl as <-. split; [done|]. cbn [fst]. destruct post as [|c post]; cbn [app path first_of] in *; [done|].
    split; [done|]. destruct Hp as [_ Hp]. eapply path_ext; [|exact Hp].
    apply NoDup_cons in Hnd as [Hn _]. intros j Hj. apply Hsame.
    + intros ->. apply Hn. cbn. apply elem_of_cons. destruct Hj as [->|Hj]; auto.
    + right. cbn. apply elem_of_cons. destruct Hj as [->|Hj]; auto.
  - cbn [app path fmap list_fmap] in *. rewrite last_cons_cons in Hl. destruct Hp as [H1 H2].
    apply NoDup_cons in Hnd as [Hn Hnd]. split.
    + rewrite Hsame; [done| |by left]. intros ->. apply Hn.
      apply last_Some_elem_of in Hl. rewrite fmap_app. apply elem_of_cons in Hl as [->|Hl]; [by left|].
      right. apply elem_of_app. by left.
    + eapply IH; try done. intros j Hj Hin. apply Hsame; [done|]. right. apply elem_of_cons. destruct Hin as [->|Hin]; auto.
Qed.

(** ** The invariant *)

(** Ghost state: the cells of each level, and the slots each node index has been
    given. *)
Record table_inv (sk : SkipMemtable) (chain : nat -> list cell) (tw : gmap Z (nat * nat)) : Prop := {
  ti_next : 1 <= sk_next_node sk;
  ti_links : (sk_next_link sk <= length (sk_links sk))%nat;
  ti_top : (1 <= sk_top sk <= MAX_HEIGHT)%nat;
  ti_head : entry_at sk HEAD = Some head_entry;
  ti_tower : forall i t h, tw !! i = Some (t, h) ->
    0 <= i < sk_next_node sk /\ (1 <= h <= MAX_HEIGHT)%nat /\ (t + h <= sk_next_link sk)%nat;
  ti_apart : forall i j t h t' h', i <> j -> tw !! i = Some (t, h) -> tw !! j = Some (t', h') ->
    (t + h <= t' \/ t' + h' <= t)%nat;
  ti_entry : forall i e, 0 <= i -> entry_at sk i = Some e -> tw !! i = Some (en_tower e, en_height e);
  ti_path : forall l, (l < MAX_HEIGHT)%nat -> path sk l HEAD (chain l);
  ti_cells : forall l i e, (i, e) ∈ chain l ->
    0 < i < NIL /\ entry_at sk i = Some e /\ (l < en_height e)%nat /\ en_seq e <= u64_max;
  ti_sorted : forall l, StronglySorted entry_le (chain l);
  ti_nodup : forall l, NoDup (chain l).*1;
  ti_sub : forall l, chain (S l) ⊆ chain l;
}.

(** A link to a node that sorts before [(key, seq)], or to the head. *)
Definition placed (chain : nat -> list cell) (l : nat) (node : Z) (key : bytes) (seq : Z) : Prop :=
  node = HEAD \/ exists e, (node, e) ∈ chain l /\ order_of e key seq = Lt.

(** A link to a node that does not, or to the end. *)
Definition beyond (chain : nat -> list cell) (l : nat) (found : Z) (key : bytes) (seq : Z) : Prop :=
  found = NIL \/ exists e, (found, e) ∈ chain l /\ order_of e key seq <> Lt.

Definition bracket (chain : nat -> list cell) (key : bytes) (seq : Z) (preds succs : list Z) (l : nat) : Prop :=
  exists p s, preds !! l = Some p /\ succs !! l = Some s /\ placed chain l p key seq /\ beyond chain l s key seq.

Definition entry_of (n : Taken) : Entry :=
  mkEntry (mu_key (tk_mut n)) (mu_seq (tk_mut n)) (mu_value (tk_mut n)) (tk_tower n) (tk_height n).

(** A writer's node: its tower is its own. *)
Definition taken_ok (sk : SkipMemtable) (tw : gmap Z (nat * nat)) (n : Taken) : Prop :=
  0 < tk_index n < zlen (sk_nodes sk) /\ tk_index n < NIL /\ tw !! tk_index n = Some (tk_tower n, tk_height n) /\ mu_seq (tk_mut n) <= u64_max.

(** Published, and linked at the levels below [level] and nowhere else. *)
Definition linked_below (sk : SkipMemtable) (chain : nat -> list cell) (n : Taken) (level : nat) : Prop :=
  entry_at sk (tk_index n) = Some (entry_of n) /\
  (forall l, (l < level)%nat -> (tk_index n, entry_of n) ∈ chain l) /\
  (forall l, (level <= l)%nat -> tk_index n ∉ (chain l).*1).

Definition goal_inv (sk : SkipMemtable) (chain : nat -> list cell) (tw : gmap Z (nat * nat)) (g : goal) : Prop :=
  match g with
  | ForBottom n => taken_ok sk tw n /\ linked_below sk chain n 0 /\ (tk_height n <= sk_top sk)%nat
  | ForUpper n level _ =>
      taken_ok sk tw n /\ linked_below sk chain n level /\ (tk_height n <= sk_top sk)%nat /\ (1 <= level < tk_height n)%nat
  | ForGet _ => True
  end.

(** About to link at [level], between what the walk found there. *)
Definition linking (sk : SkipMemtable) (chain : nat -> list cell) (tw : gmap Z (nat * nat)) (n : Taken) (level : nat)
  (preds succs : list Z) : Prop :=
  taken_ok sk tw n /\ linked_below sk chain n level /\ (tk_height n <= sk_top sk)%nat /\ (level < tk_height n)%nat /\
  forall l, (level <= l < MAX_HEIGHT)%nat -> bracket chain (mu_key (tk_mut n)) (mu_seq (tk_mut n)) preds succs l.

Definition untaken (sk : SkipMemtable) (tw : gmap Z (nat * nat)) (m : Mutation) (index : Z) : Prop :=
  0 < index < zlen (sk_nodes sk) /\ index < NIL /\ index < sk_next_node sk /\ entry_at sk index = None /\ tw !! index = None /\
  mu_seq m <= u64_max.

(** The arena has no node, or no link slot, left to give. *)
Definition exhausted (sk : SkipMemtable) : Prop :=
  zlen (sk_nodes sk) < sk_next_node sk \/ sk_next_link sk = length (sk_links sk).

Definition thread_inv (sk : SkipMemtable) (chain : nat -> list cell) (tw : gmap Z (nat * nat)) (p : phase) : Prop :=
  match p with
  | Take m => mu_seq m <= u64_max
  | Reserve m index => untaken sk tw m index
  | TowerCas m index start => untaken sk tw m index /\ (start <= sk_next_link sk)%nat
  | Count n | Publish n =>
      taken_ok sk tw n /\ entry_at sk (tk_index n) = None /\ forall l, tk_index n ∉ (chain l).*1
  | LoadTop n => taken_ok sk tw n /\ linked_below sk chain n 0
  | RaiseCas n top => taken_ok sk tw n /\ linked_below sk chain n 0 /\ (top < tk_height n)%nat
  | Descend g => goal_inv sk chain tw g
  | Walk g level node preds succs =>
      goal_inv sk chain tw g /\ (level < MAX_HEIGHT)%nat /\ length preds = MAX_HEIGHT /\ length succs = MAX_HEIGHT /\
      placed chain level node (goal_key g) (goal_seq g) /\
      forall l, (level < l < MAX_HEIGHT)%nat -> bracket chain (goal_key g) (goal_seq g) preds succs l
  | StoreLink n level preds succs _ => linking sk chain tw n level preds succs
  | Splice n level preds succs _ =>
      linking sk chain tw n level preds succs /\ exists s, succs !! level = Some s /\ next sk (tk_index n) level = Some s
  | Inserted _ | Answered _ => True
  | Panicked => exhausted sk
  end.

(** The index a caller has taken and not finished with. *)
Definition owned (p : phase) : option Z :=
  match p with
  | Reserve _ index | TowerCas _ index _ => Some index
  | Count n | Publish n | LoadTop n | RaiseCas n _ | Descend (ForBottom n) | Descend (ForUpper n _ _)
  | Walk (ForBottom n) _ _ _ _ | Walk (ForUpper n _ _) _ _ _ _ | StoreLink n _ _ _ _ | Splice n _ _ _ _ => Some (tk_index n)
  | _ => None
  end.

(** What the caller owning [i] may have done, as everyone else sees it. *)
Record extends (i : option Z) (sk : SkipMemtable) (chain : nat -> list cell) (tw : gmap Z (nat * nat))
  (sk' : SkipMemtable) (chain' : nat -> list cell) (tw' : gmap Z (nat * nat)) : Prop := {
  ex_nodes : zlen (sk_nodes sk') = zlen (sk_nodes sk);
  ex_next : sk_next_node sk <= sk_next_node sk';
  ex_link : (sk_next_link sk <= sk_next_link sk')%nat;
  ex_top : (sk_top sk <= sk_top sk')%nat;
  ex_exhausted : exhausted sk -> exhausted sk';
  ex_entry : forall j e, entry_at sk j = Some e -> entry_at sk' j = Some e;
  ex_none : forall j, 0 <= j -> Some j <> i -> entry_at sk j = None -> entry_at sk' j = None;
  ex_tw : forall j v, tw !! j = Some v -> tw' !! j = Some v;
  ex_tw_none : forall j, Some j <> i -> tw !! j = None -> tw' !! j = None;
  ex_chain : forall l, chain l ⊆ chain' l;
  ex_new : forall l c, c ∈ chain' l -> c ∈ chain l \/ Some (fst c) = i;
  ex_own : forall j l v, 0 < j -> Some j <> i -> j ∉ (chain l).*1 -> next sk j l = Some v -> next sk' j l = Some v;
}.

Lemma extends_refl i sk chain tw : extends i sk chain tw sk chain tw.
Proof. split; auto; lia. Qed.

Section Mono.
Context {i : option Z} {sk sk' : SkipMemtable} {chain chain' : nat -> list cell} {tw tw' : gmap Z (nat * nat)}.
Context (Hext : extends i sk chain tw sk' chain' tw').

Lemma placed_mono l node key seq : placed chain l node key seq -> placed chain' l node key seq.
Proof. intros [->|(e & Hin & Ho)]; [by left|]. right. exists e. split; [|done]. by apply Hext. Qed.

Lemma beyond_mono l found key seq : beyond chain l found key seq -> beyond chain' l found key seq.
Proof. intros [->|(e & Hin & Ho)]; [by left|]. right. exists e. split; [|done]. by apply Hext. Qed.

Lemma bracket_mono key seq preds succs l : bracket chain key seq preds succs l -> bracket chain' key seq preds succs l.
Proof.
  intros (p & s & Hp & Hs & H1 & H2). exists p, s. split_and!; [done|done|by apply placed_mono|by apply beyond_mono].
Qed.

Lemma taken_mono n : taken_ok sk tw n -> taken_ok sk' tw' n.
Proof.
  intros (H1 & H2 & H3 & H4). split_and!; [lia|rewrite (ex_nodes _ _ _ _ _ _ _ Hext); lia|done|by apply Hext|done].
Qed.

Lemma not_in_mono l j : Some j <> i -> j ∉ (chain l).*1 -> j ∉ (chain' l).*1.
Proof.
  intros Hne Hn (c & -> & Hc)%list_elem_of_fmap. apply Hext in Hc as [Hc|Hc]; [|done].
  apply Hn, list_elem_of_fmap. by exists c.
Qed.

Lemma linked_below_mono n level :
  Some (tk_index n) <> i -> linked_below sk chain n level -> linked_below sk' chain' n level.
Proof.
  intros Hne (H1 & H2 & H3). split_and!; [by apply Hext|intros; apply Hext; auto|intros; apply not_in_mono; auto].
Qed.

Lemma goal_mono g : (forall j, owned (Descend g) = Some j -> Some j <> i) -> goal_inv sk chain tw g -> goal_inv sk' chain' tw' g.
Proof.
  pose proof (ex_top _ _ _ _ _ _ _ Hext). destruct g as [n|n level newest|key]; cbn; [..|done]; intros Hne.
  - intros (H1 & H2 & H3). split_and!; [by apply taken_mono|apply linked_below_mono; auto|lia].
  - intros (H1 & H2 & H3 & H4). split_and!; [by apply taken_mono|apply linked_below_mono; auto|lia..].
Qed.

Lemma linking_mono n level preds succs :
  Some (tk_index n) <> i -> linking sk chain tw n level preds succs -> linking sk' chain' tw' n level preds succs.
Proof.
  pose proof (ex_top _ _ _ _ _ _ _ Hext). intros Hne (H1 & H2 & H3 & H4 & H5).
  split; [by apply taken_mono|]. split; [by apply linked_below_mono|]. split; [lia|]. split; [lia|].
  intros. apply bracket_mono. auto.
Qed.

Lemma untaken_mono m j : Some j <> i -> untaken sk tw m j -> untaken sk' tw' m j.
Proof.
  pose proof (ex_next _ _ _ _ _ _ _ Hext). pose proof (ex_nodes _ _ _ _ _ _ _ Hext).
  intros Hne (H1 & H2 & H3 & H4 & H5 & H6). split_and!; try lia; [apply Hext; auto; lia|by apply Hext].
Qed.

(** Nobody else's progress disturbs a caller. *)
Lemma thread_mono p : (forall j, owned p = Some j -> Some j <> i) -> thread_inv sk chain tw p -> thread_inv sk' chain' tw' p.
Proof.
  destruct p; cbn [thread_inv owned]; intros Hne; try done.
  - apply untaken_mono. auto.
  - pose proof (ex_link _ _ _ _ _ _ _ Hext). intros [H1 H2]. split; [|lia]. revert H1. apply untaken_mono. auto.
  - intros (H1 & H2 & H3). split_and!; [by apply taken_mono|apply Hext; auto; destruct H1; lia|intros; apply not_in_mono; auto].
  - intros (H1 & H2 & H3). split_and!; [by apply taken_mono|apply Hext; auto; destruct H1; lia|intros; apply not_in_mono; auto].
  - intros (H1 & H2). split; [by apply taken_mono|apply linked_below_mono; auto].
  - intros (H1 & H2 & H3). split_and!; [by apply taken_mono|apply linked_below_mono; auto|done].
  - apply goal_mono. done.
  - intros (H1 & H2 & H3 & H4 & H5 & H6). split_and!; try done.
    + apply goal_mono; [|done]. intros j Hj. apply Hne. by destruct g.
    + by apply placed_mono.
    + intros. apply bracket_mono. auto.
  - apply linking_mono. auto.
  - intros (H1 & s & Hs & Hn). split; [apply linking_mono; auto|]. exists s. split; [done|].
    destruct H1 as ((? & _) & (_ & _ & Hl) & _). apply Hext; [lia|auto|by apply Hl|done].
  - apply Hext.
Qed.
End Mono.

(** ** Reading and writing the arena *)

Section Table.
Context {sk : SkipMemtable} {chain : nat -> list cell} {tw : gmap Z (nat * nat)}.
Context (Hinv : table_inv sk chain tw).

Lemma entry_slot j e l : 0 <= j -> entry_at sk j = Some e -> (l < en_height e)%nat ->
  (en_tower e + l < length (sk_links sk))%nat.
Proof.
  intros Hj He Hl. apply (ti_entry _ _ _ Hinv) in He; [|done]. apply (ti_tower _ _ _ Hinv) in He as (_ & _ & H).
  pose proof (ti_links _ _ _ Hinv). lia.
Qed.

(** A write to one link changes that link. *)
Lemma next_set_link p e l v j l' :
  0 <= p -> entry_at sk p = Some e -> (l < en_height e)%nat -> 0 <= j ->
  next (set_links sk (<[(en_tower e + l)%nat := v]> (sk_links sk))) j l' =
  if bool_decide (j = p /\ l' = l) then Some v else next sk j l'.
Proof.
  intros Hp He Hl Hj. pose proof (entry_slot p e l Hp He Hl) as Hslot.
  unfold next. change (entry_at (set_links sk _) j) with (entry_at sk j). cbn [sk_links set_links].
  case_bool_decide as Hd.
  - destruct Hd as [-> ->]. rewrite He. cbn [mbind option_bind]. destruct (Nat.ltb_spec l (en_height e)); [|lia].
    by apply list_lookup_insert_eq.
  - destruct (entry_at sk j) as [e'|] eqn:Ej; [|done]. cbn [mbind option_bind]. destruct (Nat.ltb_spec l' (en_height e')); [|done].
    rewrite list_lookup_insert_ne; [done|]. intros E. apply Hd.
    destruct (decide (j = p)) as [->|Hne].
    + rewrite He in Ej. injection Ej as <-. split; [done|lia].
    + apply (ti_entry _ _ _ Hinv) in He; [|done]. apply (ti_entry _ _ _ Hinv) in Ej; [|done].
      destruct (ti_apart _ _ _ Hinv _ _ _ _ _ _ Hne Ej He); lia.
Qed.

Lemma chain_not_head l : HEAD ∉ (chain l).*1.
Proof. intros ([i e] & E & Hc)%list_elem_of_fmap. apply (ti_cells _ _ _ Hinv) in Hc as (? & _). cbn in E. unfold HEAD in *. lia. Qed.

Lemma chain_index l j : j ∈ (chain l).*1 -> 0 < j < NIL /\ exists e, (j, e) ∈ chain l.
Proof.
  intros ([i e] & -> & Hc)%list_elem_of_fmap. pose proof (ti_cells _ _ _ Hinv _ _ _ Hc) as (? & _). cbn. split; [done|by exists e].
Qed.

(** Following a link from the head or from a node of the level. *)
Lemma level_split l node : (l < MAX_HEIGHT)%nat -> node = HEAD \/ node ∈ (chain l).*1 ->
  exists pre post, chain l = pre ++ post /\ last (HEAD :: pre.*1) = Some node /\ next sk node l = Some (first_of post).
Proof. intros Hl Hn. apply path_split; [by apply (ti_path _ _ _ Hinv)|done]. Qed.

Lemma chain_above l l' : (l <= l')%nat -> chain l' ⊆ chain l.
Proof.
  induction 1 as [|l' Hle IH]; [done|]. intros c Hc. apply IH. by apply (ti_sub _ _ _ Hinv).
Qed.

Lemma placed_down l l' node key seq : (l <= l')%nat -> placed chain l' node key seq -> placed chain l node key seq.
Proof.
  intros Hle [->|(e & Hin & Ho)]; [by left|]. right. exists e. split; [|done]. by eapply chain_above.
Qed.

Lemma placed_index l node key seq : placed chain l node key seq -> node = HEAD \/ node ∈ (chain l).*1.
Proof. intros [->|(e & Hin & _)]; [by left|]. right. apply list_elem_of_fmap. by exists (node, e). Qed.

Lemma placed_entry l node key seq : (l < MAX_HEIGHT)%nat -> placed chain l node key seq ->
  0 <= node /\ exists e, entry_at sk node = Some e /\ (l < en_height e)%nat.
Proof.
  intros Hl [->|(e & Hin & _)].
  - split; [unfold HEAD; lia|]. exists head_entry. split; [apply Hinv|done].
  - apply (ti_cells _ _ _ Hinv) in Hin as (? & He & Hh & _). split; [lia|by exists e].
Qed.

(** What a level holds around a bracketing pair of links: everything up to the first
    sorts before, everything from the second on does not. *)
Lemma split_placed l pre post node key seq :
  chain l = pre ++ post -> last (HEAD :: pre.*1) = Some node -> placed chain l node key seq ->
  forall c, c ∈ pre -> order_of (snd c) key seq = Lt.
Proof.
  intros Hc Hl Hp. destruct pre as [|c0 pre0] using rev_ind; [by intros c ?%elem_of_nil|]. clear IHpre0.
  rewrite fmap_app in Hl. cbn in Hl. rewrite app_comm_cons, last_snoc in Hl. injection Hl as <-.
  assert (c0 ∈ chain l) as Hin by (rewrite Hc, !elem_of_app; left; right; left).
  assert (order_of (snd c0) key seq = Lt) as H0.
  { destruct c0 as [i0 e0]. pose proof (ti_cells _ _ _ Hinv _ _ _ Hin) as (? & E0 & _). cbn in *.
    destruct Hp as [->|(e & Hin' & Ho)]; [unfold HEAD in *; lia|].
    apply (ti_cells _ _ _ Hinv) in Hin' as (_ & E1 & _). congruence. }
  pose proof (ti_sorted _ _ _ Hinv l) as Hs. rewrite Hc, <- app_assoc in Hs.
  intros c [Hcin| ->%list_elem_of_singleton]%elem_of_app; [|done].
  eapply entry_le_before; [|exact H0]. eapply StronglySorted_app_1_elem_of; [exact Hs|done|]. left.
Qed.

Lemma split_beyond l pre post key seq :
  chain l = pre ++ post -> beyond chain l (first_of post) key seq ->
  forall c, c ∈ post -> order_of (snd c) key seq <> Lt.
Proof.
  intros Hc Hb. destruct post as [|c0 post]; [by intros c ?%elem_of_nil|]. cbn [first_of] in Hb.
  assert (c0 ∈ chain l) as Hin by (rewrite Hc, elem_of_app; right; left).
  assert (order_of (snd c0) key seq <> Lt) as H0.
  { destruct c0 as [i0 e0]. pose proof (ti_cells _ _ _ Hinv _ _ _ Hin) as (? & E0 & _). cbn in *.
    destruct Hb as [->|(e & Hin' & Ho)]; [lia|].
    apply (ti_cells _ _ _ Hinv) in Hin' as (_ & E1 & _). congruence. }
  pose proof (ti_sorted _ _ _ Hinv l) as Hs. rewrite Hc in Hs. apply StronglySorted_app_1_r in Hs.
  apply StronglySorted_inv in Hs as [_ Hs]. rewrite Forall_forall in Hs.
  intros c [->|Hcin]%elem_of_cons; [done|]. eapply entry_le_beyond; [by apply Hs|done].
Qed.
End Table.

(** ** The accesses, one by one *)

Section Steps.
Context {sk : SkipMemtable} {chain : nat -> list cell} {tw : gmap Z (nat * nat)}.
Context (Hinv : table_inv sk chain tw).

(** Counters move, the arena does not. *)
Lemma counters_step sk' :
  sk_nodes sk' = sk_nodes sk -> sk_links sk' = sk_links sk -> sk_next_link sk' = sk_next_link sk ->
  sk_next_node sk <= sk_next_node sk' -> (sk_top sk <= sk_top sk' <= MAX_HEIGHT)%nat ->
  table_inv sk' chain tw /\ forall i, extends i sk chain tw sk' chain tw.
Proof.
  intros En El Enl Hnext Htop.
  assert (forall j, entry_at sk' j = entry_at sk j) as Ee by (intros j; unfold entry_at; by rewrite En).
  assert (forall j l, next sk' j l = next sk j l) as Ex by (intros j l; unfold next; by rewrite Ee, El).
  destruct Hinv as [H2 H3 H4 H5 H6 H7 H8 H9 H10 H11 H12 H13]. split.
  - split; rewrite ?En, ?El, ?Enl, ?Ee; try done; try lia.
    + intros i t h Ht. destruct (H6 i t h Ht) as (? & ? & ?). split_and!; lia.
    + intros i e. rewrite Ee. auto.
    + intros l Hl. eapply path_ext; [|by apply H9]. intros; apply Ex.
    + intros l i e Hc. rewrite Ee. auto.
  - intros i. split; rewrite ?En, ?El, ?Enl; try done; try lia.
    + unfold exhausted. rewrite En, El, Enl. lia.
    + intros j e. by rewrite Ee.
    + intros j _ _. by rewrite Ee.
    + auto.
    + intros j l v _ _ _. by rewrite Ex.
Qed.

Lemma height_loop_pos fuel : forall bits h, (1 <= h <= MAX_HEIGHT)%nat -> (1 <= height_loop fuel bits h <= MAX_HEIGHT)%nat.
Proof.
  induction fuel as [|fuel IH]; intros bits h Hh; cbn [height_loop]; [done|].
  destruct (Nat.ltb_spec h MAX_HEIGHT); cbn [andb]; [|done]. destruct (_ <=? _); [|done]. apply IH. lia.
Qed.

Lemma height_for_range index : (1 <= height_for index <= MAX_HEIGHT)%nat.
Proof. apply height_loop_pos. unfold MAX_HEIGHT. lia. Qed.

(** A tower's slots are given out. *)
Lemma tower_step m index height :
  untaken sk tw m index -> (1 <= height <= MAX_HEIGHT)%nat ->
  (sk_next_link sk + height <= length (sk_links sk))%nat ->
  let sk' := set_next_link sk (sk_next_link sk + height)%nat in
  let tw' := <[index := (sk_next_link sk, height)]> tw in
  table_inv sk' chain tw' /\ extends (Some index) sk chain tw sk' chain tw' /\
  thread_inv sk' chain tw' (Count (mkTaken m index (sk_next_link sk) height)).
Proof.
  intros (U1 & U1' & U2 & U3 & U4 & U5) Hh Hroom sk' tw'. pose proof Hinv as [H2 H3 H4 H5 H6 H7 H8 H9 H10 H11 H12 H13].
  assert (forall j t h, tw !! j = Some (t, h) -> j <> index) as Hne by (intros j t h E ->; congruence).
  split_and!.
  - split; cbn [sk' set_next_link sk_nodes sk_links sk_next_node sk_next_link sk_top]; try done.
    + intros i t h. unfold tw'. rewrite lookup_insert_Some. intros [[<- [= <- <-]]|[_ E]]; [lia|].
      destruct (H6 i t h E) as (? & ? & ?). lia.
    + intros i j t h t' h' Hij. unfold tw'. rewrite !lookup_insert_Some.
      intros [[<- [= <- <-]]|[_ E]] [[<- [= <- <-]]|[_ E']]; [done|..].
      * destruct (H6 j t' h' E') as (_ & _ & ?). lia.
      * destruct (H6 i t h E) as (_ & _ & ?). lia.
      * by eapply H7.
    + intros i e Hi He. unfold tw'. rewrite lookup_insert_ne; [by apply H8|]. intros <-.
      change (entry_at sk index = Some e) in He. congruence.
    + intros l Hl. eapply path_ext; [|by apply H9]. done.
  - split; cbn [sk' set_next_link sk_nodes sk_links sk_next_node sk_next_link sk_top]; try done; try lia; auto.
    + unfold exhausted. cbn. lia.
    + intros j v E. unfold tw'. destruct v. rewrite lookup_insert_ne; [done|]. by eapply not_eq_sym, Hne.
    + intros j Hj E. unfold tw'. rewrite lookup_insert_ne; [done|]. congruence.
  - cbn [thread_inv]. split_and!; cbn [tk_index tk_tower tk_height tk_mut]; try done; try lia.
    + split; [done|]. split; [done|]. split; [|done]. cbn. unfold tw'. by rewrite lookup_insert_eq.
    + intros l (_ & e & Hc)%(chain_index Hinv). apply H10 in Hc as (_ & He & _). congruence.
Qed.

Lemma entry_publish i e j : 0 <= i < zlen (sk_nodes sk) ->
  entry_at (set_nodes sk (<[Z.to_nat i := Some e]> (sk_nodes sk))) j =
  if bool_decide (Z.to_nat j = Z.to_nat i) then Some e else entry_at sk j.
Proof.
  intros Hi. unfold entry_at. cbn [sk_nodes set_nodes]. unfold zlen in Hi. case_bool_decide as Hj.
  - rewrite Hj, list_lookup_insert_eq; [done|lia].
  - by rewrite list_lookup_insert_ne.
Qed.

(** The node's lock is set. *)
Lemma publish_step n :
  thread_inv sk chain tw (Publish n) ->
  let sk' := set_nodes sk (<[Z.to_nat (tk_index n) := Some (entry_of n)]> (sk_nodes sk)) in
  table_inv sk' chain tw /\ extends (Some (tk_index n)) sk chain tw sk' chain tw /\ thread_inv sk' chain tw (LoadTop n).
Proof.
  intros ((T1 & T1' & T2 & T3) & Hnone & Hout) sk'. pose proof Hinv as [H2 H3 H4 H5 H6 H7 H8 H9 H10 H11 H12 H13].
  assert (forall j, entry_at sk' j = if bool_decide (Z.to_nat j = Z.to_nat (tk_index n)) then Some (entry_of n) else entry_at sk j)
    as Ee by (intros; apply entry_publish; lia).
  assert (forall j e, entry_at sk j = Some e -> entry_at sk' j = Some e) as Hkeep.
  { intros j e He. rewrite Ee. case_bool_decide as Hj; [|done]. unfold entry_at in Hnone, He. rewrite Hj in He. congruence. }
  assert (forall j l v, next sk j l = Some v -> next sk' j l = Some v) as Hnext.
  { intros j l v. unfold next. change (sk_links sk') with (sk_links sk). intros (e & He & Hv)%bind_Some.
    rewrite (Hkeep j e He). done. }
  assert (zlen (sk_nodes sk') = zlen (sk_nodes sk)) as Esize by (unfold zlen; cbn; by rewrite length_insert).
  assert (forall l from cs, path sk l from cs -> path sk' l from cs) as Hpath.
  { intros l from cs. revert from. induction cs as [|c cs IH]; intros from; cbn [path]; [apply Hnext|].
    intros [? ?]. split; [by apply Hnext|by apply IH]. }
  split_and!.
  - split; rewrite ?Esize; try done; auto.
    + intros i e Hi. rewrite Ee. case_bool_decide as Hj; [|by apply H8].
      intros [= <-]. replace i with (tk_index n) by lia. done.
    + intros l i e Hc. destruct (H10 l i e Hc) as (? & ? & ? & ?). split_and!; auto; lia.
  - split; rewrite ?Esize; try done; auto.
    + unfold exhausted. rewrite Esize. done.
    + intros j Hj Hne Hn. rewrite Ee. rewrite bool_decide_false; [done|]. intros E. apply Hne. f_equal. lia.
  - split; [split; [rewrite Esize; lia|done]|]. split_and!; [rewrite Ee; by rewrite bool_decide_true|lia|auto].
Qed.

(** A write to a link the level does not pass through. *)
Lemma own_link_step n level v :
  taken_ok sk tw n -> linked_below sk chain n level -> (level < tk_height n)%nat ->
  let sk' := set_links sk (<[(tk_tower n + level)%nat := v]> (sk_links sk)) in
  table_inv sk' chain tw /\ extends (Some (tk_index n)) sk chain tw sk' chain tw /\ next sk' (tk_index n) level = Some v.
Proof.
  intros (T1 & T1' & T2 & T3) (L1 & L2 & L3) Hlev sk'. pose proof Hinv as [H2 H3 H4 H5 H6 H7 H8 H9 H10 H11 H12 H13].
  assert (forall j l, 0 <= j -> next sk' j l = if bool_decide (j = tk_index n /\ l = level) then Some v else next sk j l) as Ex.
  { intros j l Hj. apply (next_set_link Hinv (tk_index n) (entry_of n) level v j l); try done; lia. }
  assert (length (sk_links sk') = length (sk_links sk)) as El by (cbn; apply length_insert).
  split_and!.
  - split; rewrite ?El; try done. intros l Hl. eapply path_ext; [|by apply H9].
    intros j Hj. rewrite Ex; [rewrite bool_decide_false; [done|]|].
    + intros [-> ->]. destruct Hj as [Hj|Hj]; [unfold HEAD in *; lia|by apply (L3 level)].
    + destruct Hj as [->|Hj%(chain_index Hinv)]; [unfold HEAD|]; lia.
  - split; try done; try lia.
    + unfold exhausted. by rewrite El.
    + auto.
    + intros j l w Hj Hne Hnin. rewrite Ex by lia. rewrite bool_decide_false; [done|]. intros [-> _]. done.
  - rewrite Ex by lia. by rewrite bool_decide_true.
Qed.

Lemma bracket_lookup key seq preds succs l : bracket chain key seq preds succs l ->
  placed chain l (default HEAD (preds !! l)) key seq /\ beyond chain l (default NIL (succs !! l)) key seq /\
  succs !! l = Some (default NIL (succs !! l)).
Proof. intros (p & s & -> & -> & ? & ?). by split_and!. Qed.

Lemma store_step n level preds succs newest :
  linking sk chain tw n level preds succs ->
  let sk' := set_links sk (<[(tk_tower n + level)%nat := default NIL (succs !! level)]> (sk_links sk)) in
  table_inv sk' chain tw /\ extends (Some (tk_index n)) sk chain tw sk' chain tw /\
  thread_inv sk' chain tw (Splice n level preds succs newest).
Proof.
  intros (K1 & K2 & K3 & K4 & K5) sk'. destruct (own_link_step n level (default NIL (succs !! level)) K1 K2 K4) as (S1 & S2 & S3).
  fold sk' in S1, S2, S3. split_and!; [done|done|]. split; [by repeat (split; [done|])|].
  destruct (ti_tower _ _ _ Hinv _ _ _ (proj1 (proj2 (proj2 K1)))) as (_ & ? & _).
  destruct (bracket_lookup _ _ _ _ _ (K5 level ltac:(lia))) as (_ & _ & E). eexists. by split; [|].
Qed.

(** The node is linked at [level] between [pre] and [post]. *)
Definition with_cell (level : nat) (pre post : list cell) (c : cell) : nat -> list cell :=
  fun l => if decide (l = level) then pre ++ c :: post else chain l.

(** Where a node goes at a level: after [pred], the last that sorts before it. *)
Record gap (n : Taken) (level : nat) (pred : Z) (e : Entry) (pre post : list cell) : Prop := {
  gp_level : (level < tk_height n <= MAX_HEIGHT)%nat;
  gp_cells : chain level = pre ++ post;
  gp_last : last (HEAD :: pre.*1) = Some pred;
  gp_pred : 0 <= pred /\ entry_at sk pred = Some e /\ (level < en_height e)%nat;
  gp_other : pred <> tk_index n;
  gp_next : next sk (tk_index n) level = Some (first_of post);
  gp_before : forall c, c ∈ pre -> order_of (snd c) (mu_key (tk_mut n)) (mu_seq (tk_mut n)) = Lt;
  gp_after : forall c, c ∈ post -> order_of (snd c) (mu_key (tk_mut n)) (mu_seq (tk_mut n)) <> Lt;
}.

Lemma splice_gap n level preds succs newest e :
  thread_inv sk chain tw (Splice n level preds succs newest) ->
  entry_at sk (default HEAD (preds !! level)) = Some e ->
  sk_links sk !! (en_tower e + level)%nat = Some (default NIL (succs !! level)) ->
  exists pre post, gap n level (default HEAD (preds !! level)) e pre post.
Proof.
  intros [((T1 & T1' & T2 & T3) & (L1 & L2 & L3) & K3 & K4 & K5) (s & Es & Hown)] Epred Ecas. set (pred := default HEAD _) in *.
  destruct (ti_tower _ _ _ Hinv _ _ _ T2) as (_ & Hh & _). assert (Hl12 : (level < MAX_HEIGHT)%nat) by lia.
  destruct (bracket_lookup _ _ _ _ _ (K5 level ltac:(lia))) as (Hplaced & Hbeyond & Esucc). fold pred in Hplaced.
  set (succ := default NIL (succs !! level)) in *. rewrite Es in Esucc. injection Esucc as ->.
  destruct (placed_entry Hinv level pred _ _ Hl12 Hplaced) as (Hp0 & e' & Ee' & He). rewrite Epred in Ee'. injection Ee' as <-.
  destruct (level_split Hinv level pred Hl12 (placed_index _ _ _ _ Hplaced)) as (pre & post & Echain & Hlast & Hnext).
  assert (next sk pred level = Some succ) as Hn2.
  { unfold next. rewrite Epred. cbn [mbind option_bind]. by destruct (Nat.ltb_spec level (en_height e)); [|lia]. }
  rewrite Hn2 in Hnext. injection Hnext as Esucc. exists pre, post.
  split; [lia|done|done|done| |by rewrite <- Esucc|by eapply (split_placed Hinv level pre post pred)|eapply (split_beyond Hinv level pre post); [done|by rewrite <- Esucc]].
  intros E. apply placed_index in Hplaced as [E'|Hin]; [rewrite E' in E; unfold HEAD in E; lia|]. rewrite E in Hin. by apply (L3 level) in Hin.
Qed.

Section Splicing.
Context (n : Taken) (level : nat) (pred : Z) (e : Entry) (pre post : list cell).
Context (Hgap : gap n level pred e pre post) (Htaken : taken_ok sk tw n) (Hlinked : linked_below sk chain n level).

#[local] Abbreviation sk' := (set_links sk (<[(en_tower e + level)%nat := tk_index n]> (sk_links sk))).
#[local] Abbreviation chain' := (with_cell level pre post (tk_index n, entry_of n)).

Lemma splice_links j l : 0 <= j -> next sk' j l = if bool_decide (j = pred /\ l = level) then Some (tk_index n) else next sk j l.
Proof. destruct Hgap as [_ _ _ (G1 & G2 & G3) _ _ _ _]. intros Hj. by apply (next_set_link Hinv pred e level (tk_index n) j l). Qed.

Lemma spliced_old l c : c ∈ chain l -> c ∈ chain' l.
Proof.
  intros Hc. unfold with_cell. destruct (decide (l = level)) as [->|]; [|done].
  rewrite (gp_cells _ _ _ _ _ _ Hgap) in Hc. rewrite elem_of_app, elem_of_cons. apply elem_of_app in Hc. tauto.
Qed.

Lemma spliced_new l c : c ∈ chain' l -> c ∈ chain l \/ (l = level /\ c = (tk_index n, entry_of n)).
Proof.
  unfold with_cell. destruct (decide (l = level)) as [->|]; [|by left]. rewrite (gp_cells _ _ _ _ _ _ Hgap), !elem_of_app, elem_of_cons. tauto.
Qed.

Lemma spliced_in : (tk_index n, entry_of n) ∈ chain' level.
Proof. unfold with_cell. rewrite decide_True by done. apply elem_of_app. right. left. Qed.

Lemma spliced_path l : (l < MAX_HEIGHT)%nat -> path sk' l HEAD (chain' l).
Proof.
  destruct Hgap as [G1 Echain Hlast G2 Hpn Hown _ _], Htaken as (T1 & _). pose proof (ti_path _ _ _ Hinv) as Hpath. intros Hl.
  assert (forall j, j = HEAD \/ j ∈ (chain l).*1 -> 0 <= j) as Hpos.
  { intros j [->|Hj%(chain_index Hinv)]; [unfold HEAD|]; lia. }
  unfold with_cell. destruct (decide (l = level)) as [->|Hne].
  - eapply (path_splice sk); [rewrite <- Echain; by apply Hpath|exact Hlast| |..].
    + rewrite <- Echain. constructor; [apply (chain_not_head Hinv)|apply (ti_nodup _ _ _ Hinv)].
    + rewrite splice_links by apply G2. by rewrite bool_decide_true.
    + rewrite splice_links by lia. rewrite bool_decide_false by (intros [? ?]; congruence). done.
    + rewrite <- Echain. intros j Hj Hjin. rewrite splice_links by auto. by rewrite bool_decide_false by (intros [? ?]; congruence).
  - eapply path_ext; [|by apply Hpath]. intros j Hj. rewrite splice_links by auto. by rewrite bool_decide_false by (intros [? ?]; congruence).
Qed.

Lemma spliced_sorted l : StronglySorted entry_le (chain' l).
Proof.
  destruct Hgap as [_ Echain _ _ _ _ Hpre Hpost]. pose proof (ti_sorted _ _ _ Hinv) as Hs. unfold with_cell. destruct (decide (l = level)) as [->|]; [|done].
  specialize (Hs level). rewrite Echain in Hs. apply StronglySorted_app in Hs as (S1 & S2 & S3).
  apply StronglySorted_app. split_and!; [|done|constructor; [done|]].
  - intros c c' Hc [->|Hc']%elem_of_cons; [|by apply S1]. unfold entry_le. cbn [snd en_key en_seq entry_of].
    apply (before_entry_le c (0, entry_of n) (mu_key (tk_mut n)) (mu_seq (tk_mut n))); [by apply Hpre|].
    cbn [snd]. rewrite order_vcmp, vcmp_ge. right. split; [done|]. cbn. lia.
  - apply Forall_forall. intros c Hc. unfold entry_le. cbn [snd en_key en_seq entry_of]. by apply Hpost.
Qed.

Lemma spliced_table : table_inv sk' chain' tw.
Proof.
  pose proof Hinv as [H2 H3 H4 H5 H6 H7 H8 H9 H10 H11 H12 H13]. destruct Htaken as (T1 & T1' & T2 & T3), Hlinked as (L1 & L2 & L3).
  assert (length (sk_links sk') = length (sk_links sk)) as El by (cbn; apply length_insert).
  destruct (ti_tower _ _ _ Hinv _ _ _ T2) as (_ & Hh & _).
  split; rewrite ?El; try done; [apply spliced_path| |apply spliced_sorted|..].
  - intros l i e' [Hc|[-> [= -> ->]]]%spliced_new; [by apply H10|]. split_and!; try done; try lia.
    apply (gp_level _ _ _ _ _ _ Hgap).
  - intros l. unfold with_cell. destruct (decide (l = level)) as [->|]; [|done].
    pose proof (H12 level) as Hnd. specialize (L3 level ltac:(lia)). rewrite (gp_cells _ _ _ _ _ _ Hgap), fmap_app in *. cbn [fmap list_fmap fst].
    rewrite <- Permutation_middle. by constructor.
  - intros l c [Hc|[E ->]]%spliced_new; [by apply spliced_old, H13|]. apply spliced_old, L2. lia.
Qed.

Lemma spliced_extends : extends (Some (tk_index n)) sk chain tw sk' chain' tw.
Proof.
  assert (length (sk_links sk') = length (sk_links sk)) as El by (cbn; apply length_insert).
  split; try done; try lia.
  - unfold exhausted. by rewrite El.
  - intros l c. apply spliced_old.
  - intros l c [Hc|[_ ->]]%spliced_new; [by left|by right].
  - intros j l w Hj Hne Hnin Hw. rewrite splice_links by lia. case_bool_decide as Hd; [|done]. destruct Hd as [-> ->]. exfalso.
    destruct Hgap as [_ Echain Hlast _ _ _ _ _]. apply last_Some_elem_of in Hlast.
    apply elem_of_cons in Hlast as [->|Hp]; [unfold HEAD in Hj; lia|]. apply Hnin. rewrite Echain, fmap_app. apply elem_of_app. by left.
Qed.
End Splicing.

Lemma splice_step n level preds succs newest e :
  thread_inv sk chain tw (Splice n level preds succs newest) ->
  let pred := default HEAD (preds !! level) in
  entry_at sk pred = Some e ->
  sk_links sk !! (en_tower e + level)%nat = Some (default NIL (succs !! level)) ->
  let sk' := set_links sk (<[(en_tower e + level)%nat := tk_index n]> (sk_links sk)) in
  exists pre post, gap n level pred e pre post /\
    let chain' := with_cell level pre post (tk_index n, entry_of n) in
    table_inv sk' chain' tw /\ extends (Some (tk_index n)) sk chain tw sk' chain' tw /\
    forall newest', thread_inv sk' chain' tw (linked n level preds succs newest').
Proof.
  intros Hp pred Epred Ecas sk'. destruct (splice_gap n level preds succs newest e Hp Epred Ecas) as (pre & post & Hgap).
  exists pre, post. split; [done|]. intros chain'. destruct Hp as [(T & L & K3 & K4 & K5) _].
  split; [by eapply spliced_table|]. split; [by eapply spliced_extends|].
  intros newest'. unfold linked. destruct (Nat.ltb_spec (S level) (tk_height n)); [|done]. destruct L as (L1 & L2 & L3). cbn [thread_inv].
  split; [exact T|]. split; [split_and!|].
  - done.
  - intros l Hl. destruct (decide (l = level)) as [->|]; [apply spliced_in|]. eapply spliced_old; [done|]. apply L2. lia.
  - intros l Hl. unfold chain', with_cell. rewrite decide_False by lia. apply L3. lia.
  - split; [done|]. split; [done|]. intros l Hl. destruct (K5 l ltac:(lia)) as (p & s & Hp & Hs & Hpl & Hbe).
    exists p, s. split_and!; try done.
    + destruct Hpl as [->|(e' & Hin' & Ho)]; [by left|]. right. exists e'. split; [by eapply spliced_old|done].
    + destruct Hbe as [->|(e' & Hin' & Ho)]; [by left|]. right. exists e'. split; [by eapply spliced_old|done].
Qed.

End Steps.

(** ** What the bottom level holds *)

Definition cell_version (c : cell) : bytes * version := (en_key (snd c), (en_seq (snd c), en_value (snd c))).

Definition held (cs : list cell) : gmap bytes version := list_to_map (cell_version <$> cs).

Lemma held_cons c cs : held (c :: cs) = <[en_key (snd c) := (en_seq (snd c), en_value (snd c))]> (held cs).
Proof. reflexivity. Qed.

Lemma held_app_none cs cs' key : (forall c, c ∈ cs -> en_key (snd c) <> key) -> held (cs ++ cs') !! key = held cs' !! key.
Proof.
  induction cs as [|c cs IH]; intros Hn; [done|]. cbn [app]. rewrite held_cons, lookup_insert_ne.
  - apply IH. intros c' Hc'. apply Hn. by right.
  - apply Hn. left.
Qed.

Lemma held_none cs key : (forall c, c ∈ cs -> en_key (snd c) <> key) -> held cs !! key = None.
Proof. intros Hn. rewrite <- (app_nil_r cs), held_app_none by done. apply lookup_empty. Qed.

(** Past everything that sorts before [(key, seq)]: the first cell with the key is the
    first of the rest, if it has it. *)
Lemma held_rest cs key seq :
  StronglySorted entry_le cs -> (forall c, c ∈ cs -> order_of (snd c) key seq <> Lt) ->
  held cs !! key = match cs with
                   | c :: _ => if decide (en_key (snd c) = key) then Some (en_seq (snd c), en_value (snd c)) else None
                   | [] => None
                   end.
Proof.
  intros Hs Hge. destruct cs as [|c cs]; [done|]. rewrite held_cons. destruct (decide (en_key (snd c) = key)) as [<-|Hne].
  - by rewrite lookup_insert_eq.
  - rewrite lookup_insert_ne by done. apply held_none. intros c' Hc' E.
    apply StronglySorted_inv in Hs as [_ Hf]. rewrite Forall_forall in Hf. specialize (Hf c' Hc').
    unfold entry_le in Hf. rewrite order_vcmp, vcmp_ge in Hf.
    specialize (Hge c ltac:(left)). rewrite order_vcmp, vcmp_ge in Hge. rewrite E in Hf.
    destruct Hge as [Hge|[Hge _]]; [|done]. destruct Hf as [Hf|[Hf _]]; [key_order|]. by subst key.
Qed.

(** [get]'s target sorts before every version of its key. *)
Lemma before_all e key : en_seq e <= u64_max -> order_of e key u64_max = Lt -> en_key e <> key.
Proof. intros Hs. rewrite order_vcmp, vcmp_lt. intros [H|[_ H]] E; [rewrite E in H; by apply key_lt_irrefl in H|lia]. Qed.

(** Inserting a version that is not there yet. *)
Lemma held_insert pre post c :
  let key := en_key (snd c) in let seq := en_seq (snd c) in
  StronglySorted entry_le (pre ++ post) ->
  (forall c', c' ∈ pre -> order_of (snd c') key seq = Lt) ->
  (forall c', c' ∈ post -> order_of (snd c') key seq <> Lt) ->
  fresh_for (held (pre ++ post)) key seq ->
  held (pre ++ c :: post) = spec_insert (held (pre ++ post)) key seq (en_value (snd c)) /\
  spec_newest (held (pre ++ post)) key seq =
    match last pre with Some c' => negb (bool_decide (en_key (snd c') = key)) | None => true end.
Proof.
  intros key seq Hs Hpre Hpost Hfresh. apply StronglySorted_app in Hs as (Hmid & Hs1 & Hs2).
  destruct (decide (Exists (fun c' : cell => en_key (snd c') = key) pre)) as [(c1 & Hc1 & Ek)%Exists_exists|Hnone].
  - (* a newer version comes before: nothing changes *)
    assert (spec_newest (held (pre ++ post)) key seq = false) as Hold.
    { clear Hs1 Hmid Hfresh. induction pre as [|c0 pre IH]; [by apply elem_of_nil in Hc1|].
      cbn [app]. rewrite held_cons. unfold spec_newest. destruct (decide (en_key (snd c0) = key)) as [E0|Hne].
      - rewrite E0, lookup_insert_eq. specialize (Hpre c0 ltac:(left)). rewrite order_vcmp, vcmp_lt in Hpre.
        destruct Hpre as [Hlt|[_ Hlt]]; [rewrite E0 in Hlt; by apply key_lt_irrefl in Hlt|]. apply Z.ltb_ge. lia.
      - rewrite lookup_insert_ne by done. apply IH; [intros; apply Hpre; by right|].
        apply elem_of_cons in Hc1 as [->|?]; done. }
    rewrite Hold. unfold spec_insert. rewrite Hold. split.
    + clear Hold Hfresh Hs1 Hmid. induction pre as [|c0 pre IH]; [by apply elem_of_nil in Hc1|]. cbn [app]. rewrite !held_cons.
      destruct (decide (en_key (snd c0) = key)) as [E0|Hne].
      * rewrite E0. apply map_eq. intros k. destruct (decide (k = key)) as [->|Hk]; [by rewrite !lookup_insert_eq|].
        rewrite !lookup_insert_ne by done. clear -Hk. induction pre as [|c0 pre IH]; cbn [app]; rewrite ?held_cons.
        -- by rewrite lookup_insert_ne.
        -- destruct (decide (k = en_key (snd c0))) as [->|]; [by rewrite !lookup_insert_eq|by rewrite !lookup_insert_ne].
      * f_equal. apply IH; [intros; apply Hpre; by right|apply elem_of_cons in Hc1 as [->|?]; done].
    + destruct (last pre) as [c2|] eqn:El; [|by destruct pre using rev_ind; [apply elem_of_nil in Hc1|rewrite last_snoc in El]].
      rewrite bool_decide_true; [done|]. apply last_Some in El as [pre' ->].
      assert (order_of (snd c2) key seq = Lt) as Hc2 by (apply Hpre, elem_of_app; right; left).
      apply elem_of_app in Hc1 as [Hc1| ->%list_elem_of_singleton]; [|done].
      assert (entry_le c1 c2) as Hle by (eapply StronglySorted_app_1_elem_of; [exact Hs1|done|left]).
      unfold entry_le in Hle. rewrite order_vcmp, vcmp_ge, Ek in Hle. rewrite order_vcmp, vcmp_lt in Hc2.
      destruct Hle as [Hle|[<- _]]; [|done]. destruct Hc2 as [Hc2|[Hc2 _]]; [key_order|done].
  - (* the newest of its key *)
    assert (forall c', c' ∈ pre -> en_key (snd c') <> key) as Hne by (intros c' ? ?; apply Hnone, Exists_exists; by exists c').
    assert (spec_newest (held (pre ++ post)) key seq = true) as Hnew.
    { unfold spec_newest. unfold fresh_for in Hfresh. rewrite held_app_none in * by done.
      rewrite (held_rest post key seq Hs2 Hpost) in *. destruct post as [|c0 post]; [done|].
      destruct (decide (en_key (snd c0) = key)) as [E0|]; [|done].
      specialize (Hpost c0 ltac:(left)). rewrite order_vcmp, vcmp_ge in Hpost.
      destruct Hpost as [Hlt|[_ Hle]]; [rewrite E0 in Hlt; by apply key_lt_irrefl in Hlt|].
      apply Z.ltb_lt. destruct (decide (en_seq (snd c0) = seq)) as [Es|]; [|lia].
      by destruct (Hfresh (en_value (snd c0))); rewrite Es. }
    rewrite Hnew. unfold spec_insert. rewrite Hnew. split.
    + clear -Hne. induction pre as [|c0 pre IH]; cbn [app]; rewrite ?held_cons; [done|].
      rewrite IH by (intros; apply Hne; by right). apply insert_insert_ne, Hne. left.
    + destruct (last pre) as [c2|] eqn:El; [|done]. rewrite bool_decide_false; [done|]. apply Hne. by apply last_Some_elem_of.
Qed.

(** ** Every access *)

(** What an access does to the map the table stands for, and what it answers: an
    insert takes effect when its bottom link is swapped, a lookup when it reads the
    last link of its walk. Everything else leaves the map alone, and only taking a
    node or a tower can panic. *)
Definition effect (p p' : phase) (m m' : gmap bytes version) : Prop :=
  match p, p' with
  | Take _, Panicked | TowerCas _ _ _, Panicked | Panicked, Panicked => m' = m
  | _, Panicked => False
  | Splice n O _ _ _, StoreLink _ _ _ _ newest | Splice n O _ _ _, Inserted newest =>
      let mut := tk_mut n in
      fresh_for m (mu_key mut) (mu_seq mut) ->
      newest = spec_newest m (mu_key mut) (mu_seq mut) /\ m' = spec_insert m (mu_key mut) (mu_seq mut) (mu_value mut)
  | Walk (ForGet key) _ _ _ _, Answered answer => answer = answer_of (m !! key) /\ m' = m
  | _, _ => m' = m
  end.

Section Step.
Context {sk : SkipMemtable} {chain : nat -> list cell} {tw : gmap Z (nat * nat)}.
Context (Hinv : table_inv sk chain tw).

Lemma walk_answer key node found :
  placed chain 0 node key u64_max -> next sk node 0 = Some found -> beyond chain 0 found key u64_max ->
  get_answer sk key found = Answered (answer_of (held (chain 0%nat) !! key)).
Proof.
  intros Hp Hn Hb. assert (0 < MAX_HEIGHT)%nat as H0 by (unfold MAX_HEIGHT; lia).
  destruct (level_split Hinv 0 node H0 (placed_index _ _ _ _ Hp)) as (pre & post & Echain & Hlast & Hnext).
  rewrite Hn in Hnext. injection Hnext as ->.
  pose proof (split_placed Hinv 0 pre post node _ _ Echain Hlast Hp) as Hpre.
  pose proof (split_beyond Hinv 0 pre post _ _ Echain Hb) as Hpost.
  assert (held (chain 0%nat) !! key = held post !! key) as ->.
  { rewrite Echain. apply held_app_none. intros [i e] Hc. apply before_all; [|by apply (Hpre (i, e))].
    apply (ti_cells _ _ _ Hinv 0 i). rewrite Echain. apply elem_of_app. by left. }
  rewrite (held_rest post key u64_max); [| |done].
  2:{ pose proof (ti_sorted _ _ _ Hinv 0) as Hs. rewrite Echain in Hs. by apply StronglySorted_app_1_r in Hs. }
  unfold get_answer. destruct post as [|[i e] post]; cbn [first_of fst snd]; [done|].
  destruct (ti_cells _ _ _ Hinv 0 i e) as (Hi & He & _ & _); [rewrite Echain; apply elem_of_app; right; left|].
  destruct (Z.eqb_spec i NIL); [lia|]. rewrite He.
  destruct (decide (en_key e = key)); [rewrite bool_decide_true by done|rewrite bool_decide_false by done]; cbn; [|done].
  by destruct (en_value e).
Qed.

(** A level has been walked to where the target belongs. *)
Lemma walked_inv g level node found preds succs :
  thread_inv sk chain tw (Walk g level node preds succs) -> next sk node level = Some found ->
  beyond chain level found (goal_key g) (goal_seq g) ->
  let p' := walked sk g level node found preds succs in
  thread_inv sk chain tw p' /\
  effect (Walk g level node preds succs) p' (held (chain 0%nat)) (held (chain 0%nat)) /\ owned p' = owned (Walk g level node preds succs).
Proof.
  intros (Hg & Hl & Lp & Ls & Hp & Hb) Hn Hbe p'.
  assert (forall l, (level <= l < MAX_HEIGHT)%nat ->
    bracket chain (goal_key g) (goal_seq g) (<[level := node]> preds) (<[level := found]> succs) l) as Hbr.
  { intros l Hll. destruct (decide (l = level)) as [->|Hne].
    - exists node, found. rewrite !list_lookup_insert_eq by lia. by split_and!.
    - destruct (Hb l ltac:(lia)) as (p & s & E1 & E2 & ? & ?). exists p, s. rewrite !list_lookup_insert_ne by done. by split_and!. }
  unfold p', walked. destruct level as [|level].
  - unfold descended. destruct g as [n|n level newest|key]; cbn [thread_inv goal_inv owned effect] in *.
    + destruct Hg as (G1 & G2 & G3). destruct (ti_tower _ _ _ Hinv _ _ _ (proj1 (proj2 (proj2 G1)))) as (_ & ? & _).
      split_and!; try done. split; [done|]. split; [done|]. split; [done|]. split; [lia|]. intros l Hll. apply Hbr. lia.
    + destruct Hg as (G1 & G2 & G3 & G4). split_and!; try done.
      split; [done|]. split; [done|]. split; [done|]. split; [lia|]. intros l Hll. apply Hbr. lia.
    + rewrite list_lookup_insert_eq by lia. change (default NIL (Some found)) with found. rewrite (walk_answer key node found) by done. by split_and!.
  - split; [|split; [by destruct g|by destruct g]]. cbn [thread_inv]. split; [done|]. split; [lia|].
    split; [by rewrite length_insert|]. split; [by rewrite length_insert|]. split.
    + eapply placed_down; [exact Hinv| |exact Hp]. lia.
    + intros l Hll. apply Hbr. lia.
Qed.

Lemma walk_inv g level node preds succs :
  thread_inv sk chain tw (Walk g level node preds succs) ->
  let p' := snd (thread_step false sk (Walk g level node preds succs)) in
  thread_inv sk chain tw p' /\
  effect (Walk g level node preds succs) p' (held (chain 0%nat)) (held (chain 0%nat)) /\ owned p' = owned (Walk g level node preds succs).
Proof.
  intros Hw. pose proof Hw as (Hg & Hl & Lp & Ls & Hp & Hb). cbn [thread_step snd].
  destruct (level_split Hinv level node Hl (placed_index _ _ _ _ Hp)) as (pre & post & Echain & Hlast & Hnext).
  rewrite Hnext. destruct (Z.eqb_spec (first_of post) NIL) as [E|Hne].
  { apply walked_inv; [done|done|by left]. }
  destruct post as [|[i e] post]; [done|]. cbn [first_of fst] in *.
  assert ((i, e) ∈ chain level) as Hin by (rewrite Echain; apply elem_of_app; right; left).
  destruct (ti_cells _ _ _ Hinv level i e Hin) as (Hi & He & _). unfold order. rewrite He. cbn [fmap option_fmap option_map].
  destruct (order_of e (goal_key g) (goal_seq g)) eqn:Eo.
  - apply walked_inv; [done|done|]. right. exists e. split; [done|]. by rewrite Eo.
  - split; [|split; by destruct g]. cbn [thread_inv]. split_and!; try done. right. by exists e.
  - apply walked_inv; [done|done|]. right. exists e. split; [done|]. by rewrite Eo.
Qed.

Lemma exhausted_tower m index start :
  untaken sk tw m index -> (start <= sk_next_link sk)%nat ->
  Nat.min (height_for index) (length (sk_links sk) - start) = 0%nat -> exhausted sk.
Proof.
  intros _ Hs Hm. pose proof (height_for_range index). pose proof (ti_links _ _ _ Hinv). right. lia.
Qed.

(** The answer of [insert]: whether the cell before has another key. *)
Lemma splice_newest pre post pred e key :
  chain 0%nat = pre ++ post -> last (HEAD :: pre.*1) = Some pred -> entry_at sk pred = Some e ->
  (pred =? HEAD) || negb (bool_decide (en_key e = key)) =
  match last pre with Some c' => negb (bool_decide (en_key (snd c') = key)) | None => true end.
Proof.
  intros Echain Hlast He. destruct pre as [|[i e'] pre _] using rev_ind.
  - cbn in Hlast. by injection Hlast as <-.
  - rewrite last_snoc. rewrite fmap_app in Hlast. cbn in Hlast. rewrite app_comm_cons, last_snoc in Hlast. injection Hlast as <-.
    destruct (ti_cells _ _ _ Hinv 0 i e') as (Hi & He' & _).
    { rewrite Echain, !elem_of_app. left. right. left. }
    rewrite He in He'. injection He' as ->. destruct (Z.eqb_spec i HEAD); [unfold HEAD in *; lia|done].
Qed.

(** What a step may do: the table stays what it is, the caller stays where its code
    says, nobody else notices, and the map sees its effect. *)
Definition advances (p : phase) (sk' : SkipMemtable) (p' : phase) : Prop :=
  exists chain' tw', table_inv sk' chain' tw' /\ thread_inv sk' chain' tw' p' /\
    extends (owned p) sk chain tw sk' chain' tw' /\
    (forall j, owned p' = Some j -> owned p = Some j \/ (owned p = None /\ sk_next_node sk <= j)) /\
    effect p p' (held (chain 0%nat)) (held (chain' 0%nat)).

Lemma take_advances weak m sk' p' : thread_inv sk chain tw (Take m) -> sk_next_node sk < u64_max -> (zlen (sk_nodes sk) <= NIL \/ sk_next_node sk < NIL) ->
  thread_step weak sk (Take m) = (sk', p') -> advances (Take m) sk' p'.
Proof.
  intros Hp Hnn Hnil Hs.
  cbn [thread_step] in Hs. injection Hs as <- <-. pose proof (ti_next _ _ _ Hinv).
  assert (wrap64 (sk_next_node sk + 1) = sk_next_node sk + 1) as Ew by (apply wrap64_small; unfold u64_ok; lia).
  destruct (counters_step Hinv (set_next_node sk (wrap64 (sk_next_node sk + 1)))) as [Hi Hx];
    [done|done|done|cbn; lia|cbn; pose proof (ti_top _ _ _ Hinv); lia|].
  assert (forall v, tw !! sk_next_node sk <> Some v) as Hfree.
  { intros [t h] E. apply (ti_tower _ _ _ Hinv) in E as (? & _). lia. }
  exists chain, tw. split; [done|]. destruct (Z.ltb_spec (sk_next_node sk) (zlen (sk_nodes sk))); cbn [andb].
  - unfold NIL in *. destruct (Z.leb_spec (sk_next_node sk) u32_max); [|lia].
    split; [|split; [done|split; [|done]]].
    + cbn [thread_inv]. split_and!; cbn; unfold NIL; try lia; try done.
      * change (entry_at (set_next_node sk (wrap64 (sk_next_node sk + 1)))) with (entry_at sk).
         destruct (entry_at sk (sk_next_node sk)) as [e|] eqn:E; [|done].
         apply (ti_entry _ _ _ Hinv) in E; [by apply Hfree in E|lia].
      * apply eq_None_not_Some. intros [v E]. by apply Hfree in E.
    + intros j [= <-]. right. split; [done|lia].
  - split; [|split; [done|split; [done|done]]]. left. cbn. lia.
Qed.

Lemma tower_advances weak m index start sk' p' : thread_inv sk chain tw (TowerCas m index start) ->
  thread_step weak sk (TowerCas m index start) = (sk', p') -> advances (TowerCas m index start) sk' p'.
Proof.
  intros Hp Hs.
  destruct Hp as [Hu Hstart]. cbn [thread_step] in Hs. unfold reserve_tower in Hs.
  destruct (Nat.eqb_spec (Nat.min (height_for index) (length (sk_links sk) - start)) 0) as [E0|Hh].
  { injection Hs as <- <-. exists chain, tw. split_and!; try done; [by eapply exhausted_tower|apply extends_refl]. }
  destruct (weak || negb (sk_next_link sk =? start)%nat) eqn:Ew; injection Hs as <- <-.
  { exists chain, tw. split_and!; try done; [apply extends_refl|by intros; left]. }
  apply orb_false_iff in Ew as [_ Ew%negb_false_iff%Nat.eqb_eq]. subst start.
  pose proof (height_for_range index). set (height := Nat.min _ _) in *.
  destruct (tower_step Hinv m index height Hu ltac:(lia) ltac:(lia)) as (T1 & T2 & T3).
  eexists chain, _. split_and!; [exact T1|exact T3|exact T2|by intros; left|done].
Qed.

Lemma raise_advances weak n top sk' p' : thread_inv sk chain tw (RaiseCas n top) ->
  thread_step weak sk (RaiseCas n top) = (sk', p') -> advances (RaiseCas n top) sk' p'.
Proof.
  intros Hp Hs.
  cbn [thread_step] in Hs. destruct Hp as (H1 & H2 & H3). destruct (weak || negb (sk_top sk =? top)%nat) eqn:Ew; injection Hs as <- <-.
  - exists chain, tw. unfold raise.
    destruct (Nat.ltb_spec (sk_top sk) (tk_height n)); split_and!; try done; (apply extends_refl || by intros; left).
  - apply orb_false_iff in Ew as [_ Ew%negb_false_iff%Nat.eqb_eq].
    destruct (ti_tower _ _ _ Hinv _ _ _ (proj1 (proj2 (proj2 H1)))) as (_ & Hh & _). pose proof (ti_top _ _ _ Hinv).
    destruct (counters_step Hinv (set_top sk (tk_height n))) as [Hi Hx]; [done|done|done|cbn; lia|cbn; lia|].
    exists chain, tw. split_and!; try done. by intros; left.
Qed.

Lemma descend_advances weak g sk' p' : thread_inv sk chain tw (Descend g) ->
  thread_step weak sk (Descend g) = (sk', p') -> advances (Descend g) sk' p'.
Proof.
  intros Hp Hs.
  unfold thread_step in Hs. injection Hs as <- <-. exists chain, tw. pose proof (ti_top _ _ _ Hinv) as Htop.
  destruct (sk_top sk) as [|level] eqn:Et; [lia|]. destruct (Nat.ltb_spec level MAX_HEIGHT); [|lia].
  split_and!; try done; [|apply extends_refl|by destruct g; intros; left].
  cbn [thread_inv]. split; [done|]. split; [done|]. split; [done|]. split; [done|].
  split; [by left|]. intros l Hl. exists HEAD, NIL. split; [exact (proj2 (lookup_replicate MAX_HEIGHT HEAD HEAD l) (conj eq_refl (proj2 Hl)))|].
  split; [exact (proj2 (lookup_replicate MAX_HEIGHT NIL NIL l) (conj eq_refl (proj2 Hl)))|]. split; by left.
Qed.

Lemma walk_advances weak g level node preds succs sk' p' : thread_inv sk chain tw (Walk g level node preds succs) ->
  thread_step weak sk (Walk g level node preds succs) = (sk', p') -> advances (Walk g level node preds succs) sk' p'.
Proof.
  intros Hp Hs.
  destruct (walk_inv g level node preds succs Hp) as (W1 & W2 & W3).
  assert (sk' = sk /\ p' = snd (thread_step false sk (Walk g level node preds succs))) as [-> ->] by (cbn [thread_step] in *; by injection Hs as <- <-).
  exists chain, tw. split; [done|]. split; [done|]. split; [apply extends_refl|]. split; [|done].
  intros j. rewrite W3. by left.
Qed.

Lemma splice_advances weak n level preds succs newest sk' p' : thread_inv sk chain tw (Splice n level preds succs newest) ->
  thread_step weak sk (Splice n level preds succs newest) = (sk', p') -> advances (Splice n level preds succs newest) sk' p'.
Proof.
  intros Hp Hs.
  pose proof Hp as [Hk _]. destruct Hk as (K1 & K2 & K3 & K4 & K5). cbn [thread_step] in Hs.
  destruct (ti_tower _ _ _ Hinv _ _ _ (proj1 (proj2 (proj2 K1)))) as (_ & Hh & _).
  destruct (bracket_lookup _ _ _ _ _ (K5 level ltac:(lia))) as (Hplaced & _ & _).
  destruct (placed_entry Hinv level _ _ _ ltac:(lia) Hplaced) as (_ & e & Ee & _). rewrite Ee in Hs.
  case_bool_decide as Ecas.
  - injection Hs as <- <-.
    destruct (splice_step Hinv n level preds succs newest e Hp Ee Ecas) as (pre & post & [_ Echain Hlast _ _ _ Hpre Hpost] & S1 & S2 & S3).
    eexists _, _. split; [exact S1|]. split; [apply S3|]. split; [exact S2|]. split.
    { intros j. unfold linked. destruct (_ <? _)%nat; [by left|done]. }
    destruct level as [|level]; [|unfold with_cell; rewrite decide_False by done; by unfold linked; destruct (_ <? _)%nat].
    assert (forall newest m', effect (Splice n 0 preds succs false) (linked n 0 preds succs newest) (held (chain 0%nat)) m' =
      effect (Splice n 0 preds succs false) (Inserted newest) (held (chain 0%nat)) m') as Eeff
      by (intros; unfold linked; by destruct (_ <? _)%nat).
    change (effect (Splice n 0 preds succs newest)) with (effect (Splice n 0 preds succs false)).
    rewrite Eeff. unfold with_cell. rewrite decide_True by done. cbn [effect]. rewrite Echain. intros Hfresh.
    destruct (held_insert pre post (tk_index n, entry_of n)) as [E1 E2]; [|done|done|done|].
    { rewrite <- Echain. apply Hinv. }
    split; [|exact E1]. etransitivity; [|symmetry; exact E2]. by eapply (splice_newest pre post).
  - injection Hs as <- <-. exists chain, tw. split; [done|]. split; [|split; [apply extends_refl|split]].
    + destruct level; cbn [thread_inv goal_inv]; split_and!; try done. lia.
    + by destruct level; intros; left.
    + by destruct level.
Qed.

(** Whatever a caller does next, the table stays what it is, the caller stays where
    its code says, and nobody else notices. *)
Lemma step_inv weak p sk' p' :
  thread_inv sk chain tw p -> sk_next_node sk < u64_max -> (zlen (sk_nodes sk) <= NIL \/ sk_next_node sk < NIL) ->
  thread_step weak sk p = (sk', p') ->
  advances p sk' p'.
Proof.
  intros Hp Hnn Hnil Hs. destruct p as [m|m index|m index start|n|n|n|n top|g|g level node preds succs|n level preds succs newest|
    n level preds succs newest|newest|answer|].
  - by eapply take_advances.
  - cbn [thread_step] in Hs. injection Hs as <- <-. exists chain, tw. split_and!; try done; [apply extends_refl|by intros; left].
  - by eapply tower_advances.
  -  cbn [thread_step] in Hs. injection Hs as <- <-. pose proof (ti_top _ _ _ Hinv).
    destruct (counters_step Hinv (set_bytes sk (wrap64 (sk_bytes sk + (zlen (mu_key (tk_mut n)) + value_bytes (mu_value (tk_mut n)))))))
      as [Hi Hx]; [done|done|done|cbn; lia|cbn; lia|].
    exists chain, tw. split_and!; try done. by intros; left.
  -  cbn [thread_step] in Hs. pose proof Hp as (_ & Hnone & _). rewrite Hnone in Hs. injection Hs as <- <-.
    destruct (publish_step Hinv n Hp) as (T1 & T2 & T3). exists chain, tw. split_and!; try done. by intros; left.
  -  cbn [thread_step] in Hs. injection Hs as <- <-. destruct Hp as [H1 H2]. exists chain, tw. unfold raise.
    destruct (Nat.ltb_spec (sk_top sk) (tk_height n)); split_and!; try done; (apply extends_refl || by intros; left).
  - by eapply raise_advances.
  - by eapply descend_advances.
  - by eapply walk_advances.
  -  cbn [thread_step] in Hs. injection Hs as <- <-. destruct (store_step Hinv n level preds succs newest Hp) as (T1 & T2 & T3).
    exists chain, tw. split_and!; try done. by intros; left.
  - by eapply splice_advances.
  - cbn [thread_step] in Hs. injection Hs as <- <-. exists chain, tw. split_and!; try done. apply extends_refl.
  - cbn [thread_step] in Hs. injection Hs as <- <-. exists chain, tw. split_and!; try done. apply extends_refl.
  - cbn [thread_step] in Hs. injection Hs as <- <-. exists chain, tw. split_and!; try done. apply extends_refl.
Qed.
End Step.
