(* ===== verification/SkipSystem.v ===== *)
(** * Callers sharing a skip list

    Any number of callers, inserting and looking up at once, their accesses
    interleaved in any order and weak swaps failing at will. Each call is recorded
    at the access where it takes effect; the theorem: replayed in that order on a
    map, the calls give the answers the callers got. *)

From S2P Require Import Prelude Memtable Skiplist SkipSpec.

(** What a caller asks, and what it is told. *)
Inductive Call :=
  | CInsert (m : Mutation)
  | CGet (key : bytes).

Inductive CallAnswer :=
  | AInsert (newest : bool)
  | AGet (answer : Lookup).

Definition start (c : Call) : phase := match c with CInsert m => Take m | CGet key => Descend (ForGet key) end.

(** The answer of the call, at the access it takes effect at. *)
Definition answered (p p' : phase) : option CallAnswer :=
  match p, p' with
  | Splice _ O _ _ _, StoreLink _ _ _ _ newest | Splice _ O _ _ _, Inserted newest => Some (AInsert newest)
  | Walk (ForGet _) _ _ _ _, Answered answer => Some (AGet answer)
  | _, _ => None
  end.

(** What a finished caller returns. *)
Definition returned (p : phase) : option CallAnswer :=
  match p with Inserted newest => Some (AInsert newest) | Answered answer => Some (AGet answer) | _ => None end.

Record System := mkSystem {
  sy_table : SkipMemtable;
  sy_calls : list (Call * phase);
  sy_effects : list (nat * Call * CallAnswer);
}.

(** A mutation's number is its own. *)
Definition unused (calls : list (Call * phase)) (c : Call) : Prop :=
  match c with
  | CInsert m => mu_seq m <= u64_max /\
      forall i m' p, calls !! i = Some (CInsert m', p) -> (mu_key m', mu_seq m') <> (mu_key m, mu_seq m)
  | CGet _ => True
  end.

Inductive system_step : System -> System -> Prop :=
  | step_call s c :
      unused (sy_calls s) c -> Z.of_nat (length (sy_calls s)) < u32_max - 3 ->
      system_step s (mkSystem (sy_table s) (sy_calls s ++ [(c, start c)]) (sy_effects s))
  | step_run s i c p weak sk' p' :
      sy_calls s !! i = Some (c, p) -> thread_step weak (sy_table s) p = (sk', p') ->
      system_step s (mkSystem sk' (<[i := (c, p')]> (sy_calls s))
        (sy_effects s ++ match answered p p' with Some a => [(i, c, a)] | None => [] end)).

Definition system_steps : System -> System -> Prop := rtc system_step.

(** ** A map, one call at a time *)

Definition call_step (c : Call) (a : CallAnswer) (m m' : gmap bytes version) : Prop :=
  match c, a with
  | CInsert mut, AInsert newest =>
      newest = spec_newest m (mu_key mut) (mu_seq mut) /\ m' = spec_insert m (mu_key mut) (mu_seq mut) (mu_value mut)
  | CGet key, AGet answer => answer = answer_of (m !! key) /\ m' = m
  | _, _ => False
  end.

Fixpoint calls_run (effects : list (nat * Call * CallAnswer)) (m m' : gmap bytes version) : Prop :=
  match effects with
  | [] => m' = m
  | (_, c, a) :: effects => exists m1, call_step c a m m1 /\ calls_run effects m1 m'
  end.

Lemma calls_run_snoc effects : forall i c a m m1 m2,
  calls_run effects m m1 -> call_step c a m1 m2 -> calls_run (effects ++ [(i, c, a)]) m m2.
Proof.
  induction effects as [|[[i' c'] a'] effects IH]; intros i c a m m1 m2; cbn [app calls_run].
  - intros -> Hs. by exists m2.
  - intros (m' & Hs & Hr) Hs2. exists m'. split; [done|]. by eapply IH.
Qed.

(** ** Which call a caller is in *)

(** The phase is one of the call's. *)
Definition belongs (c : Call) (p : phase) : Prop :=
  match p with
  | Take m | Reserve m _ | TowerCas m _ _ => c = CInsert m
  | Count n | Publish n | LoadTop n | RaiseCas n _ | StoreLink n _ _ _ _ | Splice n _ _ _ _ => c = CInsert (tk_mut n)
  | Descend g | Walk g _ _ _ _ =>
      match g with
      | ForBottom n => c = CInsert (tk_mut n)
      | ForUpper n level _ => c = CInsert (tk_mut n) /\ level <> O
      | ForGet key => c = CGet key
      end
  | Inserted _ => exists m, c = CInsert m
  | Answered _ => exists key, c = CGet key
  | Panicked => True
  end.

(** The answer already settled, once the call has taken effect. *)
Definition settled (p : phase) : option CallAnswer :=
  match p with
  | Descend (ForUpper _ _ newest) | Walk (ForUpper _ _ newest) _ _ _ _
  | StoreLink _ (S _) _ _ newest | Splice _ (S _) _ _ newest | Inserted newest => Some (AInsert newest)
  | Answered answer => Some (AGet answer)
  | _ => None
  end.

Lemma start_belongs c : belongs c (start c) /\ settled (start c) = None.
Proof. by destruct c. Qed.

Ltac step_phase H :=
  unfold reserve_tower, raise, linked, walked, descended, get_answer in H;
  repeat match type of H with
  | context [match ?x with _ => _ end] => destruct x eqn:?
  end; try discriminate H; injection H as <- <-.

(** The height of a tower is never computed here. *)
#[local] Strategy opaque [height_for].

(** One access keeps a caller in its call; its answer is settled once, by the access
    it takes effect at, and never changes afterwards. *)
Lemma step_belongs weak sk p sk' p' c :
  (1 <= sk_top sk)%nat -> thread_step weak sk p = (sk', p') -> belongs c p ->
  belongs c p' /\ (p' = Panicked \/ settled p' = match settled p with Some a => Some a | None => answered p p' end).
Proof.
  intros Htop Hs Hb. destruct p as [m|m index|m index st|n|n|n|n top|g|g level node preds succs|n level preds succs newest|
    n level preds succs newest|newest|answer|]; cbn [thread_step] in Hs;
    try destruct g as [n|n [|lv] newest|key]; try destruct level as [|level];
    step_phase Hs; cbn [belongs settled answered tk_mut] in *; subst;
    repeat match goal with H : _ /\ _ |- _ => destruct H end; try done; eauto; lia.
Qed.

Lemma answered_unsettled p p' a : answered p p' = Some a -> settled p = None.
Proof. destruct p as [| | | | | | | |g level| |n level| | |]; try done; [by destruct g|by destruct level]. Qed.

(** What a caller has settled after an access. *)
Lemma settled_after p p' m m' :
  p' = Panicked \/ settled p' = match settled p with Some a => Some a | None => answered p p' end -> effect p p' m m' ->
  forall a, settled p' = Some a <-> settled p = Some a \/ answered p p' = Some a.
Proof.
  intros Hset Heff a. destruct Hset as [-> | ->].
  - by destruct p as [| | | | | | | |g [|level]| |n [|level]| | |]; try (cbn in *; intuition congruence); destruct g; cbn in *; intuition congruence.
  - destruct (settled p) as [b|] eqn:E; [|intuition congruence]. split; [auto|]. intros [?|Ea]; [done|].
    apply answered_unsettled in Ea. congruence.
Qed.

(** An access that answers nothing has changed nothing. *)
Lemma effect_unsettled p p' m m' : effect p p' m m' -> answered p p' = None -> m' = m.
Proof.
  destruct p as [| | | | | | | |g level| |n level| | |]; destruct p'; cbn; try done;
    try (destruct level; cbn; done); destruct g; cbn; done.
Qed.

(** The access a call takes effect at. *)
Lemma effect_answered p p' m m' c a :
  effect p p' m m' -> answered p p' = Some a -> belongs c p ->
  (forall mut, c = CInsert mut -> fresh_for m (mu_key mut) (mu_seq mut)) -> call_step c a m m'.
Proof.
  intros He Ha Hb Hf. destruct p as [| | | | | | | |g level| |n level| | |]; try done; cbn in Ha.
  - destruct g; try done. destruct p'; try done. injection Ha as <-. cbn in Hb. subst c. exact He.
  - destruct level; [|done]. cbn in Hb. subst c.
    destruct p'; try done; injection Ha as <-; cbn in He; apply He, Hf; done.
Qed.

(** A caller owns a node the table has given out. *)
Lemma owned_given sk chain tw p j :
  table_inv sk chain tw -> thread_inv sk chain tw p -> owned p = Some j -> j < sk_next_node sk.
Proof.
  intros Hinv Hp Ho. assert (forall n, taken_ok sk tw n -> tk_index n < sk_next_node sk) as Ht.
  { intros n (_ & _ & E & _). apply (ti_tower _ _ _ Hinv) in E as (? & _). lia. }
  destruct p as [|m index|m index st|n|n|n|n top|g|g level node preds succs|n level preds succs newest|
    n level preds succs newest|newest|answer|]; try done; cbn [thread_inv owned] in *;
    try (destruct g; try done); injection Ho as <-; unfold goal_inv, linking, untaken in *; 
    repeat match goal with H : _ /\ _ |- _ => destruct H end; auto.
Qed.

(** ** The invariant of the system *)

(** Callers that have taken a node: each took one. *)
Definition took (cp : Call * phase) : bool := match cp with (CInsert _, Take _) => false | (CInsert _, _) => true | _ => false end.

Definition taken_nodes (calls : list (Call * phase)) : Z := zlen (filter (fun cp => took cp = true) calls).

Lemma taken_nodes_le calls : taken_nodes calls <= zlen calls.
Proof. unfold taken_nodes, zlen. pose proof (length_filter (fun cp => took cp = true) calls). lia. Qed.

Lemma taken_nodes_snoc calls c : taken_nodes (calls ++ [(c, start c)]) = taken_nodes calls.
Proof.
  unfold taken_nodes, zlen. rewrite filter_app. assert (filter (fun cp => took cp = true) [(c, start c)] = []) as -> by by destruct c.
  by rewrite app_nil_r.
Qed.

Lemma taken_nodes_insert calls i c p p' :
  calls !! i = Some (c, p) ->
  taken_nodes (<[i := (c, p')]> calls) = taken_nodes calls + (if took (c, p') then 1 else 0) - (if took (c, p) then 1 else 0).
Proof.
  intros Hi. assert (i < length calls)%nat as Hl by by eapply lookup_lt_Some.
  rewrite <- (take_drop_middle calls i (c, p) Hi) at 2. rewrite insert_take_drop by done.
  unfold taken_nodes, zlen. rewrite !filter_app, !length_app, !filter_cons.
  destruct (decide (took (c, p') = true)) as [E1|E1], (decide (took (c, p) = true)) as [E2|E2]; cbn [length];
    rewrite ?E1, ?E2, ?(not_true_is_false _ E1), ?(not_true_is_false _ E2); lia.
Qed.

(** Only taking a node moves the counter of nodes. *)
Lemma step_next_node weak sk p sk' p' c :
  thread_step weak sk p = (sk', p') -> belongs c p -> 0 <= sk_next_node sk < u64_max ->
  sk_next_node sk' = sk_next_node sk + (if took (c, p') then 1 else 0) - (if took (c, p) then 1 else 0).
Proof.
  intros Hs Hb Hn. assert (wrap64 (sk_next_node sk + 1) = sk_next_node sk + 1) as Ew by (apply wrap64_small; unfold u64_ok; lia).
  destruct p as [m|m index|m index st|n|n|n|n top|g|g level node preds succs|n level preds succs newest|
    n level preds succs newest|newest|answer|]; cbn [thread_step] in Hs;
    try destruct g as [n|n lv newest|key]; try destruct level as [|level];
    step_phase Hs; cbn [belongs took sk_next_node set_next_node set_nodes set_links set_top set_bytes set_next_link] in *;
    repeat match goal with H : _ /\ _ |- _ => destruct H | H : exists _, _ |- _ => destruct H end; subst; cbn; try lia;
    destruct c; cbn; try discriminate; lia.
Qed.

Record system_inv (s : System) (chain : nat -> list cell) (tw : gmap Z (nat * nat)) : Prop := {
  si_table : table_inv (sy_table s) chain tw;
  si_calls : forall i c p, sy_calls s !! i = Some (c, p) -> thread_inv (sy_table s) chain tw p /\ belongs c p;
  si_owned : forall i j c c' p p' x, i <> j -> sy_calls s !! i = Some (c, p) -> sy_calls s !! j = Some (c', p') ->
    owned p = Some x -> owned p' <> Some x;
  si_taken : sk_next_node (sy_table s) = 1 + taken_nodes (sy_calls s);
  si_bound : zlen (sy_calls s) < u32_max - 2;
  si_apart : forall i j m m' p p', i <> j -> sy_calls s !! i = Some (CInsert m, p) -> sy_calls s !! j = Some (CInsert m', p') ->
    (mu_key m, mu_seq m) <> (mu_key m', mu_seq m');
  si_run : calls_run (sy_effects s) ∅ (held (chain 0%nat));
  si_once : NoDup (map (fun f => fst (fst f)) (sy_effects s));
  si_settled : forall i c p a, sy_calls s !! i = Some (c, p) -> settled p = Some a <-> (i, c, a) ∈ sy_effects s;
  si_known : forall i c a, (i, c, a) ∈ sy_effects s -> exists p, sy_calls s !! i = Some (c, p);
}.

(** A version in the map was put there by the call that carries it. *)
Lemma calls_run_source effects k s v : forall m m',
  calls_run effects m m' -> m' !! k = Some (s, v) ->
  m !! k = Some (s, v) \/ exists i mut a, (i, CInsert mut, a) ∈ effects /\ (mu_key mut, mu_seq mut) = (k, s).
Proof.
  induction effects as [|[[i c] a] effects IH]; intros m m'; cbn [calls_run].
  - intros ->. by left.
  - intros (m1 & Hs & Hr) Hm. destruct (IH _ _ Hr Hm) as [H1|(j & mut & b & Hin & E)].
    + destruct c as [mut|key], a as [newest|answer]; try done; destruct Hs as [_ ->]; [|by left].
      rewrite spec_insert_lookup in H1. destruct (decide (k = mu_key mut)) as [->|]; [|by left].
      destruct (spec_newest m (mu_key mut) (mu_seq mut)); [|by left]. injection H1 as <- <-.
      right. exists i, mut, (AInsert newest). split; [left|done].
    + right. exists j, mut, b. split; [by right|done].
Qed.

(** A new memtable. *)
Lemma fresh_table budget capacity :
  3 <= capacity -> table_inv (with_capacity budget capacity) (fun _ => []) {[HEAD := (0%nat, MAX_HEIGHT)]}.
Proof.
  intros Hc. set (sk := with_capacity budget capacity).
  assert (entry_at sk HEAD = Some head_entry) as Hhead.
  { unfold entry_at, sk, with_capacity, HEAD. cbn [sk_nodes]. rewrite list_lookup_insert_eq; [done|]. rewrite length_replicate. lia. }
  assert (forall i e, 0 <= i -> entry_at sk i = Some e -> i = HEAD /\ e = head_entry) as Honly.
  { intros i e Hi He. destruct (decide (i = HEAD)) as [->|Hne]; [split; congruence|].
    unfold entry_at, sk, with_capacity in He. cbn [sk_nodes] in He. rewrite list_lookup_insert_ne in He by (unfold HEAD in *; lia).
    destruct (replicate _ None !! _) as [o|] eqn:E; [|done]. apply lookup_replicate in E as [-> _]. done. }
  split; try done.
  - unfold sk, with_capacity. cbn [sk_next_link sk_links]. rewrite length_replicate. unfold MAX_HEIGHT, LINKS_PER_NODE. lia.
  - unfold MAX_HEIGHT. cbn. lia.
  - intros i t h [<- [= <- <-]]%lookup_singleton_Some. unfold sk, with_capacity, HEAD, MAX_HEIGHT. cbn [sk_next_node sk_next_link]. lia.
  - intros i j t h t' h' Hne [<- _]%lookup_singleton_Some [<- _]%lookup_singleton_Some. done.
  - intros i e Hi He. destruct (Honly i e Hi He) as [-> ->]. by rewrite lookup_singleton_eq.
  - intros l Hl. cbn [path]. unfold next. rewrite Hhead. cbn [mbind option_bind head_entry en_height en_tower].
    destruct (Nat.ltb_spec l MAX_HEIGHT); [|lia]. unfold sk, with_capacity. cbn [sk_links].
    apply lookup_replicate. split; [done|]. unfold MAX_HEIGHT, LINKS_PER_NODE in *. lia.
  - intros l i e ?%elem_of_nil. done.
  - constructor.
  - constructor.
Qed.

Definition fresh_system (budget capacity : Z) : System := mkSystem (with_capacity budget capacity) [] [].

Lemma fresh_system_inv budget capacity :
  3 <= capacity -> system_inv (fresh_system budget capacity) (fun _ => []) {[HEAD := (0%nat, MAX_HEIGHT)]}.
Proof.
  intros Hc. split; try done.
  - by apply fresh_table.
  - constructor.
  - intros i c a ?%elem_of_nil. done.
Qed.

(** A call begins. *)
Lemma call_keeps s chain tw c :
  system_inv s chain tw -> unused (sy_calls s) c -> Z.of_nat (length (sy_calls s)) < u32_max - 3 ->
  system_inv (mkSystem (sy_table s) (sy_calls s ++ [(c, start c)]) (sy_effects s)) chain tw.
Proof.
  intros [H1 H2 H3 H4 H5 H6 H7 H8 H9 H10] Hu Hl.
  assert (forall i c' p', (sy_calls s ++ [(c, start c)]) !! i = Some (c', p') ->
    sy_calls s !! i = Some (c', p') \/ (i = length (sy_calls s) /\ c' = c /\ p' = start c)) as Hlook.
  { intros i c' p' [?|[? E]]%lookup_snoc_Some; [by left; destruct_and?|right]. destruct_and?. injection E as -> ->. by split_and!. }
  destruct (start_belongs c) as [Hb Hs].
  assert (owned (start c) = None) as Ho by by destruct c.
  assert (forall i c' a, (i, c', a) ∈ sy_effects s -> (i < length (sy_calls s))%nat) as Hlt
    by (intros i c' a Hin; destruct (H10 i c' a Hin) as [p Hp]; by eapply lookup_lt_Some).
  split; cbn [sy_table sy_calls sy_effects]; try done.
  - intros i c' p [Hi|(_ & -> & ->)]%Hlook; [by eauto|]. split; [|done]. destruct c; cbn; [apply Hu|done].
  - intros i j c1 c2 p p' x Hne [Hi|(-> & -> & ->)]%Hlook [Hj|(-> & -> & ->)]%Hlook; rewrite ?Ho; try done. by eapply H3.
  - by rewrite taken_nodes_snoc.
  - unfold zlen. rewrite length_app. cbn. lia.
  - intros i j m m' p p' Hne [Hi|(-> & E & ->)]%Hlook [Hj|(-> & E' & ->)]%Hlook.
    + by eapply H6.
    + subst c. intros Heq. destruct Hu as [_ Hu]. by apply (Hu i m p).
    + subst c. intros Heq. destruct Hu as [_ Hu]. by apply (Hu j m' p').
    + lia.
  - intros i c' p a [Hi|(-> & -> & ->)]%Hlook; [by apply H9|]. rewrite Hs. split; [done|]. intros Hin%Hlt. lia.
  - intros i c' a Hin. destruct (H10 i c' a Hin) as [p Hp]. exists p. by apply lookup_app_l_Some.
Qed.

(** Before it has taken effect, a call's number is new to the map. *)
Definition fresh_call (c : Call) (p : phase) (m : gmap bytes version) : Prop :=
  settled p = None -> forall mut, c = CInsert mut -> fresh_for m (mu_key mut) (mu_seq mut).

Lemma call_fresh s chain tw i c p :
  system_inv s chain tw -> sy_calls s !! i = Some (c, p) -> fresh_call c p (held (chain 0%nat)).
Proof.
  intros Hi Hp Hset mut -> v Hv. destruct (calls_run_source _ _ _ _ _ _ (si_run _ _ _ Hi) Hv) as [?|(j & m' & b & Hin & E)]; [done|].
  destruct (si_known _ _ _ Hi _ _ _ Hin) as [q Hq]. destruct (decide (j = i)) as [->|Hne].
  - rewrite Hp in Hq. injection Hq as <- <-. apply (si_settled _ _ _ Hi i _ p b Hp) in Hin. congruence.
  - exact (si_apart _ _ _ Hi j i m' mut q p Hne Hq Hp E).
Qed.

(** A caller makes its next access. *)
Lemma run_keeps s chain tw i c p weak sk' p' :
  system_inv s chain tw -> sy_calls s !! i = Some (c, p) -> thread_step weak (sy_table s) p = (sk', p') ->
  exists chain' tw', system_inv (mkSystem sk' (<[i := (c, p')]> (sy_calls s))
    (sy_effects s ++ match answered p p' with Some a => [(i, c, a)] | None => [] end)) chain' tw'.
Proof.
  intros [H1 H2 H3 H4 H5 H6 H7 H8 H9 H10] Hi Hs. destruct (H2 i c p Hi) as [Hp Hb].
  assert (forall c' a, (i, c', a) ∈ sy_effects s -> settled p = Some a) as Hold.
  { intros c' a Hin. destruct (H10 _ _ _ Hin) as [q Hq]. rewrite Hi in Hq. injection Hq as <- <-. by apply (H9 i c p a Hi) in Hin. }
  pose proof (taken_nodes_le (sy_calls s)) as Hle. pose proof (ti_next _ _ _ H1) as Hn1. pose proof (ti_top _ _ _ H1) as Htop.
  destruct (step_inv H1 weak p sk' p' Hp) as (chain' & tw' & T & Hp' & Hext & Hown & Heff); [unfold u64_max, u32_max in *; lia|unfold NIL; lia|done|].
  destruct (step_belongs weak _ p sk' p' c (proj1 Htop) Hs Hb) as [Hb' Hset].
  assert (forall j c' q, <[i := (c, p')]> (sy_calls s) !! j = Some (c', q) ->
    (j = i /\ c' = c /\ q = p') \/ (j <> i /\ sy_calls s !! j = Some (c', q))) as Hlook.
  { intros j c' q [(-> & [= -> ->] & _)|[? ?]]%list_lookup_insert_Some; auto. }
  exists chain', tw'. split; cbn [sy_table sy_calls sy_effects]; [done|..].
  - intros j c' q [(-> & -> & ->)|[Hne Hj]]%Hlook; [done|]. destruct (H2 j c' q Hj) as [Hq Hbq]. split; [|done].
    eapply thread_mono; [exact Hext| |exact Hq]. intros x Hx E. exact (H3 i j c c' p q x (not_eq_sym Hne) Hi Hj (eq_sym E) Hx).
  - assert (forall j c' q x, j <> i -> sy_calls s !! j = Some (c', q) -> owned p' = Some x -> owned q <> Some x) as Hnew.
    { intros j c' q x Hne Hj Hx E. destruct (H2 j c' q Hj) as [Hq _]. destruct (Hown x Hx) as [Ho|[Ho Hge]].
      - exact (H3 i j c c' p q x (not_eq_sym Hne) Hi Hj Ho E).
      - pose proof (owned_given _ _ _ _ _ H1 Hq E). lia. }
    intros j k c1 c2 q q' x Hne [(-> & -> & ->)|[Hnj Hj]]%Hlook [(-> & -> & ->)|[Hnk Hk]]%Hlook; try done.
    + intros Hx. by eapply Hnew.
    + intros Hx E. by eapply Hnew.
    + exact (H3 j k c1 c2 q q' x Hne Hj Hk).
  - rewrite (taken_nodes_insert _ _ _ _ _ Hi). erewrite step_next_node by (try exact Hs; try done; unfold u64_max, u32_max in *; lia). lia.
  - unfold zlen. by rewrite length_insert.
  - intros j k m m' q q' Hne [(-> & E & ->)|[Hnj Hj]]%Hlook [(-> & E' & ->)|[Hnk Hk]]%Hlook; try done.
    + subst c. exact (H6 i k m m' p q' Hne Hi Hk).
    + subst c. exact (H6 j i m m' q p Hne Hj Hi).
    + exact (H6 j k m m' q q' Hne Hj Hk).
  - destruct (answered p p') as [a|] eqn:Ea.
    + eapply calls_run_snoc; [exact H7|]. eapply effect_answered; [done|done|done|]. 
      refine (call_fresh s chain tw i c p _ Hi (answered_unsettled _ _ _ Ea)). by constructor.
    + rewrite app_nil_r. by rewrite (effect_unsettled _ _ _ _ Heff Ea).
  - destruct (answered p p') as [a|] eqn:Ea; [|by rewrite app_nil_r]. rewrite map_app. cbn. apply NoDup_app. split_and!; [done| |apply NoDup_singleton].
    intros j Hj ->%list_elem_of_singleton. apply list_elem_of_fmap in Hj as ([[j' c'] b] & E & Hin). cbn in E. subst j'.
    apply Hold in Hin. apply answered_unsettled in Ea. congruence.
  - pose proof (settled_after _ _ _ _ Hset Heff) as Hnow.
    intros j c' q a [(-> & -> & ->)|[Hne Hj]]%Hlook; rewrite elem_of_app.
    + rewrite Hnow, (H9 i c p a Hi). destruct (answered p p') as [b|]; rewrite ?list_elem_of_singleton, ?elem_of_nil; (clear; intuition congruence).
    + rewrite (H9 j c' q a Hj). split; [by left|]. intros [?|Hin]; [done|]. destruct (answered p p'); [|by apply elem_of_nil in Hin]. apply list_elem_of_singleton in Hin. congruence.
  - intros j c' a Hin. destruct (decide (j = i)) as [->|Hne].
    + exists p'. rewrite list_lookup_insert_eq by by eapply lookup_lt_Some. apply elem_of_app in Hin as [Hin|Hin].
      * destruct (H10 _ _ _ Hin) as [q Hq]. congruence.
      * destruct (answered p p'); [|by apply elem_of_nil in Hin]. apply list_elem_of_singleton in Hin. congruence.
    + rewrite list_lookup_insert_ne by done. apply (H10 j c' a). apply elem_of_app in Hin as [Hin|Hin]; [done|].
      destruct (answered p p'); [|by apply elem_of_nil in Hin]. apply list_elem_of_singleton in Hin. congruence.
Qed.

Lemma system_keeps s s' chain tw :
  system_inv s chain tw -> system_steps s s' -> exists chain' tw', system_inv s' chain' tw'.
Proof.
  intros Hi Hs. revert chain tw Hi. induction Hs as [s|s s1 s' H1 _ IH]; intros chain tw Hi; [by eauto|].
  destruct H1 as [s c Hu Hl|s i c p weak sk' p' Hp Hs].
  - eapply IH. by apply call_keeps.
  - destruct (run_keeps s chain tw i c p weak sk' p' Hi Hp Hs) as (chain1 & tw1 & Hi1). by eapply IH.
Qed.

Lemma effects_grow s s' : system_steps s s' -> exists later, sy_effects s' = sy_effects s ++ later.
Proof.
  induction 1 as [s|s s1 s' H1 _ [later IH]]; [exists []; by rewrite app_nil_r|]. rewrite IH.
  destruct H1; cbn [sy_effects]; rewrite <- ?app_assoc; by eexists.
Qed.

Lemma returned_settled p a : returned p = Some a -> settled p = Some a.
Proof. by destruct p. Qed.

Lemma settled_returned p a : settled p = Some a -> finished p = true -> returned p = Some a.
Proof. by destruct p. Qed.

(** ** Room for everyone *)

(** The links the towers of the first [n] nodes ask for. *)
Fixpoint tower_links (n : nat) : nat :=
  match n with
  | O => 0
  | S n => tower_links n + height_for (Z.of_nat (S n))
  end.

(** The arena has the links its nodes ask for, and one to spare. *)
Definition towers_fit (capacity : Z) : bool :=
  (MAX_HEIGHT + tower_links (Z.to_nat (capacity - 1)) <? Z.to_nat capacity * LINKS_PER_NODE)%nat.

Lemma tower_links_mono n n' : (n <= n')%nat -> (tower_links n <= tower_links n')%nat.
Proof. induction 1; cbn [tower_links]; lia. Qed.

(** Links asked for and not given yet. *)
Definition asked (cp : Call * phase) : nat :=
  match snd cp with Reserve _ index | TowerCas _ index _ => height_for index | _ => 0 end.

Lemma asked_insert calls i c p p' :
  calls !! i = Some (c, p) ->
  (sum_list_with asked (<[i := (c, p')]> calls) + asked (c, p) = sum_list_with asked calls + asked (c, p'))%nat.
Proof.
  intros Hi. assert (i < length calls)%nat as Hl by by eapply lookup_lt_Some.
  rewrite <- (take_drop_middle calls i (c, p) Hi) at 2. rewrite insert_take_drop by done.
  rewrite !sum_list_with_app. cbn [sum_list_with]. lia.
Qed.

(** What an access does to the two counters and the two arrays. *)
Lemma step_arena weak sk p sk' p' :
  thread_step weak sk p = (sk', p') -> 1 <= sk_next_node sk < u64_max -> (sk_next_link sk <= length (sk_links sk))%nat ->
  length (sk_nodes sk') = length (sk_nodes sk) /\ length (sk_links sk') = length (sk_links sk) /\
  sk_next_node sk <= sk_next_node sk' /\
  forall c, (sk_next_link sk' + asked (c, p') + tower_links (Z.to_nat (sk_next_node sk - 1)) <=
    sk_next_link sk + asked (c, p) + tower_links (Z.to_nat (sk_next_node sk' - 1)))%nat.
Proof.
  intros Hs Hn Hlk. assert (wrap64 (sk_next_node sk + 1) = sk_next_node sk + 1) as Ew by (apply wrap64_small; unfold u64_ok; lia).
  assert (tower_links (Z.to_nat (sk_next_node sk)) = tower_links (Z.to_nat (sk_next_node sk - 1)) + height_for (sk_next_node sk))%nat as Et.
  { replace (Z.to_nat (sk_next_node sk)) with (S (Z.to_nat (sk_next_node sk - 1))) at 1 by lia. cbn [tower_links].
    by replace (Z.of_nat (S (Z.to_nat (sk_next_node sk - 1)))) with (sk_next_node sk) by lia. }
  destruct p as [m|m index|m index st|n|n|n|n top|g|g level node preds succs|n level preds succs newest|
    n level preds succs newest|newest|answer|]; cbn [thread_step] in Hs;
    try destruct g as [n|n lv newest|key]; try destruct level as [|level];
    step_phase Hs; cbn [asked snd sk_next_node sk_nodes sk_links sk_next_link set_next_node set_nodes set_links set_top set_bytes set_next_link];
    rewrite ?length_insert; split_and!; try done; try lia; intros _; try rewrite Ew;
    replace (sk_next_node sk + 1 - 1) with (sk_next_node sk) by lia; rewrite ?Et; try lia.
  match goal with H : _ || _ = false |- _ => apply orb_false_iff in H as [_ H%negb_false_iff%Nat.eqb_eq] end. lia.
Qed.

(** The callers that insert. *)
Definition inserting (cp : Call * phase) : bool := match fst cp with CInsert _ => true | CGet _ => false end.

Definition inserts (calls : list (Call * phase)) : Z := zlen (filter (fun cp => inserting cp = true) calls).

Lemma taken_inserts calls : taken_nodes calls <= inserts calls.
Proof.
  unfold taken_nodes, inserts, zlen. apply inj_le, submseteq_length, sublist_submseteq.
  induction calls as [|[c p] calls IH]; [done|]. rewrite !filter_cons.
  destruct (decide (took (c, p) = true)) as [E|], (decide (inserting (c, p) = true)) as [E'|E'].
  - by apply sublist_skip.
  - destruct c; [by destruct E'|by destruct p].
  - by apply sublist_cons.
  - done.
Qed.

Record arena_inv (capacity : Z) (s : System) : Prop := {
  ai_nodes : zlen (sk_nodes (sy_table s)) = capacity;
  ai_links : length (sk_links (sy_table s)) = (Z.to_nat capacity * LINKS_PER_NODE)%nat;
  ai_given : (sk_next_link (sy_table s) + sum_list_with asked (sy_calls s) <=
    MAX_HEIGHT + tower_links (Z.to_nat (sk_next_node (sy_table s) - 1)))%nat;
}.

Lemma arena_keeps s s' chain tw capacity :
  system_inv s chain tw -> arena_inv capacity s -> system_steps s s' -> arena_inv capacity s'.
Proof.
  intros Hi Ha Hs. revert chain tw Hi Ha. induction Hs as [s|s s1 s' H1 _ IH]; intros chain tw Hi [A1 A2 A3]; [done|].
  destruct H1 as [s c Hu Hl|s i c p weak sk' p' Hp Hs].
  - eapply IH; [by apply call_keeps|]. split; cbn [sy_table sy_calls]; [done|done|].
    rewrite sum_list_with_app. assert (sum_list_with asked [(c, start c)] = 0%nat) as -> by by destruct c. lia.
  - destruct (run_keeps s chain tw i c p weak sk' p' Hi Hp Hs) as (chain1 & tw1 & Hi1). eapply IH; [exact Hi1|].
    pose proof (taken_nodes_le (sy_calls s)). pose proof (si_taken _ _ _ Hi). pose proof (si_bound _ _ _ Hi).
    pose proof (ti_next _ _ _ (si_table _ _ _ Hi)). pose proof (ti_links _ _ _ (si_table _ _ _ Hi)).
    destruct (step_arena weak _ p sk' p' Hs) as (E1 & E2 & E3 & E4); [unfold u64_max, u32_max in *; lia|done|].
    specialize (E4 c). pose proof (asked_insert _ _ _ _ p' Hp). split; cbn [sy_table sy_calls].
    + unfold zlen in *. by rewrite E1.
    + by rewrite E2.
    + lia.
Qed.

(** A run that computes: the callers take the turns listed. *)
Fixpoint schedule (turns : list nat) (s : System) : System :=
  match turns with
  | [] => s
  | i :: turns =>
      match sy_calls s !! i with
      | Some (c, p) =>
          let '(sk', p') := thread_step false (sy_table s) p in
          schedule turns (mkSystem sk' (<[i := (c, p')]> (sy_calls s))
            (sy_effects s ++ match answered p p' with Some a => [(i, c, a)] | None => [] end))
      | None => schedule turns s
      end
  end.

Lemma schedule_steps turns : forall s, system_steps s (schedule turns s).
Proof.
  induction turns as [|i turns IH]; intros s; cbn [schedule]; [done|].
  destruct (sy_calls s !! i) as [[c p]|] eqn:E; [|done]. destruct (thread_step false (sy_table s) p) as [sk' p'] eqn:Hs.
  eapply rtc_l; [by eapply step_run|apply IH].
Qed.

Definition begin (c : Call) (s : System) : System := mkSystem (sy_table s) (sy_calls s ++ [(c, start c)]) (sy_effects s).

(** Two writers of one key racing for the same link, and a reader. *)
Definition race : System :=
  begin (CGet (bstr "k")) (begin (CInsert (mkMutation (bstr "k") 1 (Some (bstr "a"))))
    (begin (CInsert (mkMutation (bstr "k") 2 None)) (fresh_system 0 8))).

Definition raced : System := schedule (concat (replicate 20 [0; 1; 2]%nat)) race.

Lemma race_steps : system_steps (fresh_system 0 8) race.
Proof.
  assert (forall c s, unused (sy_calls s) c -> (length (sy_calls s) < 9)%nat -> system_step s (begin c s)) as Hb
    by (intros; apply step_call; [done|unfold u32_max; lia]).
  eapply rtc_l; [apply (Hb (CInsert (mkMutation (bstr "k") 2 None))); [|cbn; lia]|].
  { split; [cbn; unfold u64_max; lia|]. by intros [|i] m p [=]. }
  eapply rtc_l; [apply (Hb (CInsert (mkMutation (bstr "k") 1 (Some (bstr "a"))))); [|cbn; lia]|].
  { split; [cbn; unfold u64_max; lia|]. by intros i m p [_ [= <- _]]%list_lookup_singleton_Some. }
  apply rtc_once, Hb; [done|cbn; lia].
Qed.

(** ** Claims *)

(** C10: the skip list is linearizable. Let any number of callers insert and look up at
    once, their accesses to shared memory interleaved in any order and weak swaps
    failing at will. Every call takes effect at most once, at one of its own accesses;
    the effects, in the order they happened, are a run of a map in which the highest
    number of each key wins; each call that has returned gave the answer its effect
    has in that run; and an effect that comes after some moment belongs to a call that
    had not returned by then, so that a call sees every call that ended before it
    began. *)
Theorem callers_share_a_map budget capacity s s' :
  3 <= capacity -> system_steps (fresh_system budget capacity) s -> system_steps s s' ->
  (exists m, calls_run (sy_effects s') ∅ m) /\
  NoDup (map (fun f => fst (fst f)) (sy_effects s')) /\
  (forall i c p a, sy_calls s' !! i = Some (c, p) -> returned p = Some a -> (i, c, a) ∈ sy_effects s') /\
  (forall i c a, (i, c, a) ∈ sy_effects s' ->
     exists p, sy_calls s' !! i = Some (c, p) /\ (finished p = true -> returned p = Some a)) /\
  (exists later, sy_effects s' = sy_effects s ++ later /\
     forall i c a, (i, c, a) ∈ later -> forall c' p, sy_calls s !! i = Some (c', p) -> returned p = None).
Proof.
  intros Hc H1 H2. destruct (system_keeps _ _ _ _ (fresh_system_inv budget capacity Hc) H1) as (chain & tw & Hi).
  destruct (system_keeps _ _ _ _ Hi H2) as (chain' & tw' & Hi'). destruct (effects_grow _ _ H2) as [later El].
  split_and!.
  - eexists. apply Hi'.
  - apply Hi'.
  - intros i c p a Hp Hr%returned_settled. by apply (si_settled _ _ _ Hi' i c p a Hp).
  - intros i c a Hin. destruct (si_known _ _ _ Hi' _ _ _ Hin) as [p Hp]. exists p. split; [done|].
    apply settled_returned. by apply (si_settled _ _ _ Hi' i c p a Hp).
  - exists later. split; [done|]. intros i c a Hin c' p Hp. destruct (returned p) as [b|] eqn:Hr; [|done].
    apply returned_settled, (si_settled _ _ _ Hi i c' p b Hp) in Hr.
    pose proof (si_once _ _ _ Hi') as Hnd. rewrite El, map_app in Hnd. apply NoDup_app in Hnd as (_ & Hnd & _).
    destruct (Hnd i); apply list_elem_of_fmap; [by exists (i, c', b)|by exists (i, c, a)].
Qed.

Lemma callers_share_a_map_witness :
  system_steps (fresh_system 0 8) race /\ system_steps race raced /\
  map (fun cp => returned (snd cp)) (sy_calls raced) = [Some (AInsert true); Some (AInsert false); Some (AGet Missing)] /\
  exists m, calls_run (sy_effects raced) ∅ m.
Proof.
  pose proof race_steps as H1. assert (system_steps race raced) as H2 by apply schedule_steps.
  split; [exact H1|]. split; [exact H2|]. split; [by vm_compute|].
  destruct (callers_share_a_map 0 8 race raced ltac:(lia) H1 H2) as [Hm _]. exact Hm.
Defined.

(** C24: no caller panics before the nodes run out. As long as fewer mutations have been
    inserted than the arena has nodes, and the towers of those nodes fit in its links
    (which one computation settles for a given size), no caller running with any
    others finds its arena exhausted, reads a node before it is published, or follows a
    link above a node's tower. *)
Theorem fewer_inserts_than_nodes_never_panic budget capacity s :
  3 <= capacity -> towers_fit capacity = true -> system_steps (fresh_system budget capacity) s ->
  inserts (sy_calls s) < capacity -> forall i c, sy_calls s !! i <> Some (c, Panicked).
Proof.
  intros Hc Hfit%Nat.ltb_lt Hs Hn i c Hp.
  pose proof (fresh_system_inv budget capacity Hc) as H0. destruct (system_keeps _ _ _ _ H0 Hs) as (chain & tw & Hi).
  assert (arena_inv capacity s) as [A1 A2 A3].
  { eapply arena_keeps; [exact H0| |exact Hs]. split.
    - unfold zlen, fresh_system, with_capacity. cbn [sy_table sk_nodes]. rewrite length_insert, length_replicate. lia.
    - unfold fresh_system, with_capacity. cbn [sy_table sk_links]. by rewrite length_replicate.
    - cbn. lia. }
  destruct (si_calls _ _ _ Hi i c _ Hp) as [Hex _]. pose proof (taken_inserts (sy_calls s)). pose proof (si_taken _ _ _ Hi).
  assert (tower_links (Z.to_nat (sk_next_node (sy_table s) - 1)) <= tower_links (Z.to_nat (capacity - 1)))%nat by (apply tower_links_mono; lia).
  destruct Hex as [Hx|Hx]; [lia|]. rewrite A2 in Hx. lia.
Qed.

Lemma fewer_inserts_than_nodes_never_panic_witness :
  towers_fit (sk_pressure_at (sk_new 0) + MARGIN) = true /\ inserts (sy_calls raced) < 8 /\
  forall i c, sy_calls raced !! i <> Some (c, Panicked).
Proof.
  split; [by vm_compute|]. assert (inserts (sy_calls raced) < 8) as Hn by (vm_compute; done). split; [exact Hn|].
  apply (fewer_inserts_than_nodes_never_panic 0 8); [lia|by vm_compute| |exact Hn].
  etransitivity; [exact race_steps|apply schedule_steps].
Defined.
