(* ===== verification/SkipTable.v ===== *)
(** * A skip list with one caller at a time

    A caller left alone finishes, wherever the others have stopped; and used by one
    caller at a time the skip list is a memtable: it keeps the promises the engine
    relies on, as long as its arena has room. *)

From stdpp Require Import sorting.
From S2P Require Import Prelude Memtable Btree Skiplist SkipSpec SkipSystem.

#[local] Strategy opaque [height_for].

(** ** How long a caller left alone can take *)

(** A level walked from one of its nodes: at most the whole of it. *)
Lemma path_suffix sk l cs : forall from node,
  path sk l from cs -> node = from \/ node ∈ cs.*1 -> exists cs', path sk l node cs' /\ (length cs' <= length cs)%nat.
Proof.
  induction cs as [|c cs IH]; intros from node Hp Hn.
  - destruct Hn as [->|Hn]; [by exists []|by apply elem_of_nil in Hn].
  - destruct Hp as [H1 H2]. destruct (decide (node = from)) as [->|Hne]; [by exists (c :: cs)|].
    destruct (IH (fst c) node H2) as (cs' & Hp' & Hl).
    { destruct Hn as [->|Hn]; [done|]. by apply elem_of_cons in Hn. }
    exists cs'. split; [done|]. cbn. lia.
Qed.

(** A level has no more cells than the arena has nodes. *)
Lemma chain_length sk chain tw l : table_inv sk chain tw -> (length (chain l) <= length (sk_nodes sk))%nat.
Proof.
  intros Hinv. assert (length (chain l) = length (chain l).*1) as -> by by rewrite length_fmap.
  transitivity (length (seqZ 0 (zlen (sk_nodes sk)))).
  - apply submseteq_length, NoDup_submseteq; [apply (ti_nodup _ _ _ Hinv)|].
    intros i ([j e] & -> & Hc)%list_elem_of_fmap. apply (ti_cells _ _ _ Hinv) in Hc as (Hi & He & _). cbn.
    apply elem_of_seqZ. unfold entry_at in He. destruct (sk_nodes sk !! Z.to_nat j) eqn:E; [|done].
    apply lookup_lt_Some in E. unfold zlen. lia.
  - rewrite length_seqZ. unfold zlen. lia.
Qed.

(** The links the walk recorded are the links there are, from [level] up. *)
Definition fresh_links (sk : SkipMemtable) (g : goal) (level : nat) (preds succs : list Z) : Prop :=
  match g with
  | ForBottom n | ForUpper n _ _ =>
      forall l, (level <= l < tk_height n)%nat ->
        exists p s, preds !! l = Some p /\ succs !! l = Some s /\ next sk p l = Some s
  | ForGet _ => True
  end.

(** Accesses from a walk's start, and to link every level left. *)
Definition walk_due (sk : SkipMemtable) : nat := (1 + MAX_HEIGHT * S (length (sk_nodes sk)) + 2 * MAX_HEIGHT)%nat.
Definition links_due (level : nat) : nat := (2 * (MAX_HEIGHT - level))%nat.

(** [fuel] accesses are enough: one walk when what the caller has read is still so,
    two when it may not be. *)
Definition due (sk : SkipMemtable) (fuel : nat) (p : phase) : Prop :=
  match p with
  | Take _ => (7 + walk_due sk <= fuel)%nat
  | Reserve _ _ => (6 + walk_due sk <= fuel)%nat
  | TowerCas _ _ start => (start = sk_next_link sk /\ 5 + walk_due sk <= fuel \/ 6 + walk_due sk <= fuel)%nat
  | Count _ => (4 + walk_due sk <= fuel)%nat
  | Publish _ => (3 + walk_due sk <= fuel)%nat
  | LoadTop _ => (2 + walk_due sk <= fuel)%nat
  | RaiseCas _ top => (top = sk_top sk /\ 1 + walk_due sk <= fuel \/ 2 + walk_due sk <= fuel)%nat
  | Descend _ => (walk_due sk <= fuel)%nat
  | Walk g level node preds succs =>
      exists cs, path sk level node cs /\
        let cost := (length cs + 1 + level * S (length (sk_nodes sk)) + 2 * MAX_HEIGHT)%nat in
        (fresh_links sk g (S level) preds succs /\ cost <= fuel \/ cost + walk_due sk <= fuel)%nat
  | StoreLink n level preds succs _ =>
      (fresh_links sk (ForBottom n) level preds succs /\ links_due level <= fuel \/ links_due level + walk_due sk <= fuel)%nat
  | Splice n level preds succs _ =>
      (fresh_links sk (ForBottom n) level preds succs /\ links_due level <= S fuel \/ links_due level + walk_due sk <= S fuel)%nat
  | Inserted _ | Answered _ | Panicked => True
  end.

Section Alone.
Context {sk : SkipMemtable} {chain : nat -> list cell} {tw : gmap Z (nat * nat)}.
Context (Hinv : table_inv sk chain tw).

Lemma walked_due g level node found preds succs fuel :
  thread_inv sk chain tw (Walk g level node preds succs) -> next sk node level = Some found ->
  due sk (S fuel) (Walk g level node preds succs) -> due sk fuel (walked sk g level node found preds succs).
Proof.
  intros (Hg & Hl & Lp & Ls & Hp & _) Hn (cs & Hcs & Hcost). unfold walked.
  assert (fresh_links sk g (S level) preds succs ->
    fresh_links sk g level (<[level := node]> preds) (<[level := found]> succs)) as Hfr.
  { destruct g as [n|n lv newest|key]; [..|done]; cbn; intros Hf l Hll; destruct (decide (l = level)) as [->|Hne];
      try (exists node, found; rewrite !list_lookup_insert_eq by lia; by split_and!);
      destruct (Hf l ltac:(lia)) as (p & s & ?); exists p, s; by rewrite !list_lookup_insert_ne by done. }
  destruct level as [|level].
  - unfold descended. destruct g as [n|n lv newest|key]; cbn [due].
    + unfold links_due. destruct Hcost as [[Hf Hc]|Hc]; [left; split; [by apply Hfr|lia]|right; lia].
    + unfold links_due. destruct Hcost as [[Hf Hc]|Hc]; [left|right; lia]. split; [|lia].
      intros l Hll. apply (Hfr Hf). lia.
    + unfold get_answer. repeat case_match; done.
  - destruct (path_suffix sk level (chain level) HEAD node) as (cs' & Hcs' & Hlen).
    { apply (ti_path _ _ _ Hinv). lia. }
    { eapply placed_index, (placed_down Hinv level (S level)); [lia|exact Hp]. }
    pose proof (chain_length _ _ _ level Hinv). cbn [due]. exists cs'. split; [done|].
    destruct Hcost as [[Hf Hc]|Hc]; [left; split; [by apply Hfr|lia]|right; lia].
Qed.

Lemma walk_step_due g level node preds succs fuel sk' p' :
  thread_inv sk chain tw (Walk g level node preds succs) -> due sk (S fuel) (Walk g level node preds succs) ->
  thread_step false sk (Walk g level node preds succs) = (sk', p') -> due sk' fuel p'.
Proof.
  intros Hw Hd. cbn [thread_step]. intros [= <- <-]. pose proof Hd as (cs & Hcs & Hcost).
  rewrite (path_first _ _ _ _ Hcs). destruct (Z.eqb_spec (first_of cs) NIL) as [En|Hne].
  { eapply walked_due; [exact Hw|by apply path_first|exact Hd]. }
  destruct cs as [|c cs]; [done|]. destruct Hcs as [Hn Hcs]. cbn [first_of].
  destruct (order sk (fst c) (goal_key g) (goal_seq g)) as [[]|]; try done; try by eapply walked_due.
  cbn [due]. exists cs. split; [done|]. cbn [length] in Hcost.
  destruct Hcost as [[Hf Hc]|Hc]; [left; split; [done|lia]|right; lia].
Qed.

(** Following a recorded link once the caller's own link at a level has been stored. *)
Lemma store_fresh n level preds succs newest s :
  thread_inv sk chain tw (StoreLink n level preds succs newest) -> fresh_links sk (ForBottom n) level preds succs ->
  fresh_links (set_links sk (<[(tk_tower n + level)%nat := s]> (sk_links sk))) (ForBottom n) level preds succs.
Proof.
  intros (Ht & (He & _ & Hout) & _ & Hl & Hbr) Hf l Hll. destruct (Hf l Hll) as (p & s' & E1 & E2 & E3). exists p, s'.
  split; [done|]. split; [done|]. pose proof Ht as ((? & _) & _ & Htw & _).
  destruct (ti_tower _ _ _ Hinv _ _ _ Htw) as (_ & ? & _).
  destruct (Hbr l) as (p' & s'' & E1' & _ & Hp & _); [lia|]. rewrite E1 in E1'. injection E1' as <-.
  change (tk_tower n) with (en_tower (entry_of n)).
  rewrite (next_set_link Hinv (tk_index n)) by (try done; try lia; apply placed_index in Hp as [->|[? _]%(chain_index Hinv)]; unfold HEAD; lia).
  rewrite bool_decide_false; [done|]. intros [-> _]. apply placed_index in Hp as [E|Hin]; [unfold HEAD in E; lia|by apply (Hout l) in Hin; [|lia]].
Qed.

(** And once a level has been linked. *)
Lemma splice_fresh n level preds succs p e v :
  thread_inv sk chain tw (StoreLink n level preds succs false) ->
  placed chain level p (mu_key (tk_mut n)) (mu_seq (tk_mut n)) -> entry_at sk p = Some e ->
  fresh_links sk (ForBottom n) level preds succs ->
  fresh_links (set_links sk (<[(en_tower e + level)%nat := v]> (sk_links sk))) (ForBottom n) (S level) preds succs.
Proof.
  intros (Ht & _ & _ & Hl & Hbr) Hp He Hf l Hll. destruct (Hf l ltac:(lia)) as (p' & s & E1 & E2 & E3). exists p', s.
  split; [done|]. split; [done|]. pose proof Ht as (_ & _ & Htw & _). destruct (ti_tower _ _ _ Hinv _ _ _ Htw) as (_ & ? & _).
  destruct (placed_entry Hinv level p _ _ ltac:(lia) Hp) as (Hp0 & e' & He' & Hh). rewrite He in He'. injection He' as <-.
  destruct (Hbr l) as (q & s' & E1' & _ & Hq & _); [lia|]. rewrite E1 in E1'. injection E1' as <-.
  destruct (placed_entry Hinv l p' _ _ ltac:(lia) Hq) as (Hq0 & _).
  rewrite (next_set_link Hinv p) by done. rewrite bool_decide_false; [done|]. intros [_ ->]. lia.
Qed.

(** What [next] read is what the swap compares with. *)
Lemma next_slot p e l s : entry_at sk p = Some e -> next sk p l = Some s -> sk_links sk !! (en_tower e + l)%nat = Some s.
Proof. intros He. unfold next. rewrite He. cbn [mbind option_bind]. destruct (Nat.ltb_spec l (en_height e)); [done|discriminate]. Qed.

Lemma descend_due g fuel : thread_inv sk chain tw (Descend g) -> due sk (S fuel) (Descend g) ->
  due sk fuel (snd (thread_step false sk (Descend g))).
Proof.
  intros Hg Hd. cbn [thread_step snd]. pose proof (ti_top _ _ _ Hinv) as Htop. destruct (sk_top sk) as [|level] eqn:Et; [lia|].
  destruct (Nat.ltb_spec level MAX_HEIGHT); [|done]. pose proof (chain_length _ _ _ level Hinv) as Hlen.
  pose proof (ti_path _ _ _ Hinv level) as Hpath. unfold due, walk_due in Hd |- *. exists (chain level). split; [by apply Hpath|].
  assert (level * S (length (sk_nodes sk)) <= 11 * S (length (sk_nodes sk)))%nat by (apply Nat.mul_le_mono_r; unfold MAX_HEIGHT in *; lia).
  left. split; [|unfold MAX_HEIGHT in *; lia].
  destruct g as [n|n lv newest|key]; [..|done]; cbn [thread_inv goal_inv] in Hg; intros l Hll; destruct Hg as (_ & _ & Hh); rewrite Et in Hh; lia.
Qed.

(** Every access brings a caller left alone nearer its end. *)
Lemma step_due p fuel sk' p' :
  thread_inv sk chain tw p -> due sk (S fuel) p -> finished p = false ->
  thread_step false sk p = (sk', p') -> due sk' fuel p'.
Proof.
  intros Hp Hd Hf Hs.
  assert (forall nodes, length nodes = length (sk_nodes sk) -> walk_due (set_nodes sk nodes) = walk_due sk) as Ew
    by (intros nodes E; unfold walk_due; cbn; by rewrite E).
  destruct p as [m|m index|m index st|n|n|n|n top|g|g level node preds succs|n level preds succs newest|
    n level preds succs newest|newest|answer|]; try done; cbn [due] in Hd.
  - cbn [thread_step] in Hs. injection Hs as <- <-. destruct (_ && _); [|done]. exact (le_S_n _ _ Hd).
  - cbn [thread_step] in Hs. injection Hs as <- <-. left. split; [done|lia].
  - cbn [thread_step] in Hs. unfold reserve_tower in Hs. destruct (_ =? 0)%nat; [by injection Hs as <- <-|].
    destruct (Nat.eqb_spec (sk_next_link sk) st) as [E|Hne]; cbn [orb negb] in Hs; injection Hs as <- <-.
    + change (4 + walk_due sk <= fuel)%nat. lia.
    + left. split; [done|]. lia.
  - cbn [thread_step] in Hs. injection Hs as <- <-. exact (le_S_n _ _ Hd).
  - cbn [thread_step] in Hs. destruct (entry_at sk (tk_index n)); injection Hs as <- <-; [done|].
    cbn [due]. rewrite Ew by by rewrite length_insert. lia.
  - cbn [thread_step] in Hs. injection Hs as <- <-. unfold raise. destruct (_ <? _)%nat; [left; split; [done|lia]|change (walk_due sk <= fuel)%nat; lia].
  - cbn [thread_step] in Hs. destruct (Nat.eqb_spec (sk_top sk) top) as [E|Hne]; cbn [orb negb] in Hs; injection Hs as <- <-.
    + change (walk_due sk <= fuel)%nat. lia.
    + unfold raise. destruct (_ <? _)%nat; [left; split; [done|lia]|change (walk_due sk <= fuel)%nat; lia].
  - pose proof (descend_due g fuel Hp Hd) as H. cbn [thread_step] in Hs, H. by injection Hs as <- <-.
  - by eapply walk_step_due.
  - cbn [thread_step] in Hs. injection Hs as <- <-. change (walk_due (set_links sk _)) with (walk_due sk).
    destruct Hd as [[Hfr Hc]|Hc]; [left; split; [by eapply store_fresh|done]|right; exact Hc].
  - destruct Hp as [Hk (s & Hss & _)]. pose proof Hk as (Ht & _ & _ & Hl & Hbr). cbn [thread_step] in Hs.
    destruct (ti_tower _ _ _ Hinv _ _ _ (proj1 (proj2 (proj2 Ht)))) as (_ & ? & _).
    destruct (Hbr level ltac:(lia)) as (p & s' & Ep & Es & Hpl & _). rewrite Ep, Es in Hs. cbn [default] in Hs.
    destruct (placed_entry Hinv level p _ _ ltac:(lia) Hpl) as (_ & e & He & _). change (id p) with p in Hs. rewrite He in Hs.
    unfold links_due in Hd. case_bool_decide as Ecas; injection Hs as <- <-.
    + unfold linked. destruct (_ <? _)%nat; [|done]. cbn [due]. change (walk_due (set_links sk _)) with (walk_due sk). unfold links_due.
      destruct Hd as [[Hfr Hc]|Hc]; [left; split; [by eapply splice_fresh|lia]|right; lia].
    + destruct Hd as [[Hfr Hc]|Hc].
      * destruct (Hfr level ltac:(lia)) as (p1 & s1 & Ep1 & Es1 & Hn). destruct Ecas. rewrite Ep in Ep1. rewrite Es in Es1.
        injection Ep1 as <-. injection Es1 as <-. by eapply next_slot.
      * destruct level; cbn [due]; lia.
Qed.

(** The fuel of a caller left alone. *)
Lemma alone_due p : thread_inv sk chain tw p -> due sk (alone_fuel sk) p.
Proof.
  intros Hp. unfold alone_fuel.
  destruct p as [m|m index|m index st|n|n|n|n top|g|g level node preds succs|n level preds succs newest|
    n level preds succs newest|newest|answer|]; try exact I; unfold due, links_due, walk_due, MAX_HEIGHT; try lia.
  destruct Hp as (_ & Hl & _ & _ & Hpl & _). destruct (path_suffix sk level (chain level) HEAD node) as (cs & Hcs & Hlen).
  { by apply (ti_path _ _ _ Hinv). }
  { by eapply placed_index. }
  exists cs. split; [done|]. right. pose proof (chain_length _ _ _ level Hinv).
  assert (level * S (length (sk_nodes sk)) <= 11 * S (length (sk_nodes sk)))%nat by (apply Nat.mul_le_mono_r; unfold MAX_HEIGHT in *; lia).
  lia.
Qed.

(** No access is due once the call is over. *)
Lemma due_end p : thread_inv sk chain tw p -> due sk 0 p -> finished p = true.
Proof.
  intros Hp Hd. assert (forall n level preds succs, linking sk chain tw n level preds succs -> (level < MAX_HEIGHT)%nat) as Hlv.
  { intros n level preds succs ((_ & _ & Htw & _) & _ & _ & Hl & _). apply (ti_tower _ _ _ Hinv) in Htw. lia. }
  destruct p as [m|m index|m index st|n|n|n|n top|g|g level node preds succs|n level preds succs newest|
    n level preds succs newest|newest|answer|]; try done; unfold due, walk_due, links_due in Hd; try lia.
  - destruct Hd as (? & _ & Hd). cbn zeta in Hd. lia.
  - specialize (Hlv n level preds succs Hp). lia.
  - specialize (Hlv n level preds succs (proj1 Hp)). lia.
Qed.
End Alone.

(** ** What it does meanwhile *)

(** How a call ends: with its answer, having done to the map what the call does; or
    in a panic, with the arena exhausted and the map as it was. *)
Definition ends (c : Call) (p : phase) (m : gmap bytes version) (p' : phase) (m' : gmap bytes version) : Prop :=
  match settled p with
  | Some a => returned p' = Some a /\ m' = m
  | None => (p' = Panicked /\ m' = m) \/ exists a, returned p' = Some a /\ call_step c a m m'
  end.

Lemma ends_now c p m : finished p = true -> ends c p m p m.
Proof. unfold ends. destruct p; try done. by left. Qed.

(** One access, then the rest. *)
Lemma ends_step c p m p1 m1 p' m' :
  belongs c p -> fresh_call c p m -> effect p p1 m m1 ->
  (forall a, settled p1 = Some a <-> settled p = Some a \/ answered p p1 = Some a) ->
  ends c p1 m1 p' m' -> ends c p m p' m'.
Proof.
  intros Hb Hf He Hnow. unfold ends. destruct (settled p) as [a|] eqn:Es.
  - rewrite (proj2 (Hnow a)) by by left. destruct (answered p p1) as [b|] eqn:Ea; [apply answered_unsettled in Ea; congruence|].
    by rewrite (effect_unsettled _ _ _ _ He Ea).
  - destruct (answered p p1) as [a|] eqn:Ea.
    + rewrite (proj2 (Hnow a)) by by right. intros [Hr ->]. right. exists a. split; [done|]. eapply effect_answered; [done..|]. by apply Hf.
    + rewrite (effect_unsettled _ _ _ _ He Ea). destruct (settled p1) as [a|]; [|done].
      by destruct (proj1 (Hnow a) eq_refl).
Qed.

(** Indices left: one more taken would still be a number of the arena. *)
Definition indices_left (sk : SkipMemtable) (c : Call) (p : phase) : Prop :=
  sk_next_node sk - (if took (c, p) then 1 else 0) < NIL - 1.

(** What running does to the arena's arrays and counters. *)
Definition arena_moves (c : Call) (sk : SkipMemtable) (p : phase) (sk' : SkipMemtable) (p' : phase) : Prop :=
  length (sk_nodes sk') = length (sk_nodes sk) /\ length (sk_links sk') = length (sk_links sk) /\
  sk_next_node sk' - (if took (c, p') then 1 else 0) = sk_next_node sk - (if took (c, p) then 1 else 0) /\
  (sk_next_link sk' + asked (c, p') + tower_links (Z.to_nat (sk_next_node sk - 1)) <=
    sk_next_link sk + asked (c, p) + tower_links (Z.to_nat (sk_next_node sk' - 1)))%nat.

Lemma arena_moves_trans c sk p sk1 p1 sk' p' :
  arena_moves c sk p sk1 p1 -> arena_moves c sk1 p1 sk' p' -> arena_moves c sk p sk' p'.
Proof. intros (A1 & A2 & A3 & A4) (B1 & B2 & B3 & B4). unfold arena_moves. split_and!; [congruence|congruence|lia|lia]. Qed.

(** A node and a link for the caller, as long as it still needs them. *)
Definition room_for (sk : SkipMemtable) (p : phase) : Prop :=
  match p with
  | Take _ => sk_next_node sk < zlen (sk_nodes sk) /\ sk_next_node sk <= u32_max /\ (sk_next_link sk < length (sk_links sk))%nat
  | Reserve _ _ => (sk_next_link sk < length (sk_links sk))%nat
  | TowerCas _ _ start => start = sk_next_link sk /\ (sk_next_link sk < length (sk_links sk))%nat
  | Panicked => False
  | _ => True
  end.

Lemma room_step sk p sk' p' m m' :
  thread_step false sk p = (sk', p') -> effect p p' m m' -> room_for sk p -> room_for sk' p'.
Proof.
  intros Hs He Hr. destruct p as [mu|mu index|mu index st|n|n|n|n top|g|g level node preds succs|n level preds succs newest|
    n level preds succs newest|newest|answer|]; cbn [room_for] in Hr.
  1: { cbn [thread_step] in Hs. injection Hs as <- <-. destruct Hr as (H1 & H2 & H3).
    rewrite (proj2 (Z.ltb_lt _ _) H1), (proj2 (Z.leb_le _ _) H2). exact H3. }
  1: { cbn [thread_step] in Hs. by injection Hs as <- <-. }
  1: { destruct Hr as [-> Hlt]. pose proof (height_for_range index). cbn [thread_step] in Hs. unfold reserve_tower in Hs.
    destruct (Nat.eqb_spec (Nat.min (height_for index) (length (sk_links sk) - sk_next_link sk)) 0); [lia|].
    rewrite Nat.eqb_refl in Hs. cbn [orb negb] in Hs. by injection Hs as <- <-. }
  all: try done.
  all: assert (p' <> Panicked) as Hne by (intros ->; cbn in He; try destruct g; try destruct level; done).
  all: destruct p'; try done; exfalso; clear He Hne; cbn [thread_step] in Hs; try destruct g; try destruct level; step_phase Hs.
Qed.

Lemma run_alone_ends c fuel : forall sk chain tw p,
  table_inv sk chain tw -> thread_inv sk chain tw p -> belongs c p -> indices_left sk c p ->
  fresh_call c p (held (chain 0%nat)) -> due sk fuel p ->
  exists chain' tw', let sk' := fst (run_alone fuel sk p) in let p' := snd (run_alone fuel sk p) in
    table_inv sk' chain' tw' /\ thread_inv sk' chain' tw' p' /\ finished p' = true /\
    (room_for sk p -> room_for sk' p') /\
    arena_moves c sk p sk' p' /\
    ends c p (held (chain 0%nat)) p' (held (chain' 0%nat)).
Proof.
  induction fuel as [|fuel IH]; intros sk chain tw p Hinv Hp Hb Hi Hf Hd; cbn [run_alone].
  - pose proof (due_end Hinv p Hp Hd) as E. exists chain, tw. cbn [fst snd]. split_and!; try done. by apply ends_now.
  - destruct (finished p) eqn:E; [exists chain, tw; cbn [fst snd]; split_and!; try done; by apply ends_now|].
    destruct (thread_step false sk p) as [sk1 p1] eqn:Hs.
    pose proof (ti_next _ _ _ Hinv) as Hn. pose proof (ti_top _ _ _ Hinv) as Htop.
    assert (sk_next_node sk < NIL) as Hlt by (unfold indices_left, NIL in *; destruct (took _); lia).
    destruct (step_inv Hinv false p sk1 p1 Hp) as (chain1 & tw1 & Hinv1 & Hp1 & _ & _ & He); [unfold NIL, u32_max, u64_max in *; lia|by right|done|].
    destruct (step_belongs false _ p sk1 p1 c (proj1 Htop) Hs Hb) as [Hb1 Hset]. pose proof (settled_after _ _ _ _ Hset He) as Hnow.
    assert (arena_moves c sk p sk1 p1) as Hm.
    { assert (1 <= sk_next_node sk < u64_max) as Hnn by (unfold NIL, u32_max, u64_max in *; lia).
      destruct (step_arena _ _ _ _ _ Hs Hnn (ti_links _ _ _ Hinv)) as (E1 & E2 & _ & E4). split_and!; [done|done| |apply E4].
      rewrite (step_next_node _ _ _ _ _ c Hs Hb) by lia. lia. }
    destruct (IH sk1 chain1 tw1 p1 Hinv1 Hp1 Hb1) as (chain' & tw' & R1 & R2 & R3 & R4 & R6 & R5).
    + unfold indices_left in *. destruct Hm as (_ & _ & Hm & _). lia.
    + intros Hs1 mut Hc. assert (answered p p1 = None) as Ea by (destruct (answered p p1) as [a|] eqn:Ea; [|done]; rewrite (proj2 (Hnow a)) in Hs1; auto).
      rewrite (effect_unsettled _ _ _ _ He Ea). apply Hf; [|done]. destruct (settled p) as [a|] eqn:Es; [|done].
      rewrite (proj2 (Hnow a)) in Hs1; auto.
    + exact (step_due Hinv p fuel sk1 p1 Hp Hd E Hs).
    + exists chain', tw'. cbn zeta in R1, R2, R3, R4, R5, R6 |- *. split_and!; try done.
      * intros Hr. by eapply R4, room_step.
      * by eapply arena_moves_trans.
      * by eapply ends_step.
Qed.

(** ** Swaps that fail for no reason *)

(** [raise_top] swaps only to raise. *)
Definition climbing (p : phase) : Prop := match p with RaiseCas n top => (top < tk_height n)%nat | _ => True end.

Lemma raise_climbs n top : climbing (raise n top).
Proof. unfold raise. by destruct (Nat.ltb_spec top (tk_height n)). Qed.

Lemma climbing_step weak sk p : climbing p -> climbing (snd (thread_step weak sk p)).
Proof.
  intros Hp. destruct p as [m|m index|m index st|n|n|n|n top|g|g level node preds succs|n level preds succs newest|
    n level preds succs newest|newest|answer|]; try done; cbn [thread_step].
  - by destruct (_ && _).
  - unfold reserve_tower. destruct (_ =? 0)%nat; [done|]. by destruct (_ || _).
  - by destruct (entry_at sk (tk_index n)).
  - apply raise_climbs.
  - destruct (_ || _); [apply raise_climbs|done].
  - destruct (sk_top sk); [by destruct g as [| |key]; cbn; [..|unfold get_answer; repeat case_match]|]. by destruct (_ <? _)%nat.
  - cbn. unfold walked, descended, get_answer. by repeat case_match.
  - unfold linked. by repeat case_match.
Qed.

(** Such a failure leaves everything as it is, or comes to what a real one does. *)
Lemma weak_step sk p : climbing p -> thread_step true sk p = thread_step false sk p \/ thread_step true sk p = (sk, p).
Proof.
  intros Hp. destruct p as [m|m index|m index st|n|n|n|n top|g|g level node preds succs|n level preds succs newest|
    n level preds succs newest|newest|answer|]; try (by left); cbn [thread_step].
  - unfold reserve_tower. destruct (_ =? 0)%nat; [by left|]. destruct (Nat.eqb_spec (sk_next_link sk) st) as [->|]; [by right|by left].
  - destruct (Nat.eqb_spec (sk_top sk) top) as [->|]; [|by left]. right. cbn [orb]. unfold raise. cbn in Hp.
    by rewrite (proj2 (Nat.ltb_lt _ _) Hp).
Qed.

(** The accesses that would not see one. *)
Definition fair (flags : list bool) : nat := count_occ Bool.bool_dec flags false.

Lemma run_weakly_alone flags : forall sk p, climbing p ->
  exists k, (fair flags <= k)%nat /\ run_weakly flags sk p = run_alone k sk p.
Proof.
  induction flags as [|weak flags IH]; intros sk p Hp; [by exists 0%nat|]. cbn [run_weakly].
  destruct (finished p) eqn:E; [exists (fair (weak :: flags)); split; [done|]; by destruct (fair (weak :: flags)); cbn [run_alone]; rewrite ?E|].
  assert (thread_step weak sk p = thread_step false sk p \/ weak = true /\ thread_step weak sk p = (sk, p)) as [Es|[-> Es]].
  { destruct weak; [|by left]. destruct (weak_step sk p Hp); auto. }
  - pose proof (climbing_step false sk p Hp) as Hp1. rewrite Es. destruct (thread_step false sk p) as [sk1 p1] eqn:E1. cbn [snd] in Hp1.
    destruct (IH sk1 p1 Hp1) as (k & Hk & ->). exists (S k). split; [unfold fair in *; destruct weak; cbn in *; lia|]. cbn [run_alone]. by rewrite E, E1.
  - rewrite Es. by apply IH.
Qed.

(** Fuel that was enough stays enough. *)
Lemma run_alone_more n : forall k sk p, finished (snd (run_alone n sk p)) = true -> (n <= k)%nat -> run_alone k sk p = run_alone n sk p.
Proof.
  induction n as [|n IH]; intros k sk p; cbn [run_alone].
  - cbn [snd]. intros E _. destruct k; cbn [run_alone]; [done|by rewrite E].
  - destruct k as [|k]; [lia|]. cbn [run_alone]. destruct (finished p); [done|]. destruct (thread_step false sk p) as [sk1 p1].
    intros E Hk. apply IH; [done|lia].
Qed.

Lemma run_weakly_ends flags n sk p : climbing p -> (n <= fair flags)%nat -> finished (snd (run_alone n sk p)) = true ->
  run_weakly flags sk p = run_alone n sk p.
Proof.
  intros Hp Hn Hf. destruct (run_weakly_alone flags sk p Hp) as (k & Hk & ->). apply run_alone_more; [done|lia].
Qed.

Lemma thread_climbs sk chain tw p : thread_inv sk chain tw p -> climbing p.
Proof. destruct p; try done. by intros (_ & _ & ?). Qed.

(** ** The promises of a memtable *)

(** The table is sound, and has indices to spare. *)
Definition table_holds (sk : SkipMemtable) (m : gmap bytes version) : Prop :=
  (exists chain tw, table_inv sk chain tw /\ held (chain 0%nat) = m) /\ sk_next_node sk < NIL - 1.

(** The arena has a node and a link to give. *)
Definition sk_room (sk : SkipMemtable) (seq : Z) : Prop :=
  seq <= u64_max /\ sk_next_node sk < zlen (sk_nodes sk) /\ sk_next_node sk < NIL - 2 /\
  (sk_next_link sk < length (sk_links sk))%nat.

Lemma sk_new_holds budget : table_holds (sk_new budget) ∅.
Proof.
  split.
  - eexists _, _. split; [apply fresh_table|reflexivity]. pose proof (Z.div_pos (Z.max 0 budget) ASSUMED_ENTRY_BYTES).
    unfold ASSUMED_ENTRY_BYTES, MARGIN in *. lia.
  - cbn. unfold NIL, u32_max. lia.
Qed.

Lemma sk_insert_spec sk m key seq value :
  table_holds sk m -> sk_room sk seq -> fresh_for m key seq ->
  fst (sk_insert sk key seq value) = Some (spec_newest m key seq) /\
  table_holds (snd (sk_insert sk key seq value)) (spec_insert m key seq value) /\
  exists newest, arena_moves (CInsert (mkMutation key seq value)) sk (Take (mkMutation key seq value))
    (snd (sk_insert sk key seq value)) (Inserted newest).
Proof.
  intros [(chain & tw & Hinv & <-) Hn] (Hseq & Hnode & Hnil & Hlink) Hf. set (mut := mkMutation key seq value).
  destruct (run_alone_ends (CInsert mut) (alone_fuel sk) sk chain tw (Take mut)) as (chain' & tw' & R1 & R2 & R3 & R4 & R6 & R5); try done.
  - unfold indices_left. cbn. lia.
  - intros _ ? [= <-]. exact Hf.
  - by apply (alone_due Hinv (Take mut)).
  - unfold sk_insert. fold mut. destruct (run_alone (alone_fuel sk) sk (Take mut)) as [sk' p'] eqn:E. cbn [fst snd] in *.
    assert (room_for sk' p') as Hr by (apply R4; cbn; unfold NIL, u32_max in *; lia).
    unfold ends in R5. cbn [settled] in R5. destruct R5 as [[-> _]|(a & Ha & Hc)]; [done|].
    destruct p' as [| | | | | | | | | | |newest|answer|]; try done; injection Ha as <-; [|done].
    cbn in Hc. destruct Hc as [Hnew Hm]. split; [by rewrite Hnew|]. split; [|by exists newest]. split; [by exists chain', tw'|].
    destruct R6 as (_ & _ & R6 & _). cbn in R6. lia.
Qed.

Lemma sk_get_spec sk m key : table_holds sk m -> sk_get sk key = Some (answer_of (m !! key)).
Proof.
  intros [(chain & tw & Hinv & <-) Hn].
  destruct (run_alone_ends (CGet key) (alone_fuel sk) sk chain tw (Descend (ForGet key))) as (chain' & tw' & R1 & R2 & R3 & R4 & R6 & R5); try done.
  - unfold indices_left. cbn. lia.
  - by apply (alone_due Hinv (Descend (ForGet key))).
  - unfold sk_get. destruct (run_alone (alone_fuel sk) sk (Descend (ForGet key))) as [sk' p'] eqn:E. cbn [fst snd] in *.
    specialize (R4 I). unfold ends in R5. cbn [settled] in R5. destruct R5 as [[-> _]|(a & Ha & Hc)]; [done|].
    destruct p' as [| | | | | | | | | | |newest|answer|]; try done; injection Ha as <-; [done|]. by destruct Hc as [-> _].
Qed.

(** The newest version of each key, in order: the first cell that has it. *)
Fixpoint firsts (previous : option bytes) (cs : list cell) : list entry :=
  match cs with
  | [] => []
  | (_, e) :: cs =>
      if bool_decide (previous <> Some (en_key e)) then
        (en_key e, (en_seq e, en_value e)) :: firsts (Some (en_key e)) cs
      else firsts previous cs
  end.

Lemma held_in cs k v : held cs !! k = Some v -> exists c, c ∈ cs /\ en_key (snd c) = k.
Proof.
  intros Hk. destruct (decide (Exists (fun c => en_key (snd c) = k) cs)) as [He|He]; [by apply Exists_exists in He|].
  rewrite held_none in Hk; [done|]. intros c Hc E. apply He, Exists_exists. by exists c.
Qed.

(** Keys past the one before, and only those. *)
Lemma firsts_lists cs : forall previous,
  StronglySorted entry_le cs ->
  (forall k c, previous = Some k -> c ∈ cs -> key_le k (en_key (snd c))) ->
  entries_sorted (firsts previous cs) /\
  forall k v, (k, v) ∈ firsts previous cs <-> held cs !! k = Some v /\ previous <> Some k.
Proof.
  induction cs as [|[i e] cs IH]; intros previous Hs Hp; cbn [firsts].
  - split; [constructor|]. intros k v. unfold held. cbn. rewrite lookup_empty, elem_of_nil. split; [done|by intros [? _]].
  - apply StronglySorted_inv in Hs as [Hs Hall]. rewrite Forall_forall in Hall.
    assert (forall c, c ∈ cs -> key_le (en_key e) (en_key (snd c))) as Hle.
    { intros c Hc. specialize (Hall c Hc). unfold entry_le in Hall. rewrite order_vcmp, vcmp_ge in Hall. cbn in Hall.
      destruct Hall as [H|[-> _]]; unfold key_le; [unfold key_lt in H; by rewrite H|by rewrite bytes_cmp_refl]. }
    rewrite held_cons. cbn [snd]. case_bool_decide as Hnew.
    + destruct (IH (Some (en_key e)) Hs) as [Hso Hin]; [by intros k c [= <-] Hc; apply Hle|]. split.
      * constructor; [done|]. apply Forall_forall. intros [k v] [Hk Hne]%Hin. unfold entry_lt. cbn.
        destruct (held_in cs k v Hk) as (c & Hc & <-).
        specialize (Hle c Hc). clear -Hle Hne. assert (en_key e <> en_key (snd c)) by congruence. key_order.
      * intros k v. rewrite elem_of_cons, Hin, lookup_insert_Some. split.
        -- intros [[= -> ->]|[Hk Hne]]; [by auto|]. split; [right; split; [congruence|done]|].
           intros ->. destruct (held_in cs k v Hk) as (c & Hc & <-). assert (key_le (en_key (snd c)) (en_key e)) as Hge by (apply (Hp _ (i, e) eq_refl); left).
           specialize (Hle c Hc). assert (en_key e <> en_key (snd c)) by congruence. clear -Hle Hge H. key_order.
        -- intros [[[<- <-]|[Hk ?]] Hne]; [by left|]. right. split; [done|congruence].
    + assert (previous = Some (en_key e)) as -> by (by destruct (decide (previous = Some (en_key e)))).
      destruct (IH (Some (en_key e)) Hs) as [Hso Hin]; [by intros k c [= <-] Hc; apply Hle|]. split; [done|].
      intros k v. rewrite Hin, lookup_insert_Some. split.
      * intros [Hk Hne]. split; [right; split; [congruence|done]|done].
      * intros [[[E _]|[_ Hk]] Hne]; [congruence|done].
Qed.

(** Walking the bottom level. *)
Section Bottom.
Context {sk : SkipMemtable}.

Definition cells_of (cs : list cell) : Prop := forall i e, (i, e) ∈ cs -> i <> NIL /\ entry_at sk i = Some e.

Lemma len_loop_firsts fuel : forall cs from count previous,
  path sk 0 from cs -> cells_of cs -> (length cs < fuel)%nat ->
  len_loop fuel sk count previous (first_of cs) = Some (count + zlen (firsts previous cs)).
Proof.
  induction fuel as [|fuel IH]; intros cs from count previous Hp Hc Hf; [lia|].
  destruct cs as [|[i e] cs]; cbn [len_loop first_of fst firsts]; [rewrite zlen_nil; cbn; f_equal; lia|].
  destruct (Hc i e) as [Hi He]; [left|]. destruct (Z.eqb_spec i NIL); [done|]. cbn [path fst] in Hp. destruct Hp as [_ Hp].
  rewrite He, (path_first _ _ _ _ Hp). assert (cells_of cs) as Hc' by (intros ???; apply Hc; by right). cbn [length] in Hf.
  case_bool_decide; rewrite (IH cs i) by (try done; lia); [rewrite zlen_cons; f_equal; lia|done].
Qed.

Lemma for_each_firsts {S} (visit : bytes -> Z -> option bytes -> stm S unit) fuel : forall cs from previous s,
  path sk 0 from cs -> cells_of cs -> (length cs < fuel)%nat ->
  for_each_loop fuel sk visit previous (first_of cs) s = visit_all visit (firsts previous cs) s.
Proof.
  induction fuel as [|fuel IH]; intros cs from previous s Hp Hc Hf; [lia|].
  destruct cs as [|[i e] cs]; cbn [for_each_loop first_of fst firsts]; [done|].
  destruct (Hc i e) as [Hi He]; [left|]. destruct (Z.eqb_spec i NIL); [done|]. cbn [path fst] in Hp. destruct Hp as [_ Hp].
  rewrite He, (path_first _ _ _ _ Hp). assert (cells_of cs) as Hc' by (intros ???; apply Hc; by right). cbn [length] in Hf.
  unfold expect, lift, mbind, stm_bind. cbn [ok_or]. case_bool_decide; [|by apply (IH cs i); try done; lia]. cbn [visit_all].
  unfold mbind, stm_bind. destruct (visit _ _ _ s) as [[[]|err] s']; [|done]. apply (IH cs i); [done|done|lia].
Qed.
End Bottom.

Lemma bottom_path sk chain tw : table_inv sk chain tw ->
  path sk 0 HEAD (chain 0%nat) /\ cells_of (sk := sk) (chain 0%nat) /\ (length (chain 0%nat) < S (length (sk_nodes sk)))%nat.
Proof.
  intros Hinv. split_and!.
  - apply (ti_path _ _ _ Hinv). unfold MAX_HEIGHT. lia.
  - intros i e Hc. apply (ti_cells _ _ _ Hinv) in Hc as (? & He & _). split; [lia|done].
  - pose proof (chain_length _ _ _ 0 Hinv). lia.
Qed.

Lemma firsts_map sk chain tw : table_inv sk chain tw -> lists (firsts None (chain 0%nat)) (held (chain 0%nat)).
Proof.
  intros Hinv. destruct (firsts_lists (chain 0%nat) None (ti_sorted _ _ _ Hinv 0)) as [Hs Hin]; [done|].
  split; [done|]. intros k v. rewrite Hin. split; [by intros [? _]|done].
Qed.

#[export] Program Instance skip_laws : MemtableLaws SkipMemtable := {
  represents := table_holds;
  has_room := sk_room;
}.
Next Obligation. exact sk_new_holds. Qed.
Next Obligation. intros t m key seq value Ht Hr Hf. by destruct (sk_insert_spec t m key seq value Ht Hr Hf) as (? & ? & _). Qed.
Next Obligation. intros t m key. apply sk_get_spec. Qed.
Next Obligation.
  intros t m [(chain & tw & Hinv & <-) _]. destruct (bottom_path _ _ _ Hinv) as (Hp & Hc & _). cbn. unfold sk_is_empty.
  rewrite (path_first _ _ _ _ Hp). destruct (chain 0%nat) as [|[i e] cs]; cbn [first_of fst default].
  - by rewrite bool_decide_true.
  - destruct (Hc i e) as [Hi _]; [left|]. rewrite bool_decide_false; [by apply Z.eqb_neq|].
    rewrite held_cons. apply insert_non_empty.
Qed.
Next Obligation.
  intros t m [(chain & tw & Hinv & <-) _]. destruct (bottom_path _ _ _ Hinv) as (Hp & Hc & Hl).
  change (sk_len t = Some (Z.of_nat (size (held (chain 0%nat))))). unfold sk_len. rewrite (path_first _ _ _ _ Hp). cbn [mbind option_bind].
  rewrite (len_loop_firsts _ _ _ _ _ Hp Hc Hl). unfold zlen. by rewrite (lists_size _ _ (firsts_map _ _ _ Hinv)).
Qed.
Next Obligation.
  intros t m [(chain & tw & Hinv & <-) _]. destruct (bottom_path _ _ _ Hinv) as (Hp & Hc & Hl).
  exists (firsts None (chain 0%nat)). split; [by eapply firsts_map|]. intros S visit s.
  change (sk_for_each t visit s = visit_all visit (firsts None (chain 0%nat)) s). unfold sk_for_each. rewrite (path_first _ _ _ _ Hp).
  unfold expect, lift, mbind, stm_bind. cbn [ok_or].
  by apply (for_each_firsts visit _ _ _ _ _ Hp Hc Hl).
Qed.

(** ** Room, counted *)

(** After [n] mutations in an arena of [capacity] nodes. *)
Definition arena_used (capacity : Z) (n : nat) (sk : SkipMemtable) : Prop :=
  zlen (sk_nodes sk) = capacity /\ length (sk_links sk) = (Z.to_nat capacity * LINKS_PER_NODE)%nat /\
  sk_next_node sk = 1 + Z.of_nat n /\ (sk_next_link sk <= MAX_HEIGHT + tower_links n)%nat.

Lemma arena_fresh budget : let capacity := Z.max 0 budget / ASSUMED_ENTRY_BYTES + MARGIN + 1 in arena_used capacity 0 (sk_new budget).
Proof.
  intros capacity. assert (0 <= capacity) by (assert (0 <= Z.max 0 budget / ASSUMED_ENTRY_BYTES) by (apply Z.div_pos; unfold ASSUMED_ENTRY_BYTES; lia); unfold capacity, MARGIN; lia).
  unfold arena_used, sk_new, with_capacity. fold capacity. cbn [sk_nodes sk_links sk_next_node sk_next_link].
  unfold zlen. rewrite length_insert, !length_replicate. split_and!; [lia|done|lia|cbn [tower_links]; lia].
Qed.

Lemma arena_insert capacity n sk m key seq value :
  arena_used capacity n sk -> table_holds sk m -> sk_room sk seq -> fresh_for m key seq ->
  arena_used capacity (S n) (snd (sk_insert sk key seq value)).
Proof.
  intros (A1 & A2 & A3 & A4) Ht Hr Hf. destruct (sk_insert_spec sk m key seq value Ht Hr Hf) as (_ & _ & newest & M1 & M2 & M3 & M4).
  cbn [took asked snd] in M3, M4. unfold arena_used, zlen in *. rewrite M1, M2. split_and!; [done|done|lia|].
  replace (Z.to_nat (sk_next_node sk - 1)) with n in M4 by lia.
  replace (Z.to_nat (sk_next_node (snd (sk_insert sk key seq value)) - 1)) with (S n) in M4 by lia. lia.
Qed.

Lemma arena_room capacity n sk seq :
  arena_used capacity n sk -> towers_fit capacity = true -> Z.of_nat n + 1 < capacity -> capacity + 2 <= u32_max -> seq <= u64_max -> sk_room sk seq.
Proof.
  intros (A1 & A2 & A3 & A4) Hfit%Nat.ltb_lt Hn Hc Hs. unfold sk_room. rewrite A1, A2, A3. unfold NIL.
  pose proof (tower_links_mono n (Z.to_nat (capacity - 1)) ltac:(lia)). split_and!; [done|lia|lia|lia].
Qed.

Lemma arena_roomy capacity muts : forall n sk m,
  arena_used capacity n sk -> towers_fit capacity = true -> Z.of_nat n + zlen muts < capacity -> capacity + 2 <= u32_max ->
  (forall en, en ∈ muts -> fst (snd en) <= u64_max) -> table_holds sk m -> NoDup (numbering muts) ->
  (forall k s v, (k, (s, v)) ∈ muts -> fresh_for m k s) ->
  roomy sk muts /\ arena_used capacity (n + length muts) (mt_apply sk muts).
Proof.
  induction muts as [|[k [s v]] muts IH]; intros n sk m Ha Hfit Hn Hc Hs Ht Hnd Hf; cbn [roomy mt_apply fold_left length];
    [split; [done|by rewrite Nat.add_0_r]|]. rewrite zlen_cons in Hn. pose proof (zlen_nonneg muts).
  assert (sk_room sk s) as Hr by (apply (arena_room capacity n); [done|exact Hfit|lia|exact Hc|apply (Hs (k, (s, v))); left]).
  assert (fresh_for m k s) as Hfk by (eapply Hf; left).
  destruct (sk_insert_spec sk m k s v Ht Hr Hfk) as (_ & Ht' & _). pose proof Hnd as [_ Hnd']%NoDup_cons.
  destruct (IH (S n) (snd (mt_insert sk k s v)) (spec_insert m k s v)) as [IH1 IH2];
    [by eapply arena_insert|exact Hfit|lia|exact Hc|by intros en Hen; apply Hs; right|done|done|by eapply fresh_after|].
  split; [by split|]. by rewrite <- Nat.add_succ_comm.
Qed.

(** ** Claims *)

(** C25: no caller waits for another. Stop every caller but one at any moment, each
    wherever it stands, a node taken and not linked or half of its tower linked, and
    let any of the one's [compare_exchange_weak]s fail for no reason: not counting
    those failures, it finishes in a number of accesses the size of the arena bounds,
    and ends as if there had been none, with an answer unless the arena is exhausted. *)
Theorem left_alone_finishes budget capacity s i c p (flags : list bool) :
  3 <= capacity -> system_steps (fresh_system budget capacity) s -> sy_calls s !! i = Some (c, p) ->
  (alone_fuel (sy_table s) <= fair flags)%nat ->
  exists sk' p', run_weakly flags (sy_table s) p = (sk', p') /\ run_alone (alone_fuel (sy_table s)) (sy_table s) p = (sk', p') /\
    finished p' = true /\ (p' <> Panicked -> exists a, returned p' = Some a).
Proof.
  intros Hc Hs Hp Hflags. destruct (system_keeps _ _ _ _ (fresh_system_inv budget capacity Hc) Hs) as (chain & tw & Hi).
  pose proof (si_calls _ _ _ Hi i c p Hp) as [Hth Hb]. pose proof (si_table _ _ _ Hi) as Ht.
  destruct (run_alone_ends c (alone_fuel (sy_table s)) (sy_table s) chain tw p Ht Hth Hb) as (chain' & tw' & _ & _ & R3 & _ & _ & R5).
  - unfold indices_left. rewrite (si_taken _ _ _ Hi). pose proof (taken_nodes_le (sy_calls s)). pose proof (si_bound _ _ _ Hi).
    unfold NIL. destruct (took (c, p)); lia.
  - by eapply call_fresh.
  - by apply (alone_due Ht p).
  - rewrite (run_weakly_ends _ _ _ _ (thread_climbs _ _ _ _ Hth) Hflags R3).
    destruct (run_alone _ _ _) as [sk' p'] eqn:E. exists sk', p'. cbn [fst snd] in *. split_and!; [done..|].
    intros Hne. destruct p'; try done; by eexists.
Qed.

Definition stopped : System := schedule (concat (replicate 9 [0; 1]%nat)) race.

(** Every third access would see a swap fail for no reason. *)
Definition demo_flags : list bool := concat (replicate 280 [false; true; false]).

Lemma left_alone_finishes_witness : exists c p,
  sy_calls stopped !! 1%nat = Some (c, p) /\ finished p = false /\
  exists sk' p', run_weakly demo_flags (sy_table stopped) p = (sk', p') /\ finished p' = true.
Proof.
  assert (match sy_calls stopped !! 1%nat with Some (_, p) => finished p | None => true end = false) as Hp by (vm_compute; reflexivity).
  assert (system_steps (fresh_system 0 8) stopped) as Hs by (transitivity race; [exact race_steps|apply schedule_steps]).
  assert (alone_fuel (sy_table stopped) <= fair demo_flags)%nat as Hfl by (vm_compute; lia).
  destruct (sy_calls stopped !! 1%nat) as [[c p]|] eqn:E; [|discriminate]. exists c, p. split; [reflexivity|]. split; [exact Hp|].
  destruct (left_alone_finishes 0 8 stopped 1 c p demo_flags ltac:(lia) Hs E Hfl) as (sk' & p' & Er & _ & Hf & _).
  exists sk'. exists p'. split; [exact Er|exact Hf].
Defined.

(** C23: the two memtables are one. Feed the same mutations, in the order the engine
    inserts them, to a skip list and to a B-tree: every lookup, the number of keys and
    the entries handed to any visitor, in their order, are the same, and the skip list
    does not panic, as long as it has a node and the links for each. *)
Theorem memtables_agree budget muts key :
  let capacity := Z.max 0 budget / ASSUMED_ENTRY_BYTES + MARGIN + 1 in
  towers_fit capacity = true -> capacity + 2 <= u32_max -> zlen muts < capacity ->
  (forall en, en ∈ muts -> fst (snd en) <= u64_max) -> NoDup (numbering muts) ->
  let sk := mt_apply (sk_new budget) muts in let bt := mt_apply bt_new muts in
  sk_get sk key = Some (bt_get bt key) /\ sk_len sk = Some (bt_len bt) /\ sk_is_empty sk = bt_is_empty bt /\
  forall S visit (s : S), sk_for_each sk visit s = bt_for_each bt visit s.
Proof.
  intros capacity Hfit Hc Hn Hs Hnd sk bt.
  assert (roomy (sk_new budget) muts) as Hroom.
  { apply (arena_roomy capacity muts 0 (sk_new budget) ∅); [apply arena_fresh|done|lia|done|done|apply sk_new_holds|done|].
    intros k s v _ w. by rewrite lookup_empty. }
  assert (represents sk (spec_apply ∅ muts)) as Hsk.
  { apply mt_apply_represents; [exact (law_build (T := SkipMemtable) budget)|done|done|]. intros k s v _ w. by rewrite lookup_empty. }
  assert (represents bt (spec_apply ∅ muts)) as Hbt by by apply bt_apply_represents.
  split_and!.
  - change (mt_get sk key = mt_get bt key). by rewrite (law_get _ _ _ Hsk), (law_get _ _ _ Hbt).
  - change (mt_len sk = mt_len bt). by rewrite (law_len _ _ Hsk), (law_len _ _ Hbt).
  - change (mt_is_empty sk = mt_is_empty bt). by rewrite (law_is_empty _ _ Hsk), (law_is_empty _ _ Hbt).
  - intros S visit s. change (mt_for_each sk visit s = mt_for_each bt visit s).
    destruct (law_for_each _ _ Hsk) as (es & He & Hv). destruct (law_for_each _ _ Hbt) as (es' & He' & Hv').
    by rewrite Hv, Hv', (lists_unique _ _ _ He He').
Qed.

Lemma memtables_agree_witness :
  towers_fit (Z.max 0 0 / ASSUMED_ENTRY_BYTES + MARGIN + 1) = true /\ NoDup (numbering demo_muts) /\
  sk_get (mt_apply (sk_new 0) demo_muts) (bstr "k") = Some (bt_get (mt_apply bt_new demo_muts) (bstr "k")).
Proof.
  assert (towers_fit (Z.max 0 0 / ASSUMED_ENTRY_BYTES + MARGIN + 1) = true) as Hfit by (vm_compute; reflexivity).
  assert (NoDup (numbering demo_muts)) as Hnd by (apply (bool_decide_unpack _); vm_compute; exact I).
  assert (forall en, en ∈ demo_muts -> fst (snd en) <= u64_max) as Hs.
  { apply Forall_forall. repeat constructor; vm_compute; discriminate. }
  assert (Z.max 0 0 / ASSUMED_ENTRY_BYTES + MARGIN + 1 + 2 <= u32_max) as Hc by (vm_compute; discriminate).
  assert (zlen demo_muts < Z.max 0 0 / ASSUMED_ENTRY_BYTES + MARGIN + 1) as Hn by (vm_compute; reflexivity).
  split; [exact Hfit|]. split; [exact Hnd|].
  destruct (memtables_agree 0 demo_muts (bstr "k") Hfit Hc Hn Hs Hnd) as [Hg _]. exact Hg.
Defined.
