(* ===== verification/Program.v ===== *)
(** * The server program ([main.rs], [server.rs])

    [main]: the options, the store opened with the memtable they name, the listener,
    the loop that accepts connections until ctrl-c, and the store let go of. The
    sockets and the runtime are outside: what they return is given, and so are
    the commands of the connections and the turns of the background thread in the
    order they reach the store. What goes to the standard streams while connections are served is
    not modelled. *)

From S2P Require Import Prelude Wal Memtable Disk Manifest Engine Btree Resp Commands Sessions Options Skiplist SkipTable.

Inductive ExitCode := SUCCESS | FAILURE.

(** What the process printed, and its exit code. *)
Record Process := mkProcess { pr_stdout : string; pr_stderr : string; pr_code : ExitCode }.

Definition LF : string := String (Ascii.ascii_of_nat 10) EmptyString.

Definition USAGE : string :=
  "lsmkv-server [options]

  --dir PATH              data directory (default: data)
  --port N                port to listen on (default: 6379)
  --sync POLICY           always, group, or a number of milliseconds for the
                          interval policy (default: group)
  --memtable-bytes N      bytes held in memory before a flush (default: 4194304)
  --memtable KIND         btree or skiplist (default: btree)
  --help                  print this
".

(** ** The accept loop *)

(** What the loop is woken by: a connection, or the signal. *)
Inductive Event (S : Type) :=
  | Accepted (r : io_error + S)
  | CtrlC (r : option io_error).
Arguments Accepted {S}.
Arguments CtrlC {S}.

(** The connections given a task, what is printed, and how it ends: [None] while it
    waits for the next event. *)
Fixpoint accept_loop {S} (events : list (Event S)) : list S * string * option (option io_error) :=
  match events with
  | [] => ([], "", None)
  | Accepted (inl err) :: _ => ([], "", Some (Some err))
  | Accepted (inr stream) :: events => let '(streams, printed, r) := accept_loop events in (stream :: streams, printed, r)
  | CtrlC (Some err) :: _ => ([], "", Some (Some err))
  | CtrlC None :: _ => ([], ("stopping" +:+ LF)%string, Some None)
  end.

(** [server::run], [bound] being what binding and asking for the address returned. *)
Definition run {S} (bound : io_error + string) (events : list (Event S)) : list S * string * option (option io_error) :=
  match bound with
  | inl err => ([], "", Some (Some err))
  | inr local_addr =>
      let '(streams, printed, r) := accept_loop events in
      (streams, ("lsmkv listening on " +:+ local_addr +:+ LF +:+ printed)%string, r)
  end.

(** ** The process *)

(** What the world outside does: whether the runtime starts, what binding returns,
    the events of the loop, and what reaches the store while it runs. *)
Record Outside (S : Type) := mkOutside {
  ou_runtime : option io_error;
  ou_bound : io_error + string;
  ou_events : list (Event S);
  ou_turns : list Turn;
}.
Arguments mkOutside {S}.
Arguments ou_runtime {S}.
Arguments ou_bound {S}.
Arguments ou_events {S}.
Arguments ou_turns {S}.

(** [serve] over the memtable chosen: what was printed, the error it ended with, if
    any ([None] while it is still running), and the directory. *)
Definition serve_with {S} (T : Type) `{!Memtable T} (o : Options) (outside : Outside S) (w : World) : string * option (option string) * World :=
  match engine_open (T := T) (op_dir o) (op_config o) w with
  | (Err err, w) => ("", Some (Some (error_display err)), w)
  | (Ok e, w) =>
      let s := snd (run_turns (ou_turns outside) (e, w)) in
      match ou_runtime outside with
      | Some err => ("", Some (Some (io_message err)), engine_drop s)
      | None =>
          let '(_, printed, r) := run (ou_bound outside) (ou_events outside) in
          match r with
          | None => (printed, None, snd s)
          | Some err => (printed, Some (io_message <$> err), engine_drop s)
          end
      end
  end.

(** [memtable::build]'s choice, made once. *)
Definition serve_options {S} (o : Options) (outside : Outside S) (w : World) : string * option (option string) * World :=
  match op_memtable o with
  | KBTree => serve_with BTreeMemtable o outside w
  | KSkiplist => serve_with SkipMemtable o outside w
  end.

(** [None] while the server runs. *)
Definition main {S} (args : list string) (outside : Outside S) (w : World) : option Process * World :=
  match parse_args args options_default with
  | inr None => (Some (mkProcess USAGE "" SUCCESS), w)
  | inl message => (Some (mkProcess "" ("lsmkv-server: " +:+ message +:+ LF +:+ LF +:+ USAGE +:+ LF) FAILURE), w)
  | inr (Some o) =>
      let '(printed, r, w) := serve_options o outside w in
      (match r with
       | None => None
       | Some None => Some (mkProcess printed "" SUCCESS)
       | Some (Some err) => Some (mkProcess printed ("lsmkv-server: " +:+ err +:+ LF) FAILURE)
       end, w)
  end.

(** ** What is known of it *)

(** A command line that is refused, or asks for help, touches nothing. *)
Lemma main_touches_nothing {S} args (outside : Outside S) w :
  (forall o, parse_args args options_default <> inr (Some o)) -> snd (main args outside w) = w.
Proof. intros Hno. unfold main. destruct (parse_args args options_default) as [message|[o|]]; [done| |done]. by destruct (Hno o). Qed.

(** Options written out as a command line are the ones the store is opened with. *)
Lemma main_serves {S} o (outside : Outside S) w : options_ok o ->
  main (arguments_of o) outside w =
    let '(printed, r, w) := serve_options (given o options_default) outside w in
    (match r with
     | None => None
     | Some None => Some (mkProcess printed "" SUCCESS)
     | Some (Some err) => Some (mkProcess printed ("lsmkv-server: " +:+ err +:+ LF) FAILURE)
     end, w).
Proof.
  intros Ho. unfold main. assert (parse_args (arguments_of o) options_default = inr (Some (given o options_default))) as ->; [|done].
  rewrite <- (app_nil_r (arguments_of o)). by rewrite parse_arguments.
Qed.

(** Every connection accepted before the loop ends is given a task; the loop ends at
    the first signal or failed accept and at nothing else. *)
Lemma accept_loop_spec {S} (streams : list S) rest :
  accept_loop ((fun stream => Accepted (inr stream)) <$> streams) = (streams, "", None) /\
  accept_loop (((fun stream => Accepted (inr stream)) <$> streams) ++ CtrlC None :: rest) = (streams, ("stopping" +:+ LF)%string, Some None) /\
  forall err, accept_loop (((fun stream => Accepted (inr stream)) <$> streams) ++ Accepted (inl err) :: rest) = (streams, "", Some (Some err)).
Proof.
  induction streams as [|stream streams (IH1 & IH2 & IH3)]; [done|]. cbn [fmap list_fmap app accept_loop]. rewrite IH1, IH2. split_and!; [done|done|].
  intros err. by rewrite IH3.
Qed.

(** A server asked for help, one given a bad port, and one that runs until ctrl-c. *)
Example main_examples :
  let outside := mkOutside None (inr "127.0.0.1:7000") [Accepted (inr tt); CtrlC None] [asked "SET" ["k"; "1"]] in
  (pr_code <$> fst (main (S := unit) ["-h"] outside (mkWorld empty_disk []))) = Some SUCCESS /\
  (pr_code <$> fst (main (S := unit) ["--port"; "x"] outside (mkWorld empty_disk []))) = Some FAILURE /\
  (fst (main (S := unit) ["--dir"; "db"; "--memtable-bytes"; "64"; "--port"; "7000"; "--memtable"; "skiplist"] outside (mkWorld empty_disk []))) =
    Some (mkProcess ("lsmkv listening on 127.0.0.1:7000" +:+ LF +:+ "stopping" +:+ LF) "" SUCCESS).
Proof. vm_compute. by split_and!. Qed.
