(* ===== verification/Exhausted.v ===== *)
(** * Recovery into a table of fixed size

    [engine.rs]'s [open] replays every log still present into one memtable and never
    rotates while it does. The skip list cannot grow, so a directory that holds as many
    records in its logs as the arena has nodes cannot be opened with it: the records
    of several tables frozen but not flushed, or a B-tree's worth of small entries.

    What [open] does with a directory of logs is proved for any table; the rest is
    which tables can take what the logs say. *)

From S2P Require Import Prelude WalRecord WalReplay Wal Memtable Btree Disk SsTable Manifest Naming Compaction Engine.
From S2P Require Import Runs Crashes Layout Tells Listings Reopen Recovery Opened Skiplist SkipSpec SkipSystem SkipTable.

(** ** A directory of logs *)

(** The directory holds these logs, by number, and nothing else; each reads as its
    records, after which there may be the torn beginning of one more. *)
Record only_logs (d : Disk) (logs : list (Z * list LogRecord)) : Prop := {
  ol_increasing : StronglySorted Z.lt logs.*1;
  ol_nothing_else : forall name, is_Some (names d !! name) <-> exists k, k ∈ logs.*1 /\ name = log_name k;
  ol_reads : forall k recs, (k, recs) ∈ logs -> u64_ok k /\ recoverable d (log_name k) recs /\ Forall record_ok recs;
}.

Lemma sorted_distinct (l : list Z) : StronglySorted Z.lt l -> NoDup l.
Proof.
  induction 1 as [|x l _ IH Hx]; constructor; [|done]. rewrite Forall_forall in Hx. intros Hin. specialize (Hx x Hin). lia.
Qed.

(** What [Listing::scan] makes of it. *)
Lemma only_logs_listing d logs : only_logs d logs -> let listing := listing_of (map_to_list (names d)).*1 in
  ls_logs listing = logs.*1 /\ ls_tables listing = [] /\ ls_partial listing = [].
Proof.
  intros [O1 O2 O3] listing.
  assert (forall name, name ∈ (map_to_list (names d)).*1 <-> exists k, k ∈ logs.*1 /\ name = log_name k) as Hin.
  { intros name. by rewrite elem_of_names, O2. }
  assert (forall k, k ∈ logs.*1 -> u64_ok k) as Hu.
  { intros k ([k' recs] & -> & Hk)%list_elem_of_fmap. apply (O3 _ _ Hk). }
  destruct (listing_listed (map_to_list (names d)).*1) as [L1 L2 L3 _ L5 _ _].
  - intros name (k & Hk & ->)%Hin. constructor. by apply Hu.
  - apply NoDup_fst_map_to_list.
  - fold listing in L1, L2, L3, L5. split_and!.
    + apply (sorted_same Z.lt); [|done|done|lia]. apply NoDup_Permutation; [by apply sorted_distinct..|].
      intros k. rewrite L1, Hin. split; [|intros Hk; split; [by apply Hu|by exists k]].
      intros (Hk & k' & Hk' & E). by rewrite (log_name_inj k k' Hk (Hu _ Hk') E).
    + apply elem_of_nil_inv. intros k [Hk (k' & Hk' & E)%Hin]%L3. by apply (log_not_table k' k).
    + apply elem_of_nil_inv. intros name [Ht (k' & Hk' & ->)%Hin]%L5. by apply log_not_tmp in Ht.
Qed.

(** Nothing failing, the older logs are read as they are. *)
Lemma replay_only_logs {T} `{!Memtable T} dir d logs : forall (active : T) last_seq,
  (forall k recs, (k, recs) ∈ logs -> is_Some (names d !! log_name k) /\ recoverable d (log_name k) recs /\ Forall record_ok recs) ->
  replay_logs dir logs.*1 active last_seq (mkWorld d []) =
    ((active ← apply_records active (concat logs.*2); Ok (active, highest_seq (concat logs.*2) last_seq)), mkWorld d []).
Proof.
  induction logs as [|[k recs] logs IH]; intros active last_seq Hr; [done|]. cbn [fmap list_fmap replay_logs concat fst snd].
  destruct (Hr k recs ltac:(left)) as ([i Hi] & Hrec & Hok). unfold recoverable in Hrec. change (file_name k LOG_EXT) with (log_name k).
  unfold wal_replay. run_stm. rewrite open_log_clean, Hi in *. cbn beta iota. destruct Hrec as (tail & -> & Ht).
  destruct (replay_records (join dir (log_name k)) recs tail Hok Ht) as [-> Hall]. cbn beta iota.
  unfold drain_all. rewrite Hall. cbn [default id fst]. rewrite apply_records_app, highest_seq_app.
  unfold mbind, result_bind. destruct (apply_records active recs) as [active1|err]; [|done].
  change (replay_logs dir logs.*1 active1 (highest_seq recs last_seq) (mkWorld d []) = (active ← apply_records active1 (concat logs.*2);
    Ok (active, highest_seq (concat logs.*2) (highest_seq recs last_seq)), mkWorld d [])).
  apply IH. intros k' recs' Hin. apply Hr. by right.
Qed.

(** Opening it, with nothing failing, comes to applying all it says to a new table. *)
Lemma open_only_logs {T} `{!Memtable T} dir config d logs : only_logs d logs -> logs <> [] ->
  match apply_records (mt_build (cf_memtable_bytes config) : T) (concat logs.*2) with
  | Ok t => exists e w, engine_open dir config (mkWorld d []) = (Ok e, w) /\ st_active (en_state e) = t
  | Err err => fst (engine_open (T := T) dir config (mkWorld d [])) = Err err
  end.
Proof.
  intros Hol Hne. destruct (only_logs_listing d logs Hol) as (L1 & L2 & L3). destruct Hol as [_ O2 O3].
  assert (names d !! FILE_NAME = None) as Hman.
  { apply eq_None_not_Some. intros (k & _ & E)%O2. by apply (manifest_not_log k). }
  destruct logs as [|[k recs] pre _] using rev_ind; [done|]. rewrite !fmap_app, concat_app. cbn [fmap list_fmap concat app] in *. rewrite app_nil_r.
  assert (forall k' recs', (k', recs') ∈ pre ++ [(k, recs)] -> is_Some (names d !! log_name k') /\ recoverable d (log_name k') recs' /\ Forall record_ok recs') as Hr.
  { intros k' recs' Hin. destruct (O3 _ _ Hin) as (_ & ? & ?). split_and!; [|done|done]. apply O2. exists k'. split; [|done].
    apply (list_elem_of_fmap_2 fst) in Hin. done. }
  destruct (Hr k recs) as (_ & Hrec & Hok); [apply elem_of_app; right; left|].
  assert (fst <$> pre ++ [(k, recs)] = pre.*1 ++ [k]) as Ek by (by rewrite fmap_app). rewrite Ek in L1.
  destruct (engine_open dir config (mkWorld d [])) as [r w] eqn:E. cbn [fst].
  unfold engine_open in E. run_stm. unfold disk_open_dir at 1 in E. rewrite call_clean in E. cbn [fst snd] in E.
  unfold listing_scan in E. run_stm. unfold disk_list in E. rewrite call_clean in E. cbn [fst snd] in E.
  set (listing := listing_of (map_to_list (names d)).*1) in *. unfold orphans in E. rewrite L1, L2, L3 in E. cbn [remove_files] in E. run_stm.
  unfold manifest_load in E. run_stm. unfold disk_read at 1 in E. rewrite call_clean in E. unfold read_run in E. rewrite Hman in E.
  cbn [fst snd not_found filter list_filter fmap list_fmap remove_files] in E. run_stm.
  change (open_levels dir snapshot_default (mkWorld d [])) with (Ok [[]] : result (list (list Table)), mkWorld d []) in E. cbn beta iota in E.
  rewrite last_snoc, length_app in E. cbn [length] in E. rewrite Nat.add_sub, take_app_length in E. run_stm.
  rewrite (replay_only_logs dir d pre) in E by (intros k' recs' Hin; apply Hr, elem_of_app; by left).
  rewrite apply_records_app. unfold mbind, result_bind in *.
  destruct (apply_records _ (concat pre.*2)) as [active|err]; [|by injection E as <- <-]. cbn beta iota in E.
  change (file_name k LOG_EXT) with (log_name k) in E.
  match type of E with context [wal_recover ?p ?n ?pol ?l _] => destruct (wal_recover_spec p n pol l d recs Hrec Hok) as (i & d' & Hw & _) end.
  rewrite Hw in E. cbn [snd] in *. cbn beta iota in E.
  destruct (apply_records active recs) as [t|err]; injection E as <- <-; [by eexists _, _|done].
Qed.

(** ** What a table can take *)

Lemma arena_size budget : 0 < Z.max 0 budget / ASSUMED_ENTRY_BYTES + MARGIN + 1.
Proof. assert (0 <= Z.max 0 budget / ASSUMED_ENTRY_BYTES) by (apply Z.div_pos; unfold ASSUMED_ENTRY_BYTES; lia). unfold MARGIN. lia. Qed.

(** The insert of the first mutation past the last node panics. *)
Lemma full_insert_panics capacity n sk key seq value : arena_used capacity n sk -> capacity <= 1 + Z.of_nat n ->
  fst (sk_insert sk key seq value) = None.
Proof.
  intros (A1 & _ & A3 & _) Hn. unfold sk_insert. assert (exists n, alone_fuel sk = S (S n)) as [fuel ->] by (eexists; reflexivity).
  cbn [run_alone finished thread_step]. by rewrite A1, (proj2 (Z.ltb_ge _ _)) by lia.
Qed.

Lemma records_in_u64 recs en : Forall record_ok recs -> en ∈ mutation <$> recs -> fst (snd en) <= u64_max.
Proof.
  intros Hok (r & -> & Hr)%list_elem_of_fmap. rewrite Forall_forall in Hok. by destruct (Hok r Hr) as [[_ ?] _].
Qed.

(** As many records as the arena has nodes are one too many: the head has a node. *)
Lemma skip_list_overfilled budget records : let capacity := Z.max 0 budget / ASSUMED_ENTRY_BYTES + MARGIN + 1 in
  towers_fit capacity = true -> capacity + 2 <= u32_max -> capacity <= zlen records ->
  Forall record_ok records -> NoDup (numbering (mutation <$> records)) ->
  apply_records (mt_build budget : SkipMemtable) records = Err Panic.
Proof.
  intros capacity Hfit Hc Hn Hok Hnd. pose proof (arena_fresh budget) as Ha. fold capacity in Ha. cbn zeta in Ha.
  pose proof (arena_size budget : 0 < capacity) as Hpos.
  rewrite <- (take_drop (Z.to_nat (capacity - 1)) records) in Hok, Hnd |- *. set (first := take _ _) in *.
  assert (zlen first = capacity - 1) as Hf by (unfold first, zlen in *; rewrite length_take; clearbody capacity; lia).
  clearbody capacity.
  destruct (drop _ records) as [|r rest] eqn:Er.
  { apply (f_equal length) in Er. rewrite length_drop in Er. unfold zlen in Hn. cbn in Er. lia. }
  apply Forall_app in Hok as [Hok _]. rewrite fmap_app in Hnd. unfold numbering in Hnd. rewrite fmap_app in Hnd. apply NoDup_app in Hnd as (Hnd & _ & _).
  assert (forall k s v, (k, (s, v)) ∈ mutation <$> first -> fresh_for ∅ k s) as Hfresh by (intros k s v _ w; by rewrite lookup_empty).
  destruct (arena_roomy capacity (mutation <$> first) 0 (sk_new budget) ∅) as [Hroom Hused];
    [exact Ha|exact Hfit|unfold zlen in *; rewrite length_fmap; cbn; lia|exact Hc|by intros en; apply records_in_u64|apply sk_new_holds|exact Hnd|exact Hfresh|].
  change (mt_build budget : SkipMemtable) with (sk_new budget).
  rewrite apply_records_app, (apply_records_room first _ ∅); [|exact (law_build (T := SkipMemtable) budget)|done..].
  cbn [mbind result_bind apply_records]. unfold apply_record.
  pose proof (full_insert_panics capacity _ _ (record_key r) (record_seq r) (record_value r) Hused) as Hp.
  change (mt_insert (mt_apply (sk_new budget) (mutation <$> first))) with (sk_insert (mt_apply (sk_new budget) (mutation <$> first))).
  destruct (sk_insert _ _ _ _) as [newest sk]. cbn [fst] in Hp. rewrite Hp; [done|]. rewrite length_fmap. unfold zlen in *. lia.
Qed.

(** A B-tree takes them all. *)
Lemma btree_takes_all records : forall t : BTreeMemtable, exists t', apply_records t records = Ok t'.
Proof. induction records as [|r records IH]; intros t; [by exists t|]. apply IH. Qed.

(** ** Claims *)

(** C35: Recovery can panic, and does so at every attempt. Take a directory that holds
    logs and nothing else, each of them whole or torn in its last record, no two records
    having both the same key and the same number, and call [open] on it with no system
    call failing. With the B-tree it succeeds. With the skip list, if the logs hold as
    many records between them as the arena has nodes, it panics: the logs are replayed
    into one table, without rotating, and the insert of the record past the last node
    does not return. The arena is the one the configured budget gives, of fewer than
    2^32 - 2 nodes, and its links do not run out before its nodes ([towers_fit], which a
    computation settles). *)
Theorem full_logs_panic_open dir config d (logs : list (Z * list LogRecord)) :
  let records := concat logs.*2 in
  let capacity := Z.max 0 (cf_memtable_bytes config) / ASSUMED_ENTRY_BYTES + MARGIN + 1 in
  only_logs d logs -> NoDup (numbering (mutation <$> records)) ->
  towers_fit capacity = true -> capacity + 2 <= u32_max -> capacity <= zlen records ->
  (exists e w, engine_open (T := BTreeMemtable) dir config (mkWorld d []) = (Ok e, w)) /\
  fst (engine_open (T := SkipMemtable) dir config (mkWorld d [])) = Err Panic.
Proof.
  intros records capacity Hol Hnd Hfit Hc Hn. assert (logs <> []) as Hne.
  { pose proof (arena_size (cf_memtable_bytes config) : 0 < capacity) as Hpos. intros E. subst logs. change (zlen records) with 0 in Hn. lia. }
  assert (Forall record_ok records) as Hok.
  { apply Forall_concat, Forall_fmap, Forall_forall. intros [k recs] Hin. apply (ol_reads _ _ Hol _ _ Hin). }
  split.
  - pose proof (open_only_logs (T := BTreeMemtable) dir config d logs Hol Hne) as H. fold records in H.
    destruct (btree_takes_all records (mt_build (cf_memtable_bytes config))) as [t E]. rewrite E in H. destruct H as (e & w & E' & _). by exists e, w.
  - pose proof (open_only_logs (T := SkipMemtable) dir config d logs Hol Hne) as H. fold records in H.
    by rewrite (skip_list_overfilled (cf_memtable_bytes config) records Hfit Hc Hn Hok Hnd) in H.
Qed.

(** 1025 records in two logs, each with a key of its own; the arena of the smallest
    budget has as many nodes. *)
Definition many_records (first : Z) (n : Z) : list LogRecord := (fun i => RSet (1 + i) (bstr "k" ++ to_le 4 i) []) <$> seqZ first n.

Definition two_logs (first second : list LogRecord) : Disk :=
  mkDisk {["000001.wal" := 0%nat; "000002.wal" := 1%nat]} [] {[0%nat := log_file first; 1%nat := log_file second]} ∅ ∅ 2.

Lemma whole_recoverable d name i recs : names d !! name = Some i -> contents d i = log_file recs -> recoverable d name recs.
Proof. intros Hn Hc. unfold recoverable. rewrite Hn, Hc. exists []. by rewrite app_nil_r. Qed.

Lemma two_logs_only first second : Forall record_ok first -> Forall record_ok second -> only_logs (two_logs first second) [(1, first); (2, second)].
Proof.
  intros Hfirst Hsecond. split.
  - repeat constructor.
  - intros name. cbn [two_logs names]. split.
    + intros [i [[<- <-]|[_ [<- <-]%lookup_singleton_Some]]%lookup_insert_Some]; [exists 1|exists 2]; split; try reflexivity; by repeat constructor.
    + intros (k & [->|[->|Hk%elem_of_nil]%elem_of_cons]%elem_of_cons & ->); [..|done]; by eexists.
  - intros k recs [[= -> ->]|[[= -> ->]|Hk%elem_of_nil]%elem_of_cons]%elem_of_cons; [..|done]; (split; [by vm_compute|]).
    + split; [by apply (whole_recoverable _ _ 0%nat)|done].
    + split; [by apply (whole_recoverable _ _ 1%nat)|done].
Qed.

Lemma full_logs_panic_open_witness :
  let config := mkConfig Always 0 4 10 in
  let d := two_logs (many_records 0 1000) (many_records 1000 25) in
  (exists e w, engine_open (T := BTreeMemtable) "db" config (mkWorld d []) = (Ok e, w)) /\
  fst (engine_open (T := SkipMemtable) "db" config (mkWorld d [])) = Err Panic.
Proof.
  refine (full_logs_panic_open "db" (mkConfig Always 0 4 10) _ _ (two_logs_only (many_records 0 1000) (many_records 1000 25) _ _) _ _ _ _).
  - apply (bool_decide_unpack _). vm_compute. exact I.
  - apply (bool_decide_unpack _). vm_compute. exact I.
  - apply (bool_decide_unpack _). vm_compute. exact I.
  - vm_compute. reflexivity.
  - vm_compute. discriminate.
  - vm_compute. discriminate.
Defined.
